(* ===== verification/_CoqProject ===== *)
-Q . S2P
Prelude.v
RustStr.v
CoreTypes.v
Redb.v
Keys.v
Model.v
Serial.v
Apply.v
Spec.v
Samples.v
ApplyFacts.v
Refine.v
Engine.v
Invariant.v
StoreLaws.v
StoreThms.v
Counters.v
RaftStore.v
Replicas.v
RaftSamples.v
RaftThms.v
Platform.v
Crypto.v
Kms.v
KmsThms.v
Cache.v
ApiTypes.v
PgApply.v
IpAddr.v
Guards.v
Service.v
Manage.v
Routes.v
Router.v
RouterThms.v
ServiceSafe.v
ServiceRun.v
ServiceThms.v
AccessThms.v
HttpThms.v
RewrapThms.v
WorkerThms.v
ServiceSamples.v
ServiceWitness.v
RewrapRace.v
Calls.v
Peer.v
RaftNode.v
NodeThms.v
PeerThms.v
ClusterThms.v
ClusterSamples.v
Config.v
Startup.v
ConfigThms.v
StartupThms.v
LifeThms.v
StartupSamples.v
HttpSamples.v
FuzzCore.v
FuzzCoreThms.v
FuzzStore.v
FuzzStoreThms.v
FuzzRaftThms.v
TestsCore.v
TestsStore.v
TestsApi.v
