(* ===== verification/Prelude.v ===== *)
(** * HyperionDB Vault: a verification library

    This library verifies HyperionDB Vault, a secret store that keeps encrypted
    secrets in an embedded database, replicates them with Raft, rotates them on
    a schedule, and serves them over HTTP to callers that hold a token or come
    from an allowed address.

    ** The program and its model

    - [hyperion-vault-core] (types, permissions, rotation times, envelope
      encryption, token fingerprints, the address allowlist): [CoreTypes],
      [Crypto], [IpAddr].  [RustStr] has the string functions of the standard
      library on UTF-8 bytes, this file the integers with their overflow.
    - [store/] (records and commands, keys, the command interpreter, backup, the
      single-node store): [Model], [Keys], [Apply], [Engine].  A redb table is
      an ordered map behind an interface ([Redb]); serde_json is an encoder and
      a decoder with a round trip ([Model.Serde]).  [Spec] is the abstract
      vault: finite maps and one clause per command.
    - [raft/store.rs] (log, votes, snapshots, state machine): [RaftStore].
      [raft/peer.rs], [raft/server.rs], [raft/network.rs]: [Peer].
      [raft/node.rs] (start, discovery, bootstrap, forwarding): [RaftNode].
    - [kms.rs], [cache.rs], [pg_apply.rs]: [Kms], [Cache], [PgApply].
    - [guards.rs], [lockout.rs], [authz.rs], [state.rs]: [Guards].
      [dto.rs], [error.rs]: [ApiTypes].  [clock.rs]: [Platform].
      [service.rs]: [Service].  [manage.rs], [rewrap.rs] and both workers:
      [Manage].  [routes.rs]: the handlers in [Routes], the table of paths and
      the answers of the server in [Router].
    - [config.rs]: [Config].  [lib.rs] and [kms::build]: [Startup].
    - [fuzz/fuzz_targets]: the targets and their oracles, one module each, in
      [FuzzCore] (parsers, permissions, envelopes, keys) and [FuzzStore]
      (command sequences, backups, log repair, snapshots).
    - The unit tests and [tests/]: suites of named verdicts in [TestsCore],
      [TestsStore] and [TestsApi], which start nodes and send them requests as
      the tests do.  They all pass by evaluation on the concrete instances: a
      check of the definitions against what the authors expect of the code.

    ** How code is represented

    A transaction body is a computation on the database that may stop with an
    error ([ste] below); [transaction] drops its writes on error.  An async
    handler is a sequence of atomic actions on what the tasks of a node share
    ([Platform.prog]): [run_prog] runs one alone, [interleave] runs several in
    any order.  The code around the Raft engine is a program of calls
    ([Calls.calls]): [answers] has its runs against an environment that may
    answer anything, [exec] runs it against a given one.  Start-up is a
    computation on the world of one node ([Startup]).

    Third-party code is a parameter with the laws it documents: the cipher and
    hash ([Crypto.CryptoLaws]), AWS ([Kms.AwsLaws]), the operating system
    ([Platform.PlatformLaws]), ipnet ([IpAddr]), redb ([Redb.RedbLaws]), serde
    ([Model.SerdeLaws], [RaftStore.RaftSerdeLaws], [Peer.PeerSerdeLaws]), axum
    ([Peer.AxumLaws]), openraft and the network ([ClusterThms.ClusterLaws]).
    Every law class has a concrete instance ([Serial], [Samples], [RaftSamples],
    [ServiceSamples], [ClusterSamples], [StartupSamples], [HttpSamples]), on
    which the theorems are applied.

    ** What is proved

    - The store ([Refine], [ApplyFacts], [Invariant], [StoreLaws], [StoreThms],
      [Counters]): every command does what the abstract vault says, errors
      included and without writing; reachable stores are well-formed; a version
      number is never written twice, deletions and sweeps remove exactly what
      they should, revoked tokens stay revoked.  [StoreLaws.VaultStoreLaws] is
      the contract the service is verified against.
    - Replication ([RaftThms], [Replicas], [ClusterThms], [PeerThms],
      [NodeThms]): the log is a map of entries, repair leaves it contiguous, a
      batch refines the abstract vault, a snapshot carries the state over,
      replicas agree; a write, forwarded or not, is an entry of the journal of
      the node that took it and answers what the vault says at that point; messages
      between engines arrive unchanged or not at all; only configured,
      authenticated peers reach the engine; no split brain, and bootstrap ends
      and does create a cluster; Raft state is discarded only to rejoin.
    - Secrets ([KmsThms], [Cache], [ServiceSafe], [ServiceRun], [ServiceThms],
      [RewrapThms], [PgApply]): in every interleaving of requests all rows stay
      decryptable under their own identity and cached keys are right; what was
      created, updated or rotated is what is read; [verify] accepts exactly the
      live values; a re-wrap pass keeps every plaintext.  Where a key provider
      may fail (AWS), the theorems say what is answered then.  [WorkerThms]: a tick
      of the rotation worker rotates every due secret by one version and goes
      on after failures; a tick of the re-wrap worker moves its watermark only
      when every live version was re-wrapped.
    - Requests as they come in ([RouterThms], [HttpThms]): which paths reach
      which secret; every request is answered, and one that is not admitted is
      turned away with its status; what was created or rotated over HTTP is what
      a [GET] of the secret's path answers.
    - The life of a node ([LifeThms]): started from its environment, serving
      and rotating, stopped anywhere, restored from its own backups and started
      again, it keeps opening every version it stored, and what a [GET] answered
      before a stop it answers after the next start.
    - Access ([AccessThms], [IpAddr]): whoever is not admitted is turned away
      and changes nothing; a locked-out peer stays out.
    - Start-up ([ConfigThms], [StartupThms]): accepted configurations are
      well-formed; a started node satisfies the invariant of the service.
    - The fuzz oracles ([FuzzCoreThms], [FuzzStoreThms], [FuzzRaftThms]): what
      the fuzzer samples holds for every input; no assertion of the targets can
      fail, except that [crypto_roundtrip] fails on a forged ciphertext.
    - Defects ([RewrapRace], [RaftThms.current_snapshot_stale],
      [Counters.audit_append_overwrites],
      [StartupThms.bootstrap_token_outlives_revocation],
      [PeerThms.peer_credential]): each is a theorem on a run of the model.

    ** Bounds and fuel

    Loops follow lists or given counts, so almost nothing needs fuel.  Decimal
    printing runs for twenty digits, enough for a [u64]; hexadecimal for four,
    enough for a [u16] ([RustStr.dec], [IpAddr.hex]).  The loop over the pages
    of AWS's rotation list is bounded by a parameter, and running out of it is
    an error value ([Kms.aws_latest]).  Discovery makes its ten attempts, the
    retry loop its configured number.  The endless polling loops of the workers
    are cut after a given number of rounds, for every such number.

    ** Not modelled

    Listening, spawning and logging; the (de)serialization of API bodies by
    axum, its check of the content type, and its HEAD and OPTIONS requests; an
    apply between the transactions of the snapshot builder; the texts of error messages beyond
    the values they are made of; wiping of memory; openraft's own algorithm,
    and with it the tests that run several engines ([raft_cluster.rs], the last
    test of [backup.rs]).  Fuzz targets that ignore what they call ([dto_decode],
    [raft_rpc_decode], [envelope_unwrap], [rotation]) only see that the call
    returns, which total functions do; tests of the random source and of base64
    and the scripts are left out. *)

From Stdlib Require Export Ascii String Strings.Byte.
From stdpp Require Export base tactics gmap strings sorting numbers countable list.

(** ** Results

    Rust's [Result<A, E>]; the [?] operator is the bind. *)
Inductive result (E A : Type) : Type :=
| Ok (a : A)
| Err (e : E).
Arguments Ok {E A} a.
Arguments Err {E A} e.

#[global] Instance result_ret {E} : MRet (result E) := λ A a, Ok a.
#[global] Instance result_bind {E} : MBind (result E) := λ A B f r,
  match r with Ok a => f a | Err e => Err e end.
#[global] Instance result_fmap {E} : FMap (result E) := λ A B f r,
  match r with Ok a => Ok (f a) | Err e => Err e end.

Definition map_err {E F A} (f : E → F) (r : result E A) : result F A :=
  match r with Ok a => Ok a | Err e => Err (f e) end.
Definition ok_or {E A} (e : E) (o : option A) : result E A :=
  match o with Some a => Ok a | None => Err e end.
Definition is_ok {E A} (r : result E A) : bool :=
  match r with Ok _ => true | Err _ => false end.
Definition to_option {E A} (r : result E A) : option A :=
  match r with Ok a => Some a | Err _ => None end.

(** ** A state monad with errors

    [ste S E A] is a computation that reads and writes an [S] and may stop
    with an error.  An error keeps the writes made before it: undoing them is
    the caller's business, as it is in the code (a dropped transaction). *)
Definition ste (S E A : Type) : Type := S → S * result E A.

#[global] Instance ste_ret {S E} : MRet (ste S E) := λ A a s, (s, Ok a).
#[global] Instance ste_bind {S E} : MBind (ste S E) := λ A B f m s,
  match m s with
  | (s', Ok a) => f a s'
  | (s', Err e) => (s', Err e)
  end.

Definition raise {S E A} (e : E) : ste S E A := λ s, (s, Err e).
Definition lift_result {S E A} (r : result E A) : ste S E A := λ s, (s, r).
Definition read_state {S E A} (f : S → A) : ste S E A := λ s, (s, Ok (f s)).
Definition modify {S E} (f : S → S) : ste S E unit := λ s, (f s, Ok tt).

(** [for x in l { body x }] *)
Fixpoint ste_iter {S E A} (body : A → ste S E unit) (l : list A) : ste S E unit :=
  match l with
  | [] => mret tt
  | x :: l => body x ;; ste_iter body l
  end.

(** A transaction: its writes stay when it commits and are dropped with it when
    the body stops with an error. *)
Definition transaction {S E A} (body : ste S E A) : ste S E A := λ s,
  match body s with
  | (s', Ok a) => (s', Ok a)
  | (_, Err e) => (s, Err e)
  end.

(** ** Bytes *)
Notation bytes := (list byte).

#[global] Instance byte_eq_dec : EqDecision byte := Byte.byte_eq_dec.
#[global] Program Instance byte_countable : Countable byte :=
  inj_countable Byte.to_N Byte.of_N _.
Next Obligation. apply Byte.of_to_N. Qed.

Definition as_bytes (s : string) : bytes := String.list_byte_of_string s.

#[global] Instance as_bytes_inj : Inj (=) (=) as_bytes.
Proof.
  intros s1 s2 H. rewrite <- (String.string_of_list_byte_of_string s1),
    <- (String.string_of_list_byte_of_string s2). by f_equal.
Qed.

(** ** Machine integers

    An [i32], [i64], [u16], [u32] or [u64] is a [Z]; the wrap-around of
    unchecked release-mode arithmetic and the saturating and checked variants
    are written out. *)
Definition i32_min : Z := -2147483648.
Definition i32_max : Z := 2147483647.
Definition i64_min : Z := -9223372036854775808.
Definition i64_max : Z := 9223372036854775807.
Definition u16_max : Z := 65535.
Definition u32_max : Z := 4294967295.
Definition u64_max : Z := 18446744073709551615.

Definition in_i32 (z : Z) : Prop := (i32_min ≤ z ≤ i32_max)%Z.
Definition in_i64 (z : Z) : Prop := (i64_min ≤ z ≤ i64_max)%Z.
Definition in_u32 (z : Z) : Prop := (0 ≤ z ≤ u32_max)%Z.
Definition in_u64 (z : Z) : Prop := (0 ≤ z ≤ u64_max)%Z.

Definition wrap_i64 (z : Z) : Z := ((z - i64_min) `mod` 2 ^ 64 + i64_min)%Z.
Definition wrap_u32 (z : Z) : Z := (z `mod` 2 ^ 32)%Z.
Definition wrap_u64 (z : Z) : Z := (z `mod` 2 ^ 64)%Z.
Definition sat_i64 (z : Z) : Z := (i64_min `max` (z `min` i64_max))%Z.
Definition sat_u64 (z : Z) : Z := (z `min` u64_max)%Z.

Definition checked_add_i32 (a b : Z) : option Z :=
  if decide (in_i32 (a + b)) then Some (a + b)%Z else None.
Definition checked_add_u64 (a b : Z) : option Z :=
  if decide (a + b ≤ u64_max)%Z then Some (a + b)%Z else None.

Ltac unfold_ints :=
  unfold in_i32, in_i64, in_u32, in_u64, i32_min, i32_max, i64_min, i64_max,
    u16_max, u32_max, u64_max in *.

Lemma wrap_i64_id z : in_i64 z → wrap_i64 z = z.
Proof. intros H. unfold wrap_i64. unfold_ints. rewrite Z.mod_small; lia. Qed.
Lemma wrap_u32_id z : in_u32 z → wrap_u32 z = z.
Proof. intros H. unfold wrap_u32. unfold_ints. rewrite Z.mod_small; lia. Qed.
Lemma wrap_u64_id z : in_u64 z → wrap_u64 z = z.
Proof. intros H. unfold wrap_u64. unfold_ints. rewrite Z.mod_small; lia. Qed.
Lemma sat_i64_bounds z : in_i64 (sat_i64 z).
Proof. unfold sat_i64. unfold_ints. lia. Qed.

(** ** Automation *)

(** The lemmas that compute the effect of one step of a component. *)
Create HintDb vault discriminated.

(** Case analysis on the matches of a computation, with the equations it
    yields simplified. *)
Ltac crush_match :=
  repeat first
    [ progress intros
    | progress simplify_eq/=
    | done
    | case_match
    | case_decide ].

(** Run a monadic definition: expose the binds, then split. *)
Ltac unfold_monad :=
  unfold mbind, mret, fmap, ste_bind, ste_ret, result_bind, result_ret,
    result_fmap, raise, lift_result, read_state, modify, map_err, ok_or in *.

Ltac run := unfold_monad; crush_match.

(** ** Generic lemmas *)

Lemma bool_decide_iff_eq (P Q : Prop) `{!Decision P, !Decision Q} :
  (P ↔ Q) → bool_decide P = bool_decide Q.
Proof. intros H. by apply bool_decide_ext. Qed.

Lemma forallb_Forall {A} (f : A → bool) l :
  forallb f l = true ↔ Forall (λ x, f x = true) l.
Proof.
  induction l as [|x l IH]; simpl; [by split|].
  by rewrite Forall_cons, andb_true_iff, IH.
Qed.

Lemma existsb_Exists {A} (f : A → bool) l :
  existsb f l = true ↔ Exists (λ x, f x = true) l.
Proof.
  induction l as [|x l IH]; simpl; [by rewrite Exists_nil|].
  by rewrite Exists_cons, orb_true_iff, IH.
Qed.

Lemma Forall2_impl_elem {A B} (P Q : A → B → Prop) l k :
  Forall2 P l k → (∀ x y, x ∈ l → P x y → Q x y) → Forall2 Q l k.
Proof.
  induction 1 as [|x y l k Hxy _ IH]; intros HQ; constructor; [by apply HQ; [left|]|].
  apply IH. intros x' y' Hx. apply HQ. by right.
Qed.

Lemma last_elem_of {A} (l : list A) x : last l = Some x → x ∈ l.
Proof. intros [k ->]%last_Some. set_solver. Qed.

Lemma StronglySorted_filter {A} (R : relation A) (P : A → Prop) `{PD : !∀ x, Decision (P x)} l :
  StronglySorted R l → StronglySorted R (filter P l).
Proof.
  induction 1 as [|x l Hl IH Hall]; [constructor|]. rewrite filter_cons.
  case_decide; [|done]. constructor; [done|]. rewrite Forall_forall in Hall |- *.
  intros y [_ Hy]%list_elem_of_filter. by apply Hall.
Qed.

(** The last element of a sorted list is its greatest. *)
Lemma StronglySorted_last {A} (R : relation A) l x y :
  StronglySorted R l → last l = Some x → y ∈ l → y = x ∨ R y x.
Proof.
  intros Hs [l' ->]%last_Some Hy. apply StronglySorted_app in Hs as (H & _ & _).
  apply elem_of_app in Hy as [Hy|Hy]; [right; apply H; set_solver|left; set_solver].
Qed.

Lemma insert_alter_const `{Countable K} {A} (m : gmap K A) k x y :
  m !! k = Some y → <[k := x]> m = alter (λ _, x) k m.
Proof. intros Hk. by rewrite <- (insert_id m k y Hk), alter_insert_eq, insert_insert_eq. Qed.

Lemma alter_insert_present `{Countable K} {A} (m : gmap K A) f k y :
  m !! k = Some y → alter f k m = <[k := f y]> m.
Proof. intros Hk. by rewrite <- (insert_id m k y Hk) at 1; rewrite alter_insert_eq. Qed.
