(* ===== verification/RustStr.v ===== *)
(** * Strings of the Rust standard library

    A Rust [String] or [&str] is modelled by the bytes of its UTF-8 encoding,
    a [string] of [Ascii]: [len] counts bytes, comparison is bytewise, and the
    methods the vault calls ([split], [split_once], [trim], [strip_prefix],
    [parse], [to_string], the [{:010}] format) are defined here once. *)

From S2P Require Import Prelude.

#[global] Arguments String.append !s1 s2 / : simpl nomatch.

Section bytewise.
Local Open Scope N_scope.

Definition byte_in (lo hi : N) (a : ascii) : bool :=
  (lo <=? N_of_ascii a) && (N_of_ascii a <=? hi).

Definition is_ascii_digit (a : ascii) : bool := byte_in 48 57 a.
Definition is_ascii_upper (a : ascii) : bool := byte_in 65 90 a.
Definition is_ascii_lower (a : ascii) : bool := byte_in 97 122 a.
Definition is_ascii_alphanumeric (a : ascii) : bool :=
  is_ascii_digit a || is_ascii_upper a || is_ascii_lower a.

(** The [White_Space] code points, by the length of their UTF-8 encoding. *)
Definition is_ws1 (a : ascii) : bool := byte_in 9 13 a || byte_in 32 32 a.
Definition is_ws2 (a b : ascii) : bool :=
  byte_in 194 194 a && (byte_in 133 133 b || byte_in 160 160 b).
Definition is_ws3 (a b c : ascii) : bool :=
  (byte_in 225 225 a && byte_in 154 154 b && byte_in 128 128 c)
  || (byte_in 226 226 a && byte_in 128 128 b
      && (byte_in 128 138 c || byte_in 168 169 c || byte_in 175 175 c))
  || (byte_in 226 226 a && byte_in 129 129 b && byte_in 159 159 c)
  || (byte_in 227 227 a && byte_in 128 128 b && byte_in 128 128 c).
End bytewise.

Fixpoint all_bytes (f : ascii → bool) (s : string) : bool :=
  match s with
  | "" => true
  | String a s => f a && all_bytes f s
  end.

Definition is_empty (s : string) : bool := match s with "" => true | _ => false end.

(** [str::contains(char)] *)
Definition contains_char (c : ascii) (s : string) : bool :=
  negb (all_bytes (λ a, negb (Ascii.eqb a c)) s).

Fixpoint ends_with_char (c : ascii) (s : string) : bool :=
  match s with
  | "" => false
  | String a "" => Ascii.eqb a c
  | String _ s => ends_with_char c s
  end.

Fixpoint strip_prefix (p s : string) : option string :=
  match p, s with
  | "", _ => Some s
  | String a p, String b s => if Ascii.eqb a b then strip_prefix p s else None
  | _, _ => None
  end.

Definition starts_with (p s : string) : bool :=
  match strip_prefix p s with Some _ => true | None => false end.

(** [str::strip_suffix(char)] *)
Fixpoint strip_suffix_char (c : ascii) (s : string) : option string :=
  match s with
  | "" => None
  | String a "" => if Ascii.eqb a c then Some "" else None
  | String a s => String a <$> strip_suffix_char c s
  end.

(** [str::split(char)]: never empty, one more piece than separators. *)
Fixpoint split_char (c : ascii) (s : string) : list string :=
  match s with
  | "" => [""]
  | String a s =>
      if Ascii.eqb a c then "" :: split_char c s
      else match split_char c s with
           | piece :: rest => String a piece :: rest
           | [] => [String a ""]
           end
  end.

Fixpoint split_once (c : ascii) (s : string) : option (string * string) :=
  match s with
  | "" => None
  | String a s =>
      if Ascii.eqb a c then Some ("", s)
      else match split_once c s with
           | Some (l, r) => Some (String a l, r)
           | None => None
           end
  end.

Fixpoint rsplit_once (c : ascii) (s : string) : option (string * string) :=
  match s with
  | "" => None
  | String a s =>
      match rsplit_once c s with
      | Some (l, r) => Some (String a l, r)
      | None => if Ascii.eqb a c then Some ("", s) else None
      end
  end.

(** [str::trim]: drop white space at both ends.  The right end is scanned on
    the reversed bytes, with the bytes of one encoded character reversed. *)
Fixpoint trim_left (rtl : bool) (s : string) : string :=
  match s with
  | "" => ""
  | String a s1 =>
      if is_ws1 a then trim_left rtl s1 else
      match s1 with
      | "" => s
      | String b s2 =>
          if (if rtl then is_ws2 b a else is_ws2 a b) then trim_left rtl s2 else
          match s2 with
          | "" => s
          | String c s3 =>
              if (if rtl then is_ws3 c b a else is_ws3 a b c)
              then trim_left rtl s3 else s
          end
      end
  end.

Definition trim (s : string) : string :=
  String.rev (trim_left true (String.rev (trim_left false s))).

Definition to_lower_byte (a : ascii) : ascii :=
  if is_ascii_upper a then ascii_of_N (N_of_ascii a + 32) else a.
Fixpoint to_ascii_lowercase (s : string) : string :=
  match s with
  | "" => ""
  | String a s => String (to_lower_byte a) (to_ascii_lowercase s)
  end.

(** ** UTF-8

    [std::str::from_utf8]: the well-formed byte sequences. *)
Section utf8.
Definition in_range (lo hi : N) (b : byte) : bool := (lo <=? Byte.to_N b)%N && (Byte.to_N b <=? hi)%N.
Definition cont (b : byte) : bool := in_range 128 191 b.

Fixpoint utf8_valid (bs : bytes) : bool :=
  match bs with
  | [] => true
  | a :: r1 =>
      if in_range 0 127 a then utf8_valid r1 else
      match r1 with
      | [] => false
      | b :: r2 =>
          if in_range 194 223 a && cont b then utf8_valid r2 else
          match r2 with
          | [] => false
          | c :: r3 =>
              if (in_range 224 224 a && in_range 160 191 b
                  || (in_range 225 236 a || in_range 238 239 a) && cont b
                  || in_range 237 237 a && in_range 128 159 b) && cont c
              then utf8_valid r3 else
              match r3 with
              | [] => false
              | d :: r4 =>
                  if (in_range 240 240 a && in_range 144 191 b
                      || in_range 241 243 a && cont b
                      || in_range 244 244 a && in_range 128 143 b) && cont c && cont d
                  then utf8_valid r4 else false
              end
          end
      end
  end.

Definition from_utf8 (bs : bytes) : option string :=
  if utf8_valid bs then Some (String.string_of_list_byte bs) else None.

(** The bytes of a Rust string are well-formed. *)
Definition is_utf8 (s : string) : Prop := utf8_valid (as_bytes s) = true.

Lemma from_utf8_as_bytes s : is_utf8 s → from_utf8 (as_bytes s) = Some s.
Proof.
  unfold from_utf8, is_utf8. intros ->. f_equal. apply String.string_of_list_byte_of_string.
Qed.
End utf8.

(** ** Decimal numbers *)

Definition digit_char (d : Z) : ascii := ascii_of_N (Z.to_N (48 + d)).
Definition digit_val (a : ascii) : Z := (Z.of_N (N_of_ascii a) - 48)%Z.

Fixpoint dec_go (fuel : nat) (n : Z) (acc : string) : string :=
  match fuel with
  | O => acc
  | S fuel =>
      let acc' := String (digit_char (n `mod` 10)) acc in
      if (n <? 10)%Z then acc' else dec_go fuel (n `div` 10) acc'
  end.

(** [to_string] of a number up to [u64::MAX], which has twenty digits. *)
Definition dec (n : Z) : string := dec_go 20 n "".

Definition int_to_string (z : Z) : string :=
  if (z <? 0)%Z then String "-" (dec (- z)) else dec z.

Fixpoint zeros (n : nat) : string :=
  match n with O => "" | S n => String "0" (zeros n) end.
Definition pad (w : nat) (s : string) : string := zeros (w - String.length s) +:+ s.

(** [format!("{:0w}", z)]: the sign counts towards the width. *)
Definition fmt_padded (w : nat) (z : Z) : string :=
  if (z <? 0)%Z then String "-" (pad (w - 1) (dec (- z))) else pad w (dec z).

Fixpoint parse_acc (acc : Z) (s : string) : option Z :=
  match s with
  | "" => Some acc
  | String a s =>
      if is_ascii_digit a then parse_acc (acc * 10 + digit_val a) s else None
  end.

(** [str::parse] of an unsigned type with maximum [max]: an optional [+],
    then at least one digit, and no overflow. *)
Definition parse_unsigned (max : Z) (s : string) : option Z :=
  let digits := match s with String "+" s' => s' | _ => s end in
  if is_empty digits then None
  else match parse_acc 0 digits with
       | Some n => if decide (n ≤ max)%Z then Some n else None
       | None => None
       end.

(** [str::parse::<i32>] *)
Definition parse_i32 (s : string) : option Z :=
  match s with
  | String "-" s' =>
      if is_empty s' then None
      else match parse_acc 0 s' with
           | Some n => if decide (n ≤ - i32_min)%Z then Some (- n)%Z else None
           | None => None
           end
  | _ => parse_unsigned i32_max s
  end.

(** ** Lemmas *)

Lemma append_nil_r (s : string) : s +:+ "" = s.
Proof. induction s as [|a s IH]; simpl; [done|by f_equal]. Qed.

Lemma append_assoc (s t u : string) : s +:+ (t +:+ u) = (s +:+ t) +:+ u.
Proof. induction s as [|a s IH]; simpl; [done|by f_equal]. Qed.

Lemma length_append (s t : string) :
  String.length (s +:+ t) = String.length s + String.length t.
Proof. induction s as [|a s IH]; simpl; [done|by f_equal]. Qed.

Lemma as_bytes_append s t : as_bytes (s +:+ t) = as_bytes s ++ as_bytes t.
Proof.
  unfold as_bytes, String.list_byte_of_string.
  induction s as [|a s IH]; simpl; [done|by f_equal].
Qed.

Lemma all_bytes_append f s t : all_bytes f (s +:+ t) = all_bytes f s && all_bytes f t.
Proof. induction s as [|a s IH]; simpl; [done|by rewrite IH, andb_assoc]. Qed.

Lemma all_bytes_impl (f g : ascii → bool) s :
  (∀ a, f a = true → g a = true) → all_bytes f s = true → all_bytes g s = true.
Proof.
  intros Hfg. induction s as [|a s IH]; simpl; [done|].
  rewrite !andb_true_iff. naive_solver.
Qed.

(** A string without the separator [c]. *)
Definition no_char (c : ascii) (s : string) : bool :=
  all_bytes (λ a, negb (Ascii.eqb a c)) s.

Lemma no_char_contains c s : contains_char c s = negb (no_char c s).
Proof. done. Qed.

Lemma split_once_Some c s l r :
  split_once c s = Some (l, r) ↔ s = l +:+ String c r ∧ no_char c l = true.
Proof.
  revert l. induction s as [|a s IH]; intros l; simpl.
  { split; [done|]. intros [H _]. by destruct l. }
  destruct (Ascii.eqb_spec a c) as [->|Hne].
  - split; [by intros [= <- <-]|]. intros [H Hl].
    destruct l as [|b l]; simplify_eq/=; [done|].
    unfold no_char in Hl. simpl in Hl. by rewrite Ascii.eqb_refl in Hl.
  - split.
    + destruct (split_once c s) as [[l' r']|] eqn:E; intros [=]; subst.
      destruct (proj1 (IH _) eq_refl) as [-> Hl]. split; [done|]. unfold no_char in *. simpl. rewrite Hl.
      by destruct (Ascii.eqb_spec a c).
    + intros [H Hl]. destruct l as [|b l]; simplify_eq/=.
      apply andb_true_iff in Hl as [_ Hl]. by rewrite (proj2 (IH l) (conj eq_refl Hl)).
Qed.

Lemma split_once_None c s : split_once c s = None ↔ no_char c s = true.
Proof.
  induction s as [|a s IH]; simpl; [done|]. unfold no_char in *. simpl.
  destruct (Ascii.eqb_spec a c) as [->|Hne]; simpl; [done|].
  destruct (split_once c s) as [[]|]; naive_solver.
Qed.

Lemma strip_prefix_Some p s r : strip_prefix p s = Some r ↔ s = p +:+ r.
Proof.
  revert s. induction p as [|a p IH]; intros s; simpl; [naive_solver|].
  destruct s as [|b s]; [naive_solver|].
  destruct (Ascii.eqb_spec a b) as [->|Hne]; [rewrite IH|]; naive_solver.
Qed.

Lemma starts_with_spec p s : starts_with p s = true ↔ ∃ r, s = p +:+ r.
Proof.
  unfold starts_with. setoid_rewrite <- strip_prefix_Some.
  destruct (strip_prefix p s); naive_solver.
Qed.

Lemma append_snoc_nil c s : s +:+ String c "" ≠ "".
Proof. by destruct s. Qed.

Lemma strip_suffix_char_Some c s r :
  strip_suffix_char c s = Some r ↔ s = r +:+ String c "".
Proof.
  revert r. induction s as [|a s IH]; intros r.
  { simpl. split; [done|]. intros H. symmetry in H. by apply append_snoc_nil in H. }
  destruct s as [|b s].
  - simpl. destruct (Ascii.eqb_spec a c) as [->|Hne], r as [|d r]; simpl;
      (split; [naive_solver|]); intros H; simplify_eq; try done;
      match goal with H : "" = _ |- _ => symmetry in H; by apply append_snoc_nil in H end.
  - change (strip_suffix_char c (String a (String b s)))
      with (String a <$> strip_suffix_char c (String b s)).
    rewrite fmap_Some. setoid_rewrite IH. split.
    { intros (y & H & ->). simpl. by rewrite <- H. }
    destruct r as [|d r]; simpl; [done|]. intros [= -> H]. eauto.
Qed.

(** *** Bytewise order *)

Lemma ascii_compare_refl a : Ascii.compare a a = Eq.
Proof. apply N.compare_refl. Qed.

Lemma compare_append_l p s t : String.compare (p +:+ s) (p +:+ t) = String.compare s t.
Proof. induction p as [|a p IH]; simpl; [done|]. by rewrite ascii_compare_refl. Qed.

Lemma le_append_l p s t : String.le (p +:+ s) (p +:+ t) ↔ String.le s t.
Proof. unfold String.le, String.leb. by rewrite compare_append_l. Qed.

Lemma le_nil s : String.le "" s.
Proof. unfold String.le, String.leb. by destruct s. Qed.

Lemma le_cons_lt a b s t : (N_of_ascii a < N_of_ascii b)%N → String.le (String a s) (String b t).
Proof.
  intros H. unfold String.le, String.leb. simpl. unfold Ascii.compare.
  by rewrite (proj2 (N.compare_lt_iff _ _) H).
Qed.

(** *** Decimal round trips *)

Lemma digit_char_ok d : (0 ≤ d < 10)%Z →
  is_ascii_digit (digit_char d) = true ∧ digit_val (digit_char d) = d.
Proof.
  intros H. assert (d = 0 ∨ d = 1 ∨ d = 2 ∨ d = 3 ∨ d = 4 ∨ d = 5 ∨ d = 6 ∨ d = 7
    ∨ d = 8 ∨ d = 9)%Z as Hd by lia.
  destruct_or!; subst; by vm_compute.
Qed.

Lemma parse_dec_go fuel n acc :
  (0 ≤ n < 10 ^ Z.of_nat fuel)%Z → fuel ≠ 0 →
  parse_acc 0 (dec_go fuel n acc) = parse_acc n acc.
Proof.
  revert n acc. induction fuel as [|fuel IH]; intros n acc Hn Hf; [done|]. simpl.
  pose proof (Z.mod_pos_bound n 10 ltac:(lia)) as Hm.
  destruct (digit_char_ok (n `mod` 10) Hm) as [Hd Hv].
  destruct (Z.ltb_spec n 10) as [Hlt|Hge].
  - simpl. rewrite Hd, Hv. f_equal. rewrite Z.mod_small; lia.
  - rewrite IH.
    + simpl. rewrite Hd, Hv. f_equal. rewrite (Z.div_mod n 10) at 3; lia.
    + rewrite Nat2Z.inj_succ, Z.pow_succ_r in Hn by lia.
      split; [apply Z.div_pos; lia|apply Z.div_lt_upper_bound; lia].
    + destruct fuel; [simpl in Hn; lia|done].
Qed.

Lemma all_digits_dec_go fuel n acc :
  (0 ≤ n)%Z → all_bytes is_ascii_digit acc = true →
  all_bytes is_ascii_digit (dec_go fuel n acc) = true.
Proof.
  revert n acc. induction fuel as [|fuel IH]; intros n acc Hn Hacc; simpl; [done|].
  pose proof (digit_char_ok (n `mod` 10) (Z.mod_pos_bound n 10 ltac:(lia))) as [Hd _].
  case_match; [simpl; by rewrite Hd|].
  apply IH; [apply Z.div_pos; lia|simpl; by rewrite Hd].
Qed.

Lemma length_dec_go fuel w n acc :
  (0 ≤ n < 10 ^ Z.of_nat w)%Z → w ≠ 0 →
  String.length (dec_go fuel n acc) ≤ w + String.length acc.
Proof.
  revert w n acc. induction fuel as [|fuel IH]; intros w n acc Hn Hw; simpl; [lia|].
  destruct (Z.ltb_spec n 10) as [Hlt|Hge]; simpl; [lia|].
  destruct w as [|w]; [done|].
  rewrite Nat2Z.inj_succ, Z.pow_succ_r in Hn by lia.
  destruct w as [|w]; [simpl in Hn; lia|].
  etrans; [apply (IH (S w)); [|done]|simpl; lia].
  split; [apply Z.div_pos; lia|apply Z.div_lt_upper_bound; lia].
Qed.

Lemma parse_dec n : (0 ≤ n ≤ u64_max)%Z → parse_acc 0 (dec n) = Some n.
Proof. intros H. unfold dec. rewrite parse_dec_go; [done| |done]. unfold_ints. lia. Qed.

Lemma dec_inj n m : (0 ≤ n ≤ u64_max)%Z → (0 ≤ m ≤ u64_max)%Z → dec n = dec m → n = m.
Proof.
  intros Hn Hm H. apply (f_equal (parse_acc 0)) in H.
  rewrite !parse_dec in H by done. congruence.
Qed.

Lemma all_digits_dec n : (0 ≤ n)%Z → all_bytes is_ascii_digit (dec n) = true.
Proof. intros H. by apply all_digits_dec_go. Qed.

Lemma int_to_string_inj n m : in_i32 n → in_i32 m →
  int_to_string n = int_to_string m → n = m.
Proof.
  intros Hn Hm. unfold int_to_string.
  assert (∀ k z, (0 ≤ k)%Z → String "-" z = dec k → False) as Hneg.
  { intros k z Hk Hz. pose proof (all_digits_dec k Hk) as Hd. rewrite <- Hz in Hd. done. }
  destruct (Z.ltb_spec n 0), (Z.ltb_spec m 0); intros Heq; unfold_ints.
  - simplify_eq. apply dec_inj in Heq; unfold_ints; lia.
  - exfalso. by eapply (Hneg m); [lia|].
  - exfalso. by eapply (Hneg n); [lia|].
  - apply dec_inj in Heq; unfold_ints; lia.
Qed.

Lemma parse_acc_zeros k s : parse_acc 0 (zeros k +:+ s) = parse_acc 0 s.
Proof. induction k; done. Qed.

Lemma length_zeros k : String.length (zeros k) = k.
Proof. induction k; simpl; auto. Qed.

Lemma all_digits_zeros k : all_bytes is_ascii_digit (zeros k) = true.
Proof. by induction k. Qed.

Lemma length_pad w s : String.length s ≤ w → String.length (pad w s) = w.
Proof. intros H. unfold pad. rewrite length_append, length_zeros. lia. Qed.

(** A non-negative number below [10^w] formats to exactly [w] digits, which
    parse back to it. *)
Lemma fmt_padded_ok w n :
  w ≠ 0 → (0 ≤ n < 10 ^ Z.of_nat w)%Z → (n ≤ u64_max)%Z →
  String.length (fmt_padded w n) = w
  ∧ all_bytes is_ascii_digit (fmt_padded w n) = true
  ∧ parse_acc 0 (fmt_padded w n) = Some n.
Proof.
  intros Hw Hn Hmax. unfold fmt_padded. destruct (Z.ltb_spec n 0); [lia|]. split_and!.
  - apply length_pad. unfold dec. etrans; [by apply length_dec_go|simpl; lia].
  - unfold pad. rewrite all_bytes_append, all_digits_zeros. apply all_digits_dec. lia.
  - unfold pad. rewrite parse_acc_zeros. apply parse_dec. lia.
Qed.

Lemma parse_acc_nonneg acc s n : (0 ≤ acc)%Z → parse_acc acc s = Some n → (0 ≤ n)%Z.
Proof.
  revert acc. induction s as [|a s IH]; intros acc Hacc; simpl; [naive_solver|].
  case_match eqn:Hd; [|done]. apply IH.
  unfold is_ascii_digit, byte_in in Hd. apply andb_true_iff in Hd as [H1 _].
  apply N.leb_le in H1. unfold digit_val. lia.
Qed.

Lemma parse_unsigned_dec max n :
  (0 ≤ n ≤ max)%Z → (max ≤ u64_max)%Z → parse_unsigned max (dec n) = Some n.
Proof.
  intros Hn Hmax. pose proof (all_digits_dec n ltac:(lia)) as Hd. unfold parse_unsigned.
  assert (∃ a s, dec n = String a s ∧ is_ascii_digit a = true) as (a & s & Heq & Ha).
  { destruct (dec n) as [|a s] eqn:E.
    - pose proof (parse_dec n ltac:(lia)) as Hp. rewrite E in Hp. injection Hp as <-. by vm_compute in E.
    - exists a, s. split; [done|]. simpl in Hd. by apply andb_true_iff in Hd as [? _]. }
  assert ((match dec n with String "+" s' => s' | _ => dec n end) = dec n) as ->.
  { rewrite Heq. destruct (Ascii.eqb_spec a "+") as [->|Hne]; [done|].
    by destruct a as [[] [] [] [] [] [] [] []]. }
  replace (is_empty (dec n)) with false by (by rewrite Heq).
  rewrite parse_dec by lia. by rewrite decide_True by lia.
Qed.

Lemma digits_no_char c s : is_ascii_digit c = false → all_bytes is_ascii_digit s = true → no_char c s = true.
Proof.
  intros Hc. apply all_bytes_impl. intros a Ha. destruct (Ascii.eqb_spec a c) as [->|]; [congruence|done].
Qed.

Lemma no_char_append c s t : no_char c (s +:+ t) = no_char c s && no_char c t.
Proof. apply all_bytes_append. Qed.

Lemma dec_no_char c n : (0 ≤ n)%Z → is_ascii_digit c = false → no_char c (dec n) = true.
Proof. intros. by apply digits_no_char, all_digits_dec. Qed.

(** *** The last separator *)

Lemma rsplit_once_None c s : rsplit_once c s = None ↔ no_char c s = true.
Proof.
  induction s as [|a s IH]; simpl; [done|]. unfold no_char in *. simpl.
  destruct (rsplit_once c s) as [[]|].
  - split; [done|]. intros [_ H]%andb_true_iff. by apply IH in H.
  - destruct (Ascii.eqb_spec a c) as [->|Hne]; simpl; [done|]. by rewrite <- IH.
Qed.

Lemma rsplit_once_Some c s : ∀ l r,
  rsplit_once c s = Some (l, r) ↔ s = l +:+ String c r ∧ no_char c r = true.
Proof.
  induction s as [|a s IH]; intros l r; simpl.
  { split; [done|]. intros [H _]. by destruct l. }
  split.
  - destruct (rsplit_once c s) as [[l' r']|] eqn:E.
    + intros [= <- <-]. destruct (proj1 (IH l' r') eq_refl) as [-> Hr]. by split.
    + destruct (Ascii.eqb_spec a c) as [->|]; [|done]. intros [= <- <-]. split; [done|].
      by apply rsplit_once_None.
  - intros [H Hr]. destruct l as [|b l]; simplify_eq/=.
    + rewrite (proj2 (rsplit_once_None c r) Hr). by rewrite Ascii.eqb_refl.
    + by rewrite (proj2 (IH l r) (conj eq_refl Hr)).
Qed.
