(* ===== verification/CoreTypes.v ===== *)
(** * The security core: names, versions, associated data, RBAC, rotation

    Models [hyperion-vault-core]: [error.rs], [types.rs], [rbac.rs] and
    [rotation.rs]. *)

From S2P Require Import Prelude RustStr.

(** ** error.rs *)

Inductive CoreError :=
| Encryption
| Decryption
| KeyWrap
| KeyUnwrap
| InvalidAllowlist (entry : string)
| KeyLength (expected got : nat).

(** ** types.rs *)

Inductive SecretKind := Manual | Automatic.
Inductive SecretFormat := Opaque | Userpass.

#[global] Instance SecretKind_eq_dec : EqDecision SecretKind.
Proof. solve_decision. Defined.
#[global] Instance SecretFormat_eq_dec : EqDecision SecretFormat.
Proof. solve_decision. Defined.

Module SecretKind.
Definition as_str (k : SecretKind) : string :=
  match k with Manual => "manual" | Automatic => "automatic" end.

Definition parse (value : string) : option SecretKind :=
  if decide (value = "manual") then Some Manual
  else if decide (value = "automatic") then Some Automatic
  else None.
End SecretKind.

Module SecretFormat.
Definition as_str (f : SecretFormat) : string :=
  match f with Opaque => "opaque" | Userpass => "userpass" end.

Definition parse (value : string) : option SecretFormat :=
  if decide (value = "opaque") then Some Opaque
  else if decide (value = "userpass") then Some Userpass
  else None.
End SecretFormat.

Definition MAX_SECRET_NAME_LEN : nat := 255.
Definition MIN_SECRET_VERSION : Z := 1.

(** A byte a secret name may contain.  A character outside ASCII has only
    bytes of 128 and above, so the bytewise test agrees with [chars().all]. *)
Definition name_char (c : ascii) : bool :=
  is_ascii_alphanumeric c
  || Ascii.eqb c "-" || Ascii.eqb c "_" || Ascii.eqb c "/" || Ascii.eqb c ".".

Definition is_valid_secret_name (name : string) : bool :=
  negb (is_empty name)
  && (String.length name <=? MAX_SECRET_NAME_LEN)%nat
  && all_bytes name_char name.

Definition is_valid_secret_version (version : Z) : bool :=
  (MIN_SECRET_VERSION <=? version)%Z.

Definition clean_segment (segment : string) : bool :=
  negb (is_empty segment)
  && negb (bool_decide (segment = ".")) && negb (bool_decide (segment = "..")).

Definition is_normalized_secret_name (name : string) : bool :=
  is_valid_secret_name name
  && negb (starts_with "/" name)
  && negb (ends_with_char "/" name)
  && forallb clean_segment (split_char "/" name).

Definition aad_for (name : string) (version : Z) : bytes :=
  as_bytes name ++ as_bytes ":" ++ as_bytes (int_to_string version).

(** *** Facts on names *)

Lemma valid_name_no_char c name :
  name_char c = false → is_valid_secret_name name = true → no_char c name = true.
Proof.
  unfold is_valid_secret_name. rewrite !andb_true_iff. intros Hc [_ H].
  eapply all_bytes_impl; [|exact H]. intros a Ha.
  destruct (Ascii.eqb_spec a c) as [->|]; [congruence|done].
Qed.

Lemma valid_name_no_nul name :
  is_valid_secret_name name = true → no_char "000" name = true.
Proof. by apply valid_name_no_char. Qed.

Lemma valid_name_no_colon name :
  is_valid_secret_name name = true → no_char ":" name = true.
Proof. by apply valid_name_no_char. Qed.

Lemma normalized_valid name :
  is_normalized_secret_name name = true → is_valid_secret_name name = true.
Proof. unfold is_normalized_secret_name. rewrite !andb_true_iff. naive_solver. Qed.

(** Two strings without the separator, each followed by it, agree piecewise. *)
Lemma split_sep_inj c l1 l2 r1 r2 :
  no_char c l1 = true → no_char c l2 = true →
  l1 +:+ String c r1 = l2 +:+ String c r2 → l1 = l2 ∧ r1 = r2.
Proof.
  intros H1 H2 H.
  pose proof (proj2 (split_once_Some c _ l1 r1) (conj eq_refl H1)) as E1.
  pose proof (proj2 (split_once_Some c _ l2 r2) (conj eq_refl H2)) as E2.
  rewrite H in E1. rewrite E1 in E2. by simplify_eq.
Qed.

Lemma aad_for_string name version :
  aad_for name version = as_bytes (name +:+ String ":" (int_to_string version)).
Proof. unfold aad_for. by rewrite as_bytes_append. Qed.

(** The associated data of a ciphertext identifies its secret and version:
    no two distinct (name, version) pairs with valid names share it, so a
    ciphertext sealed for one cannot be presented as another. *)
Theorem aad_for_injective name1 name2 v1 v2 :
  is_valid_secret_name name1 = true → is_valid_secret_name name2 = true →
  in_i32 v1 → in_i32 v2 →
  aad_for name1 v1 = aad_for name2 v2 → name1 = name2 ∧ v1 = v2.
Proof.
  intros Hn1 Hn2 Hv1 Hv2. rewrite !aad_for_string. intros H%(inj as_bytes).
  apply split_sep_inj in H as [-> Hs]; [|by apply valid_name_no_colon..].
  by apply int_to_string_inj in Hs.
Qed.

Lemma aad_for_injective_witness : "db/password" = "db/password" ∧ (7 = 7)%Z.
Proof. by apply (aad_for_injective "db/password" "db/password" 7 7). Defined.

(** ** rbac.rs *)

Definition ACTIONS : list string := ["create"; "update"; "delete"; "rotate"].

Definition is_valid_action (action : string) : bool :=
  bool_decide (action = "*") || bool_decide (action ∈ ACTIONS).

Definition path_matches (pattern name : string) : bool :=
  match strip_suffix_char "*" pattern with
  | Some prefix => starts_with prefix name
  | None => bool_decide (pattern = name)
  end.

Definition action_matches (rule_action action : string) : bool :=
  bool_decide (rule_action = "*") || bool_decide (rule_action = action).

Definition authorize (is_admin : bool) (rules : list (string * string))
    (action name : string) : bool :=
  is_admin || existsb (λ '(a, p), action_matches a action && path_matches p name) rules.

Definition visible (is_admin : bool) (rules : list (string * string)) (name : string) : bool :=
  is_admin || existsb (λ '(_, p), path_matches p name) rules.

Lemma path_matches_spec pattern name :
  path_matches pattern name = true ↔
  (∃ prefix rest, pattern = prefix +:+ "*" ∧ name = prefix +:+ rest)
  ∨ (pattern = name ∧ strip_suffix_char "*" pattern = None).
Proof.
  unfold path_matches. destruct (strip_suffix_char "*" pattern) as [p|] eqn:E.
  - apply strip_suffix_char_Some in E as ->. rewrite starts_with_spec. split.
    + intros [r ->]. left. by exists p, r.
    + intros [(p' & r & Hp & ->)|[_ ?]]; [|done].
      assert (strip_suffix_char "*" (p +:+ "*") = Some p') as Hs
        by by apply strip_suffix_char_Some.
      rewrite (proj2 (strip_suffix_char_Some "*" (p +:+ "*") p) eq_refl) in Hs.
      simplify_eq. by exists r.
  - rewrite bool_decide_eq_true. split; [by right|].
    intros [(p & r & -> & _)|[? _]]; [|done].
    by rewrite (proj2 (strip_suffix_char_Some "*" (p +:+ "*") p) eq_refl) in E.
Qed.

(** What a token may do: an actor is authorized for an action on a name
    exactly when it is an admin or one of its rules names the action (or [*])
    and has a path that is the name itself or a [prefix*] of it. *)
Theorem authorize_spec is_admin rules action name :
  authorize is_admin rules action name = true ↔
  is_admin = true
  ∨ ∃ a p, (a, p) ∈ rules ∧ (a = "*" ∨ a = action)
      ∧ ((∃ prefix rest, p = prefix +:+ "*" ∧ name = prefix +:+ rest)
         ∨ (p = name ∧ strip_suffix_char "*" p = None)).
Proof.
  unfold authorize. rewrite orb_true_iff, existsb_Exists, Exists_exists.
  setoid_rewrite <- path_matches_spec.
  enough (∀ a p, action_matches a action && path_matches p name = true ↔
            (a = "*" ∨ a = action) ∧ path_matches p name = true) as Hm.
  { split; (intros [?|H]; [by left|right]).
    - destruct H as ([a p] & Hin & H). apply Hm in H. naive_solver.
    - destruct H as (a & p & Hin & Ha & Hp). exists (a, p). split; [done|].
      by apply Hm. }
  intros a p. unfold action_matches.
  by rewrite andb_true_iff, orb_true_iff, !bool_decide_eq_true.
Qed.

(** Whoever may act on a secret may also list it. *)
Lemma authorize_visible is_admin rules action name :
  authorize is_admin rules action name = true → visible is_admin rules name = true.
Proof.
  unfold authorize, visible. rewrite !orb_true_iff, !existsb_Exists, !Exists_exists.
  intros [?|([a p] & Hin & H)]; [by left|right]. exists (a, p). split; [done|].
  by apply andb_true_iff in H as [_ H].
Qed.

(** ** rotation.rs *)

Definition MAX_ROTATION_INTERVAL_SECS : Z := 100 * 365 * 24 * 60 * 60.
Definition MAX_GRACE_SECS : Z := MAX_ROTATION_INTERVAL_SECS.

Definition next_rotation_unix (from_unix interval_secs : Z) : Z :=
  sat_i64 (from_unix + interval_secs).
Definition grace_expiry_unix (superseded_at_unix grace_secs : Z) : Z :=
  sat_i64 (superseded_at_unix + grace_secs).
Definition next_version (current : Z) : option Z := checked_add_i32 current 1.

(** [Duration::as_secs] is a [u64]; the cast to [i64] wraps. *)
Record RotationPolicy := { interval : Z; grace : Z }.

Module RotationPolicy.
Definition next_rotation_unix (p : RotationPolicy) (from_unix : Z) : Z :=
  CoreTypes.next_rotation_unix from_unix (wrap_i64 (interval p)).
Definition grace_expiry_unix (p : RotationPolicy) (superseded_at_unix : Z) : Z :=
  CoreTypes.grace_expiry_unix superseded_at_unix (wrap_i64 (grace p)).
End RotationPolicy.

Definition is_due (now_unix next_rotation_unix : Z) : bool :=
  (next_rotation_unix <=? now_unix)%Z.

Definition version_active (now_unix : Z) (expires_at_unix : option Z) : bool :=
  match expires_at_unix with
  | None => true
  | Some expiry => (now_unix <? expiry)%Z
  end.

Lemma next_version_spec current :
  in_i32 current →
  next_version current = if decide (current = i32_max) then None else Some (current + 1)%Z.
Proof.
  intros H. unfold next_version, checked_add_i32. unfold_ints.
  repeat case_decide; try done; lia.
Qed.

(** A rotation timer set from an interval the API accepts is an [i64] in
    the future (unless the clock is at the end of time), and it is due exactly
    once the interval has passed. *)
Theorem next_rotation_due now interval_secs later :
  in_i64 now → (0 < interval_secs ≤ MAX_ROTATION_INTERVAL_SECS)%Z →
  (now + interval_secs ≤ i64_max)%Z →
  in_i64 (next_rotation_unix now interval_secs)
  ∧ is_due now (next_rotation_unix now interval_secs) = false
  ∧ (is_due later (next_rotation_unix now interval_secs) = true ↔
     (interval_secs ≤ later - now)%Z).
Proof.
  intros Hnow Hi Hmax. unfold is_due. split; [apply sat_i64_bounds|].
  assert (next_rotation_unix now interval_secs = now + interval_secs)%Z as ->.
  { unfold next_rotation_unix, sat_i64. unfold_ints. lia. }
  rewrite Z.leb_gt, Z.leb_le. lia.
Qed.

Lemma next_rotation_due_witness :
  in_i64 (next_rotation_unix 1700000000 86400)
  ∧ is_due 1700000000 (next_rotation_unix 1700000000 86400) = false
  ∧ (is_due 1700086400 (next_rotation_unix 1700000000 86400) = true ↔
     (86400 ≤ 1700086400 - 1700000000)%Z).
Proof.
  apply (next_rotation_due 1700000000 86400 1700086400);
    unfold MAX_ROTATION_INTERVAL_SECS; unfold_ints; lia.
Defined.
