(* ===== verification/Redb.v ===== *)
(** * The embedded store: redb tables as an interface

    redb is a third-party crate, so a table is a parameter: [Redb] names the
    operations the vault calls and [RedbLaws] states what redb documents of
    them (a sorted map from keys to byte strings: reads see the writes of their
    transaction, [iter] and [range] yield every entry once in ascending key
    order).  Every definition of the store is written against [Redb] and every
    theorem against [RedbLaws]; [gmap_redb] is an implementation, which shows
    that the laws can hold and lets the model run. *)

From S2P Require Import Prelude RustStr.

(** ** Keys *)

(** A key type of redb, with its comparison. *)
Class OrdKey (K : Type) := {
  key_eq_dec : EqDecision K;
  key_countable : Countable K;
  key_le : relation K;
  key_le_dec :: RelDecision key_le;
  key_le_po :: PartialOrder key_le;
  key_le_total :: Total key_le;
}.

#[global] Existing Instance key_eq_dec | 100.
#[global] Existing Instance key_countable | 100.

(** [&str] keys compare bytewise. *)
#[global] Instance str_key : OrdKey string := {| key_le := String.le |}.

(** [&[u8]] keys compare bytewise too. *)
Definition bytes_le (a b : bytes) : Prop :=
  String.le (String.string_of_list_byte a) (String.string_of_list_byte b).

#[global] Instance bytes_le_dec : RelDecision bytes_le.
Proof. intros a b. unfold bytes_le. apply _. Defined.
#[global] Instance bytes_le_po : PartialOrder bytes_le.
Proof.
  unfold bytes_le. split; [split|].
  - by intros a.
  - intros a b c ??. by etrans.
  - intros a b H1 H2.
    rewrite <- (String.list_byte_of_string_of_list_byte a),
      <- (String.list_byte_of_string_of_list_byte b).
    f_equal. by apply (anti_symm String.le).
Qed.
#[global] Instance bytes_le_total : Total bytes_le.
Proof. intros a b. apply (total String.le). Qed.
#[global] Instance bytes_key : OrdKey bytes := {| key_le := bytes_le |}.

(** [u64] keys. *)
#[global] Instance u64_key : OrdKey Z := {| key_le := Z.le |}.

(** ** Tables *)

Class Redb := {
  table : ∀ (K : Type) `{!OrdKey K}, Type;
  t_empty : ∀ {K} `{!OrdKey K}, table K;
  t_get : ∀ {K} `{!OrdKey K}, table K → K → option bytes;
  t_insert : ∀ {K} `{!OrdKey K}, K → bytes → table K → table K;
  t_remove : ∀ {K} `{!OrdKey K}, K → table K → table K;
  t_iter : ∀ {K} `{!OrdKey K}, table K → list (K * bytes);
}.

Class RedbLaws `{!Redb} : Prop := {
  t_get_empty {K} `{!OrdKey K} (k : K) : t_get t_empty k = None;
  t_get_insert {K} `{!OrdKey K} (k k' : K) v t :
    t_get (t_insert k v t) k' = if decide (k = k') then Some v else t_get t k';
  t_get_remove {K} `{!OrdKey K} (k k' : K) t :
    t_get (t_remove k t) k' = if decide (k = k') then None else t_get t k';
  t_iter_get {K} `{!OrdKey K} (k : K) v t :
    (k, v) ∈ t_iter t ↔ t_get t k = Some v;
  t_iter_sorted {K} `{!OrdKey K} (t : table K) :
    StronglySorted (λ a b, strict key_le a.1 b.1) (t_iter t);
}.

(** [table.range(lo..hi)] on string keys, [table.range(..=hi)] and
    [table.range(lo..)] on [u64] keys: the entries whose key is in the range,
    in order. *)
Definition t_range `{!Redb} {K} `{!OrdKey K} (p : K → bool) (t : table K) : list (K * bytes) :=
  filter (λ kv, p kv.1 = true) (t_iter t).

Definition t_keys `{!Redb} {K} `{!OrdKey K} (t : table K) : list K := (t_iter t).*1.

(** [for key in keys { table.remove(key)?; }] *)
Definition t_remove_all `{!Redb} {K} `{!OrdKey K} (ks : list K) (t : table K) : table K :=
  foldl (λ t k, t_remove k t) t ks.

(** [for (key, value) in rows { table.insert(key, value)?; }] *)
Definition t_insert_all `{!Redb} {K} `{!OrdKey K} (rows : list (K * bytes)) (t : table K) : table K :=
  foldl (λ t kv, t_insert kv.1 kv.2 t) t rows.

(** ** Equality of contents *)

Section laws.
Context `{RE : !Redb, RL : !RedbLaws} {K : Type} `{OK : !OrdKey K}.
Implicit Types (t : table K) (k : K).

#[export] Instance table_equiv : Equiv (table K) := λ t1 t2, ∀ k, t_get t1 k = t_get t2 k.

#[export] Instance table_equivalence : Equivalence (≡@{table K}).
Proof.
  split; [by intros t k|by intros t1 t2 H k|].
  intros t1 t2 t3 H12 H23 k. by rewrite (H12 k).
Qed.

#[export] Instance t_get_proper : Proper ((≡) ==> (=) ==> (=)) (t_get (K := K)).
Proof. intros t1 t2 H k ? <-. apply H. Qed.

#[export] Instance t_insert_proper k v : Proper ((≡) ==> (≡)) (t_insert k v).
Proof. intros t1 t2 H k'. rewrite !t_get_insert. by rewrite (H k'). Qed.

#[export] Instance t_remove_proper k : Proper ((≡) ==> (≡)) (t_remove k).
Proof. intros t1 t2 H k'. rewrite !t_get_remove. by rewrite (H k'). Qed.

Lemma t_get_insert_eq t k v : t_get (t_insert k v t) k = Some v.
Proof. rewrite t_get_insert. by case_decide. Qed.
Lemma t_get_insert_ne t k k' v : k ≠ k' → t_get (t_insert k v t) k' = t_get t k'.
Proof. intros. rewrite t_get_insert. by case_decide. Qed.
Lemma t_get_remove_eq t k : t_get (t_remove k t) k = None.
Proof. rewrite t_get_remove. by case_decide. Qed.
Lemma t_get_remove_ne t k k' : k ≠ k' → t_get (t_remove k t) k' = t_get t k'.
Proof. intros. rewrite t_get_remove. by case_decide. Qed.

Lemma strict_keys_nodup (l : list (K * bytes)) :
  StronglySorted (λ a b, strict key_le a.1 b.1) l → NoDup l.*1.
Proof.
  induction 1 as [|[k v] l Hl IH Hall]; simpl; [constructor|].
  constructor; [|done]. intros ([k' v'] & -> & Hin)%list_elem_of_fmap.
  rewrite Forall_forall in Hall. by destruct (Hall _ Hin) as [? []].
Qed.

Lemma t_keys_nodup t : NoDup (t_keys t).
Proof. apply strict_keys_nodup, t_iter_sorted. Qed.

Lemma elem_of_t_keys t k : k ∈ t_keys t ↔ is_Some (t_get t k).
Proof.
  unfold t_keys. rewrite list_elem_of_fmap. split.
  - intros ([k' v] & -> & H%t_iter_get). eauto.
  - intros [v H%t_iter_get]. by exists (k, v).
Qed.

Lemma t_iter_nodup t : NoDup (t_iter t).
Proof. eapply (NoDup_fmap_1 fst), t_keys_nodup. Qed.

(** Iteration depends on the contents only. *)
#[export] Instance t_iter_proper : Proper ((≡) ==> (=)) (t_iter (K := K)).
Proof.
  intros t1 t2 H. apply (StronglySorted_unique_strong (λ a b, strict key_le a.1 b.1)).
  - intros a b _ _ [Hab Hn] [Hba _]. by destruct Hn.
  - apply t_iter_sorted.
  - apply t_iter_sorted.
  - apply NoDup_Permutation; [apply t_iter_nodup..|].
    intros [k v]. rewrite !t_iter_get. by rewrite (H k).
Qed.

#[export] Instance t_range_proper p : Proper ((≡) ==> (=)) (t_range (K := K) p).
Proof. intros t1 t2 H. unfold t_range. by rewrite H. Qed.

Lemma elem_of_t_range t p k v :
  (k, v) ∈ t_range p t ↔ p k = true ∧ t_get t k = Some v.
Proof. unfold t_range. by rewrite list_elem_of_filter, t_iter_get. Qed.

Lemma t_range_sorted t p : StronglySorted (λ a b, strict key_le a.1 b.1) (t_range p t).
Proof. apply StronglySorted_filter, t_iter_sorted. Qed.

(** [range(..).next_back()] is the greatest entry of the range. *)
Lemma t_range_last_None t p k : last (t_range p t) = None → p k = true → t_get t k = None.
Proof.
  intros Hl%last_None Hp. destruct (t_get t k) as [v|] eqn:E; [|done].
  assert ((k, v) ∈ t_range p t) as Hin by by apply elem_of_t_range.
  rewrite Hl in Hin. by apply elem_of_nil in Hin.
Qed.

Lemma t_range_last_Some t p k v :
  last (t_range p t) = Some (k, v) →
  p k = true ∧ t_get t k = Some v
  ∧ ∀ k', p k' = true → is_Some (t_get t k') → key_le k' k.
Proof.
  intros Hl. pose proof (last_elem_of _ _ Hl) as [Hp Hk]%elem_of_t_range.
  split_and!; [done..|]. intros k' Hp' [v' Hv'].
  assert ((k', v') ∈ t_range p t) as Hin by by apply elem_of_t_range.
  destruct (StronglySorted_last _ _ _ _ (t_range_sorted t p) Hl Hin) as [[= -> ->]|[? _]]; done.
Qed.

Lemma t_get_remove_all t ks k :
  t_get (t_remove_all ks t) k = if decide (k ∈ ks) then None else t_get t k.
Proof.
  unfold t_remove_all. revert t. induction ks as [|k' ks IH]; intros t; [done|].
  cbn [foldl]. rewrite IH, t_get_remove. repeat case_decide; set_solver.
Qed.

Lemma t_get_insert_all_notin t rows k :
  k ∉ rows.*1 → t_get (t_insert_all rows t) k = t_get t k.
Proof.
  unfold t_insert_all. revert t. induction rows as [|[k' v] rows IH]; intros t; simpl; [done|].
  rewrite not_elem_of_cons. intros [Hne Hnin]. rewrite IH by done.
  by apply t_get_insert_ne.
Qed.

Lemma t_get_insert_all t rows k v :
  NoDup rows.*1 → (k, v) ∈ rows → t_get (t_insert_all rows t) k = Some v.
Proof.
  unfold t_insert_all. revert t. induction rows as [|[k' v'] rows IH]; intros t; simpl.
  - intros _ H. by apply elem_of_nil in H.
  - rewrite NoDup_cons, elem_of_cons. intros [Hnin Hnd] [[= -> ->]|Hin].
    + fold (t_insert_all rows (t_insert k' v' t)).
      rewrite t_get_insert_all_notin by done. apply t_get_insert_eq.
    + by apply IH.
Qed.

Lemma t_remove_keys t : t_remove_all (t_keys t) t ≡ t_empty.
Proof.
  intros k. rewrite t_get_remove_all, t_get_empty. case_decide as Hd; [done|].
  rewrite elem_of_t_keys in Hd. by apply eq_None_not_Some.
Qed.

(** Emptying a table and inserting the rows of another copies it. *)
Lemma t_copy t1 t2 : t_insert_all (t_iter t1) (t_remove_all (t_keys t2) t2) ≡ t1.
Proof.
  intros k. destruct (t_get t1 k) as [v|] eqn:E.
  - apply t_get_insert_all; [apply t_keys_nodup|by apply t_iter_get].
  - rewrite t_get_insert_all_notin.
    + by rewrite (t_remove_keys t2 k), t_get_empty.
    + fold (t_keys t1). rewrite elem_of_t_keys, E. by intros [].
Qed.
End laws.

(** ** An implementation on finite maps *)

Definition pair_le {K} `{!OrdKey K} (a b : K * bytes) : Prop := key_le a.1 b.1.

#[global] Instance pair_le_dec {K} `{!OrdKey K} : RelDecision pair_le.
Proof. intros a b. unfold pair_le. apply _. Defined.
#[global] Instance pair_le_total {K} `{!OrdKey K} : Total pair_le.
Proof. intros a b. apply (total key_le). Qed.
#[global] Instance pair_le_trans {K} `{!OrdKey K} : Transitive pair_le.
Proof. intros a b c. unfold pair_le. apply transitivity. Qed.

#[export] Instance gmap_redb : Redb := {|
  table K _ := gmap K bytes;
  t_empty K _ := ∅;
  t_get K _ t k := t !! k;
  t_insert K _ k v t := <[k := v]> t;
  t_remove K _ k t := delete k t;
  t_iter K _ t := merge_sort pair_le (map_to_list t);
|}.

Lemma sorted_nodup_strict {K} `{!OrdKey K} (l : list (K * bytes)) :
  StronglySorted pair_le l → NoDup l.*1 →
  StronglySorted (λ a b, strict key_le a.1 b.1) l.
Proof.
  induction 1 as [|[k v] l Hl IH Hall]; simpl; [constructor|].
  rewrite NoDup_cons. intros [Hnin Hnd]. constructor; [by apply IH|].
  rewrite Forall_forall in Hall |- *. intros [k' v'] Hin. split; [by apply (Hall _ Hin)|].
  simpl. intros Hle. apply Hnin. rewrite list_elem_of_fmap. exists (k', v').
  split; [|done]. simpl. apply (anti_symm key_le); [|done]. by apply (Hall _ Hin).
Qed.

#[export] Instance gmap_redb_laws : RedbLaws.
Proof.
  split; simpl; intros.
  - apply lookup_empty.
  - apply lookup_insert.
  - apply lookup_delete.
  - rewrite merge_sort_Permutation. apply elem_of_map_to_list.
  - apply sorted_nodup_strict; [apply StronglySorted_merge_sort; apply _|].
    rewrite merge_sort_Permutation. apply NoDup_fst_map_to_list.
Qed.
