(* ===== verification/Keys.v ===== *)
(** * Version keys

    Models the key functions of [store/engine.rs]: the rows of a secret's
    versions live under [name NUL vvvvvvvvvv], and a scan of a secret's rows is
    the byte range from [name NUL] to [name SOH]. *)

From S2P Require Import Prelude RustStr CoreTypes.

Definition nul : ascii := "000".
Definition soh : ascii := "001".

Definition version_key (name : string) (version : Z) : string :=
  name +:+ String nul (fmt_padded 10 version).

Definition version_lower (name : string) : string := name +:+ String nul "".
Definition version_upper (name : string) : string := name +:+ String soh "".

Definition VERSION_FIELD_WIDTH : nat := 10.

Definition split_version_key (key : string) : option (string * Z) :=
  '(name, rest) ← split_once nul key;
  if negb (String.length rest =? VERSION_FIELD_WIDTH)%nat
     || negb (all_bytes is_ascii_digit rest)
  then None
  else version ← parse_i32 rest; Some (name, version).

Definition version_from_key (name key : string) : option Z :=
  '(parsed, version) ← split_version_key key;
  if decide (parsed = name) then Some version else None.

(** The half-open byte range [lower..upper] of a scan. *)
Definition in_range (lo hi k : string) : bool :=
  bool_decide (String.le lo k) && bool_decide (strict String.le k hi).

Definition version_range (name key : string) : bool :=
  in_range (version_lower name) (version_upper name) key.

(** ** Parsing a key back *)

Lemma parse_i32_digits s n :
  is_empty s = false → all_bytes is_ascii_digit s = true →
  parse_i32 s = Some n ↔ parse_acc 0 s = Some n ∧ (n ≤ i32_max)%Z.
Proof.
  intros He Hd. destruct s as [|a s]; [done|]. simpl in Hd.
  assert (parse_i32 (String a s) = parse_unsigned i32_max (String a s)) as ->.
  { unfold parse_i32. by repeat case_match. }
  assert (parse_unsigned i32_max (String a s) =
    match parse_acc 0 (String a s) with
    | Some n => if decide (n ≤ i32_max)%Z then Some n else None
    | None => None end) as ->.
  { unfold parse_unsigned. by repeat case_match. }
  destruct (parse_acc 0 (String a s)) as [m|]; [case_decide|]; naive_solver.
Qed.

Lemma fmt_padded_i32 v : (0 ≤ v ≤ i32_max)%Z →
  String.length (fmt_padded 10 v) = 10
  ∧ all_bytes is_ascii_digit (fmt_padded 10 v) = true
  ∧ parse_i32 (fmt_padded 10 v) = Some v.
Proof.
  intros Hv. destruct (fmt_padded_ok 10 v) as (Hl & Hd & Hp); [done|unfold_ints; lia..|].
  split_and!; [done..|]. apply parse_i32_digits; [|done|split; [done|lia]].
  by destruct (fmt_padded 10 v).
Qed.

Lemma split_version_key_of name v :
  no_char nul name = true → (0 ≤ v ≤ i32_max)%Z →
  split_version_key (version_key name v) = Some (name, v).
Proof.
  intros Hn Hv. destruct (fmt_padded_i32 v Hv) as (Hl & Hd & Hp).
  unfold split_version_key, version_key.
  rewrite (proj2 (split_once_Some _ _ _ _) (conj eq_refl Hn)). simpl.
  unfold VERSION_FIELD_WIDTH. by rewrite Hl, Hd, Hp.
Qed.

Lemma split_version_key_Some key name v :
  split_version_key key = Some (name, v) →
  no_char nul name = true ∧ (0 ≤ v ≤ i32_max)%Z
  ∧ ∃ rest, key = name +:+ String nul rest ∧ String.length rest = 10
      ∧ all_bytes is_ascii_digit rest = true ∧ parse_acc 0 rest = Some v.
Proof.
  unfold split_version_key. destruct (split_once nul key) as [[n rest]|] eqn:E; [|done].
  simpl. destruct (Nat.eqb_spec (String.length rest) VERSION_FIELD_WIDTH) as [Hl|]; [|done].
  destruct (all_bytes is_ascii_digit rest) eqn:Hd; [|done]. simpl.
  destruct (parse_i32 rest) as [v'|] eqn:Hp; [|done]. intros [= -> ->].
  apply split_once_Some in E as [-> Hn].
  apply parse_i32_digits in Hp as [Hp Hmax]; [|by destruct rest|done].
  split_and!; [done|by eapply parse_acc_nonneg in Hp|done|eauto].
Qed.

(** Ten digits are determined by their value. *)
Lemma parse_acc_inj s t acc1 acc2 n :
  String.length s = String.length t →
  all_bytes is_ascii_digit s = true → all_bytes is_ascii_digit t = true →
  parse_acc acc1 s = Some n → parse_acc acc2 t = Some n → acc1 = acc2 ∧ s = t.
Proof.
  revert t acc1 acc2. induction s as [|a s IH]; intros [|b t] acc1 acc2; simpl; try done.
  { naive_solver. }
  intros [= Hl]. rewrite !andb_true_iff. intros [Ha Hs] [Hb Ht]. rewrite Ha, Hb.
  intros H1 H2. destruct (IH t _ _ Hl Hs Ht H1 H2) as [Hacc ->].
  unfold is_ascii_digit, byte_in in Ha, Hb. rewrite !andb_true_iff, !N.leb_le in Ha, Hb.
  unfold digit_val in Hacc.
  assert (N_of_ascii a = N_of_ascii b) as Hab by lia.
  split; [lia|]. f_equal.
  by rewrite <- (ascii_N_embedding a), <- (ascii_N_embedding b), Hab.
Qed.

(** A key that splits is the key of what it splits to. *)
Lemma version_key_of_split key name v :
  split_version_key key = Some (name, v) → key = version_key name v.
Proof.
  intros H. destruct (split_version_key_Some _ _ _ H)
    as (Hn & Hv & rest & -> & Hl & Hd & Hp).
  unfold version_key. do 2 f_equal.
  destruct (fmt_padded_ok 10 v) as (Hl' & Hd' & Hp'); [done|unfold_ints; lia..|].
  by eapply parse_acc_inj; [congruence|..].
Qed.

Lemma version_from_key_Some name key v :
  version_from_key name key = Some v ↔ split_version_key key = Some (name, v).
Proof.
  unfold version_from_key. destruct (split_version_key key) as [[n w]|]; simpl; [|done].
  case_decide; naive_solver.
Qed.

(** ** The scan range *)

Lemma strict_le_app p s t : strict String.le s t → strict String.le (p +:+ s) (p +:+ t).
Proof. intros [H1 H2]. split; by rewrite le_append_l. Qed.

Lemma version_range_key name rest :
  version_range name (name +:+ String nul rest) = true.
Proof.
  unfold version_range, in_range, version_lower, version_upper.
  rewrite andb_true_iff, !bool_decide_eq_true. split.
  - rewrite le_append_l. change (String nul rest) with (String nul "" +:+ rest).
    change (String nul "") with (String nul "" +:+ "") at 1.
    rewrite le_append_l. apply le_nil.
  - apply strict_le_app. split; [by apply le_cons_lt|]. by vm_compute.
Qed.

(** Version keys are a lossless encoding: a row key parses back to the
    secret and version it was built from, only that key parses to them, and
    the scan of the secret's byte range sees it. *)
Theorem version_key_roundtrip name v :
  is_valid_secret_name name = true → (0 ≤ v ≤ i32_max)%Z →
  split_version_key (version_key name v) = Some (name, v)
  ∧ (∀ key, split_version_key key = Some (name, v) → key = version_key name v)
  ∧ version_range name (version_key name v) = true.
Proof.
  intros Hn Hv. split_and!.
  - apply split_version_key_of; [by apply valid_name_no_nul|done].
  - intros key. apply version_key_of_split.
  - apply version_range_key.
Qed.

Lemma version_key_roundtrip_witness :
  split_version_key (version_key "db/password" 7) = Some ("db/password", 7%Z)
  ∧ (∀ key, split_version_key key = Some ("db/password", 7%Z) →
       key = version_key "db/password" 7)
  ∧ version_range "db/password" (version_key "db/password" 7) = true.
Proof. apply (version_key_roundtrip "db/password" 7); [done|unfold_ints; lia]. Defined.

Lemma version_key_inj name1 name2 v1 v2 :
  no_char nul name1 = true → no_char nul name2 = true →
  (0 ≤ v1 ≤ i32_max)%Z → (0 ≤ v2 ≤ i32_max)%Z →
  version_key name1 v1 = version_key name2 v2 → name1 = name2 ∧ v1 = v2.
Proof.
  intros Hn1 Hn2 Hv1 Hv2 H. apply (f_equal split_version_key) in H.
  rewrite !split_version_key_of in H by done. by simplify_eq.
Qed.

(** A row of another secret is never mistaken for one of [name], even when its
    key sorts inside the scan range. *)
Lemma version_from_key_other name other v :
  is_valid_secret_name other = true → (0 ≤ v ≤ i32_max)%Z → name ≠ other →
  version_from_key name (version_key other v) = None.
Proof.
  intros Ho Hv Hne. destruct (version_from_key name (version_key other v)) eqn:E; [|done].
  apply version_from_key_Some in E.
  rewrite split_version_key_of in E by (done || by apply valid_name_no_nul).
  congruence.
Qed.

(** A key that was built from a name and a version can only split into them,
    whatever bytes the name has. *)
Lemma split_version_key_self name v name' v' :
  (v ≤ i32_max)%Z → split_version_key (version_key name v) = Some (name', v') →
  name' = name ∧ v' = v.
Proof.
  intros Hmax H. destruct (split_version_key_Some _ _ _ H)
    as (Hn' & _ & rest & Hkey & _ & Hd & _).
  unfold version_key in Hkey. destruct (split_once nul name) as [[l r]|] eqn:E.
  - apply split_once_Some in E as [-> Hl]. rewrite <- append_assoc in Hkey. simpl in Hkey.
    apply split_sep_inj in Hkey as [-> <-]; [|done..].
    rewrite all_bytes_append in Hd. simpl in Hd. by rewrite andb_false_r in Hd.
  - apply split_once_None in E. apply split_sep_inj in Hkey as [-> <-]; [|done..].
    unfold fmt_padded in Hd. destruct (Z.ltb_spec v 0) as [|Hv]; [done|].
    rewrite split_version_key_of in H by (done || lia). by injection H.
Qed.
