(* ===== verification/Model.v ===== *)
(** * The store's data model

    Models [store/model.rs], [store/codec.rs] and the table definitions of
    [store/engine.rs] and [raft/store.rs]: the records, the replicated
    [Command]s, the errors, and the database file with its tables.  Record
    fields keep the source's names behind a one-letter prefix. *)

From S2P Require Import Prelude RustStr CoreTypes Redb.

(** ** Records *)

Record PgRoleTarget := {
  pg_hosts : list string;
  pg_database : string;
  pg_role : option string;
  pg_login_secret : option string;
}.

Inductive RotationTarget := PgReplica (pg : PgRoleTarget).

Definition default_pg_database : string := "postgres".

Record SecretRecord := {
  s_name : string;
  s_kind : SecretKind;
  s_format : SecretFormat;
  s_description : option string;
  s_rotation_interval_secs : option Z;
  s_grace_secs : Z;
  s_current_version : Z;
  s_next_rotation_at : option Z;
  s_created_at : Z;
  s_updated_at : Z;
  s_target : option RotationTarget;
}.

Record VersionRecord := {
  v_version : Z;
  v_kms_key_id : string;
  v_wrapped_dek : bytes;
  v_nonce : bytes;
  v_ciphertext : bytes;
  v_aad : bytes;
  v_created_at : Z;
  v_expires_at : option Z;
  v_wrapped_rotation_at : option Z;
}.

Record RoleRecord := {
  r_name : string;
  r_description : option string;
  r_is_admin : bool;
  r_permissions : list (string * string);
  r_created_at : Z;
}.

Record TokenRecord := {
  t_name : string;
  t_role : option string;
  t_fingerprint : bytes;
  t_created_at : Z;
  t_last_used_at : option Z;
  t_revoked_at : option Z;
}.

Record LockoutRecord := {
  l_failures : Z;
  l_window_start : Z;
  l_locked_until : option Z;
}.

Record AuditEntry := {
  a_at : Z;
  a_actor : option string;
  a_client_ip : option string;
  a_action : string;
  a_secret_name : option string;
  a_outcome : string;
  a_node_id : Z;
}.

Record KmsRewrapState := {
  k_last_completed_rotation_at : Z;
  k_last_swept_at : Z;
  k_updated_at : Z;
}.

Inductive NextRotation := Keep | Set_ (at_ : option Z).

Record BackupData := {
  b_version : Z;
  b_secrets : list (string * bytes);
  b_versions : list (string * bytes);
  b_roles : list (string * bytes);
  b_tokens : list (bytes * bytes);
  b_tokens_by_name : list (string * bytes);
  b_audit : list (Z * bytes);
  b_kms_rewrap : list (string * bytes);
}.

(** ** Commands *)

Inductive Command :=
| CreateSecret (secret : SecretRecord) (version : VersionRecord)
| PutVersion (name : string) (expected_current : Z) (version : VersionRecord)
    (supersede_expires_at : option Z) (set_description : option string)
    (set_rotation_interval_secs set_grace_secs : option Z)
    (next_rotation_at : NextRotation) (updated_at : Z)
| UpdateMeta (name : string) (expected_current : Z) (set_description : option string)
    (set_rotation_interval_secs set_grace_secs : option Z)
    (next_rotation_at : NextRotation) (updated_at : Z)
| DeleteSecret (name : string)
| CreateRole (role : RoleRecord)
| SetPermissions (name : string) (permissions : list (string * string))
| DeleteRole (name : string)
| AddToken (token : TokenRecord)
| RevokeToken (name : string) (revoked_at : Z)
| TouchToken (fingerprint : bytes) (at_ : Z)
| ExpireGraceVersions (now : Z)
| RewrapVersion (name : string) (version : Z) (kms_key_id : string)
    (wrapped_dek : bytes) (wrapped_rotation_at : Z)
| SetKmsRewrapState (state : KmsRewrapState)
| AppendAudit (entry : AuditEntry)
| RestoreDatabase (data : BackupData)
| RecordAuthFailure (key : string) (now max window_secs lockout_secs : Z).

Definition is_local (c : Command) : bool :=
  match c with
  | AppendAudit _ | RecordAuthFailure _ _ _ _ _ => true
  | _ => false
  end.

(** ** Errors

    A message is kept as the values its [format!] call is given. *)
Inductive RestoreError :=
| UnsupportedBackupVersion (version : Z)
| InvalidSecretName (name : string)
| InvalidVersionKey (key : string)
| AuditKeyAboveMaximum (key : Z).

Inductive message :=
| SecretVersionBelowMinimum (version : Z)
| SecretNameOutsideAlphabet (name : string)
| SecretAlreadyExists (name : string)
| RoleAlreadyExists (name : string)
| RoleStillHasTokens (name : string)
| FingerprintAlreadyExists
| TokenAlreadyExists (name : string)
| AuditKeySpaceExhausted
| RestoreRefused (why : RestoreError).

(** [StoreError], and what the [anyhow::Error] of an internal one carries;
    [Context] is an error in the text of another, or under [.context(..)]. *)
Inductive StoreError :=
| NotFound
| Conflict (msg : message)
| VersionConflict
| Internal (what : cause)
with cause :=
| Text (what : string)
| RestoreFailed (why : RestoreError)
| CoreFailed (why : CoreError)
| StoreFailed (why : StoreError)
| Context (what : string) (why : cause).
Coercion Text : string >-> cause.

Notation StoreResult := (result StoreError).

(** The errors a caller may see while the transaction is still committed: all
    but [Internal]. *)
Definition domain_error (e : StoreError) : bool :=
  match e with Internal _ => false | _ => true end.

(** ** Stored values

    serde_json is a third-party crate: [to_vec] and [from_slice] are
    parameters, related by the round trip serde documents for these types. *)
Class Serde (A : Type) := {
  to_vec : A → option bytes;
  from_slice : bytes → option A;
}.

Class SerdeLaws (A : Type) `{!Serde A} : Prop :=
  serde_roundtrip (a : A) : ∃ bs, to_vec a = Some bs ∧ from_slice bs = Some a.

Definition encode `{!Serde A} (value : A) : StoreResult bytes :=
  ok_or (Internal "encode store record") (to_vec value).
Definition decode `{!Serde A} (bs : bytes) : StoreResult A :=
  ok_or (Internal "decode store record") (from_slice bs).

Lemma encode_ok `{!Serde A, !SerdeLaws A} (a : A) :
  ∃ bs, encode a = Ok bs ∧ decode bs = Ok a.
Proof.
  destruct (serde_roundtrip a) as (bs & H1 & H2). exists bs.
  unfold encode, decode. by rewrite H1, H2.
Qed.

(** The types the store keeps as JSON. *)
Class StoreSerde := {
  serde_secret :: Serde SecretRecord;
  serde_version :: Serde VersionRecord;
  serde_role :: Serde RoleRecord;
  serde_token :: Serde TokenRecord;
  serde_lockout :: Serde LockoutRecord;
  serde_audit :: Serde AuditEntry;
  serde_rewrap :: Serde KmsRewrapState;
}.

Class StoreSerdeLaws `{!StoreSerde} : Prop := {
  serde_secret_ok :: SerdeLaws SecretRecord;
  serde_version_ok :: SerdeLaws VersionRecord;
  serde_role_ok :: SerdeLaws RoleRecord;
  serde_token_ok :: SerdeLaws TokenRecord;
  serde_lockout_ok :: SerdeLaws LockoutRecord;
  serde_audit_ok :: SerdeLaws AuditEntry;
  serde_rewrap_ok :: SerdeLaws KmsRewrapState;
}.

(** ** The database file *)

Section database.
Context `{RE : !Redb}.

Record Database := {
  db_secrets : table string;
  db_versions : table string;
  db_roles : table string;
  db_tokens : table bytes;
  db_tokens_by_name : table string;
  db_lockouts : table string;
  db_audit : table Z;
  db_kms_rewrap : table string;
  db_log : table Z;
  db_meta : table string;
}.

(** A [TableDefinition] names one table of the file. *)
Record TableDefinition (K : Type) `{!OrdKey K} := {
  open_table : Database → table K;
  put_table : table K → Database → Database;
}.
End database.
Arguments open_table {_ _ _} _ _ /.
Arguments put_table {_ _ _} _ _ _ /.

Section tables.
Context `{RE : !Redb}.

Definition SECRETS : TableDefinition string := {|
  open_table := db_secrets;
  put_table t d := {| db_secrets := t; db_versions := db_versions d;
    db_roles := db_roles d; db_tokens := db_tokens d;
    db_tokens_by_name := db_tokens_by_name d; db_lockouts := db_lockouts d;
    db_audit := db_audit d; db_kms_rewrap := db_kms_rewrap d;
    db_log := db_log d; db_meta := db_meta d |} |}.
Definition VERSIONS : TableDefinition string := {|
  open_table := db_versions;
  put_table t d := {| db_secrets := db_secrets d; db_versions := t;
    db_roles := db_roles d; db_tokens := db_tokens d;
    db_tokens_by_name := db_tokens_by_name d; db_lockouts := db_lockouts d;
    db_audit := db_audit d; db_kms_rewrap := db_kms_rewrap d;
    db_log := db_log d; db_meta := db_meta d |} |}.
Definition ROLES : TableDefinition string := {|
  open_table := db_roles;
  put_table t d := {| db_secrets := db_secrets d; db_versions := db_versions d;
    db_roles := t; db_tokens := db_tokens d;
    db_tokens_by_name := db_tokens_by_name d; db_lockouts := db_lockouts d;
    db_audit := db_audit d; db_kms_rewrap := db_kms_rewrap d;
    db_log := db_log d; db_meta := db_meta d |} |}.
Definition TOKENS : TableDefinition bytes := {|
  open_table := db_tokens;
  put_table t d := {| db_secrets := db_secrets d; db_versions := db_versions d;
    db_roles := db_roles d; db_tokens := t;
    db_tokens_by_name := db_tokens_by_name d; db_lockouts := db_lockouts d;
    db_audit := db_audit d; db_kms_rewrap := db_kms_rewrap d;
    db_log := db_log d; db_meta := db_meta d |} |}.
Definition TOKENS_BY_NAME : TableDefinition string := {|
  open_table := db_tokens_by_name;
  put_table t d := {| db_secrets := db_secrets d; db_versions := db_versions d;
    db_roles := db_roles d; db_tokens := db_tokens d;
    db_tokens_by_name := t; db_lockouts := db_lockouts d;
    db_audit := db_audit d; db_kms_rewrap := db_kms_rewrap d;
    db_log := db_log d; db_meta := db_meta d |} |}.
Definition LOCKOUTS : TableDefinition string := {|
  open_table := db_lockouts;
  put_table t d := {| db_secrets := db_secrets d; db_versions := db_versions d;
    db_roles := db_roles d; db_tokens := db_tokens d;
    db_tokens_by_name := db_tokens_by_name d; db_lockouts := t;
    db_audit := db_audit d; db_kms_rewrap := db_kms_rewrap d;
    db_log := db_log d; db_meta := db_meta d |} |}.
Definition AUDIT : TableDefinition Z := {|
  open_table := db_audit;
  put_table t d := {| db_secrets := db_secrets d; db_versions := db_versions d;
    db_roles := db_roles d; db_tokens := db_tokens d;
    db_tokens_by_name := db_tokens_by_name d; db_lockouts := db_lockouts d;
    db_audit := t; db_kms_rewrap := db_kms_rewrap d;
    db_log := db_log d; db_meta := db_meta d |} |}.
Definition KMS_REWRAP : TableDefinition string := {|
  open_table := db_kms_rewrap;
  put_table t d := {| db_secrets := db_secrets d; db_versions := db_versions d;
    db_roles := db_roles d; db_tokens := db_tokens d;
    db_tokens_by_name := db_tokens_by_name d; db_lockouts := db_lockouts d;
    db_audit := db_audit d; db_kms_rewrap := t;
    db_log := db_log d; db_meta := db_meta d |} |}.
Definition LOG : TableDefinition Z := {|
  open_table := db_log;
  put_table t d := {| db_secrets := db_secrets d; db_versions := db_versions d;
    db_roles := db_roles d; db_tokens := db_tokens d;
    db_tokens_by_name := db_tokens_by_name d; db_lockouts := db_lockouts d;
    db_audit := db_audit d; db_kms_rewrap := db_kms_rewrap d;
    db_log := t; db_meta := db_meta d |} |}.
Definition META : TableDefinition string := {|
  open_table := db_meta;
  put_table t d := {| db_secrets := db_secrets d; db_versions := db_versions d;
    db_roles := db_roles d; db_tokens := db_tokens d;
    db_tokens_by_name := db_tokens_by_name d; db_lockouts := db_lockouts d;
    db_audit := db_audit d; db_kms_rewrap := db_kms_rewrap d;
    db_log := db_log d; db_meta := t |} |}.

(** A database file that has just been created. *)
Definition empty_database : Database := {|
  db_secrets := t_empty; db_versions := t_empty; db_roles := t_empty;
  db_tokens := t_empty; db_tokens_by_name := t_empty; db_lockouts := t_empty;
  db_audit := t_empty; db_kms_rewrap := t_empty; db_log := t_empty;
  db_meta := t_empty |}.

(** Two files with the same rows in every table. *)
#[export] Instance database_equiv : Equiv Database := λ d1 d2,
  db_secrets d1 ≡ db_secrets d2 ∧ db_versions d1 ≡ db_versions d2
  ∧ db_roles d1 ≡ db_roles d2 ∧ db_tokens d1 ≡ db_tokens d2
  ∧ db_tokens_by_name d1 ≡ db_tokens_by_name d2 ∧ db_lockouts d1 ≡ db_lockouts d2
  ∧ db_audit d1 ≡ db_audit d2 ∧ db_kms_rewrap d1 ≡ db_kms_rewrap d2
  ∧ db_log d1 ≡ db_log d2 ∧ db_meta d1 ≡ db_meta d2.

(** ** Transactions

    A write transaction is a computation on the file: [wtx.open_table(DEF)]
    followed by [get], [insert], [remove], [iter] or [range] on the handle.
    An error leaves the rows written so far in the transaction; [commit] or
    dropping the transaction decides what becomes of them. *)
Section ops.
Context {K : Type} `{OK : !OrdKey K} {E : Type} (def : TableDefinition K).

Definition get (k : K) : ste Database E (option bytes) :=
  read_state (λ d, t_get (open_table def d) k).
Definition insert (k : K) (v : bytes) : ste Database E unit :=
  modify (λ d, put_table def (t_insert k v (open_table def d)) d).
(** [remove] returns the value that was there. *)
Definition remove (k : K) : ste Database E (option bytes) := λ d,
  (put_table def (t_remove k (open_table def d)) d, Ok (t_get (open_table def d) k)).
Definition iter : ste Database E (list (K * bytes)) :=
  read_state (λ d, t_iter (open_table def d)).
Definition range (p : K → bool) : ste Database E (list (K * bytes)) :=
  read_state (λ d, t_range p (open_table def d)).
(** [for key in keys { table.remove(key)?; }] *)
Definition remove_keys (ks : list K) : ste Database E unit :=
  modify (λ d, put_table def (t_remove_all ks (open_table def d)) d).
(** [for (key, value) in rows { table.insert(key, value)?; }] *)
Definition insert_rows (rows : list (K * bytes)) : ste Database E unit :=
  modify (λ d, put_table def (t_insert_all rows (open_table def d)) d).
End ops.

Definition encode_row `{!Serde A} (value : A) : ste Database StoreError bytes := lift_result (encode value).
Definition decode_row `{!Serde A} (bs : bytes) : ste Database StoreError A := lift_result (decode bs).
End tables.
Notation M := (ste Database StoreError).
Arguments get {_ _ _ _} def k _ /.
Arguments insert {_ _ _ _} def k v _ /.
Arguments remove {_ _ _ _} def k _ /.
Arguments iter {_ _ _ _} def _ /.
Arguments range {_ _ _ _} def p _ /.
Arguments remove_keys {_ _ _ _} def ks _ /.
Arguments insert_rows {_ _ _ _} def rows _ /.
