(* ===== verification/Serial.v ===== *)
(** * A concrete serializer

    The store's theorems assume only [SerdeLaws] of serde_json.  This file
    builds one codec that satisfies them, a prefix code assembled by type, so
    that the model can be run on concrete databases and no theorem is vacuous.
    It is not a model of serde_json's text format. *)

From S2P Require Import Prelude RustStr CoreTypes Redb Model.

Class Serial (A : Type) := {
  ser : A → bytes;
  deser : bytes → option (A * bytes);
  deser_ser a r : deser (ser a ++ r) = Some (a, r);
}.

#[export] Instance serial_byte : Serial byte.
Proof.
  refine {|
  ser (b : byte) := [b];
  deser bs := match bs with b :: r => Some (b, r) | [] => None end |}.
  done.
Defined.

#[export] Instance serial_unit : Serial unit.
Proof.
  refine {|
  ser (_ : unit) := []; deser bs := Some (tt, bs) |}.
  by intros [].
Defined.

#[export] Instance serial_bool : Serial bool.
Proof.
  refine {|
  ser (b : bool) := [if b then x01 else x00];
  deser bs := match bs with
              | x00 :: r => Some (false, r) | x01 :: r => Some (true, r) | _ => None
              end |}.
  by intros [].
Defined.

#[export] Instance serial_option `{!Serial A} : Serial (option A).
Proof.
  refine {|
  ser (o : option A) := match o with Some a => x01 :: ser a | None => [x00] end;
  deser bs := match bs with
              | x00 :: r => Some (None, r)
              | x01 :: r => '(a, r) ← deser r; Some (Some a, r)
              | _ => None
              end |}.
  intros [a|] r; [|done]. simpl. by rewrite deser_ser.
Defined.

#[export] Instance serial_prod `{!Serial A, !Serial B} : Serial (A * B).
Proof.
  refine {|
  ser (p : A * B) := ser p.1 ++ ser p.2;
  deser bs := '(a, r) ← deser bs; '(b, r) ← deser r; Some ((a, b), r) |}.
 
  intros [a b] r. simpl. rewrite <- app_assoc, deser_ser. simpl.
  by rewrite deser_ser.
Defined.

Fixpoint deser_list `{!Serial A} (fuel : nat) (bs : bytes) : option (list A * bytes) :=
  match fuel, bs with
  | S fuel, x01 :: r => '(a, r) ← deser r; '(l, r) ← deser_list fuel r; Some (a :: l, r)
  | _, x00 :: r => Some ([], r)
  | _, _ => None
  end.

Fixpoint ser_list `{!Serial A} (l : list A) : bytes :=
  match l with [] => [x00] | a :: l => x01 :: ser a ++ ser_list l end.

Lemma deser_ser_list `{!Serial A} fuel (l : list A) r :
  length (ser_list l ++ r) ≤ fuel → deser_list fuel (ser_list l ++ r) = Some (l, r).
Proof.
  revert fuel. induction l as [|a l IH]; intros [|fuel]; simpl; try done; [lia|].
  rewrite <- !app_assoc, !length_app. intros Hf. rewrite deser_ser. simpl.
  rewrite IH; [done|]. rewrite length_app. lia.
Qed.

#[export] Instance serial_list `{!Serial A} : Serial (list A).
Proof.
  refine {|
  ser := ser_list; deser bs := deser_list (length bs) bs |}.
  intros. by apply deser_ser_list.
Defined.

Lemma deser_ser_iso `{!Serial B} {A} (f : A → B) (g : B → A) (H : ∀ a, g (f a) = a) a r :
  ('(b, r) ← deser (ser (f a) ++ r); Some (g b, r)) = Some (a, r).
Proof. rewrite deser_ser. simpl. by rewrite H. Qed.

(** A type that embeds in another has its code. *)
Definition serial_iso `{!Serial B} {A} (f : A → B) (g : B → A) (H : ∀ a, g (f a) = a) : Serial A :=
  {| ser a := ser (f a); deser bs := '(b, r) ← deser bs; Some (g b, r);
     deser_ser := deser_ser_iso f g H |}.

#[export] Instance serial_string : Serial string :=
  serial_iso String.list_byte_of_string String.string_of_list_byte
    String.string_of_list_byte_of_string.

Fixpoint pos_bits (p : positive) : list bool :=
  match p with xH => [] | xO p => false :: pos_bits p | xI p => true :: pos_bits p end.
Fixpoint bits_pos (l : list bool) : positive :=
  match l with [] => xH | false :: l => xO (bits_pos l) | true :: l => xI (bits_pos l) end.
Lemma bits_pos_bits p : bits_pos (pos_bits p) = p.
Proof. induction p; simpl; congruence. Qed.
#[export] Instance serial_positive : Serial positive := serial_iso pos_bits bits_pos bits_pos_bits.

Definition Z_code (z : Z) : option (bool * positive) :=
  match z with Z0 => None | Zpos p => Some (true, p) | Zneg p => Some (false, p) end.
Definition Z_decode (o : option (bool * positive)) : Z :=
  match o with None => Z0 | Some (true, p) => Zpos p | Some (false, p) => Zneg p end.
Lemma Z_decode_code z : Z_decode (Z_code z) = z.
Proof. by destruct z. Qed.
#[export] Instance serial_Z : Serial Z := serial_iso Z_code Z_decode Z_decode_code.

Ltac serial f g := refine (serial_iso f g _); by intros [].

#[export] Instance serial_kind : Serial SecretKind.
Proof.
  serial (λ k, match k with Manual => false | Automatic => true end)
         (λ b : bool, if b then Automatic else Manual).
Defined.
#[export] Instance serial_format : Serial SecretFormat.
Proof.
  serial (λ k, match k with Opaque => false | Userpass => true end)
         (λ b : bool, if b then Userpass else Opaque).
Defined.
#[export] Instance serial_pg : Serial PgRoleTarget.
Proof.
  serial (λ x, (pg_hosts x, (pg_database x, (pg_role x, pg_login_secret x))))
         (λ '(a, (b, (c, d))), Build_PgRoleTarget a b c d).
Defined.
#[export] Instance serial_target : Serial RotationTarget.
Proof. serial (λ x, match x with PgReplica pg => pg end) PgReplica. Defined.
#[export] Instance serial_secret : Serial SecretRecord.
Proof.
  serial (λ x, (s_name x, (s_kind x, (s_format x, (s_description x,
            (s_rotation_interval_secs x, (s_grace_secs x, (s_current_version x,
            (s_next_rotation_at x, (s_created_at x, (s_updated_at x, s_target x)))))))))))
         (λ '(a, (b, (c, (d, (e, (f, (g, (h, (i, (j, k)))))))))),
            Build_SecretRecord a b c d e f g h i j k).
Defined.
#[export] Instance serial_version : Serial VersionRecord.
Proof.
  serial (λ x, (v_version x, (v_kms_key_id x, (v_wrapped_dek x, (v_nonce x,
            (v_ciphertext x, (v_aad x, (v_created_at x, (v_expires_at x,
            v_wrapped_rotation_at x)))))))))
         (λ '(a, (b, (c, (d, (e, (f, (g, (h, i)))))))), Build_VersionRecord a b c d e f g h i).
Defined.
#[export] Instance serial_role : Serial RoleRecord.
Proof.
  serial (λ x, (r_name x, (r_description x, (r_is_admin x, (r_permissions x, r_created_at x)))))
         (λ '(a, (b, (c, (d, e)))), Build_RoleRecord a b c d e).
Defined.
#[export] Instance serial_token : Serial TokenRecord.
Proof.
  serial (λ x, (t_name x, (t_role x, (t_fingerprint x, (t_created_at x,
            (t_last_used_at x, t_revoked_at x))))))
         (λ '(a, (b, (c, (d, (e, f))))), Build_TokenRecord a b c d e f).
Defined.
#[export] Instance serial_lockout : Serial LockoutRecord.
Proof.
  serial (λ x, (l_failures x, (l_window_start x, l_locked_until x)))
         (λ '(a, (b, c)), Build_LockoutRecord a b c).
Defined.
#[export] Instance serial_audit : Serial AuditEntry.
Proof.
  serial (λ x, (a_at x, (a_actor x, (a_client_ip x, (a_action x, (a_secret_name x,
            (a_outcome x, a_node_id x)))))))
         (λ '(a, (b, (c, (d, (e, (f, g)))))), Build_AuditEntry a b c d e f g).
Defined.
#[export] Instance serial_rewrap : Serial KmsRewrapState.
Proof.
  serial (λ x, (k_last_completed_rotation_at x, (k_last_swept_at x, k_updated_at x)))
         (λ '(a, (b, c)), Build_KmsRewrapState a b c).
Defined.

(** The codec the serializer gives. *)
Definition serial_serde `{!Serial A} : Serde A := {|
  to_vec a := Some (ser a);
  from_slice bs := match deser bs with Some (a, []) => Some a | _ => None end |}.

Lemma serial_serde_laws `{!Serial A} : @SerdeLaws A serial_serde.
Proof.
  intros a. exists (ser a). split; [done|]. simpl.
  pose proof (deser_ser a []) as H. rewrite app_nil_r in H. by rewrite H.
Qed.

#[export] Instance serial_store : StoreSerde := {|
  serde_secret := serial_serde; serde_version := serial_serde; serde_role := serial_serde;
  serde_token := serial_serde; serde_lockout := serial_serde; serde_audit := serial_serde;
  serde_rewrap := serial_serde |}.

#[export] Instance serial_store_laws : StoreSerdeLaws.
Proof. split; apply serial_serde_laws. Qed.
