(* ===== verification/Apply.v ===== *)
(** * The deterministic state machine: [apply_command]

    Models [store/backup.rs] (dumping and restoring the tables) and
    [store/apply.rs]: one definition per arm of [apply_command], each a
    transaction body that threads the database and may stop with an error. *)

From S2P Require Import Prelude RustStr CoreTypes Redb Keys Model.

Definition MAX_AUDIT_KEY : Z := 2 ^ 52.
Definition KMS_REWRAP_STATE_KEY : string := "state".
Definition BACKUP_VERSION : Z := 1.

(** ** backup.rs *)

Section backup.
Context `{RE : !Redb}.

Definition dump_str (def : TableDefinition string) (d : Database) : list (string * bytes) :=
  t_iter (open_table def d).
Definition dump_bytes (def : TableDefinition bytes) (d : Database) : list (bytes * bytes) :=
  t_iter (open_table def d).
Definition dump_u64 (def : TableDefinition Z) (d : Database) : list (Z * bytes) :=
  t_iter (open_table def d).

Definition dump_database (d : Database) : BackupData := {|
  b_version := BACKUP_VERSION;
  b_secrets := dump_str SECRETS d;
  b_versions := dump_str VERSIONS d;
  b_roles := dump_str ROLES d;
  b_tokens := dump_bytes TOKENS d;
  b_tokens_by_name := dump_str TOKENS_BY_NAME d;
  b_audit := dump_u64 AUDIT d;
  b_kms_rewrap := dump_str KMS_REWRAP d |}.

(** The first element the test refuses, as the error it gives. *)
Fixpoint check_rows {A E} (bad : A → option E) (l : list A) : result E unit :=
  match l with
  | [] => Ok tt
  | x :: l => match bad x with Some e => Err e | None => check_rows bad l end
  end.

Definition bad_secret_row (row : string * bytes) : option RestoreError :=
  if is_valid_secret_name row.1 then None else Some (InvalidSecretName row.1).

Definition bad_version_row (row : string * bytes) : option RestoreError :=
  match split_version_key row.1 with
  | Some (name, version) =>
      if is_valid_secret_name name && is_valid_secret_version version then None
      else Some (InvalidVersionKey row.1)
  | None => Some (InvalidVersionKey row.1)
  end.

Definition bad_audit_row (row : Z * bytes) : option RestoreError :=
  if (MAX_AUDIT_KEY <? row.1)%Z then Some (AuditKeyAboveMaximum row.1) else None.

Definition check_secret_rows (data : BackupData) : result RestoreError unit :=
  check_rows bad_secret_row (b_secrets data) ;;
  check_rows bad_version_row (b_versions data) ;;
  check_rows bad_audit_row (b_audit data).

Definition restore_rows {E K} `{!OrdKey K} (def : TableDefinition K)
    (rows : list (K * bytes)) : ste Database E unit :=
  old ← iter def;
  remove_keys def old.*1 ;;
  insert_rows def rows.

Definition restore_str {E} (def : TableDefinition string) (rows : list (string * bytes))
    : ste Database E unit := restore_rows def rows.
Definition restore_bytes {E} (def : TableDefinition bytes) (rows : list (bytes * bytes))
    : ste Database E unit := restore_rows def rows.
Definition restore_u64 {E} (def : TableDefinition Z) (rows : list (Z * bytes))
    : ste Database E unit := restore_rows def rows.

Definition restore_tables (data : BackupData) : ste Database RestoreError unit :=
  if decide (b_version data ≠ BACKUP_VERSION)
  then raise (UnsupportedBackupVersion (b_version data)) else
  lift_result (check_secret_rows data) ;;
  restore_str SECRETS (b_secrets data) ;;
  restore_str VERSIONS (b_versions data) ;;
  restore_str ROLES (b_roles data) ;;
  restore_str TOKENS_BY_NAME (b_tokens_by_name data) ;;
  restore_bytes TOKENS (b_tokens data) ;;
  restore_u64 AUDIT (b_audit data) ;;
  restore_str KMS_REWRAP (b_kms_rewrap data).

(** The single-node path: nothing is committed when the rows are refused. *)
Definition restore_database (data : BackupData) (d : Database)
    : Database * result RestoreError unit :=
  match restore_tables data d with
  | (d', Ok _) => (d', Ok tt)
  | (_, Err e) => (d, Err e)
  end.
End backup.

(** ** apply.rs *)

Section apply.
Context `{RE : !Redb, SE : !StoreSerde}.

Definition check_secret_name (name : string) : StoreResult unit :=
  if is_valid_secret_name name then Ok tt
  else Err (Conflict (SecretNameOutsideAlphabet name)).

Definition check_secret_row (name : string) (version : Z) : StoreResult unit :=
  check_secret_name name ;;
  if negb (is_valid_secret_version version)
  then Err (Conflict (SecretVersionBelowMinimum version))
  else Ok tt.

Definition apply_meta (secret : SecretRecord) (set_description : option string)
    (set_rotation_interval_secs set_grace_secs : option Z)
    (next_rotation_at : NextRotation) (updated_at : Z) : SecretRecord := {|
  s_name := s_name secret;
  s_kind := s_kind secret;
  s_format := s_format secret;
  s_description := match set_description with
                   | Some description => Some description
                   | None => s_description secret
                   end;
  s_rotation_interval_secs := match set_rotation_interval_secs with
                              | Some interval => Some interval
                              | None => s_rotation_interval_secs secret
                              end;
  s_grace_secs := match set_grace_secs with
                  | Some grace => grace
                  | None => s_grace_secs secret
                  end;
  s_current_version := s_current_version secret;
  s_next_rotation_at := match next_rotation_at with
                        | Set_ value => value
                        | Keep => s_next_rotation_at secret
                        end;
  s_created_at := s_created_at secret;
  s_updated_at := updated_at;
  s_target := s_target secret |}.

Definition set_current_version (secret : SecretRecord) (version : Z) : SecretRecord := {|
  s_name := s_name secret; s_kind := s_kind secret; s_format := s_format secret;
  s_description := s_description secret;
  s_rotation_interval_secs := s_rotation_interval_secs secret;
  s_grace_secs := s_grace_secs secret;
  s_current_version := version;
  s_next_rotation_at := s_next_rotation_at secret;
  s_created_at := s_created_at secret; s_updated_at := s_updated_at secret;
  s_target := s_target secret |}.

Definition set_expires_at (record : VersionRecord) (expiry : Z) : VersionRecord := {|
  v_version := v_version record; v_kms_key_id := v_kms_key_id record;
  v_wrapped_dek := v_wrapped_dek record; v_nonce := v_nonce record;
  v_ciphertext := v_ciphertext record; v_aad := v_aad record;
  v_created_at := v_created_at record;
  v_expires_at := Some expiry;
  v_wrapped_rotation_at := v_wrapped_rotation_at record |}.

Definition set_wrapping (record : VersionRecord) (kms_key_id : string)
    (wrapped_dek : bytes) (wrapped_rotation_at : Z) : VersionRecord := {|
  v_version := v_version record;
  v_kms_key_id := kms_key_id;
  v_wrapped_dek := wrapped_dek;
  v_nonce := v_nonce record; v_ciphertext := v_ciphertext record;
  v_aad := v_aad record; v_created_at := v_created_at record;
  v_expires_at := v_expires_at record;
  v_wrapped_rotation_at := Some wrapped_rotation_at |}.

(** [match table.get(k)? { Some(v) => decode(v)?, None => return Err(e) }] *)
Definition get_decoded {A K} `{!Serde A, !OrdKey K} (def : TableDefinition K) (k : K)
    (missing : StoreError) : M A :=
  row ← get def k;
  match row with
  | Some value => decode_row value
  | None => raise missing
  end.

(** [match table.get(k)? { Some(v) => Some(decode(v)?), None => None }] *)
Definition get_decoded_opt {A K} `{!Serde A, !OrdKey K} (def : TableDefinition K) (k : K)
    : M (option A) :=
  row ← get def k;
  match row with
  | Some value => a ← decode_row value; mret (Some a)
  | None => mret None
  end.

Definition create_secret (secret : SecretRecord) (version : VersionRecord) : M unit :=
  lift_result (check_secret_row (s_name secret) (v_version version)) ;;
  existing ← get SECRETS (s_name secret);
  match existing with
  | Some _ => raise (Conflict (SecretAlreadyExists (s_name secret)))
  | None =>
      bs ← encode_row secret;
      insert SECRETS (s_name secret) bs ;;
      bs ← encode_row version;
      insert VERSIONS (version_key (s_name secret) (v_version version)) bs
  end.

(** The superseded version is given its expiry, unless it has one. *)
Definition supersede (name : string) (expected_current : Z) (expiry : Z) : M unit :=
  let prev_key := version_key name expected_current in
  prev ← get_decoded_opt (A := VersionRecord) VERSIONS prev_key;
  match prev with
  | Some prev =>
      match v_expires_at prev with
      | None => bs ← encode_row (set_expires_at prev expiry); insert VERSIONS prev_key bs
      | Some _ => mret tt
      end
  | None => mret tt
  end.

Definition put_version (name : string) (expected_current : Z) (version : VersionRecord)
    (supersede_expires_at : option Z) (set_description : option string)
    (set_rotation_interval_secs set_grace_secs : option Z)
    (next_rotation_at : NextRotation) (updated_at : Z) : M unit :=
  lift_result (check_secret_row name (v_version version)) ;;
  secret ← get_decoded SECRETS name NotFound;
  if decide (s_current_version secret ≠ expected_current) then raise VersionConflict else
  bs ← encode_row version;
  insert VERSIONS (version_key name (v_version version)) bs ;;
  match supersede_expires_at with
  | Some expiry => supersede name expected_current expiry
  | None => mret tt
  end ;;
  bs ← encode_row (apply_meta (set_current_version secret (v_version version))
         set_description set_rotation_interval_secs set_grace_secs next_rotation_at updated_at);
  insert SECRETS name bs.

Definition update_meta (name : string) (expected_current : Z) (set_description : option string)
    (set_rotation_interval_secs set_grace_secs : option Z)
    (next_rotation_at : NextRotation) (updated_at : Z) : M unit :=
  secret ← get_decoded SECRETS name NotFound;
  if decide (s_current_version secret ≠ expected_current) then raise VersionConflict else
  bs ← encode_row (apply_meta secret set_description set_rotation_interval_secs
         set_grace_secs next_rotation_at updated_at);
  insert SECRETS name bs.

Definition delete_secret (name : string) : M unit :=
  removed ← remove SECRETS name;
  match removed with
  | None => raise NotFound
  | Some _ =>
      rows ← range VERSIONS (version_range name);
      remove_keys VERSIONS (filter (λ key, is_Some (version_from_key name key)) rows.*1)
  end.

Definition create_role (role : RoleRecord) : M unit :=
  existing ← get ROLES (r_name role);
  match existing with
  | Some _ => raise (Conflict (RoleAlreadyExists (r_name role)))
  | None => bs ← encode_row role; insert ROLES (r_name role) bs
  end.

Definition set_permissions (name : string) (permissions : list (string * string)) : M unit :=
  role ← get_decoded (A := RoleRecord) ROLES name NotFound;
  bs ← encode_row {| r_name := r_name role; r_description := r_description role;
         r_is_admin := r_is_admin role; r_permissions := permissions;
         r_created_at := r_created_at role |};
  insert ROLES name bs.

Fixpoint check_role_unused (name : string) (rows : list (bytes * bytes)) : StoreResult unit :=
  match rows with
  | [] => Ok tt
  | (_, value) :: rows =>
      token ← decode (A := TokenRecord) value;
      if decide (t_role token = Some name) then Err (Conflict (RoleStillHasTokens name))
      else check_role_unused name rows
  end.

Definition delete_role (name : string) : M unit :=
  tokens ← iter TOKENS;
  lift_result (check_role_unused name tokens) ;;
  removed ← remove ROLES name;
  match removed with
  | None => raise NotFound
  | Some _ => mret tt
  end.

Definition add_token (token : TokenRecord) : M unit :=
  existing ← get TOKENS (t_fingerprint token);
  match existing with
  | Some _ => raise (Conflict FingerprintAlreadyExists)
  | None =>
      existing ← get TOKENS_BY_NAME (t_name token);
      match existing with
      | Some _ => raise (Conflict (TokenAlreadyExists (t_name token)))
      | None =>
          insert TOKENS_BY_NAME (t_name token) (t_fingerprint token) ;;
          bs ← encode_row token;
          insert TOKENS (t_fingerprint token) bs
      end
  end.

Definition set_revoked_at (token : TokenRecord) (at_ : Z) : TokenRecord := {|
  t_name := t_name token; t_role := t_role token; t_fingerprint := t_fingerprint token;
  t_created_at := t_created_at token; t_last_used_at := t_last_used_at token;
  t_revoked_at := Some at_ |}.

Definition set_last_used_at (token : TokenRecord) (at_ : Z) : TokenRecord := {|
  t_name := t_name token; t_role := t_role token; t_fingerprint := t_fingerprint token;
  t_created_at := t_created_at token; t_last_used_at := Some at_;
  t_revoked_at := t_revoked_at token |}.

Definition revoke_token (name : string) (revoked_at : Z) : M unit :=
  found ← get TOKENS_BY_NAME name;
  match found with
  | None => raise NotFound
  | Some fingerprint =>
      token ← get_decoded (A := TokenRecord) TOKENS fingerprint NotFound;
      match t_revoked_at token with
      | Some _ => raise NotFound
      | None =>
          bs ← encode_row (set_revoked_at token revoked_at);
          insert TOKENS fingerprint bs
      end
  end.

Definition touch_token (fingerprint : bytes) (at_ : Z) : M unit :=
  existing ← get_decoded_opt (A := TokenRecord) TOKENS fingerprint;
  match existing with
  | Some token => bs ← encode_row (set_last_used_at token at_); insert TOKENS fingerprint bs
  | None => mret tt
  end.

(** The keys of the rows whose expiry has passed. *)
Fixpoint expired_keys (now : Z) (rows : list (string * bytes)) : StoreResult (list string) :=
  match rows with
  | [] => Ok []
  | (key, value) :: rows =>
      record ← decode (A := VersionRecord) value;
      keys ← expired_keys now rows;
      match v_expires_at record with
      | Some expiry => if (expiry <=? now)%Z then Ok (key :: keys) else Ok keys
      | None => Ok keys
      end
  end.

Definition expire_grace_versions (now : Z) : M unit :=
  rows ← iter VERSIONS;
  expired ← lift_result (expired_keys now rows);
  remove_keys VERSIONS expired.

Definition rewrap_version (name : string) (version : Z) (kms_key_id : string)
    (wrapped_dek : bytes) (wrapped_rotation_at : Z) : M unit :=
  let key := version_key name version in
  record ← get_decoded_opt (A := VersionRecord) VERSIONS key;
  match record with
  | None => mret tt
  | Some record =>
      let current := match v_wrapped_rotation_at record with
                     | Some current => (wrapped_rotation_at <=? current)%Z
                     | None => false
                     end in
      if current then mret tt else
      bs ← encode_row (set_wrapping record kms_key_id wrapped_dek wrapped_rotation_at);
      insert VERSIONS key bs
  end.

Definition set_kms_rewrap_state (state : KmsRewrapState) : M unit :=
  bs ← encode_row state;
  insert KMS_REWRAP KMS_REWRAP_STATE_KEY bs.

Definition set_node_id (entry : AuditEntry) (node_id : Z) : AuditEntry := {|
  a_at := a_at entry; a_actor := a_actor entry; a_client_ip := a_client_ip entry;
  a_action := a_action entry; a_secret_name := a_secret_name entry;
  a_outcome := a_outcome entry; a_node_id := node_id |}.

(** [audit.range(..=MAX_AUDIT_KEY)?.next_back()] is the last row of the range. *)
Definition append_audit (node_id : Z) (entry : AuditEntry) : M unit :=
  rows ← range AUDIT (λ k, (k <=? MAX_AUDIT_KEY)%Z);
  next ← match last rows with
         | Some (key, _) =>
             lift_result (ok_or (Conflict AuditKeySpaceExhausted) (checked_add_u64 key 1))
         | None => mret 0%Z
         end;
  bs ← encode_row (set_node_id entry node_id);
  insert AUDIT next bs.

Definition restore_command (data : BackupData) : M unit := λ d,
  match restore_tables data d with
  | (d', Ok _) => (d', Ok tt)
  | (d', Err e) => (d', Err (Conflict (RestoreRefused e)))
  end.

(** The new counter record after one more failure at [now]: unchecked
    [i64] and [u32] arithmetic, which wraps in a release build. *)
Definition bump_lockout (record : LockoutRecord) (now max window_secs lockout_secs : Z)
    : LockoutRecord :=
  let record := if (window_secs <=? wrap_i64 (now - l_window_start record))%Z
                then {| l_failures := 0; l_window_start := now;
                        l_locked_until := l_locked_until record |}
                else record in
  let failures := wrap_u32 (l_failures record + 1) in
  {| l_failures := failures;
     l_window_start := l_window_start record;
     l_locked_until := if (max <=? failures)%Z
                       then Some (wrap_i64 (now + lockout_secs))
                       else l_locked_until record |}.

Definition record_auth_failure (key : string) (now max window_secs lockout_secs : Z) : M unit :=
  existing ← get_decoded_opt (A := LockoutRecord) LOCKOUTS key;
  let record := match existing with
                | Some record => record
                | None => {| l_failures := 0; l_window_start := now; l_locked_until := None |}
                end in
  bs ← encode_row (bump_lockout record now max window_secs lockout_secs);
  insert LOCKOUTS key bs.

Definition apply_command (node_id : Z) (command : Command) : M unit :=
  match command with
  | CreateSecret secret version => create_secret secret version
  | PutVersion name expected version supersede_at descr interval grace next updated =>
      put_version name expected version supersede_at descr interval grace next updated
  | UpdateMeta name expected descr interval grace next updated =>
      update_meta name expected descr interval grace next updated
  | DeleteSecret name => delete_secret name
  | CreateRole role => create_role role
  | SetPermissions name permissions => set_permissions name permissions
  | DeleteRole name => delete_role name
  | AddToken token => add_token token
  | RevokeToken name revoked_at => revoke_token name revoked_at
  | TouchToken fingerprint at_ => touch_token fingerprint at_
  | ExpireGraceVersions now => expire_grace_versions now
  | RewrapVersion name version key_id wrapped rotation_at =>
      rewrap_version name version key_id wrapped rotation_at
  | SetKmsRewrapState state => set_kms_rewrap_state state
  | AppendAudit entry => append_audit node_id entry
  | RestoreDatabase data => restore_command data
  | RecordAuthFailure key now max window lockout =>
      record_auth_failure key now max window lockout
  end.
End apply.
