(* ===== verification/Spec.v ===== *)
(** * What the store promises: an abstract vault

    The specification the state machine is proved against in [Refine]: secrets,
    versions, roles, tokens, lockouts and audit rows as finite maps of records,
    without tables, keys as strings, JSON or transactions.  [spec_apply] says
    what each command does to them; an error changes nothing.  Of the command
    interpreter it uses nothing but the errors and constants: what a command
    changes in a record and which rows are refused is said here again. *)

From S2P Require Import Prelude RustStr CoreTypes Redb Keys Model Apply.

Record Vault := {
  vault_secrets : gmap string SecretRecord;
  vault_versions : gmap (string * Z) VersionRecord;
  vault_roles : gmap string RoleRecord;
  vault_tokens : gmap bytes TokenRecord;
  vault_names : gmap string bytes;
  vault_lockouts : gmap string LockoutRecord;
  vault_audit : gmap Z AuditEntry;
  vault_rewrap : gmap string KmsRewrapState;
}.

Definition empty_vault : Vault := {|
  vault_secrets := ∅; vault_versions := ∅; vault_roles := ∅; vault_tokens := ∅;
  vault_names := ∅; vault_lockouts := ∅; vault_audit := ∅; vault_rewrap := ∅ |}.

(** ** Field updates *)

Definition with_secrets (f : gmap string SecretRecord → gmap string SecretRecord) (a : Vault) : Vault :=
  {| vault_secrets := f (vault_secrets a); vault_versions := vault_versions a;
     vault_roles := vault_roles a; vault_tokens := vault_tokens a; vault_names := vault_names a;
     vault_lockouts := vault_lockouts a; vault_audit := vault_audit a;
     vault_rewrap := vault_rewrap a |}.
Definition with_versions (f : gmap (string * Z) VersionRecord → gmap (string * Z) VersionRecord)
    (a : Vault) : Vault :=
  {| vault_secrets := vault_secrets a; vault_versions := f (vault_versions a);
     vault_roles := vault_roles a; vault_tokens := vault_tokens a; vault_names := vault_names a;
     vault_lockouts := vault_lockouts a; vault_audit := vault_audit a;
     vault_rewrap := vault_rewrap a |}.
Definition with_roles (f : gmap string RoleRecord → gmap string RoleRecord) (a : Vault) : Vault :=
  {| vault_secrets := vault_secrets a; vault_versions := vault_versions a;
     vault_roles := f (vault_roles a); vault_tokens := vault_tokens a; vault_names := vault_names a;
     vault_lockouts := vault_lockouts a; vault_audit := vault_audit a;
     vault_rewrap := vault_rewrap a |}.
Definition with_tokens (f : gmap bytes TokenRecord → gmap bytes TokenRecord) (a : Vault) : Vault :=
  {| vault_secrets := vault_secrets a; vault_versions := vault_versions a;
     vault_roles := vault_roles a; vault_tokens := f (vault_tokens a); vault_names := vault_names a;
     vault_lockouts := vault_lockouts a; vault_audit := vault_audit a;
     vault_rewrap := vault_rewrap a |}.
Definition with_names (f : gmap string bytes → gmap string bytes) (a : Vault) : Vault :=
  {| vault_secrets := vault_secrets a; vault_versions := vault_versions a;
     vault_roles := vault_roles a; vault_tokens := vault_tokens a; vault_names := f (vault_names a);
     vault_lockouts := vault_lockouts a; vault_audit := vault_audit a;
     vault_rewrap := vault_rewrap a |}.
Definition with_lockouts (f : gmap string LockoutRecord → gmap string LockoutRecord)
    (a : Vault) : Vault :=
  {| vault_secrets := vault_secrets a; vault_versions := vault_versions a;
     vault_roles := vault_roles a; vault_tokens := vault_tokens a; vault_names := vault_names a;
     vault_lockouts := f (vault_lockouts a); vault_audit := vault_audit a;
     vault_rewrap := vault_rewrap a |}.
Definition with_audit (f : gmap Z AuditEntry → gmap Z AuditEntry) (a : Vault) : Vault :=
  {| vault_secrets := vault_secrets a; vault_versions := vault_versions a;
     vault_roles := vault_roles a; vault_tokens := vault_tokens a; vault_names := vault_names a;
     vault_lockouts := vault_lockouts a; vault_audit := f (vault_audit a);
     vault_rewrap := vault_rewrap a |}.
Definition with_rewrap (f : gmap string KmsRewrapState → gmap string KmsRewrapState)
    (a : Vault) : Vault :=
  {| vault_secrets := vault_secrets a; vault_versions := vault_versions a;
     vault_roles := vault_roles a; vault_tokens := vault_tokens a; vault_names := vault_names a;
     vault_lockouts := vault_lockouts a; vault_audit := vault_audit a;
     vault_rewrap := f (vault_rewrap a) |}.

(** ** Commands *)

(** A superseded version gets the expiry, unless it already has one. *)
Definition expiring (expiry : Z) (r : VersionRecord) : VersionRecord :=
  {| v_version := v_version r; v_kms_key_id := v_kms_key_id r; v_wrapped_dek := v_wrapped_dek r;
     v_nonce := v_nonce r; v_ciphertext := v_ciphertext r; v_aad := v_aad r;
     v_created_at := v_created_at r; v_expires_at := Some expiry;
     v_wrapped_rotation_at := v_wrapped_rotation_at r |}.

Definition give_expiry (expiry : Z) (r : VersionRecord) : VersionRecord :=
  match v_expires_at r with
  | None => expiring expiry r
  | Some _ => r
  end.

Definition expired_by (now : Z) (r : VersionRecord) : bool :=
  match v_expires_at r with
  | Some expiry => (expiry <=? now)%Z
  | None => false
  end.

(** A wrapping is replaced by one of a later KMS rotation: the data key and what
    it seals stay. *)
Definition rewrapped (kms_key_id : string) (wrapped_dek : bytes) (rotation_at : Z)
    (r : VersionRecord) : VersionRecord :=
  if match v_wrapped_rotation_at r with Some current => (rotation_at <=? current)%Z | None => false end then r else
  {| v_version := v_version r; v_kms_key_id := kms_key_id; v_wrapped_dek := wrapped_dek;
     v_nonce := v_nonce r; v_ciphertext := v_ciphertext r; v_aad := v_aad r;
     v_created_at := v_created_at r; v_expires_at := v_expires_at r;
     v_wrapped_rotation_at := Some rotation_at |}.

(** A secret with another current version and whatever else a command sets. *)
Definition revised (version : Z) (descr : option string) (interval grace : option Z)
    (next : NextRotation) (updated : Z) (s : SecretRecord) : SecretRecord :=
  {| s_name := s_name s; s_kind := s_kind s; s_format := s_format s;
     s_description := if descr is Some _ then descr else s_description s;
     s_rotation_interval_secs := if interval is Some _ then interval else s_rotation_interval_secs s;
     s_grace_secs := default (s_grace_secs s) grace;
     s_current_version := version;
     s_next_rotation_at := match next with Keep => s_next_rotation_at s | Set_ at_ => at_ end;
     s_created_at := s_created_at s; s_updated_at := updated; s_target := s_target s |}.

Definition revoked (at_ : Z) (t : TokenRecord) : TokenRecord :=
  {| t_name := t_name t; t_role := t_role t; t_fingerprint := t_fingerprint t;
     t_created_at := t_created_at t; t_last_used_at := t_last_used_at t; t_revoked_at := Some at_ |}.

Definition used (at_ : Z) (t : TokenRecord) : TokenRecord :=
  {| t_name := t_name t; t_role := t_role t; t_fingerprint := t_fingerprint t;
     t_created_at := t_created_at t; t_last_used_at := Some at_; t_revoked_at := t_revoked_at t |}.

Definition from_node (node_id : Z) (e : AuditEntry) : AuditEntry :=
  {| a_at := a_at e; a_actor := a_actor e; a_client_ip := a_client_ip e; a_action := a_action e;
     a_secret_name := a_secret_name e; a_outcome := a_outcome e; a_node_id := node_id |}.

(** The key the next audit row takes: one above the greatest key in the
    plausible range. *)
Definition next_audit_key (m : gmap Z AuditEntry) : Z :=
  foldr (λ k acc, if (k <=? MAX_AUDIT_KEY)%Z then Z.max (k + 1) acc else acc) 0%Z
    (elements (dom m)).

Definition fresh_lockout (now : Z) : LockoutRecord :=
  {| l_failures := 0; l_window_start := now; l_locked_until := None |}.

(** One more failure: a window that is over starts again, and reaching the
    limit locks. *)
Definition count_failure (now max window lockout : Z) (l : LockoutRecord) : LockoutRecord :=
  let over := (window <=? wrap_i64 (now - l_window_start l))%Z in
  let failures := wrap_u32 ((if over then 0 else l_failures l) + 1) in
  {| l_failures := failures;
     l_window_start := if over then now else l_window_start l;
     l_locked_until := if (max <=? failures)%Z then Some (wrap_i64 (now + lockout)) else l_locked_until l |}.

(** A row has a valid name and a version from 1 on. *)
Definition row_allowed (name : string) (version : Z) : StoreResult unit :=
  if negb (is_valid_secret_name name) then Err (Conflict (SecretNameOutsideAlphabet name)) else
  if (version <? 1)%Z then Err (Conflict (SecretVersionBelowMinimum version)) else Ok tt.

Definition version_key_allowed (key : string) : bool :=
  match split_version_key key with
  | Some (name, version) => is_valid_secret_name name && (1 <=? version)%Z
  | None => false
  end.

(** The first row of a backup that is refused: secrets before versions before
    audit rows. *)
Definition first_refused (data : BackupData) : option RestoreError :=
  head ((InvalidSecretName <$> filter (λ name, is_valid_secret_name name = false) (b_secrets data).*1)
     ++ (InvalidVersionKey <$> filter (λ key, version_key_allowed key = false) (b_versions data).*1)
     ++ (AuditKeyAboveMaximum <$> filter (λ key, (MAX_AUDIT_KEY < key)%Z) (b_audit data).*1)).

Definition with_permissions (permissions : list (string * string)) (role : RoleRecord) : RoleRecord :=
  {| r_name := r_name role; r_description := r_description role; r_is_admin := r_is_admin role;
     r_permissions := permissions; r_created_at := r_created_at role |}.

Section spec.
Context `{SE : !StoreSerde}.

(** The records of a backup's rows, later rows replacing earlier ones. *)
Definition decode_rows {K A B} `{Countable B, !Serde A} (key : K → option B)
    (rows : list (K * bytes)) : gmap B A :=
  foldl (λ m row, match key row.1, decode row.2 with
                  | Some k, Ok a => <[k := a]> m
                  | _, _ => m
                  end) ∅ rows.

Definition restored (data : BackupData) (a : Vault) : Vault := {|
  vault_secrets := decode_rows Some (b_secrets data);
  vault_versions := decode_rows split_version_key (b_versions data);
  vault_roles := decode_rows Some (b_roles data);
  vault_tokens := decode_rows Some (b_tokens data);
  vault_names := foldl (λ m row, <[row.1 := row.2]> m) ∅ (b_tokens_by_name data);
  vault_lockouts := vault_lockouts a;
  vault_audit := decode_rows Some (b_audit data);
  vault_rewrap := decode_rows Some (b_kms_rewrap data) |}.

Definition spec_restore (data : BackupData) (a : Vault) : StoreResult Vault :=
  if decide (b_version data ≠ BACKUP_VERSION)
  then Err (Conflict (RestoreRefused (UnsupportedBackupVersion (b_version data)))) else
  match first_refused data with
  | None => Ok (restored data a)
  | Some why => Err (Conflict (RestoreRefused why))
  end.

Definition spec_apply (node_id : Z) (c : Command) (a : Vault) : StoreResult Vault :=
  match c with
  | CreateSecret secret version =>
      row_allowed (s_name secret) (v_version version) ;;
      match vault_secrets a !! s_name secret with
      | Some _ => Err (Conflict (SecretAlreadyExists (s_name secret)))
      | None => Ok (with_versions <[(s_name secret, v_version version) := version]>
                     (with_secrets <[s_name secret := secret]> a))
      end
  | PutVersion name expected version supersede_at descr interval grace next updated =>
      row_allowed name (v_version version) ;;
      secret ← ok_or NotFound (vault_secrets a !! name);
      if decide (s_current_version secret ≠ expected) then Err VersionConflict else
      Ok (with_secrets <[name := revised (v_version version) descr interval grace next updated secret]>
           (with_versions (λ m,
              let m := <[(name, v_version version) := version]> m in
              match supersede_at with
              | Some expiry => alter (give_expiry expiry) (name, expected) m
              | None => m
              end) a))
  | UpdateMeta name expected descr interval grace next updated =>
      secret ← ok_or NotFound (vault_secrets a !! name);
      if decide (s_current_version secret ≠ expected) then Err VersionConflict else
      Ok (with_secrets <[name := revised expected descr interval grace next updated secret]> a)
  | DeleteSecret name =>
      _ ← ok_or NotFound (vault_secrets a !! name);
      Ok (with_versions (filter (λ kv, kv.1.1 ≠ name)) (with_secrets (delete name) a))
  | CreateRole role =>
      match vault_roles a !! r_name role with
      | Some _ => Err (Conflict (RoleAlreadyExists (r_name role)))
      | None => Ok (with_roles <[r_name role := role]> a)
      end
  | SetPermissions name permissions =>
      role ← ok_or NotFound (vault_roles a !! name);
      Ok (with_roles <[name := with_permissions permissions role]> a)
  | DeleteRole name =>
      if decide (map_Exists (λ _ token, t_role token = Some name) (vault_tokens a))
      then Err (Conflict (RoleStillHasTokens name)) else
      _ ← ok_or NotFound (vault_roles a !! name);
      Ok (with_roles (delete name) a)
  | AddToken token =>
      match vault_tokens a !! t_fingerprint token, vault_names a !! t_name token with
      | Some _, _ => Err (Conflict FingerprintAlreadyExists)
      | None, Some _ => Err (Conflict (TokenAlreadyExists (t_name token)))
      | None, None => Ok (with_tokens <[t_fingerprint token := token]>
                           (with_names <[t_name token := t_fingerprint token]> a))
      end
  | RevokeToken name revoked_at =>
      fingerprint ← ok_or NotFound (vault_names a !! name);
      token ← ok_or NotFound (vault_tokens a !! fingerprint);
      match t_revoked_at token with
      | Some _ => Err NotFound
      | None => Ok (with_tokens <[fingerprint := revoked revoked_at token]> a)
      end
  | TouchToken fingerprint at_ =>
      Ok (with_tokens (alter (used at_) fingerprint) a)
  | ExpireGraceVersions now =>
      Ok (with_versions (filter (λ kv, expired_by now kv.2 = false)) a)
  | RewrapVersion name version key_id wrapped rotation_at =>
      Ok (with_versions (alter (rewrapped key_id wrapped rotation_at) (name, version)) a)
  | SetKmsRewrapState state =>
      Ok (with_rewrap <[KMS_REWRAP_STATE_KEY := state]> a)
  | AppendAudit entry =>
      Ok (with_audit (λ m, <[next_audit_key m := from_node node_id entry]> m) a)
  | RestoreDatabase data => spec_restore data a
  | RecordAuthFailure key now max window lockout =>
      let record := default (fresh_lockout now) (vault_lockouts a !! key) in
      Ok (with_lockouts <[key := count_failure now max window lockout record]> a)
  end.

End spec.
