(* ===== verification/Samples.v ===== *)
(** * A concrete store

    Sample records and a small database built by running commands on the
    finite-map implementation of the tables and the concrete serializer: the
    input the witnesses of the other files are evaluated on. *)

From S2P Require Import Prelude RustStr CoreTypes Redb Keys Model Serial Apply.

Module Samples.

Definition secret (name : string) : SecretRecord := {|
  s_name := name; s_kind := Manual; s_format := Opaque; s_description := None;
  s_rotation_interval_secs := Some 3600; s_grace_secs := 60; s_current_version := 1;
  s_next_rotation_at := Some 3600; s_created_at := 0; s_updated_at := 0;
  s_target := None |}%Z.

Definition version (name : string) (v : Z) : VersionRecord := {|
  v_version := v; v_kms_key_id := "key-1"; v_wrapped_dek := as_bytes "dek";
  v_nonce := as_bytes "nonce"; v_ciphertext := as_bytes "sealed";
  v_aad := aad_for name v; v_created_at := 0; v_expires_at := None;
  v_wrapped_rotation_at := None |}%Z.

Definition role (name : string) : RoleRecord := {|
  r_name := name; r_description := None; r_is_admin := false;
  r_permissions := [("rotate", "db/*")]; r_created_at := 0 |}%Z.

Definition token (name fingerprint : string) : TokenRecord := {|
  t_name := name; t_role := Some "reader"; t_fingerprint := as_bytes fingerprint;
  t_created_at := 0; t_last_used_at := None; t_revoked_at := None |}%Z.

Definition entry (action : string) : AuditEntry := {|
  a_at := 0; a_actor := Some "ops"; a_client_ip := None; a_action := action;
  a_secret_name := None; a_outcome := "ok"; a_node_id := 0 |}%Z.

Definition put (name : string) (expected v : Z) : Command :=
  PutVersion name expected (version name v) (Some 100%Z) None None None Keep 10%Z.

(** The commands one after the other, committed whatever they return. *)
Definition run (cs : list Command) (d : Database) : Database :=
  foldl (λ d c, (apply_command 1 c d).1) d cs.

(** Two secrets, the first at its second version with the first one in grace,
    a role, a token and an audit entry. *)
Definition commands : list Command :=
  [CreateSecret (secret "db/password") (version "db/password" 1);
   CreateSecret (secret "db/password.old") (version "db/password.old" 1);
   put "db/password" 1 2;
   CreateRole (role "reader");
   AddToken (token "ci" "fp-1");
   AppendAudit (entry "create");
   SetKmsRewrapState {| k_last_completed_rotation_at := 5; k_last_swept_at := 6;
                        k_updated_at := 7 |}%Z].

Definition db : Database := run commands empty_database.

End Samples.
