(* ===== verification/ApplyFacts.v ===== *)
(** * Functional behaviour of [apply_command]

    What each command does, on success and on error: refused commands write
    nothing, the scans of [DeleteSecret] and [ExpireGraceVersions] remove
    exactly the rows they mean to, restores reproduce a dump. *)

From S2P Require Import Prelude RustStr CoreTypes Redb Keys Model Serial Apply Spec Samples.

#[global] Instance database_equivalence `{RE : !Redb} : Equivalence (≡@{Database}).
Proof.
  split.
  - intros d. repeat split; reflexivity.
  - intros d1 d2 H. unfold equiv, database_equiv in *. destruct_and!. split_and!; by symmetry.
  - intros d1 d2 d3 H1 H2. unfold equiv, database_equiv in *. destruct_and!.
    split_and!; by etrans.
Qed.

Section facts.
Context `{RE : !Redb, RL : !RedbLaws, SE : !StoreSerde}.
Implicit Types (d : Database).

Lemma t_remove_absent {K} `{!OrdKey K} (k : K) (t : table K) :
  t_get t k = None → t_remove k t ≡ t.
Proof. intros H k'. rewrite t_get_remove. by case_decide; subst. Qed.

(** *** Checks and record updates *)

Lemma row_allowed_eq name v : check_secret_row name v = row_allowed name v.
Proof.
  unfold check_secret_row, check_secret_name, row_allowed, is_valid_secret_version, MIN_SECRET_VERSION. unfold_monad.
  destruct (is_valid_secret_name name); simpl; [|done]. destruct (Z.leb_spec 1 v), (Z.ltb_spec v 1); done || lia.
Qed.

Lemma check_rows_head {A B E} (bad : A → option E) (f : A → B) (err : B → E)
    (P : B → Prop) `{PD : !∀ x, Decision (P x)} l :
  (∀ x, bad x = if decide (P (f x)) then Some (err (f x)) else None) →
  check_rows bad l = match head (err <$> filter P (f <$> l)) with Some e => Err e | None => Ok tt end.
Proof.
  intros Hbad. induction l as [|x l IH]; [done|]. cbn [check_rows]. rewrite fmap_cons, filter_cons, Hbad.
  case_decide; [done|]. by rewrite IH.
Qed.

Lemma first_refused_eq data :
  check_secret_rows data = match first_refused data with Some why => Err why | None => Ok tt end.
Proof.
  unfold check_secret_rows, first_refused.
  rewrite (check_rows_head bad_secret_row fst InvalidSecretName (λ name, is_valid_secret_name name = false)),
    (check_rows_head bad_version_row fst InvalidVersionKey (λ key, version_key_allowed key = false)),
    (check_rows_head bad_audit_row fst AuditKeyAboveMaximum (λ key, (MAX_AUDIT_KEY < key)%Z)).
  - unfold_monad. destruct (filter (λ name, is_valid_secret_name name = false) _); [|done].
    by destruct (filter (λ key, version_key_allowed key = false) _).
  - intros [key row]. unfold bad_audit_row. simpl. destruct (Z.ltb_spec MAX_AUDIT_KEY key); case_decide; done || lia.
  - intros [key row]. unfold bad_version_row, version_key_allowed, is_valid_secret_version, MIN_SECRET_VERSION. simpl.
    destruct (split_version_key key) as [[name v]|]; [|done]. by destruct (_ && _).
  - intros [name row]. unfold bad_secret_row. simpl. by destruct (is_valid_secret_name name).
Qed.

Lemma count_failure_eq l now max window lockout :
  bump_lockout l now max window lockout = count_failure now max window lockout l.
Proof. unfold bump_lockout, count_failure. by destruct (_ <=? _)%Z. Qed.

Lemma revised_eq s v descr interval grace next updated :
  apply_meta (set_current_version s v) descr interval grace next updated
  = revised v descr interval grace next updated s.
Proof. unfold apply_meta, revised. simpl. by destruct descr, interval, grace, next. Qed.

Lemma updated_eq s descr interval grace next updated :
  apply_meta s descr interval grace next updated
  = revised (s_current_version s) descr interval grace next updated s.
Proof. rewrite <- revised_eq. by destruct s. Qed.

(** *** The [Err] paths *)

Lemma row_allowed_ok name v :
  row_allowed name v = Ok tt ↔ is_valid_secret_name name = true ∧ (1 ≤ v)%Z.
Proof.
  unfold row_allowed. destruct (is_valid_secret_name name); simpl; [|naive_solver].
  destruct (Z.ltb_spec v 1); naive_solver lia.
Qed.

Lemma supersede_domain name cur expiry d d' e :
  supersede name cur expiry d = (d', Err e) → domain_error e = false.
Proof. unfold supersede, get_decoded_opt, encode_row, decode_row, encode, decode. run. Qed.

Lemma restore_tables_err data d d' e :
  restore_tables data d = (d', Err e) → d' = d.
Proof.
  unfold restore_tables. case_decide; [by unfold raise; intros [= <- _]|].
  unfold restore_str, restore_bytes, restore_u64, restore_rows. unfold_monad.
  destruct (check_secret_rows data); simpl; [done|]. by intros [= <- _].
Qed.

Ltac open_rows :=
  unfold get_decoded, get_decoded_opt, encode_row, decode_row, encode, decode in *.

(** A refused command writes nothing: when [apply_command] stops with
    [NotFound], [Conflict] or [VersionConflict] (the errors after which the
    Raft state machine still commits the transaction), every table holds
    exactly the rows it held before. *)
Theorem apply_error_writes_nothing node_id c d d' e :
  apply_command node_id c d = (d', Err e) → domain_error e = true → d' ≡ d.
Proof.
  destruct c; simpl.
  - unfold create_secret. open_rows. run.
  - unfold put_version. open_rows. unfold_monad.
    repeat first [progress intros | progress simplify_eq/= | done | case_decide
      | match goal with
        | H : supersede _ _ _ _ = (_, Err _) |- _ => apply supersede_domain in H
        end | case_match]; congruence.
  - unfold update_meta. open_rows. run.
  - unfold delete_secret. run. repeat split; try reflexivity. simpl.
    by apply t_remove_absent.
  - unfold create_role. open_rows. run.
  - unfold set_permissions. open_rows. run.
  - unfold delete_role. run. repeat split; try reflexivity. simpl.
    by apply t_remove_absent.
  - unfold add_token. open_rows. run.
  - unfold revoke_token. open_rows. run.
  - unfold touch_token. open_rows. run.
  - unfold expire_grace_versions. open_rows. run.
  - unfold rewrap_version. open_rows. run.
  - unfold set_kms_rewrap_state. open_rows. run.
  - unfold append_audit. open_rows. run.
  - unfold restore_command. destruct (restore_tables data d) as [d1 []] eqn:E; [done|].
    intros [= <- <-] _. apply restore_tables_err in E as ->. reflexivity.
  - unfold record_auth_failure. open_rows. run.
Qed.

(** *** Scans *)

Lemma expired_keys_spec now rows keys k :
  expired_keys now rows = Ok keys →
  k ∈ keys ↔ ∃ row rec expiry, (k, row) ∈ rows ∧ decode row = Ok rec
               ∧ v_expires_at rec = Some expiry ∧ (expiry ≤ now)%Z.
Proof.
  revert keys. induction rows as [|[key row] rows IH]; intros keys; simpl.
  { intros [= <-]. set_solver. }
  unfold_monad. destruct (decode row) as [rec|] eqn:Hd; [|done].
  destruct (expired_keys now rows) as [ks|]; [|done]. specialize (IH _ eq_refl).
  assert (Hold : keys = ks → (k = key → ∀ expiry, v_expires_at rec = Some expiry →
    ¬ (expiry ≤ now)%Z) → k ∈ keys ↔ ∃ row0 rec0 expiry, (k, row0) ∈ (key, row) :: rows
      ∧ decode row0 = Ok rec0 ∧ v_expires_at rec0 = Some expiry ∧ (expiry ≤ now)%Z).
  { intros -> Hno. rewrite IH. split; intros (row0 & rec0 & x & Hin & Hr & Hx & Hle).
    - exists row0, rec0, x. by rewrite elem_of_cons; auto.
    - apply elem_of_cons in Hin as [[= -> ->]|Hin]; [|by eauto 10].
      rewrite Hd in Hr. simplify_eq. by destruct (Hno eq_refl x Hx). }
  destruct (v_expires_at rec) as [x|] eqn:Hx; [destruct (Z.leb_spec x now)|].
  - intros [= <-]. rewrite elem_of_cons, IH. split.
    + intros [->|(row0 & rec0 & x0 & Hin & ?)]; [by exists row, rec, x; set_solver|].
      exists row0, rec0, x0. set_solver.
    + intros (row0 & rec0 & x0 & [[= -> ->]|Hin]%elem_of_cons & ?); [by left|].
      right. eauto 10.
  - intros [= <-]. apply Hold; [done|]. naive_solver lia.
  - intros [= <-]. apply Hold; naive_solver.
Qed.

Lemma expired_keys_total now rows :
  (∀ k row, (k, row) ∈ rows → ∃ rec : VersionRecord, decode row = Ok rec) →
  ∃ keys, expired_keys now rows = Ok keys.
Proof.
  induction rows as [|[key row] rows IH]; intros Hall; simpl; [eauto|].
  destruct (Hall key row) as [rec ->]; [set_solver|]. unfold_monad.
  destruct IH as [keys ->]; [intros k row0 ?; apply (Hall k row0); set_solver|].
  repeat case_match; eauto.
Qed.

(** The rows [DeleteSecret] collects are the secret's own. *)
Lemma delete_keys_spec name (t : table string) key :
  key ∈ filter (λ key, is_Some (version_from_key name key))
          (t_range (version_range name) t).*1
  ↔ is_Some (t_get t key) ∧ ∃ v, split_version_key key = Some (name, v).
Proof.
  rewrite list_elem_of_filter, list_elem_of_fmap. split.
  - intros [[v Hv] ([k row] & -> & Hin)]. apply elem_of_t_range in Hin as [_ Hin].
    split; [eauto|]. exists v. by apply version_from_key_Some.
  - intros [[row Hrow] [v Hv]]. split; [exists v; by apply version_from_key_Some|].
    exists (key, row). split; [done|]. apply elem_of_t_range. split; [|done].
    apply split_version_key_Some in Hv as (_ & _ & rest & -> & _).
    apply version_range_key.
Qed.

(** *** Restores *)

Lemma restore_rows_run {E K} `{!OrdKey K} (def : TableDefinition K) rows d :
  restore_rows (E := E) def rows d =
  (put_table def (t_insert_all rows (open_table def (put_table def
     (t_remove_all (t_keys (open_table def d)) (open_table def d)) d)))
     (put_table def (t_remove_all (t_keys (open_table def d)) (open_table def d)) d), Ok tt).
Proof. done. Qed.

(** The tables a backup carries, and so a restore replaces. *)
Definition same_backup_tables (d1 d2 : Database) : Prop :=
  db_secrets d1 ≡ db_secrets d2 ∧ db_versions d1 ≡ db_versions d2
  ∧ db_roles d1 ≡ db_roles d2 ∧ db_tokens d1 ≡ db_tokens d2
  ∧ db_tokens_by_name d1 ≡ db_tokens_by_name d2 ∧ db_audit d1 ≡ db_audit d2
  ∧ db_kms_rewrap d1 ≡ db_kms_rewrap d2.

Lemma check_rows_ok {A E} (bad : A → option E) l :
  check_rows bad l = Ok tt ↔ ∀ x, x ∈ l → bad x = None.
Proof.
  induction l as [|x l IH]; simpl; [set_solver|].
  destruct (bad x) eqn:Hx.
  - split; [done|]. intros H. rewrite H in Hx by set_solver. done.
  - rewrite IH. setoid_rewrite elem_of_cons. naive_solver.
Qed.

(** The rows of a store that a backup of it may be restored with. *)
Definition restorable (d : Database) : Prop :=
  (∀ name, is_Some (t_get (db_secrets d) name) → is_valid_secret_name name = true)
  ∧ (∀ key, is_Some (t_get (db_versions d) key) →
      ∃ name v, split_version_key key = Some (name, v)
        ∧ is_valid_secret_name name = true ∧ (1 ≤ v)%Z)
  ∧ (∀ k, is_Some (t_get (db_audit d) k) → (k ≤ MAX_AUDIT_KEY)%Z).

Lemma check_secret_rows_dump d :
  check_secret_rows (dump_database d) = Ok tt ↔ restorable d.
Proof.
  unfold check_secret_rows, restorable. unfold_monad.
  assert (∀ (r1 r2 : result RestoreError unit),
    (match r1 with Ok _ => r2 | Err e => Err e end = Ok tt) ↔ r1 = Ok tt ∧ r2 = Ok tt) as Hseq.
  { intros [[]|] r2; naive_solver. }
  rewrite !Hseq, !check_rows_ok. simpl. unfold dump_str, dump_u64. simpl.
  f_equiv; [|f_equiv].
  - split.
    + intros H name [row Hr]. apply t_iter_get, H in Hr. unfold bad_secret_row in Hr.
      simpl in Hr. by case_match.
    + intros H [name row] Hin%t_iter_get. unfold bad_secret_row. simpl. by rewrite H.
  - split.
    + intros H key [row Hr]. apply t_iter_get, H in Hr. unfold bad_version_row in Hr.
      simpl in Hr. destruct (split_version_key key) as [[n v]|]; [|done].
      destruct (is_valid_secret_name n) eqn:?; [|done]. simpl in Hr.
      unfold is_valid_secret_version, MIN_SECRET_VERSION in Hr.
      destruct (Z.leb_spec 1 v); [|done]. eauto.
    + intros H [key row] Hin%t_iter_get. unfold bad_version_row. simpl.
      destruct (H key) as (n & v & -> & -> & Hv); [eauto|].
      unfold is_valid_secret_version, MIN_SECRET_VERSION.
      by rewrite (proj2 (Z.leb_le 1 v) Hv).
  - split.
    + intros H k [row Hr]. apply t_iter_get, H in Hr. unfold bad_audit_row in Hr.
      simpl in Hr. destruct (Z.ltb_spec MAX_AUDIT_KEY k); [done|lia].
    + intros H [k row] Hin%t_iter_get. unfold bad_audit_row. simpl.
      destruct (Z.ltb_spec MAX_AUDIT_KEY k); [|done].
      assert (k ≤ MAX_AUDIT_KEY)%Z by (apply H; eauto). lia.
Qed.

Lemma restore_tables_run data d :
  b_version data = BACKUP_VERSION → check_secret_rows data = Ok tt →
  ∃ d', restore_tables data d = (d', Ok tt)
    ∧ db_secrets d' = t_insert_all (b_secrets data)
        (t_remove_all (t_keys (db_secrets d)) (db_secrets d))
    ∧ db_versions d' = t_insert_all (b_versions data)
        (t_remove_all (t_keys (db_versions d)) (db_versions d))
    ∧ db_roles d' = t_insert_all (b_roles data)
        (t_remove_all (t_keys (db_roles d)) (db_roles d))
    ∧ db_tokens d' = t_insert_all (b_tokens data)
        (t_remove_all (t_keys (db_tokens d)) (db_tokens d))
    ∧ db_tokens_by_name d' = t_insert_all (b_tokens_by_name data)
        (t_remove_all (t_keys (db_tokens_by_name d)) (db_tokens_by_name d))
    ∧ db_audit d' = t_insert_all (b_audit data)
        (t_remove_all (t_keys (db_audit d)) (db_audit d))
    ∧ db_kms_rewrap d' = t_insert_all (b_kms_rewrap data)
        (t_remove_all (t_keys (db_kms_rewrap d)) (db_kms_rewrap d))
    ∧ db_lockouts d' = db_lockouts d ∧ db_log d' = db_log d ∧ db_meta d' = db_meta d.
Proof.
  intros Hv Hc. eexists. split.
  - unfold restore_tables. case_decide; [done|]. unfold_monad. rewrite Hc.
    unfold restore_str, restore_bytes, restore_u64, restore_rows. reflexivity.
  - simpl. by split_and!.
Qed.

(** Restoring a backup reproduces the store it was taken from, whatever
    the target held: when the backup's rows pass the restore checks, the
    restore succeeds and every table the backup carries has exactly the rows
    of the source, while lockouts and Raft state are left alone; when they
    do not, the restore is refused and the target is unchanged. *)
Theorem restore_dump_roundtrip d d0 :
  match restore_database (dump_database d) d0 with
  | (d', Ok _) => restorable d ∧ same_backup_tables d' d
      ∧ db_lockouts d' = db_lockouts d0 ∧ db_log d' = db_log d0 ∧ db_meta d' = db_meta d0
  | (d', Err _) => ¬ restorable d ∧ d' = d0
  end.
Proof.
  unfold restore_database. pose proof (check_secret_rows_dump d) as Hiff.
  destruct (check_secret_rows (dump_database d)) as [[]|e] eqn:Hc.
  - destruct (restore_tables_run (dump_database d) d0 eq_refl Hc)
      as (d' & -> & Hs & Hve & Hr & Ht & Hn & Ha & Hk & ?).
    split; [by apply Hiff|]. split; [|done]. unfold same_backup_tables.
    rewrite Hs, Hve, Hr, Ht, Hn, Ha, Hk. split_and!; apply t_copy.
  - unfold restore_tables. case_decide; [done|]. unfold_monad. rewrite Hc.
    split; [|done]. by intros ?%Hiff.
Qed.
End facts.

(** ** The theorems on the sample store *)

(** A second writer that read version 1 is refused. *)
Lemma apply_error_writes_nothing_witness :
  (apply_command 1 (Samples.put "db/password" 1 2) Samples.db).1 ≡ Samples.db.
Proof.
  apply (apply_error_writes_nothing 1 (Samples.put "db/password" 1 2) Samples.db
    _ VersionConflict); [vm_compute; reflexivity|reflexivity].
Defined.

Lemma restore_dump_roundtrip_witness :
  let r := restore_database (dump_database Samples.db) empty_database in
  r.2 = Ok tt ∧ same_backup_tables r.1 Samples.db.
Proof.
  split; [vm_compute; reflexivity|].
  pose proof (restore_dump_roundtrip Samples.db empty_database) as H.
  assert (Hok : (restore_database (dump_database Samples.db) empty_database).2 = Ok tt)
    by (vm_compute; reflexivity).
  destruct (restore_database _ _) as [d' [[]|e]]; [apply H|discriminate Hok].
Defined.
