(* ===== verification/Refine.v ===== *)
(** * The state machine implements the abstract vault

    [abstracts d a] relates a database file to the vault of [Spec] it stores.
    The main theorem is a simulation: from related states, [apply_command]
    answers what [spec_apply] answers and ends in related states.  It follows
    that a store whose rows decode never answers [Internal]. *)

From S2P Require Import Prelude RustStr CoreTypes Redb Keys Model Serial Apply Spec Samples ApplyFacts.

(** ** A table that stores a finite map *)

Section stores.
Context `{RE : !Redb, RL : !RedbLaws} {K B A : Type} `{OK : !OrdKey K} `{EB : EqDecision B, CB : !Countable B}.
Context (key : K → option B) (dec : bytes → StoreResult A).
Context (key_inj : ∀ k1 k2 b, key k1 = Some b → key k2 = Some b → k1 = k2).
Implicit Types (t : table K) (m : gmap B A).

(** Every row has a key of the right form and a value that decodes to the
    map's entry, and the map has no other entries. *)
Definition stores (t : table K) (m : gmap B A) : Prop :=
  (∀ k, option_Forall2 (λ row a, dec row = Ok a) (t_get t k) (key k ≫= (m !!.)))
  ∧ (∀ b a, m !! b = Some a → ∃ k, key k = Some b).

Lemma stores_empty : stores t_empty ∅.
Proof using RL.
  split; [|by intros b a; rewrite lookup_empty]. intros k. rewrite t_get_empty.
  destruct (key k); simpl; rewrite ?lookup_empty; constructor.
Qed.

Lemma stores_get t m k b :
  stores t m → key k = Some b → option_Forall2 (λ row a, dec row = Ok a) (t_get t k) (m !! b).
Proof. intros [H _] Hk. specialize (H k). by rewrite Hk in H. Qed.

(** A lookup under a key that may have the wrong form. *)
Lemma stores_get_any t m k b :
  (∀ b', key k = Some b' → b' = b) → (∀ k', key k' = Some b → k' = k) →
  stores t m → option_Forall2 (λ row a, dec row = Ok a) (t_get t k) (m !! b).
Proof.
  intros H1 H2 Hs. destruct (key k) as [b'|] eqn:Hk.
  { apply (stores_get t m k); [done|]. by rewrite Hk, (H1 b' eq_refl). }
  destruct (m !! b) as [a|] eqn:Hb.
  - destruct Hs as [_ Hs]. destruct (Hs _ _ Hb) as [k' Hk']. rewrite <- (H2 _ Hk') in Hk. congruence.
  - destruct Hs as [Hs _]. specialize (Hs k). rewrite Hk in Hs. done.
Qed.

Lemma stores_row t m k row :
  stores t m → t_get t k = Some row → ∃ b a, key k = Some b ∧ m !! b = Some a ∧ dec row = Ok a.
Proof.
  intros [H _] Hrow. specialize (H k). rewrite Hrow in H. inversion H as [row' a Hd Hr Ha|]. subst.
  symmetry in Ha. apply bind_Some in Ha as (b & ? & ?). eauto.
Qed.

Lemma stores_entry t m b a :
  stores t m → m !! b = Some a → ∃ k row, key k = Some b ∧ t_get t k = Some row ∧ dec row = Ok a.
Proof.
  intros [H Hdom] Hb. destruct (Hdom _ _ Hb) as [k Hk]. specialize (H k).
  rewrite Hk in H. simpl in H. rewrite Hb in H. inversion H; subst. eauto.
Qed.

Lemma stores_insert t m k b row a :
  key k = Some b → dec row = Ok a → stores t m → stores (t_insert k row t) (<[b := a]> m).
Proof using RL key_inj.
  intros Hk Hd [H Hdom]. split.
  - intros k'. rewrite t_get_insert. case_decide as Heq.
    + subst. rewrite Hk. simpl. rewrite lookup_insert_eq. by constructor.
    + specialize (H k'). destruct (key k') as [b'|] eqn:Hk'; [|done]. simpl in *.
      rewrite lookup_insert_ne; [done|]. intros ->. by eapply Heq, key_inj.
  - intros b' a' Hb'. destruct (decide (b = b')) as [->|]; [eauto|].
    rewrite lookup_insert_ne in Hb' by done. eauto.
Qed.

Lemma stores_remove t m k b :
  key k = Some b → stores t m → stores (t_remove k t) (delete b m).
Proof using RL key_inj.
  intros Hk [H Hdom]. split.
  - intros k'. rewrite t_get_remove. case_decide as Heq.
    + subst. rewrite Hk. simpl. rewrite lookup_delete_eq. by constructor.
    + specialize (H k'). destruct (key k') as [b'|] eqn:Hk'; [|done]. simpl in *.
      rewrite lookup_delete_ne; [done|]. intros ->. by eapply Heq, key_inj.
  - intros b' a' Hb'. apply lookup_delete_Some in Hb' as [_ Hb']. eauto.
Qed.

Lemma stores_remove_all t m ks (P : B * A → Prop) `{PD : !∀ x, Decision (P x)} :
  (∀ k row b a, t_get t k = Some row → key k = Some b → m !! b = Some a → dec row = Ok a →
     k ∈ ks ↔ ¬ P (b, a)) →
  stores t m → stores (t_remove_all ks t) (filter P m).
Proof using RL.
  intros Hks Hst. pose proof Hst as [H Hdom]. split.
  - intros k. rewrite t_get_remove_all. specialize (H k).
    destruct (t_get t k) as [row|] eqn:Hrow.
    + destruct (stores_row _ _ _ _ Hst Hrow) as (b & a & Hk & Hb & Hd).
      rewrite Hk. simpl. specialize (Hks _ _ _ _ Hrow Hk Hb Hd). case_decide.
      * rewrite (proj2 (map_lookup_filter_None P m b)); [constructor|]. right.
        intros a' Ha'. rewrite Hb in Ha'. simplify_eq. tauto.
      * rewrite (proj2 (map_lookup_filter_Some P m b a)); [by constructor|].
        split; [done|]. destruct (decide (P (b, a))); tauto.
    + assert ((key k ≫= (filter P m !!.)) = None) as ->.
      { destruct (key k) as [b|]; [|done]. simpl in *. apply map_lookup_filter_None. left.
        by inversion H. }
      case_decide; constructor.
  - intros b a [Hb _]%map_lookup_filter_Some. eauto.
Qed.

(** Rows inserted over a table; later rows win on both sides. *)
Lemma stores_insert_all t m rows :
  Forall (λ row, ∃ b a, key row.1 = Some b ∧ dec row.2 = Ok a) rows → stores t m →
  stores (t_insert_all rows t)
    (foldl (λ m row, match key row.1, dec row.2 with
                     | Some b, Ok a => <[b := a]> m
                     | _, _ => m
                     end) m rows).
Proof using RL key_inj.
  intros Hrows. revert t m. induction Hrows as [|[k row] rows (b & a & Hk & Hd) Hrows IH];
    intros t m Hst; [done|].
  unfold t_insert_all in *. cbn [foldl]. apply IH. simpl in *. rewrite Hk, Hd.
  by apply stores_insert.
Qed.

Lemma stores_ext t1 t2 m : t1 ≡ t2 → stores t1 m → stores t2 m.
Proof using RL. intros Ht [H Hdom]. split; [|done]. intros k. by rewrite <- (Ht k). Qed.

(** A table stores one map only. *)
Lemma stores_unique t m1 m2 : stores t m1 → stores t m2 → m1 = m2.
Proof.
  assert (∀ m m' b a, stores t m → stores t m' → m !! b = Some a → m' !! b = Some a) as Hsub.
  { intros m m' b a Hm Hm' Hb. destruct (stores_entry _ _ _ _ Hm Hb) as (k & row & Hk & Hrow & Hd).
    destruct (stores_row _ _ _ _ Hm' Hrow) as (b' & a' & Hk' & Hb' & Hd'). congruence. }
  intros H1 H2. apply map_eq. intros b. apply option_eq. intros a. split; eauto.
Qed.

Lemma stores_iter_key t m :
  stores t m → Forall (λ row, is_Some (key row.1)) (t_iter t).
Proof using RL.
  intros Hs. apply Forall_forall. intros [k row] Hin%t_iter_get.
  destruct (stores_row _ _ _ _ Hs Hin) as (b & ? & ? & ?). eauto.
Qed.

Lemma stores_iter_dec t m :
  stores t m → Forall (λ row, ∃ a, dec row.2 = Ok a) (t_iter t).
Proof using RL.
  intros Hs. apply Forall_forall. intros [k row] Hin%t_iter_get.
  destruct (stores_row _ _ _ _ Hs Hin) as (? & a & ? & ? & ?). eauto.
Qed.
End stores.

(** ** The vault a database file stores *)

Lemma some_key_inj {K} (k1 k2 b : K) : Some k1 = Some b → Some k2 = Some b → k1 = k2.
Proof. congruence. Qed.

Lemma version_key_split_inj k1 k2 b :
  split_version_key k1 = Some b → split_version_key k2 = Some b → k1 = k2.
Proof.
  destruct b as [n v]. intros ->%version_key_of_split ->%version_key_of_split. done.
Qed.

#[export] Hint Resolve some_key_inj version_key_split_inj : vault.

Section refine.
Context `{RE : !Redb, RL : !RedbLaws, SE : !StoreSerde, SL : !StoreSerdeLaws}.
Implicit Types (d : Database) (a : Vault).

Record abstracts (d : Database) (a : Vault) : Prop := {
  abs_secrets : stores Some decode (db_secrets d) (vault_secrets a);
  abs_versions : stores split_version_key decode (db_versions d) (vault_versions a);
  abs_roles : stores Some decode (db_roles d) (vault_roles a);
  abs_tokens : stores Some decode (db_tokens d) (vault_tokens a);
  abs_names : stores Some Ok (db_tokens_by_name d) (vault_names a);
  abs_lockouts : stores Some decode (db_lockouts d) (vault_lockouts a);
  abs_audit : stores Some decode (db_audit d) (vault_audit a);
  abs_rewrap : stores Some decode (db_kms_rewrap d) (vault_rewrap a);
  abs_audit_keys k : is_Some (vault_audit a !! k) → (0 ≤ k)%Z;
}.

(** The backup's rows decode, and its audit keys are [u64]s. *)
Definition rows_decode {K A} `{!Serde A} (rows : list (K * bytes)) : Prop :=
  Forall (λ row, ∃ a : A, decode row.2 = Ok a) rows.

Record backup_decodes (data : BackupData) : Prop := {
  bd_secrets : rows_decode (A := SecretRecord) (b_secrets data);
  bd_versions : rows_decode (A := VersionRecord) (b_versions data);
  bd_roles : rows_decode (A := RoleRecord) (b_roles data);
  bd_tokens : rows_decode (A := TokenRecord) (b_tokens data);
  bd_audit : rows_decode (A := AuditEntry) (b_audit data);
  bd_rewrap : rows_decode (A := KmsRewrapState) (b_kms_rewrap data);
  bd_audit_keys : Forall (λ row, (0 ≤ row.1)%Z) (b_audit data);
}.

(** The integers of a command are in range of their types, and a backup it
    carries was written by a vault. *)
Definition well_typed (c : Command) : Prop :=
  match c with
  | CreateSecret _ version => in_i32 (v_version version)
  | PutVersion _ expected version _ _ _ _ _ _ => in_i32 expected ∧ in_i32 (v_version version)
  | RewrapVersion _ version _ _ _ => in_i32 version
  | RestoreDatabase data => backup_decodes data
  | _ => True
  end.

(** What the state machine does to [d] is what the specification does to [a],
    and the Raft tables are not touched. *)
Definition simulates (d : Database) (a : Vault) (r : Database * StoreResult unit)
    (s : StoreResult Vault) : Prop :=
  match s with
  | Ok a' => r.2 = Ok tt ∧ abstracts r.1 a'
  | Err e => r.2 = Err e ∧ abstracts r.1 a
  end ∧ db_log r.1 = db_log d ∧ db_meta r.1 = db_meta d.

(** A lookup finds nothing on both sides, or a row and its record. *)
Lemma stores_cases {K A} `{!OrdKey K, EK : EqDecision K, !Countable K} (dec : bytes → StoreResult A) t
    (m : gmap K A) k :
  stores Some dec t m →
  (t_get t k = None ∧ m !! k = None)
  ∨ ∃ row r, t_get t k = Some row ∧ m !! k = Some r ∧ dec row = Ok r.
Proof.
  intros Hs%(stores_get _ _ _ _ k k); [|done]. inversion Hs; [right|left]; eauto 10.
Qed.

Lemma version_cases (t : table string) (m : gmap (string * Z) VersionRecord) name v :
  stores split_version_key decode t m → (v ≤ i32_max)%Z →
  (t_get t (version_key name v) = None ∧ m !! (name, v) = None)
  ∨ ∃ row r, t_get t (version_key name v) = Some row ∧ m !! (name, v) = Some r
      ∧ decode row = Ok r.
Proof.
  intros H Hv. apply (stores_get_any _ _ _ _ (version_key name v) (name, v)) in H.
  - inversion H; [right|left]; eauto 10.
  - intros [n' v'] [-> ->]%split_version_key_self; done.
  - intros k' Hk'. by apply version_key_of_split.
Qed.

Lemma valid_row_splits name v :
  row_allowed name v = Ok tt → (v ≤ i32_max)%Z →
  split_version_key (version_key name v) = Some (name, v).
Proof.
  intros [Hn Hv]%row_allowed_ok Hmax. apply split_version_key_of; [|lia].
  by apply valid_name_no_nul.
Qed.

Lemma simulates_err d a e : abstracts d a → simulates d a (d, Err e) (Err e).
Proof. intros Ha. split; [by split|done]. Qed.

(** Run a transaction body: expose its reads, then use the lookups in scope. *)
Ltac open_body :=
  unfold spec_apply, get_decoded, get_decoded_opt, encode_row, decode_row; unfold_monad; simpl.

Ltac encoded r bs :=
  let H := fresh "Henc" in destruct (encode_ok r) as (bs & H & ?); rewrite !H.

Ltac stores_tac :=
  simpl; eauto using stores_insert, stores_remove with vault.

Ltac abs_tac := split; simpl; try by stores_tac.

Lemma create_secret_refines d a secret version :
  abstracts d a → in_i32 (v_version version) →
  simulates d a (create_secret secret version d) (spec_apply 0 (CreateSecret secret version) a).
Proof.
  intros Ha Hv. unfold create_secret, simulates. open_body. rewrite row_allowed_eq.
  destruct (row_allowed _ _) as [[]|e] eqn:Hc; [|by apply simulates_err].
  destruct (stores_cases _ _ _ (s_name secret) (abs_secrets _ _ Ha))
    as [[-> ->]|(row & r & -> & -> & Hr)]; [|by apply simulates_err].
  encoded secret bs1. encoded version bs2. split; [|done]. split; [done|].
  destruct Ha. abs_tac. unfold_ints.
  apply stores_insert; stores_tac. apply valid_row_splits; [done|unfold_ints; lia].
Qed.

(** The expiry the superseded row gets. *)
Lemma supersede_refines d (m : gmap (string * Z) VersionRecord) name v expiry :
  stores split_version_key decode (db_versions d) m → (v ≤ i32_max)%Z →
  ∃ t, supersede name v expiry d = (put_table VERSIONS t d, Ok tt)
    ∧ stores split_version_key decode t (alter (give_expiry expiry) (name, v) m).
Proof.
  intros Hs Hv. unfold supersede. open_body.
  destruct (version_cases _ _ name v Hs Hv) as [[-> Hm]|(row & r & Hrow & Hm & Hd)].
  - exists (db_versions d). rewrite alter_id by (intros; congruence).
    by destruct d.
  - rewrite Hrow, Hd. destruct (v_expires_at r) as [x|] eqn:Hx.
    + exists (db_versions d). split; [by destruct d|]. rewrite alter_id; [done|].
      intros r' Hr'. unfold give_expiry. rewrite Hm in Hr'. simplify_eq. by rewrite Hx.
    + encoded (set_expires_at r expiry) bs. eexists. split; [done|].
      rewrite <- (insert_id m (name, v) r) by done. rewrite alter_insert_eq.
      unfold give_expiry. rewrite Hx.
      destruct (stores_row _ _ _ _ _ _ Hs Hrow) as ([n' v'] & r' & Hk & ? & ?).
      destruct (split_version_key_self _ _ _ _ Hv Hk) as [-> ->].
      apply stores_insert; stores_tac.
Qed.

Lemma put_version_refines d a name expected version supersede_at descr interval grace next updated :
  abstracts d a → in_i32 expected → in_i32 (v_version version) →
  simulates d a
    (put_version name expected version supersede_at descr interval grace next updated d)
    (spec_apply 0 (PutVersion name expected version supersede_at descr interval grace next updated) a).
Proof.
  intros Ha He Hv. unfold put_version, simulates. open_body. rewrite row_allowed_eq.
  destruct (row_allowed _ _) as [[]|e] eqn:Hc; [|by apply simulates_err].
  destruct (stores_cases _ _ _ name (abs_secrets _ _ Ha))
    as [[-> ->]|(row & r & -> & -> & Hr)]; [by apply simulates_err|]. rewrite Hr.
  case_decide; [by apply simulates_err|]. encoded version bs1. simpl.
  rewrite revised_eq. encoded (revised (v_version version) descr interval grace next updated r) bs2.
  assert (stores split_version_key decode
    (t_insert (version_key name (v_version version)) bs1 (db_versions d))
    (<[(name, v_version version) := version]> (vault_versions a))) as Hs.
  { apply stores_insert; [stores_tac| |done|apply Ha].
    apply valid_row_splits; [done|unfold_ints; lia]. }
  destruct supersede_at as [expiry|]; simpl.
  - destruct (supersede_refines (put_table VERSIONS (t_insert (version_key name (v_version version))
      bs1 (db_versions d)) d) _ name expected expiry Hs) as (t & Hsup & Ht); [unfold_ints; lia|].
    simpl in Hsup. rewrite Hsup. split; [|done]. split; [done|].
    destruct Ha. abs_tac.
  - split; [|done]. split; [done|]. destruct Ha. abs_tac.
Qed.

Lemma update_meta_refines d a name expected descr interval grace next updated :
  abstracts d a →
  simulates d a (update_meta name expected descr interval grace next updated d)
    (spec_apply 0 (UpdateMeta name expected descr interval grace next updated) a).
Proof.
  intros Ha. unfold update_meta, simulates. open_body.
  destruct (stores_cases _ _ _ name (abs_secrets _ _ Ha))
    as [[-> ->]|(row & r & -> & -> & Hr)]; [by apply simulates_err|]. rewrite Hr.
  case_decide as Hv; [by apply simulates_err|]. subst expected. rewrite updated_eq.
  encoded (revised (s_current_version r) descr interval grace next updated r) bs.
  split; [|done]. split; [done|]. destruct Ha. abs_tac.
Qed.

Lemma delete_secret_refines d a name :
  abstracts d a → simulates d a (delete_secret name d) (spec_apply 0 (DeleteSecret name) a).
Proof.
  intros Ha. unfold delete_secret, simulates. open_body.
  destruct (stores_cases _ _ _ name (abs_secrets _ _ Ha))
    as [[Hn ->]|(row & r & Hrow & -> & Hr)].
  - rewrite Hn. split; [|done]. split; [done|]. destruct Ha. abs_tac.
    eapply stores_ext; [|done]. symmetry. by apply t_remove_absent.
  - rewrite Hrow. split; [|done]. split; [done|]. destruct Ha. abs_tac.
    apply stores_remove_all; [|done]. intros k row' [n v] r' Hk Hsplit _ _. simpl.
    rewrite delete_keys_spec, Hk. split.
    + intros [_ [v' Hv']]. rewrite Hsplit in Hv'. naive_solver.
    + intros ->%dec_stable. eauto.
Qed.

Ltac done_ok Ha := split; [|done]; split; [done|]; destruct Ha; abs_tac.

Lemma create_role_refines d a role :
  abstracts d a → simulates d a (create_role role d) (spec_apply 0 (CreateRole role) a).
Proof.
  intros Ha. unfold create_role, simulates. open_body.
  destruct (stores_cases _ _ _ (r_name role) (abs_roles _ _ Ha))
    as [[-> ->]|(row & r & -> & -> & Hr)]; [|by apply simulates_err].
  encoded role bs. done_ok Ha.
Qed.

Lemma set_permissions_refines d a name permissions :
  abstracts d a →
  simulates d a (set_permissions name permissions d) (spec_apply 0 (SetPermissions name permissions) a).
Proof.
  intros Ha. unfold set_permissions, simulates. open_body.
  destruct (stores_cases _ _ _ name (abs_roles _ _ Ha))
    as [[-> ->]|(row & r & -> & -> & Hr)]; [by apply simulates_err|]. rewrite Hr.
  fold (with_permissions permissions r). encoded (with_permissions permissions r) bs. done_ok Ha.
Qed.

(** The token scan of [DeleteRole] answers whether a token has the role. *)
Lemma check_role_unused_spec name rows :
  (∀ k row, (k, row) ∈ rows → ∃ token : TokenRecord, decode row = Ok token) →
  check_role_unused name rows = Ok tt
    ∧ (∀ k row token, (k, row) ∈ rows → decode row = Ok token → t_role token ≠ Some name)
  ∨ check_role_unused name rows = Err (Conflict (RoleStillHasTokens name))
    ∧ ∃ k row token, (k, row) ∈ rows ∧ decode row = Ok token ∧ t_role token = Some name.
Proof.
  induction rows as [|[k row] rows IH]; intros Hdec; simpl.
  { left. split; [done|]. intros ???. by rewrite elem_of_nil. }
  destruct (Hdec k row) as [token Ht]; [set_solver|]. rewrite Ht. unfold_monad. case_decide.
  { right. split; [done|]. exists k, row, token. set_solver. }
  destruct IH as [[Hc Hno]|[Hc (k' & row' & tok' & Hin & ?)]].
  - intros k' row' ?. apply (Hdec k' row'). by right.
  - left. split; [done|]. intros k' row' tok' [[= -> ->]|Hin]%elem_of_cons Hd; [congruence|eauto].
  - right. split; [done|]. exists k', row', tok'. by rewrite elem_of_cons; auto.
Qed.

Lemma role_in_use d a name :
  abstracts d a →
  check_role_unused name (t_iter (db_tokens d)) = Ok tt
    ∧ ¬ map_Exists (λ _ token, t_role token = Some name) (vault_tokens a)
  ∨ check_role_unused name (t_iter (db_tokens d)) = Err (Conflict (RoleStillHasTokens name))
    ∧ map_Exists (λ _ token, t_role token = Some name) (vault_tokens a).
Proof.
  intros Ha%abs_tokens. destruct (check_role_unused_spec name (t_iter (db_tokens d)))
    as [[Hc Hno]|[Hc (k & row & token & Hin%t_iter_get & Hd & Hr)]].
  - intros k row Hin%t_iter_get. destruct (stores_row _ _ _ _ _ _ Ha Hin) as (? & token & ?).
    naive_solver.
  - left. split; [done|]. intros (fp & token & Hfp & Hr).
    destruct (stores_entry _ _ _ _ _ _ Ha Hfp) as (k & row & [= ->] & Hrow & Hd).
    apply t_iter_get in Hrow. by eapply Hno.
  - right. split; [done|].
    destruct (stores_row _ _ _ _ _ _ Ha Hin) as (fp & token' & [= ->] & Hm & Hd').
    exists fp, token'. split; [done|]. congruence.
Qed.

Lemma delete_role_refines d a name :
  abstracts d a → simulates d a (delete_role name d) (spec_apply 0 (DeleteRole name) a).
Proof.
  intros Ha. unfold delete_role, simulates. open_body.
  destruct (role_in_use d a name Ha) as [[-> ?]|[-> ?]]; case_decide; try done. simpl.
  destruct (stores_cases _ _ _ name (abs_roles _ _ Ha))
    as [[Hn ->]|(row & r & Hrow & -> & Hr)].
  - rewrite Hn. done_ok Ha. eapply stores_ext; [|done]. symmetry. by apply t_remove_absent.
  - rewrite Hrow. done_ok Ha.
Qed.

Lemma add_token_refines d a token :
  abstracts d a → simulates d a (add_token token d) (spec_apply 0 (AddToken token) a).
Proof.
  intros Ha. unfold add_token, simulates. open_body.
  destruct (stores_cases _ _ _ (t_fingerprint token) (abs_tokens _ _ Ha))
    as [[-> ->]|(row & r & -> & -> & Hr)]; [|by apply simulates_err].
  destruct (stores_cases _ _ _ (t_name token) (abs_names _ _ Ha))
    as [[-> ->]|(row & r & -> & -> & Hr)]; [|by apply simulates_err].
  encoded token bs. done_ok Ha.
Qed.

Lemma revoke_token_refines d a name at_ :
  abstracts d a → simulates d a (revoke_token name at_ d) (spec_apply 0 (RevokeToken name at_) a).
Proof.
  intros Ha. unfold revoke_token, simulates. open_body.
  destruct (stores_cases _ _ _ name (abs_names _ _ Ha))
    as [[-> ->]|(fp & fp' & -> & -> & [= ->])]; [by apply simulates_err|].
  destruct (stores_cases _ _ _ fp' (abs_tokens _ _ Ha))
    as [[-> ->]|(row & r & -> & -> & Hr)]; [by apply simulates_err|]. rewrite Hr.
  destruct (t_revoked_at r); [by apply simulates_err|].
  encoded (set_revoked_at r at_) bs. done_ok Ha.
Qed.

Lemma touch_token_refines d a fingerprint at_ :
  abstracts d a →
  simulates d a (touch_token fingerprint at_ d) (spec_apply 0 (TouchToken fingerprint at_) a).
Proof.
  intros Ha. unfold touch_token, simulates. open_body.
  destruct (stores_cases _ _ _ fingerprint (abs_tokens _ _ Ha))
    as [[-> Hm]|(row & r & -> & Hm & Hr)].
  - done_ok Ha. rewrite alter_id by (intros; congruence). done.
  - rewrite Hr. encoded (set_last_used_at r at_) bs. done_ok Ha.
    rewrite <- (insert_id (vault_tokens a) fingerprint r), alter_insert_eq by done. stores_tac.
Qed.

Lemma expire_refines d a now :
  abstracts d a →
  simulates d a (expire_grace_versions now d) (spec_apply 0 (ExpireGraceVersions now) a).
Proof.
  intros Ha. unfold expire_grace_versions, simulates. open_body.
  destruct (expired_keys_total now (t_iter (db_versions d))) as [keys Hkeys].
  { intros k row Hin%t_iter_get.
    destruct (stores_row _ _ _ _ _ _ (abs_versions _ _ Ha) Hin) as (? & r & ?). naive_solver. }
  rewrite Hkeys. done_ok Ha. apply stores_remove_all; [|done].
  intros k row b r Hk Hb Hm Hd. rewrite (expired_keys_spec _ _ _ k Hkeys). simpl.
  unfold expired_by. split.
  - intros (row' & r' & x & Hin%t_iter_get & Hd' & Hx & Hle). rewrite Hk in Hin. simplify_eq.
    rewrite Hd in Hd'. simplify_eq. rewrite Hx. by rewrite (proj2 (Z.leb_le x now)).
  - intros Hne. destruct (v_expires_at r) as [x|] eqn:Hx; [|done].
    destruct (Z.leb_spec x now); [|done]. exists row, r, x. by rewrite t_iter_get.
Qed.

Lemma rewrap_refines d a name v key_id wrapped rotation_at :
  abstracts d a → in_i32 v →
  simulates d a (rewrap_version name v key_id wrapped rotation_at d)
    (spec_apply 0 (RewrapVersion name v key_id wrapped rotation_at) a).
Proof.
  intros Ha Hv. unfold rewrap_version, simulates. open_body.
  destruct (version_cases _ _ name v (abs_versions _ _ Ha)) as [[-> Hm]|(row & r & Hrow & Hm & Hd)];
    [unfold_ints; lia|..].
  { done_ok Ha. rewrite alter_id by (intros; congruence). done. }
  rewrite Hrow, Hd.
  assert (alter (rewrapped key_id wrapped rotation_at) (name, v) (vault_versions a)
    = <[(name, v) := rewrapped key_id wrapped rotation_at r]> (vault_versions a)) as Hal.
  { apply map_eq. intros b. destruct (decide (b = (name, v))) as [->|].
    - by rewrite lookup_alter_eq, lookup_insert_eq, Hm.
    - by rewrite lookup_alter_ne, lookup_insert_ne. }
  destruct (stores_row _ _ _ _ _ _ (abs_versions _ _ Ha) Hrow) as ([n' v'] & r' & Hk & _ & _).
  destruct (split_version_key_self name v n' v') as [-> ->]; [unfold_ints; lia|done|].
  unfold rewrapped at 2 in Hal. destruct (v_wrapped_rotation_at r) as [cur|] eqn:Hc;
    [destruct (rotation_at <=? cur)%Z|].
  - done_ok Ha. by rewrite Hal, insert_id.
  - encoded (set_wrapping r key_id wrapped rotation_at) bs. done_ok Ha. rewrite Hal. stores_tac.
  - encoded (set_wrapping r key_id wrapped rotation_at) bs. done_ok Ha. rewrite Hal. stores_tac.
Qed.

Lemma set_kms_rewrap_state_refines d a state :
  abstracts d a →
  simulates d a (set_kms_rewrap_state state d) (spec_apply 0 (SetKmsRewrapState state) a).
Proof.
  intros Ha. unfold set_kms_rewrap_state, simulates. open_body. encoded state bs. done_ok Ha.
Qed.

Lemma record_auth_failure_refines d a key now max window lockout :
  abstracts d a →
  simulates d a (record_auth_failure key now max window lockout d)
    (spec_apply 0 (RecordAuthFailure key now max window lockout) a).
Proof.
  intros Ha. unfold record_auth_failure, simulates, fresh_lockout. open_body.
  destruct (stores_cases _ _ _ key (abs_lockouts _ _ Ha))
    as [[-> Hm]|(row & r & -> & Hm & Hr)]; [|rewrite Hr]; rewrite Hm, count_failure_eq; simpl.
  - encoded (count_failure now max window lockout
      {| l_failures := 0; l_window_start := now; l_locked_until := None |}) bs. done_ok Ha.
  - encoded (count_failure now max window lockout r) bs. done_ok Ha.
Qed.

(** *** The next audit key *)

Lemma next_audit_key_foldr (l : list Z) :
  (∀ k, k ∈ l → (0 ≤ k)%Z) →
  let n := foldr (λ k acc, if (k <=? MAX_AUDIT_KEY)%Z then Z.max (k + 1) acc else acc) 0%Z l in
  (∀ k, k ∈ l → (k ≤ MAX_AUDIT_KEY)%Z → (k < n)%Z)
  ∧ (n = 0 ∨ n - 1 ∈ l ∧ (0 ≤ n - 1 ≤ MAX_AUDIT_KEY)%Z)%Z.
Proof.
  induction l as [|x l IH]; intros Hl; simpl.
  { split; [by intros k ?%elem_of_nil|by left]. }
  destruct IH as [Hlt Hn]; [set_solver|]. assert (0 ≤ x)%Z by (apply Hl; set_solver).
  set (n := foldr _ _ l) in *. destruct (Z.leb_spec x MAX_AUDIT_KEY).
  - split; [intros k [->|Hk]%elem_of_cons Hmax; [lia|specialize (Hlt k Hk Hmax); lia]|].
    destruct (Z.max_spec (x + 1) n) as [[? ->]|[? ->]].
    + destruct Hn as [->|[? ?]]; [by left|right; set_solver].
    + right. replace (x + 1 - 1)%Z with x by lia. split; [by left|lia].
  - split; [intros k [->|Hk]%elem_of_cons Hmax; [lia|by apply Hlt]|].
    destruct Hn as [->|[? ?]]; [by left|right; set_solver].
Qed.

Lemma next_audit_key_spec (m : gmap Z AuditEntry) :
  (∀ k, is_Some (m !! k) → (0 ≤ k)%Z) →
  (∀ k, is_Some (m !! k) → (k ≤ MAX_AUDIT_KEY)%Z → (k < next_audit_key m)%Z)
  ∧ (next_audit_key m = 0
     ∨ is_Some (m !! (next_audit_key m - 1)) ∧ (0 ≤ next_audit_key m - 1 ≤ MAX_AUDIT_KEY)%Z)%Z.
Proof.
  intros Hm. destruct (next_audit_key_foldr (elements (dom m))) as [H1 H2].
  { intros k. rewrite elem_of_elements, elem_of_dom. apply Hm. }
  fold (next_audit_key m) in H1, H2. split.
  - intros k Hk. apply H1. by rewrite elem_of_elements, elem_of_dom.
  - destruct H2 as [->|[H2 ?]]; [by left|right]. split; [|done].
    by rewrite elem_of_elements, elem_of_dom in H2.
Qed.

Lemma next_audit_key_nonneg (m : gmap Z AuditEntry) : (0 ≤ next_audit_key m)%Z.
Proof.
  unfold next_audit_key. induction (elements (dom m)) as [|k l IH]; simpl; [lia|].
  destruct (k <=? MAX_AUDIT_KEY)%Z; lia.
Qed.

Lemma last_audit_key d a :
  abstracts d a →
  match last (t_range (λ k, (k <=? MAX_AUDIT_KEY)%Z) (db_audit d)) with
  | Some (key, _) => (key + 1)%Z = next_audit_key (vault_audit a) ∧ (key ≤ MAX_AUDIT_KEY)%Z
  | None => next_audit_key (vault_audit a) = 0%Z
  end.
Proof.
  intros Ha. destruct (next_audit_key_spec _ (abs_audit_keys _ _ Ha)) as [Hlt Hn].
  assert (∀ k, is_Some (t_get (db_audit d) k) ↔ is_Some (vault_audit a !! k)) as Hdom.
  { intros k. by destruct (stores_cases _ _ _ k (abs_audit _ _ Ha)) as [[-> ->]|(? & ? & -> & -> & _)]. }
  destruct (last _) as [[key row]|] eqn:Hl.
  - apply t_range_last_Some in Hl as (Hp & Hk & Hmax). apply Z.leb_le in Hp.
    assert (key < next_audit_key (vault_audit a))%Z by (apply Hlt; [apply Hdom; eauto|done]).
    assert (0 ≤ key)%Z by (apply (abs_audit_keys _ _ Ha), Hdom; eauto).
    destruct Hn as [Hn|[Hn Hrange]]; [lia|]. apply Hdom in Hn.
    apply Hmax in Hn; [simpl in Hn; lia|]. apply Z.leb_le. lia.
  - destruct Hn as [?|[Hn Hrange]]; [done|]. apply Hdom in Hn as [row Hrow].
    rewrite (t_range_last_None _ _ _ Hl) in Hrow; [done|]. apply Z.leb_le. lia.
Qed.

Lemma append_audit_refines node_id d a entry :
  abstracts d a →
  simulates d a (append_audit node_id entry d) (spec_apply node_id (AppendAudit entry) a).
Proof.
  intros Ha. unfold append_audit, simulates. open_body. pose proof (last_audit_key d a Ha) as Hlast.
  encoded (set_node_id entry node_id) bs.
  assert (abstracts (put_table AUDIT (t_insert (next_audit_key (vault_audit a)) bs (db_audit d)) d)
    (with_audit (λ m, <[next_audit_key m := from_node node_id entry]> m) a)) as Hab.
  { destruct Ha. abs_tac. intros k [e He]. destruct (decide (k = next_audit_key (vault_audit a))) as [->|].
    - apply next_audit_key_nonneg.
    - rewrite lookup_insert_ne in He by done. eauto. }
  destruct (last _) as [[key row]|].
  - destruct Hlast as [Hk Hle]. unfold checked_add_u64, MAX_AUDIT_KEY, u64_max in *.
    rewrite decide_True by lia. simpl. by rewrite Hk.
  - by rewrite <- Hlast.
Qed.

(** *** Restores *)

Lemma restored_rows {K A B} `{!OrdKey K, EB : EqDecision B, !Countable B} (key : K → option B)
    (dec : bytes → StoreResult A) (t : table K) rows :
  (∀ k1 k2 b, key k1 = Some b → key k2 = Some b → k1 = k2) →
  Forall (λ row, is_Some (key row.1)) rows → Forall (λ row, ∃ r, dec row.2 = Ok r) rows →
  stores key dec (t_insert_all rows (t_remove_all (t_keys t) t))
    (foldl (λ m row, match key row.1, dec row.2 with
                     | Some b, Ok a => <[b := a]> m
                     | _, _ => m
                     end) ∅ rows).
Proof.
  intros Hinj Hk Hd. apply stores_insert_all; [done|..].
  - rewrite Forall_forall in Hk, Hd |- *. intros row Hin. destruct (Hk _ Hin), (Hd _ Hin). eauto.
  - eapply stores_ext; [symmetry; apply t_remove_keys|apply stores_empty].
Qed.

Lemma stores_dump {K A B} `{!OrdKey K, EB : EqDecision B, !Countable B} (key : K → option B)
    (dec : bytes → StoreResult A) (t : table K) (m : gmap B A) :
  (∀ k1 k2 b, key k1 = Some b → key k2 = Some b → k1 = k2) → stores key dec t m →
  foldl (λ m row, match key row.1, dec row.2 with
                  | Some b, Ok a => <[b := a]> m
                  | _, _ => m
                  end) ∅ (t_iter t) = m.
Proof.
  intros Hinj Hs. eapply stores_unique; [|done]. eapply stores_ext; [apply (t_copy t t)|].
  apply restored_rows; [done|by eapply stores_iter_key|by eapply stores_iter_dec].
Qed.

(** Restoring the dump of a file that stores [a] gives back [a]. *)
Lemma restored_dump d a a0 :
  abstracts d a → restored (dump_database d) a0 = with_lockouts (λ _, vault_lockouts a0) a.
Proof.
  intros Ha. unfold restored, with_lockouts, decode_rows, dump_database, dump_str, dump_bytes, dump_u64.
  simpl. f_equal; [..| |]; first
    [ apply (stores_dump Some decode); [stores_tac|apply Ha]
    | apply (stores_dump split_version_key decode); [stores_tac|apply Ha]
    | apply (stores_dump Some Ok); [stores_tac|apply Ha] ].
Qed.

Lemma dump_decodes d a : abstracts d a → backup_decodes (dump_database d).
Proof.
  intros Ha. split; simpl; try by eapply stores_iter_dec, Ha.
  apply Forall_forall. intros [k row] Hin%t_iter_get. simpl.
  destruct (stores_row _ _ _ _ _ _ (abs_audit _ _ Ha) Hin) as (? & e & [= <-] & He & _).
  apply (abs_audit_keys _ _ Ha). eauto.
Qed.

Lemma version_rows_split data :
  first_refused data = None → Forall (λ row, is_Some (split_version_key row.1)) (b_versions data).
Proof.
  unfold first_refused. intros (_ & [Hv _]%app_eq_nil)%head_None%app_eq_nil. apply fmap_nil_inv in Hv.
  apply Forall_forall. intros row Hin. destruct (split_version_key row.1) eqn:Hk; [done|].
  assert (row.1 ∈ filter (λ key, version_key_allowed key = false) (b_versions data).*1) as H; [|by rewrite Hv in H; set_solver].
  apply list_elem_of_filter. unfold version_key_allowed. rewrite Hk. split; [done|by apply list_elem_of_fmap_2].
Qed.

Lemma all_some {K} (rows : list (K * bytes)) : Forall (λ row, is_Some (Some row.1)) rows.
Proof. apply Forall_forall. eauto. Qed.

Lemma restore_refines d a data :
  abstracts d a → backup_decodes data →
  simulates d a (restore_command data d) (spec_restore data a).
Proof.
  intros Ha Hdata. unfold restore_command, spec_restore, simulates.
  case_decide as Hver; [unfold restore_tables; rewrite decide_True by done; by apply simulates_err|].
  destruct (first_refused data) as [why|] eqn:Hc; pose proof (first_refused_eq data) as Hrows; rewrite Hc in Hrows.
  - unfold restore_tables. rewrite decide_False by (by intros Hne). unfold_monad.
    rewrite Hrows. by apply simulates_err.
  - destruct (restore_tables_run data d Hver Hrows)
      as (d' & -> & Hs & Hv & Hr & Ht & Hn & Hau & Hk & Hl & Hlog & Hmeta).
    split; [|done]. split; [done|].
    assert (stores Some decode (db_audit d') (decode_rows (A := AuditEntry) Some (b_audit data))) as Haudit
      by (rewrite Hau; apply restored_rows; [stores_tac|apply all_some|apply Hdata]).
    split; simpl; rewrite ?Hs, ?Hv, ?Hr, ?Ht, ?Hn, ?Hk, ?Hl; [| | | | |apply Ha|exact Haudit| |].
    1,3,4,6: apply restored_rows; [stores_tac|apply all_some|apply Hdata].
    + apply restored_rows; [stores_tac|by apply version_rows_split|apply Hdata].
    + apply (restored_rows Some Ok); [stores_tac|apply all_some|apply Forall_forall; eauto].
    + intros k [e He]. destruct (stores_entry _ _ _ _ _ _ Haudit He) as (k' & row & [= ->] & Hrow & _).
      rewrite Hau in Hrow. destruct (decide (k ∈ (b_audit data).*1)) as [Hin|Hnin].
      * apply list_elem_of_fmap in Hin as (x & -> & Hin).
        pose proof (bd_audit_keys _ Hdata) as Hkeys. rewrite Forall_forall in Hkeys. by apply Hkeys.
      * rewrite t_get_insert_all_notin in Hrow by done.
        by rewrite (t_remove_keys (db_audit d) k), t_get_empty in Hrow.
Qed.

Lemma apply_simulates node_id c d a :
  abstracts d a → well_typed c →
  simulates d a (apply_command node_id c d) (spec_apply node_id c a).
Proof.
  intros Ha Hc. destruct c; simpl in Hc |- *; first
    [ by apply create_secret_refines | by apply put_version_refines | by apply update_meta_refines
    | by apply delete_secret_refines | by apply create_role_refines | by apply set_permissions_refines
    | by apply delete_role_refines | by apply add_token_refines | by apply revoke_token_refines
    | by apply touch_token_refines | by apply expire_refines | by apply rewrap_refines
    | by apply set_kms_rewrap_state_refines | by apply append_audit_refines
    | by apply restore_refines | by apply record_auth_failure_refines
    | destruct Hc; by apply put_version_refines ].
Qed.

(** C1. The state machine implements the abstract vault.  From a database file
    that stores a vault, a command whose integers are in range of their types
    answers exactly what the specification answers, ends in a file that stores
    the specified vault, and leaves the Raft log and metadata alone.  In
    particular it never fails with [Internal]. *)
Theorem apply_command_refines node_id c d a :
  abstracts d a → well_typed c →
  match spec_apply node_id c a with
  | Ok a' => ∃ d', apply_command node_id c d = (d', Ok tt) ∧ abstracts d' a'
               ∧ db_log d' = db_log d ∧ db_meta d' = db_meta d
  | Err e => ∃ d', apply_command node_id c d = (d', Err e) ∧ abstracts d' a
               ∧ db_log d' = db_log d ∧ db_meta d' = db_meta d
  end.
Proof.
  intros Ha Hc. pose proof (apply_simulates node_id c d a Ha Hc) as Hsim. unfold simulates in Hsim.
  destruct (apply_command node_id c d) as [d' r]. simpl in Hsim.
  destruct (spec_apply node_id c a); destruct Hsim as [[-> ?] ?]; eauto.
Qed.

(** The vault after a command; a refused one changes nothing. *)
Definition spec_step (node_id : Z) (a : Vault) (c : Command) : Vault :=
  match spec_apply node_id c a with Ok a' => a' | Err _ => a end.

Lemma abstracts_step node_id c d a :
  abstracts d a → well_typed c → abstracts (apply_command node_id c d).1 (spec_step node_id a c).
Proof.
  intros Ha Hc. destruct (apply_simulates node_id c d a Ha Hc) as [Hsim _]. unfold spec_step.
  by destruct (spec_apply node_id c a); destruct Hsim.
Qed.

Lemma abstracts_empty : abstracts empty_database empty_vault.
Proof.
  split; try apply stores_empty. simpl. intros k [x Hx]. by rewrite lookup_empty in Hx.
Qed.
End refine.

(** ** The theorem on the sample store *)

Definition sample_vault : Vault := foldl (spec_step 1) empty_vault Samples.commands.

Lemma sample_abstracts : abstracts Samples.db sample_vault.
Proof.
  unfold Samples.db, Samples.run, sample_vault, Samples.commands. cbn [foldl].
  repeat (apply abstracts_step; [|simpl; unfold_ints; done || lia]). apply abstracts_empty.
Qed.

Lemma apply_command_refines_witness :
  ∃ d', apply_command 1 (Samples.put "db/password" 2 3) Samples.db = (d', Ok tt)
    ∧ abstracts d' (spec_step 1 sample_vault (Samples.put "db/password" 2 3))
    ∧ db_log d' = db_log Samples.db ∧ db_meta d' = db_meta Samples.db.
Proof.
  pose proof (apply_command_refines 1 (Samples.put "db/password" 2 3) Samples.db sample_vault
    sample_abstracts) as H.
  assert (well_typed (Samples.put "db/password" 2 3)) as Hty by (simpl; unfold_ints; lia).
  specialize (H Hty). unfold spec_step. destruct (spec_apply _ _ _) as [a'|e] eqn:E; [exact H|].
  exfalso. revert E. vm_compute. discriminate.
Defined.
