(* ===== verification/Engine.v ===== *)
(** * The single-node store: [RedbStore]

    Models [store/ports.rs] (the [VaultReader] and [VaultWriter] traits, as the
    class [VaultStore]) and [store/engine.rs] (their implementation on one
    database file).  What its
    callers may rely on is stated and proved in [StoreLaws]. *)

From S2P Require Import Prelude RustStr CoreTypes Redb Keys Model Serial Apply Spec Samples ApplyFacts.
From S2P Require Import Refine.

(** ** The traits *)

Class VaultStore (St : Type) := {
  vs_secret : string → St → StoreResult (option SecretRecord);
  vs_current_version : string → St → StoreResult (option (SecretRecord * VersionRecord));
  vs_version : string → Z → St → StoreResult (option VersionRecord);
  vs_live_versions : string → Z → St → StoreResult (list VersionRecord);
  vs_list_secrets : St → StoreResult (list SecretRecord);
  vs_due_rotations : Z → St → StoreResult (list SecretRecord);
  vs_role : string → St → StoreResult (option RoleRecord);
  vs_list_roles : St → StoreResult (list RoleRecord);
  vs_token_by_fingerprint : bytes → St → StoreResult (option TokenRecord);
  vs_list_tokens : St → StoreResult (list TokenRecord);
  vs_lockout : string → St → StoreResult (option LockoutRecord);
  vs_kms_rewrap_state : St → StoreResult (option KmsRewrapState);
  vs_dump : St → StoreResult BackupData;
  vs_apply : Command → ste St StoreError unit;
  vs_restore : BackupData → ste St StoreError unit;
}.

(** ** The implementation *)

Module RedbStore.
Section engine.
Context `{RE : !Redb, SE : !StoreSerde}.

Definition admin_role : RoleRecord := {|
  r_name := "admin";
  r_description := Some "Full superuser access to all secrets and administration";
  r_is_admin := true; r_permissions := []; r_created_at := 0%Z |}.

Definition seed_admin_role : M unit :=
  existing ← get ROLES "admin";
  match existing with
  | Some _ => mret tt
  | None => bs ← encode_row admin_role; insert ROLES "admin" bs
  end.

(** Opening creates the tables, which the model has from the start. *)
Definition from_database : M unit := seed_admin_role.

(** [match table.get(k)? { Some(v) => Some(decode(v)?), None => None }] on a
    read transaction. *)
Definition read_row {K A} `{!OrdKey K, !Serde A} (def : TableDefinition K) (k : K) (d : Database)
    : StoreResult (option A) :=
  match t_get (open_table def d) k with
  | Some value => record ← decode value; Ok (Some record)
  | None => Ok None
  end.

(** The decoded values the test keeps, in order; the first value that does not
    decode is the answer. *)
Fixpoint collect {K A} `{!Serde A} (keep : A → bool) (rows : list (K * bytes)) : StoreResult (list A) :=
  match rows with
  | [] => Ok []
  | (_, value) :: rows =>
      record ← decode value;
      out ← collect keep rows;
      Ok (if keep record then record :: out else out)
  end.

Definition secret (name : string) (d : Database) : StoreResult (option SecretRecord) :=
  read_row SECRETS name d.

Definition current_version (name : string) (d : Database)
    : StoreResult (option (SecretRecord * VersionRecord)) :=
  secret ← read_row (A := SecretRecord) SECRETS name d;
  match secret with
  | None => Ok None
  | Some secret =>
      version ← read_row (A := VersionRecord) VERSIONS (version_key name (s_current_version secret)) d;
      match version with
      | Some version => Ok (Some (secret, version))
      | None => Ok None
      end
  end.

Definition version (name : string) (v : Z) (d : Database) : StoreResult (option VersionRecord) :=
  read_row VERSIONS (version_key name v) d.

(** [record.expires_at.is_none_or(|expiry| now < expiry)] *)
Definition live (now : Z) (record : VersionRecord) : bool :=
  match v_expires_at record with
  | None => true
  | Some expiry => (now <? expiry)%Z
  end.

(** Newest first. *)
Definition newer (a b : VersionRecord) : Prop := (v_version b ≤ v_version a)%Z.

#[global] Instance newer_dec : RelDecision newer.
Proof. intros a b. unfold newer. apply _. Defined.

Definition live_versions (name : string) (now : Z) (d : Database) : StoreResult (list VersionRecord) :=
  let rows := t_range (version_range name) (db_versions d) in
  let own := filter (λ row, is_Some (version_from_key name row.1)) rows in
  out ← collect (live now) own;
  Ok (merge_sort newer out).

Definition by_name {A} (name : A → string) (a b : A) : Prop := String.le (name a) (name b).

#[global] Instance by_name_dec {A} (name : A → string) : RelDecision (by_name name).
Proof. intros a b. unfold by_name. apply _. Defined.

Definition list_secrets (d : Database) : StoreResult (list SecretRecord) :=
  out ← collect (λ _, true) (t_iter (db_secrets d));
  Ok (merge_sort (by_name s_name) out).

Definition due (now : Z) (record : SecretRecord) : bool :=
  match s_next_rotation_at record with
  | Some next => (next <=? now)%Z
  | None => false
  end.

Definition due_rotations (now : Z) (d : Database) : StoreResult (list SecretRecord) :=
  collect (due now) (t_iter (db_secrets d)).

Definition role (name : string) (d : Database) : StoreResult (option RoleRecord) :=
  read_row ROLES name d.

Definition list_roles (d : Database) : StoreResult (list RoleRecord) :=
  out ← collect (λ _, true) (t_iter (db_roles d));
  Ok (merge_sort (by_name r_name) out).

Definition token_by_fingerprint (fingerprint : bytes) (d : Database)
    : StoreResult (option TokenRecord) :=
  read_row TOKENS fingerprint d.

Definition list_tokens (d : Database) : StoreResult (list TokenRecord) :=
  out ← collect (λ _, true) (t_iter (db_tokens d));
  Ok (merge_sort (by_name t_name) out).

Definition lockout (ip : string) (d : Database) : StoreResult (option LockoutRecord) :=
  read_row LOCKOUTS ip d.

Definition kms_rewrap_state (d : Database) : StoreResult (option KmsRewrapState) :=
  read_row KMS_REWRAP KMS_REWRAP_STATE_KEY d.

Definition dump (d : Database) : StoreResult BackupData := Ok (dump_database d).

(** The transaction is dropped, and with it its writes, on any error. *)
Definition apply (node_id : Z) (command : Command) : M unit := λ d,
  match apply_command node_id command d with
  | (d', Ok _) => (d', Ok tt)
  | (_, Err e) => (d, Err e)
  end.

Definition restore (data : BackupData) : M unit := λ d,
  match restore_database data d with
  | (d', Ok _) => (d', Ok tt)
  | (d', Err why) => (d', Err (Internal (RestoreFailed why)))
  end.

Definition redb_store (node_id : Z) : VaultStore Database := {|
  vs_secret := secret; vs_current_version := current_version; vs_version := version;
  vs_live_versions := live_versions; vs_list_secrets := list_secrets;
  vs_due_rotations := due_rotations; vs_role := role; vs_list_roles := list_roles;
  vs_token_by_fingerprint := token_by_fingerprint; vs_list_tokens := list_tokens;
  vs_lockout := lockout; vs_kms_rewrap_state := kms_rewrap_state; vs_dump := dump;
  vs_apply := apply node_id; vs_restore := restore |}.
End engine.
End RedbStore.
