(* ===== verification/Invariant.v ===== *)
(** * The store's well-formedness invariant

    [vault_ok] says what a vault that is only written through the service
    looks like: every secret has its current version and no expiry on it, every
    other version has an expiry and belongs to a secret, tokens and the name
    index agree.  Every command the service issues preserves it; deletions,
    rewraps, expiry sweeps and revocations do what their callers rely on. *)

From S2P Require Import Prelude RustStr CoreTypes Redb Keys Model Serial Apply Spec Samples ApplyFacts.
From S2P Require Import Refine.

(** ** The invariant *)

Record vault_ok (a : Vault) : Prop := {
  ok_secret name s : vault_secrets a !! name = Some s →
    s_name s = name ∧ is_valid_secret_name name = true;
  ok_current name s : vault_secrets a !! name = Some s →
    ∃ r, vault_versions a !! (name, s_current_version s) = Some r ∧ v_expires_at r = None;
  ok_version name v r : vault_versions a !! (name, v) = Some r →
    v_version r = v ∧ (1 ≤ v ≤ i32_max)%Z
    ∧ ∃ s, vault_secrets a !! name = Some s
        ∧ (v ≤ s_current_version s)%Z
        ∧ (v ≠ s_current_version s → is_Some (v_expires_at r));
  ok_role name r : vault_roles a !! name = Some r → r_name r = name;
  ok_token fp t : vault_tokens a !! fp = Some t →
    t_fingerprint t = fp ∧ vault_names a !! t_name t = Some fp;
  ok_name name fp : vault_names a !! name = Some fp →
    ∃ t, vault_tokens a !! fp = Some t ∧ t_name t = name;
}.

(** What the service guarantees of the commands it issues: a new secret comes
    with its first version, a new version is the successor of the expected one,
    supersedes it with an expiry and has none itself. *)
Definition issued (c : Command) : Prop :=
  match c with
  | CreateSecret secret version =>
      in_i32 (v_version version) ∧ s_current_version secret = v_version version
      ∧ v_expires_at version = None
  | PutVersion _ expected version supersede_at _ _ _ _ _ =>
      in_i32 expected ∧ next_version expected = Some (v_version version)
      ∧ is_Some supersede_at ∧ v_expires_at version = None
  | RestoreDatabase _ => False
  | _ => True
  end.

Lemma next_version_Some v w : next_version v = Some w → w = (v + 1)%Z ∧ in_i32 w.
Proof. unfold next_version, checked_add_i32. case_decide; intros; by simplify_eq. Qed.

Lemma vault_ok_empty : vault_ok empty_vault.
Proof. split; simpl; intros *; by rewrite lookup_empty. Qed.

(** ** Updates of one part *)

(** The version maps that differ only in fields the invariant ignores. *)
Definition same_life (r1 r2 : VersionRecord) : Prop :=
  v_version r1 = v_version r2 ∧ v_expires_at r1 = v_expires_at r2.

Lemma vault_ok_alter_version f k a :
  (∀ r, same_life (f r) r) → vault_ok a → vault_ok (with_versions (alter f k) a).
Proof.
  intros Hf Ha. split; simpl; try apply Ha.
  - intros name s Hs. destruct (ok_current _ Ha _ _ Hs) as (r & Hr & Hx).
    destruct (decide (k = (name, s_current_version s))) as [->|].
    + rewrite lookup_alter_eq, Hr. exists (f r). destruct (Hf r) as [_ ->]. done.
    + rewrite lookup_alter_ne by done. eauto.
  - intros name v r Hr. destruct (decide (k = (name, v))) as [->|].
    + rewrite lookup_alter_eq in Hr. destruct (vault_versions a !! (name, v)) as [r0|] eqn:Hr0; [|done].
      simplify_eq/=. destruct (Hf r0) as [-> ->]. by apply (ok_version _ Ha).
    + rewrite lookup_alter_ne in Hr by done. by apply (ok_version _ Ha).
Qed.

Lemma vault_ok_alter_token f k a :
  (∀ t, vault_tokens a !! k = Some t → t_fingerprint (f t) = t_fingerprint t ∧ t_name (f t) = t_name t) →
  vault_ok a → vault_ok (with_tokens (alter f k) a).
Proof.
  intros Hf Ha. split; simpl; try apply Ha.
  - intros fp t Ht. destruct (decide (k = fp)) as [->|].
    + rewrite lookup_alter_eq in Ht. destruct (vault_tokens a !! fp) as [t0|] eqn:Ht0; [|done].
      simplify_eq/=. destruct (Hf t0 eq_refl) as [-> ->]. by apply (ok_token _ Ha).
    + rewrite lookup_alter_ne in Ht by done. by apply (ok_token _ Ha).
  - intros name fp Hn. destruct (ok_name _ Ha _ _ Hn) as (t & Ht & Htn).
    destruct (decide (k = fp)) as [->|].
    + rewrite lookup_alter_eq, Ht. exists (f t). destruct (Hf t Ht) as [_ ->]. done.
    + rewrite lookup_alter_ne by done. eauto.
Qed.

Lemma vault_ok_token fp t t' a :
  vault_ok a → vault_tokens a !! fp = Some t →
  t_fingerprint t' = t_fingerprint t → t_name t' = t_name t →
  vault_ok (with_tokens <[fp := t']> a).
Proof.
  intros Ha Ht Hfp Hn.
  assert (with_tokens <[fp := t']> a = with_tokens (alter (λ _, t') fp) a) as ->
    by (unfold with_tokens; by erewrite insert_alter_const).
  apply vault_ok_alter_token; [|done]. intros t1 Ht1. by simplify_eq.
Qed.

(** The secrets may change in everything but name and current version. *)
Lemma vault_ok_secret name s s' a :
  vault_ok a → vault_secrets a !! name = Some s →
  s_name s' = s_name s → s_current_version s' = s_current_version s →
  vault_ok (with_secrets <[name := s']> a).
Proof.
  intros Ha Hs Hn Hcv. split; simpl; try apply Ha.
  - intros n x. destruct (decide (name = n)) as [->|].
    + rewrite lookup_insert_eq. intros [= <-]. rewrite Hn. by apply (ok_secret _ Ha).
    + rewrite lookup_insert_ne by done. apply (ok_secret _ Ha).
  - intros n x. destruct (decide (name = n)) as [->|].
    + rewrite lookup_insert_eq. intros [= <-]. rewrite Hcv. by apply (ok_current _ Ha).
    + rewrite lookup_insert_ne by done. apply (ok_current _ Ha).
  - intros n v r Hr. destruct (ok_version _ Ha _ _ _ Hr) as (? & ? & x & Hx & ?).
    split; [done|]. split; [done|]. destruct (decide (name = n)) as [->|].
    + rewrite lookup_insert_eq. exists s'. rewrite Hs in Hx. simplify_eq. by rewrite Hcv.
    + rewrite lookup_insert_ne by done. eauto.
Qed.

Lemma vault_ok_role role a name :
  vault_ok a → r_name role = name → vault_ok (with_roles <[name := role]> a).
Proof.
  intros Ha Hn. split; simpl; try apply Ha. intros n r.
  destruct (decide (name = n)) as [->|].
  - rewrite lookup_insert_eq. by intros [= <-].
  - rewrite lookup_insert_ne by done. apply (ok_role _ Ha).
Qed.

(** ** Commands *)

Section preserved.
Context `{RE : !Redb, RL : !RedbLaws, SE : !StoreSerde, SL : !StoreSerdeLaws}.

Lemma create_ok secret version a :
  vault_ok a → in_i32 (v_version version) → s_current_version secret = v_version version →
  v_expires_at version = None → vault_secrets a !! s_name secret = None →
  row_allowed (s_name secret) (v_version version) = Ok tt →
  vault_ok (with_versions <[(s_name secret, v_version version) := version]>
    (with_secrets <[s_name secret := secret]> a)).
Proof.
  intros Ha Hi Hcv Hx Hnone [Hn Hv]%row_allowed_ok. split; simpl; try apply Ha.
  - intros n s. destruct (decide (s_name secret = n)) as [<-|].
    + rewrite lookup_insert_eq. by intros [= <-].
    + rewrite lookup_insert_ne by done. apply (ok_secret _ Ha).
  - intros n s. destruct (decide (s_name secret = n)) as [<-|].
    + rewrite lookup_insert_eq. intros [= <-]. rewrite Hcv, lookup_insert_eq. eauto.
    + rewrite !lookup_insert_ne by congruence. apply (ok_current _ Ha).
  - intros n v r. destruct (decide ((s_name secret, v_version version) = (n, v))) as [[= <- <-]|Hne].
    + rewrite lookup_insert_eq. intros [= <-]. split; [done|]. split; [unfold_ints; lia|].
      exists secret. rewrite lookup_insert_eq. split; [done|]. split; [lia|congruence].
    + rewrite lookup_insert_ne by done. intros Hr.
      destruct (ok_version _ Ha _ _ _ Hr) as (? & ? & s & Hs & ?).
      split; [done|]. split; [done|]. exists s. rewrite lookup_insert_ne by congruence. done.
Qed.

Lemma put_ok name version secret secret' expiry a :
  vault_ok a → vault_secrets a !! name = Some secret →
  next_version (s_current_version secret) = Some (v_version version) →
  v_expires_at version = None →
  s_name secret' = s_name secret → s_current_version secret' = v_version version →
  vault_ok (with_secrets <[name := secret']>
    (with_versions (λ m, alter (give_expiry expiry) (name, s_current_version secret)
       (<[(name, v_version version) := version]> m)) a)).
Proof.
  intros Ha Hs [Hnext Hi]%next_version_Some Hx Hsn Hcv.
  destruct (ok_current _ Ha _ _ Hs) as (cur & Hcur & Hcx).
  destruct (ok_version _ Ha _ _ _ Hcur) as (? & Hrange & _).
  split; simpl; try apply Ha.
  - intros n s. destruct (decide (name = n)) as [<-|].
    + rewrite lookup_insert_eq. intros [= <-]. rewrite Hsn. by apply (ok_secret _ Ha).
    + rewrite lookup_insert_ne by done. apply (ok_secret _ Ha).
  - intros n s. destruct (decide (name = n)) as [<-|].
    + rewrite lookup_insert_eq. intros [= <-]. exists version.
      rewrite Hcv, lookup_alter_ne, lookup_insert_eq; [done|]. intros [= ?]. lia.
    + rewrite lookup_insert_ne by done. intros Hn. rewrite lookup_alter_ne, lookup_insert_ne by congruence.
      by apply (ok_current _ Ha).
  - intros n v r. destruct (decide (name = n)) as [<-|Hne].
    + rewrite lookup_insert_eq. intros Hr.
      assert (v_version r = v ∧ (1 ≤ v ≤ v_version version)%Z
        ∧ (v ≠ v_version version → is_Some (v_expires_at r))) as (? & ? & ?).
      { destruct (decide (v = s_current_version secret)) as [->|].
        - rewrite lookup_alter_eq, lookup_insert_ne, Hcur in Hr by (intros [= ?]; lia). simplify_eq/=.
          unfold give_expiry. rewrite Hcx. simpl. split; [done|]. split; [lia|eauto].
        - rewrite lookup_alter_ne in Hr by congruence. destruct (decide (v = v_version version)) as [->|].
          + rewrite lookup_insert_eq in Hr. simplify_eq. split; [done|]. split; [lia|done].
          + rewrite lookup_insert_ne in Hr by congruence.
            destruct (ok_version _ Ha _ _ _ Hr) as (? & ? & s & Hs' & ? & ?).
            rewrite Hs in Hs'. simplify_eq. split; [done|]. split; [lia|auto]. }
      split; [done|]. split; [unfold_ints; lia|]. exists secret'. by rewrite Hcv; repeat split; try lia.
    + rewrite lookup_insert_ne by done. rewrite lookup_alter_ne, lookup_insert_ne by congruence.
      apply (ok_version _ Ha).
Qed.

Lemma delete_ok name a :
  vault_ok a →
  vault_ok (with_versions (filter (λ kv, kv.1.1 ≠ name)) (with_secrets (delete name) a)).
Proof.
  intros Ha. split; simpl; try apply Ha.
  - intros n s [_ Hs]%lookup_delete_Some. by apply (ok_secret _ Ha).
  - intros n s [Hne Hs]%lookup_delete_Some. destruct (ok_current _ Ha _ _ Hs) as (r & Hr & ?).
    exists r. split; [|done]. by apply map_lookup_filter_Some.
  - intros n v r [Hr Hne]%map_lookup_filter_Some. simpl in Hne.
    destruct (ok_version _ Ha _ _ _ Hr) as (? & ? & s & ?). split; [done|]. split; [done|].
    exists s. by rewrite lookup_delete_ne.
Qed.

Lemma expire_ok now a :
  vault_ok a → vault_ok (with_versions (filter (λ kv, expired_by now kv.2 = false)) a).
Proof.
  intros Ha. split; simpl; try apply Ha.
  - intros n s Hs. destruct (ok_current _ Ha _ _ Hs) as (r & Hr & Hx).
    exists r. split; [|done]. apply map_lookup_filter_Some. split; [done|].
    simpl. unfold expired_by. by rewrite Hx.
  - intros n v r [Hr _]%map_lookup_filter_Some. by apply (ok_version _ Ha).
Qed.

Lemma add_token_ok token a :
  vault_ok a → vault_tokens a !! t_fingerprint token = None → vault_names a !! t_name token = None →
  vault_ok (with_tokens <[t_fingerprint token := token]>
    (with_names <[t_name token := t_fingerprint token]> a)).
Proof.
  intros Ha Hfp Hname. split; simpl; try apply Ha.
  - intros fp t. destruct (decide (t_fingerprint token = fp)) as [<-|].
    + rewrite lookup_insert_eq. intros [= <-]. by rewrite lookup_insert_eq.
    + rewrite lookup_insert_ne by done. intros Ht. destruct (ok_token _ Ha _ _ Ht) as [? Hn].
      split; [done|]. rewrite lookup_insert_ne; [done|]. congruence.
  - intros name fp. destruct (decide (t_name token = name)) as [<-|].
    + rewrite lookup_insert_eq. intros [= <-]. exists token. by rewrite lookup_insert_eq.
    + rewrite lookup_insert_ne by done. intros Hn. destruct (ok_name _ Ha _ _ Hn) as (t & Ht & ?).
      exists t. rewrite lookup_insert_ne; [done|]. congruence.
Qed.

(** The commands of the service, and backups of stores that were written
    through it. *)
Definition admissible (c : Command) : Prop :=
  match c with
  | RestoreDatabase data => ∃ d a, data = dump_database d ∧ abstracts d a ∧ vault_ok a
  | _ => well_typed c ∧ issued c
  end.

Lemma admissible_typed c : admissible c → well_typed c.
Proof.
  destruct c; simpl; try tauto. intros (d & a & -> & Ha & _). by eapply dump_decodes.
Qed.

Lemma vault_ok_step node_id c a a' :
  vault_ok a → admissible c → spec_apply node_id c a = Ok a' → vault_ok a'.
Proof.
  intros Ha Hadm. destruct c; simpl in *; try destruct Hadm as [Hty Hiss]; unfold_monad.
  - destruct (row_allowed _ _) as [[]|] eqn:Hc; [|done]. case_match eqn:Hs; [done|].
    intros [= <-]. destruct Hiss as (? & ? & ?). by apply create_ok.
  - destruct (row_allowed _ _) as [[]|] eqn:Hc; [|done]. case_match eqn:Hs; [|done].
    destruct (vault_secrets a !! name) as [s|] eqn:Hl; simplify_eq/=.
    case_decide as Hcur; [done|]. intros [= <-].
    destruct Hiss as (? & ? & [expiry ->] & ?). subst expected_current. by apply put_ok.
  - destruct (vault_secrets a !! name) as [s|] eqn:Hl; [|done]. case_decide; [done|].
    intros [= <-]. by eapply vault_ok_secret.
  - destruct (vault_secrets a !! name) as [s|] eqn:Hl; [|done].
    intros [= <-]. by apply delete_ok.
  - case_match; [done|]. intros [= <-]. by apply vault_ok_role.
  - destruct (vault_roles a !! name) as [r|] eqn:Hl; [|done]. intros [= <-].
    apply vault_ok_role; [done|]. simpl. by apply (ok_role _ Ha).
  - case_decide; [done|]. destruct (vault_roles a !! name) as [r|] eqn:Hl; [|done]. intros [= <-].
    split; simpl; try apply Ha. intros n x [_ Hx]%lookup_delete_Some. by apply (ok_role _ Ha).
  - case_match eqn:Hfp; [done|]. case_match eqn:Hn; [done|]. intros [= <-]. by apply add_token_ok.
  - destruct (vault_names a !! name) as [fp|]; [|done].
    destruct (vault_tokens a !! fp) as [t|] eqn:Ht; [|done]. case_match; [done|]. intros [= <-].
    by eapply vault_ok_token.
  - intros [= <-]. by apply vault_ok_alter_token.
  - intros [= <-]. by apply expire_ok.
  - intros [= <-]. apply vault_ok_alter_version; [|done]. intros r. unfold rewrapped.
    repeat case_match; done.
  - intros [= <-]. by split; apply Ha.
  - intros [= <-]. by split; apply Ha.
  - unfold spec_restore. case_decide; [done|]. case_match; [done|]. intros [= <-].
    destruct Hiss as (a1 & -> & Hab & Hok). rewrite (restored_dump _ a1 a Hab).
    by split; apply Hok.
  - intros [= <-]. by split; apply Ha.
Qed.
End preserved.
