(* ===== verification/StoreLaws.v ===== *)
(** * What the store promises the service

    [VaultStoreLaws] states the answers of a [VaultStore] in terms of the
    abstract vault it holds: lookups are lookups, listings are sorted and
    complete, a command does what [spec_apply] says.  [redb_store_laws] proves
    it of [RedbStore]; the service's theorems use only the class. *)

From S2P Require Import Prelude RustStr CoreTypes Redb Keys Model Serial Apply Spec Samples ApplyFacts.
From S2P Require Import Refine Engine Invariant.
Import RedbStore.

(** A listing of the entries of [m] that satisfy [sel] and [keep], each once. *)
Definition enumerates {B A} `{Countable B} (m : gmap B A) (sel : B → Prop) (keep : A → bool)
    (id : A → B) (out : list A) : Prop :=
  (∀ r, r ∈ out ↔ ∃ b, m !! b = Some r ∧ sel b ∧ keep r = true) ∧ NoDup (id <$> out).

Class VaultStoreLaws (St : Type) `{VS : !VaultStore St, SE : !StoreSerde} := {
  view : St → Vault → Prop;
  store_node : Z;
  view_ok s a : view s a → vault_ok a;
  secret_law s a name : view s a → vs_secret name s = Ok (vault_secrets a !! name);
  current_version_law s a name : view s a →
    vs_current_version name s
    = Ok (secret ← vault_secrets a !! name;
          version ← vault_versions a !! (name, s_current_version secret);
          Some (secret, version));
  version_law s a name v : view s a → in_i32 v →
    vs_version name v s = Ok (vault_versions a !! (name, v));
  live_versions_law s a name now : view s a →
    ∃ out, vs_live_versions name now s = Ok out
      ∧ enumerates (vault_versions a) (λ b, b.1 = name) (live now)
          (λ r, (name, v_version r)) out
      ∧ Sorted newer out;
  list_secrets_law s a : view s a →
    ∃ out, vs_list_secrets s = Ok out
      ∧ enumerates (vault_secrets a) (λ _, True) (λ _, true) s_name out
      ∧ Sorted (by_name s_name) out;
  due_rotations_law s a now : view s a →
    ∃ out, vs_due_rotations now s = Ok out
      ∧ enumerates (vault_secrets a) (λ _, True) (due now) s_name out;
  role_law s a name : view s a → vs_role name s = Ok (vault_roles a !! name);
  list_roles_law s a : view s a →
    ∃ out, vs_list_roles s = Ok out
      ∧ enumerates (vault_roles a) (λ _, True) (λ _, true) r_name out
      ∧ Sorted (by_name r_name) out;
  token_by_fingerprint_law s a fp : view s a →
    vs_token_by_fingerprint fp s = Ok (vault_tokens a !! fp);
  list_tokens_law s a : view s a →
    ∃ out, vs_list_tokens s = Ok out
      ∧ enumerates (vault_tokens a) (λ _, True) (λ _, true) t_fingerprint out
      ∧ Sorted (by_name t_name) out;
  lockout_law s a ip : view s a → vs_lockout ip s = Ok (vault_lockouts a !! ip);
  kms_rewrap_state_law s a : view s a →
    vs_kms_rewrap_state s = Ok (vault_rewrap a !! KMS_REWRAP_STATE_KEY);
  apply_law s a c : view s a → well_typed c → issued c →
    match spec_apply store_node c a with
    | Ok a' => ∃ s', vs_apply c s = (s', Ok tt) ∧ view s' a'
    | Err e => vs_apply c s = (s, Err e)
    end;
  restore_law s a s0 a0 data : view s a → view s0 a0 → vs_dump s0 = Ok data →
    ∃ s' r, vs_restore data s = (s', r)
      ∧ ((r = Ok tt ∧ view s' (with_lockouts (λ _, vault_lockouts a) a0)) ∨ (s' = s ∧ is_ok r = false));
}.

(** ** Listings of a table *)

Section listings.
Context `{RE : !Redb, RL : !RedbLaws} {K B A : Type} `{OK : !OrdKey K} `{EB : EqDecision B, CB : !Countable B}.
Context `{SA : !Serde A} (key : K → option B) (id : A → B).
Context (key_inj : ∀ k1 k2 b, key k1 = Some b → key k2 = Some b → k1 = k2).

Lemma collect_decoded keep (rows : list (K * bytes)) (rs : list A) :
  Forall2 (λ row r, decode row.2 = Ok r) rows rs →
  collect keep rows = Ok (filter (λ r, keep r = true) rs).
Proof.
  induction 1 as [|[k row] r rows rs Hd _ IH]; simpl in *; [done|].
  unfold_monad. rewrite Hd, IH. by destruct (keep r) eqn:E; rewrite filter_cons, ?decide_True, ?decide_False by congruence.
Qed.

Lemma rows_decoded (t : table K) (m : gmap B A) rows :
  stores key decode t m →
  (∀ k row, (k, row) ∈ rows → t_get t k = Some row
     ∧ ∀ b r, key k = Some b → m !! b = Some r → id r = b) →
  ∃ rs, Forall2 (λ row r, decode row.2 = Ok r ∧ key row.1 = Some (id r) ∧ m !! id r = Some r) rows rs.
Proof.
  intros Hs. induction rows as [|[k row] rows IH]; intros Hin; [by exists []|].
  destruct IH as [rs Hrs]; [intros; apply Hin; by right|].
  destruct (Hin k row) as [Hrow Hid]; [by left|].
  destruct (stores_row _ _ _ _ _ _ Hs Hrow) as (b & r & Hk & Hm & Hd).
  exists (r :: rs). constructor; [|done]. by rewrite (Hid _ _ Hk Hm).
Qed.

Lemma rows_nodup rows (rs : list A) :
  NoDup rows.*1 → Forall2 (λ (row : K * bytes) r, key row.1 = Some (id r)) rows rs → NoDup (id <$> rs).
Proof using key_inj.
  intros Hnd H. induction H as [|[k row] r rows rs Hk H IH]; simpl; [constructor|].
  apply NoDup_cons in Hnd as [Hnin Hnd]. constructor; [|by apply IH].
  intros (r' & Hr' & Hin)%list_elem_of_fmap. apply list_elem_of_lookup in Hin as [i Hi].
  destruct (Forall2_lookup_r _ _ _ _ _ H Hi) as ([k' row'] & Hrow & Hk'). simpl in *.
  apply Hnin. apply list_elem_of_fmap. exists (k', row'). split; [|by eapply list_elem_of_lookup_2].
  simpl. eapply key_inj; [done|]. congruence.
Qed.

Lemma collect_enumerates (t : table K) (m : gmap B A) keep rows (sel : B → Prop) :
  stores key decode t m → (∀ b r, m !! b = Some r → sel b → id r = b) → NoDup rows.*1 →
  (∀ k row, (k, row) ∈ rows ↔ t_get t k = Some row ∧ (∀ b, key k = Some b → sel b)) →
  ∃ out, collect keep rows = Ok out ∧ enumerates m sel keep id out.
Proof using RL key_inj.
  intros Hs Hid Hnd Hrows.
  destruct (rows_decoded t m rows Hs) as [rs Hrs].
  { intros k row [? Hsel]%Hrows. split; [done|]. intros b r Hk Hm. by apply Hid, Hsel. }
  eexists. split.
  { apply collect_decoded. eapply Forall2_impl; [done|]. by intros ?? [? _]. }
  split.
  - intros r. rewrite list_elem_of_filter. split.
    + intros [Hkeep [i Hi]%list_elem_of_lookup].
      destruct (Forall2_lookup_r _ _ _ _ _ Hrs Hi) as ([k row] & Hrow & _ & Hk & Hm).
      exists (id r). split; [done|]. split; [|done]. apply list_elem_of_lookup_2, Hrows in Hrow as [_ Hsel].
      by apply Hsel.
    + intros (b & Hb & Hsel & Hkeep). split; [done|].
      destruct (stores_entry _ _ _ _ _ _ Hs Hb) as (k & row & Hk & Hrow & Hd).
      assert ((k, row) ∈ rows) as [i Hi]%list_elem_of_lookup.
      { apply Hrows. split; [done|]. intros b' Hb'. rewrite Hk in Hb'. by simplify_eq. }
      destruct (Forall2_lookup_l _ _ _ _ _ Hrs Hi) as (r' & Hr' & Hd' & _).
      simpl in Hd'. rewrite Hd in Hd'. simplify_eq. by eapply list_elem_of_lookup_2.
  - assert (NoDup (id <$> rs)) as Hids.
    { eapply rows_nodup; [done|]. eapply Forall2_impl; [done|]. by intros ?? (_ & ? & _). }
    apply NoDup_fmap_2_strong; [|by apply NoDup_filter, (NoDup_fmap_1 id)].
    assert (∀ r, r ∈ rs → m !! id r = Some r) as Hm.
    { intros r [i Hi]%list_elem_of_lookup.
      by destruct (Forall2_lookup_r _ _ _ _ _ Hrs Hi) as (? & _ & _ & _ & ?). }
    intros x y [_ Hx%Hm]%list_elem_of_filter [_ Hy%Hm]%list_elem_of_filter Heq. congruence.
Qed.

Lemma enumerates_perm (m : gmap B A) sel keep out out' :
  out' ≡ₚ out → enumerates m sel keep id out → enumerates m sel keep id out'.
Proof.
  intros Hp [H1 H2]. split; [intros r; by rewrite Hp|]. by rewrite Hp.
Qed.

Lemma table_enumerates (t : table K) (m : gmap B A) keep :
  stores key decode t m → (∀ b r, m !! b = Some r → id r = b) →
  ∃ out, collect keep (t_iter t) = Ok out ∧ enumerates m (λ _, True) keep id out.
Proof using RL key_inj.
  intros Hs Hid. eapply collect_enumerates; [done|eauto|apply t_keys_nodup|].
  intros k row. rewrite t_iter_get. naive_solver.
Qed.
End listings.

(** ** The single-node store keeps the promise *)

#[global] Instance newer_total : Total newer.
Proof. intros a b. unfold newer. lia. Qed.
#[global] Instance by_name_total {A} (name : A → string) : Total (by_name name).
Proof. intros a b. apply (total String.le). Qed.

Section redb_laws.
Context `{RE : !Redb, RL : !RedbLaws, SE : !StoreSerde, SL : !StoreSerdeLaws}.

Definition redb_view (d : Database) (a : Vault) : Prop := abstracts d a ∧ vault_ok a.

Lemma read_row_some {K A} `{!OrdKey K, EK : EqDecision K, !Countable K, !Serde A}
    (def : TableDefinition K) (m : gmap K A) k d :
  stores Some decode (open_table def d) m → read_row def k d = Ok (m !! k).
Proof.
  intros Hs. unfold read_row. unfold_monad.
  by destruct (stores_cases _ _ _ k Hs) as [[-> ->]|(row & r & -> & -> & ->)].
Qed.

Lemma read_version d a name v :
  abstracts d a → (v ≤ i32_max)%Z →
  read_row VERSIONS (version_key name v) d = Ok (vault_versions a !! (name, v)).
Proof.
  intros Ha Hv. unfold read_row. unfold_monad. simpl.
  by destruct (version_cases _ _ name v (abs_versions _ _ Ha) Hv)
    as [[-> ->]|(row & r & -> & -> & ->)].
Qed.

Lemma sorted_listing {A B} `{Countable B} (R : relation A) `{!RelDecision R, !Total R}
    (m : gmap B A) sel keep id (out : list A) :
  enumerates m sel keep id out →
  enumerates m sel keep id (merge_sort R out) ∧ Sorted R (merge_sort R out).
Proof.
  intros He. split; [|apply Sorted_merge_sort; apply _].
  eapply enumerates_perm; [apply merge_sort_Permutation|done].
Qed.

Lemma redb_current_version d a name :
  redb_view d a →
  current_version name d
  = Ok (secret ← vault_secrets a !! name;
        version ← vault_versions a !! (name, s_current_version secret);
        Some (secret, version)).
Proof.
  intros [Ha Hok]. unfold current_version. rewrite (read_row_some SECRETS _ name d (abs_secrets _ _ Ha)).
  unfold_monad. destruct (vault_secrets a !! name) as [s|] eqn:Hs; [|done]. simpl.
  destruct (ok_current _ Hok _ _ Hs) as (r & Hr & _).
  destruct (ok_version _ Hok _ _ _ Hr) as (_ & Hrange & _).
  rewrite (read_version d a name) by (done || lia). by rewrite Hr.
Qed.

Lemma redb_live_versions d a name now :
  redb_view d a →
  ∃ out, live_versions name now d = Ok out
    ∧ enumerates (vault_versions a) (λ b, b.1 = name) (live now) (λ r, (name, v_version r)) out
    ∧ Sorted newer out.
Proof.
  intros [Ha Hok]. unfold live_versions. unfold_monad.
  destruct (collect_enumerates split_version_key (λ r, (name, v_version r))
    version_key_split_inj (db_versions d) (vault_versions a) (live now)
    (filter (λ row, is_Some (version_from_key name row.1)) (t_range (version_range name) (db_versions d)))
    (λ b, b.1 = name)) as (out & -> & He).
  - apply Ha.
  - intros [n v] r Hm. simpl. intros ->. by destruct (ok_version _ Hok _ _ _ Hm) as (-> & _).
  - apply strict_keys_nodup, StronglySorted_filter, t_range_sorted.
  - intros k row. rewrite list_elem_of_filter, elem_of_t_range. split.
    + intros ([v Hv%version_from_key_Some] & _ & Hrow). simpl in Hv. split; [done|].
      intros b Hb. rewrite Hv in Hb. by simplify_eq.
    + intros [Hrow Hsel]. destruct (stores_row _ _ _ _ _ _ (abs_versions _ _ Ha) Hrow)
        as ([n v] & r & Hk & _). specialize (Hsel _ Hk). simpl in Hsel. subst n.
      split; [exists v; by apply version_from_key_Some|]. split; [|done].
      apply version_key_of_split in Hk as ->. apply version_range_key.
  - eexists. split; [done|]. apply (sorted_listing newer _ _ _ _ _ He).
Qed.

(** Restoring the backup of a store brings back its vault, all but the lockouts,
    or is refused. *)
Lemma restore_backup d a d0 a0 :
  redb_view d a → redb_view d0 a0 →
  ∃ d' r, restore (dump_database d0) d = (d', r)
    ∧ ((r = Ok tt ∧ redb_view d' (with_lockouts (λ _, vault_lockouts a) a0)) ∨ (d' = d ∧ is_ok r = false)).
Proof.
  intros [Ha Hok] [Ha0 Hok0]. unfold restore, restore_database.
  destruct (restore_refines d a (dump_database d0) Ha (dump_decodes _ _ Ha0)) as [Hsim _].
  unfold restore_command in Hsim. destruct (restore_tables (dump_database d0) d) as [d1 [[]|why]] eqn:Hr.
  - eexists _, _. split; [done|]. left. split; [done|].
    destruct (spec_restore (dump_database d0) a) as [a'|] eqn:Hs; simpl in Hsim; destruct Hsim as [? Hab]; [|done].
    unfold spec_restore in Hs. case_decide; [done|]. case_match; [done|]. injection Hs as <-.
    rewrite (restored_dump _ _ _ Ha0) in Hab. split; [done|]. by split; apply Hok0.
  - eexists _, _. split; [done|]. by right.
Qed.

#[export] Instance redb_store_laws (node_id : Z) :
  VaultStoreLaws Database (VS := redb_store node_id).
Proof.
  refine {| view := redb_view; store_node := node_id |}; simpl.
  - by intros s a [].
  - intros s a name [Ha _]. apply (read_row_some SECRETS), Ha.
  - intros s a name. apply redb_current_version.
  - intros s a name v [Ha _] Hv. apply read_version; [done|unfold_ints; lia].
  - intros s a name now. apply redb_live_versions.
  - intros s a [Ha Hok]. unfold list_secrets. unfold_monad.
    destruct (table_enumerates Some s_name (some_key_inj (K := string)) (db_secrets s) (vault_secrets a)
      (λ _, true)) as (out & -> & He); [apply Ha|apply Hok|].
    eexists. split; [done|]. apply (sorted_listing _ _ _ _ _ _ He).
  - intros s a now [Ha Hok]. eapply table_enumerates; [apply some_key_inj|apply Ha|apply Hok].
  - intros s a name [Ha _]. apply (read_row_some ROLES), Ha.
  - intros s a [Ha Hok]. unfold list_roles. unfold_monad.
    destruct (table_enumerates Some r_name (some_key_inj (K := string)) (db_roles s) (vault_roles a)
      (λ _, true)) as (out & -> & He); [apply Ha|apply Hok|].
    eexists. split; [done|]. apply (sorted_listing _ _ _ _ _ _ He).
  - intros s a fp [Ha _]. apply (read_row_some TOKENS), Ha.
  - intros s a [Ha Hok]. unfold list_tokens. unfold_monad.
    destruct (table_enumerates Some t_fingerprint (some_key_inj (K := bytes)) (db_tokens s) (vault_tokens a)
      (λ _, true)) as (out & -> & He); [apply Ha|apply Hok|].
    eexists. split; [done|]. apply (sorted_listing _ _ _ _ _ _ He).
  - intros s a ip [Ha _]. apply (read_row_some LOCKOUTS), Ha.
  - intros s a [Ha _]. apply (read_row_some KMS_REWRAP), Ha.
  - intros d a c [Ha Hok] Hty Hiss. unfold apply.
    pose proof (apply_simulates node_id c d a Ha Hty) as [Hsim _].
    destruct (apply_command node_id c d) as [d' r]. simpl in Hsim.
    destruct (spec_apply node_id c a) as [a'|e] eqn:Hspec; destruct Hsim as [-> Habs]; [|done].
    exists d'. split; [done|]. split; [done|]. eapply vault_ok_step; [done| |done].
    by destruct c.
  - intros d a d0 a0 data Hv Hv0 [= <-]. by apply restore_backup.
Defined.
End redb_laws.
