(* ===== verification/StoreThms.v ===== *)
(** * Theorems on the store

    The states [RedbStore] can reach satisfy the invariant; current versions
    are always readable; concurrent writers, deletions, expiry sweeps, rewraps,
    revocations, the audit log and lockout counters behave as their callers
    rely on; replicas that apply the same log agree. *)

From S2P Require Import Prelude RustStr CoreTypes Redb Keys Model Serial Apply Spec Samples ApplyFacts.
From S2P Require Import Refine Engine Invariant StoreLaws.
Import RedbStore.

(** ** Reachable states *)

Section reachable.
Context `{RE : !Redb, RL : !RedbLaws, SE : !StoreSerde, SL : !StoreSerdeLaws}.
Implicit Types (d : Database) (a : Vault).

(** A store file is created, opened any number of times, written with the
    service's commands, and restored from backups of such stores. *)
Inductive reachable (node_id : Z) : Database → Prop :=
| reach_create d r :
    from_database empty_database = (d, r) → reachable node_id d
| reach_open d d' r :
    reachable node_id d → from_database d = (d', r) → reachable node_id d'
| reach_apply d c d' r :
    reachable node_id d → well_typed c → issued c →
    RedbStore.apply node_id c d = (d', r) → reachable node_id d'
| reach_restore d d0 d' r :
    reachable node_id d → reachable node_id d0 →
    RedbStore.restore (dump_database d0) d = (d', r) → reachable node_id d'.

(** Opening a store seeds the role [admin] the way [CreateRole] would. *)
Lemma from_database_view d a d' r :
  redb_view d a → from_database d = (d', r) →
  r = Ok tt ∧ ∃ a', redb_view d' a' ∧ is_Some (vault_roles a' !! "admin")
    ∧ vault_versions a' = vault_versions a ∧ vault_tokens a' = vault_tokens a ∧ vault_names a' = vault_names a
    ∧ vault_secrets a' = vault_secrets a.
Proof.
  intros [Ha Hok]. unfold from_database, seed_admin_role, encode_row. unfold_monad. simpl.
  destruct (stores_cases _ _ _ "admin" (abs_roles _ _ Ha)) as [[-> Hm]|(row & x & -> & Hm & _)].
  - destruct (encode_ok admin_role) as (bs & -> & Hd). intros [= <- <-]. split; [done|].
    exists (with_roles <["admin" := admin_role]> a). split; [split|].
    + destruct Ha. split; simpl; try done. by apply stores_insert; [apply some_key_inj|..].
    + by apply vault_ok_role.
    + simpl. rewrite lookup_insert_eq. eauto.
  - intros [= <- <-]. split; [done|]. exists a. split; [done|]. by rewrite Hm.
Qed.

Lemma restore_dump_view d a d0 a0 d' r :
  redb_view d a → redb_view d0 a0 → RedbStore.restore (dump_database d0) d = (d', r) →
  ∃ a', redb_view d' a'.
Proof.
  intros Hv Hv0 H. destruct (restore_backup _ _ _ _ Hv Hv0) as (d1 & r1 & H1 & [[_ Hv1]|[-> _]]);
    rewrite H in H1; injection H1 as -> ->; eauto.
Qed.

(** A command on a store that holds [a] ends as the specification says. *)
Lemma apply_view node_id c d a d' r :
  redb_view d a → well_typed c → issued c → RedbStore.apply node_id c d = (d', r) →
  (∃ a', spec_apply node_id c a = Ok a' ∧ r = Ok tt ∧ redb_view d' a')
  ∨ (∃ e, spec_apply node_id c a = Err e ∧ r = Err e ∧ d' = d).
Proof.
  intros Hv Hty Hiss Hap.
  pose proof (apply_law (VaultStoreLaws := redb_store_laws node_id) d a c Hv Hty Hiss) as Hl.
  simpl in Hl. rewrite Hap in Hl. destruct (spec_apply node_id c a) as [a'|e].
  - destruct Hl as (s' & [= -> ->] & ?). left. eauto.
  - injection Hl as -> ->. right. eauto.
Qed.

Lemma secret_view d a name : redb_view d a → secret name d = Ok (vault_secrets a !! name).
Proof. intros [Ha _]. apply (read_row_some SECRETS), Ha. Qed.

Lemma version_view d a name v :
  redb_view d a → in_i32 v → version name v d = Ok (vault_versions a !! (name, v)).
Proof. intros [Ha _] Hv. apply read_version; [done|unfold_ints; lia]. Qed.

Lemma reachable_view node_id d : reachable node_id d → ∃ a, redb_view d a.
Proof.
  induction 1 as [d r Ho|d d' r _ [a IH] Ho|d c d' r _ [a IH] Hty Hiss Hap
    |d d0 d' r _ [a IH] _ [a0 IH0] Hres].
  - edestruct from_database_view as (_ & a' & ? & _); [|done|eauto].
    split; [apply abstracts_empty|apply vault_ok_empty].
  - edestruct from_database_view as (_ & a' & ? & _); eauto.
  - destruct (apply_view _ _ _ _ _ _ IH Hty Hiss Hap) as [(a' & _ & _ & ?)|(e & _ & _ & ->)]; eauto.
  - eapply restore_dump_view; [exact IH|exact IH0|done].
Qed.

Lemma spec_apply_domain node_id c a e :
  spec_apply node_id c a = Err e → domain_error e = true.
Proof.
  destruct c; simpl; unfold row_allowed, spec_restore; run.
Qed.

(** C5. The invariant holds in every state a store can reach by creating it,
    opening it, applying the service's commands and restoring backups of such
    stores, and no command the service issues fails there with an internal
    error: a failure is always one of [NotFound], [Conflict] and
    [VersionConflict]. *)
Theorem reachable_invariant node_id d :
  reachable node_id d →
  (∃ a, abstracts d a ∧ vault_ok a)
  ∧ ∀ c d' e, well_typed c → issued c → RedbStore.apply node_id c d = (d', Err e) →
      domain_error e = true ∧ d' = d.
Proof.
  intros Hr. destruct (reachable_view _ _ Hr) as [a Hv]. split; [by exists a|].
  intros c d' e Hty Hiss Hap.
  destruct (apply_view _ _ _ _ _ _ Hv Hty Hiss Hap) as [(? & _ & ? & _)|(e' & Hs & [= ->] & ->)]; [done|].
  split; [|done]. by eapply spec_apply_domain.
Qed.

(** The current version of a secret is always readable: if the secret
    exists then its current version is stored, has no expiry, and is the first
    of the live versions at every time. *)
Theorem current_version_readable node_id d name s :
  reachable node_id d → secret name d = Ok (Some s) →
  ∃ r, current_version name d = Ok (Some (s, r))
    ∧ v_version r = s_current_version s ∧ v_expires_at r = None
    ∧ ∀ now, ∃ rest, live_versions name now d = Ok (r :: rest).
Proof.
  intros [a Hv]%reachable_view Hs. pose proof Hv as [Ha Hok].
  unfold secret in Hs. rewrite (read_row_some SECRETS _ name d (abs_secrets _ _ Ha)) in Hs.
  injection Hs as Hs. destruct (ok_current _ Hok _ _ Hs) as (r & Hr & Hx).
  destruct (ok_version _ Hok _ _ _ Hr) as (Hver & _). exists r.
  split; [by rewrite (redb_current_version d a name Hv), Hs; simpl; rewrite Hr|].
  split; [done|]. split; [done|]. intros now.
  destruct (redb_live_versions d a name now Hv) as (out & Hout & [Hin Hnd] & Hsort).
  assert (r ∈ out) as Hrin.
  { apply Hin. exists (name, s_current_version s). split; [done|]. split; [done|].
    unfold live. by rewrite Hx. }
  destruct out as [|r' out]; [by apply elem_of_nil in Hrin|]. exists out. rewrite Hout. do 2 f_equal.
  assert (r' ∈ r' :: out) as ([n v] & Hr' & Hn & _)%Hin by by left. simpl in Hn. subst n.
  destruct (ok_version _ Hok _ _ _ Hr') as (Hv' & _ & s' & Hs' & Hle & _). rewrite Hs in Hs'. simplify_eq.
  apply elem_of_cons in Hrin as [->|Hrin]; [done|].
  apply Sorted_StronglySorted in Hsort; [|intros x y z; unfold newer; lia].
  apply StronglySorted_inv in Hsort as [_ Hall]. rewrite Forall_forall in Hall.
  specialize (Hall _ Hrin). unfold newer in Hall. rewrite Hver in Hall.
  assert (v_version r' = s_current_version s') as Heq by lia. congruence.
Qed.

(** ** Sequences of commands *)

(** The store after a list of commands. *)
Definition apply_all (node_id : Z) (cs : list Command) (d : Database) : Database :=
  foldl (λ d c, (RedbStore.apply node_id c d).1) d cs.

(** What every command that is [ok] keeps, a list of them keeps. *)
Lemma apply_all_view (ok : Command → Prop) node_id cs d a (P : Vault → Prop) :
  (∀ c, ok c → well_typed c ∧ issued c) → redb_view d a → Forall ok cs → P a →
  (∀ a c a', P a → ok c → spec_apply node_id c a = Ok a' → P a') →
  ∃ a', redb_view (apply_all node_id cs d) a' ∧ P a'.
Proof.
  intros Hok Hv Hcs HP Hstep. induction Hcs as [|c cs Hc _ IH] in d, a, Hv, HP |- *; simpl; [eauto|].
  unfold apply_all in *. cbn [foldl]. destruct (RedbStore.apply node_id c d) as [d' r] eqn:Hap.
  destruct (Hok c Hc) as [Hty Hiss].
  destruct (apply_view _ c _ _ _ _ Hv Hty Hiss Hap) as [(a' & Hs & _ & Hv')|(e & _ & _ & ->)];
    simpl; eauto.
Qed.

(** ** Writers *)

(** A writer that expects a version other than the current one is refused. *)
Lemma stale_put node_id d a name s expected v supersede_at descr interval grace next updated :
  let c := PutVersion name expected v supersede_at descr interval grace next updated in
  redb_view d a → vault_secrets a !! name = Some s → s_current_version s ≠ expected →
  row_allowed name (v_version v) = Ok tt → well_typed c → issued c →
  RedbStore.apply node_id c d = (d, Err VersionConflict).
Proof.
  intros c Hv Hs Hne Hc Hty Hiss. destruct (RedbStore.apply node_id c d) as [d' r] eqn:Hap.
  destruct (apply_view node_id c d a d' r Hv Hty Hiss Hap) as [(a' & Hsp & _)|(e & Hsp & -> & ->)];
    simpl in Hsp; unfold_monad; rewrite Hc, Hs, decide_True in Hsp by done; congruence.
Qed.

Lemma stale_update node_id d a name s expected descr interval grace next updated :
  let c := UpdateMeta name expected descr interval grace next updated in
  redb_view d a → vault_secrets a !! name = Some s → s_current_version s ≠ expected →
  RedbStore.apply node_id c d = (d, Err VersionConflict).
Proof.
  intros c Hv Hs Hne. destruct (RedbStore.apply node_id c d) as [d' r] eqn:Hap.
  destruct (apply_view node_id c d a d' r Hv I I Hap) as [(a' & Hsp & _)|(e & Hsp & -> & ->)];
    simpl in Hsp; unfold_monad; rewrite Hs, decide_True in Hsp by done; congruence.
Qed.

(** The current version of a secret only grows as long as the secret is not
    deleted. *)
Lemma current_grows node_id name v c a a' :
  (∃ s, vault_secrets a !! name = Some s ∧ (v < s_current_version s)%Z) →
  (well_typed c ∧ issued c) ∧ c ≠ DeleteSecret name → spec_apply node_id c a = Ok a' →
  ∃ s, vault_secrets a' !! name = Some s ∧ (v < s_current_version s)%Z.
Proof.
  intros (s & Hs & Hlt) [[_ Hiss] Hnd]. destruct c; simpl in *; try done; unfold_monad; crush_match; eauto.
  - exists s. rewrite lookup_insert_ne; [done|]. congruence.
  - destruct Hiss as (_ & [Hn _]%next_version_Some & _).
    destruct (decide (name0 = name)) as [->|]; [|exists s; by rewrite lookup_insert_ne].
    eexists. split; [apply lookup_insert_eq|]. simpl in *. simplify_eq. lia.
  - destruct (decide (name0 = name)) as [->|]; [|exists s; by rewrite lookup_insert_ne].
    eexists. split; [apply lookup_insert_eq|]. simplify_eq. simpl. lia.
  - exists s. rewrite lookup_delete_ne; [done|]. congruence.
Qed.

(** C12. Writes are guarded by the version the writer read.  A rotation that
    succeeds stores the new version as the current one and keeps the superseded
    one with the expiry it was given.  From then on, whatever commands follow
    other than a deletion of that secret or a restore, every write that still
    expects the old version, whatever else it says, is refused with
    [VersionConflict] and changes nothing. *)
Theorem put_version_exclusive node_id d d' name expected v expiry descr interval grace next updated :
  let c := PutVersion name expected v (Some expiry) descr interval grace next updated in
  reachable node_id d → well_typed c → issued c →
  RedbStore.apply node_id c d = (d', Ok tt) →
  (∃ s s', secret name d = Ok (Some s) ∧ s_current_version s = expected
     ∧ secret name d' = Ok (Some s') ∧ s_current_version s' = v_version v
     ∧ current_version name d' = Ok (Some (s', v)))
  ∧ (∃ r, version name expected d = Ok (Some r)
       ∧ version name expected d' = Ok (Some (expiring expiry r)))
  ∧ ∀ cs, Forall (λ c, (well_typed c ∧ issued c) ∧ c ≠ DeleteSecret name) cs →
      let d2 := apply_all node_id cs d' in
      ∀ v2 supersede descr interval grace next updated,
      (let c := PutVersion name expected v2 supersede descr interval grace next updated in
       well_typed c → issued c → RedbStore.apply node_id c d2 = (d2, Err VersionConflict))
      ∧ RedbStore.apply node_id (UpdateMeta name expected descr interval grace next updated) d2
        = (d2, Err VersionConflict).
Proof.
  intros c [a Hv]%reachable_view Hty Hiss Hap.
  destruct (apply_view _ _ _ _ _ _ Hv Hty Hiss Hap) as [(a' & Hs & _ & Hv')|(? & _ & ? & _)]; [|done].
  destruct Hty as [Hte Htv]. destruct Hiss as (_ & Hnext & _ & Hx).
  apply next_version_Some in Hnext as [Hnext _]. simpl in Hs. unfold_monad.
  destruct (row_allowed name (v_version v)) as [[]|] eqn:Hc; [|done].
  destruct (vault_secrets a !! name) as [s|] eqn:Hsec; [|done].
  case_decide as Hcur; [done|]. injection Hs as <-. pose proof Hv as [_ Hok].
  destruct (ok_current _ Hok _ _ Hsec) as (r & Hr & Hrx). rewrite Hcur in Hr.
  set (s' := revised (v_version v) descr interval grace next updated s) in *.
  match type of Hv' with redb_view _ ?a' =>
    assert (vault_secrets a' !! name = Some s') as Hs' by apply lookup_insert_eq end.
  split; [|split].
  - exists s, s'. rewrite (secret_view _ _ _ Hv), (secret_view _ _ _ Hv'), (redb_current_version _ _ _ Hv').
    rewrite Hs', Hsec. simpl. rewrite lookup_alter_ne by (intros [= ?]; lia).
    by rewrite lookup_insert_eq.
  - exists r. rewrite (version_view _ _ _ _ Hv Hte), (version_view _ _ _ _ Hv' Hte), Hr. split; [done|].
    simpl. rewrite lookup_alter_eq, lookup_insert_ne by (intros [= ?]; lia).
    rewrite Hr. simpl. unfold give_expiry. by rewrite Hrx.
  - intros cs Hcs v2 supersede descr2 interval2 grace2 next2 updated2. set (d2 := apply_all node_id cs d').
    destruct (apply_all_view _ node_id cs d' _ (λ a, ∃ s, vault_secrets a !! name = Some s ∧ (expected < s_current_version s)%Z)
      (λ c H, proj1 H) Hv' Hcs) as (a2 & Hv2 & s2 & Hs2 & Hlt).
    { exists s'. split; [done|]. simpl. lia. }
    { intros a1 c1 a1' Hs1 Hc1. by apply current_grows. }
    split.
    + intros Hty2 Hiss2. assert (v_version v2 = v_version v) as Hv2v.
      { destruct Hiss2 as (_ & [Hn2 _]%next_version_Some & _). congruence. }
      eapply (stale_put node_id d2 a2 name s2 expected v2); rewrite ?Hv2v; try done; lia.
    + eapply (stale_update node_id d2 a2 name s2); try done. lia.
Qed.

(** ** Live versions *)

Lemma live_strict (name : string) (out : list VersionRecord) :
  NoDup ((λ r, (name, v_version r)) <$> out) → Sorted newer out →
  StronglySorted (λ r1 r2, v_version r2 < v_version r1)%Z out.
Proof.
  intros Hnd Hs. apply Sorted_StronglySorted in Hs; [|intros x y z; unfold newer; lia].
  induction Hs as [|r out Hs IH Hall]; [constructor|]. simpl in Hnd.
  apply NoDup_cons in Hnd as [Hnin Hnd]. constructor; [by apply IH|].
  rewrite Forall_forall in Hall |- *. intros r' Hr'. specialize (Hall _ Hr'). unfold newer in Hall.
  assert (v_version r' ≠ v_version r); [|lia]. intros Heq. apply Hnin.
  apply list_elem_of_fmap. exists r'. by rewrite Heq.
Qed.

(** The live versions depend on the live rows only. *)
Lemma live_versions_ext d1 a1 d2 a2 name now :
  redb_view d1 a1 → redb_view d2 a2 →
  (∀ v r, live now r = true →
     vault_versions a1 !! (name, v) = Some r ↔ vault_versions a2 !! (name, v) = Some r) →
  live_versions name now d1 = live_versions name now d2.
Proof.
  intros Hv1 Hv2 Hext.
  destruct (redb_live_versions d1 a1 name now Hv1) as (out1 & -> & [Hin1 Hnd1] & Hs1).
  destruct (redb_live_versions d2 a2 name now Hv2) as (out2 & -> & [Hin2 Hnd2] & Hs2).
  f_equal. eapply (StronglySorted_unique_strong (λ r1 r2, v_version r2 < v_version r1)%Z);
    [intros; lia|by eapply live_strict..|].
  apply NoDup_Permutation; [by eapply NoDup_fmap_1..|]. intros r. rewrite Hin1, Hin2. split.
  - intros ([n v] & Hr & Hn & Hl). simpl in Hn. subst n. exists (name, v). by rewrite <- Hext.
  - intros ([n v] & Hr & Hn & Hl). simpl in Hn. subst n. exists (name, v). by rewrite Hext.
Qed.

(** Deleting a secret removes all of its rows and nothing else: the
    secret and every version of it are gone, and every read of another secret
    answers what it answered before. *)
Theorem delete_secret_exact node_id d d' name :
  reachable node_id d → RedbStore.apply node_id (DeleteSecret name) d = (d', Ok tt) →
  secret name d' = Ok None
  ∧ (∀ v, in_i32 v → version name v d' = Ok None)
  ∧ (∀ now, live_versions name now d' = Ok [])
  ∧ ∀ other, other ≠ name →
      secret other d' = secret other d
      ∧ current_version other d' = current_version other d
      ∧ (∀ v, in_i32 v → version other v d' = version other v d)
      ∧ (∀ now, live_versions other now d' = live_versions other now d).
Proof.
  intros [a Hv]%reachable_view Hap.
  destruct (apply_view _ (DeleteSecret name) _ _ _ _ Hv I I Hap) as [(a' & Hs & _ & Hv')|(? & _ & ? & _)]; [|done].
  simpl in Hs. unfold_monad. destruct (vault_secrets a !! name) as [s|] eqn:Hsec; [|done].
  injection Hs as <-.
  assert (∀ v, filter (λ kv : string * Z * VersionRecord, kv.1.1 ≠ name) (vault_versions a) !! (name, v) = None)
    as Hgone by (intros v; apply map_lookup_filter_None; right; intros r _ []; done).
  assert (∀ other v, other ≠ name →
    filter (λ kv : string * Z * VersionRecord, kv.1.1 ≠ name) (vault_versions a) !! (other, v)
    = vault_versions a !! (other, v)) as Hkept.
  { intros other v Hne. apply option_eq. intros r. rewrite map_lookup_filter_Some. naive_solver. }
  split; [|split; [|split]].
  - rewrite (secret_view _ _ _ Hv'). simpl. by rewrite lookup_delete_eq.
  - intros v Hi. rewrite (version_view _ _ _ _ Hv' Hi). simpl. by rewrite Hgone.
  - intros now. destruct (redb_live_versions _ _ name now Hv') as (out & -> & [Hin _] & _).
    destruct out as [|r out]; [done|].
    assert (r ∈ r :: out) as ([n v] & Hr & Hn & _)%Hin by by left. simpl in *. subst n.
    by rewrite Hgone in Hr.
  - intros other Hne. rewrite (secret_view _ _ _ Hv'), (secret_view _ _ _ Hv).
    rewrite (redb_current_version _ _ _ Hv'), (redb_current_version _ _ _ Hv). simpl.
    rewrite lookup_delete_ne by done. split; [done|]. split; [|split].
    + destruct (vault_secrets a !! other) as [s'|]; simpl; [by rewrite Hkept|done].
    + intros v Hi. rewrite (version_view _ _ _ _ Hv' Hi), (version_view _ _ _ _ Hv Hi). simpl.
      by rewrite Hkept.
    + intros now. eapply live_versions_ext; [done..|]. intros v r _. simpl. by rewrite Hkept.
Qed.

(** The expiry sweep removes exactly the versions whose expiry has passed.
    No secret loses its current version, and every read of the live versions
    at the time of the sweep or later answers what it would have answered
    without the sweep. *)
Theorem expire_sweep_exact node_id d d' now r :
  reachable node_id d → RedbStore.apply node_id (ExpireGraceVersions now) d = (d', r) →
  r = Ok tt
  ∧ (∀ name, secret name d' = secret name d ∧ current_version name d' = current_version name d)
  ∧ (∀ name v, in_i32 v →
       version name v d' = (rec ← version name v d;
                            Ok (x ← rec; if expired_by now x then None else Some x)))
  ∧ ∀ name later, (now ≤ later)%Z →
      live_versions name later d' = live_versions name later d.
Proof.
  intros [a Hv]%reachable_view Hap.
  destruct (apply_view _ (ExpireGraceVersions now) _ _ _ _ Hv I I Hap) as [(a' & Hs & -> & Hv')|(e & Hs & _)]; [|done].
  simpl in Hs. injection Hs as <-. split; [done|].
  assert (∀ b, filter (λ kv, expired_by now kv.2 = false) (vault_versions a) !! b
    = (x ← vault_versions a !! b; if expired_by now x then None else Some x)) as Hf.
  { intros b. rewrite map_lookup_filter. destruct (vault_versions a !! b) as [x|]; simpl; [|done].
    by destruct (expired_by now x). }
  split; [|split].
  - intros name. rewrite (secret_view _ _ _ Hv'), (secret_view _ _ _ Hv).
    rewrite (redb_current_version _ _ _ Hv'), (redb_current_version _ _ _ Hv). simpl. split; [done|].
    destruct (vault_secrets a !! name) as [s|] eqn:Hs; simpl; [|done]. pose proof Hv as [_ Hok].
    destruct (ok_current _ Hok _ _ Hs) as (x & Hx & Hnone). rewrite Hf, Hx.
    simpl. unfold expired_by. by rewrite Hnone.
  - intros name v Hi. rewrite (version_view _ _ _ _ Hv' Hi), (version_view _ _ _ _ Hv Hi). simpl.
    by rewrite Hf.
  - intros name later Hle. eapply live_versions_ext; [done..|]. intros v x Hl. simpl.
    rewrite map_lookup_filter_Some. split; [by intros [? _]|]. intros Hx. split; [done|].
    simpl. unfold live, expired_by in *. destruct (v_expires_at x); [|done]. lia.
Qed.

(** ** Rewraps *)

(** Two version records that hold the same sealed value. *)
Definition same_payload (r1 r2 : VersionRecord) : Prop :=
  v_version r1 = v_version r2 ∧ v_nonce r1 = v_nonce r2 ∧ v_ciphertext r1 = v_ciphertext r2
  ∧ v_aad r1 = v_aad r2 ∧ v_created_at r1 = v_created_at r2 ∧ v_expires_at r1 = v_expires_at r2.

Lemma rewrap_raw node_id d a name v key_id wrapped rotation_at r :
  redb_view d a → in_i32 v → vault_versions a !! (name, v) = Some r →
  match v_wrapped_rotation_at r with Some cur => (rotation_at ≤ cur)%Z | None => False end →
  RedbStore.apply node_id (RewrapVersion name v key_id wrapped rotation_at) d = (d, Ok tt).
Proof.
  intros [Ha _] Hi Hr Hcur. unfold RedbStore.apply. simpl.
  unfold rewrap_version, get_decoded_opt, decode_row. unfold_monad. simpl.
  destruct (version_cases _ _ name v (abs_versions _ _ Ha)) as [[_ Hn]|(row & r' & -> & Hr' & ->)];
    [unfold_ints; lia|congruence|]. rewrite Hr in Hr'. simplify_eq/=.
  destruct (v_wrapped_rotation_at r') as [cur|]; [|done].
  by rewrite (proj2 (Z.leb_le rotation_at cur) Hcur).
Qed.

(** A rewrap replaces the wrapped data key and nothing else: the sealed
    value, its additional data and its expiry are kept, no other version
    changes, the wrapping generation only grows, and repeating the rewrap or
    delivering one of an older generation changes nothing. *)
Theorem rewrap_monotone node_id d d' name v key_id wrapped rotation_at r out :
  reachable node_id d → in_i32 v → version name v d = Ok (Some r) →
  RedbStore.apply node_id (RewrapVersion name v key_id wrapped rotation_at) d = (d', out) →
  out = Ok tt
  ∧ (∃ r', version name v d' = Ok (Some r') ∧ same_payload r' r
       ∧ v_wrapped_rotation_at r' = Some match v_wrapped_rotation_at r with
                                         | Some cur => Z.max cur rotation_at
                                         | None => rotation_at
                                         end)
  ∧ (∀ n w, in_i32 w → (n, w) ≠ (name, v) → version n w d' = version n w d)
  ∧ ∀ key2 wrapped2 older, (older ≤ rotation_at)%Z →
      RedbStore.apply node_id (RewrapVersion name v key2 wrapped2 older) d' = (d', Ok tt).
Proof.
  intros [a Hv]%reachable_view Hi Hr Hap. rewrite (version_view _ _ _ _ Hv Hi) in Hr. injection Hr as Hr.
  destruct (apply_view _ (RewrapVersion name v key_id wrapped rotation_at) _ _ _ _ Hv Hi I Hap)
    as [(a' & Hs & -> & Hv')|(e & Hs & _)]; [|done].
  simpl in Hs. injection Hs as <-. set (r' := rewrapped key_id wrapped rotation_at r).
  assert (alter (rewrapped key_id wrapped rotation_at) (name, v) (vault_versions a) !! (name, v) = Some r')
    as Hr' by (by rewrite lookup_alter_eq, Hr).
  assert (same_payload r' r ∧ v_wrapped_rotation_at r' = Some match v_wrapped_rotation_at r with
    | Some cur => Z.max cur rotation_at | None => rotation_at end) as [Hsame Hgen].
  { unfold r', rewrapped, same_payload. destruct (v_wrapped_rotation_at r) as [cur|] eqn:Hcur; [|by simpl].
    destruct (Z.leb_spec rotation_at cur).
    - rewrite Hcur. split; [done|]. f_equal. lia.
    - simpl. split; [done|]. f_equal. lia. }
  split; [done|]. split; [|split].
  - exists r'. rewrite (version_view _ _ _ _ Hv' Hi). simpl. by rewrite Hr'.
  - intros n w Hw Hne. rewrite (version_view _ _ _ _ Hv' Hw), (version_view _ _ _ _ Hv Hw). simpl.
    by rewrite lookup_alter_ne.
  - intros key2 wrapped2 older Hle. eapply rewrap_raw; [done..|]. rewrite Hgen.
    destruct (v_wrapped_rotation_at r); lia.
Qed.

(** ** Tokens *)

Lemma token_view d a fp : redb_view d a → token_by_fingerprint fp d = Ok (vault_tokens a !! fp).
Proof. intros [Ha _]. apply (read_row_some TOKENS), Ha. Qed.

Lemma revoked_step node_id fp at_ c a a' :
  (∃ t, vault_tokens a !! fp = Some t ∧ t_revoked_at t = Some at_) → issued c →
  spec_apply node_id c a = Ok a' →
  ∃ t, vault_tokens a' !! fp = Some t ∧ t_revoked_at t = Some at_.
Proof.
  intros (t & Ht & Hrev) Hiss. destruct c; simpl in *; try done; unfold_monad; crush_match; eauto.
  - exists t. rewrite lookup_insert_ne by congruence. done.
  - match goal with H : vault_tokens a !! ?f = Some ?u |- _ =>
      destruct (decide (f = fp)) as [->|]; [simplify_eq; congruence|] end.
    exists t. by rewrite lookup_insert_ne.
  - destruct (decide (fingerprint = fp)) as [->|].
    + exists (used at_0 t). by rewrite lookup_alter_eq, Ht.
    + exists t. by rewrite lookup_alter_ne.
Qed.

(** C34. Revocation is permanent: once a token is revoked it stays in the store
    with the time of its revocation, whatever commands follow other than a
    restore (which brings back the tokens of the backup as they were), and
    revoking it again is refused. *)
Theorem revoked_forever node_id d d' name at_ cs :
  reachable node_id d → RedbStore.apply node_id (RevokeToken name at_) d = (d', Ok tt) →
  Forall (λ c, well_typed c ∧ issued c) cs →
  ∃ fp, ∀ after, after = apply_all node_id cs d' →
    (∃ t, token_by_fingerprint fp after = Ok (Some t) ∧ t_name t = name ∧ t_revoked_at t = Some at_)
    ∧ ∀ later, RedbStore.apply node_id (RevokeToken name later) after = (after, Err NotFound).
Proof.
  intros [a Hv]%reachable_view Hap Hcs.
  destruct (apply_view _ (RevokeToken name at_) _ _ _ _ Hv I I Hap)
    as [(a' & Hs & _ & Hv')|(? & _ & ? & _)]; [|done].
  simpl in Hs. unfold_monad. destruct (vault_names a !! name) as [fp|] eqn:Hn; [|done].
  destruct (vault_tokens a !! fp) as [t|] eqn:Ht; [|done].
  destruct (t_revoked_at t) eqn:Hrev; [done|]. injection Hs as <-. exists fp. intros after ->.
  destruct (apply_all_view (λ c, well_typed c ∧ issued c) node_id cs d' _ (λ a, (∃ t, vault_tokens a !! fp = Some t ∧ t_revoked_at t = Some at_)
    ∧ vault_names a !! name = Some fp) (λ _ H, H) Hv' Hcs) as (a2 & Hv2 & (t2 & Ht2 & Hrev2) & Hn2).
  - simpl. rewrite lookup_insert_eq. split; [by eexists|done].
  - intros a1 c a1' [Hr Hn1] [_ Hiss] Hs. split; [by eapply revoked_step|].
    destruct c; simpl in *; try done; unfold_monad; crush_match; try done.
    rewrite lookup_insert_ne; [done|]. congruence.
  - pose proof Hv2 as [_ Hok]. split.
    + exists t2. rewrite (token_view _ _ _ Hv2), Ht2. split; [done|]. split; [|done].
      destruct (ok_name _ Hok _ _ Hn2) as (t3 & Ht3 & ?). congruence.
    + intros later. destruct (RedbStore.apply node_id (RevokeToken name later) _) as [d3 r3] eqn:Hap3.
      destruct (apply_view _ (RevokeToken name later) _ _ _ _ Hv2 I I Hap3)
        as [(a3 & Hs & _)|(e & Hs & -> & ->)]; simpl in Hs; unfold_monad;
        rewrite Hn2, Ht2, Hrev2 in Hs; congruence.
Qed.

Lemma reachable_all node_id cs d :
  reachable node_id d → Forall (λ c, well_typed c ∧ issued c) cs →
  reachable node_id (apply_all node_id cs d).
Proof.
  intros Hr Hcs. induction Hcs as [|c cs [Hty Hiss] _ IH] in d, Hr |- *; [done|].
  unfold apply_all in *. cbn [foldl]. apply IH.
  destruct (RedbStore.apply node_id c d) as [d' r] eqn:Hap. by eapply reach_apply.
Qed.
End reachable.

(** ** The theorems on a sample store *)

Definition sample_store : Database :=
  apply_all 1 Samples.commands (from_database empty_database).1.

Lemma sample_commands_issued : Forall (λ c, well_typed c ∧ issued c) Samples.commands.
Proof. repeat constructor; simpl; unfold_ints; try done; try lia; by eexists. Qed.

Lemma sample_reachable : reachable 1 sample_store.
Proof.
  apply reachable_all; [|apply sample_commands_issued].
  destruct (from_database empty_database) as [d r] eqn:E. by eapply reach_create.
Qed.

Lemma reachable_invariant_witness :
  (∃ a, abstracts sample_store a ∧ vault_ok a)
  ∧ RedbStore.apply 1 (DeleteSecret "missing") sample_store = (sample_store, Err NotFound).
Proof.
  destruct (reachable_invariant 1 sample_store sample_reachable) as [Ha Hno].
  split; [exact Ha|]. vm_compute. reflexivity.
Defined.

Lemma current_version_readable_witness :
  ∃ s r, current_version "db/password" sample_store = Ok (Some (s, r))
    ∧ v_version r = 2%Z ∧ v_expires_at r = None.
Proof.
  destruct (secret "db/password" sample_store) as [[s|]|] eqn:E;
    [|vm_compute in E; discriminate E..].
  destruct (current_version_readable 1 sample_store "db/password" s sample_reachable E)
    as (r & Hc & Hv & Hx & _).
  exists s, r. split; [exact Hc|]. split; [|exact Hx]. rewrite Hv.
  vm_compute in E. injection E as <-. reflexivity.
Defined.

(** A writer that lost the race to version 3 comes after version 4. *)
Lemma put_version_exclusive_witness :
  let late := Samples.put "db/password" 2 3 in
  let d' := (RedbStore.apply 1 late sample_store).1 in
  let d2 := apply_all 1 [Samples.put "db/password" 3 4] d' in
  RedbStore.apply 1 late sample_store = (d', Ok tt)
  ∧ (RedbStore.apply 1 (Samples.put "db/password" 3 4) d').2 = Ok tt
  ∧ RedbStore.apply 1 late d2 = (d2, Err VersionConflict).
Proof.
  intros late d' d2. assert (Hok : RedbStore.apply 1 late sample_store = (d', Ok tt)) by (vm_compute; reflexivity).
  assert (∀ n, (1 ≤ n < 10)%Z → well_typed (Samples.put "db/password" n (n + 1))
    ∧ issued (Samples.put "db/password" n (n + 1))) as Hput.
  { intros n Hn. simpl. unfold next_version, checked_add_i32.
    rewrite decide_True by (unfold_ints; lia). unfold_ints. split; [lia|]. split; [lia|split; [done|split; [by eexists|done]]]. }
  destruct (Hput 2%Z) as [Hty Hiss]; [lia|].
  split; [exact Hok|]. split; [vm_compute; reflexivity|].
  destruct (put_version_exclusive 1 sample_store d' "db/password" 2 (Samples.version "db/password" 3) 100
    None None None Keep 10 sample_reachable Hty Hiss Hok) as (_ & _ & Hlock).
  apply (Hlock [Samples.put "db/password" 3 4]); [|exact Hty|exact Hiss].
  constructor; [|constructor]. split; [apply (Hput 3%Z); lia|done].
Defined.

Lemma delete_secret_exact_witness :
  let d' := (RedbStore.apply 1 (DeleteSecret "db/password") sample_store).1 in
  secret "db/password" d' = Ok None
  ∧ current_version "db/password.old" d' = current_version "db/password.old" sample_store.
Proof.
  assert (Hok : RedbStore.apply 1 (DeleteSecret "db/password") sample_store
    = ((RedbStore.apply 1 (DeleteSecret "db/password") sample_store).1, Ok tt))
    by (vm_compute; reflexivity).
  destruct (delete_secret_exact 1 sample_store _ "db/password" sample_reachable Hok)
    as (Hs & _ & _ & Hother).
  split; [exact Hs|]. apply (Hother "db/password.old"). done.
Defined.

Lemma expire_sweep_exact_witness :
  let d' := (RedbStore.apply 1 (ExpireGraceVersions 100) sample_store).1 in
  version "db/password" 1 d' = Ok None
  ∧ live_versions "db/password" 100 d' = live_versions "db/password" 100 sample_store.
Proof.
  destruct (RedbStore.apply 1 (ExpireGraceVersions 100) sample_store) as [d' r] eqn:E.
  destruct (expire_sweep_exact 1 sample_store d' 100 r sample_reachable E) as (_ & _ & Hv & Hl).
  simpl. split; [|apply Hl; lia]. rewrite (Hv "db/password" 1%Z) by (unfold_ints; lia).
  vm_compute. reflexivity.
Defined.

Lemma rewrap_monotone_witness :
  let d' := (RedbStore.apply 1 (RewrapVersion "db/password" 2 "key-2" (as_bytes "new") 7) sample_store).1 in
  RedbStore.apply 1 (RewrapVersion "db/password" 2 "key-3" (as_bytes "late") 6) d' = (d', Ok tt).
Proof.
  destruct (version "db/password" 2 sample_store) as [[r|]|] eqn:E;
    [|vm_compute in E; discriminate E..].
  destruct (RedbStore.apply 1 (RewrapVersion "db/password" 2 "key-2" (as_bytes "new") 7) sample_store)
    as [d' out] eqn:Hap.
  assert (Hi : in_i32 2) by (unfold_ints; lia).
  destruct (rewrap_monotone 1 sample_store d' "db/password" 2 "key-2" (as_bytes "new") 7 r out
    sample_reachable Hi E Hap) as (_ & _ & _ & Hstale).
  simpl. apply Hstale. lia.
Defined.

Lemma revoked_forever_witness :
  let d' := (RedbStore.apply 1 (RevokeToken "ci" 50) sample_store).1 in
  ∃ fp t, token_by_fingerprint fp (apply_all 1 [TouchToken (as_bytes "fp-1") 60] d') = Ok (Some t)
    ∧ t_revoked_at t = Some 50%Z.
Proof.
  assert (Hok : RedbStore.apply 1 (RevokeToken "ci" 50) sample_store
    = ((RedbStore.apply 1 (RevokeToken "ci" 50) sample_store).1, Ok tt))
    by (vm_compute; reflexivity).
  destruct (revoked_forever 1 sample_store _ "ci" 50 [TouchToken (as_bytes "fp-1") 60]
    sample_reachable Hok) as (fp & Hfp); [repeat constructor|].
  destruct (Hfp _ eq_refl) as [(t & Ht & _ & Hrev) _]. exists fp, t. split; [exact Ht|exact Hrev].
Defined.
