(* ===== verification/Counters.v ===== *)
(** * The audit log and the lockout counters

    The two tables a node writes for itself: where an audit row goes, and what
    a run of authentication failures leaves behind. *)

From S2P Require Import Prelude RustStr CoreTypes Redb Keys Model Serial Apply Spec Samples ApplyFacts.
From S2P Require Import Refine Engine Invariant StoreLaws StoreThms.
Import RedbStore.

Section counters.
Context `{RE : !Redb, RL : !RedbLaws, SE : !StoreSerde, SL : !StoreSerdeLaws}.
Implicit Types (d : Database) (a : Vault).

(** ** The audit log *)

(** An audit row, decoded. *)
Definition audit_row (k : Z) (d : Database) : StoreResult (option AuditEntry) := read_row AUDIT k d.

Lemma audit_view d a k : abstracts d a → audit_row k d = Ok (vault_audit a !! k).
Proof. intros Ha. apply (read_row_some AUDIT), Ha. Qed.

Lemma append_view node_id d a e d' r :
  abstracts d a → RedbStore.apply node_id (AppendAudit e) d = (d', r) →
  r = Ok tt ∧ abstracts d' (with_audit (λ m, <[next_audit_key m := from_node node_id e]> m) a).
Proof.
  intros Ha. unfold RedbStore.apply.
  destruct (apply_simulates node_id (AppendAudit e) d a Ha I) as [Hsim _].
  destruct (apply_command node_id (AppendAudit e) d) as [d1 r1]. simpl in Hsim.
  destruct Hsim as [-> ?]. by intros [= <- <-].
Qed.

(** An audit entry never replaces another one: unless a row sits at the
    very last key of the plausible range, the entry goes to a free key of the
    range above all others, stamped with the node's id, and every other row is
    as it was. *)
Theorem audit_append_fresh node_id d d' e r :
  reachable node_id d → audit_row MAX_AUDIT_KEY d = Ok None →
  RedbStore.apply node_id (AppendAudit e) d = (d', r) →
  r = Ok tt
  ∧ ∃ k, (0 ≤ k ≤ MAX_AUDIT_KEY)%Z
      ∧ audit_row k d = Ok None
      ∧ audit_row k d' = Ok (Some (from_node node_id e))
      ∧ (∀ k' e', audit_row k' d = Ok (Some e') → (k' ≤ MAX_AUDIT_KEY)%Z → (k' < k)%Z)
      ∧ ∀ k', k' ≠ k → audit_row k' d' = audit_row k' d.
Proof.
  intros (a & Ha & _)%reachable_view Hmax Hap. destruct (append_view _ _ _ _ _ _ Ha Hap) as [-> Ha'].
  split; [done|]. rewrite (audit_view _ _ _ Ha) in Hmax. injection Hmax as Hmax.
  destruct (next_audit_key_spec _ (abs_audit_keys _ _ Ha)) as [Hlt Hn].
  pose proof (next_audit_key_nonneg (vault_audit a)) as Hnn.
  set (k := next_audit_key (vault_audit a)) in *. exists k.
  assert (k ≤ MAX_AUDIT_KEY)%Z as Hk.
  { destruct Hn as [->|[[x Hx] [_ Hle]]]; [done|].
    assert (k - 1 ≠ MAX_AUDIT_KEY)%Z; [|lia]. intros Heq. rewrite Heq in Hx. congruence. }
  rewrite (audit_view _ _ _ Ha), !(audit_view _ _ _ Ha'). simpl. fold k. split; [lia|]. split; [|split; [|split]].
  - f_equal. apply eq_None_not_Some. intros Hx. specialize (Hlt _ Hx Hk). lia.
  - by rewrite lookup_insert_eq.
  - intros k' e'. rewrite (audit_view _ _ _ Ha). intros [= He']. apply Hlt. eauto.
  - intros k' Hne. rewrite (audit_view _ _ _ Ha), (audit_view _ _ _ Ha'). simpl. fold k.
    by rewrite lookup_insert_ne.
Qed.

(** C38. At the last key of the plausible range the log stops growing: with a
    row there (a restore accepts one), every append takes the same key, one
    above the range, and so replaces the entry the append before it wrote. *)
Theorem audit_append_overwrites node_id d a d1 d2 e1 e2 r1 r2 last :
  abstracts d a → audit_row MAX_AUDIT_KEY d = Ok (Some last) →
  RedbStore.apply node_id (AppendAudit e1) d = (d1, r1) →
  RedbStore.apply node_id (AppendAudit e2) d1 = (d2, r2) →
  r1 = Ok tt ∧ r2 = Ok tt
  ∧ audit_row (MAX_AUDIT_KEY + 1) d1 = Ok (Some (from_node node_id e1))
  ∧ audit_row (MAX_AUDIT_KEY + 1) d2 = Ok (Some (from_node node_id e2))
  ∧ ∀ k, k ≠ (MAX_AUDIT_KEY + 1)%Z → audit_row k d2 = audit_row k d.
Proof.
  intros Ha Hlast Hap1 Hap2. destruct (append_view _ _ _ _ _ _ Ha Hap1) as [-> Ha1].
  destruct (append_view _ _ _ _ _ _ Ha1 Hap2) as [-> Ha2].
  rewrite (audit_view _ _ _ Ha) in Hlast. injection Hlast as Hlast.
  assert (∀ m : gmap Z AuditEntry, (∀ k, is_Some (m !! k) → (0 ≤ k)%Z) → m !! MAX_AUDIT_KEY = Some last →
    next_audit_key m = (MAX_AUDIT_KEY + 1)%Z) as Hnext.
  { intros m Hm Hl. destruct (next_audit_key_spec m Hm) as [Hlt Hn].
    specialize (Hlt MAX_AUDIT_KEY ltac:(eauto) ltac:(done)).
    destruct Hn as [Hn|[_ Hn]]; unfold MAX_AUDIT_KEY in *; lia. }
  pose proof (Hnext _ (abs_audit_keys _ _ Ha) Hlast) as Hn1.
  assert (next_audit_key (vault_audit (with_audit (λ m, <[next_audit_key m := from_node node_id e1]> m) a))
    = (MAX_AUDIT_KEY + 1)%Z) as Hn2.
  { apply Hnext; [apply (abs_audit_keys _ _ Ha1)|]. simpl. rewrite Hn1, lookup_insert_ne; [done|].
    unfold MAX_AUDIT_KEY. lia. }
  split; [done|]. split; [done|]. split; [|split].
  - rewrite (audit_view _ _ _ Ha1). simpl. by rewrite Hn1, lookup_insert_eq.
  - rewrite (audit_view _ _ _ Ha2). simpl in *. by rewrite Hn2, lookup_insert_eq.
  - intros k Hk. rewrite (audit_view _ _ _ Ha2), (audit_view _ _ _ Ha). simpl in *.
    by rewrite Hn2, lookup_insert_ne, Hn1, lookup_insert_ne.
Qed.

(** ** Lockouts *)

Definition failure (key : string) (max window lockout now : Z) : Command :=
  RecordAuthFailure key now max window lockout.

Lemma failures_view node_id key max window lockout times d a :
  redb_view d a →
  ∃ a', redb_view (apply_all node_id (failure key max window lockout <$> times) d) a'
    ∧ vault_lockouts a' !! key
      = foldl (λ o now, Some (count_failure now max window lockout (default (fresh_lockout now) o)))
          (vault_lockouts a !! key) times.
Proof.
  induction times as [|t times IH] in d, a |- *; intros Hv; [eauto|].
  unfold apply_all. simpl. destruct (RedbStore.apply node_id _ d) as [d1 r1] eqn:Hap.
  destruct (apply_view _ (failure key max window lockout t) _ _ _ _ Hv I I Hap)
    as [(a1 & Hs & _ & Hv1)|(e & Hs & _)]; [|done]. simpl in Hs. injection Hs as <-.
  destruct (IH _ _ Hv1) as (a' & Hv' & Hl). exists a'. split; [done|].
  rewrite Hl. simpl. by rewrite lookup_insert_eq.
Qed.

Lemma bump_in_window r now max window lockout :
  in_i64 now → in_i64 (l_window_start r) → in_i64 (now - l_window_start r) →
  (now - l_window_start r < window)%Z → (0 ≤ l_failures r < u32_max)%Z → in_i64 (now + lockout) →
  count_failure now max window lockout r
  = {| l_failures := l_failures r + 1; l_window_start := l_window_start r;
       l_locked_until := if (max <=? l_failures r + 1)%Z then Some (now + lockout)%Z
                         else l_locked_until r |}.
Proof.
  intros ?? Hd Hw Hf Hl. unfold count_failure. rewrite (wrap_i64_id (now - _)) by done.
  destruct (Z.leb_spec window (now - l_window_start r)); [lia|].
  rewrite wrap_u32_id by (unfold_ints; lia). by rewrite (wrap_i64_id (now + lockout)).
Qed.

Lemma bump_run t0 rest max window lockout :
  (0 < max)%Z → in_i64 window →
  Forall (λ t, (t0 ≤ t < t0 + window)%Z ∧ in_i64 t ∧ in_i64 (t + lockout)) (t0 :: rest) →
  (Z.of_nat (length (t0 :: rest)) ≤ u32_max)%Z →
  foldl (λ o now, Some (count_failure now max window lockout (default (fresh_lockout now) o)))
    None (t0 :: rest)
  = Some {| l_failures := Z.of_nat (length (t0 :: rest)); l_window_start := t0;
            l_locked_until := if (max <=? Z.of_nat (length (t0 :: rest)))%Z
                              then Some (default t0 (last rest) + lockout)%Z else None |}.
Proof.
  intros Hmax Hwin. induction rest as [|t rest IH] using rev_ind; intros Hall Hlen.
  - apply Forall_cons in Hall as [(Ht & Hi & Hl) _]. simpl.
    rewrite bump_in_window; simpl; try done; unfold_ints; lia.
  - rewrite app_comm_cons in *. apply Forall_app in Hall as [Hall Hlast].
    apply Forall_singleton in Hlast as (Ht & Hi & Hl). rewrite length_app in *. simpl length in Hlen |- *.
    rewrite foldl_app, IH by (done || (simpl; lia)). simpl.
    apply Forall_cons in Hall as [(Ht0 & Hi0 & _) _].
    rewrite bump_in_window; simpl; try done; try (unfold_ints; lia).
    rewrite last_snoc. simpl. f_equal. f_equal; [lia|].
    replace (Z.of_nat (S (length rest)) + 1)%Z with (Z.of_nat (S (length rest + 1))) by lia.
    destruct (Z.leb_spec max (Z.of_nat (S (length rest + 1)))) as [|Hlt]; [done|].
    destruct (Z.leb_spec max (Z.of_nat (S (length rest)))); [lia|done].
Qed.

Lemma lockout_view d a key : redb_view d a → RedbStore.lockout key d = Ok (vault_lockouts a !! key).
Proof. intros [Ha _]. apply (read_row_some LOCKOUTS), Ha. Qed.

(** Failures are counted exactly: a run of failures within one window of
    the first leaves the number of failures and the start of the window, and
    the key is locked, until the lockout time after the last failure, exactly
    when the run reached the limit. *)
Theorem lockout_counts node_id d key max window lockout t0 rest :
  reachable node_id d → RedbStore.lockout key d = Ok None →
  (0 < max)%Z → in_i64 window →
  Forall (λ t, (t0 ≤ t < t0 + window)%Z ∧ in_i64 t ∧ in_i64 (t + lockout)) (t0 :: rest) →
  (Z.of_nat (length (t0 :: rest)) ≤ u32_max)%Z →
  RedbStore.lockout key (apply_all node_id (failure key max window lockout <$> t0 :: rest) d)
  = Ok (Some {| l_failures := Z.of_nat (length (t0 :: rest)); l_window_start := t0;
                l_locked_until := if (max <=? Z.of_nat (length (t0 :: rest)))%Z
                                  then Some (default t0 (last rest) + lockout)%Z else None |}).
Proof.
  intros [a Hv]%reachable_view Hnone Hmax Hwin Hall Hlen.
  rewrite (lockout_view _ _ _ Hv) in Hnone. injection Hnone as Hnone.
  destruct (failures_view node_id key max window lockout (t0 :: rest) d a Hv) as (a' & Hv' & Hl).
  rewrite (lockout_view _ _ _ Hv'), Hl, Hnone. f_equal. by apply bump_run.
Qed.
End counters.

(** ** The theorems on sample stores *)

Lemma audit_append_fresh_witness :
  ∃ k, audit_row k sample_store = Ok None
    ∧ audit_row k (RedbStore.apply 1 (AppendAudit (Samples.entry "get")) sample_store).1
      = Ok (Some (from_node 1 (Samples.entry "get"))).
Proof.
  destruct (RedbStore.apply 1 (AppendAudit (Samples.entry "get")) sample_store) as [d' r] eqn:E.
  assert (Hmax : audit_row MAX_AUDIT_KEY sample_store = Ok None) by (vm_compute; reflexivity).
  destruct (audit_append_fresh 1 sample_store d' (Samples.entry "get") r sample_reachable Hmax E)
    as (_ & k & _ & H1 & H2 & _).
  exists k. split; [exact H1|exact H2].
Defined.

(** A backup that a restore accepts, with one audit row at the last key. *)
Definition boundary_row : bytes := default [] (to_option (encode (Samples.entry "create"))).

Definition boundary_backup : BackupData := {|
  b_version := 1; b_secrets := []; b_versions := []; b_roles := []; b_tokens := [];
  b_tokens_by_name := []; b_audit := [(MAX_AUDIT_KEY, boundary_row)]; b_kms_rewrap := [] |}.

Definition boundary_store : Database := (RedbStore.restore boundary_backup empty_database).1.

Lemma boundary_abstracts : ∃ a, abstracts boundary_store a.
Proof.
  assert (backup_decodes boundary_backup) as Hd.
  { split; try by constructor.
    constructor; [|constructor]. exists (Samples.entry "create"). vm_compute. reflexivity. }
  destruct (restore_refines empty_database empty_vault boundary_backup abstracts_empty Hd) as [Hsim _].
  unfold boundary_store, RedbStore.restore, restore_database. unfold restore_command in Hsim.
  destruct (restore_tables boundary_backup empty_database) as [d' [[]|e]]; simpl in *.
  - destruct (spec_restore boundary_backup empty_vault) as [a|]; destruct Hsim as [? ?]; eauto.
  - exists empty_vault. apply abstracts_empty.
Qed.

Lemma audit_append_overwrites_witness :
  let d1 := (RedbStore.apply 1 (AppendAudit (Samples.entry "rotate")) boundary_store).1 in
  let d2 := (RedbStore.apply 1 (AppendAudit (Samples.entry "delete")) d1).1 in
  audit_row (MAX_AUDIT_KEY + 1) d1 = Ok (Some (from_node 1 (Samples.entry "rotate")))
  ∧ audit_row (MAX_AUDIT_KEY + 1) d2 = Ok (Some (from_node 1 (Samples.entry "delete"))).
Proof.
  destruct boundary_abstracts as [a Ha].
  destruct (RedbStore.apply 1 (AppendAudit (Samples.entry "rotate")) boundary_store) as [d1 r1] eqn:E1.
  destruct (RedbStore.apply 1 (AppendAudit (Samples.entry "delete")) d1) as [d2 r2] eqn:E2.
  assert (Hmax : audit_row MAX_AUDIT_KEY boundary_store = Ok (Some (Samples.entry "create")))
    by (vm_compute; reflexivity).
  destruct (audit_append_overwrites 1 boundary_store a d1 d2 (Samples.entry "rotate")
    (Samples.entry "delete") r1 r2 _ Ha Hmax E1 E2) as (_ & _ & H1 & H2 & _).
  simpl. rewrite E2. split; [exact H1|exact H2].
Defined.

Lemma lockout_counts_witness :
  RedbStore.lockout "10.0.0.9"
    (apply_all 1 (failure "10.0.0.9" 3 300 900 <$> [1000; 1100; 1200]%Z) sample_store)
  = Ok (Some {| l_failures := 3; l_window_start := 1000; l_locked_until := Some 2100 |}%Z).
Proof.
  apply (lockout_counts 1 sample_store "10.0.0.9" 3 300 900 1000 [1100; 1200]%Z sample_reachable).
  - vm_compute. reflexivity.
  - lia.
  - unfold_ints. lia.
  - repeat constructor; unfold_ints; lia.
  - simpl. unfold_ints. lia.
Defined.
