(* ===== verification/RaftStore.v ===== *)
(** * The Raft log and state machine

    Models [raft/store.rs] and [ApplyResult] of [raft/types.rs]: the log and
    metadata tables of a node, their repair at start-up, and the state machine
    that applies committed entries and builds and installs snapshots.

    openraft is a third-party crate: leader ids, votes and memberships are
    opaque types, and its [LogId], [Entry], [StoredMembership] and
    [SnapshotMeta] are the records it documents.  Storage errors carry what
    the code puts in them. *)

From S2P Require Import Prelude RustStr CoreTypes Redb Keys Model Apply Engine.

(** ** openraft's types *)

Class RaftTypes := {
  LeaderId : Type;
  leader_to_string : LeaderId → string;
  Vote : Type;
  Membership : Type;
  default_membership : Membership;
}.

Section types.
Context `{RT : !RaftTypes}.

Record LogId := { leader_id : LeaderId; index : Z }.

Record StoredMembership := { sm_log_id : option LogId; sm_membership : Membership }.

Definition stored_membership_default : StoredMembership :=
  {| sm_log_id := None; sm_membership := default_membership |}.

Inductive EntryPayload := Blank | Normal (command : Command) | Member (member : Membership).

Record Entry := { log_id : LogId; payload : EntryPayload }.

Record LogState := { last_purged_log_id : option LogId; last_log_id : option LogId }.

Record SnapshotMeta := {
  meta_last_log_id : option LogId;
  meta_last_membership : StoredMembership;
  meta_snapshot_id : string;
}.

Record Snapshot := { snap_meta : SnapshotMeta; snap_bytes : bytes }.

Record SnapshotData := {
  sd_secrets : list (string * bytes);
  sd_versions : list (string * bytes);
  sd_roles : list (string * bytes);
  sd_tokens : list (bytes * bytes);
  sd_tokens_by_name : list (string * bytes);
  sd_kms_rewrap : list (string * bytes);
  sd_last_applied : option LogId;
  sd_membership : StoredMembership;
}.
End types.

Inductive ApplyResult :=
| ApplyOk
| ApplyNotFound
| ApplyConflict (msg : message)
| ApplyVersionConflict.

Inductive StorageError :=
| ReadError
| WriteError
| ApplyFailed (what : cause)
| ImplausibleLogIndex (index : Z)
| SnapshotSecretName (name : string)
| SnapshotVersionKey (key : string).

(** What the store keeps as JSON for Raft. *)
Class RaftSerde `{!RaftTypes} := {
  serde_log_id :: Serde LogId;
  serde_membership :: Serde StoredMembership;
  serde_vote :: Serde Vote;
  serde_entry :: Serde Entry;
  serde_snapshot :: Serde SnapshotData;
  serde_bytes :: Serde bytes;
}.

(** [<[u8]>::trim_ascii] *)
Definition is_ascii_ws (b : byte) : bool :=
  match b with x20 | x09 | x0a | x0c | x0d => true | _ => false end.
Fixpoint trim_ascii_start (bs : bytes) : bytes :=
  match bs with
  | b :: rest => if is_ascii_ws b then trim_ascii_start rest else bs
  | [] => []
  end.
Definition trim_ascii (bs : bytes) : bytes :=
  rev (trim_ascii_start (rev (trim_ascii_start bs))).

Definition is_json_null (bs : bytes) : bool := bool_decide (trim_ascii bs = as_bytes "null").

(** Structs and byte vectors are JSON objects and arrays, never [null]. *)
Class NotNull (A : Type) `{!Serde A} : Prop :=
  to_vec_not_null (a : A) bs : to_vec a = Some bs → is_json_null bs = false.

Class RaftSerdeLaws `{!RaftTypes, !RaftSerde} : Prop := {
  serde_log_id_ok :: SerdeLaws LogId; log_id_not_null :: NotNull LogId;
  serde_membership_ok :: SerdeLaws StoredMembership; membership_not_null :: NotNull StoredMembership;
  serde_vote_ok :: SerdeLaws Vote; vote_not_null :: NotNull Vote;
  serde_entry_ok :: SerdeLaws Entry;
  serde_snapshot_ok :: SerdeLaws SnapshotData;
  serde_bytes_ok :: SerdeLaws bytes; bytes_not_null :: NotNull bytes;
}.

Definition META_VOTE : string := "vote".
Definition META_PURGED : string := "last_purged".
Definition META_APPLIED : string := "last_applied".
Definition META_MEMBERSHIP : string := "membership".
Definition META_SNAPSHOT : string := "snapshot".
Definition MAX_PLAUSIBLE_LOG_INDEX : Z := 2 ^ 52.

Section raft.
Context `{RE : !Redb, SE : !StoreSerde, RT : !RaftTypes, RS : !RaftSerde}.

Notation io := (ste Database StorageError).

(** ** Metadata *)

Definition read_meta {T} `{!Serde T} (key : string) : io (option T) :=
  row ← get META key;
  match row with
  | Some value =>
      if is_json_null value then mret None
      else lift_result (ok_or ReadError (Some <$> from_slice value))
  | None => mret None
  end.

Definition write_meta {T} `{!Serde T} (key : string) (value : T) : io unit :=
  bs ← lift_result (ok_or WriteError (to_vec value));
  transaction (insert META key bs).

(** ** The log *)

Definition try_get_log_entries (p : Z → bool) : io (list Entry) :=
  rows ← range LOG p;
  lift_result (mapM (λ row, ok_or ReadError (from_slice row.2)) rows).

Definition get_log_state : io LogState :=
  stored_purged ← read_meta (T := LogId) META_PURGED;
  rows ← iter LOG;
  let first_index := fst <$> head rows in
  let next := match stored_purged with Some p => sat_u64 (index p + 1) | None => 0%Z end in
  last_purged ← match first_index with
                | Some first =>
                    if (next <? first)%Z
                    then applied ← read_meta (T := LogId) META_APPLIED;
                         mret (match applied with Some a => Some a | None => stored_purged end)
                    else mret stored_purged
                | None => mret stored_purged
                end;
  last ← match last rows with
         | Some (_, value) =>
             entry ← lift_result (ok_or ReadError (from_slice (A := Entry) value));
             mret (Some (log_id entry))
         | None => mret last_purged
         end;
  mret {| last_purged_log_id := last_purged; last_log_id := last |}.

Definition save_vote (vote : Vote) : io unit := write_meta META_VOTE vote.
Definition read_vote : io (option Vote) := read_meta META_VOTE.

Definition append_entry (entry : Entry) : io unit :=
  bs ← lift_result (ok_or WriteError (to_vec entry));
  insert LOG (index (log_id entry)) bs.

(** openraft's callback is told of the flush after the commit, when this
    returns [Ok]. *)
Definition append (entries : list Entry) : io unit :=
  transaction (ste_iter append_entry entries).

Definition truncate (log_id : LogId) : io unit :=
  transaction (
    rows ← range LOG (λ k, (index log_id <=? k)%Z);
    remove_keys LOG rows.*1).

Definition purge (log_id : LogId) : io unit :=
  transaction (
    rows ← range LOG (λ k, (k <=? index log_id)%Z);
    remove_keys LOG rows.*1) ;;
  write_meta META_PURGED log_id.

(** ** Start-up repair *)

(** The indices to delete: those at or below the floor, and everything from the
    first gap on. *)
Fixpoint normalize_scan (floor : option Z) (expected : Z) (truncating : bool) (keys : list Z) : list Z :=
  match keys with
  | [] => []
  | index :: keys =>
      if truncating || match floor with Some f => (index <=? f)%Z | None => false end
      then index :: normalize_scan floor expected truncating keys
      else if (index =? expected)%Z
           then normalize_scan floor (wrap_u64 (expected + 1)) truncating keys
           else index :: normalize_scan floor expected true keys
  end.

Definition normalize_floor (applied purged : option LogId) : option Z :=
  match applied with Some a => Some (index a) | None => index <$> purged end.

Definition advance_purged (applied purged : option LogId) : bool :=
  match applied, purged with
  | Some a, Some p => (index p <? index a)%Z
  | Some _, None => true
  | None, _ => false
  end.

Definition normalize_raft_log : io unit :=
  applied ← read_meta (T := LogId) META_APPLIED;
  purged ← read_meta (T := LogId) META_PURGED;
  let floor := normalize_floor applied purged in
  let start := match floor with Some f => sat_u64 (f + 1) | None => 0%Z end in
  rows ← iter LOG;
  let to_delete := normalize_scan floor start false rows.*1 in
  if bool_decide (to_delete = []) && negb (advance_purged applied purged) then mret tt else
  transaction (remove_keys LOG to_delete) ;;
  if advance_purged applied purged
  then match applied with Some a => write_meta META_PURGED a | None => mret tt end
  else mret tt.

Definition reset_raft_state : io unit :=
  transaction (
    log ← iter LOG;
    remove_keys LOG log.*1 ;;
    meta ← iter META;
    remove_keys META meta.*1).

(** ** Applying committed entries *)

Definition applied_state : io (option LogId * StoredMembership) :=
  last_applied ← read_meta META_APPLIED;
  membership ← read_meta META_MEMBERSHIP;
  mret (last_applied, default stored_membership_default membership).

(** One committed command, inside the batch's transaction: a refused command is
    an outcome, an internal error stops the batch. *)
Definition apply_normal (node_id : Z) (command : Command) : io ApplyResult := λ d,
  match apply_command node_id command d with
  | (d', Ok _) => (d', Ok ApplyOk)
  | (d', Err NotFound) => (d', Ok ApplyNotFound)
  | (d', Err (Conflict msg)) => (d', Ok (ApplyConflict msg))
  | (d', Err VersionConflict) => (d', Ok ApplyVersionConflict)
  | (d', Err (Internal what)) => (d', Err (ApplyFailed what))
  end.

Definition apply_payload (node_id : Z) (p : EntryPayload) : io ApplyResult :=
  match p with
  | Normal command => apply_normal node_id command
  | Blank | Member _ => mret ApplyOk
  end.

Fixpoint apply_entries (node_id : Z) (entries : list Entry) : io (list ApplyResult) :=
  match entries with
  | [] => mret []
  | entry :: entries =>
      r ← apply_payload node_id (payload entry);
      rs ← apply_entries node_id entries;
      mret (r :: rs)
  end.

Fixpoint last_membership (entries : list Entry) : option StoredMembership :=
  match entries with
  | [] => None
  | entry :: entries =>
      match last_membership entries with
      | Some m => Some m
      | None => match payload entry with
                | Member member =>
                    Some {| sm_log_id := Some (log_id entry); sm_membership := member |}
                | _ => None
                end
      end
  end.

(** The id of the last entry and the last membership of the batch. *)
Definition record_progress (entries : list Entry) : io unit :=
  match last entries with
  | Some entry =>
      bs ← lift_result (ok_or WriteError (to_vec (log_id entry)));
      insert META META_APPLIED bs ;;
      match last_membership entries with
      | Some member =>
          bs ← lift_result (ok_or WriteError (to_vec member));
          insert META META_MEMBERSHIP bs
      | None => mret tt
      end
  | None => mret tt
  end.

Definition apply (node_id : Z) (entries : list Entry) : io (list ApplyResult) :=
  transaction (
    results ← apply_entries node_id entries;
    record_progress entries ;;
    mret results).

(** ** Snapshots *)

Definition dump_str_table (def : TableDefinition string) : io (list (string * bytes)) := iter def.

Definition snapshot_id (last_applied : option LogId) : string :=
  match last_applied with
  | Some log_id => leader_to_string (leader_id log_id) +:+ "-" +:+ int_to_string (index log_id)
  | None => "empty"
  end.

Definition snapshot_meta (last_applied : option LogId) (membership : StoredMembership) : SnapshotMeta :=
  {| meta_last_log_id := last_applied; meta_last_membership := membership;
     meta_snapshot_id := snapshot_id last_applied |}.

(** One step here.  The code reads the progress, the membership and the tables in
    three read transactions and writes the metadata in a fourth, so this is a
    builder with no batch applied in between. *)
Definition build_snapshot : io Snapshot :=
  last_applied ← read_meta META_APPLIED;
  membership ← read_meta META_MEMBERSHIP;
  let membership := default stored_membership_default membership in
  tokens ← iter TOKENS;
  secrets ← dump_str_table SECRETS;
  versions ← dump_str_table VERSIONS;
  roles ← dump_str_table ROLES;
  tokens_by_name ← dump_str_table TOKENS_BY_NAME;
  kms_rewrap ← dump_str_table KMS_REWRAP;
  let data := {| sd_secrets := secrets; sd_versions := versions; sd_roles := roles;
                 sd_tokens := tokens; sd_tokens_by_name := tokens_by_name;
                 sd_kms_rewrap := kms_rewrap; sd_last_applied := last_applied;
                 sd_membership := membership |} in
  bs ← lift_result (ok_or WriteError (to_vec data));
  write_meta META_SNAPSHOT bs ;;
  mret {| snap_meta := snapshot_meta last_applied membership; snap_bytes := bs |}.

Definition check_snapshot_meta (meta : SnapshotMeta) : result StorageError unit :=
  match meta_last_log_id meta with
  | Some last => if (MAX_PLAUSIBLE_LOG_INDEX <? index last)%Z
                 then Err (ImplausibleLogIndex (index last)) else Ok tt
  | None => Ok tt
  end.

Definition snapshot_bad_secret (row : string * bytes) : option StorageError :=
  if is_valid_secret_name row.1 then None else Some (SnapshotSecretName row.1).

Definition snapshot_bad_version (row : string * bytes) : option StorageError :=
  match split_version_key row.1 with
  | Some (name, version) =>
      if is_valid_secret_name name && is_valid_secret_version version then None
      else Some (SnapshotVersionKey row.1)
  | None => Some (SnapshotVersionKey row.1)
  end.

Definition check_snapshot_rows (data : SnapshotData) : result StorageError unit :=
  check_rows snapshot_bad_secret (sd_secrets data) ;;
  check_rows snapshot_bad_version (sd_versions data).

Definition restore_str_table (def : TableDefinition string) (rows : list (string * bytes)) : io unit :=
  old ← iter def;
  remove_keys def old.*1 ;;
  insert_rows def rows.

Definition clear_bytes_table (def : TableDefinition bytes) : io unit :=
  old ← iter def;
  remove_keys def old.*1.

Definition install_snapshot (meta : SnapshotMeta) (snapshot : bytes) : io unit :=
  data ← lift_result (ok_or ReadError (from_slice (A := SnapshotData) snapshot));
  lift_result (check_snapshot_meta meta) ;;
  lift_result (check_snapshot_rows data) ;;
  transaction (
    restore_str_table SECRETS (sd_secrets data) ;;
    restore_str_table VERSIONS (sd_versions data) ;;
    restore_str_table ROLES (sd_roles data) ;;
    restore_str_table TOKENS_BY_NAME (sd_tokens_by_name data) ;;
    restore_str_table KMS_REWRAP (sd_kms_rewrap data) ;;
    clear_bytes_table TOKENS ;;
    insert_rows TOKENS (sd_tokens data) ;;
    match meta_last_log_id meta with
    | Some last =>
        bs ← lift_result (ok_or WriteError (to_vec last));
        insert META META_APPLIED bs ;;
        insert META META_PURGED bs
    | None => _ ← remove META META_APPLIED; mret tt
    end ;;
    bs ← lift_result (ok_or WriteError (to_vec (meta_last_membership meta)));
    insert META META_MEMBERSHIP bs ;;
    match meta_last_log_id meta with
    | Some last =>
        covered ← range LOG (λ k, (k <=? index last)%Z);
        remove_keys LOG covered.*1
    | None => mret tt
    end).

Definition get_current_snapshot : io (option Snapshot) :=
  stored ← read_meta (T := bytes) META_SNAPSHOT;
  match stored with
  | None => mret None
  | Some bs =>
      last_applied ← read_meta META_APPLIED;
      membership ← read_meta META_MEMBERSHIP;
      mret (Some {| snap_meta := snapshot_meta last_applied (default stored_membership_default membership);
                    snap_bytes := bs |})
  end.
End raft.
Notation io := (ste Database StorageError).
