(* ===== verification/Replicas.v ===== *)
(** * Replicas agree

    The tables a Raft log determines hold the same bytes on every node that
    applied the same commands, whatever its node id and whatever it wrote to
    its own audit log and lockout counters. *)

From S2P Require Import Prelude RustStr CoreTypes Redb Keys Model Serial Apply Samples ApplyFacts Engine.

Section replicas.
Context `{RE : !Redb, RL : !RedbLaws, SE : !StoreSerde}.
Implicit Types (d : Database).

(** The replicated tables of two nodes hold the same rows. *)
Record agree (d1 d2 : Database) : Prop := {
  agree_secrets : db_secrets d1 ≡ db_secrets d2;
  agree_versions : db_versions d1 ≡ db_versions d2;
  agree_roles : db_roles d1 ≡ db_roles d2;
  agree_tokens : db_tokens d1 ≡ db_tokens d2;
  agree_names : db_tokens_by_name d1 ≡ db_tokens_by_name d2;
  agree_rewrap : db_kms_rewrap d1 ≡ db_kms_rewrap d2;
}.

#[export] Instance agree_equivalence : Equivalence agree.
Proof.
  split.
  - by intros d.
  - intros d1 d2 []. by split.
  - intros d1 d2 d3 [] []. split; by etrans.
Qed.

#[export] Instance t_remove_all_proper {K} `{!OrdKey K} ks :
  Proper ((≡) ==> (≡)) (t_remove_all (K := K) ks).
Proof. intros t1 t2 H k. rewrite !t_get_remove_all. by rewrite (H k). Qed.

#[export] Instance t_insert_all_proper {K} `{!OrdKey K} rows :
  Proper ((≡) ==> (≡)) (t_insert_all (K := K) rows).
Proof.
  unfold t_insert_all. induction rows as [|[k v] rows IH]; intros t1 t2 H; simpl; [done|].
  apply IH. by rewrite H.
Qed.

(** Both nodes answer alike and end in agreement. *)
Definition lockstep {E A} (m1 m2 : ste Database E A) : Prop :=
  ∀ d1 d2, agree d1 d2 → agree (m1 d1).1 (m2 d2).1 ∧ (m1 d1).2 = (m2 d2).2.

Lemma lockstep_bind {E A B} (m1 m2 : ste Database E A) (k1 k2 : A → ste Database E B) :
  lockstep m1 m2 → (∀ a, lockstep (k1 a) (k2 a)) → lockstep (mbind k1 m1) (mbind k2 m2).
Proof.
  intros Hm Hk d1 d2 Hd. destruct (Hm d1 d2 Hd) as [H1 H2]. unfold mbind, ste_bind.
  destruct (m1 d1) as [d1' r1], (m2 d2) as [d2' r2]. simpl in *. subst r2.
  destruct r1; [by apply Hk|done].
Qed.

Lemma lockstep_pure {E A} (r : result E A) : lockstep (lift_result r) (lift_result r).
Proof. by intros d1 d2 Hd. Qed.

(** The operations on a replicated table keep two nodes in step. *)
Definition replicated {K} `{!OrdKey K} (def : TableDefinition K) : Prop :=
  (∀ d1 d2, agree d1 d2 → open_table def d1 ≡ open_table def d2)
  ∧ (∀ d1 d2 t1 t2, agree d1 d2 → t1 ≡ t2 → agree (put_table def t1 d1) (put_table def t2 d2)).

Lemma replicated_tables :
  replicated SECRETS ∧ replicated VERSIONS ∧ replicated ROLES ∧ replicated TOKENS
  ∧ replicated TOKENS_BY_NAME ∧ replicated KMS_REWRAP.
Proof. split_and!; (split; [by intros d1 d2 []|intros d1 d2 t1 t2 [] Ht; by split]). Qed.

Section ops.
Context {K : Type} `{OK : !OrdKey K} {E : Type} (def : TableDefinition K) (Hdef : replicated def).

Lemma lockstep_get k : lockstep (E := E) (get def k) (get def k).
Proof using RL Hdef.
  intros d1 d2 Hd. simpl. split; [done|]. f_equal. apply (proj1 Hdef _ _ Hd).
Qed.
Lemma lockstep_insert k v : lockstep (E := E) (insert def k v) (insert def k v).
Proof using RL Hdef.
  intros d1 d2 Hd. simpl. split; [|done]. apply (proj2 Hdef); [done|].
  apply t_insert_proper. by apply (proj1 Hdef).
Qed.
Lemma lockstep_remove k : lockstep (E := E) (remove def k) (remove def k).
Proof using RL Hdef.
  intros d1 d2 Hd. simpl. split.
  - apply (proj2 Hdef); [done|]. apply t_remove_proper. by apply (proj1 Hdef).
  - f_equal. apply (proj1 Hdef _ _ Hd).
Qed.
Lemma lockstep_iter : lockstep (E := E) (iter def) (iter def).
Proof using RL Hdef.
  intros d1 d2 Hd. simpl. split; [done|]. f_equal. apply t_iter_proper. by apply (proj1 Hdef).
Qed.
Lemma lockstep_range p : lockstep (E := E) (range def p) (range def p).
Proof using RL Hdef.
  intros d1 d2 Hd. simpl. split; [done|]. f_equal. apply t_range_proper. by apply (proj1 Hdef).
Qed.
Lemma lockstep_remove_keys ks : lockstep (E := E) (remove_keys def ks) (remove_keys def ks).
Proof using RL Hdef.
  intros d1 d2 Hd. simpl. split; [|done]. apply (proj2 Hdef); [done|].
  apply t_remove_all_proper. by apply (proj1 Hdef).
Qed.
Lemma lockstep_insert_rows rows : lockstep (E := E) (insert_rows def rows) (insert_rows def rows).
Proof using RL Hdef.
  intros d1 d2 Hd. simpl. split; [|done]. apply (proj2 Hdef); [done|].
  apply t_insert_all_proper. by apply (proj1 Hdef).
Qed.
End ops.

Lemma replicated_secrets : replicated SECRETS. Proof. apply replicated_tables. Qed.
Lemma replicated_versions : replicated VERSIONS. Proof. apply replicated_tables. Qed.
Lemma replicated_roles : replicated ROLES. Proof. apply replicated_tables. Qed.
Lemma replicated_tokens : replicated TOKENS. Proof. apply replicated_tables. Qed.
Lemma replicated_names : replicated TOKENS_BY_NAME. Proof. apply replicated_tables. Qed.
Lemma replicated_rewrap : replicated KMS_REWRAP. Proof. apply replicated_tables. Qed.

Hint Resolve replicated_secrets replicated_versions replicated_roles replicated_tokens
  replicated_names replicated_rewrap : vault.
Hint Resolve lockstep_get lockstep_insert lockstep_remove lockstep_iter lockstep_range
  lockstep_remove_keys lockstep_insert_rows lockstep_pure : vault.

(** A transaction body that only uses replicated tables. *)
Ltac lockstep_tac :=
  repeat first
    [ progress intros
    | solve [eauto with vault]
    | apply (lockstep_pure (Ok _)) | apply (lockstep_pure (Err _))
    | apply lockstep_bind
    | case_match | case_decide ].

Lemma get_decoded_lockstep {A K} `{!Serde A, !OrdKey K} (def : TableDefinition K) k e :
  replicated def → lockstep (get_decoded (A := A) def k e) (get_decoded def k e).
Proof. intros Hdef. unfold get_decoded, decode_row. lockstep_tac. Qed.

Lemma get_decoded_opt_lockstep {A K} `{!Serde A, !OrdKey K} (def : TableDefinition K) k :
  replicated def → lockstep (get_decoded_opt (A := A) def k) (get_decoded_opt def k).
Proof. intros Hdef. unfold get_decoded_opt, decode_row. lockstep_tac. Qed.

Lemma restore_rows_lockstep {E K} `{!OrdKey K} (def : TableDefinition K) rows :
  replicated def → lockstep (E := E) (restore_rows def rows) (restore_rows def rows).
Proof. intros Hdef. unfold restore_rows. lockstep_tac. Qed.

Lemma restore_audit_lockstep {E} rows :
  lockstep (E := E) (restore_rows AUDIT rows) (restore_rows AUDIT rows).
Proof. intros d1 d2 []. simpl. split; [by split|done]. Qed.

Hint Resolve get_decoded_lockstep get_decoded_opt_lockstep restore_rows_lockstep
  restore_audit_lockstep : vault.

Lemma restore_tables_lockstep data : lockstep (restore_tables data) (restore_tables data).
Proof. unfold restore_tables, restore_str, restore_bytes, restore_u64. lockstep_tac. Qed.

Lemma supersede_lockstep name v expiry : lockstep (supersede name v expiry) (supersede name v expiry).
Proof. unfold supersede, encode_row. lockstep_tac. Qed.

Hint Resolve supersede_lockstep : vault.

Lemma apply_lockstep n1 n2 c :
  is_local c = false → lockstep (apply_command n1 c) (apply_command n2 c).
Proof.
  destruct c; intros Hc; try discriminate Hc; unfold apply_command, create_secret, put_version,
    update_meta, delete_secret, create_role, set_permissions, delete_role, add_token, revoke_token,
    touch_token, expire_grace_versions, rewrap_version, set_kms_rewrap_state, encode_row;
    try solve [lockstep_tac].
  intros d1 d2 Hd. destruct (restore_tables_lockstep data d1 d2 Hd) as [H1 H2].
  unfold restore_command. destruct (restore_tables data d1) as [d1' []], (restore_tables data d2) as [d2' []];
    simpl in *; split; congruence.
Qed.

(** A node's own commands do not touch the replicated tables. *)
Lemma local_agree n c d : is_local c = true → agree (apply_command n c d).1 d.
Proof.
  destruct c; intros Hc; try discriminate Hc;
    unfold apply_command, append_audit, record_auth_failure, get_decoded_opt, decode_row, encode_row;
    unfold_monad; simpl; repeat (case_match; simplify_eq/=); by split.
Qed.

(** One command on a node: its own ones go through its store, the others
    through the state machine, which commits refused commands too. *)
Definition node_step (n : Z) (d : Database) (c : Command) : Database :=
  if is_local c then (RedbStore.apply n c d).1 else (apply_command n c d).1.

Lemma node_step_local n d c : is_local c = true → agree (node_step n d c) d.
Proof.
  intros Hc. unfold node_step, RedbStore.apply. rewrite Hc.
  pose proof (local_agree n c d Hc). destruct (apply_command n c d) as [d' []]; done.
Qed.

Lemma node_run_agree n1 n2 cs1 : ∀ cs2 d1 d2,
  filter (λ c, is_local c = false) cs1 = filter (λ c, is_local c = false) cs2 →
  agree d1 d2 → agree (foldl (node_step n1) d1 cs1) (foldl (node_step n2) d2 cs2).
Proof.
  assert (∀ n cs d, filter (λ c, is_local c = false) cs = [] → agree (foldl (node_step n) d cs) d) as Hnil.
  { intros n cs. induction cs as [|c cs IH]; intros d; [done|]. rewrite filter_cons.
    case_decide as Hc; [done|]. apply not_false_is_true in Hc. intros Hf. simpl.
    etrans; [by apply IH|]. by apply node_step_local. }
  induction cs1 as [|c cs1 IH1]; [intros cs2 d1 d2 Hf Hd; simpl; etrans; [done|]; symmetry; by apply Hnil|].
  intros cs2 d1 d2. rewrite filter_cons. case_decide as Hc.
  - induction cs2 as [|c2 cs2 IH2] in d2 |- *; [done|]. rewrite filter_cons. case_decide as Hc2.
    + intros [= -> Hf] Hd. simpl. apply IH1; [done|]. unfold node_step. rewrite Hc2.
      by apply (apply_lockstep n1 n2 c2 Hc2).
    + apply not_false_is_true in Hc2. intros Hf Hd. simpl. apply IH2; [done|].
      etrans; [done|]. symmetry. by apply node_step_local.
  - apply not_false_is_true in Hc. intros Hf Hd. simpl. apply IH1; [done|].
    etrans; [by apply node_step_local|done].
Qed.

(** C14. Replicas agree.  Two nodes that start with the same replicated rows
    and apply the same replicated commands in the same order end with the
    same bytes in every replicated table and answer each of them alike,
    whatever their node ids and whatever audit entries and authentication
    failures each of them records in between. *)
Theorem replicas_agree n1 n2 cs1 cs2 d1 d2 :
  filter (λ c, is_local c = false) cs1 = filter (λ c, is_local c = false) cs2 →
  agree d1 d2 →
  let d1' := foldl (node_step n1) d1 cs1 in
  let d2' := foldl (node_step n2) d2 cs2 in
  agree d1' d2'
  ∧ ∀ c, is_local c = false → (apply_command n1 c d1').2 = (apply_command n2 c d2').2.
Proof.
  intros Hf Hd. simpl. pose proof (node_run_agree n1 n2 cs1 cs2 d1 d2 Hf Hd) as Ha.
  split; [done|]. intros c Hc. by apply (apply_lockstep n1 n2 c Hc).
Qed.
End replicas.

(** ** On the sample commands *)

Lemma replicas_agree_witness :
  let cs1 := Samples.commands in
  let cs2 := filter (λ c, is_local c = false) Samples.commands in
  agree (foldl (node_step 1) empty_database cs1) (foldl (node_step 2) empty_database cs2).
Proof.
  apply (replicas_agree 1 2 Samples.commands (filter (λ c, is_local c = false) Samples.commands)
    empty_database empty_database); [vm_compute; reflexivity|reflexivity].
Defined.
