(* ===== verification/RaftSamples.v ===== *)
(** * A concrete Raft node

    Concrete openraft types and a codec for the Raft records, on which the
    witnesses of [RaftThms] are evaluated. *)

From S2P Require Import Prelude RustStr CoreTypes Redb Keys Model Serial Apply Samples RaftStore.

(** ** Codecs *)

#[export] Instance serial_sum `{!Serial A, !Serial B} : Serial (A + B).
Proof.
  refine {|
  ser (s : A + B) := match s with inl a => x00 :: ser a | inr b => x01 :: ser b end;
  deser bs := match bs with
              | x00 :: r => '(a, r) ← deser r; Some (inl a, r)
              | x01 :: r => '(b, r) ← deser r; Some (inr b, r)
              | _ => None
              end |}.
  intros [a|b] r; simpl; by rewrite deser_ser.
Defined.

#[export] Instance serial_next : Serial NextRotation.
Proof.
  serial (λ n, match n with Keep => None | Set_ o => Some o end)
         (λ o : option (option Z), match o with None => Keep | Some o => Set_ o end).
Defined.

#[export] Instance serial_backup : Serial BackupData.
Proof.
  serial (λ x, (b_version x, (b_secrets x, (b_versions x, (b_roles x, (b_tokens x,
            (b_tokens_by_name x, (b_audit x, b_kms_rewrap x))))))))
         (λ '(a, (b, (c, (d, (e, (f, (g, h))))))), Build_BackupData a b c d e f g h).
Defined.

(** Commands in three groups, by constructor. *)
Definition SecretCode : Type :=
  (SecretRecord * VersionRecord)
  + ((string * (Z * (VersionRecord * (option Z * (option string * (option Z * (option Z * (NextRotation * Z))))))))
  + ((string * (Z * (option string * (option Z * (option Z * (NextRotation * Z))))))
  + (string + Z + (string * (Z * (string * (bytes * Z))))))).
Definition AccessCode : Type :=
  RoleRecord + ((string * list (string * string)) + (string + (TokenRecord + ((string * Z) + (bytes * Z))))).
Definition OtherCode : Type :=
  KmsRewrapState + (AuditEntry + (BackupData + (string * (Z * (Z * (Z * Z)))))).

Definition command_code (c : Command) : SecretCode + (AccessCode + OtherCode) :=
  match c with
  | CreateSecret s v => inl (inl (s, v))
  | PutVersion a b c d e f g h i => inl (inr (inl (a, (b, (c, (d, (e, (f, (g, (h, i))))))))))
  | UpdateMeta a b c d e f g => inl (inr (inr (inl (a, (b, (c, (d, (e, (f, g)))))))))
  | DeleteSecret n => inl (inr (inr (inr (inl (inl n)))))
  | ExpireGraceVersions n => inl (inr (inr (inr (inl (inr n)))))
  | RewrapVersion a b c d e => inl (inr (inr (inr (inr (a, (b, (c, (d, e))))))))
  | CreateRole r => inr (inl (inl r))
  | SetPermissions n p => inr (inl (inr (inl (n, p))))
  | DeleteRole n => inr (inl (inr (inr (inl n))))
  | AddToken t => inr (inl (inr (inr (inr (inl t)))))
  | RevokeToken n t => inr (inl (inr (inr (inr (inr (inl (n, t)))))))
  | TouchToken f t => inr (inl (inr (inr (inr (inr (inr (f, t)))))))
  | SetKmsRewrapState s => inr (inr (inl s))
  | AppendAudit e => inr (inr (inr (inl e)))
  | RestoreDatabase b => inr (inr (inr (inr (inl b))))
  | RecordAuthFailure a b c d e => inr (inr (inr (inr (inr (a, (b, (c, (d, e))))))))
  end.

Definition command_decode (c : SecretCode + (AccessCode + OtherCode)) : Command :=
  match c with
  | inl (inl (s, v)) => CreateSecret s v
  | inl (inr (inl (a, (b, (c, (d, (e, (f, (g, (h, i)))))))))) => PutVersion a b c d e f g h i
  | inl (inr (inr (inl (a, (b, (c, (d, (e, (f, g))))))))) => UpdateMeta a b c d e f g
  | inl (inr (inr (inr (inl (inl n))))) => DeleteSecret n
  | inl (inr (inr (inr (inl (inr n))))) => ExpireGraceVersions n
  | inl (inr (inr (inr (inr (a, (b, (c, (d, e)))))))) => RewrapVersion a b c d e
  | inr (inl (inl r)) => CreateRole r
  | inr (inl (inr (inl (n, p)))) => SetPermissions n p
  | inr (inl (inr (inr (inl n)))) => DeleteRole n
  | inr (inl (inr (inr (inr (inl t))))) => AddToken t
  | inr (inl (inr (inr (inr (inr (inl (n, t))))))) => RevokeToken n t
  | inr (inl (inr (inr (inr (inr (inr (f, t))))))) => TouchToken f t
  | inr (inr (inl s)) => SetKmsRewrapState s
  | inr (inr (inr (inl e))) => AppendAudit e
  | inr (inr (inr (inr (inl b)))) => RestoreDatabase b
  | inr (inr (inr (inr (inr (a, (b, (c, (d, e)))))))) => RecordAuthFailure a b c d e
  end.

#[export] Instance serial_command : Serial Command.
Proof. serial command_code command_decode. Defined.

(** ** Node types *)

#[export] Instance sample_raft : RaftTypes := {|
  LeaderId := string; leader_to_string := λ l, l; Vote := Z; Membership := list Z;
  default_membership := [] |}.

#[export] Instance serial_log_id : Serial LogId.
Proof. serial (λ x : LogId, (leader_id x : string, index x)) (λ '(a, b), Build_LogId (RT := sample_raft) a b). Defined.
#[export] Instance serial_membership : Serial StoredMembership.
Proof.
  serial (λ x : StoredMembership, (sm_log_id x, sm_membership x : list Z))
         (λ '(a, b), Build_StoredMembership (RT := sample_raft) a b).
Defined.
#[export] Instance serial_payload : Serial EntryPayload.
Proof.
  serial (λ p : EntryPayload, match p with
            | Blank => inl (inl tt) | Normal c => inl (inr c) | Member m => inr (m : list Z) end)
         (λ s : unit + Command + list Z, match s with
            | inl (inl _) => Blank | inl (inr c) => Normal c | inr m => Member (RT := sample_raft) m end).
Defined.
#[export] Instance serial_entry : Serial Entry.
Proof. serial (λ x : Entry, (log_id x, payload x)) (λ '(a, b), Build_Entry (RT := sample_raft) a b). Defined.
#[export] Instance serial_snapshot : Serial SnapshotData.
Proof.
  serial (λ x : SnapshotData, (sd_secrets x, (sd_versions x, (sd_roles x, (sd_tokens x,
            (sd_tokens_by_name x, (sd_kms_rewrap x, (sd_last_applied x, sd_membership x))))))))
         (λ '(a, (b, (c, (d, (e, (f, (g, h))))))), Build_SnapshotData (RT := sample_raft) a b c d e f g h).
Defined.

(** An object's text starts with a brace, so it is not [null]. *)
Definition tagged_serde `{!Serial A} : Serde A := {|
  to_vec a := Some (x7b :: ser a);
  from_slice bs := match bs with
                   | x7b :: r => match deser r with Some (a, []) => Some a | _ => None end
                   | _ => None
                   end |}.

Lemma tagged_serde_laws `{!Serial A} : @SerdeLaws A tagged_serde.
Proof.
  intros a. eexists. split; [done|]. simpl.
  pose proof (deser_ser a []) as H. rewrite app_nil_r in H. by rewrite H.
Qed.

Lemma tagged_not_null `{!Serial A} : @NotNull A tagged_serde.
Proof.
  intros a bs [= <-]. unfold is_json_null, trim_ascii. simpl. apply bool_decide_eq_false.
  intros Heq%(f_equal (@rev byte)). rewrite rev_involutive in Heq. revert Heq.
  assert (∀ l, trim_ascii_start (l ++ [x7b]) ≠ rev (as_bytes "null")) as Hne; [|apply Hne].
  induction l as [|b l IH]; simpl; [done|]. destruct (is_ascii_ws b); [done|].
  intros Heq%(f_equal (@last byte)). rewrite app_comm_cons, last_snoc in Heq. done.
Qed.

#[export] Instance sample_raft_serde : RaftSerde := {|
  serde_log_id := tagged_serde; serde_membership := tagged_serde; serde_vote := tagged_serde;
  serde_entry := tagged_serde; serde_snapshot := tagged_serde; serde_bytes := tagged_serde |}.

#[export] Instance sample_raft_serde_laws : RaftSerdeLaws.
Proof. split; first [apply tagged_serde_laws | apply tagged_not_null]. Qed.

(** ** A log *)

Module RaftSamples.
Definition id (i : Z) : LogId := {| leader_id := "T1-N1" : LeaderId; index := i |}.
Definition entry (i : Z) (c : Command) : Entry := {| log_id := id i; payload := Normal c |}.

Definition create (i : Z) (name : string) : Entry :=
  entry i (CreateSecret (Samples.secret name) (Samples.version name 1)).
End RaftSamples.
