(* ===== verification/RaftThms.v ===== *)
(** * Theorems on the Raft log and state machine

    The log tables implement a finite map from indices to entries; start-up
    repair leaves a contiguous log and is safe to interrupt; applying a batch
    does what the abstract vault says and remembers how far it got; a snapshot
    moves the replicated state from one node to another. *)

From S2P Require Import Prelude RustStr CoreTypes Redb Keys Model Serial Apply Spec Samples ApplyFacts.
From S2P Require Import Refine Engine Invariant StoreLaws Replicas RaftStore RaftSamples.

Section raft_thms.
Context `{RE : !Redb, RL : !RedbLaws, SE : !StoreSerde, SL : !StoreSerdeLaws}.
Context `{RT : !RaftTypes, RS : !RaftSerde, RSL : !RaftSerdeLaws}.
Implicit Types (d : Database) (a : Vault).

(** ** Metadata *)

(** What a metadata row says. *)
Definition meta_value {T} `{!Serde T} (key : string) (t : table string)
    : result StorageError (option T) :=
  match t_get t key with
  | Some value =>
      if is_json_null value then Ok None else ok_or ReadError (Some <$> from_slice value)
  | None => Ok None
  end.

Lemma read_meta_value {T} `{!Serde T} key d :
  read_meta (T := T) key d = (d, meta_value key (db_meta d)).
Proof. unfold read_meta, meta_value. unfold_monad. simpl. by repeat case_match. Qed.

Lemma meta_value_written {T} `{SD : !Serde T, !SerdeLaws T, !NotNull T} key (v : T) bs t :
  to_vec v = Some bs → t_get t key = Some bs → meta_value key t = Ok (Some v).
Proof.
  intros Hv Hrow. unfold meta_value. rewrite Hrow, (to_vec_not_null v bs Hv).
  destruct (serde_roundtrip v) as (bs' & Hv' & Hf). rewrite Hv in Hv'. simplify_eq. by rewrite Hf.
Qed.

Lemma meta_value_row {T} `{!Serde T} key t1 t2 :
  t_get t1 key = t_get t2 key → meta_value (T := T) key t1 = meta_value key t2.
Proof. intros Heq. unfold meta_value. by rewrite Heq. Qed.

Lemma meta_value_absent {T} `{!Serde T} key t :
  t_get t key = None → meta_value (T := T) key t = Ok None.
Proof. intros Hn. unfold meta_value. by rewrite Hn. Qed.

(** The progress the metadata records. *)
Definition progress (t : table string) : result StorageError (option LogId * StoredMembership) :=
  last_applied ← meta_value META_APPLIED t;
  membership ← meta_value META_MEMBERSHIP t;
  Ok (last_applied, default stored_membership_default membership).

Lemma applied_state_progress d : applied_state d = (d, progress (db_meta d)).
Proof.
  unfold applied_state, progress. unfold_monad. rewrite !read_meta_value.
  destruct (meta_value META_APPLIED (db_meta d)); [|done]. rewrite ?read_meta_value.
  by destruct (meta_value META_MEMBERSHIP (db_meta d)).
Qed.

Lemma write_meta_run {T} `{SD : !Serde T, !SerdeLaws T, !NotNull T} key (v : T) d :
  ∃ bs, to_vec v = Some bs
    ∧ write_meta key v d = (put_table META (t_insert key bs (db_meta d)) d, Ok tt).
Proof.
  destruct (serde_roundtrip v) as (bs & Hv & _). exists bs. split; [done|].
  unfold write_meta, transaction. unfold_monad. simpl. by rewrite Hv.
Qed.

(** Metadata survives: what [write_meta] stores, a vote in particular, is
    what the next read answers, and no other metadata changes. *)
Theorem vote_roundtrip d d' vote r :
  save_vote vote d = (d', r) →
  r = Ok tt ∧ read_vote d' = (d', Ok (Some vote))
  ∧ ∀ key, key ≠ META_VOTE → t_get (db_meta d') key = t_get (db_meta d) key.
Proof.
  unfold save_vote, read_vote. destruct (write_meta_run META_VOTE vote d) as (bs & Hv & ->).
  intros [= <- <-]. split; [done|]. split.
  - rewrite read_meta_value. f_equal. eapply meta_value_written; [done|]. simpl. apply t_get_insert_eq.
  - intros key Hne. simpl. by apply t_get_insert_ne.
Qed.

(** ** Applying a batch *)

Definition entry_ok (e : Entry) : Prop :=
  match payload e with Normal c => well_typed c | _ => True end.

(** The outcome the specification gives a command. *)
Definition outcome (s : StoreResult Vault) : ApplyResult :=
  match s with
  | Ok _ | Err (Internal _) => ApplyOk
  | Err NotFound => ApplyNotFound
  | Err (Conflict msg) => ApplyConflict msg
  | Err VersionConflict => ApplyVersionConflict
  end.

Fixpoint spec_entries (node_id : Z) (a : Vault) (es : list Entry) : Vault * list ApplyResult :=
  match es with
  | [] => (a, [])
  | e :: es =>
      let '(a1, r) := match payload e with
                      | Normal c => (spec_step node_id a c, outcome (spec_apply node_id c a))
                      | _ => (a, ApplyOk)
                      end in
      let '(a2, rs) := spec_entries node_id a1 es in
      (a2, r :: rs)
  end.

Lemma spec_apply_not_internal node_id c a what : spec_apply node_id c a ≠ Err (Internal what).
Proof.
  intros H. destruct c; simpl in H; revert H;
    unfold row_allowed, spec_restore; run.
Qed.

Lemma apply_normal_refines node_id c d a :
  abstracts d a → well_typed c →
  ∃ d', apply_normal node_id c d = (d', Ok (outcome (spec_apply node_id c a)))
    ∧ abstracts d' (spec_step node_id a c) ∧ db_log d' = db_log d ∧ db_meta d' = db_meta d.
Proof.
  intros Ha Hc. destruct (apply_simulates node_id c d a Ha Hc) as (Hsim & Hl & Hm).
  unfold apply_normal, spec_step. pose proof (spec_apply_not_internal node_id c a) as Hint.
  destruct (apply_command node_id c d) as [d' r]. simpl in *.
  destruct (spec_apply node_id c a) as [a'|e]; destruct Hsim as [-> ?]; [by exists d'|].
  destruct e; try by exists d'. by destruct (Hint what).
Qed.

Lemma apply_entries_refines node_id es : ∀ d a,
  abstracts d a → Forall entry_ok es →
  ∃ d', apply_entries node_id es d = (d', Ok (spec_entries node_id a es).2)
    ∧ abstracts d' (spec_entries node_id a es).1 ∧ db_log d' = db_log d ∧ db_meta d' = db_meta d.
Proof.
  induction es as [|e es IH]; intros d a Ha Hes; [by exists d|].
  apply Forall_cons in Hes as [He Hes]. unfold entry_ok in He. cbn [apply_entries spec_entries].
  assert (∃ d1 a1 r, apply_payload node_id (payload e) d = (d1, Ok r) ∧ abstracts d1 a1
    ∧ match payload e with
      | Normal c => (spec_step node_id a c, outcome (spec_apply node_id c a)) | _ => (a, ApplyOk)
      end = (a1, r) ∧ db_log d1 = db_log d ∧ db_meta d1 = db_meta d) as (d1 & a1 & r & Hp & Ha1 & -> & Hl & Hm).
  { destruct (payload e) as [|c|m]; simpl; [by eexists d, a, _| |by eexists d, a, _].
    destruct (apply_normal_refines node_id c d a Ha He) as (d1 & ? & ? & ?). by eexists d1, _, _. }
  destruct (IH d1 a1 Ha1 Hes) as (d2 & Hrun & Ha2 & Hl2 & Hm2).
  exists d2. unfold mbind, ste_bind. rewrite Hp, Hrun.
  destruct (spec_entries node_id a1 es) as [a2 rs]. simpl in *. split; [done|]. split; [done|].
  split; congruence.
Qed.

Lemma abstracts_meta d a t : abstracts d a → abstracts (put_table META t d) a.
Proof. intros []. by split. Qed.
Lemma abstracts_log d a t : abstracts d a → abstracts (put_table LOG t d) a.
Proof. intros []. by split. Qed.

(** How far the state machine got, after a batch. *)
Definition applied_after (es : list Entry) (before : option LogId * StoredMembership)
    : option LogId * StoredMembership :=
  (match last es with Some e => Some (log_id e) | None => before.1 end,
   default before.2 (last_membership es)).

Lemma last_membership_nil es : last es = None → last_membership es = None.
Proof. by intros ->%last_None. Qed.

Lemma record_progress_run es d before :
  progress (db_meta d) = Ok before →
  ∃ t, record_progress es d = (put_table META t d, Ok tt)
    ∧ progress t = Ok (applied_after es before)
    ∧ ∀ key, key ≠ META_APPLIED → key ≠ META_MEMBERSHIP → t_get t key = t_get (db_meta d) key.
Proof.
  intros Hb. unfold record_progress, applied_after.
  destruct (last es) as [e|] eqn:Hlast.
  2: { exists (db_meta d). rewrite (last_membership_nil _ Hlast). destruct d, before. by split_and!. }
  destruct (serde_roundtrip (log_id e)) as (bs & Hbs & _).
  destruct (last_membership es) as [m|].
  - destruct (serde_roundtrip m) as (mbs & Hm & _).
    exists (t_insert META_MEMBERSHIP mbs (t_insert META_APPLIED bs (db_meta d))).
    unfold_monad. rewrite Hbs. simpl. rewrite Hm. split; [done|]. split.
    + unfold progress. rewrite (meta_value_written META_APPLIED (log_id e) bs)
        by (done || by rewrite t_get_insert_ne, t_get_insert_eq).
      by rewrite (meta_value_written META_MEMBERSHIP m mbs) by (done || apply t_get_insert_eq).
    + intros key H1 H2. by rewrite !t_get_insert_ne.
  - exists (t_insert META_APPLIED bs (db_meta d)). unfold_monad. rewrite Hbs. simpl.
    split; [done|]. split; [|intros key H1 H2; by rewrite t_get_insert_ne].
    unfold progress in *. unfold_monad.
    rewrite (meta_value_written META_APPLIED (log_id e) bs) by (done || apply t_get_insert_eq).
    rewrite (meta_value_row META_MEMBERSHIP _ (db_meta d)) by (by rewrite t_get_insert_ne).
    destruct (meta_value META_APPLIED (db_meta d)); [|done].
    destruct (meta_value META_MEMBERSHIP (db_meta d)); by simplify_eq/=.
Qed.

Lemma apply_batch_run node_id d a es before :
  abstracts d a → Forall entry_ok es → progress (db_meta d) = Ok before →
  ∃ d', RaftStore.apply node_id es d = (d', Ok (spec_entries node_id a es).2)
    ∧ abstracts d' (spec_entries node_id a es).1
    ∧ progress (db_meta d') = Ok (applied_after es before)
    ∧ db_log d' = db_log d
    ∧ ∀ key, key ≠ META_APPLIED → key ≠ META_MEMBERSHIP →
        t_get (db_meta d') key = t_get (db_meta d) key.
Proof.
  intros Ha Hes Hb. destruct (apply_entries_refines node_id es d a Ha Hes) as (d1 & Hrun & Ha1 & Hl & Hm).
  rewrite <- Hm in Hb |- *. destruct (record_progress_run es d1 before Hb) as (t & Hrec & Hst & Hkeep).
  exists (put_table META t d1). unfold RaftStore.apply, transaction. unfold mbind at 1, ste_bind at 1.
  rewrite Hrun. unfold mbind, ste_bind. rewrite Hrec. split; [done|].
  split; [by apply abstracts_meta|done].
Qed.

(** C13. Applying a batch of committed entries does to the store what the
    abstract vault does command by command, answers the caller of each with the
    specified outcome, and records the last entry and the last membership of
    the batch as applied, in one transaction; the log is not touched. *)
Theorem apply_batch_refines node_id d a es before :
  abstracts d a → Forall entry_ok es → applied_state d = (d, Ok before) →
  ∃ d', RaftStore.apply node_id es d = (d', Ok (spec_entries node_id a es).2)
    ∧ abstracts d' (spec_entries node_id a es).1
    ∧ applied_state d' = (d', Ok (applied_after es before))
    ∧ db_log d' = db_log d.
Proof.
  intros Ha Hes Hb. rewrite applied_state_progress in Hb. injection Hb as Hb.
  destruct (apply_batch_run node_id d a es before Ha Hes Hb) as (d' & Hrun & Ha' & Hp & Hl & _).
  exists d'. rewrite applied_state_progress, Hp. done.
Qed.

(** ** The log *)

(** The log table holds the entries of [m], each under its index. *)
Definition log_holds (d : Database) (m : gmap Z Entry) : Prop :=
  stores Some decode (db_log d) m ∧ ∀ k e, m !! k = Some e → index (log_id e) = k.

Lemma decode_slice {T} `{!Serde T} bs (v : T) : decode bs = Ok v ↔ from_slice bs = Some v.
Proof. unfold decode, ok_or. destruct (from_slice bs); naive_solver. Qed.

Lemma append_log es : ∀ d m,
  log_holds d m →
  ∃ t, ste_iter append_entry es d = (put_table LOG t d, Ok tt)
    ∧ log_holds (put_table LOG t d) (foldl (λ m e, <[index (log_id e) := e]> m) m es).
Proof.
  induction es as [|e es IH]; intros d m [Hs Hi]; cbn [ste_iter foldl].
  { exists (db_log d). by destruct d. }
  destruct (serde_roundtrip e) as (bs & He & Hf). apply decode_slice in Hf.
  assert (append_entry e d = (put_table LOG (t_insert (index (log_id e)) bs (db_log d)) d, Ok tt)) as Hstep
    by (unfold append_entry; unfold_monad; by rewrite He).
  unfold mbind, ste_bind. rewrite Hstep.
  destruct (IH (put_table LOG (t_insert (index (log_id e)) bs (db_log d)) d)
    (<[index (log_id e) := e]> m)) as (t & Hrun & Ht).
  - split; [by apply stores_insert; [apply some_key_inj|..]|].
    intros k e'. destruct (decide (index (log_id e) = k)) as [<-|].
    + rewrite lookup_insert_eq. by intros [= <-].
    + rewrite lookup_insert_ne by done. apply Hi.
  - exists t. by destruct d.
Qed.

Lemma log_filter d m (P : Z → Prop) `{PD : !∀ k, Decision (P k)} ks :
  log_holds d m → (∀ k, k ∈ ks ↔ is_Some (t_get (db_log d) k) ∧ ¬ P k) →
  log_holds (put_table LOG (t_remove_all ks (db_log d)) d) (filter (λ ke, P ke.1) m).
Proof.
  intros [Hs Hi] Hks. split.
  - simpl. apply stores_remove_all; [|done]. intros k row b e Hrow [= <-] _ _. simpl.
    rewrite Hks, Hrow. naive_solver.
  - intros k e [He _]%map_lookup_filter_Some. by apply Hi.
Qed.

Lemma range_keys (t : table Z) p k : k ∈ (t_range p t).*1 ↔ is_Some (t_get t k) ∧ p k = true.
Proof.
  rewrite list_elem_of_fmap. split.
  - intros ([k' v] & -> & [Hp Hv]%elem_of_t_range). eauto.
  - intros [[v Hv] Hp]. exists (k, v). by rewrite elem_of_t_range.
Qed.

Lemma mapM_decoded (rows : list (Z * bytes)) (out : list Entry) :
  Forall2 (λ row e, decode row.2 = Ok e) rows out →
  mapM (λ row, ok_or ReadError (from_slice (A := Entry) row.2)) rows = Ok out.
Proof.
  induction 1 as [|[k row] e rows out Hd _ IH]; [done|]. simpl in *. apply decode_slice in Hd.
  rewrite Hd. simpl. rewrite IH. done.
Qed.

Lemma get_entries d m p :
  log_holds d m →
  ∃ out, try_get_log_entries p d = (d, Ok out)
    ∧ enumerates m (λ k, p k = true) (λ _, true) (λ e, index (log_id e)) out
    ∧ StronglySorted Z.lt ((λ e, index (log_id e)) <$> out).
Proof.
  intros [Hs Hi]. unfold try_get_log_entries, mbind, ste_bind, lift_result. simpl.
  destruct (rows_decoded Some (λ e, index (log_id e)) (db_log d) m (t_range p (db_log d)) Hs) as [out Hout].
  { intros k row [_ Hrow]%elem_of_t_range. split; [done|]. intros b e [= ->] He. by apply Hi. }
  exists out. rewrite (mapM_decoded _ out)
    by (eapply Forall2_impl; [done|]; by intros ?? [? _]).
  split; [done|]. assert ((λ e, index (log_id e)) <$> out = (t_range p (db_log d)).*1) as Hkeys.
  { clear Hs Hi. induction Hout as [|[k row] e rows out (_ & [= Hk] & _) _ IH]; [done|].
    rewrite !fmap_cons. f_equal; [by rewrite Hk|done]. }
  assert (StronglySorted Z.lt (t_range p (db_log d)).*1) as Hsorted.
  { apply (StronglySorted_fmap _ (λ x y : Z * bytes, strict key_le x.1 y.1)); [|apply t_range_sorted].
    intros x y [Hle Hnot]. simpl in *. lia. }
  rewrite Hkeys. split; [|done]. split.
  - intros e. split.
    + intros [i Hx]%list_elem_of_lookup.
      destruct (Forall2_lookup_r _ _ _ _ _ Hout Hx) as ([k row] & Hrow & _ & [= ->] & He).
      apply list_elem_of_lookup_2, elem_of_t_range in Hrow as [? _]. eauto.
    + intros (k & He & Hp & _). destruct (stores_entry _ _ _ _ _ _ Hs He) as (k' & row & [= ->] & Hrow & Hd).
      assert ((k, row) ∈ t_range p (db_log d)) as [i Hx]%list_elem_of_lookup by by apply elem_of_t_range.
      destruct (Forall2_lookup_l _ _ _ _ _ Hout Hx) as (e' & He' & Hd' & _). simpl in Hd'.
      rewrite Hd in Hd'. simplify_eq. by eapply list_elem_of_lookup_2.
  - rewrite Hkeys. apply strict_keys_nodup, t_range_sorted.
Qed.

Lemma remove_range_log d m p (P : Z → Prop) `{PD : !∀ k, Decision (P k)} :
  log_holds d m → (∀ k, p k = true ↔ ¬ P k) →
  log_holds (put_table LOG (t_remove_all (t_range p (db_log d)).*1 (db_log d)) d) (filter (λ ke, P ke.1) m).
Proof. intros Hl Hp. apply log_filter; [done|]. intros k. by rewrite range_keys, Hp. Qed.

(** C35. The log table implements a finite map from indices to entries:
    appending writes the entries under their indices, truncating drops exactly
    the entries from the given index on, purging exactly those up to it and
    records the purge, and a read returns the entries of the range in order. *)
Theorem log_refines d m :
  log_holds d m →
  (∀ es, ∃ d', append es d = (d', Ok tt)
     ∧ log_holds d' (foldl (λ m e, <[index (log_id e) := e]> m) m es))
  ∧ (∀ id, ∃ d', truncate id d = (d', Ok tt)
     ∧ log_holds d' (filter (λ ke, ke.1 < index id)%Z m))
  ∧ (∀ id, ∃ d', purge id d = (d', Ok tt)
     ∧ log_holds d' (filter (λ ke, index id < ke.1)%Z m)
     ∧ read_meta META_PURGED d' = (d', Ok (Some id)))
  ∧ ∀ p, ∃ out, try_get_log_entries p d = (d, Ok out)
     ∧ enumerates m (λ k, p k = true) (λ _, true) (λ e, index (log_id e)) out
     ∧ StronglySorted Z.lt ((λ e, index (log_id e)) <$> out).
Proof.
  intros Hl. split; [|split; [|split]].
  - intros es. destruct (append_log es d m Hl) as (t & Hrun & Ht). exists (put_table LOG t d).
    unfold append, transaction. by rewrite Hrun.
  - intros id. eexists. split; [done|]. simpl.
    destruct (remove_range_log d m (λ k, index id <=? k)%Z (λ k, k < index id)%Z Hl) as [? ?]; [|by split].
    intros k. rewrite Z.leb_le. lia.
  - intros id. unfold purge. unfold mbind at 1, ste_bind at 1. simpl.
    match goal with |- context [write_meta META_PURGED id ?d1] =>
      destruct (write_meta_run META_PURGED id d1) as (bs & Hbs & ->) end.
    eexists. split; [done|]. split.
    + destruct (remove_range_log d m (λ k, k <=? index id)%Z (λ k, index id < k)%Z Hl) as [? ?]; [|by split].
      intros k. rewrite Z.leb_le. lia.
    + rewrite read_meta_value. f_equal. eapply meta_value_written; [done|]. simpl. apply t_get_insert_eq.
  - intros p. by apply get_entries.
Qed.

(** ** Start-up repair *)

Lemma normalize_scan_truncating floor e keys : normalize_scan floor e true keys = keys.
Proof. induction keys as [|k keys IH]; simpl; [done|]. by rewrite IH. Qed.

Lemma normalize_scan_sub floor e b keys k : k ∈ normalize_scan floor e b keys → k ∈ keys.
Proof.
  revert e b. induction keys as [|x keys IH]; intros e b; simpl; [done|].
  repeat case_match; rewrite ?elem_of_cons; naive_solver.
Qed.

(** The scan keeps the run of indices from the expected one to the first gap. *)
Lemma normalize_scan_spec floor keys : ∀ e,
  StronglySorted Z.lt keys → Forall (λ k, 0 ≤ k ≤ u64_max)%Z keys →
  match floor with Some f => (f < e)%Z | None => True end → (0 ≤ e)%Z →
  Forall (λ k, match floor with Some f => (k ≤ f)%Z | None => False end ∨ (e ≤ k)%Z) keys →
  ∃ n, (0 ≤ n)%Z
    ∧ (∀ k, k ∈ keys → k ∈ normalize_scan floor e false keys ↔ ¬ (e ≤ k < e + n)%Z)
    ∧ (∀ k, (e ≤ k < e + n)%Z → k ∈ keys) ∧ (e + n)%Z ∉ keys.
Proof.
  induction keys as [|x keys IH]; intros e Hs Hb Hf He Hge; simpl.
  { exists 0%Z. set_solver by lia. }
  apply StronglySorted_inv in Hs as [Hs Hall]. apply Forall_cons in Hb as [Hx Hb].
  apply Forall_cons in Hge as [Hxe Hge]. rewrite Forall_forall in Hall.
  destruct (match floor with Some f => (x <=? f)%Z | None => false end) eqn:Hfl.
  - destruct (IH e Hs Hb Hf He Hge) as (n & Hn & Hdel & Hkept & Hgap).
    assert (x < e)%Z by (destruct floor; [apply Z.leb_le in Hfl; lia|done]).
    exists n. split; [done|]. split; [|split].
    + intros k [->|Hk]%elem_of_cons; rewrite elem_of_cons; [naive_solver lia|].
      rewrite <- (Hdel k Hk). specialize (Hall k Hk). naive_solver lia.
    + intros k Hk. right. by apply Hkept.
    + rewrite elem_of_cons. intros [?|?]; [lia|done].
  - assert (e ≤ x)%Z by (destruct Hxe as [Hxe|]; [destruct floor; [apply Z.leb_gt in Hfl; lia|done]|done]).
    destruct (Z.eqb_spec x e) as [->|Hne].
    + destruct (decide (e = u64_max)) as [Hlast|Hlast].
      { (* the greatest index of all: nothing follows it *)
        assert (keys = []) as ->.
        { apply elem_of_nil_inv. intros k Hk. specialize (Hall k Hk). rewrite Forall_forall in Hb.
          specialize (Hb k Hk). lia. }
        exists 1%Z. simpl. set_solver by lia. }
      rewrite (wrap_u64_id (e + 1)) by (unfold_ints; lia).
      destruct (IH (e + 1)%Z Hs Hb) as (n & Hn & Hdel & Hkept & Hgap); [destruct floor; lia|lia| |].
      { rewrite Forall_forall in Hge |- *. intros k Hk. specialize (Hall k Hk). right. lia. }
      exists (n + 1)%Z. split; [lia|]. split; [|split].
      * intros k [->|Hk]%elem_of_cons.
        -- split; [|lia]. intros Hin%normalize_scan_sub. specialize (Hall _ Hin). lia.
        -- rewrite (Hdel k Hk). specialize (Hall k Hk). lia.
      * intros k Hk. destruct (decide (k = e)) as [->|]; [by left|]. right. apply Hkept. lia.
      * replace (e + (n + 1))%Z with (e + 1 + n)%Z by lia. rewrite elem_of_cons. intros [?|?]; [lia|done].
    + exists 0%Z. rewrite normalize_scan_truncating. split; [lia|]. split; [|split; [intros; lia|]].
      * intros k [->|Hk]%elem_of_cons; rewrite elem_of_cons; [split; [lia|by left]|split; [lia|by right]].
      * rewrite elem_of_cons. intros [?|Hk]; [lia|]. specialize (Hall _ Hk). lia.
Qed.

Lemma log_keys_sorted d : StronglySorted Z.lt (t_iter (db_log d)).*1.
Proof.
  apply (StronglySorted_fmap _ (λ x y : Z * bytes, strict key_le x.1 y.1)); [|apply t_iter_sorted].
  intros x y [Hle Hnot]. simpl in *. lia.
Qed.

Definition log_indices_ok (t : table Z) : Prop := ∀ k, is_Some (t_get t k) → (0 ≤ k ≤ u64_max)%Z.

(** Where the log should start. *)
Definition log_start (floor : option Z) : Z :=
  match floor with Some f => sat_u64 (f + 1) | None => 0 end.

Lemma normalize_keys (t : table Z) floor :
  log_indices_ok t → match floor with Some f => (0 ≤ f < u64_max)%Z | None => True end →
  StronglySorted Z.lt (t_iter t).*1 →
  ∃ n, (0 ≤ n)%Z
    ∧ (∀ k, is_Some (t_get t k) →
         k ∈ normalize_scan floor (log_start floor) false (t_iter t).*1
         ↔ ¬ (log_start floor ≤ k < log_start floor + n)%Z)
    ∧ (∀ k, (log_start floor ≤ k < log_start floor + n)%Z → is_Some (t_get t k))
    ∧ t_get t (log_start floor + n)%Z = None.
Proof.
  intros Hok Hf Hs. assert (∀ k, k ∈ (t_iter t).*1 ↔ is_Some (t_get t k)) as Hk by apply elem_of_t_keys.
  assert (0 ≤ log_start floor)%Z by (unfold log_start, sat_u64; destruct floor; unfold_ints; lia).
  destruct (normalize_scan_spec floor (t_iter t).*1 (log_start floor)) as (n & Hn & H1 & H2 & H3); [done|..].
  - apply Forall_forall. intros k Hin. by apply Hok, Hk.
  - unfold log_start, sat_u64. destruct floor; [unfold_ints; lia|done].
  - done.
  - apply Forall_forall. intros k Hin%Hk%Hok. unfold log_start, sat_u64.
    destruct floor; unfold_ints; [lia|right; lia].
  - exists n. split; [done|]. split; [intros k Hin; apply H1; by apply Hk|].
    split; [intros k Hin; by apply Hk, H2|]. apply eq_None_not_Some. by rewrite <- Hk.
Qed.

(** Once the log is contiguous from its start, the scan deletes nothing. *)
Lemma normalize_keys_done (t : table Z) floor n :
  log_indices_ok t → match floor with Some f => (0 ≤ f < u64_max)%Z | None => True end →
  StronglySorted Z.lt (t_iter t).*1 →
  (∀ k, is_Some (t_get t k) ↔ (log_start floor ≤ k < log_start floor + n)%Z) →
  normalize_scan floor (log_start floor) false (t_iter t).*1 = [].
Proof.
  intros Hok Hf Hs Hrun. destruct (normalize_keys t floor Hok Hf Hs) as (n' & Hn' & H1 & H2 & H3).
  apply elem_of_nil_inv. intros k Hin. pose proof (normalize_scan_sub _ _ _ _ _ Hin) as Hk.
  apply elem_of_t_keys in Hk. apply (H1 k Hk) in Hin. apply Hin. apply Hrun in Hk. split; [lia|].
  destruct (decide (n' < n)%Z) as [Hlt|]; [|lia].
  assert (is_Some (t_get t (log_start floor + n')%Z)) as [v Hv] by (apply Hrun; lia). congruence.
Qed.

(** The file after the repair, given what the metadata says and the encoding
    [bs] of the applied id. *)
Definition normalized (applied purged : option LogId) (bs : bytes) (d : Database) : Database :=
  let floor := normalize_floor applied purged in
  let dels := normalize_scan floor (log_start floor) false (t_iter (db_log d)).*1 in
  put_table META (if advance_purged applied purged then t_insert META_PURGED bs (db_meta d) else db_meta d)
    (put_table LOG (t_remove_all dels (db_log d)) d).

Lemma normalize_run d applied purged :
  meta_value META_APPLIED (db_meta d) = Ok applied → meta_value META_PURGED (db_meta d) = Ok purged →
  ∃ bs, (match applied with Some i => to_vec i = Some bs | None => True end)
    ∧ normalize_raft_log d = (normalized applied purged bs d, Ok tt).
Proof.
  intros Hap Hpu. unfold normalize_raft_log, normalized. cbv zeta. set (floor := normalize_floor applied purged).
  assert (∃ bs, match applied with Some i => to_vec i = Some bs | None => True end) as [bs Hbs].
  { destruct applied as [i|]; [|by exists []]. destruct (serde_roundtrip i) as (bs & ? & _). eauto. }
  exists bs. split; [done|]. unfold mbind, ste_bind. rewrite !read_meta_value, Hap, Hpu. cbn [iter].
  unfold read_state. fold floor. fold (log_start floor). change (t_iter (open_table LOG d)) with (t_iter (db_log d)).
  set (dels := normalize_scan _ _ _ _). case_bool_decide as Hdel; simpl.
  - rewrite Hdel. destruct (advance_purged applied purged) eqn:Hadv; simpl.
    + destruct applied as [i|]; [|done]. unfold write_meta, transaction. unfold_monad. by rewrite Hbs.
    + by destruct d.
  - destruct (advance_purged applied purged) eqn:Hadv; simpl; [|done].
    destruct applied as [i|]; [|done]. unfold write_meta, transaction. unfold_monad. by rewrite Hbs.
Qed.

(** Its log: what is kept, and that nothing is left to remove. *)
Lemma normalized_log d applied purged bs :
  let floor := normalize_floor applied purged in
  let start := log_start floor in
  let d' := normalized applied purged bs d in
  log_indices_ok (db_log d) → match floor with Some f => (0 ≤ f < u64_max)%Z | None => True end →
  ∃ n, (0 ≤ n)%Z ∧ (∀ k, t_get (db_log d') k
         = if decide (start ≤ k < start + n)%Z then t_get (db_log d) k else None)
    ∧ (∀ k, (start ≤ k < start + n)%Z → is_Some (t_get (db_log d) k))
    ∧ t_get (db_log d) (start + n)%Z = None
    ∧ ∀ d2, db_log d2 = db_log d' → normalize_scan floor start false (t_iter (db_log d2)).*1 = [].
Proof.
  intros floor start d' Hok Hf.
  destruct (normalize_keys (db_log d) floor Hok Hf (log_keys_sorted d)) as (n & Hn & H1 & H2 & H3).
  assert (∀ k, t_get (db_log d') k = if decide (start ≤ k < start + n)%Z then t_get (db_log d) k else None) as Hlog.
  { intros k. unfold d', normalized. simpl. rewrite t_get_remove_all. destruct (t_get (db_log d) k) as [v|] eqn:Hv.
    - specialize (H1 k ltac:(eauto)). fold floor start in H1 |- *. repeat case_decide; try done; tauto.
    - by repeat case_decide. }
  exists n. do 4 (split; [done|]). intros d2 Hd2.
  apply (normalize_keys_done _ floor n); [|done|apply log_keys_sorted|]; rewrite Hd2.
  - intros k. rewrite Hlog. case_decide; [apply Hok|by intros []].
  - intros k. rewrite Hlog. case_decide as Hk; [|split; [by intros []|done]]. split; [done|]. by apply H2.
Qed.

(** Its metadata. *)
Lemma normalized_meta d applied purged bs :
  let d' := normalized applied purged bs d in
  meta_value META_PURGED (db_meta d) = Ok purged →
  match applied with Some i => to_vec i = Some bs | None => True end →
  meta_value META_PURGED (db_meta d') = Ok (if advance_purged applied purged then applied else purged)
  ∧ ∀ key, key ≠ META_PURGED → t_get (db_meta d') key = t_get (db_meta d) key.
Proof.
  intros d' Hpu Hbs. unfold d', normalized. simpl. destruct (advance_purged applied purged) eqn:Hadv; [|done].
  destruct applied as [i|]; [|done]. split.
  - eapply meta_value_written; [done|apply t_get_insert_eq].
  - intros key Hne. by apply t_get_insert_ne.
Qed.

Lemma normalize_floor_after applied purged :
  normalize_floor applied (if advance_purged applied purged then applied else purged)
  = normalize_floor applied purged.
Proof. by destruct applied, purged. Qed.

Lemma advance_purged_after applied purged :
  advance_purged applied (if advance_purged applied purged then applied else purged) = false.
Proof.
  destruct applied as [i|], purged as [p|]; simpl; try done; [|lia].
  destruct (Z.ltb_spec (index p) (index i)); simpl; lia.
Qed.

(** A second repair of a repaired file finds nothing to do. *)
Lemma normalized_again d applied purged bs :
  let floor := normalize_floor applied purged in
  let d' := normalized applied purged bs d in
  meta_value META_APPLIED (db_meta d) = Ok applied → meta_value META_PURGED (db_meta d) = Ok purged →
  match applied with Some i => to_vec i = Some bs | None => True end →
  normalize_scan floor (log_start floor) false (t_iter (db_log d')).*1 = [] →
  normalize_raft_log d' = (d', Ok tt).
Proof.
  intros floor d' Hap Hpu Hbs Hdone. destruct (normalized_meta d applied purged bs Hpu Hbs) as [Hmeta Hother].
  destruct (normalize_run d' applied (if advance_purged applied purged then applied else purged))
    as (bs2 & _ & ->); [by rewrite <- Hap; apply meta_value_row, Hother|done|].
  unfold normalized at 1. cbv zeta. rewrite normalize_floor_after, advance_purged_after. fold floor.
  by rewrite Hdone.
Qed.

(** C16. Start-up repair leaves a log openraft accepts: exactly the entries
    from just above the last applied (or purged) index up to the first gap are
    kept, unchanged: the [n] entries from there on are all in the log, and the
    one after them is not.  The recorded purge point catches up with the applied
    one, and no other metadata and no other table is touched.  Repairing again
    changes nothing, and a crash between its two transactions is repaired to the
    same state. *)
Theorem normalize_repairs d applied purged :
  let floor := normalize_floor applied purged in
  let start := log_start floor in
  meta_value META_APPLIED (db_meta d) = Ok applied → meta_value META_PURGED (db_meta d) = Ok purged →
  log_indices_ok (db_log d) → match floor with Some f => (0 ≤ f < u64_max)%Z | None => True end →
  ∃ d' n, normalize_raft_log d = (d', Ok tt) ∧ (0 ≤ n)%Z
    ∧ (∀ k, t_get (db_log d') k
         = if decide (start ≤ k < start + n)%Z then t_get (db_log d) k else None)
    ∧ (∀ k, (start ≤ k < start + n)%Z → is_Some (t_get (db_log d) k))
    ∧ t_get (db_log d) (start + n)%Z = None
    ∧ meta_value META_PURGED (db_meta d') = Ok (if advance_purged applied purged then applied else purged)
    ∧ (∀ key, key ≠ META_PURGED → t_get (db_meta d') key = t_get (db_meta d) key)
    ∧ d' = put_table META (db_meta d') (put_table LOG (db_log d') d)
    ∧ normalize_raft_log d' = (d', Ok tt)
    ∧ normalize_raft_log (put_table LOG (db_log d') d) = (d', Ok tt).
Proof.
  intros floor start Hap Hpu Hok Hf. destruct (normalize_run d applied purged Hap Hpu) as (bs & Hbs & Hrun).
  destruct (normalized_log d applied purged bs Hok Hf) as (n & Hn & Hlog & Hkept & Hgap & Hdone).
  destruct (normalized_meta d applied purged bs Hpu Hbs) as [Hmeta Hother].
  set (d' := normalized applied purged bs d) in *. exists d', n. split_and!; try done.
  - by apply normalized_again, Hdone.
  - destruct (normalize_run (put_table LOG (db_log d') d) applied purged Hap Hpu) as (bs2 & Hbs2 & ->).
    unfold normalized. cbv zeta. rewrite (Hdone (put_table LOG (db_log d') d)) by done.
    unfold d', normalized. simpl. destruct applied as [i|]; [|done]. by simplify_eq.
Qed.

(** ** Snapshots *)

Definition snapshot_data (d : Database) (at_ : option LogId * StoredMembership) : SnapshotData := {|
  sd_secrets := t_iter (db_secrets d); sd_versions := t_iter (db_versions d);
  sd_roles := t_iter (db_roles d); sd_tokens := t_iter (db_tokens d);
  sd_tokens_by_name := t_iter (db_tokens_by_name d); sd_kms_rewrap := t_iter (db_kms_rewrap d);
  sd_last_applied := at_.1; sd_membership := at_.2 |}.

Lemma build_snapshot_run d at_ :
  progress (db_meta d) = Ok at_ →
  ∃ bs enc, to_vec (snapshot_data d at_) = Some bs ∧ to_vec bs = Some enc
    ∧ build_snapshot d = (put_table META (t_insert META_SNAPSHOT enc (db_meta d)) d,
        Ok {| snap_meta := snapshot_meta at_.1 at_.2; snap_bytes := bs |}).
Proof.
  intros Hp. destruct (serde_roundtrip (snapshot_data d at_)) as (bs & Hbs & _).
  destruct (serde_roundtrip bs) as (enc & Henc & _). exists bs, enc. split; [done|]. split; [done|].
  unfold build_snapshot, mbind, ste_bind. rewrite !read_meta_value. unfold progress in Hp. unfold_monad.
  destruct (meta_value META_APPLIED (db_meta d)) as [la|]; [|done]. rewrite ?read_meta_value.
  destruct (meta_value META_MEMBERSHIP (db_meta d)) as [mb|]; [|done]. simplify_eq/=.
  unfold snapshot_data in Hbs. simpl in Hbs. rewrite Hbs. simpl.
  unfold write_meta, transaction. unfold_monad. by rewrite Henc.
Qed.

(** What the receiving node checks. *)
Definition snapshot_ok (data : SnapshotData) (last : option LogId) : Prop :=
  (∀ row, row ∈ sd_secrets data → is_valid_secret_name row.1 = true)
  ∧ (∀ row, row ∈ sd_versions data → ∃ name v, split_version_key row.1 = Some (name, v)
       ∧ is_valid_secret_name name = true ∧ (1 ≤ v)%Z)
  ∧ match last with Some l => (index l ≤ MAX_PLAUSIBLE_LOG_INDEX)%Z | None => True end.

Lemma snapshot_bad_version_spec row :
  snapshot_bad_version row = None ↔
  ∃ name v, split_version_key row.1 = Some (name, v) ∧ is_valid_secret_name name = true ∧ (1 ≤ v)%Z.
Proof.
  unfold snapshot_bad_version, is_valid_secret_version, MIN_SECRET_VERSION.
  destruct (split_version_key row.1) as [[n v]|]; [|by split; [|intros (? & ? & ? & _)]].
  destruct (is_valid_secret_name n) eqn:Hn, (Z.leb_spec 1 v); simpl; split; try done;
    try (intros (n' & v' & [= <- <-] & ? & ?); (congruence || lia)). by exists n, v.
Qed.

Lemma check_snapshot_spec data meta :
  check_snapshot_meta meta = Ok tt ∧ check_snapshot_rows data = Ok tt
  ↔ snapshot_ok data (meta_last_log_id meta).
Proof.
  unfold snapshot_ok, check_snapshot_rows. unfold_monad.
  assert (check_snapshot_meta meta = Ok tt ↔ match meta_last_log_id meta with
    Some l => (index l ≤ MAX_PLAUSIBLE_LOG_INDEX)%Z | None => True end) as ->.
  { unfold check_snapshot_meta. destruct (meta_last_log_id meta) as [l|]; [|done].
    destruct (Z.ltb_spec MAX_PLAUSIBLE_LOG_INDEX (index l)); naive_solver lia. }
  assert ((∀ row, row ∈ sd_secrets data → is_valid_secret_name row.1 = true)
    ↔ check_rows snapshot_bad_secret (sd_secrets data) = Ok tt) as ->.
  { rewrite check_rows_ok. unfold snapshot_bad_secret. apply forall_proper. intros row.
    destruct (is_valid_secret_name row.1); naive_solver. }
  assert ((∀ row, row ∈ sd_versions data → ∃ name v, split_version_key row.1 = Some (name, v)
      ∧ is_valid_secret_name name = true ∧ (1 ≤ v)%Z)
    ↔ check_rows snapshot_bad_version (sd_versions data) = Ok tt) as ->.
  { rewrite check_rows_ok. by setoid_rewrite snapshot_bad_version_spec. }
  destruct (check_rows snapshot_bad_secret (sd_secrets data)) as [[]|]; naive_solver.
Qed.

Lemma install_run data meta bs d :
  from_slice bs = Some data → snapshot_ok data (meta_last_log_id meta) →
  ∃ d', install_snapshot meta bs d = (d', Ok tt)
    ∧ db_secrets d' = t_insert_all (sd_secrets data) (t_remove_all (t_keys (db_secrets d)) (db_secrets d))
    ∧ db_versions d' = t_insert_all (sd_versions data) (t_remove_all (t_keys (db_versions d)) (db_versions d))
    ∧ db_roles d' = t_insert_all (sd_roles data) (t_remove_all (t_keys (db_roles d)) (db_roles d))
    ∧ db_tokens d' = t_insert_all (sd_tokens data) (t_remove_all (t_keys (db_tokens d)) (db_tokens d))
    ∧ db_tokens_by_name d' = t_insert_all (sd_tokens_by_name data)
        (t_remove_all (t_keys (db_tokens_by_name d)) (db_tokens_by_name d))
    ∧ db_kms_rewrap d' = t_insert_all (sd_kms_rewrap data)
        (t_remove_all (t_keys (db_kms_rewrap d)) (db_kms_rewrap d))
    ∧ progress (db_meta d') = Ok (meta_last_log_id meta, meta_last_membership meta)
    ∧ (∀ k, t_get (db_log d') k = match meta_last_log_id meta with
         | Some l => if (k <=? index l)%Z then None else t_get (db_log d) k
         | None => t_get (db_log d) k
         end)
    ∧ db_audit d' = db_audit d ∧ db_lockouts d' = db_lockouts d.
Proof.
  intros Hbs Hok. apply check_snapshot_spec in Hok as [Hm Hr].
  destruct (serde_roundtrip (meta_last_membership meta)) as (mbs & Hmbs & _).
  unfold install_snapshot. unfold_monad. rewrite Hbs, Hm, Hr.
  unfold restore_str_table, clear_bytes_table, transaction. unfold_monad. simpl.
  destruct (meta_last_log_id meta) as [l|]; simpl.
  - destruct (serde_roundtrip l) as (lbs & Hlbs & _). rewrite Hlbs. simpl. rewrite Hmbs. simpl.
    eexists. split; [reflexivity|]. simpl. split_and!; try done.
    + unfold progress. rewrite (meta_value_written META_APPLIED l lbs) by
        (done || by rewrite t_get_insert_ne, t_get_insert_ne, t_get_insert_eq by done).
      by rewrite (meta_value_written META_MEMBERSHIP (meta_last_membership meta) mbs)
        by (done || apply t_get_insert_eq).
    + intros k. rewrite t_get_remove_all. destruct (Z.leb_spec k (index l)) as [Hle|Hgt].
      * destruct (t_get (db_log d) k) eqn:E; [|by case_decide].
        rewrite decide_True; [done|]. apply range_keys. rewrite E, Z.leb_le. eauto.
      * rewrite decide_False; [done|]. intros [_ Hk%Z.leb_le]%range_keys. lia.
  - rewrite Hmbs. simpl. eexists. split; [reflexivity|]. simpl. split_and!; try done.
    unfold progress. rewrite (meta_value_absent META_APPLIED) by (rewrite t_get_insert_ne by done; apply t_get_remove_eq).
    simpl. by rewrite (meta_value_written META_MEMBERSHIP (meta_last_membership meta) mbs)
      by (done || apply t_get_insert_eq).
Qed.

(** A snapshot of [d] gives the receiving node the replicated rows of [d]. *)
Lemma install_snapshot_data d at_ meta bs d0 d' :
  to_vec (snapshot_data d at_) = Some bs → install_snapshot meta bs d0 = (d', Ok tt) →
  snapshot_ok (snapshot_data d at_) (meta_last_log_id meta)
  ∧ agree d' d
  ∧ applied_state d' = (d', Ok (meta_last_log_id meta, meta_last_membership meta))
  ∧ (∀ k, t_get (db_log d') k = match meta_last_log_id meta with
       | Some l => if (k <=? index l)%Z then None else t_get (db_log d0) k
       | None => t_get (db_log d0) k
       end)
  ∧ db_audit d' = db_audit d0 ∧ db_lockouts d' = db_lockouts d0.
Proof.
  intros Hbs Hins. destruct (serde_roundtrip (snapshot_data d at_)) as (bs' & Hbs' & Hf).
  rewrite Hbs in Hbs'. simplify_eq.
  assert (snapshot_ok (snapshot_data d at_) (meta_last_log_id meta)) as Hok.
  { apply check_snapshot_spec. unfold install_snapshot in Hins. unfold_monad. rewrite Hf in Hins.
    destruct (check_snapshot_meta meta) as [[]|]; [|done]. split; [done|].
    by destruct (check_snapshot_rows _) as [[]|]. }
  destruct (install_run _ meta bs' d0 Hf Hok) as (d2 & Hrun & Hs & Hv & Hr & Ht & Hn & Hk & Hp & Hl & Ha & Hlo).
  rewrite Hins in Hrun. simplify_eq. split; [done|]. split.
  { split; rewrite ?Hs, ?Hv, ?Hr, ?Ht, ?Hn, ?Hk; apply t_copy. }
  rewrite applied_state_progress, Hp. done.
Qed.

(** C15. A snapshot carries the replicated state.  Installing on any node a
    snapshot just built, with nothing applied on the builder meanwhile, either
    succeeds, and then the node holds exactly the builder's replicated rows,
    knows how far they reach, drops the log entries they cover and keeps its own
    audit log and lockouts; or it is refused, because a row or the index is not
    plausible, and changes nothing. *)
Theorem snapshot_roundtrip d d1 at_ snap d0 :
  applied_state d = (d, Ok at_) → build_snapshot d = (d1, Ok snap) →
  match install_snapshot (snap_meta snap) (snap_bytes snap) d0 with
  | (d', Ok _) =>
      snapshot_ok (snapshot_data d at_) at_.1
      ∧ agree d' d ∧ applied_state d' = (d', Ok at_)
      ∧ (∀ k, t_get (db_log d') k = match at_.1 with
           | Some l => if (k <=? index l)%Z then None else t_get (db_log d0) k
           | None => t_get (db_log d0) k
           end)
      ∧ db_audit d' = db_audit d0 ∧ db_lockouts d' = db_lockouts d0
  | (d', Err _) => ¬ snapshot_ok (snapshot_data d at_) at_.1 ∧ d' = d0
  end.
Proof.
  intros Hat Hb. rewrite applied_state_progress in Hat. injection Hat as Hat.
  destruct (build_snapshot_run d at_ Hat) as (bs & enc & Hbs & _ & Hrun). rewrite Hb in Hrun. simplify_eq/=.
  destruct (install_snapshot (snapshot_meta at_.1 at_.2) bs d0) as [d' [[]|e]] eqn:Hins.
  - destruct (install_snapshot_data _ _ _ _ _ _ Hbs Hins) as (? & ? & Hst & ?). simpl in *.
    by destruct at_.
  - assert (¬ snapshot_ok (snapshot_data d at_) at_.1) as Hno.
    { intros Hok. destruct (serde_roundtrip (snapshot_data d at_)) as (bs' & Hbs' & Hf).
      rewrite Hbs in Hbs'. simplify_eq.
      destruct (install_run _ (snapshot_meta at_.1 at_.2) bs' d0 Hf Hok) as (d2 & Hrun & _). congruence. }
    split; [done|]. revert Hins. unfold install_snapshot, transaction. unfold_monad.
    repeat (case_match; simplify_eq/=); congruence.
Qed.

(** C37. The snapshot a node offers to others can be stale but labelled as
    current.  After a snapshot is built and further entries are applied,
    [get_current_snapshot] still returns the old rows but with the new last
    log id, so that a node which installs it claims to have applied entries
    whose effect it does not have. *)
Theorem current_snapshot_stale node_id d a at_ d1 snap es e d2 rs :
  abstracts d a → applied_state d = (d, Ok at_) → build_snapshot d = (d1, Ok snap) →
  Forall entry_ok es → last es = Some e → RaftStore.apply node_id es d1 = (d2, Ok rs) →
  ∃ snap2, get_current_snapshot d2 = (d2, Ok (Some snap2))
    ∧ snap_bytes snap2 = snap_bytes snap
    ∧ meta_last_log_id (snap_meta snap2) = Some (log_id e)
    ∧ ∀ d0 d0', install_snapshot (snap_meta snap2) (snap_bytes snap2) d0 = (d0', Ok tt) →
        agree d0' d
        ∧ ∃ membership, applied_state d0' = (d0', Ok (Some (log_id e), membership)).
Proof.
  intros Ha Hat Hb Hes Hlast Hap. rewrite applied_state_progress in Hat. injection Hat as Hat.
  destruct (build_snapshot_run d at_ Hat) as (bs & enc & Hbs & Henc & Hrun). rewrite Hb in Hrun. injection Hrun as Hd1 ->.
  set (d1' := put_table META (t_insert META_SNAPSHOT enc (db_meta d)) d). subst d1.
  change (RaftStore.apply node_id es d1' = (d2, Ok rs)) in Hap.
  assert (progress (db_meta d1') = Ok at_) as Hat1.
  { rewrite <- Hat. unfold progress. simpl.
    by rewrite !(meta_value_row _ (t_insert META_SNAPSHOT enc (db_meta d)) (db_meta d)) by (by apply t_get_insert_ne). }
  destruct (apply_batch_run node_id d1' a es at_ (abstracts_meta _ _ _ Ha) Hes Hat1)
    as (d2' & Hrun & _ & Hp & _ & Hkeep). rewrite Hap in Hrun. simplify_eq.
  assert (meta_value META_SNAPSHOT (db_meta d2') = Ok (Some bs)) as Hsnap.
  { eapply meta_value_written; [done|]. rewrite Hkeep by done. simpl. apply t_get_insert_eq. }
  exists {| snap_meta := snapshot_meta (Some (log_id e)) (applied_after es at_).2; snap_bytes := bs |}.
  split.
  - unfold get_current_snapshot, mbind, ste_bind. rewrite read_meta_value, Hsnap, !read_meta_value.
    unfold progress in Hp. unfold_monad. destruct (meta_value META_APPLIED (db_meta d2')); [|done].
    rewrite ?read_meta_value. destruct (meta_value META_MEMBERSHIP (db_meta d2')); [|done].
    unfold applied_after in Hp. rewrite Hlast in Hp. injection Hp as -> Hmb. simpl. by rewrite Hmb.
  - split; [done|]. split; [done|]. intros d0 d0' Hins. simpl in Hins.
    destruct (install_snapshot_data _ _ _ _ _ _ Hbs Hins) as (_ & ? & Hst & _). split; [done|]. eauto.
Qed.
End raft_thms.

(** ** The theorems on a sample node *)

Lemma run_ok {S E A} (m : ste S E A) (s : S) : is_ok (m s).2 = true → ∃ s' x, m s = (s', Ok x).
Proof. destruct (m s) as [s' [x|e]]; [eauto|done]. Qed.

Lemma applied_at d at_ : progress (db_meta d) = Ok at_ → applied_state d = (d, Ok at_).
Proof. intros H. by rewrite applied_state_progress, H. Qed.

Lemma vote_roundtrip_witness :
  let d' := (save_vote (7%Z : @Vote sample_raft) empty_database).1 in
  read_vote d' = (d', Ok (Some (7%Z : @Vote sample_raft))).
Proof.
  destruct (save_vote (7%Z : @Vote sample_raft) empty_database) as [d' r] eqn:E.
  destruct (vote_roundtrip empty_database d' (7%Z : @Vote sample_raft) r E) as (_ & H & _). exact H.
Defined.

(** The second creation of the same secret is refused, and both are applied. *)
Definition sample_batch : list Entry := [RaftSamples.create 1 "a/x"; RaftSamples.create 2 "a/x"].

Lemma sample_batch_ok : Forall entry_ok sample_batch.
Proof. repeat constructor; simpl; unfold_ints; lia. Qed.

Lemma sample_batch_outcome :
  (spec_entries 1 empty_vault sample_batch).2 = [ApplyOk; ApplyConflict (SecretAlreadyExists "a/x")].
Proof. vm_compute. reflexivity. Qed.

Lemma apply_batch_refines_witness :
  ∃ d', RaftStore.apply 1 sample_batch empty_database
          = (d', Ok [ApplyOk; ApplyConflict (SecretAlreadyExists "a/x")])
    ∧ applied_state d' = (d', Ok (Some (RaftSamples.id 2), stored_membership_default)).
Proof.
  destruct (apply_batch_refines 1 empty_database empty_vault sample_batch
    (None, stored_membership_default) abstracts_empty sample_batch_ok) as (d' & Hrun & _ & Hst & _).
  - apply applied_at. vm_compute. reflexivity.
  - exists d'. rewrite <- sample_batch_outcome. split; [exact Hrun|exact Hst].
Defined.

Lemma log_holds_empty : log_holds empty_database ∅.
Proof. split; [apply stores_empty|]. intros k e He. by rewrite lookup_empty in He. Qed.

Lemma log_refines_witness :
  ∃ d', append [RaftSamples.create 1 "a/x"; RaftSamples.create 2 "a/y"] empty_database = (d', Ok tt)
    ∧ log_holds d' {[2%Z := RaftSamples.create 2 "a/y"; 1%Z := RaftSamples.create 1 "a/x"]}.
Proof.
  destruct (log_refines empty_database ∅ log_holds_empty) as [Happ _].
  apply (Happ [RaftSamples.create 1 "a/x"; RaftSamples.create 2 "a/y"]).
Defined.

(** Entries 1, 2 and 4, of which 1 is applied. *)
Definition torn_log : Database :=
  (write_meta META_APPLIED (RaftSamples.id 1)
    (append [RaftSamples.create 1 "a/x"; RaftSamples.create 2 "a/y"; RaftSamples.create 4 "a/z"]
       empty_database).1).1.

Lemma torn_log_indices : log_indices_ok (db_log torn_log).
Proof.
  intros k Hk. apply elem_of_t_keys in Hk.
  assert (t_keys (db_log torn_log) = [1; 2; 4]%Z) as Hkeys by (vm_compute; reflexivity).
  rewrite Hkeys in Hk. unfold u64_max. set_solver by lia.
Qed.

Lemma normalize_repairs_witness :
  ∃ d', normalize_raft_log torn_log = (d', Ok tt)
    ∧ is_Some (t_get (db_log torn_log) 4%Z)
    ∧ t_get (db_log d') 1%Z = None ∧ is_Some (t_get (db_log d') 2%Z) ∧ t_get (db_log d') 4%Z = None.
Proof.
  assert (t_get (db_log torn_log) 3%Z = None) as H3 by (vm_compute; reflexivity).
  assert (is_Some (t_get (db_log torn_log) 2%Z)) as H2 by (vm_compute; eauto).
  destruct (normalize_repairs torn_log (Some (RaftSamples.id 1)) None) as (d' & n & Hrun & Hn & Hlog & Hkept & Hgap & _);
    [vm_compute; reflexivity|vm_compute; reflexivity|apply torn_log_indices|simpl; unfold u64_max; lia|].
  change (log_start (normalize_floor (Some (RaftSamples.id 1)) None)) with 2%Z in *.
  assert (n = 1)%Z as ->.
  { destruct (decide (n = 0)%Z) as [->|]; [change (2 + 0)%Z with 2%Z in Hgap; destruct H2; congruence|].
    destruct (decide (1 < n)%Z) as [Hlt|]; [|lia]. destruct (Hkept 3%Z) as [? H]; [lia|]. congruence. }
  exists d'. split; [exact Hrun|]. split; [vm_compute; eauto|].
  rewrite !Hlog. split; [reflexivity|]. split; [exact H2|reflexivity].
Defined.

Definition sample_node : Database := (RaftStore.apply 1 sample_batch empty_database).1.

(** Whether a snapshot of [d], built and offered after [es], installs on an empty node. *)
Definition installs (offer : ste Database StorageError (option Snapshot)) (d : Database) : bool :=
  match offer d with
  | (_, Ok (Some snap)) => is_ok (install_snapshot (snap_meta snap) (snap_bytes snap) empty_database).2
  | _ => false
  end.

Lemma snapshot_roundtrip_witness :
  ∃ d1 snap d', build_snapshot sample_node = (d1, Ok snap)
    ∧ install_snapshot (snap_meta snap) (snap_bytes snap) empty_database = (d', Ok tt)
    ∧ agree d' sample_node.
Proof.
  assert (installs (snap ← build_snapshot; mret (Some snap)) sample_node = true) as Hi
    by (vm_compute; reflexivity).
  destruct (run_ok build_snapshot sample_node) as (d1 & snap & Eb); [vm_compute; reflexivity|].
  unfold installs, mbind, ste_bind in Hi. rewrite Eb in Hi. simpl in Hi.
  destruct (run_ok _ _ Hi) as (d' & [] & Ei).
  pose proof (snapshot_roundtrip sample_node d1 (Some (RaftSamples.id 2), stored_membership_default)
    snap empty_database) as H. rewrite Ei in H.
  exists d1, snap, d'. split; [exact Eb|]. split; [exact Ei|].
  apply H; [|exact Eb]. apply applied_at. vm_compute. reflexivity.
Defined.

(** A node that installs the stale snapshot claims entry 1 but lacks its secret. *)
Lemma current_snapshot_stale_witness :
  let after := (RaftStore.apply 1 [RaftSamples.create 1 "a/x"] (build_snapshot empty_database).1).1 in
  ∃ snap2 d', get_current_snapshot after = (after, Ok (Some snap2))
    ∧ install_snapshot (snap_meta snap2) (snap_bytes snap2) empty_database = (d', Ok tt)
    ∧ meta_last_log_id (snap_meta snap2) = Some (RaftSamples.id 1)
    ∧ is_Some (t_get (db_secrets after) "a/x") ∧ t_get (db_secrets d') "a/x" = None.
Proof.
  cbv zeta.
  destruct (run_ok build_snapshot empty_database) as (d1 & snap & Eb); [vm_compute; reflexivity|].
  assert (Hs : is_Some (t_get (db_secrets
    (RaftStore.apply 1 [RaftSamples.create 1 "a/x"] (build_snapshot empty_database).1).1) "a/x"))
    by (vm_compute; eauto).
  assert (Ho : is_ok (RaftStore.apply 1 [RaftSamples.create 1 "a/x"] (build_snapshot empty_database).1).2
    = true) by (vm_compute; reflexivity).
  assert (Hi : installs get_current_snapshot
    (RaftStore.apply 1 [RaftSamples.create 1 "a/x"] (build_snapshot empty_database).1).1 = true)
    by (vm_compute; reflexivity).
  rewrite Eb in *. simpl in *. destruct (run_ok _ _ Ho) as (d2 & rs & Ea). rewrite Ea in *. simpl in *.
  destruct (current_snapshot_stale 1 empty_database empty_vault (None, stored_membership_default) d1 snap
    [RaftSamples.create 1 "a/x"] (RaftSamples.create 1 "a/x") d2 rs) as (snap2 & Hget & _ & Hid & Hinst);
    [apply abstracts_empty|apply applied_at; vm_compute; reflexivity|exact Eb| |reflexivity|exact Ea|].
  { repeat constructor; simpl; unfold_ints; lia. }
  unfold installs in Hi. rewrite Hget in Hi. destruct (run_ok _ _ Hi) as (d' & [] & Ei).
  destruct (Hinst _ _ Ei) as [Hag _]. exists snap2, d'. repeat (split; [assumption|]).
  exact (agree_secrets _ _ Hag "a/x").
Defined.
