(* ===== verification/Platform.v ===== *)
(** * Handlers as programs over a shared world

    An async handler of the vault is a sequence of atomic actions on what the
    node's tasks share: the store, the data-key cache, the re-wrap flag and
    everything outside the process (clock, random source, network).  [prog] is
    the type of such sequences, [run] executes one alone, and [interleaves]
    executes several with their actions in any order.  [Platform] names what
    the operating system and the third-party clients provide. *)

From S2P Require Import Prelude RustStr CoreTypes Redb Keys Model Engine.

(** ** Outside the process *)

(** The configuration of a Postgres connection (tokio-postgres). *)
Inductive SslMode := SslDisable | SslPrefer | SslRequire.
Record PgConfig := {
  pc_host : string;
  pc_port : Z;
  pc_dbname : string;
  pc_user : string;
  pc_password : string;
  pc_application_name : string;
  pc_connect_timeout_secs : Z;
  pc_ssl_mode : SslMode;
}.

(** How a connection attempt under a timeout ends. *)
Inductive PgConnected (Client : Type) :=
| Connected (client : Client)
| ConnectFailed (err : string)
| ConnectTimedOut.
Arguments Connected {Client} client.
Arguments ConnectFailed {Client} err.
Arguments ConnectTimedOut {Client}.

(** [Os] is the state of everything outside; the fields are the calls the vault
    makes into it.  [os_unix_time] is [None] when the system clock is before
    1970; instants are nanoseconds of the monotonic clock.  [os_tick] waits for
    the next tick of an interval of so many seconds.  [os_pem_file] opens a file
    and reads its certificates, each of which may be unreadable;
    [os_native_certs] also gives the text of its errors; [tls_client] is the
    connector of a client that trusts exactly these roots. *)
Class Platform := {
  Os : Type;
  os_unix_time : Os → Os * option Z;
  os_instant : Os → Os * Z;
  os_random : nat → Os → Os * bytes;
  os_sleep : Z → Os → Os;
  os_tick : Z → Os → Os;
  os_leader : Os → Os * option Z;
  PgClient : Type;
  TlsConnector : Type;
  CertificateDer : Type;
  RootCertStore : Type;
  roots_empty : RootCertStore;
  roots_len : RootCertStore → nat;
  roots_add : CertificateDer → RootCertStore → result cause RootCertStore;
  roots_add_parsable : list CertificateDer → RootCertStore → RootCertStore * nat;
  os_pem_file : string → Os → Os * result cause (list (result cause CertificateDer));
  os_native_certs : Os → Os * (list CertificateDer * string);
  tls_client : RootCertStore → result cause TlsConnector;
  os_pg_connect : PgConfig → option TlsConnector → Os → Os * PgConnected PgClient;
  os_pg_rotate_credential : PgClient → string → string → Os → Os * result string bool;
  format_rfc3339 : Z → option string;
}.

Class PlatformLaws `{!Platform} : Prop := {
  os_random_length n s : length (os_random n s).2 = n;
  os_unix_time_range s t : (os_unix_time s).2 = Some t → in_u64 t;
  roots_len_empty : roots_len roots_empty = 0;
  roots_len_add cert roots roots' : roots_add cert roots = Ok roots' → roots_len roots' = S (roots_len roots);
  roots_len_add_parsable certs roots :
    roots_len (roots_add_parsable certs roots).1 = roots_len roots + (roots_add_parsable certs roots).2;
}.

Notation Dek := bytes.
Notation DekMap := (gmap bytes (Z * Dek)).

(** ** Effects *)

Section effects.
Context `{PL : !Platform} {St : Type} `{VS : !VaultStore St}.

Record World := {
  w_os : Os;
  w_store : St;
  w_cache : DekMap;
  w_busy : bool;
}.

Definition set_os (os : Os) (w : World) : World :=
  {| w_os := os; w_store := w_store w; w_cache := w_cache w; w_busy := w_busy w |}.
Definition set_store (s : St) (w : World) : World :=
  {| w_os := w_os w; w_store := s; w_cache := w_cache w; w_busy := w_busy w |}.
Definition set_cache (c : DekMap) (w : World) : World :=
  {| w_os := w_os w; w_store := w_store w; w_cache := c; w_busy := w_busy w |}.
Definition set_busy (b : bool) (w : World) : World :=
  {| w_os := w_os w; w_store := w_store w; w_cache := w_cache w; w_busy := b |}.

(** One atomic action and the type of its answer.  [CacheCall] is a critical
    section of the cache's mutex, which may read the monotonic clock. *)
Inductive effect : Type → Type :=
| OsCall {X} (f : Os → Os * X) : effect X
| PgConnect (cfg : PgConfig) (tls : option TlsConnector) : effect (PgConnected PgClient)
| PgRotate (client : PgClient) (role new_password : string) : effect (result string bool)
| StoreRead {X} (f : St → X) : effect X
| StoreApply (c : Command) : effect (StoreResult unit)
| StoreRestore (data : BackupData) : effect (StoreResult unit)
| CacheCall {X} (f : DekMap → Os → Os * (DekMap * X)) : effect X
| BusySwap (b : bool) : effect bool
| BusyLoad : effect bool.

Definition step {X} (e : effect X) (w : World) : World * X :=
  match e with
  | OsCall f => let '(os, x) := f (w_os w) in (set_os os w, x)
  | PgConnect cfg tls => let '(os, x) := os_pg_connect cfg tls (w_os w) in (set_os os w, x)
  | PgRotate client role pw =>
      let '(os, x) := os_pg_rotate_credential client role pw (w_os w) in (set_os os w, x)
  | StoreRead f => (w, f (w_store w))
  | StoreApply c => let '(s, r) := vs_apply c (w_store w) in (set_store s w, r)
  | StoreRestore data => let '(s, r) := vs_restore data (w_store w) in (set_store s w, r)
  | CacheCall f =>
      let '(os, (c, x)) := f (w_cache w) (w_os w) in (set_cache c (set_os os w), x)
  | BusySwap b => (set_busy b w, w_busy w)
  | BusyLoad => (w, w_busy w)
  end.

(** ** Programs *)

Inductive prog (E A : Type) : Type :=
| Ret (a : A)
| Throw (e : E)
| Act {X} (e : effect X) (k : X → prog E A).
Arguments Ret {E A} a.
Arguments Throw {E A} e.
Arguments Act {E A X} e k.

#[export] Instance prog_ret {E} : MRet (prog E) := λ A a, Ret a.

Fixpoint prog_bind_ {E A B} (f : A → prog E B) (m : prog E A) : prog E B :=
  match m with
  | Ret a => f a
  | Throw e => Throw e
  | Act e k => Act e (λ x, prog_bind_ f (k x))
  end.
#[export] Instance prog_bind {E} : MBind (prog E) := λ A B f m, prog_bind_ f m.

Definition act {E X} (e : effect X) : prog E X := Act e Ret.

Definition of_result {E A} (r : result E A) : prog E A :=
  match r with Ok a => Ret a | Err e => Throw e end.

(** The outcome of a program as a value: [match f().await { Ok .. Err .. }]. *)
Fixpoint attempt {E F A} (m : prog E A) : prog F (result E A) :=
  match m with
  | Ret a => Ret (Ok a)
  | Throw e => Ret (Err e)
  | Act e k => Act e (λ x, attempt (k x))
  end.

(** [f().await.map_err(g)?] *)
Definition prog_map_err {E F A} (g : E → F) (m : prog E A) : prog F A :=
  r ← attempt m; of_result (map_err g r).

Fixpoint prog_iter {E A} (body : A → prog E unit) (l : list A) : prog E unit :=
  match l with
  | [] => mret tt
  | x :: l => body x ;; prog_iter body l
  end.

Fixpoint prog_mapM {E A B} (body : A → prog E B) (l : list A) : prog E (list B) :=
  match l with
  | [] => mret []
  | x :: l => y ← body x; ys ← prog_mapM body l; mret (y :: ys)
  end.

(** ** Running a program alone *)

Fixpoint run_prog {E A} (m : prog E A) : ste World E A := λ w,
  match m with
  | Ret a => (w, Ok a)
  | Throw e => (w, Err e)
  | Act e k => let '(w', x) := step e w in run_prog (k x) w'
  end.

(** ** Running programs together *)

(** One action of one of the programs. *)
Inductive interleave {E A} : World * list (prog E A) → World * list (prog E A) → Prop :=
| interleave_act w ps i X (e : effect X) k :
    ps !! i = Some (Act e k) →
    interleave (w, ps) ((step e w).1, <[i := k (step e w).2]> ps).

(** A program every action of which keeps [I] and which returns only values that
    satisfy [Q], whatever the other programs do in between as long as they keep
    [I] too. *)
Fixpoint safe {E A} (I : World → Prop) (Q : A → Prop) (m : prog E A) : Prop :=
  match m with
  | Ret a => Q a
  | Throw _ => True
  | Act e k => ∀ w, I w → I (step e w).1 ∧ safe I Q (k (step e w).2)
  end.

(** Only the values it returns, in a world that may change arbitrarily. *)
Definition yields {E A} (Q : A → Prop) (m : prog E A) : Prop := safe (λ _, True) Q m.

Lemma safe_interleave {E A} (I : World → Prop) (Q : A → Prop) w (ps : list (prog E A)) c' :
  rtc interleave (w, ps) c' → I w → Forall (safe I Q) ps → I c'.1 ∧ Forall (safe I Q) c'.2.
Proof.
  intros Hsteps. remember (w, ps) as c eqn:Hc. revert w ps Hc.
  induction Hsteps as [|c c1 c2 Hstep _ IH]; intros w ps -> Hw Hps; [done|].
  inversion Hstep as [w0 ps0 i X e k Hi]; subst.
  pose proof (Forall_lookup_1 _ _ _ _ Hps Hi) as Hk. simpl in Hk. destruct (Hk w Hw) as [Hw' Hk'].
  apply (IH _ _ eq_refl Hw'). by apply Forall_insert.
Qed.

Lemma safe_run {E A} (I : World → Prop) (Q : A → Prop) (m : prog E A) : ∀ w w' r,
  safe I Q m → I w → run_prog m w = (w', r) → I w' ∧ ∀ a, r = Ok a → Q a.
Proof.
  induction m as [a|e|X e k IH]; simpl; intros w w' r Hm Hw Hrun; [simplify_eq; naive_solver..|].
  destruct (Hm w Hw) as [Hw' Hk]. destruct (step e w) as [w1 x]. by eapply IH.
Qed.

Lemma safe_mono {E A} (I : World → Prop) (Q R : A → Prop) (m : prog E A) :
  (∀ a, Q a → R a) → safe I Q m → safe I R m.
Proof.
  intros HQ Hm. induction m as [a|e|X e k IH]; simpl in *; [by apply HQ|done|].
  intros w Hw. destruct (Hm w Hw). split; [done|]. by apply IH.
Qed.

Lemma safe_bind {E A B} (I : World → Prop) (Q : A → Prop) (R : B → Prop) (m : prog E A) (f : A → prog E B) :
  safe I Q m → (∀ a, Q a → safe I R (f a)) → safe I R (m ≫= f).
Proof.
  intros Hm Hf. induction m as [a|e|X e k IH]; simpl in *; [by apply Hf|done|].
  intros w Hw. destruct (Hm w Hw). split; [done|]. by apply IH.
Qed.

Lemma safe_act {E X} (I : World → Prop) (Q : X → Prop) (e : effect X) :
  (∀ w, I w → I (step e w).1 ∧ Q (step e w).2) → safe (E := E) I Q (act e).
Proof. done. Qed.

Lemma safe_ret {E A} (I : World → Prop) (Q : A → Prop) (a : A) : Q a → safe (E := E) I Q (mret a).
Proof. done. Qed.

Lemma safe_throw {E A} (I : World → Prop) (Q : A → Prop) (e : E) : safe I Q (Throw e).
Proof. done. Qed.

Lemma safe_of_result {E A} (I : World → Prop) (Q : A → Prop) (r : result E A) :
  (∀ a, r = Ok a → Q a) → safe I Q (of_result r).
Proof. destruct r; simpl; auto. Qed.

Lemma safe_of_result_eq {E A} (I : World → Prop) (r : result E A) : safe I (λ a, r = Ok a) (of_result r).
Proof. by apply safe_of_result. Qed.

Lemma safe_attempt {E F A} (I : World → Prop) (Q : A → Prop) (m : prog E A) :
  safe I Q m → safe I (λ r, ∀ a, r = Ok a → Q a) (attempt (F := F) m).
Proof.
  intros Hm. induction m as [a|e|X e k IH]; simpl in *; [naive_solver|done|].
  intros w Hw. destruct (Hm w Hw). split; [done|]. by apply IH.
Qed.

Lemma safe_map_err {E F A} (I : World → Prop) (Q : A → Prop) (g : E → F) (m : prog E A) :
  safe I Q m → safe I Q (prog_map_err g m).
Proof.
  intros Hm. eapply safe_bind; [by apply safe_attempt|]. intros [a|e] Ha; apply safe_of_result; naive_solver.
Qed.

Lemma safe_iter {E A} (I : World → Prop) (body : A → prog E unit) l :
  (∀ x, x ∈ l → safe I (λ _, True) (body x)) → safe I (λ _, True) (prog_iter body l).
Proof.
  induction l as [|x l IH]; intros Hb; simpl; [done|].
  eapply safe_bind; [apply Hb; by left|]. intros _ _. apply IH. intros y Hy. apply Hb. by right.
Qed.

Lemma safe_mapM {E A B} (I : World → Prop) (Q : B → Prop) (body : A → prog E B) l :
  (∀ x, x ∈ l → safe I Q (body x)) → safe I (Forall Q) (prog_mapM body l).
Proof.
  induction l as [|x l IH]; intros Hb; simpl; [constructor|].
  eapply safe_bind; [apply Hb; by left|]. intros y Hy.
  eapply safe_bind; [apply IH; intros z Hz; apply Hb; by right|]. intros ys Hys. by constructor.
Qed.

(** ** Equations of [run_prog] *)

Lemma run_Act {E A X} (e : effect X) (k : X → prog E A) w :
  run_prog (Act e k) w = run_prog (k (step e w).2) (step e w).1.
Proof. simpl. by destruct (step e w). Qed.

Lemma run_ret {E A} (a : A) w : run_prog (E := E) (mret a) w = (w, Ok a).
Proof. done. Qed.

Lemma run_bind {E A B} (m : prog E A) (f : A → prog E B) : ∀ w,
  run_prog (m ≫= f) w
  = match run_prog m w with (w', Ok a) => run_prog (f a) w' | (w', Err e) => (w', Err e) end.
Proof.
  induction m as [a|e|X e k IH]; intros w; simpl; [done|done|].
  destruct (step e w) as [w' x]. apply IH.
Qed.

Lemma run_act {E X} (e : effect X) w :
  run_prog (E := E) (act e) w = ((step e w).1, Ok (step e w).2).
Proof. simpl. by destruct (step e w). Qed.

Lemma run_of_result {E A} (r : result E A) w : run_prog (of_result r) w = (w, r).
Proof. by destruct r. Qed.

Lemma run_attempt {E F A} (m : prog E A) : ∀ w,
  run_prog (E := F) (attempt m) w = ((run_prog m w).1, Ok (run_prog m w).2).
Proof.
  induction m as [a|e|X e k IH]; intros w; simpl; [done|done|].
  destruct (step e w) as [w' x]. apply IH.
Qed.

Lemma run_map_err {E F A} (g : E → F) (m : prog E A) w :
  run_prog (prog_map_err g m) w = ((run_prog m w).1, map_err g (run_prog m w).2).
Proof. unfold prog_map_err. rewrite run_bind, run_attempt. by rewrite run_of_result. Qed.

(** ** clock.rs *)

Definition now_unix {E} : prog E Z :=
  t ← act (OsCall os_unix_time);
  mret match t with Some secs => wrap_i64 secs | None => 0%Z end.
End effects.
Arguments World {PL} St.
Arguments effect {PL} St _.
Arguments prog {PL} St E A.
Arguments Ret {PL St E A} a.
Arguments Throw {PL St E A} e.
Arguments Act {PL St E A X} e k.
Arguments w_os {PL St} w.
Arguments w_store {PL St} w.
Arguments w_cache {PL St} w.
Arguments w_busy {PL St} w.

#[global] Arguments run_prog : simpl never.
#[global] Arguments attempt : simpl never.
#[global] Arguments safe : simpl never.
#[global] Arguments prog_map_err : simpl never.
#[global] Arguments of_result : simpl never.
#[global] Arguments act : simpl never.
#[global] Arguments now_unix : simpl never.

Section clock.
Context `{PL : !Platform}.

Definition rfc3339 (unix_secs : Z) : string := default "" (format_rfc3339 unix_secs).
Definition rfc3339_opt (unix_secs : option Z) : option string := rfc3339 <$> unix_secs.
End clock.
