(* ===== verification/Crypto.v ===== *)
(** * Envelope encryption and token fingerprints

    Models [hyperion-vault-core]'s [crypto.rs] and [auth.rs].  The ciphers,
    hashes and encodings are third-party crates: [CryptoCrates] names the calls,
    [CryptoLaws] states what they document.  [LocalKeyWrapper] is the in-process
    key-wrapping key. *)

From S2P Require Import Prelude RustStr CoreTypes Redb Keys Model Engine Platform.

(** ** The crates *)

Class CryptoCrates := {
  xchacha_encrypt : bytes → bytes → bytes → bytes → option bytes;
  xchacha_decrypt : bytes → bytes → bytes → bytes → option bytes;
  sha256 : bytes → bytes;
  base64_url_no_pad : bytes → string;
  base64_decode : string → option bytes;
}.

Definition DEK_LEN : nat := 32.
Definition NONCE_LEN : nat := 24.
Definition TOKEN_BYTES : nat := 32.
Definition FINGERPRINT_LEN : nat := 32.

(** XChaCha20-Poly1305 takes key, nonce, associated data and message.
    Decryption inverts encryption and accepts nothing that encryption does not
    produce: the keystream and the tag are functions of the inputs.  Encryption
    fails only on messages of hundreds of gigabytes.  Base64 is ASCII text. *)
Class CryptoLaws `{!CryptoCrates} : Prop := {
  decrypt_encrypt k n a m c : length k = DEK_LEN → length n = NONCE_LEN →
    xchacha_encrypt k n a m = Some c → xchacha_decrypt k n a c = Some m;
  encrypt_decrypt k n a m c : length k = DEK_LEN → length n = NONCE_LEN →
    xchacha_decrypt k n a c = Some m → xchacha_encrypt k n a m = Some c;
  encrypt_total k n a m : length k = DEK_LEN → length n = NONCE_LEN →
    (Z.of_nat (length m) < 2 ^ 36)%Z → (Z.of_nat (length a) < 2 ^ 36)%Z →
    is_Some (xchacha_encrypt k n a m);
  sha256_length m : length (sha256 m) = FINGERPRINT_LEN;
  base64_text bs : is_utf8 (base64_url_no_pad bs);
}.

(** ** crypto.rs *)

Section crypto.
Context `{CC : !CryptoCrates}.

Definition dek_from_slice (bs : bytes) : result CoreError Dek :=
  if decide (length bs ≠ DEK_LEN) then Err (KeyLength DEK_LEN (length bs)) else Ok bs.

Definition seal (dek nonce aad plaintext : bytes) : result CoreError bytes :=
  ok_or Encryption (xchacha_encrypt dek nonce aad plaintext).

Definition open (dek nonce aad ciphertext : bytes) : result CoreError bytes :=
  ok_or Decryption (xchacha_decrypt dek nonce aad ciphertext).

Record DataKey := {
  dk_plaintext : Dek;
  dk_wrapped : bytes;
  dk_key_id : string;
}.

Record Envelope := {
  env_key_id : string;
  env_wrapped_dek : bytes;
  env_nonce : bytes;
  env_ciphertext : bytes;
}.

Context `{PL : !Platform} {St : Type} `{VS : !VaultStore St}.

Definition fill_random {E} (n : nat) : prog St E bytes := act (OsCall (os_random n)).
Definition generate_dek {E} : prog St E Dek := fill_random DEK_LEN.
Definition generate_nonce {E} : prog St E bytes := fill_random NONCE_LEN.

(** The trait [KeyWrapper]. *)
Record KeyWrapper := {
  kw_generate_data_key : prog St CoreError DataKey;
  kw_unwrap_data_key : bytes → string → result CoreError Dek;
}.

Definition seal_envelope (wrapper : KeyWrapper) (aad plaintext : bytes) : prog St CoreError Envelope :=
  dk ← kw_generate_data_key wrapper;
  nonce ← generate_nonce;
  ciphertext ← of_result (seal (dk_plaintext dk) nonce aad plaintext);
  mret {| env_key_id := dk_key_id dk; env_wrapped_dek := dk_wrapped dk;
          env_nonce := nonce; env_ciphertext := ciphertext |}.

Definition open_envelope (wrapper : KeyWrapper) (env : Envelope) (aad : bytes) : result CoreError bytes :=
  dek ← kw_unwrap_data_key wrapper (env_wrapped_dek env) (env_key_id env);
  open dek (env_nonce env) aad (env_ciphertext env).

Definition WRAP_AAD : bytes := as_bytes "pg_vault:dek-wrap:v1".

Record LocalKeyWrapper := {
  lw_master : bytes;
  lw_key_id : string;
}.

Definition random {E} : prog St E LocalKeyWrapper :=
  master ← fill_random DEK_LEN;
  mret {| lw_master := master; lw_key_id := "local-dev" |}.

Definition from_base64 (encoded key_id : string) : result CoreError LocalKeyWrapper :=
  raw ← ok_or KeyUnwrap (base64_decode (trim encoded));
  if decide (length raw ≠ DEK_LEN) then Err (KeyLength DEK_LEN (length raw))
  else Ok {| lw_master := raw; lw_key_id := key_id |}.

Definition wrap_dek (self : LocalKeyWrapper) (dek : Dek) : prog St CoreError bytes :=
  nonce ← generate_nonce;
  ct ← of_result (map_err (λ _, KeyWrap) (seal (lw_master self) nonce WRAP_AAD dek));
  mret (nonce ++ ct).

Definition local_unwrap_data_key (self : LocalKeyWrapper) (wrapped : bytes) (_key_id : string)
    : result CoreError Dek :=
  if decide (length wrapped < NONCE_LEN) then Err KeyUnwrap else
  let nonce := take NONCE_LEN wrapped in
  let ct := drop NONCE_LEN wrapped in
  pt ← map_err (λ _, KeyUnwrap) (open (lw_master self) nonce WRAP_AAD ct);
  dek_from_slice pt.

Definition local_rewrap (self : LocalKeyWrapper) (wrapped : bytes) (key_id : string)
    : prog St CoreError (bytes * string) :=
  dek ← of_result (local_unwrap_data_key self wrapped key_id);
  wrapped' ← wrap_dek self dek;
  mret (wrapped', lw_key_id self).

Definition local_generate_data_key (self : LocalKeyWrapper) : prog St CoreError DataKey :=
  dek ← generate_dek;
  wrapped ← wrap_dek self dek;
  mret {| dk_plaintext := dek; dk_wrapped := wrapped; dk_key_id := lw_key_id self |}.

Definition local_key_wrapper (self : LocalKeyWrapper) : KeyWrapper := {|
  kw_generate_data_key := local_generate_data_key self;
  kw_unwrap_data_key := local_unwrap_data_key self |}.

(** ** auth.rs *)

Definition generate_token {E} : prog St E string :=
  bs ← fill_random TOKEN_BYTES;
  mret (base64_url_no_pad bs).

Definition fingerprint (token : string) : bytes := sha256 (as_bytes token).

(** [subtle]'s comparison: unequal lengths are unequal. *)
Definition ct_eq (a b : bytes) : bool := bool_decide (a = b).

Definition verify (token : string) (expected_fingerprint : bytes) : bool :=
  ct_eq (fingerprint token) expected_fingerprint.

Definition fingerprints_match (a b : bytes) : bool := ct_eq a b.

(** ** Facts *)

Context `{CL : !CryptoLaws, PLL : !PlatformLaws}.

Lemma seal_open dek nonce aad p c :
  length dek = DEK_LEN → length nonce = NONCE_LEN →
  seal dek nonce aad p = Ok c ↔ open dek nonce aad c = Ok p.
Proof using CL.
  intros Hd Hn. unfold seal, open. split.
  - destruct (xchacha_encrypt dek nonce aad p) as [c'|] eqn:E; [|done]. intros [= ->].
    by rewrite (decrypt_encrypt _ _ _ _ _ Hd Hn E).
  - destruct (xchacha_decrypt dek nonce aad c) as [p'|] eqn:E; [|done]. intros [= ->].
    by rewrite (encrypt_decrypt _ _ _ _ _ Hd Hn E).
Qed.

Lemma run_random {E} n w :
  run_prog (E := E) (fill_random n) w
  = (set_os (os_random n (w_os w)).1 w, Ok (os_random n (w_os w)).2).
Proof. unfold fill_random. rewrite run_act. simpl. by destruct (os_random n (w_os w)). Qed.

(** A blob this wrapper made for [dek]. *)
Definition locally_wrapped (self : LocalKeyWrapper) (wrapped : bytes) (dek : Dek) : Prop :=
  length (lw_master self) = DEK_LEN ∧ length dek = DEK_LEN
  ∧ ∃ nonce ct, length nonce = NONCE_LEN ∧ wrapped = nonce ++ ct
      ∧ seal (lw_master self) nonce WRAP_AAD dek = Ok ct.

Lemma local_unwrap_spec self wrapped key_id dek :
  length (lw_master self) = DEK_LEN →
  local_unwrap_data_key self wrapped key_id = Ok dek ↔ locally_wrapped self wrapped dek.
Proof using CL.
  intros Hm. unfold local_unwrap_data_key, dek_from_slice. unfold_monad. split.
  - case_decide as Hlen; [done|].
    destruct (open _ _ _ _) as [pt|] eqn:Ho; [|done]. case_decide as Hpt; [done|]. intros [= ->].
    assert (length (take NONCE_LEN wrapped) = NONCE_LEN) as Htake by (rewrite length_take; lia).
    split; [done|]. split; [lia|].
    exists (take NONCE_LEN wrapped), (drop NONCE_LEN wrapped). rewrite take_drop.
    split; [done|]. split; [done|]. by apply seal_open.
  - intros (_ & Hd & nonce & ct & Hn & -> & Hs). rewrite decide_False by (rewrite length_app; lia).
    rewrite take_app_length', drop_app_length' by done.
    apply seal_open in Hs as ->; [|done..]. rewrite decide_False by lia. done.
Qed.

Lemma yields_random {E} n : yields (St := St) (E := E) (λ bs, length bs = n) (fill_random n).
Proof using PLL.
  apply safe_act. intros w _. split; [done|]. simpl.
  pose proof (os_random_length n (w_os w)) as Hn. by destruct (os_random n (w_os w)).
Qed.

Lemma wrap_dek_yields self dek :
  length (lw_master self) = DEK_LEN → length dek = DEK_LEN →
  yields (St := St) (λ wrapped, locally_wrapped self wrapped dek) (wrap_dek self dek).
Proof using CL PLL.
  intros Hm Hd. eapply safe_bind; [apply yields_random|]. intros nonce Hn.
  eapply safe_bind; [apply safe_of_result_eq|]. intros ct Hs. apply safe_ret.
  destruct (seal _ _ _ _) as [ct'|] eqn:E in Hs; [|done]. simplify_eq/=.
  split; [done|]. split; [done|]. by exists nonce, ct.
Qed.

Lemma wrap_dek_total self dek w :
  length (lw_master self) = DEK_LEN → length dek = DEK_LEN →
  ∃ w' wrapped, run_prog (wrap_dek self dek) w = (w', Ok wrapped).
Proof using CL PLL.
  intros Hm Hd. unfold wrap_dek. rewrite run_bind. unfold generate_nonce. rewrite run_random.
  rewrite run_bind, run_of_result. unfold seal.
  edestruct (encrypt_total (lw_master self) (os_random NONCE_LEN (w_os w)).2 WRAP_AAD dek) as [ct ->];
    [done|apply os_random_length|rewrite Hd; done|done|]. simpl. eauto.
Qed.
End crypto.
Arguments KeyWrapper {PL} St.
