(* ===== verification/Kms.v ===== *)
(** * Key management: the provider trait and its implementations

    Models [kms.rs]: the trait [KmsProvider], the in-process [LocalKms], the
    client of AWS KMS and the retrying wrapper around either.  [KmsLaws] states
    what the service relies on; every implementation is proved to keep it, the
    AWS one from what the AWS API documents ([AwsLaws]). *)

From S2P Require Import Prelude RustStr CoreTypes Redb Keys Model Engine Platform Crypto.

Notation context := (list (string * string)).

(** ** Programs that only talk to the outside *)

Section quiet.
Context `{PL : !Platform} {St : Type} `{VS : !VaultStore St}.

Definition is_os {X} (e : effect St X) : bool := 
  match e with OsCall _ | PgConnect _ _ | PgRotate _ _ _ => true | _ => false end.

Fixpoint quiet {E A} (m : prog St E A) : Prop :=
  match m with
  | Ret _ | Throw _ => True
  | Act e k => is_os e = true ∧ ∀ x, quiet (k x)
  end.

(** Worlds that differ in the outside only. *)
Definition same_inside (w w' : World St) : Prop :=
  w_store w' = w_store w ∧ w_cache w' = w_cache w ∧ w_busy w' = w_busy w.

#[export] Instance same_inside_preorder : PreOrder same_inside.
Proof. split; [done|]. intros w1 w2 w3 (? & ? & ?) (? & ? & ?). unfold same_inside. by repeat split; etrans. Qed.

Lemma step_os_inside {X} (e : effect St X) w : is_os e = true → same_inside w (step e w).1.
Proof. destruct e; try done; intros _; simpl; by case_match. Qed.

Lemma quiet_run {E A} (m : prog St E A) : ∀ w w' r,
  quiet m → run_prog m w = (w', r) → same_inside w w'.
Proof.
  induction m as [a|e|X e k IH]; intros w w' r Hq Hrun; [by injection Hrun as <- _..|].
  destruct Hq as [He Hk]. rewrite run_Act in Hrun. etrans; [by apply (step_os_inside e)|]. by eapply IH.
Qed.

Lemma quiet_bind {E A B} (m : prog St E A) (f : A → prog St E B) :
  quiet m → (∀ a, quiet (f a)) → quiet (m ≫= f).
Proof.
  intros Hm Hf. induction m as [a|e|X e k IH]; simpl in *; [apply Hf|done|].
  destruct Hm as [? Hk]. split; [done|]. intros x. by apply IH.
Qed.

Lemma quiet_attempt {E F A} (m : prog St E A) : quiet m → quiet (attempt (F := F) m).
Proof.
  intros Hm. induction m as [a|e|X e k IH]; simpl in *; [done|done|].
  destruct Hm as [? Hk]. split; [done|]. intros x. by apply IH.
Qed.

Lemma quiet_of_result {E A} (r : result E A) : quiet (of_result (St := St) r).
Proof. by destruct r. Qed.

Lemma quiet_map_err {E F A} (g : E → F) (m : prog St E A) : quiet m → quiet (prog_map_err g m).
Proof. intros Hm. apply quiet_bind; [by apply quiet_attempt|]. intros r. apply quiet_of_result. Qed.

(** Such a program keeps every property of the inside. *)
Definition inside (I : World St → Prop) : Prop := ∀ w w', same_inside w w' → I w → I w'.

Lemma quiet_safe {E A} (I : World St → Prop) (Q : A → Prop) (m : prog St E A) :
  inside I → quiet m → yields Q m → safe I Q m.
Proof.
  intros HI Hq Hy. induction m as [a|e|X e k IH]; [done|done|].
  destruct Hq as [He Hk]. intros w Hw. split; [|by apply IH, (Hy w)].
  eapply HI; [|done]. by apply step_os_inside.
Qed.
End quiet.
#[global] Arguments quiet : simpl never.

(** ** The trait *)

Section kms.
Context `{CC : !CryptoCrates, PL : !Platform} {St : Type} `{VS : !VaultStore St}.

Record KmsProvider := {
  kms_generate_data_key : context → prog St cause DataKey;
  kms_decrypt_data_key : bytes → string → context → prog St cause Dek;
  kms_reencrypt_data_key : bytes → string → context → prog St cause (bytes * string);
  kms_latest_rotation_at : prog St cause (option Z);
}.

(** [wraps blob key_id context dek]: [blob] is [dek] encrypted under [key_id]
    and bound to [context]. *)
Class KmsLaws (kms : KmsProvider) := {
  wraps : bytes → string → context → Dek → Prop;
  wraps_unique blob k c d k' c' d' : wraps blob k c d → wraps blob k' c' d' → d = d';
  wraps_length blob k c d : wraps blob k c d → length d = DEK_LEN;
  generate_law c :
    yields (λ dk, wraps (dk_wrapped dk) (dk_key_id dk) c (dk_plaintext dk)) (kms_generate_data_key kms c);
  decrypt_law blob k c : yields (wraps blob k c) (kms_decrypt_data_key kms blob k c);
  reencrypt_law blob k c d : wraps blob k c d →
    yields (λ '(blob', k'), wraps blob' k' c d) (kms_reencrypt_data_key kms blob k c);
  generate_quiet c : quiet (kms_generate_data_key kms c);
  decrypt_quiet blob k c : quiet (kms_decrypt_data_key kms blob k c);
  reencrypt_quiet blob k c : quiet (kms_reencrypt_data_key kms blob k c);
  latest_quiet : quiet (kms_latest_rotation_at kms);
}.

(** A provider that never fails on the keys it made.  [LocalKms] is one; AWS is
    not, and only theorems that name this class suppose it. *)
Class KmsReliable (kms : KmsProvider) `{!KmsLaws kms} : Prop :=
  decrypt_reliable blob k c d w : wraps blob k c d →
    ∃ w', run_prog (kms_decrypt_data_key kms blob k c) w = (w', Ok d).

(** ** LocalKms *)

Definition LocalKms (inner : LocalKeyWrapper) : KmsProvider := {|
  kms_generate_data_key _ := prog_map_err CoreFailed (local_generate_data_key inner);
  kms_decrypt_data_key wrapped key_id _ :=
    of_result (map_err CoreFailed (local_unwrap_data_key inner wrapped key_id));
  kms_reencrypt_data_key wrapped source_key_id _ :=
    prog_map_err CoreFailed (local_rewrap inner wrapped source_key_id);
  kms_latest_rotation_at := mret None |}.

(** ** RetryingKms *)

(** Milliseconds before the next attempt. *)
Definition backoff (attempt : Z) : Z := sat_u64 (100 * Z.shiftl 1 (attempt `min` 6)).

Definition sleep {E} (ms : Z) : prog St E unit := act (OsCall (λ s, (os_sleep ms s, tt))).

(** The loop that each method of [RetryingKms] is; [tries] is
    [max_retries - attempt]. *)
Fixpoint retry_loop {A} (op : prog St cause A) (tries : nat) (n : Z) : prog St cause A :=
  r ← attempt op;
  match r with
  | Ok value => mret value
  | Err err =>
      match tries with
      | O => Throw err
      | S tries => sleep (backoff n) ;; retry_loop op tries (n + 1)
      end
  end.

Definition retrying {A} (max_retries : Z) (op : prog St cause A) : prog St cause A :=
  retry_loop op (Z.to_nat max_retries) 0.

Definition RetryingKms (inner : KmsProvider) (max_retries : Z) : KmsProvider := {|
  kms_generate_data_key c := retrying max_retries (kms_generate_data_key inner c);
  kms_decrypt_data_key blob k c := retrying max_retries (kms_decrypt_data_key inner blob k c);
  kms_reencrypt_data_key blob k c := retrying max_retries (kms_reencrypt_data_key inner blob k c);
  kms_latest_rotation_at := retrying max_retries (kms_latest_rotation_at inner) |}.

(** ** AwsKms *)

(** The answers of the AWS SDK, as far as the client looks at them; an error is
    its debug text. *)
Record GenerateOutput := {
  go_plaintext : option bytes;
  go_ciphertext_blob : option bytes;
  go_key_id : option string;
}.
Record ReEncryptOutput := {
  ro_ciphertext_blob : option bytes;
  ro_key_id : option string;
}.
Record RotationsOutput := {
  lo_rotations : list (option Z);
  lo_truncated : bool;
  lo_next_marker : option string;
}.

Record AwsClient := {
  aws_generate_data_key : string → context → Os → Os * result string GenerateOutput;
  aws_decrypt : bytes → string → context → Os → Os * result string (option bytes);
  aws_re_encrypt : bytes → string → string → context → Os → Os * result string ReEncryptOutput;
  aws_list_key_rotations : string → option string → Os → Os * result string RotationsOutput;
}.

(** [request.send().await.map_err(..)?] *)
Definition send {A} (what : string) (f : Os → Os * result string A) : prog St cause A :=
  r ← act (OsCall f);
  of_result (map_err (λ err, Text (what +:+ " failed: " +:+ err)) r).

(** [Option::context] *)
Definition or_context {A} (what : string) (o : option A) : prog St cause A :=
  of_result (ok_or (Text what) o).

Definition aws_generate (client : AwsClient) (key_id : string) (c : context) : prog St cause DataKey :=
  out ← send "kms generate_data_key" (aws_generate_data_key client key_id c);
  plaintext ← or_context "kms returned no plaintext data key" (go_plaintext out);
  plaintext ← of_result (map_err CoreFailed (dek_from_slice plaintext));
  wrapped ← or_context "kms returned no ciphertext blob" (go_ciphertext_blob out);
  mret {| dk_plaintext := plaintext; dk_wrapped := wrapped;
          dk_key_id := default key_id (go_key_id out) |}.

Definition aws_decrypt_data_key (client : AwsClient) (wrapped : bytes) (key_id : string) (c : context)
    : prog St cause Dek :=
  out ← send "kms decrypt" (aws_decrypt client wrapped key_id c);
  plaintext ← or_context "kms returned no plaintext" out;
  of_result (map_err CoreFailed (dek_from_slice plaintext)).

Definition aws_reencrypt (client : AwsClient) (key_id : string) (wrapped : bytes)
    (source_key_id : string) (c : context) : prog St cause (bytes * string) :=
  out ← send "kms re_encrypt" (aws_re_encrypt client wrapped source_key_id key_id c);
  blob ← or_context "kms re_encrypt returned no ciphertext blob" (ro_ciphertext_blob out);
  mret (blob, default key_id (ro_key_id out)).

(** The dates of one page, folded into the latest one seen so far. *)
Definition latest_of (latest : option Z) (entry : option Z) : option Z :=
  match entry with
  | Some secs => Some (match latest with Some current => current `max` secs | None => secs end)%Z
  | None => latest
  end.

(** The loop over the pages of the rotation list.  It ends when the service
    reports the last page; [pages] bounds the number of pages read. *)
Fixpoint aws_latest (client : AwsClient) (key_id : string) (pages : nat)
    (marker : option string) (latest : option Z) : prog St cause (option Z) :=
  out ← send "kms list_key_rotations" (aws_list_key_rotations client key_id marker);
  let latest := foldl latest_of latest (lo_rotations out) in
  if lo_truncated out then
    match lo_next_marker out, pages with
    | Some marker, S pages => aws_latest client key_id pages (Some marker) latest
    | Some _, O => Throw (Text "more pages than the bound")
    | None, _ => mret latest
    end
  else mret latest.

Definition AwsKms (pages : nat) (client : AwsClient) (key_id : string) : KmsProvider := {|
  kms_generate_data_key := aws_generate client key_id;
  kms_decrypt_data_key := aws_decrypt_data_key client;
  kms_reencrypt_data_key := aws_reencrypt client key_id;
  kms_latest_rotation_at := aws_latest client key_id pages None None |}.

(** What AWS documents: a blob is one key, encrypted under one key id and
    readable only with the context it was made with, by [Decrypt] and
    [ReEncrypt] alike. *)
Class AwsLaws (client : AwsClient) := {
  aws_wraps : bytes → string → context → bytes → Prop;
  aws_wraps_unique blob k c d k' c' d' : aws_wraps blob k c d → aws_wraps blob k' c' d' → d = d';
  aws_generate_law key_id c s s' out d blob :
    aws_generate_data_key client key_id c s = (s', Ok out) →
    go_plaintext out = Some d → go_ciphertext_blob out = Some blob →
    aws_wraps blob (default key_id (go_key_id out)) c d;
  aws_decrypt_law blob k c s s' d :
    aws_decrypt client blob k c s = (s', Ok (Some d)) → aws_wraps blob k c d;
  aws_re_encrypt_law blob k key_id c s s' out blob' d :
    aws_wraps blob k c d → aws_re_encrypt client blob k key_id c s = (s', Ok out) →
    ro_ciphertext_blob out = Some blob' → aws_wraps blob' (default key_id (ro_key_id out)) c d;
}.
End kms.
Arguments KmsProvider {PL} St.
