(* ===== verification/KmsThms.v ===== *)
(** * Theorems on envelope encryption and key management

    An envelope opens to what was sealed, before and after its key is
    re-wrapped; each key-management provider keeps [KmsLaws]; the retrying
    wrapper returns the first success and gives up after its limit. *)

From S2P Require Import Prelude RustStr CoreTypes Redb Keys Model Engine Platform Crypto Kms.

Section kms_thms.
Context `{CC : !CryptoCrates, CL : !CryptoLaws, PL : !Platform, PLL : !PlatformLaws}.
Context {St : Type} `{VS : !VaultStore St}.

(** ** LocalKms *)

Lemma local_generate_yields self :
  length (lw_master self) = DEK_LEN →
  yields (St := St) (λ dk, locally_wrapped self (dk_wrapped dk) (dk_plaintext dk)) (local_generate_data_key self).
Proof.
  intros Hm. eapply safe_bind; [apply yields_random|]. intros dek Hd.
  eapply safe_bind; [by apply wrap_dek_yields|]. done.
Qed.

Lemma local_rewrap_yields self wrapped key_id dek :
  locally_wrapped self wrapped dek →
  yields (St := St) (λ '(wrapped', _), locally_wrapped self wrapped' dek) (local_rewrap self wrapped key_id).
Proof.
  intros Hw. pose proof Hw as (Hm & Hd & _). unfold local_rewrap.
  rewrite (proj2 (local_unwrap_spec self wrapped key_id dek Hm) Hw).
  eapply safe_bind; [by apply (safe_of_result _ (λ d, d = dek)); intros ? [= ->]|]. intros ? ->.
  eapply safe_bind; [by apply wrap_dek_yields|]. done.
Qed.

Lemma locally_wrapped_unique self wrapped d d' :
  locally_wrapped self wrapped d → locally_wrapped self wrapped d' → d = d'.
Proof.
  intros Hd Hd'. pose proof Hd as (Hm & _).
  apply (local_unwrap_spec _ _ (lw_key_id self)) in Hd; [|done].
  apply (local_unwrap_spec _ _ (lw_key_id self)) in Hd'; [|done]. congruence.
Qed.

Lemma quiet_act_os {E X} (f : Os → Os * X) : quiet (St := St) (E := E) (act (OsCall f)).
Proof. by split. Qed.
Lemma quiet_wrap_dek self dek : quiet (St := St) (wrap_dek self dek).
Proof.
  apply quiet_bind; [apply quiet_act_os|]. intros nonce.
  apply quiet_bind; [apply quiet_of_result|]. done.
Qed.

#[export] Instance local_kms_laws self (Hm : length (lw_master self) = DEK_LEN) :
  KmsLaws (St := St) (LocalKms self).
Proof.
  refine {| wraps blob _ _ d := locally_wrapped self blob d |}; simpl.
  - intros. by eapply locally_wrapped_unique.
  - intros blob k c d (_ & ? & _). done.
  - intros c. by apply safe_map_err, local_generate_yields.
  - intros blob k c. apply safe_of_result. intros d Hd.
    destruct (local_unwrap_data_key self blob k) as [d'|] eqn:E in Hd; [|done]. simplify_eq/=.
    by eapply local_unwrap_spec.
  - intros blob k c d Hw. by apply safe_map_err, local_rewrap_yields.
  - intros c. apply quiet_map_err, quiet_bind; [apply quiet_act_os|]. intros dek.
    apply quiet_bind; [apply quiet_wrap_dek|]. done.
  - intros blob k c. apply quiet_of_result.
  - intros blob k c. apply quiet_map_err, quiet_bind; [apply quiet_of_result|]. intros dek.
    apply quiet_bind; [apply quiet_wrap_dek|]. done.
  - done.
Defined.

Lemma local_kms_reliable self (Hm : length (lw_master self) = DEK_LEN) :
  @KmsReliable _ St _ (LocalKms self) (local_kms_laws self Hm).
Proof.
  intros blob k c d w Hw. simpl in *. rewrite run_of_result.
  rewrite (proj2 (local_unwrap_spec self blob k d Hm)) by done. simpl. eauto.
Qed.

(** What sealing leaves in an envelope: a fresh data key, wrapped, and the
    message sealed under it. *)
Lemma seal_envelope_spec self (w w1 : World St) aad p env :
  length (lw_master self) = DEK_LEN →
  run_prog (seal_envelope (local_key_wrapper self) aad p) w = (w1, Ok env) →
  ∃ dek, locally_wrapped self (env_wrapped_dek env) dek ∧ length (env_nonce env) = NONCE_LEN
    ∧ seal dek (env_nonce env) aad p = Ok (env_ciphertext env).
Proof.
  intros Hm. unfold seal_envelope. rewrite run_bind. cbn [kw_generate_data_key local_key_wrapper].
  destruct (run_prog (local_generate_data_key self) w) as [w2 [dk|]] eqn:Eg; [|done].
  destruct (safe_run _ _ _ _ _ _ (local_generate_yields self Hm) I Eg) as [_ Hw]. specialize (Hw dk eq_refl).
  rewrite run_bind. unfold generate_nonce. rewrite run_random, run_bind, run_of_result.
  destruct (seal _ _ _ _) as [ct|] eqn:Hs; [|done]. simpl. intros [= _ <-].
  exists (dk_plaintext dk). split; [done|]. split; [apply os_random_length|done].
Qed.

Lemma seal_envelope_total self (w : World St) aad p :
  length (lw_master self) = DEK_LEN →
  (Z.of_nat (length p) < 2 ^ 36)%Z → (Z.of_nat (length aad) < 2 ^ 36)%Z →
  ∃ w1 env, run_prog (seal_envelope (local_key_wrapper self) aad p) w = (w1, Ok env).
Proof.
  intros Hm Hp Ha. unfold seal_envelope, local_key_wrapper, local_generate_data_key. rewrite run_bind.
  cbn [kw_generate_data_key]. rewrite run_bind. unfold generate_dek. rewrite run_random, run_bind.
  edestruct (wrap_dek_total self (os_random DEK_LEN (w_os w)).2) as (w2 & wrapped & ->);
    [done|apply os_random_length|].
  rewrite run_ret, run_bind. unfold generate_nonce. rewrite run_random, run_bind, run_of_result. unfold seal.
  edestruct (encrypt_total (os_random DEK_LEN (w_os w)).2 (os_random NONCE_LEN (w_os w2)).2 aad p) as [ct Hct];
    [apply os_random_length..|done|done|].
  cbn [dk_plaintext]. rewrite Hct. simpl. eauto.
Qed.

(** An envelope around a key this wrapper wrapped opens with that key. *)
Lemma open_envelope_key self dek wrapped key_id nonce ct aad :
  locally_wrapped self wrapped dek →
  open_envelope (local_key_wrapper (St := St) self) {| env_key_id := key_id; env_wrapped_dek := wrapped;
    env_nonce := nonce; env_ciphertext := ct |} aad = open dek nonce aad ct.
Proof.
  intros Hw. pose proof Hw as (Hm & _). unfold open_envelope. simpl.
  by rewrite (proj2 (local_unwrap_spec self wrapped key_id _ Hm) Hw).
Qed.

(** C30. An envelope opens to the plaintext it was sealed from, also after its
    data key has been re-wrapped any number of times, and to nothing else: a
    plaintext opened under some associated data is the one whose sealing
    under that data gives the stored ciphertext. *)
Theorem envelope_roundtrip self (w w1 : World St) aad p env :
  length (lw_master self) = DEK_LEN →
  run_prog (seal_envelope (local_key_wrapper self) aad p) w = (w1, Ok env) →
  open_envelope (local_key_wrapper (St := St) self) env aad = Ok p
  ∧ (∀ w2 w3 wrapped key_id, run_prog (local_rewrap self (env_wrapped_dek env) (env_key_id env)) w2
       = (w3, Ok (wrapped, key_id)) →
     let env' := {| env_key_id := key_id; env_wrapped_dek := wrapped;
                    env_nonce := env_nonce env; env_ciphertext := env_ciphertext env |} in
     open_envelope (local_key_wrapper (St := St) self) env' aad = Ok p)
  ∧ ∃ dek, ∀ aad' p', open_envelope (local_key_wrapper (St := St) self) env aad' = Ok p' →
      seal dek (env_nonce env) aad' p' = seal dek (env_nonce env) aad p.
Proof.
  intros Hm Hseal. destruct (seal_envelope_spec _ _ _ _ _ _ Hm Hseal) as (dek & Hw & Hn & Hs).
  pose proof Hw as (_ & Hd & _). destruct env as [k wrapped nonce ct]. simpl in *. split; [|split].
  - rewrite (open_envelope_key _ _ _ _ _ _ _ Hw). by apply seal_open.
  - intros w3 w4 wrapped' key_id Hr.
    destruct (safe_run _ _ _ _ _ _ (local_rewrap_yields _ _ k _ Hw) I Hr) as [_ Hwr].
    specialize (Hwr _ eq_refl). simpl in Hwr.
    rewrite (open_envelope_key _ _ _ _ _ _ _ Hwr). by apply seal_open.
  - exists dek. intros aad' p'. rewrite (open_envelope_key _ _ _ _ _ _ _ Hw). intros Ho.
    rewrite Hs. by apply seal_open.
Qed.

(** ** RetryingKms *)

(** [n] attempts fail one after the other from [w], the first of them being the
    [i]-th, with the pause after each; [w'] is the world the next one starts in. *)
Inductive attempts_fail {A} (op : prog St cause A) : Z → nat → World St → World St → Prop :=
| fails_none i w : attempts_fail op i 0 w w
| fails_once i n w w1 err w2 :
    run_prog op w = (w1, Err err) →
    attempts_fail op (i + 1) n (set_os (os_sleep (backoff i) (w_os w1)) w1) w2 →
    attempts_fail op i (S n) w w2.

Lemma retry_loop_spec {A} (op : prog St cause A) tries : ∀ i w,
  ∃ n w1, n ≤ tries ∧ attempts_fail op i n w w1
    ∧ run_prog (retry_loop op tries i) w = run_prog op w1
    ∧ (n < tries → is_ok (run_prog op w1).2 = true).
Proof.
  induction tries as [|tries IH]; intros i w.
  - exists 0, w. split; [lia|]. split; [constructor|]. split; [|lia].
    cbn [retry_loop]. rewrite run_bind, run_attempt.
    destruct (run_prog op w) as [w1 [v|e]]; done.
  - destruct (run_prog op w) as [w1 [v|e]] eqn:E.
    + exists 0, w. split; [lia|]. split; [constructor|]. split; [|by rewrite E].
      cbn [retry_loop]. by rewrite run_bind, run_attempt, E.
    + destruct (IH (i + 1)%Z (set_os (os_sleep (backoff i) (w_os w1)) w1)) as (n & w2 & Hn & Hf & Hr & Hok).
      exists (S n), w2. split; [lia|]. split; [by econstructor|]. split; [|intros; apply Hok; lia].
      cbn [retry_loop]. rewrite run_bind, run_attempt, E. cbn [fst snd]. rewrite run_bind. exact Hr.
Qed.

(** Retrying: an operation is attempted until it succeeds, at most
    [max_retries] times more than once, with the documented pauses; the answer
    is that of the last attempt, and an error is returned only after all of
    them failed.  With an operation that never fails the wrapper is
    invisible. *)
Theorem retrying_spec {A} (op : prog St cause A) max_retries w :
  (0 ≤ max_retries)%Z →
  ∃ n w1, (Z.of_nat n ≤ max_retries)%Z ∧ attempts_fail op 0 n w w1
    ∧ run_prog (retrying max_retries op) w = run_prog op w1
    ∧ (is_ok (run_prog op w1).2 = false → Z.of_nat n = max_retries)
    ∧ (is_ok (run_prog op w).2 = true → n = 0 ∧ w1 = w).
Proof.
  intros Hmax. destruct (retry_loop_spec op (Z.to_nat max_retries) 0 w) as (n & w1 & Hn & Hf & Hr & Hok).
  exists n, w1. split; [lia|]. split; [done|]. split; [done|]. split.
  - intros Hfail. destruct (decide (n < Z.to_nat max_retries)) as [Hlt|]; [|lia].
    rewrite Hok in Hfail by done. done.
  - intros Hw. inversion Hf as [|? ? ? ? ? ? Hbad _]; subst; [done|]. by rewrite Hbad in Hw.
Qed.

Lemma yields_sleep {E} ms : yields (St := St) (E := E) (λ _, True) (sleep ms).
Proof. by apply safe_act. Qed.

Lemma yields_retrying {A} (Q : A → Prop) (op : prog St cause A) max_retries :
  yields Q op → yields Q (retrying max_retries op).
Proof.
  intros Hop. unfold retrying. generalize 0%Z.
  induction (Z.to_nat max_retries) as [|tries IH]; intros i; cbn [retry_loop];
    (eapply safe_bind; [by apply safe_attempt|]); intros [v|e] Hv; try done; try (apply safe_ret; naive_solver).
  eapply safe_bind; [apply yields_sleep|]. intros _ _. apply IH.
Qed.

Lemma quiet_retrying {A} (op : prog St cause A) max_retries : quiet op → quiet (retrying max_retries op).
Proof.
  intros Hop. unfold retrying. generalize 0%Z.
  induction (Z.to_nat max_retries) as [|tries IH]; intros i; cbn [retry_loop];
    (apply quiet_bind; [by apply quiet_attempt|]); intros [v|e]; try done.
  apply quiet_bind; [apply quiet_act_os|]. intros _. apply IH.
Qed.

#[export] Instance retrying_kms_laws kms max_retries (KL : KmsLaws kms) :
  KmsLaws (St := St) (RetryingKms kms max_retries).
Proof.
  refine {| wraps := wraps (kms := kms) |}; simpl.
  - apply wraps_unique.
  - apply wraps_length.
  - intros c. apply yields_retrying, generate_law.
  - intros blob k c. apply yields_retrying, decrypt_law.
  - intros blob k c d Hw. by apply yields_retrying, reencrypt_law.
  - intros c. apply quiet_retrying, generate_quiet.
  - intros blob k c. apply quiet_retrying, decrypt_quiet.
  - intros blob k c. apply quiet_retrying, reencrypt_quiet.
  - apply quiet_retrying, latest_quiet.
Defined.

(** The first attempt is enough. *)
Lemma retrying_reliable kms max_retries (KL : KmsLaws kms) :
  @KmsReliable _ St _ kms KL → @KmsReliable _ St _ (RetryingKms kms max_retries) (retrying_kms_laws kms max_retries KL).
Proof.
  intros KR blob k c d w Hw. destruct (KR blob k c d w Hw) as [w' Hrun]. exists w'. cbn [RetryingKms kms_decrypt_data_key].
  unfold retrying. destruct (Z.to_nat max_retries); cbn [retry_loop]; by rewrite run_bind, run_attempt, Hrun.
Qed.

(** ** AwsKms *)

Lemma quiet_send {A} what (f : Os → Os * result string A) : quiet (St := St) (send what f).
Proof. apply quiet_bind; [apply quiet_act_os|]. intros r. apply quiet_of_result. Qed.

(** The answer of the service, from some state of it. *)
Lemma yields_send {A} what (f : Os → Os * result string A) :
  yields (St := St) (λ out, ∃ s s', f s = (s', Ok out)) (send what f).
Proof.
  eapply (safe_bind _ (λ r, ∃ s s', f s = (s', r))).
  { apply safe_act. intros w _. split; [done|]. simpl. destruct (f (w_os w)) as [s' r] eqn:E. simpl. eauto. }
  intros r (s & s' & Hf). apply safe_of_result. intros a Ha. destruct r; simplify_eq/=. eauto.
Qed.

Lemma yields_or_context {A} what (o : option A) :
  yields (St := St) (λ a, o = Some a) (or_context what o).
Proof. apply safe_of_result. destruct o; naive_solver. Qed.

Lemma yields_dek bs :
  yields (St := St) (λ d, d = bs ∧ length d = DEK_LEN) (of_result (map_err CoreFailed (dek_from_slice bs))).
Proof.
  apply safe_of_result. unfold dek_from_slice. case_decide; simpl; [done|]. intros ? [= <-].
  split; [done|]. lia.
Qed.

#[export] Instance aws_kms_laws pages client key_id (AL : AwsLaws client) :
  KmsLaws (St := St) (AwsKms pages client key_id).
Proof.
  refine {| wraps blob k c d := aws_wraps blob k c d ∧ length d = DEK_LEN |}.
  - intros blob k c d k' c' d' [H _] [H' _]. by eapply aws_wraps_unique.
  - by intros blob k c d [_ ?].
  - intros c. eapply safe_bind; [apply yields_send|]. intros out (s & s' & Hs).
    eapply safe_bind; [apply yields_or_context|]. intros pt Hpt.
    eapply safe_bind; [apply yields_dek|]. intros d [-> Hd].
    eapply safe_bind; [apply yields_or_context|]. intros wrapped Hw.
    apply safe_ret. split; [|done]. by eapply aws_generate_law.
  - intros blob k c. eapply safe_bind; [apply yields_send|]. intros out (s & s' & Hs).
    eapply safe_bind; [apply yields_or_context|]. intros pt ->.
    eapply safe_mono; [|apply yields_dek]. intros d [-> Hd]. split; [|done]. by eapply aws_decrypt_law.
  - intros blob k c d [Hw Hd]. eapply safe_bind; [apply yields_send|]. intros out (s & s' & Hs).
    eapply safe_bind; [apply yields_or_context|]. intros blob' Hb.
    apply safe_ret. split; [|done]. by eapply aws_re_encrypt_law.
  - intros c. apply quiet_bind; [apply quiet_send|]. intros out.
    repeat (apply quiet_bind; [apply quiet_of_result|]; intros ?). done.
  - intros blob k c. apply quiet_bind; [apply quiet_send|]. intros out.
    apply quiet_bind; [apply quiet_of_result|]. intros ?. apply quiet_of_result.
  - intros blob k c. apply quiet_bind; [apply quiet_send|]. intros out.
    apply quiet_bind; [apply quiet_of_result|]. done.
  - cbn [kms_latest_rotation_at AwsKms]. generalize (None (A := string)) (None (A := Z)).
    induction pages as [|pages IH]; intros marker latest; cbn [aws_latest];
      (apply quiet_bind; [apply quiet_send|]; intros out);
      destruct (lo_truncated out); [|done| |done]; by destruct (lo_next_marker out).
Defined.

(** The pages the service returns one after the other, up to the last. *)
Inductive rotation_pages (client : AwsClient) (key_id : string)
    : option string → Os → list RotationsOutput → Os → Prop :=
| last_page m s out s' :
    aws_list_key_rotations client key_id m s = (s', Ok out) →
    (lo_truncated out = false ∨ lo_next_marker out = None) → rotation_pages client key_id m s [out] s'
| next_page m s out m' s1 outs s' :
    aws_list_key_rotations client key_id m s = (s1, Ok out) →
    lo_truncated out = true → lo_next_marker out = Some m' →
    rotation_pages client key_id (Some m') s1 outs s' → rotation_pages client key_id m s (out :: outs) s'.

Lemma run_send_ok {A} what (f : Os → Os * result string A) w s out :
  f (w_os w) = (s, Ok out) → run_prog (St := St) (send what f) w = (set_os s w, Ok out).
Proof. intros Hf. unfold send. rewrite run_bind, run_act, run_of_result. simpl. by rewrite Hf. Qed.

Lemma aws_latest_run client key_id m s outs s' :
  rotation_pages client key_id m s outs s' → ∀ pages latest w,
  w_os w = s → length outs ≤ S pages →
  run_prog (St := St) (aws_latest client key_id pages m latest) w
  = (set_os s' w, Ok (foldl latest_of latest (outs ≫= lo_rotations))).
Proof.
  induction 1 as [m s out s' Hc Hlast|m s out m' s1 outs s' Hc Ht Hm Hp IH]; intros pages latest w <- Hlen.
  - assert (run_prog (St := St) (if lo_truncated out then
        match lo_next_marker out, pages with
        | Some marker, S pages => aws_latest client key_id pages (Some marker) (foldl latest_of latest (lo_rotations out))
        | Some _, O => Throw (Text "more pages than the bound")
        | None, _ => mret (foldl latest_of latest (lo_rotations out))
        end else mret (foldl latest_of latest (lo_rotations out))) (set_os s' w)
      = (set_os s' w, Ok (foldl latest_of latest (lo_rotations out)))) as Hrest
      by (by destruct Hlast as [-> | ->]; [|destruct (lo_truncated out)]).
    destruct pages; cbn [aws_latest]; rewrite run_bind, (run_send_ok _ _ _ _ _ Hc), Hrest;
      simpl; by rewrite app_nil_r.
  - simpl in Hlen. destruct pages as [|pages]; [inversion Hp; simplify_eq/=; lia|].
    cbn [aws_latest]. rewrite run_bind, (run_send_ok _ _ _ _ _ Hc), Ht, Hm. cbv zeta.
    rewrite (IH pages _ (set_os s1 w)) by (done || lia). by rewrite bind_cons, foldl_app.
Qed.

(** [latest_of] keeps the greater date. *)
Lemma latest_of_le latest entry t :
  latest_of latest entry = Some t → ∀ t', latest = Some t' ∨ entry = Some t' → (t' ≤ t)%Z.
Proof.
  destruct entry as [secs|], latest as [current|]; simpl; intros [= <-] t' [[= <-]|[= <-]]; lia.
Qed.
Lemma latest_of_in latest entry t :
  latest_of latest entry = Some t → latest = Some t ∨ entry = Some t.
Proof.
  destruct entry as [secs|], latest as [current|]; simpl; intros [= <-]; auto.
  destruct (Z.max_spec current secs) as [[_ ->]|[_ ->]]; auto.
Qed.
Lemma latest_of_some latest entry t : latest = Some t → ∃ t', latest_of latest entry = Some t'.
Proof. intros ->. destruct entry; simpl; eauto. Qed.

Lemma latest_fold_some dates : ∀ latest t,
  latest = Some t → ∃ t', foldl latest_of latest dates = Some t' ∧ (t ≤ t')%Z.
Proof.
  induction dates as [|entry dates IH]; intros latest t Hl; simpl; [exists t; by split|].
  destruct (latest_of_some latest entry t Hl) as [t1 H1]. destruct (IH _ _ H1) as (t2 & ? & ?).
  exists t2. split; [done|]. pose proof (latest_of_le _ _ _ H1 t (or_introl Hl)). lia.
Qed.

Lemma latest_fold_max dates : ∀ latest t,
  foldl latest_of latest dates = Some t →
  (latest = Some t ∨ Some t ∈ dates) ∧ ∀ t', Some t' ∈ dates → (t' ≤ t)%Z.
Proof.
  induction dates as [|entry dates IH]; intros latest t Hf; simpl in *; [by split; [left|set_solver]|].
  destruct (IH _ _ Hf) as [Hin Hle]. split.
  - destruct Hin as [[?|?]%latest_of_in|?]; [by left|right; subst; by left|right; by right].
  - intros t' [<-|Ht']%elem_of_cons; [|by apply Hle].
    assert (∃ t1, latest_of latest (Some t') = Some t1 ∧ (t' ≤ t1)%Z) as (t1 & H1 & ?).
    { eexists. split; [done|]. case_match; lia. }
    destruct (latest_fold_some dates _ _ H1) as (t2 & Hf2 & ?). rewrite Hf in Hf2. simplify_eq. lia.
Qed.
End kms_thms.
