(* ===== verification/Cache.v ===== *)
(** * The data-key cache

    Models [cache.rs]: decrypted data keys by wrapped blob, for a limited time
    and in limited number.  Instants and durations are nanoseconds.  A
    [HashMap] iterates in an unspecified order, so the order is a parameter.
    The theorem follows a cache through any sequence of calls. *)

From S2P Require Import Prelude RustStr CoreTypes Redb Keys Model Engine Platform.

Definition MAX_ENTRIES : Z := 16384.

(** The order in which a [HashMap] yields its entries. *)
Class HashOrder := {
  hash_iter : DekMap → list (bytes * (Z * Dek));
  hash_iter_perm m : hash_iter m ≡ₚ map_to_list m;
}.

(** [stored.elapsed()] and [now.duration_since(stored)]: never negative. *)
Definition duration_since (now stored : Z) : Z := 0 `max` (now - stored).

(** [Iterator::min_by_key]: the first of the least. *)
Fixpoint min_by_key {A} (key : A → Z) (l : list A) : option A :=
  match l with
  | [] => None
  | x :: l =>
      match min_by_key key l with
      | Some y => if (key y <? key x)%Z then Some y else Some x
      | None => Some x
      end
  end.

(** [HashMap::retain] *)
Definition retain (p : Z * Dek → bool) (m : DekMap) : DekMap :=
  filter (λ entry, p entry.2 = true) m.

(** [ttl] in nanoseconds; the map is part of the shared world. *)
Record DekCache := { dc_ttl : Z }.

Module DekCache.
Section cache.
Context `{PL : !Platform, HO : !HashOrder} {St : Type} `{VS : !VaultStore St}.

Definition new (ttl_secs : Z) : DekCache := {| dc_ttl := ttl_secs * 1000000000 |}.

Definition enabled (self : DekCache) : bool := negb (dc_ttl self =? 0)%Z.

(** The critical section of [get]; the clock is read when the key is found. *)
Definition get_locked (self : DekCache) (wrapped : bytes) (map : DekMap) (os : Os)
    : Os * (DekMap * option Dek) :=
  match map !! wrapped with
  | Some (stored, dek) =>
      let '(os, now) := os_instant os in
      if (duration_since now stored <? dc_ttl self)%Z then (os, (map, Some dek))
      else (os, (delete wrapped map, None))
  | None => (os, (map, None))
  end.

Definition get {E} (self : DekCache) (wrapped : bytes) : prog St E (option Dek) :=
  if (dc_ttl self =? 0)%Z then mret None else act (CacheCall (get_locked self wrapped)).

Definition evict_stale (self : DekCache) (now : Z) (map : DekMap) : DekMap :=
  if (MAX_ENTRIES <=? Z.of_nat (size map))%Z
  then retain (λ '(stored, _), duration_since now stored <? dc_ttl self)%Z map else map.

Definition evict_oldest (map : DekMap) : DekMap :=
  if (MAX_ENTRIES <=? Z.of_nat (size map))%Z then
    match min_by_key (λ entry, entry.2.1) (hash_iter map) with
    | Some (oldest, _) => delete oldest map
    | None => map
    end
  else map.

(** The critical section of [put]. *)
Definition put_locked (self : DekCache) (now : Z) (wrapped : bytes) (dek : Dek) (map : DekMap) : DekMap :=
  <[wrapped := (now, dek)]> (evict_oldest (evict_stale self now map)).

Definition put {E} (self : DekCache) (wrapped : bytes) (dek : Dek) : prog St E unit :=
  if (dc_ttl self =? 0)%Z then mret tt else
  now ← act (OsCall os_instant);
  act (CacheCall (λ map os, (os, (put_locked self now wrapped dek map, tt)))).

End cache.
End DekCache.

(** ** Histories *)

Section histories.
Import DekCache.
Context `{PL : !Platform, HO : !HashOrder} {St : Type} `{VS : !VaultStore St}.

(** A call and the instant it read. *)
Inductive cache_call := CallGet (wrapped : bytes) (now : Z) | CallPut (wrapped : bytes) (dek : Dek) (now : Z).

Definition cache_step (self : DekCache) (map : DekMap) (c : cache_call) : DekMap * option Dek :=
  match c with
  | CallGet wrapped now =>
      match map !! wrapped with
      | Some (stored, dek) =>
          if (duration_since now stored <? dc_ttl self)%Z then (map, Some dek) else (delete wrapped map, None)
      | None => (map, None)
      end
  | CallPut wrapped dek now => (put_locked self now wrapped dek map, None)
  end.

(** The last [put] of a key, in a history with the latest call first. *)
Fixpoint last_put (wrapped : bytes) (history : list cache_call) : option (Z * Dek) :=
  match history with
  | [] => None
  | CallPut w dek now :: history =>
      if decide (w = wrapped) then Some (now, dek) else last_put wrapped history
  | CallGet _ _ :: history => last_put wrapped history
  end.

Fixpoint cache_after (self : DekCache) (history : list cache_call) : DekMap :=
  match history with
  | [] => ∅
  | c :: history => (cache_step self (cache_after self history) c).1
  end.

(** [get] and [put] are these steps. *)
Lemma get_is_step self wrapped (w : World St) :
  dc_ttl self ≠ 0%Z →
  ∃ now w', run_prog (E := cause) (get self wrapped) w
      = (w', Ok (cache_step self (w_cache w) (CallGet wrapped now)).2)
    ∧ w_cache w' = (cache_step self (w_cache w) (CallGet wrapped now)).1 ∧ w_store w' = w_store w.
Proof.
  intros Ht. unfold get. apply Z.eqb_neq in Ht as ->. rewrite run_act. simpl. unfold get_locked.
  destruct (w_cache w !! wrapped) as [[stored dek]|] eqn:E; simpl; [|by eexists 0%Z, _].
  destruct (os_instant (w_os w)) as [os now]. exists now.
  destruct (duration_since now stored <? dc_ttl self)%Z; simpl; by eexists.
Qed.

Lemma put_is_step self wrapped dek (w : World St) :
  dc_ttl self ≠ 0%Z →
  ∃ now w', run_prog (E := cause) (put self wrapped dek) w = (w', Ok tt)
    ∧ w_cache w' = (cache_step self (w_cache w) (CallPut wrapped dek now)).1 ∧ w_store w' = w_store w.
Proof.
  intros Ht. unfold put. apply Z.eqb_neq in Ht as ->. rewrite run_bind, !run_act. simpl.
  destruct (os_instant (w_os w)) as [os now]. simpl. by eexists now, _.
Qed.

(** ** Facts *)

Lemma min_by_key_elem {A} (key : A → Z) l x : min_by_key key l = Some x → x ∈ l.
Proof.
  revert x. induction l as [|y l IH]; simpl; [done|]. intros x.
  destruct (min_by_key key l) as [z|]; [|intros [= ->]; set_solver].
  destruct (_ <? _)%Z; intros [= ->]; set_solver.
Qed.

Lemma min_by_key_None {A} (key : A → Z) l : min_by_key key l = None → l = [].
Proof. destruct l as [|y l]; simpl; [done|]. destruct (min_by_key key l); [|done]. by case_match. Qed.

Lemma evict_stale_sub self now map : evict_stale self now map ⊆ map.
Proof. unfold evict_stale. case_match; [apply map_filter_subseteq|done]. Qed.
Lemma evict_oldest_sub map : evict_oldest map ⊆ map.
Proof. unfold evict_oldest. repeat case_match; try done. apply delete_subseteq. Qed.

Lemma evict_oldest_size map :
  (Z.of_nat (size map) ≤ MAX_ENTRIES)%Z → (Z.of_nat (size (evict_oldest map)) < MAX_ENTRIES)%Z.
Proof.
  intros Hs. unfold evict_oldest. destruct (Z.leb_spec MAX_ENTRIES (Z.of_nat (size map))) as [Hle|]; [|lia].
  destruct (min_by_key _ (hash_iter map)) as [[oldest [t d]]|] eqn:Hmin.
  - apply min_by_key_elem in Hmin. rewrite hash_iter_perm in Hmin. apply elem_of_map_to_list in Hmin.
    rewrite (map_size_delete_Some oldest) by eauto. unfold MAX_ENTRIES in *. lia.
  - apply min_by_key_None in Hmin. pose proof (hash_iter_perm map) as Hp. rewrite Hmin in Hp.
    apply Permutation_nil_l, eq_sym, map_to_list_empty_iff in Hp. rewrite Hp, map_size_empty in *.
    unfold MAX_ENTRIES in *. lia.
Qed.

Lemma put_locked_size self now wrapped dek map :
  (Z.of_nat (size map) ≤ MAX_ENTRIES)%Z →
  (Z.of_nat (size (put_locked self now wrapped dek map)) ≤ MAX_ENTRIES)%Z.
Proof.
  intros Hs. unfold put_locked.
  assert (Z.of_nat (size (evict_stale self now map)) ≤ MAX_ENTRIES)%Z as H1.
  { pose proof (map_subseteq_size _ _ (evict_stale_sub self now map)). lia. }
  apply evict_oldest_size in H1. rewrite map_size_insert. case_match; unfold id; lia.
Qed.

Lemma put_locked_entry self now wrapped dek map k e :
  put_locked self now wrapped dek map !! k = Some e →
  (k = wrapped ∧ e = (now, dek)) ∨ (k ≠ wrapped ∧ map !! k = Some e).
Proof.
  unfold put_locked. intros [[<- <-]|[Hne Hk]]%lookup_insert_Some; [by left|right]. split; [done|].
  eapply lookup_weaken; [done|]. etrans; [apply evict_oldest_sub|apply evict_stale_sub].
Qed.

(** The cache is bounded and never stale: after any history of calls it
    holds at most [MAX_ENTRIES] keys, each under the blob it was last put
    under, and a lookup answers only with the key last put under that very
    blob, less than the time to live ago; a key put and looked up within that
    time, with no call in between, is found. *)
Theorem cache_sound self history :
  let map := cache_after self history in
  (Z.of_nat (size map) ≤ MAX_ENTRIES)%Z
  ∧ (∀ k e, map !! k = Some e → last_put k history = Some e)
  ∧ (∀ k now dek, (cache_step self map (CallGet k now)).2 = Some dek →
       ∃ stored, last_put k history = Some (stored, dek) ∧ (now - stored < dc_ttl self)%Z)
  ∧ ∀ k dek stored now, (duration_since now stored < dc_ttl self)%Z →
      (cache_step self (cache_step self map (CallPut k dek stored)).1 (CallGet k now)).2 = Some dek.
Proof.
  assert (∀ map, (Z.of_nat (size map) ≤ MAX_ENTRIES)%Z ∧ (∀ k e, map !! k = Some e → last_put k history = Some e) →
    (∀ k now dek, (cache_step self map (CallGet k now)).2 = Some dek →
       ∃ stored, last_put k history = Some (stored, dek) ∧ (now - stored < dc_ttl self)%Z)) as Hget.
  { intros map [_ Hmap] k now dek. simpl. destruct (map !! k) as [[stored d]|] eqn:E; [|done].
    destruct (Z.ltb_spec (duration_since now stored) (dc_ttl self)) as [Hlt|]; simpl; [|done].
    intros [= ->]. exists stored. split; [by apply Hmap|]. unfold duration_since in Hlt. lia. }
  enough (∀ h, (Z.of_nat (size (cache_after self h)) ≤ MAX_ENTRIES)%Z
    ∧ ∀ k e, cache_after self h !! k = Some e → last_put k h = Some e) as H.
  { destruct (H history) as [H1 H2]. split; [done|]. split; [done|]. split; [by apply Hget|].
    intros k dek stored now Hlt. simpl. unfold put_locked. rewrite lookup_insert_eq.
    by apply Z.ltb_lt in Hlt as ->. }
  clear Hget. induction h as [|[k now|k dek now] h [IHs IHm]]; simpl.
  - split; [rewrite map_size_empty; done|]. intros k e. by rewrite lookup_empty.
  - destruct (cache_after self h !! k) as [[stored d]|] eqn:E; [|done].
    destruct (_ <? _)%Z; simpl; [done|]. split.
    + rewrite (map_size_delete_Some k) by eauto. lia.
    + intros k' e [_ Hk]%lookup_delete_Some. by apply IHm.
  - split; [by apply put_locked_size|]. intros k' e [[-> ->]|[Hne Hk]]%put_locked_entry.
    + by rewrite decide_True.
    + rewrite decide_False by done. by apply IHm.
Qed.
End histories.
