(* ===== verification/ApiTypes.v ===== *)
(** * Requests, responses and errors of the HTTP API

    Models [dto.rs] and [error.rs].  Field names keep a short prefix.  A message
    is the text the code builds, except that a conflict reported by the store
    keeps the values its text is made of. *)

From S2P Require Import Prelude RustStr CoreTypes Redb Keys Model.

(** The most a peer accepts in one request ([raft/types.rs]). *)
Definition RPC_BODY_LIMIT : Z := Z.shiftl 16 20.

(** ** dto.rs *)

Record CreateSecretRequest := {
  cr_name : string;
  cr_kind : SecretKind;
  cr_value : option string;
  cr_username : option string;
  cr_password : option string;
  cr_description : option string;
  cr_rotation_interval_secs : option Z;
  cr_grace_period_secs : option Z;
  cr_target : option RotationTarget;
}.

Record UpdateSecretRequest := {
  ur_value : option string;
  ur_username : option string;
  ur_password : option string;
  ur_description : option string;
  ur_rotation_interval_secs : option Z;
  ur_grace_period_secs : option Z;
}.

Record RewrapStatusResponse := {
  rs_enabled : bool;
  rs_busy : bool;
  rs_last_completed_rotation_at : option string;
  rs_latest_rotation_at : option string;
  rs_total_versions : Z;
  rs_pending_versions : Z;
}.

Record RewrapRunResponse := {
  rr_scanned : Z;
  rr_rewrapped : Z;
  rr_failed : Z;
  rr_target_rotation_at : option string;
}.

Record VerifyRequest := { vq_value : string }.
Record BatchGetRequest := { bg_names : list string }.
Record UserPass := { up_username : string; up_password : string }.

Record SecretMetadata := {
  sm_name : string;
  sm_kind : SecretKind;
  sm_format : SecretFormat;
  sm_description : option string;
  sm_version : Z;
  sm_rotation_interval_secs : option Z;
  sm_grace_period_secs : Z;
  sm_next_rotation_at : option string;
  sm_created_at : string;
  sm_updated_at : string;
  sm_target : option RotationTarget;
}.

Record SecretValue := {
  sv_name : string;
  sv_kind : SecretKind;
  sv_format : SecretFormat;
  sv_version : Z;
  sv_value : option string;
  sv_username : option string;
  sv_password : option string;
  sv_created_at : string;
}.

Record VerifyResponse := { vr_valid : bool; vr_version : option Z }.

Record PermissionRule := { pr_action : string; pr_path : string }.

Record CreateRoleRequest := {
  rq_name : string;
  rq_description : option string;
  rq_is_admin : bool;
  rq_permissions : list PermissionRule;
}.

Record SetPermissionsRequest := { sp_permissions : list PermissionRule }.

Record RoleInfo := {
  ri_name : string;
  ri_description : option string;
  ri_is_admin : bool;
  ri_permissions : list PermissionRule;
  ri_created_at : string;
}.

Record CreateTokenRequest := { tq_name : string; tq_role : string }.
Record TokenCreated := { tc_name : string; tc_role : string; tc_token : string }.

Record TokenInfo := {
  ti_name : string;
  ti_role : option string;
  ti_created_at : string;
  ti_last_used_at : option string;
  ti_revoked_at : option string;
}.

(** ** error.rs *)

(** The message of a conflict: a text of the service, or the store's. *)
Inductive conflict :=
| Plain (what : string)
| OfStore (msg : message).

Module Api.
Inductive ApiError :=
| Unauthorized
| Forbidden
| TooManyRequests
| NotFound
| BadRequest (what : string)
| Conflict (what : conflict)
| Internal (why : cause).
End Api.
Notation ApiError := Api.ApiError.
Notation ApiResult := (result ApiError).

(** The status code and the body of the response. *)
Definition parts (err : ApiError) : Z * conflict :=
  match err with
  | Api.Unauthorized => (401, Plain "unauthorized")
  | Api.Forbidden => (403, Plain "forbidden")
  | Api.TooManyRequests => (429, Plain "too many failed attempts; locked out")
  | Api.NotFound => (404, Plain "not found")
  | Api.BadRequest msg => (400, Plain msg)
  | Api.Conflict msg => (409, msg)
  | Api.Internal _ => (500, Plain "internal error")
  end%Z.

Definition from_anyhow (err : cause) : ApiError := Api.Internal err.
Definition from_core (err : CoreError) : ApiError := Api.Internal (CoreFailed err).
Definition from_store (err : StoreError) : ApiError :=
  match err with
  | NotFound => Api.NotFound
  | Conflict msg => Api.Conflict (OfStore msg)
  | VersionConflict => Api.Conflict (Plain "write conflict; retry the request")
  | Internal err => Api.Internal err
  end.
