(* ===== verification/PgApply.v ===== *)
(** * Applying a rotated password to Postgres

    Models [pg_apply.rs]: the list of hosts the vault may connect to, how a
    [host:port] is read, and the rotation of a credential on the first node
    that accepts it.  The Postgres client, rustls and the files and system
    store certificates come from are outside ([Platform]). *)

From S2P Require Import Prelude RustStr CoreTypes Redb Keys Model Engine Platform.

Inductive PgTlsMode := VerifyFull | Prefer | Disable.
#[global] Instance PgTlsMode_eq_dec : EqDecision PgTlsMode.
Proof. solve_decision. Defined.

Definition CONNECT_TIMEOUT : Z := 5.
Definition DEFAULT_PG_PORT : Z := 5432.

Definition parse_u16 (s : string) : option Z := parse_unsigned u16_max s.

Definition split_hostport (hostport : string) : string * Z :=
  match strip_prefix "[" hostport with
  | Some rest =>
      match split_once "]" rest with
      | Some (host, "") => (host, DEFAULT_PG_PORT)
      | Some (host, tail) =>
          match parse_u16 <$> strip_prefix ":" tail with
          | Some (Some port) => (host, port)
          | _ => (hostport, DEFAULT_PG_PORT)
          end
      | None => (hostport, DEFAULT_PG_PORT)
      end
  | None =>
      match rsplit_once ":" hostport with
      | Some (host, port) =>
          if negb (contains_char ":" host) then
            match parse_u16 port with
            | Some port => (host, port)
            | None => (hostport, DEFAULT_PG_PORT)
            end
          else (hostport, DEFAULT_PG_PORT)
      | None => (hostport, DEFAULT_PG_PORT)
      end
  end.

Definition push_host (hosts : list (string * Z)) (host : string) (port : Z) : list (string * Z) :=
  let host := to_ascii_lowercase host in
  if decide ((host, port) ∈ hosts) then hosts else hosts ++ [(host, port)].

Fixpoint parse_hosts_from (entries : list string) (hosts : list (string * Z))
    : result cause (list (string * Z)) :=
  match entries with
  | [] => Ok hosts
  | entry :: entries =>
      let entry := trim entry in
      if is_empty entry then parse_hosts_from entries hosts else
      let '(host, port) := split_hostport entry in
      if is_empty host
      then Err (Text ("VAULT_PG_TARGET_HOSTS entry '" +:+ entry +:+ "' has an empty host"))
      else parse_hosts_from entries (push_host hosts host port)
  end.

Definition parse_hosts (raw : string) : result cause (list (string * Z)) :=
  parse_hosts_from (split_char "," raw) [].

Section pg_apply.
Context `{PL : !Platform} {St : Type} `{VS : !VaultStore St}.

(** The loop over the certificates of a file; it counts those it added. *)
Fixpoint add_certs (path : string) (certs : list (result cause CertificateDer)) (roots : RootCertStore)
    (added : nat) : result cause (RootCertStore * nat) :=
  match certs with
  | [] => Ok (roots, added)
  | cert :: certs =>
      cert ← map_err (Context ("read VAULT_PG_TARGET_CA_FILE '" +:+ path +:+ "'")) cert;
      roots ← roots_add cert roots;
      add_certs path certs roots (S added)
  end.

Definition client_config (ca_file : option string) : prog St cause TlsConnector :=
  roots ← match ca_file with
    | Some path =>
        certs ← act (OsCall (os_pem_file path));
        certs ← of_result (map_err (Context ("open VAULT_PG_TARGET_CA_FILE '" +:+ path +:+ "'")) certs);
        '(roots, added) ← of_result (add_certs path certs roots_empty 0);
        if decide (added = 0)
        then Throw (Text ("VAULT_PG_TARGET_CA_FILE '" +:+ path +:+ "' contains no certificates"))
        else mret roots
    | None =>
        '(certs, errors) ← act (OsCall os_native_certs);
        let '(roots, added) := roots_add_parsable certs roots_empty in
        if decide (added = 0)
        then Throw (Text ("no usable certificates in the system trust store (" +:+ errors
                          +:+ "); set VAULT_PG_TARGET_CA_FILE"))
        else mret roots
    end;
  of_result (map_err (Context "rustls client config") (tls_client roots)).

Record PgTargetPolicy := {
  pp_hosts : list (string * Z);
  pp_mode : PgTlsMode;
  pp_tls : option TlsConnector;
}.

Definition from_hosts (hosts : list (string * Z)) (mode : PgTlsMode) (ca_file : option string)
    : prog St cause PgTargetPolicy :=
  tls ← match hosts with
        | [] => mret None
        | _ =>
            match mode with
            | Disable => mret None
            | VerifyFull =>
                tls ← client_config ca_file;
                mret (Some tls)
            | Prefer =>
                r ← attempt (client_config ca_file);
                mret (to_option r)
            end
        end;
  mret {| pp_hosts := hosts; pp_mode := mode; pp_tls := tls |}.

Definition build (raw_hosts : string) (mode : PgTlsMode) (ca_file : option string)
    : prog St cause PgTargetPolicy :=
  hosts ← of_result (parse_hosts raw_hosts);
  from_hosts hosts mode ca_file.

Definition seeded (hosts : list string) (mode : PgTlsMode) (ca_file : option string)
    : prog St cause PgTargetPolicy :=
  let parsed := foldl (λ parsed entry,
    let '(host, port) := split_hostport (trim entry) in
    if is_empty host then parsed else push_host parsed host port) [] hosts in
  from_hosts parsed mode ca_file.

Definition policy_is_empty (self : PgTargetPolicy) : bool := bool_decide (pp_hosts self = []).
Definition policy_len (self : PgTargetPolicy) : nat := length (pp_hosts self).
Definition tls_enabled (self : PgTargetPolicy) : bool :=
  match pp_tls self with Some _ => true | None => false end.
Definition tls_required (self : PgTargetPolicy) : bool :=
  tls_enabled self && bool_decide (pp_mode self = VerifyFull).
Definition policy_hosts (self : PgTargetPolicy) : list string :=
  (λ '(host, port), host +:+ ":" +:+ int_to_string port) <$> pp_hosts self.

Definition allows (self : PgTargetPolicy) (hostport : string) : bool :=
  let '(host, port) := split_hostport hostport in
  bool_decide ((to_ascii_lowercase host, port) ∈ pp_hosts self).

Fixpoint check_hosts (self : PgTargetPolicy) (hosts : list string) : result string unit :=
  match hosts with
  | [] => Ok tt
  | hostport :: hosts =>
      if allows self hostport then check_hosts self hosts
      else Err ("pg_replica host '" +:+ hostport +:+ "' is not in VAULT_PG_TARGET_HOSTS")
  end.

Definition check (self : PgTargetPolicy) (target : PgRoleTarget) : result string unit :=
  match pg_hosts target with
  | [] => Err "pg_replica target has no hosts"
  | hosts =>
      match pp_hosts self with
      | [] => Err "pg_replica targets are refused: VAULT_PG_TARGET_HOSTS is empty"
      | _ => check_hosts self hosts
      end
  end.

(** The connection is dropped when the query has answered. *)
Definition rotate_with (config : PgConfig) (tls : option TlsConnector) (host : string) (port : Z)
    (role new_password : string) : prog St cause bool :=
  let node := host +:+ ":" +:+ int_to_string port in
  outcome ← act (PgConnect config tls);
  match outcome with
  | Connected client =>
      r ← act (PgRotate client role new_password);
      of_result (map_err (λ err, Text ("rotate_credential on " +:+ node +:+ ": " +:+ err)) r)
  | ConnectFailed err => Throw (Text ("connect " +:+ node +:+ ": " +:+ err))
  | ConnectTimedOut => Throw (Text ("connect " +:+ node +:+ ": timed out"))
  end.

Definition pg_config (host : string) (port : Z) (database user password : string) (ssl : SslMode)
    : PgConfig := {|
  pc_host := host; pc_port := port; pc_dbname := database; pc_user := user; pc_password := password;
  pc_application_name := "hyperion-vault"; pc_connect_timeout_secs := 3; pc_ssl_mode := ssl |}.

Definition ssl_mode (self : PgTargetPolicy) : SslMode :=
  match pp_tls self, pp_mode self with
  | Some _, VerifyFull => SslRequire
  | Some _, _ => SslPrefer
  | None, _ => SslDisable
  end.

Definition try_rotate (self : PgTargetPolicy) (host : string) (port : Z)
    (database user password role new_password : string) : prog St cause bool :=
  rotate_with (pg_config host port database user password (ssl_mode self)) (pp_tls self)
    host port role new_password.

Fixpoint apply_hosts (policy : PgTargetPolicy) (target : PgRoleTarget) (hosts : list string)
    (login_user login_password role new_password : string) (last_err : option cause)
    : prog St cause unit :=
  match hosts with
  | [] => Throw (default (Text "no writable primary among pg_replica nodes") last_err)
  | hostport :: hosts =>
      let '(host, port) := split_hostport hostport in
      r ← attempt (try_rotate policy host port (pg_database target) login_user login_password
                     role new_password);
      match r with
      | Ok true => mret tt
      | Ok false => apply_hosts policy target hosts login_user login_password role new_password last_err
      | Err err => apply_hosts policy target hosts login_user login_password role new_password (Some err)
      end
  end.

Definition apply_password (policy : PgTargetPolicy) (target : PgRoleTarget)
    (login_user login_password role new_password : string) : prog St cause unit :=
  of_result (map_err Text (check policy target)) ;;
  apply_hosts policy target (pg_hosts target) login_user login_password role new_password None.
End pg_apply.

(** ** How a host and port are read *)

Lemma strip_bracket_none s : no_char "[" s = true → strip_prefix "[" s = None.
Proof.
  destruct s as [|a s]; [done|]. unfold no_char. cbn [all_bytes strip_prefix].
  intros [H _]%andb_true_iff. destruct (Ascii.eqb_spec "[" a) as [<-|]; [|done].
  by rewrite Ascii.eqb_refl in H.
Qed.

(** A target's address means what it says: a host name or IPv4 address with
    a port, or without one (then 5432), an IPv6 address in brackets with or
    without a port, and an IPv6 address without brackets, which is all host. *)
Theorem split_hostport_spec host port :
  no_char "[" host = true → no_char "]" host = true → (0 ≤ port ≤ u16_max)%Z →
  (no_char ":" host = true → split_hostport (host +:+ ":" +:+ dec port) = (host, port))
  ∧ (no_char ":" host = true → split_hostport host = (host, DEFAULT_PG_PORT))
  ∧ split_hostport ("[" +:+ host +:+ "]:" +:+ dec port) = (host, port)
  ∧ split_hostport ("[" +:+ host +:+ "]") = (host, DEFAULT_PG_PORT)
  ∧ (∀ a b, host = a +:+ ":" +:+ b → no_char ":" a = false →
     split_hostport host = (host, DEFAULT_PG_PORT)).
Proof.
  intros Hl Hr Hport. unfold split_hostport.
  assert (parse_u16 (dec port) = Some port) as Hparse.
  { apply parse_unsigned_dec; [done|]. unfold_ints. lia. }
  assert (no_char ":" (dec port) = true) as Hcolon by (apply dec_no_char; [lia|done]).
  split; [|split; [|split; [|split]]].
  - intros Hc. rewrite strip_bracket_none.
    2: { rewrite !no_char_append, Hl. simpl. apply dec_no_char; [lia|done]. }
    rewrite (proj2 (rsplit_once_Some ":" _ host (dec port))) by done.
    rewrite no_char_contains, Hc. simpl. by rewrite Hparse.
  - intros Hc. rewrite strip_bracket_none by done. by rewrite (proj2 (rsplit_once_None ":" host)).
  - simpl. rewrite (proj2 (split_once_Some "]" _ host (":" +:+ dec port))) by done. simpl. by rewrite Hparse.
  - simpl. by rewrite (proj2 (split_once_Some "]" _ host "")).
  - intros a b Heq Ha. rewrite strip_bracket_none by done.
    destruct (rsplit_once ":" host) as [[l r]|] eqn:E; [|done].
    apply rsplit_once_Some in E as [E Hnr].
    assert (no_char ":" l = false) as Hl'.
    { destruct (no_char ":" l) eqn:El; [|done]. exfalso.
      assert (split_once ":" host = Some (l, r)) as H1 by (by apply split_once_Some).
      destruct (split_once ":" a) as [[a1 a2]|] eqn:Ea; [|apply split_once_None in Ea; congruence].
      apply split_once_Some in Ea as [-> Ha1].
      assert (split_once ":" host = Some (a1, a2 +:+ String ":" b)) as H2.
      { apply split_once_Some. split; [|done]. rewrite Heq. by rewrite <- append_assoc. }
      rewrite H1 in H2. simplify_eq. rewrite no_char_append in Hnr. simpl in Hnr.
      by apply andb_true_iff in Hnr as [_ ?]. }
    by rewrite no_char_contains, Hl'.
Qed.

Lemma split_hostport_spec_witness :
  split_hostport ("db-1" +:+ ":" +:+ dec 6432) = ("db-1", 6432%Z)
  ∧ split_hostport ("[" +:+ "::1" +:+ "]:" +:+ dec 6432) = ("::1", 6432%Z).
Proof.
  split.
  - by apply (split_hostport_spec "db-1" 6432).
  - by apply (split_hostport_spec "::1" 6432).
Defined.

(** ** Which hosts are contacted *)

Section policy.
Context `{PL : !Platform} {St : Type} `{VS : !VaultStore St}.

(** Every connection the program may open satisfies [P]. *)
Fixpoint connects_within {E A} (P : PgConfig → option TlsConnector → Prop) (m : prog St E A) : Prop :=
  match m with
  | Ret _ | Throw _ => True
  | Act e k =>
      match e with PgConnect cfg tls => P cfg tls | _ => True end ∧ ∀ x, connects_within P (k x)
  end.

Lemma connects_bind {E A B} P (m : prog St E A) (f : A → prog St E B) :
  connects_within P m → (∀ a, connects_within P (f a)) → connects_within P (m ≫= f).
Proof.
  intros Hm Hf. induction m as [a|e|X e k IH]; simpl in *; [apply Hf|done|].
  destruct Hm as [? Hk]. split; [done|]. intros x. by apply IH.
Qed.
Lemma connects_attempt {E F A} P (m : prog St E A) :
  connects_within P m → connects_within P (attempt (F := F) m).
Proof.
  intros Hm. induction m as [a|e|X e k IH]; [done|done|].
  destruct Hm as [? Hk]. split; [done|]. intros x. by apply IH.
Qed.
Lemma connects_of_result {E A} P (r : result E A) : connects_within P (of_result (St := St) r).
Proof. by destruct r. Qed.

(** The connections a policy permits. *)
Definition permitted (policy : PgTargetPolicy) (cfg : PgConfig) (tls : option TlsConnector) : Prop :=
  (to_ascii_lowercase (pc_host cfg), pc_port cfg) ∈ pp_hosts policy
  ∧ tls = pp_tls policy ∧ pc_ssl_mode cfg = ssl_mode policy.

Lemma check_hosts_allows policy hosts :
  check_hosts policy hosts = Ok tt ↔ Forall (λ h, allows policy h = true) hosts.
Proof.
  induction hosts as [|h hosts IH]; simpl; [by split|]. rewrite Forall_cons.
  destruct (allows policy h); [rewrite IH; naive_solver|naive_solver].
Qed.

Lemma check_ok policy target :
  check policy target = Ok tt ↔
  pg_hosts target ≠ [] ∧ Forall (λ h, allows policy h = true) (pg_hosts target).
Proof.
  unfold check. destruct (pg_hosts target) as [|h hosts] eqn:Eh; [naive_solver|].
  destruct (pp_hosts policy) as [|p ps] eqn:Ep.
  - split; [done|]. intros [_ Hall]. apply Forall_cons in Hall as [Hh _]. exfalso. revert Hh.
    unfold allows. destruct (split_hostport h). rewrite Ep. by rewrite bool_decide_eq_true, elem_of_nil.
  - rewrite check_hosts_allows. naive_solver.
Qed.

Lemma try_rotate_permitted policy h host port database user password role new_password :
  split_hostport h = (host, port) → allows policy h = true →
  connects_within (permitted policy) (try_rotate policy host port database user password role new_password).
Proof.
  intros Hs Ha. unfold try_rotate, rotate_with. split.
  - unfold allows in Ha. rewrite Hs in Ha. by apply bool_decide_eq_true in Ha.
  - intros [client|err|]; [|done|done]. apply connects_bind; [done|]. intros r. apply connects_of_result.
Qed.

Lemma apply_hosts_permitted policy target hosts user password role new_password : ∀ last_err,
  Forall (λ h, allows policy h = true) hosts →
  connects_within (permitted policy) (apply_hosts policy target hosts user password role new_password last_err).
Proof.
  induction hosts as [|h hosts IH]; intros last_err Hall; [done|]. apply Forall_cons in Hall as [Hh Hall].
  cbn [apply_hosts]. destruct (split_hostport h) as [host port] eqn:Hs.
  apply connects_bind; [by eapply connects_attempt, try_rotate_permitted|].
  intros [[]|err]; [done|by apply IH..].
Qed.

(** The nodes [hosts], tried in order, all answer something else than [true]. *)
Inductive refused (try : string → prog St cause bool) : list string → World St → World St → Prop :=
| refused_none w : refused try [] w w
| refused_by h hosts w w1 r w2 :
    run_prog (try h) w = (w1, r) → r ≠ Ok true → refused try hosts w1 w2 → refused try (h :: hosts) w w2.

Lemma apply_hosts_ok policy target hosts user password role new_password : ∀ last_err w w',
  let try h := try_rotate policy (split_hostport h).1 (split_hostport h).2 (pg_database target)
                 user password role new_password in
  run_prog (apply_hosts policy target hosts user password role new_password last_err) w = (w', Ok tt) ↔
  ∃ pre h post w1, hosts = pre ++ h :: post ∧ refused try pre w w1 ∧ run_prog (try h) w1 = (w', Ok true).
Proof.
  induction hosts as [|h hosts IH]; intros last_err w w'; cbn zeta.
  { split; [done|]. by intros ([] & ? & ? & ? & [=] & _). }
  cbn [apply_hosts]. destruct (split_hostport h) as [host port] eqn:Hs.
  rewrite run_bind, run_attempt. cbn [fst snd].
  destruct (run_prog (try_rotate policy host port _ _ _ _ _) w) as [w1 r] eqn:Hr. cbn [fst snd].
  assert (∀ last_err', r ≠ Ok true →
    run_prog (apply_hosts policy target hosts user password role new_password last_err') w1 = (w', Ok tt) ↔
    ∃ pre h0 post w2, h :: hosts = pre ++ h0 :: post
      ∧ refused (λ h, try_rotate policy (split_hostport h).1 (split_hostport h).2 (pg_database target)
                        user password role new_password) pre w w2
      ∧ run_prog (try_rotate policy (split_hostport h0).1 (split_hostport h0).2 (pg_database target)
                   user password role new_password) w2 = (w', Ok true)) as Hnext.
  { intros last_err' Hne. rewrite IH. split.
    - intros (pre & h0 & post & w2 & -> & Href & Hok). exists (h :: pre), h0, post, w2. split; [done|].
      split; [|done]. econstructor; [|done|done]. by rewrite Hs.
    - intros ([|h1 pre] & h0 & post & w2 & Heq & Href & Hok); simplify_eq/=.
      + inversion Href; subst. rewrite Hs in Hok. cbn [fst snd] in Hok. congruence.
      + inversion Href as [|? ? ? w3 r' ? Hr' _ Href']; subst. rewrite Hs in Hr'. cbn [fst snd] in Hr'.
        rewrite Hr in Hr'. simplify_eq. eauto 10. }
  destruct r as [[]|err]; [|by apply Hnext..]. split.
  - intros [= <-]. exists [], h, hosts, w. split; [done|]. split; [constructor|]. by rewrite Hs.
  - intros ([|h1 pre] & h0 & post & w2 & Heq & Href & Hok); simplify_eq/=.
    + inversion Href; subst. rewrite Hs in Hok. cbn [fst snd] in Hok. rewrite run_ret. congruence.
    + inversion Href as [|? ? ? w3 r' ? Hr' Hne _]; subst. rewrite Hs in Hr'. cbn [fst snd] in Hr'. congruence.
Qed.

(** A connector that trusts at least one certificate, and only those of [roots]. *)
Definition verifying (tls : TlsConnector) : Prop := ∃ roots, tls_client roots = Ok tls ∧ 0 < roots_len roots.

Lemma add_certs_len `{PLL : !PlatformLaws} path certs : ∀ roots added roots' added',
  add_certs path certs roots added = Ok (roots', added') →
  roots_len roots = added → roots_len roots' = added'.
Proof.
  induction certs as [|cert certs IH]; intros roots added roots' added'; cbn [add_certs]; [by intros [= <- <-]|].
  unfold_monad. destruct cert as [cert|]; [|done]. cbn [map_err].
  destruct (roots_add cert roots) as [roots1|] eqn:Hadd; [|done]. intros H Hl.
  apply (IH _ _ _ _ H). by rewrite (roots_len_add _ _ _ Hadd), Hl.
Qed.

Lemma client_config_verifying `{PLL : !PlatformLaws} ca_file (w w' : World St) tls :
  run_prog (client_config ca_file) w = (w', Ok tls) → verifying tls.
Proof.
  unfold client_config. rewrite run_bind. destruct ca_file as [path|].
  - rewrite run_bind, run_act. destruct (step _ w) as [w1 [certs|e]]; [|done]. cbn [fst snd map_err].
    rewrite run_bind, run_of_result, run_bind, run_of_result.
    destruct (add_certs path certs roots_empty 0) as [[roots added]|e] eqn:Hadd; [|done].
    case_decide; [done|]. rewrite run_ret, run_of_result. destruct (tls_client roots) eqn:Ht; [|done].
    intros [= <- <-]. exists roots. split; [done|].
    rewrite (add_certs_len _ _ _ _ _ _ Hadd); [lia|apply roots_len_empty].
  - rewrite run_bind, run_act. destruct (step _ w) as [w1 [certs errors]]. cbn [fst snd].
    pose proof (roots_len_add_parsable certs roots_empty) as Hl.
    destruct (roots_add_parsable certs roots_empty) as [roots added]. cbn [fst snd] in Hl.
    case_decide; [done|]. rewrite run_ret, run_of_result. destruct (tls_client roots) eqn:Ht; [|done].
    intros [= <- <-]. exists roots. split; [done|]. lia.
Qed.

Lemma from_hosts_tls `{PLL : !PlatformLaws} hosts ca_file (w w' : World St) policy :
  run_prog (from_hosts hosts VerifyFull ca_file) w = (w', Ok policy) →
  pp_hosts policy = hosts
  ∧ (hosts ≠ [] → ssl_mode policy = SslRequire ∧ ∃ tls, pp_tls policy = Some tls ∧ verifying tls).
Proof.
  unfold from_hosts. destruct hosts as [|h hosts]; [by intros [= <- <-]|].
  rewrite run_bind, run_bind. destruct (run_prog (client_config ca_file) w) as [w1 [tls|e]] eqn:Hc; [|done].
  rewrite !run_ret. intros [= <- <-]. apply client_config_verifying in Hc. eauto.
Qed.

(** C31. A rotated password goes only where the operator allowed it.  Every
    connection [apply_password] opens is to a host and port of the policy, with
    the policy's TLS setting, which under [verify-full] is always TLS with a
    certificate verified against a non-empty set of roots; a target with any
    other host is refused before anything is opened.  The call succeeds exactly when some node accepts the
    rotation after all nodes listed before it did not. *)
Theorem apply_password_spec (policy : PgTargetPolicy) target user password role new_password :
  connects_within (permitted policy)
    (apply_password policy target user password role new_password)
  ∧ (∀ why, check policy target = Err why →
       apply_password (St := St) policy target user password role new_password = Throw (Text why))
  ∧ (∀ (w w' : World St), run_prog (apply_password policy target user password role new_password) w = (w', Ok tt) ↔
       check policy target = Ok tt
       ∧ let try h := try_rotate policy (split_hostport h).1 (split_hostport h).2 (pg_database target)
                        user password role new_password in
         ∃ pre h post w1, pg_hosts target = pre ++ h :: post ∧ refused try pre w w1
           ∧ run_prog (try h) w1 = (w', Ok true))
  ∧ ∀ raw ca_file (w w' : World St), PlatformLaws →
      run_prog (build raw VerifyFull ca_file) w = (w', Ok policy) → check policy target = Ok tt →
      ssl_mode policy = SslRequire ∧ ∃ tls, pp_tls policy = Some tls ∧ verifying tls.
Proof.
  split; [|split; [|split]].
  - unfold apply_password. destruct (check policy target) as [[]|why] eqn:Hc; [|done].
    apply check_ok in Hc as [_ Hall]. by apply apply_hosts_permitted.
  - intros why Hc. unfold apply_password. by rewrite Hc.
  - intros w w'. unfold apply_password. rewrite run_bind, run_of_result.
    destruct (check policy target) as [[]|why]; [|naive_solver]. cbn [map_err]. rewrite apply_hosts_ok. naive_solver.
  - intros raw ca_file w w' PLL Hb Hc. unfold build in Hb. rewrite run_bind, run_of_result in Hb.
    destruct (parse_hosts raw) as [hosts|e]; [|done]. apply from_hosts_tls in Hb as [Hh Htls].
    apply Htls. intros ->. apply check_ok in Hc as [Hne Hall].
    destruct (pg_hosts target) as [|h hosts]; [done|]. apply Forall_cons in Hall as [Ha _].
    unfold allows in Ha. destruct (split_hostport h). rewrite Hh in Ha.
    by rewrite bool_decide_eq_true, elem_of_nil in Ha.
Qed.
End policy.
