(* ===== verification/IpAddr.v ===== *)
(** * IP addresses and the read allowlist

    Models what the vault uses of the standard library's [IpAddr] (its text
    form, as printed by [Display] and read by [FromStr]) and
    [hyperion-vault-core]'s [ip_allowlist.rs].  The crate [ipnet] is a
    parameter. *)

From S2P Require Import Prelude RustStr CoreTypes.

(** ** std::net *)

(** Four octets, or eight 16-bit segments. *)
Record Ipv4Addr := { oct1 : Z; oct2 : Z; oct3 : Z; oct4 : Z }.
Inductive IpAddr := V4 (a : Ipv4Addr) | V6 (segments : list Z).

#[global] Instance Ipv4Addr_eq_dec : EqDecision Ipv4Addr.
Proof. solve_decision. Defined.
#[global] Instance IpAddr_eq_dec : EqDecision IpAddr.
Proof. solve_decision. Defined.

Definition ipv4_ok (a : Ipv4Addr) : Prop :=
  (0 ≤ oct1 a ≤ 255 ∧ 0 ≤ oct2 a ≤ 255 ∧ 0 ≤ oct3 a ≤ 255 ∧ 0 ≤ oct4 a ≤ 255)%Z.

(** *** Display *)

Definition ipv4_to_string (a : Ipv4Addr) : string :=
  dec (oct1 a) +:+ "." +:+ dec (oct2 a) +:+ "." +:+ dec (oct3 a) +:+ "." +:+ dec (oct4 a).

Definition hex_char (d : Z) : ascii :=
  if (d <? 10)%Z then digit_char d else ascii_of_N (Z.to_N (87 + d)).

(** [{:x}] of a [u16]: at most four digits. *)
Fixpoint hex_go (fuel : nat) (n : Z) (acc : string) : string :=
  match fuel with
  | O => acc
  | S fuel =>
      let acc' := String (hex_char (n `mod` 16)) acc in
      if (n <? 16)%Z then acc' else hex_go fuel (n `div` 16) acc'
  end.
Definition hex (n : Z) : string := hex_go 4 n "".

Fixpoint join (sep : string) (l : list string) : string :=
  match l with
  | [] => ""
  | [x] => x
  | x :: l => x +:+ sep +:+ join sep l
  end.

(** The first longest run of zero segments, as start and length. *)
Fixpoint longest_zeros (i : nat) (cur best : nat * nat) (segments : list Z) : nat * nat :=
  match segments with
  | [] => best
  | s :: segments =>
      if (s =? 0)%Z then
        let cur := if decide (cur.2 = 0) then (i, 1) else (cur.1, S cur.2) in
        longest_zeros (S i) cur (if decide (best.2 < cur.2) then cur else best) segments
      else longest_zeros (S i) (0, 0) best segments
  end.

Definition ipv6_to_string (segments : list Z) : string :=
  match segments with
  | [0; 0; 0; 0; 0; 65535; ab; cd]%Z =>
      "::ffff:" +:+ ipv4_to_string {| oct1 := ab `div` 256; oct2 := ab `mod` 256;
                                     oct3 := cd `div` 256; oct4 := cd `mod` 256 |}
  | _ =>
      let '(start, len) := longest_zeros 0 (0, 0) (0, 0) segments in
      if decide (1 < len)
      then join ":" (hex <$> take start segments) +:+ "::" +:+ join ":" (hex <$> drop (start + len) segments)
      else join ":" (hex <$> segments)
  end.

Definition ip_to_string (ip : IpAddr) : string :=
  match ip with V4 a => ipv4_to_string a | V6 segments => ipv6_to_string segments end.

(** *** FromStr

    The standard library's parser: each reader consumes a prefix or fails and
    consumes nothing. *)

Definition digit_of (radix : Z) (a : ascii) : option Z :=
  let n := Z.of_N (N_of_ascii a) in
  let v := if is_ascii_digit a then (n - 48)%Z
           else if is_ascii_lower a then (n - 87)%Z
           else if is_ascii_upper a then (n - 55)%Z else radix in
  if (v <? radix)%Z then Some v else None.

(** The digits at the front: their value, their number, and the rest. *)
Fixpoint read_digits (radix acc : Z) (count : nat) (s : string) : Z * nat * string :=
  match s with
  | "" => (acc, count, "")
  | String a s' =>
      match digit_of radix a with
      | Some d => read_digits radix (acc * radix + d) (S count) s'
      | None => (acc, count, s)
      end
  end.

Definition read_number (radix : Z) (max_digits : nat) (max : Z) (allow_zero_prefix : bool) (s : string)
    : option (Z * string) :=
  let '(v, count, rest) := read_digits radix 0 0 s in
  if decide (count = 0) then None
  else if decide (max_digits < count) then None
  else if (max <? v)%Z then None
  else if negb allow_zero_prefix && starts_with "0" s && bool_decide (1 < count) then None
  else Some (v, rest).

Definition read_given_char (c : ascii) (s : string) : option string :=
  match s with String a s => if Ascii.eqb a c then Some s else None | "" => None end.

Definition read_octet (s : string) : option (Z * string) := read_number 10 3 255 false s.

Definition read_ipv4_addr (s : string) : option (Ipv4Addr * string) :=
  '(a, s) ← read_octet s; s ← read_given_char "." s;
  '(b, s) ← read_octet s; s ← read_given_char "." s;
  '(c, s) ← read_octet s; s ← read_given_char "." s;
  '(d, s) ← read_octet s;
  Some ({| oct1 := a; oct2 := b; oct3 := c; oct4 := d |}, s).

Definition read_separator {A} (c : ascii) (i : nat) (inner : string → option (A * string)) (s : string)
    : option (A * string) :=
  match i with
  | O => inner s
  | S _ => s ← read_given_char c s; inner s
  end.

(** Up to [left] groups, the first of them the [i]-th: what was read, whether it
    ended with an IPv4 address, and the rest. *)
Fixpoint read_groups (left i : nat) (s : string) : list Z * bool * string :=
  match left with
  | O => ([], false, s)
  | S left' =>
      match (if decide (1 < left) then read_separator ":" i read_ipv4_addr s else None) with
      | Some (a, rest) => ([oct1 a * 256 + oct2 a; oct3 a * 256 + oct4 a]%Z, true, rest)
      | None =>
          match read_separator ":" i (read_number 16 4 65535 true) s with
          | Some (g, rest) =>
              let '(gs, v4, rest) := read_groups left' (S i) rest in (g :: gs, v4, rest)
          | None => ([], false, s)
          end
      end
  end.

Definition read_ipv6_addr (s : string) : option (list Z * string) :=
  let '(head, head_ipv4, s1) := read_groups 8 0 s in
  if decide (length head = 8) then Some (head, s1)
  else if head_ipv4 then None
  else
    s2 ← read_given_char ":" s1; s3 ← read_given_char ":" s2;
    let '(tail, _, s4) := read_groups (7 - length head) 0 s3 in
    Some (head ++ replicate (8 - length head - length tail) 0%Z ++ tail, s4).

(** [str::parse::<Ipv4Addr>]: at most fifteen bytes, all of them read. *)
Definition parse_ipv4 (s : string) : option Ipv4Addr :=
  if decide (15 < String.length s) then None
  else match read_ipv4_addr s with Some (a, "") => Some a | _ => None end.

(** [str::parse::<IpAddr>] *)
Definition parse_ip (s : string) : option IpAddr :=
  match read_ipv4_addr s with
  | Some (a, rest) => match rest with "" => Some (V4 a) | _ => None end
  | None => match read_ipv6_addr s with Some (gs, "") => Some (V6 gs) | _ => None end
  end.

(** ** ip_allowlist.rs *)

(** The crate [ipnet]: a network is parsed from [address/prefix] or made from an
    address and a prefix length. *)
Class Ipnet := {
  Ipv4Net : Type;
  net_from_str : string → option Ipv4Net;
  net_new : Ipv4Addr → Z → option Ipv4Net;
  net_contains : Ipv4Net → Ipv4Addr → bool;
}.

(** An address as a 32-bit number. *)
Definition ipv4_bits (a : Ipv4Addr) : Z :=
  (oct1 a * 2 ^ 24 + oct2 a * 2 ^ 16 + oct3 a * 2 ^ 8 + oct4 a)%Z.

(** What [ipnet] documents: a network contains the addresses that share the
    prefix of its address. *)
Definition same_prefix (prefix : Z) (a b : Ipv4Addr) : bool :=
  (Z.shiftr (ipv4_bits a) (32 - prefix) =? Z.shiftr (ipv4_bits b) (32 - prefix))%Z.

Class IpnetLaws `{!Ipnet} : Prop := {
  net_new_law a prefix : (0 ≤ prefix ≤ 32)%Z →
    ∃ n, net_new a prefix = Some n ∧ ∀ b, net_contains n b = same_prefix prefix a b;
  net_from_str_law a prefix : ipv4_ok a → (0 ≤ prefix ≤ 32)%Z →
    ∃ n, net_from_str (ipv4_to_string a +:+ "/" +:+ dec prefix) = Some n
      ∧ ∀ b, net_contains n b = same_prefix prefix a b;
}.

Section allowlist.
Context `{NET : !Ipnet}.

Record IpAllowlist := { nets : list Ipv4Net }.

(** One entry of the list, already trimmed. *)
Definition parse_entry (token : string) : result CoreError Ipv4Net :=
  if contains_char "/" token then ok_or (InvalidAllowlist token) (net_from_str token)
  else
    addr ← ok_or (InvalidAllowlist token) (parse_ipv4 token);
    ok_or (InvalidAllowlist token) (net_new addr 32).

Fixpoint parse_entries (raws : list string) : result CoreError (list Ipv4Net) :=
  match raws with
  | [] => Ok []
  | raw :: raws =>
      let token := trim raw in
      if is_empty token then parse_entries raws
      else net ← parse_entry token; nets ← parse_entries raws; Ok (net :: nets)
  end.

Definition parse_allowlist (spec : string) : result CoreError IpAllowlist :=
  nets ← parse_entries (split_char "," spec); Ok {| nets := nets |}.

Definition allowlist_is_empty (self : IpAllowlist) : bool := bool_decide (length (nets self) = 0).
Definition allowlist_len (self : IpAllowlist) : nat := length (nets self).
Definition allowlist_contains (self : IpAllowlist) (ip : Ipv4Addr) : bool :=
  existsb (λ net, net_contains net ip) (nets self).

(** ** Facts *)

Lemma digit_of_range radix a d : (0 ≤ radix)%Z → digit_of radix a = Some d → (0 ≤ d)%Z.
Proof.
  intros Hr. unfold digit_of, is_ascii_digit, is_ascii_lower, is_ascii_upper, byte_in.
  repeat case_match; intros [= <-]; try lia;
    repeat match goal with H : _ && _ = true |- _ => apply andb_true_iff in H as [H ?] end;
    repeat match goal with H : (_ <=? _)%N = true |- _ => apply N.leb_le in H end; lia.
Qed.

Lemma read_digits_nonneg radix s : (0 ≤ radix)%Z → ∀ acc count,
  (0 ≤ acc)%Z → (0 ≤ (read_digits radix acc count s).1.1)%Z.
Proof.
  intros Hr. induction s as [|a s IH]; intros acc count Hacc; simpl; [done|].
  destruct (digit_of radix a) as [d|] eqn:Hd; [|done]. apply IH.
  apply digit_of_range in Hd; [nia|done].
Qed.

Lemma read_octet_range s v rest : read_octet s = Some (v, rest) → (0 ≤ v ≤ 255)%Z.
Proof.
  unfold read_octet, read_number. pose proof (read_digits_nonneg 10 s ltac:(lia) 0 0 ltac:(lia)) as H.
  destruct (read_digits 10 0 0 s) as [[v' count] rest']. simpl in H.
  repeat case_match; intros [= <- <-]; try done.
  match goal with H : (255 <? _)%Z = false |- _ => apply Z.ltb_ge in H end. lia.
Qed.

Lemma parse_ipv4_ok s a : parse_ipv4 s = Some a → ipv4_ok a.
Proof.
  unfold parse_ipv4, read_ipv4_addr. case_decide; [done|]. intros Hp.
  repeat (match type of Hp with context [read_octet ?s] =>
    destruct (read_octet s) as [[? ?]|] eqn:?; simpl in Hp; [|done] end;
    try match type of Hp with context [read_given_char ?c ?s] =>
      destruct (read_given_char c s); simpl in Hp; [|done] end).
  case_match; simplify_eq/=. repeat split; simpl;
    match goal with H : read_octet _ = Some (?v, _) |- context [?v] => apply read_octet_range in H; lia end.
Qed.

(** The entries of a list, trimmed, without the empty ones. *)
Definition entries (spec : string) : list string :=
  filter (λ token, is_empty token = false) (trim <$> split_char "," spec).

(** The addresses an entry admits. *)
Definition admits (token : string) (ip : Ipv4Addr) : Prop :=
  if contains_char "/" token then ∃ net, net_from_str token = Some net ∧ net_contains net ip = true
  else parse_ipv4 token = Some ip.

Context `{NL : !IpnetLaws}.

Lemma same_prefix_32 a b : ipv4_ok a → ipv4_ok b → same_prefix 32 a b = true ↔ a = b.
Proof.
  unfold same_prefix, ipv4_ok, ipv4_bits. destruct a as [a1 a2 a3 a4], b as [b1 b2 b3 b4]; simpl.
  intros Ha Hb. rewrite Z.eqb_eq, !Z.shiftr_0_r. split; [|by intros [= -> -> -> ->]].
  intros Heq. f_equal; lia.
Qed.

Lemma parse_entry_admits token net ip :
  ipv4_ok ip → parse_entry token = Ok net → net_contains net ip = true ↔ admits token ip.
Proof using NL.
  intros Hip. unfold parse_entry, admits. unfold_monad. destruct (contains_char "/" token).
  - destruct (net_from_str token) as [n|]; [|done]. intros [= <-]. naive_solver.
  - destruct (parse_ipv4 token) as [a|] eqn:Ha; [|done]. apply parse_ipv4_ok in Ha.
    destruct (net_new_law a 32) as (n & -> & Hn); [lia|]. intros [= <-]. rewrite Hn, same_prefix_32 by done.
    naive_solver.
Qed.

Lemma parse_entries_spec raws :
  match parse_entries raws with
  | Ok ns => Forall2 (λ token net, parse_entry token = Ok net)
               (filter (λ token, is_empty token = false) (trim <$> raws)) ns
  | Err e => ∃ token, token ∈ filter (λ token, is_empty token = false) (trim <$> raws)
               ∧ parse_entry token = Err e
  end.
Proof.
  induction raws as [|raw raws IH]; simpl; [constructor|]. rewrite filter_cons.
  destruct (is_empty (trim raw)) eqn:Em; [by rewrite decide_False|]. rewrite decide_True by done.
  unfold_monad. destruct (parse_entry (trim raw)) as [net|e] eqn:Ep; [|by eexists; split; [left|]].
  destruct (parse_entries raws) as [ns|e]; [by constructor|].
  destruct IH as (token & ? & ?). exists token. split; [by right|done].
Qed.

Lemma parse_entry_error token e : parse_entry token = Err e → e = InvalidAllowlist token.
Proof. unfold parse_entry. unfold_monad. repeat case_match; congruence. Qed.

(** The read allowlist admits exactly what it lists: an address is contained
    when some entry names it or is a network that contains it, so that an
    empty list admits nobody; an entry that is neither is reported and nothing
    is admitted. *)
Theorem allowlist_spec spec :
  match parse_allowlist spec with
  | Ok al =>
      (∀ ip, ipv4_ok ip → allowlist_contains al ip = true ↔ Exists (λ token, admits token ip) (entries spec))
      ∧ (entries spec = [] ↔ allowlist_is_empty al = true)
  | Err e => ∃ token, token ∈ entries spec ∧ e = InvalidAllowlist token ∧ ∀ ip, ¬ admits token ip
  end.
Proof using NL.
  unfold parse_allowlist. pose proof (parse_entries_spec (split_char "," spec)) as H.
  unfold mbind, result_bind. destruct (parse_entries (split_char "," spec)) as [ns|e].
  - fold (entries spec) in H. split.
    + intros ip Hip. unfold allowlist_contains. simpl. rewrite existsb_Exists.
      induction H as [|token net tokens ns Hp _ IH]; [by rewrite !Exists_nil|].
      by rewrite !Exists_cons, IH, (parse_entry_admits token net ip Hip Hp).
    + unfold allowlist_is_empty. rewrite bool_decide_eq_true. simpl.
      rewrite <- (Forall2_length _ _ _ H). by rewrite length_zero_iff_nil.
  - destruct H as (token & Hin & Hp). exists token. split; [done|].
    split; [by apply parse_entry_error|]. intros ip. revert Hp. unfold admits, parse_entry. unfold_monad.
    destruct (contains_char "/" token).
    + destruct (net_from_str token); [done|]. naive_solver.
    + destruct (parse_ipv4 token) as [a|]; [|done]. destruct (net_new_law a 32) as (n & -> & _); [lia|done].
Qed.
End allowlist.

(** A network as its address and prefix length, read from [address/prefix]. *)
#[export] Instance prefix_net : Ipnet := {|
  Ipv4Net := Ipv4Addr * Z;
  net_from_str s :=
    '(addr, prefix) ← split_once "/" s;
    a ← parse_ipv4 addr; p ← parse_unsigned 32 prefix; Some (a, p);
  net_new a prefix := if decide (0 ≤ prefix ≤ 32)%Z then Some (a, prefix) else None;
  net_contains n b := same_prefix n.2 n.1 b |}.

(** An octet reads back from its text. *)
Lemma digit_of_digit a : is_ascii_digit a = true → digit_of 10 a = Some (digit_val a).
Proof.
  intros Ha. unfold digit_of. rewrite Ha. fold (digit_val a).
  assert (digit_val a <? 10 = true)%Z as ->; [|done].
  unfold is_ascii_digit, byte_in, digit_val in *. apply andb_true_iff in Ha as [_ H%N.leb_le]. lia.
Qed.

Lemma read_digits_digits s rest : all_bytes is_ascii_digit s = true →
  (rest = "" ∨ ∃ r, rest = String "." r) → ∀ acc count v, parse_acc acc s = Some v →
  read_digits 10 acc count (s +:+ rest) = (v, count + String.length s, rest).
Proof.
  intros Hs Hrest. induction s as [|a s IH]; intros acc count v Hp; simpl in *.
  - simplify_eq. rewrite Nat.add_0_r. by destruct Hrest as [->|[r ->]].
  - apply andb_true_iff in Hs as [Ha Hs]. rewrite Ha in Hp. rewrite (digit_of_digit a Ha).
    rewrite (IH Hs _ _ v) by done. f_equal. f_equal. lia.
Qed.

Definition octet_text_ok (v : Z) : bool :=
  match dec v with
  | "" => false
  | String "0" s => is_empty s
  | String _ _ => bool_decide (String.length (dec v) ≤ 3)
  end.

Lemma octet_text v : (0 ≤ v ≤ 255)%Z → octet_text_ok v = true.
Proof.
  intros Hv. assert (forallb octet_text_ok (seqZ 0 256) = true) as Hall by (vm_compute; reflexivity).
  rewrite forallb_Forall, Forall_seqZ in Hall. apply Hall. lia.
Qed.

Lemma read_octet_dec v rest :
  (0 ≤ v ≤ 255)%Z → (rest = "" ∨ ∃ r, rest = String "." r) → read_octet (dec v +:+ rest) = Some (v, rest).
Proof.
  intros Hv Hrest. unfold read_octet, read_number.
  rewrite (read_digits_digits (dec v) rest) with (v := v);
    [|apply all_digits_dec; lia|done|apply parse_dec; unfold_ints; lia].
  pose proof (octet_text v Hv) as Ht. unfold octet_text_ok in Ht.
  destruct (Z.ltb_spec 255 v); [lia|].
  destruct (dec v) as [|a s] eqn:E; [done|]. rewrite decide_False by (simpl; lia).
  destruct (Ascii.eqb_spec a "0") as [->|Hne].
  - destruct s as [|b s]; [|done]. done.
  - assert (bool_decide (String.length (String a s) ≤ 3) = true) as Hlen%bool_decide_eq_true.
    { by destruct a as [[] [] [] [] [] [] [] []]. }
    rewrite decide_False by lia.
    assert (starts_with "0" (String a s +:+ rest) = false) as ->; [|done].
    unfold starts_with. cbn [append strip_prefix]. destruct (Ascii.eqb_spec "0" a); congruence.
Qed.

Lemma length_octet v : (0 ≤ v ≤ 255)%Z → String.length (dec v) ≤ 3.
Proof. intros Hv. apply (length_dec_go 20 3 v ""); [simpl; lia|done]. Qed.

Lemma parse_ipv4_to_string a : ipv4_ok a → parse_ipv4 (ipv4_to_string a) = Some a.
Proof.
  intros (H1 & H2 & H3 & H4). unfold parse_ipv4, ipv4_to_string.
  rewrite decide_False.
  2: { rewrite !length_append. simpl.
       pose proof (length_octet _ H1). pose proof (length_octet _ H2).
       pose proof (length_octet _ H3). pose proof (length_octet _ H4). lia. }
  unfold read_ipv4_addr.
  rewrite read_octet_dec by (eauto || done). simpl. rewrite read_octet_dec by (eauto || done). simpl.
  rewrite read_octet_dec by (eauto || done). simpl.
  rewrite <- (append_nil_r (dec (oct4 a))). rewrite read_octet_dec by (eauto || done). simpl. by destruct a.
Qed.

#[export] Instance prefix_net_laws : IpnetLaws.
Proof.
  split.
  - intros a prefix Hp. exists (a, prefix). simpl. by rewrite decide_True.
  - intros a prefix Ha Hp. exists (a, prefix). split; [|done]. simpl.
    assert (no_char "/" (ipv4_to_string a) = true) as Hno.
    { destruct Ha as (? & ? & ? & ?). unfold ipv4_to_string.
      by rewrite !no_char_append, !dec_no_char by (done || lia). }
    rewrite (proj2 (split_once_Some "/" _ _ (dec prefix)) (conj eq_refl Hno)). simpl.
    rewrite parse_ipv4_to_string by done. simpl. rewrite parse_unsigned_dec by (unfold_ints; lia). done.
Qed.

Definition sample_ip : Ipv4Addr := {| oct1 := 10; oct2 := 1; oct3 := 2; oct4 := 3 |}.

Lemma allowlist_spec_witness :
  ∃ al, parse_allowlist "192.168.1.7, 10.0.0.0/8" = Ok al ∧ allowlist_contains al sample_ip = true.
Proof.
  assert (is_ok (parse_allowlist "192.168.1.7, 10.0.0.0/8") = true) as Hok by (vm_compute; reflexivity).
  pose proof (allowlist_spec "192.168.1.7, 10.0.0.0/8") as H.
  destruct (parse_allowlist "192.168.1.7, 10.0.0.0/8") as [al|e]; [|discriminate Hok].
  exists al. split; [reflexivity|]. apply H.
  - vm_compute. repeat split; discriminate.
  - apply Exists_exists. exists "10.0.0.0/8". split.
    + assert (entries "192.168.1.7, 10.0.0.0/8" = ["192.168.1.7"; "10.0.0.0/8"]) as -> by (vm_compute; reflexivity).
      right. left.
    + exists ({| oct1 := 10; oct2 := 0; oct3 := 0; oct4 := 0 |}, 8)%Z. split; reflexivity.
Defined.
