(* ===== verification/Guards.v ===== *)
(** * Who may call: lockouts, guards, authorization

    Models [state.rs], [lockout.rs], [guards.rs] and [authz.rs]: the state every
    handler is given, the per-address failure counters, the two extractors that
    let a request in, and the permission checks.

    [Parts] holds what the HTTP crates make of a request: the text of the two
    headers the code reads ([None] when absent or not text) and the address of
    the TCP peer. *)

From S2P Require Import Prelude RustStr CoreTypes Redb Keys Model Apply Engine Platform Crypto Kms Cache.
From S2P Require Import ApiTypes PgApply IpAddr.

(** ** state.rs *)

Section state.
Context `{PL : !Platform, NET : !Ipnet} {St : Type}.

(** The store, the cached keys and the busy flag are in the [World]; [st_raft]
    says whether the node is part of a cluster. *)
Record AppState := {
  st_kms : KmsProvider St;
  st_dek_cache : DekCache;
  st_allowlist : IpAllowlist;
  st_trust_proxy : bool;
  st_pg_targets : PgTargetPolicy;
  st_node_id : Z;
  st_raft : bool;
  st_auth_max_failures : Z;
  st_auth_lockout_secs : Z;
  st_auth_window_secs : Z;
  st_token_touch_secs : Z;
  st_kms_rewrap_enabled : bool;
  st_kms_rewrap_max_per_sec : Z;
}.
End state.
Arguments AppState {PL NET} St.

Section guards.
Context `{CC : !CryptoCrates, PL : !Platform, NET : !Ipnet} {St : Type} `{VS : !VaultStore St}.
Implicit Types (state : AppState St).

(** [state.store.f().await?] *)
Definition store_read {X} (f : St → StoreResult X) : prog St ApiError X :=
  r ← act (StoreRead f); of_result (map_err from_store r).
Definition store_apply (c : Command) : prog St ApiError unit :=
  r ← act (StoreApply c); of_result (map_err from_store r).

(** ** lockout.rs *)

Definition check_key state (key : string) : prog St ApiError unit :=
  if (st_auth_max_failures state =? 0)%Z then mret tt else
  record ← store_read (vs_lockout key);
  match record with
  | Some record =>
      match l_locked_until record with
      | Some until =>
          now ← now_unix;
          if (now <? until)%Z then Throw Api.TooManyRequests else mret tt
      | None => mret tt
      end
  | None => mret tt
  end.

(** A failure to record is logged and forgotten. *)
Definition record_key {E} state (key : string) : prog St E unit :=
  if (st_auth_max_failures state =? 0)%Z then mret tt else
  now ← now_unix;
  _ ← act (StoreApply (RecordAuthFailure key now (st_auth_max_failures state)
                         (st_auth_window_secs state) (st_auth_lockout_secs state)));
  mret tt.

Definition check_ip state (ip : IpAddr) : prog St ApiError unit := check_key state (ip_to_string ip).

Definition lockout_check state (ip : option IpAddr) : prog St ApiError unit :=
  if (st_auth_max_failures state =? 0)%Z then mret tt else
  match ip with Some ip => check_ip state ip | None => mret tt end.

Definition lockout_record {E} state (ip : option IpAddr) : prog St E unit :=
  match ip with Some ip => record_key state (ip_to_string ip) | None => mret tt end.

Definition verify_key (peer : IpAddr) (secret : string) : string :=
  "verify:" +:+ ip_to_string peer +:+ ":" +:+ secret.

Definition check_verify state (peer : IpAddr) (secret : string) : prog St ApiError unit :=
  check_key state (verify_key peer secret).
Definition record_verify {E} state (peer : IpAddr) (secret : string) : prog St E unit :=
  record_key state (verify_key peer secret).

(** ** guards.rs *)

Record Parts := {
  p_authorization : option string;
  p_forwarded_for : option string;
  p_connect_ip : option IpAddr;
}.

Definition bearer_token (parts : Parts) : option string :=
  header ← p_authorization parts;
  token ← match strip_prefix "Bearer " header with
          | Some token => Some token
          | None => strip_prefix "bearer " header
          end;
  let token := trim token in
  if is_empty token then None else Some token.

Definition peer_ip (parts : Parts) : option IpAddr := p_connect_ip parts.

Definition client_ip (parts : Parts) (trust_proxy : bool) : option IpAddr :=
  let forwarded :=
    if trust_proxy
    then value ← p_forwarded_for parts;
         first ← head (split_char "," value);
         parse_ip (trim first)
    else None in
  match forwarded with Some ip => Some ip | None => peer_ip parts end.

Record AdminActor := {
  aa_name : string;
  aa_is_admin : bool;
  aa_rules : list (string * string);
  aa_client_ip : option IpAddr;
  aa_peer_ip : option IpAddr;
}.

Definition role_of (token_record : TokenRecord) : prog St ApiError (bool * list (string * string)) :=
  match t_role token_record with
  | Some role_name =>
      role ← store_read (vs_role role_name);
      mret match role with
           | Some role => (r_is_admin role, r_permissions role)
           | None => (false, [])
           end
  | None => mret (false, [])
  end.

Definition touch_due state (token_record : TokenRecord) (now : Z) : bool :=
  match t_last_used_at token_record with
  | None => true
  | Some at_ => (st_token_touch_secs state <=? sat_i64 (now - at_))%Z
  end.

Definition admin_from_request_parts state (parts : Parts) : prog St ApiError AdminActor :=
  let ip := client_ip parts (st_trust_proxy state) in
  let peer := peer_ip parts in
  lockout_check state peer ;;
  match bearer_token parts with
  | None => lockout_record state peer ;; Throw Api.Unauthorized
  | Some token =>
      let fp := fingerprint token in
      record ← store_read (vs_token_by_fingerprint fp);
      match record with
      | Some token_record =>
          match t_revoked_at token_record with
          | None =>
              '(is_admin, rules) ← role_of token_record;
              now ← now_unix;
              (if touch_due state token_record now
               then _ ← act (StoreApply (TouchToken fp now)); mret tt
               else mret tt) ;;
              mret {| aa_name := t_name token_record; aa_is_admin := is_admin; aa_rules := rules;
                      aa_client_ip := ip; aa_peer_ip := peer |}
          | Some _ => lockout_record state peer ;; Throw Api.Unauthorized
          end
      | None => lockout_record state peer ;; Throw Api.Unauthorized
      end
  end.

Record ReaderGuard := { rg_client_ip : Ipv4Addr; rg_peer_ip : IpAddr }.

Definition reader_from_request_parts state (parts : Parts) : prog St ApiError ReaderGuard :=
  peer ← of_result (ok_or Api.Forbidden (peer_ip parts));
  ip ← of_result (ok_or Api.Forbidden (client_ip parts (st_trust_proxy state)));
  check_ip state peer ;;
  match ip with
  | V4 v4 =>
      if allowlist_contains (st_allowlist state) v4
      then mret {| rg_client_ip := v4; rg_peer_ip := peer |}
      else lockout_record state (Some peer) ;; Throw Api.Forbidden
  | V6 _ => lockout_record state (Some peer) ;; Throw Api.Forbidden
  end.

(** ** authz.rs *)

Definition authz_authorize state (actor : AdminActor) (action name : string) : prog St ApiError unit :=
  if authorize (aa_is_admin actor) (aa_rules actor) action name then mret tt
  else lockout_record state (aa_peer_ip actor) ;; Throw Api.Forbidden.

Definition authorize_rotation_target state (actor : AdminActor) (req : CreateSecretRequest)
    : prog St ApiError unit :=
  match cr_target req with
  | None => mret tt
  | Some (PgReplica pg) =>
      match pg_login_secret pg with
      | Some login =>
          if visible (aa_is_admin actor) (aa_rules actor) login then mret tt
          else lockout_record state (aa_peer_ip actor) ;; Throw Api.Forbidden
      | None => mret tt
      end ;;
      match pg_role pg with
      | Some role =>
          let username := default "" (cr_username req) in
          if negb (aa_is_admin actor) && negb (bool_decide (role = username))
          then lockout_record state (aa_peer_ip actor) ;; Throw Api.Forbidden
          else mret tt
      | None => mret tt
      end
  end.

Definition require_admin state (actor : AdminActor) : prog St ApiError unit :=
  if aa_is_admin actor then mret tt
  else lockout_record state (aa_peer_ip actor) ;; Throw Api.Forbidden.
End guards.
