(* ===== verification/Service.v ===== *)
(** * The secret service

    Models [service.rs]: creating, reading, updating, deleting, rotating and
    verifying secrets.  A handler is a [prog] over the shared world; sealing and
    opening go through the key-management provider and the data-key cache. *)

From S2P Require Import Prelude RustStr CoreTypes Redb Keys Model Apply Engine Platform Crypto Kms Cache.
From S2P Require Import ApiTypes PgApply IpAddr Guards.

Definition MAX_VALUE_LEN : nat := Z.to_nat 65536.
Definition MAX_BATCH : nat := Z.to_nat 256.
Definition APPLY_RETRY_SECS : Z := 60.
Definition MAX_LOGIN_CANDIDATES : nat := 4.

Record Payload := {
  pl_format : SecretFormat;
  pl_bytes : bytes;
  pl_value : option string;
  pl_username : option string;
  pl_password : option string;
}.

(** The values that are there. *)
Definition present {A} (l : list (option A)) : list A := omap id l.

(** ** Validation *)

Definition bad_request {A} (what : string) : ApiResult A := Err (Api.BadRequest what).

Definition validate_name (name : string) : ApiResult unit :=
  if is_empty name || bool_decide (MAX_SECRET_NAME_LEN < String.length name)
  then bad_request ("secret name must be between 1 and " +:+ int_to_string (Z.of_nat MAX_SECRET_NAME_LEN) +:+ " characters")
  else if negb (is_valid_secret_name name)
  then bad_request "secret name may contain only [A-Za-z0-9-_/.]"
  else if negb (is_normalized_secret_name name)
  then bad_request "secret name must not start or end with '/', or contain an empty, '.' or '..' segment"
  else Ok tt.

Definition known_name (name : string) : ApiResult unit :=
  if is_valid_secret_name name then Ok tt else Err Api.NotFound.

Definition too_many_versions : ApiError :=
  Api.Conflict (Plain "secret has reached the maximum version number").

Definition validate_interval (secs : Z) : ApiResult unit :=
  if (secs <=? 0)%Z then bad_request "rotation_interval_secs must be positive"
  else if (MAX_ROTATION_INTERVAL_SECS <? secs)%Z
  then bad_request ("rotation_interval_secs must not exceed " +:+ int_to_string MAX_ROTATION_INTERVAL_SECS)
  else Ok tt.

Definition validate_value (value : string) : ApiResult unit :=
  if is_empty value then bad_request "secret value must not be empty"
  else if decide (MAX_VALUE_LEN < String.length value) then bad_request "secret value is too large"
  else Ok tt.

Definition validate_field (label value : string) : ApiResult unit :=
  if is_empty value then bad_request (label +:+ " must not be empty")
  else if decide (MAX_VALUE_LEN < String.length value) then bad_request (label +:+ " is too large")
  else Ok tt.

Definition normalize_grace (grace : option Z) : ApiResult Z :=
  match grace with
  | None => Ok 0%Z
  | Some secs =>
      if (secs <? 0)%Z then bad_request "grace_period_secs must not be negative"
      else if (MAX_GRACE_SECS <? secs)%Z
      then bad_request ("grace_period_secs must not exceed " +:+ int_to_string MAX_GRACE_SECS)
      else Ok secs
  end.

Section service.
Context `{CC : !CryptoCrates, PL : !Platform, NET : !Ipnet, HO : !HashOrder, UP : !Serde UserPass}.
Context {St : Type} `{VS : !VaultStore St}.
Implicit Types (state : AppState St).

Definition validate_target state (target : RotationTarget) : ApiResult unit :=
  match target with
  | PgReplica pg =>
      match pg_login_secret pg with Some login => validate_name login | None => Ok tt end ;;
      match pg_role pg with Some role => validate_field "target.role" role | None => Ok tt end ;;
      map_err Api.BadRequest (check (st_pg_targets state) pg)
  end.

(** ** The audit log *)

(** A failure to write the entry is logged and forgotten. *)
Definition audit {E} (actor : option string) (client_ip : option Ipv4Addr) (action : string)
    (secret_name : option string) (outcome : string) : prog St E unit :=
  now ← now_unix;
  _ ← act (StoreApply (AppendAudit {|
    a_at := now; a_actor := actor; a_client_ip := ipv4_to_string <$> client_ip;
    a_action := action; a_secret_name := secret_name; a_outcome := outcome; a_node_id := 0 |}));
  mret tt.

(** ** Payloads *)

(** [expect]: serializing two strings does not fail. *)
Definition encode_userpass (username password : string) : bytes :=
  default [] (to_vec {| up_username := username; up_password := password |}).

Definition decode_userpass (bs : bytes) : ApiResult UserPass :=
  ok_or (Api.Internal "stored userpass payload is malformed") (from_slice bs).

Definition decode_payload (format : SecretFormat) (plaintext : bytes)
    : ApiResult (option string * option string * option string) :=
  match format with
  | Opaque =>
      value ← ok_or (Api.Internal "decrypted value is not valid UTF-8") (from_utf8 plaintext);
      Ok (Some value, None, None)
  | Userpass =>
      up ← decode_userpass plaintext;
      Ok (None, Some (up_username up), Some (up_password up))
  end.

Definition opaque_payload (value : string) : Payload := {|
  pl_format := Opaque; pl_bytes := as_bytes value; pl_value := Some value;
  pl_username := None; pl_password := None |}.

Definition userpass_payload (username password : string) : Payload := {|
  pl_format := Userpass; pl_bytes := encode_userpass username password; pl_value := None;
  pl_username := Some username; pl_password := Some password |}.

Definition build_create_payload (req : CreateSecretRequest) : prog St ApiError Payload :=
  if bool_decide (is_Some (cr_username req)) || bool_decide (is_Some (cr_password req)) then
    if bool_decide (is_Some (cr_value req))
    then of_result (bad_request "provide either 'value' or 'username'/'password', not both") else
    username ← of_result (ok_or (Api.BadRequest "userpass secret requires 'username'") (cr_username req));
    of_result (validate_field "username" username) ;;
    password ← match cr_kind req, cr_password req with
               | _, Some password => of_result (validate_field "password" password) ;; mret password
               | Manual, None => of_result (bad_request "manual userpass secret requires 'password'")
               | Automatic, None => generate_token
               end;
    mret (userpass_payload username password)
  else
    value ← match cr_kind req, cr_value req with
            | _, Some value => of_result (validate_value value) ;; mret value
            | Manual, None => of_result (bad_request "manual secret requires 'value'")
            | Automatic, None => generate_token
            end;
    mret (opaque_payload value).

(** ** Sealing and opening *)

Definition key_context (name : string) (version : Z) : context :=
  [("secret", name); ("version", int_to_string version)].

Definition seal_version state (name : string) (version : Z) (plaintext : bytes) (now : Z)
    : prog St ApiError VersionRecord :=
  let aad := aad_for name version in
  data_key ← prog_map_err from_anyhow (kms_generate_data_key (st_kms state) (key_context name version));
  nonce ← generate_nonce;
  ciphertext ← of_result (map_err from_core (seal (dk_plaintext data_key) nonce aad plaintext));
  rewrap ← store_read vs_kms_rewrap_state;
  let generation := match rewrap with Some s => k_last_completed_rotation_at s | None => 0%Z end in
  mret {| v_version := version; v_kms_key_id := dk_key_id data_key; v_wrapped_dek := dk_wrapped data_key;
          v_nonce := nonce; v_ciphertext := ciphertext; v_aad := aad; v_created_at := now;
          v_expires_at := None; v_wrapped_rotation_at := Some generation |}.

Definition open_version state (name : string) (version : Z) (record : VersionRecord)
    : prog St ApiError bytes :=
  let aad := aad_for name version in
  if negb (bool_decide (v_aad record = aad))
  then Throw (Api.Internal "stored aad does not match secret identity (possible tampering)") else
  if negb (bool_decide (length (v_nonce record) = NONCE_LEN))
  then Throw (Api.Internal "stored nonce has invalid length") else
  cached ← DekCache.get (st_dek_cache state) (v_wrapped_dek record);
  dek ← match cached with
        | Some dek => mret dek
        | None =>
            dek ← prog_map_err from_anyhow
              (kms_decrypt_data_key (st_kms state) (v_wrapped_dek record) (v_kms_key_id record)
                 (key_context name version));
            DekCache.put (st_dek_cache state) (v_wrapped_dek record) dek ;;
            mret dek
        end;
  of_result (map_err from_core (open dek (v_nonce record) aad (v_ciphertext record))).

Definition load_userpass state (name : string) (version : Z) : prog St ApiError UserPass :=
  record ← store_read (vs_version name version);
  record ← of_result (ok_or (Api.Internal "current version row missing") record);
  plaintext ← open_version state name version record;
  of_result (decode_userpass plaintext).

Definition load_current_userpass state (name : string) : prog St ApiError UserPass :=
  row ← store_read (vs_current_version name);
  '(_, version) ← of_result (ok_or (Api.Internal (Text ("login secret '" +:+ name +:+ "' not found"))) row);
  plaintext ← open_version state name (v_version version) version;
  of_result (decode_userpass plaintext).

Definition to_metadata (secret : SecretRecord) : SecretMetadata := {|
  sm_name := s_name secret; sm_kind := s_kind secret; sm_format := s_format secret;
  sm_description := s_description secret; sm_version := s_current_version secret;
  sm_rotation_interval_secs := s_rotation_interval_secs secret;
  sm_grace_period_secs := s_grace_secs secret;
  sm_next_rotation_at := rfc3339_opt (s_next_rotation_at secret);
  sm_created_at := rfc3339 (s_created_at secret); sm_updated_at := rfc3339 (s_updated_at secret);
  sm_target := s_target secret |}.

Definition load_metadata (name : string) : prog St ApiError SecretMetadata :=
  secret ← store_read (vs_secret name);
  secret ← of_result (ok_or Api.NotFound secret);
  mret (to_metadata secret).

(** ** create_secret *)

Definition create_secret state (actor : string) (req : CreateSecretRequest) : prog St ApiError SecretValue :=
  of_result (validate_name (cr_name req)) ;;
  grace ← of_result (normalize_grace (cr_grace_period_secs req));
  of_result (match cr_target req with Some target => validate_target state target | None => Ok tt end) ;;
  of_result (match cr_rotation_interval_secs req with Some secs => validate_interval secs | None => Ok tt end) ;;
  (if bool_decide (cr_kind req = Automatic) && negb (bool_decide (is_Some (cr_rotation_interval_secs req)))
   then of_result (bad_request "automatic secret requires positive 'rotation_interval_secs'")
   else mret tt) ;;
  payload ← build_create_payload req;
  now ← now_unix;
  version ← seal_version state (cr_name req) 1 (pl_bytes payload) now;
  let next_rotation_at :=
    if bool_decide (cr_kind req = Automatic) then next_rotation_unix now <$> cr_rotation_interval_secs req
    else None in
  let secret := {|
    s_name := cr_name req; s_kind := cr_kind req; s_format := pl_format payload;
    s_description := cr_description req; s_rotation_interval_secs := cr_rotation_interval_secs req;
    s_grace_secs := grace; s_current_version := 1; s_next_rotation_at := next_rotation_at;
    s_created_at := now; s_updated_at := now; s_target := cr_target req |} in
  store_apply (CreateSecret secret version) ;;
  audit (Some actor) None "create" (Some (cr_name req)) "ok" ;;
  mret {| sv_name := cr_name req; sv_kind := cr_kind req; sv_format := pl_format payload; sv_version := 1;
          sv_value := pl_value payload; sv_username := pl_username payload;
          sv_password := pl_password payload; sv_created_at := rfc3339 now |}.

(** ** get_secret, get_secrets, list_secrets *)

Definition value_of (name : string) (secret : SecretRecord) (version : VersionRecord)
    (payload : option string * option string * option string) : SecretValue := {|
  sv_name := name; sv_kind := s_kind secret; sv_format := s_format secret; sv_version := v_version version;
  sv_value := payload.1.1; sv_username := payload.1.2; sv_password := payload.2;
  sv_created_at := rfc3339 (v_created_at version) |}.

Definition get_secret state (name : string) (client_ip : Ipv4Addr) : prog St ApiError SecretValue :=
  of_result (known_name name) ;;
  row ← store_read (vs_current_version name);
  match row with
  | Some (secret, version) =>
      plaintext ← open_version state name (v_version version) version;
      payload ← of_result (decode_payload (s_format secret) plaintext);
      audit None (Some client_ip) "get" (Some name) "ok" ;;
      mret (value_of name secret version payload)
  | None =>
      audit None (Some client_ip) "get" (Some name) "not_found" ;;
      Throw Api.NotFound
  end.

Definition list_secrets : prog St ApiError (list SecretMetadata) :=
  secrets ← store_read vs_list_secrets;
  mret (map to_metadata secrets).

(** One name of a batch: [None] when it does not exist. *)
Definition get_one state (client_ip : Ipv4Addr) (name : string) : prog St ApiError (option SecretValue) :=
  if negb (is_ok (known_name name)) then
    audit None (Some client_ip) "get" (Some name) "not_found" ;; mret None
  else
    row ← store_read (vs_current_version name);
    match row with
    | Some (secret, version) =>
        plaintext ← open_version state name (v_version version) version;
        payload ← of_result (decode_payload (s_format secret) plaintext);
        audit None (Some client_ip) "get" (Some name) "ok" ;;
        mret (Some (value_of name secret version payload))
    | None => audit None (Some client_ip) "get" (Some name) "not_found" ;; mret None
    end.

Definition get_secrets state (names : list string) (client_ip : Ipv4Addr) : prog St ApiError (list SecretValue) :=
  if decide (MAX_BATCH < length names)
  then of_result (bad_request ("batch too large: " +:+ int_to_string (Z.of_nat (length names))
                               +:+ " names (max " +:+ int_to_string (Z.of_nat MAX_BATCH) +:+ ")")) else
  out ← prog_mapM (get_one state client_ip) names;
  mret (present out).

(** ** update_secret *)

(** The new plaintext, when the request changes it. *)
Definition update_bytes state (name : string) (secret : SecretRecord) (req : UpdateSecretRequest)
    : prog St ApiError bytes :=
  match s_format secret with
  | Opaque =>
      let value := default "" (ur_value req) in
      of_result (validate_value value) ;;
      mret (as_bytes value)
  | Userpass =>
      current ← load_userpass state name (s_current_version secret);
      let username := default (up_username current) (ur_username req) in
      let password := default (up_password current) (ur_password req) in
      of_result (validate_field "username" username) ;;
      of_result (validate_field "password" password) ;;
      mret (encode_userpass username password)
  end.

Definition reset_timer (reset : bool) (now interval : Z) : NextRotation :=
  if reset then Set_ (Some (next_rotation_unix now interval)) else Keep.

Definition update_command state (name : string) (secret : SecretRecord) (req : UpdateSecretRequest) (now : Z)
    : prog St ApiError Command :=
  let secret_changed := match s_format secret with
    | Opaque => bool_decide (is_Some (ur_value req))
    | Userpass => bool_decide (is_Some (ur_username req)) || bool_decide (is_Some (ur_password req))
    end in
  let effective_interval :=
    default 0%Z (match ur_rotation_interval_secs req with
                 | Some secs => Some secs | None => s_rotation_interval_secs secret end) in
  let automatic := bool_decide (s_kind secret = Automatic) in
  if secret_changed then
    bs ← update_bytes state name secret req;
    new_version ← of_result (ok_or too_many_versions (next_version (s_current_version secret)));
    version ← seal_version state name new_version bs now;
    mret (PutVersion name (s_current_version secret) version
            (Some (grace_expiry_unix now (s_grace_secs secret)))
            (ur_description req) (ur_rotation_interval_secs req) (ur_grace_period_secs req)
            (reset_timer automatic now effective_interval) now)
  else
    mret (UpdateMeta name (s_current_version secret)
            (ur_description req) (ur_rotation_interval_secs req) (ur_grace_period_secs req)
            (reset_timer (automatic && bool_decide (is_Some (ur_rotation_interval_secs req)))
               now effective_interval) now).

Definition check_update_format (format : SecretFormat) (req : UpdateSecretRequest) : ApiResult unit :=
  match format with
  | Opaque =>
      if bool_decide (is_Some (ur_username req)) || bool_decide (is_Some (ur_password req))
      then bad_request "secret is opaque; use 'value', not 'username'/'password'" else Ok tt
  | Userpass =>
      if bool_decide (is_Some (ur_value req))
      then bad_request "secret is userpass; use 'username'/'password', not 'value'" else Ok tt
  end.

Definition update_secret state (actor name : string) (req : UpdateSecretRequest)
    : prog St ApiError SecretMetadata :=
  of_result (match ur_rotation_interval_secs req with Some secs => validate_interval secs | None => Ok tt end) ;;
  of_result (match ur_grace_period_secs req with
             | Some secs => _ ← normalize_grace (Some secs); Ok tt | None => Ok tt end) ;;
  secret ← store_read (vs_secret name);
  secret ← of_result (ok_or Api.NotFound secret);
  of_result (check_update_format (s_format secret) req) ;;
  now ← now_unix;
  command ← update_command state name secret req now;
  store_apply command ;;
  audit (Some actor) None "update" (Some name) "ok" ;;
  load_metadata name.

Definition delete_secret (actor name : string) : prog St ApiError unit :=
  store_apply (DeleteSecret name) ;;
  audit (Some actor) None "delete" (Some name) "ok".

(** ** rotate *)

(** The versions whose password the external system may hold, newest superseded
    first. *)
Definition candidate_versions (previous_version : Z) (live : list VersionRecord) : list Z :=
  take MAX_LOGIN_CANDIDATES
    (foldl (λ versions record, if decide (v_version record ∈ versions) then versions
                               else versions ++ [v_version record]) [previous_version] live).

(** One of them as a login, when its row is still there and decodes. *)
Definition login_candidate state (name : string) (version : Z) : prog St ApiError (option UserPass) :=
  record ← store_read (vs_version name version);
  match record with
  | None => mret None
  | Some record =>
      plaintext ← open_version state name version record;
      mret (to_option (decode_userpass plaintext))
  end.

Definition self_login_candidates state (name : string) (previous_version now : Z)
    : prog St ApiError (list UserPass) :=
  live ← store_read (vs_live_versions name now);
  logins ← prog_mapM (login_candidate state name) (candidate_versions previous_version live);
  mret (present logins).

Fixpoint try_logins state (pg : PgRoleTarget) (role new_password : string) (logins : list UserPass)
    (last_err : option cause) : prog St ApiError unit :=
  match logins with
  | [] => Throw (Api.Internal (Context "pg_replica password apply failed"
                                 (default (Text "the candidate list is not empty") last_err)))
  | login :: logins =>
      r ← attempt (apply_password (st_pg_targets state) pg (up_username login) (up_password login)
                     role new_password);
      match r with
      | Ok _ => mret tt
      | Err err => try_logins state pg role new_password logins (Some err)
      end
  end.

Definition apply_target state (name : string) (previous_version now : Z) (target : RotationTarget)
    (role_username new_password : string) : prog St ApiError unit :=
  match target with
  | PgReplica pg =>
      logins ← match pg_login_secret pg with
               | Some login =>
                   if decide (login ≠ name) then up ← load_current_userpass state login; mret [up]
                   else self_login_candidates state name previous_version now
               | None => self_login_candidates state name previous_version now
               end;
      match logins with
      | [] => Throw (Api.Internal (Text ("no stored credential to authenticate the pg_replica apply for '"
                                         +:+ name +:+ "'")))
      | _ => try_logins state pg (default role_username (pg_role pg)) new_password logins None
      end
  end.

(** A failure to schedule the retry is logged and forgotten. *)
Definition schedule_apply_retry {E} (name : string) (current_version now : Z) : prog St E unit :=
  _ ← act (StoreApply (UpdateMeta name current_version None None None
                         (Set_ (Some (next_rotation_unix now APPLY_RETRY_SECS))) now));
  mret tt.

Definition rotate_payload state (name : string) (secret : SecretRecord) : prog St ApiError Payload :=
  match s_format secret with
  | Opaque => value ← generate_token; mret (opaque_payload value)
  | Userpass =>
      current ← load_userpass state name (s_current_version secret);
      password ← generate_token;
      mret (userpass_payload (up_username current) password)
  end.

Definition rotate state (actor : string) (client_ip : option Ipv4Addr) (name : string)
    : prog St ApiError SecretValue :=
  secret ← store_read (vs_secret name);
  secret ← of_result (ok_or Api.NotFound secret);
  (if negb (bool_decide (s_kind secret = Automatic))
   then of_result (bad_request "only automatic secrets can be rotated; use update for manual secrets")
   else mret tt) ;;
  new_version ← of_result (ok_or too_many_versions (next_version (s_current_version secret)));
  now ← now_unix;
  payload ← rotate_payload state name secret;
  version ← seal_version state name new_version (pl_bytes payload) now;
  let interval := default 0%Z (s_rotation_interval_secs secret) in
  store_apply (PutVersion name (s_current_version secret) version
                 (Some (grace_expiry_unix now (s_grace_secs secret))) None None None
                 (Set_ (Some (next_rotation_unix now interval))) now) ;;
  match s_target secret, s_format secret with
  | Some target, Userpass =>
      r ← attempt (apply_target state name (s_current_version secret) now target
                     (default "" (pl_username payload)) (default "" (pl_password payload)));
      match r with
      | Ok _ => mret tt
      | Err err =>
          schedule_apply_retry name new_version now ;;
          audit (Some actor) client_ip "rotate" (Some name) "apply_failed" ;;
          Throw err
      end
  | _, _ => mret tt
  end ;;
  audit (Some actor) client_ip "rotate" (Some name) "ok" ;;
  mret {| sv_name := name; sv_kind := s_kind secret; sv_format := s_format secret;
          sv_version := new_version; sv_value := pl_value payload; sv_username := pl_username payload;
          sv_password := pl_password payload; sv_created_at := rfc3339 now |}.

(** ** verify *)

Definition matches_value (format : SecretFormat) (presented : string) (plaintext : bytes) : bool :=
  match format with
  | Opaque => fingerprints_match (as_bytes presented) plaintext
  | Userpass =>
      match decode_userpass plaintext with
      | Ok up => fingerprints_match (as_bytes presented) (as_bytes (up_password up))
      | Err _ => false
      end
  end.

(** The first version whose value is the presented one. *)
Fixpoint find_match state (name : string) (format : SecretFormat) (presented : string)
    (versions : list VersionRecord) : prog St ApiError (option Z) :=
  match versions with
  | [] => mret None
  | version :: versions =>
      plaintext ← open_version state name (v_version version) version;
      if matches_value format presented plaintext then mret (Some (v_version version))
      else find_match state name format presented versions
  end.

Definition verify_failed state (name : string) (client_ip : Ipv4Addr) (peer : IpAddr)
    : prog St ApiError VerifyResponse :=
  audit None (Some client_ip) "verify" (Some name) "invalid" ;;
  record_verify state peer name ;;
  mret {| vr_valid := false; vr_version := None |}.

Definition verify_secret state (name : string) (client_ip : Ipv4Addr) (peer : IpAddr) (presented : string)
    : prog St ApiError VerifyResponse :=
  of_result (known_name name) ;;
  check_verify state peer name ;;
  if is_empty presented then verify_failed state name client_ip peer else
  now ← now_unix;
  secret ← store_read (vs_secret name);
  found ← match secret with
          | Some secret =>
              versions ← store_read (vs_live_versions name now);
              find_match state name (s_format secret) presented versions
          | None => mret None
          end;
  match found with
  | Some version =>
      audit None (Some client_ip) "verify" (Some name) "valid" ;;
      mret {| vr_valid := true; vr_version := Some version |}
  | None => verify_failed state name client_ip peer
  end.
End service.
