(* ===== verification/Manage.v ===== *)
(** * Roles, tokens, backups and key re-wrapping

    Models [manage.rs], [rewrap.rs] and the ticks of [rewrap_worker.rs] and
    [rotation_worker.rs]. *)

From S2P Require Import Prelude RustStr CoreTypes Redb Keys Model Apply Engine Platform Crypto Kms Cache.
From S2P Require Import ApiTypes PgApply IpAddr Guards Service.

Definition BUILTIN_ADMIN_ROLE : string := "admin".
Definition MAX_REPLICATED_RESTORE_BYTES : Z := RPC_BODY_LIMIT `div` 2.

(** ** Validation *)

Definition validate_role_name (name : string) : ApiResult unit :=
  if is_empty (trim name) || bool_decide (255 < String.length name)
  then bad_request "role name must be between 1 and 255 characters" else Ok tt.

Fixpoint validate_permissions (permissions : list PermissionRule) : ApiResult unit :=
  match permissions with
  | [] => Ok tt
  | perm :: permissions =>
      if negb (is_valid_action (pr_action perm))
      then bad_request ("invalid action '" +:+ pr_action perm
                        +:+ "' (allowed: create, update, delete, rotate, *)")
      else if is_empty (pr_path perm) then bad_request "permission path must not be empty"
      else validate_permissions permissions
  end.

Definition rule_pairs (permissions : list PermissionRule) : list (string * string) :=
  map (λ perm, (pr_action perm, pr_path perm)) permissions.

Section manage.
Context `{CC : !CryptoCrates, PL : !Platform, NET : !Ipnet, HO : !HashOrder, UP : !Serde UserPass}.
Context `{SB : !Serde BackupData}.
Context {St : Type} `{VS : !VaultStore St}.
Implicit Types (state : AppState St).

(** ** Backup and restore *)

Definition backup (actor : string) : prog St ApiError BackupData :=
  data ← store_read vs_dump;
  audit (Some actor) None "backup" None "ok" ;;
  mret data.

Definition encoded_len (data : BackupData) : Z :=
  match to_vec data with Some bs => Z.of_nat (length bs) | None => u64_max end.

Definition store_restore (data : BackupData) : prog St ApiError unit :=
  r ← act (StoreRestore data); of_result (map_err from_store r).

Definition restore state (actor : string) (data : BackupData) : prog St ApiError unit :=
  (if st_raft state && (MAX_REPLICATED_RESTORE_BYTES <? encoded_len data)%Z
   then of_result (bad_request ("backup is " +:+ int_to_string (encoded_len data)
          +:+ " bytes encoded; a replicated restore is limited to "
          +:+ int_to_string MAX_REPLICATED_RESTORE_BYTES
          +:+ " bytes because it travels as one raft log entry"))
   else mret tt) ;;
  (if negb (b_version data =? BACKUP_VERSION)%Z
   then of_result (bad_request ("unsupported backup version " +:+ int_to_string (b_version data)
          +:+ " (this build restores version " +:+ int_to_string BACKUP_VERSION +:+ ")"))
   else mret tt) ;;
  store_restore data ;;
  audit (Some actor) None "restore" None "ok".

(** ** Roles *)

Definition to_role_info (role : RoleRecord) : RoleInfo := {|
  ri_name := r_name role; ri_description := r_description role; ri_is_admin := r_is_admin role;
  ri_permissions := map (λ '(action, path), {| pr_action := action; pr_path := path |}) (r_permissions role);
  ri_created_at := rfc3339 (r_created_at role) |}.

Definition create_role (req : CreateRoleRequest) : prog St ApiError RoleInfo :=
  of_result (validate_role_name (rq_name req)) ;;
  of_result (validate_permissions (rq_permissions req)) ;;
  now ← now_unix;
  store_apply (CreateRole {| r_name := rq_name req; r_description := rq_description req;
                             r_is_admin := rq_is_admin req;
                             r_permissions := rule_pairs (rq_permissions req); r_created_at := now |}) ;;
  mret {| ri_name := rq_name req; ri_description := rq_description req; ri_is_admin := rq_is_admin req;
          ri_permissions := rq_permissions req; ri_created_at := rfc3339 now |}.

Definition list_roles : prog St ApiError (list RoleInfo) :=
  roles ← store_read vs_list_roles; mret (map to_role_info roles).

Definition get_role (name : string) : prog St ApiError RoleInfo :=
  role ← store_read (vs_role name);
  role ← of_result (ok_or Api.NotFound role);
  mret (to_role_info role).

Definition set_permissions (name : string) (permissions : list PermissionRule) : prog St ApiError RoleInfo :=
  of_result (validate_permissions permissions) ;;
  store_apply (SetPermissions name (rule_pairs permissions)) ;;
  get_role name.

Definition delete_role (name : string) : prog St ApiError unit :=
  (if bool_decide (name = BUILTIN_ADMIN_ROLE)
   then of_result (bad_request "the built-in 'admin' role cannot be deleted") else mret tt) ;;
  store_apply (DeleteRole name).

(** ** Tokens *)

Definition create_token (req : CreateTokenRequest) : prog St ApiError TokenCreated :=
  (if is_empty (trim (tq_name req)) then of_result (bad_request "token name is required") else mret tt) ;;
  role ← store_read (vs_role (tq_role req));
  match role with
  | None => of_result (bad_request ("role '" +:+ tq_role req +:+ "' does not exist"))
  | Some _ =>
      token ← generate_token;
      now ← now_unix;
      store_apply (AddToken {| t_name := tq_name req; t_role := Some (tq_role req);
                               t_fingerprint := fingerprint token; t_created_at := now;
                               t_last_used_at := None; t_revoked_at := None |}) ;;
      mret {| tc_name := tq_name req; tc_role := tq_role req; tc_token := token |}
  end.

Definition to_token_info (token : TokenRecord) : TokenInfo := {|
  ti_name := t_name token; ti_role := t_role token; ti_created_at := rfc3339 (t_created_at token);
  ti_last_used_at := rfc3339_opt (t_last_used_at token);
  ti_revoked_at := rfc3339_opt (t_revoked_at token) |}.

Definition list_tokens : prog St ApiError (list TokenInfo) :=
  tokens ← store_read vs_list_tokens; mret (map to_token_info tokens).

Definition revoke_token (name : string) : prog St ApiError unit :=
  now ← now_unix; store_apply (RevokeToken name now).

(** ** rewrap.rs *)

Record RewrapSummary := { sum_scanned : Z; sum_rewrapped : Z; sum_failed : Z }.

Definition needs_rewrap (version : VersionRecord) (target : Z) : bool :=
  match v_wrapped_rotation_at version with None => true | Some current => (current <? target)%Z end.

(** [state.store.f().await?] where the error becomes an [anyhow::Error]. *)
Definition store_read_any {X} (f : St → StoreResult X) : prog St cause X :=
  r ← act (StoreRead f); of_result (map_err StoreFailed r).
Definition store_apply_any (c : Command) : prog St cause unit :=
  r ← act (StoreApply c); of_result (map_err StoreFailed r).

Definition target_rotation state : prog St cause (option Z) := kms_latest_rotation_at (st_kms state).

Definition rewrap_one state (name : string) (version : VersionRecord) (target : Z) : prog St cause unit :=
  '(wrapped_dek, kms_key_id) ← kms_reencrypt_data_key (st_kms state) (v_wrapped_dek version)
                                 (v_kms_key_id version) (key_context name (v_version version));
  store_apply_any (RewrapVersion name (v_version version) kms_key_id wrapped_dek target).

Definition pace {E} state : prog St E unit :=
  let rate := st_kms_rewrap_max_per_sec state in
  if (0 <? rate)%Z then sleep (1000 `div` rate) else mret tt.

(** The versions of one secret. *)
Fixpoint rewrap_versions state (name : string) (target : Z) (versions : list VersionRecord)
    (summary : RewrapSummary) : prog St cause RewrapSummary :=
  match versions with
  | [] => mret summary
  | version :: versions =>
      let scanned := (sum_scanned summary + 1)%Z in
      if negb (needs_rewrap version target) then
        rewrap_versions state name target versions
          {| sum_scanned := scanned; sum_rewrapped := sum_rewrapped summary; sum_failed := sum_failed summary |}
      else
        r ← attempt (rewrap_one state name version target);
        let summary := match r with
          | Ok _ => {| sum_scanned := scanned; sum_rewrapped := sum_rewrapped summary + 1;
                       sum_failed := sum_failed summary |}
          | Err _ => {| sum_scanned := scanned; sum_rewrapped := sum_rewrapped summary;
                        sum_failed := sum_failed summary + 1 |}
          end%Z in
        pace state ;;
        rewrap_versions state name target versions summary
  end.

Fixpoint rewrap_secrets state (now target : Z) (secrets : list SecretRecord) (summary : RewrapSummary)
    : prog St cause RewrapSummary :=
  match secrets with
  | [] => mret summary
  | secret :: secrets =>
      versions ← store_read_any (vs_live_versions (s_name secret) now);
      summary ← rewrap_versions state (s_name secret) target versions summary;
      rewrap_secrets state now target secrets summary
  end.

(** The body of [run_pass], under its guard. *)
Definition rewrap_pass state (target : Z) : prog St cause RewrapSummary :=
  now ← now_unix;
  secrets ← store_read_any vs_list_secrets;
  rewrap_secrets state now target secrets {| sum_scanned := 0; sum_rewrapped := 0; sum_failed := 0 |}.

(** The guard clears the flag when it is dropped, also after an error. *)
Definition run_pass state (target : Z) : prog St cause RewrapSummary :=
  busy ← act (BusySwap true);
  if (busy : bool) then Throw (Text "a re-wrap pass is already running on this node") else
  r ← attempt (rewrap_pass state target);
  _ ← act (BusySwap false);
  of_result r.

Definition persist_completed (target : Z) : prog St cause unit :=
  now ← now_unix;
  store_apply_any (SetKmsRewrapState {| k_last_completed_rotation_at := target;
                                        k_last_swept_at := now; k_updated_at := now |}).

Definition force state : prog St cause RewrapRunResponse :=
  latest ← target_rotation state;
  let target := default 0%Z latest in
  summary ← run_pass state target;
  (if (sum_failed summary =? 0)%Z && (0 <? target)%Z then persist_completed target else mret tt) ;;
  mret {| rr_scanned := sum_scanned summary; rr_rewrapped := sum_rewrapped summary;
          rr_failed := sum_failed summary;
          rr_target_rotation_at := if (0 <? target)%Z then Some (rfc3339 target) else None |}.

(** All live versions and those that still need a re-wrap. *)
Fixpoint count_versions (now target : Z) (secrets : list SecretRecord) (total pending : Z)
    : prog St cause (Z * Z) :=
  match secrets with
  | [] => mret (total, pending)
  | secret :: secrets =>
      versions ← store_read_any (vs_live_versions (s_name secret) now);
      count_versions now target secrets (total + Z.of_nat (length versions))
        (pending + Z.of_nat (length (List.filter (λ version, needs_rewrap version target) versions)))
  end.

Definition status state : prog St cause RewrapStatusResponse :=
  persisted ← store_read_any vs_kms_rewrap_state;
  latest ← attempt (target_rotation state);
  let latest := match latest with Ok l => l | Err _ => None end in
  let last_completed := match persisted with Some s => k_last_completed_rotation_at s | None => 0%Z end in
  let target := default last_completed latest in
  now ← now_unix;
  secrets ← store_read_any vs_list_secrets;
  '(total, pending) ← count_versions now target secrets 0 0;
  busy ← act BusyLoad;
  mret {| rs_enabled := st_kms_rewrap_enabled state; rs_busy := busy;
          rs_last_completed_rotation_at := if (0 <? last_completed)%Z then Some (rfc3339 last_completed) else None;
          rs_latest_rotation_at := rfc3339 <$> latest;
          rs_total_versions := total; rs_pending_versions := pending |}.

(** ** Workers *)

Definition is_leader {E} state : prog St E bool :=
  if st_raft state then leader ← act (OsCall os_leader); mret (bool_decide (leader = Some (st_node_id state)))
  else mret true.

(** [rewrap_worker::tick] *)
Definition rewrap_tick state : prog St cause unit :=
  leader ← is_leader state;
  if negb leader then mret tt else
  latest ← target_rotation state;
  persisted ← store_read_any vs_kms_rewrap_state;
  match persisted with
  | None => persist_completed (default 0%Z latest)
  | Some persisted =>
      match latest with
      | None => mret tt
      | Some target =>
          if (target <=? k_last_completed_rotation_at persisted)%Z then mret tt else
          summary ← run_pass state target;
          if (sum_failed summary =? 0)%Z then persist_completed target else mret tt
      end
  end.

(** [rotation_worker::tick]; a failed rotation is logged and the next one tried. *)
Definition rotation_tick state : prog St cause unit :=
  leader ← is_leader state;
  if negb leader then mret tt else
  now ← now_unix;
  store_apply_any (ExpireGraceVersions now) ;;
  now ← now_unix;
  due ← store_read_any (vs_due_rotations now);
  prog_iter (λ secret, _ ← attempt (rotate state "rotation-worker" None (s_name secret)); mret tt) due.

(** The polling loops [rotation_worker::run] and [rewrap_worker::run], which
    never end, up to their [n]-th round: wait for the ticker, run a tick, and go
    on also when it failed. *)
Fixpoint rotation_run state (poll_secs : Z) (n : nat) : prog St cause unit :=
  match n with
  | O => mret tt
  | S n =>
      _ ← act (OsCall (λ s, (os_tick (poll_secs `max` 1) s, tt)));
      _ ← attempt (F := cause) (rotation_tick state);
      rotation_run state poll_secs n
  end.

Fixpoint rewrap_run state (poll_secs : Z) (n : nat) : prog St cause unit :=
  match n with
  | O => mret tt
  | S n =>
      _ ← act (OsCall (λ s, (os_tick (poll_secs `max` 1) s, tt)));
      _ ← attempt (F := cause) (rewrap_tick state);
      rewrap_run state poll_secs n
  end.
End manage.
