(* ===== verification/Routes.v ===== *)
(** * The HTTP handlers

    Models the handlers of [routes.rs].  axum is outside: a [request] is what
    its router hands to a handler, with the extracted path and the decoded body
    ([None] when the body does not decode, which axum refuses after the guard
    has run); a [response] is what the handler returns. *)

From S2P Require Import Prelude RustStr CoreTypes Redb Keys Model Apply Engine Platform Crypto Kms Cache.
From S2P Require Import ApiTypes PgApply IpAddr Guards Service Manage.

Inductive request :=
| GetHealthz
| GetReadyz
| PostSecret (parts : Parts) (body : option CreateSecretRequest)
| GetSecrets (parts : Parts)
| GetSecret (parts : Parts) (name : string)
| PutSecret (parts : Parts) (name : string) (body : option UpdateSecretRequest)
| DelSecret (parts : Parts) (name : string)
| PostAction (parts : Parts) (path : string) (body : result string VerifyRequest)
| PostBatch (parts : Parts) (body : option BatchGetRequest)
| PostRole (parts : Parts) (body : option CreateRoleRequest)
| GetRoles (parts : Parts)
| GetRole (parts : Parts) (name : string)
| DelRole (parts : Parts) (name : string)
| PutPermissions (parts : Parts) (name : string) (body : option SetPermissionsRequest)
| PostToken (parts : Parts) (body : option CreateTokenRequest)
| GetTokens (parts : Parts)
| DelToken (parts : Parts) (name : string)
| GetBackup (parts : Parts)
| PostRestore (parts : Parts) (body : option BackupData)
| PostRewrap (parts : Parts)
| GetRewrapStatus (parts : Parts).

Inductive response :=
| Created (value : SecretValue)
| Value (value : SecretValue)
| Values (values : list SecretValue)
| Listing (secrets : list SecretMetadata)
| Metadata (secret : SecretMetadata)
| Verified (answer : VerifyResponse)
| RoleCreated (role : RoleInfo)
| Role (role : RoleInfo)
| Roles (roles : list RoleInfo)
| TokenIssued (token : TokenCreated)
| Tokens (tokens : list TokenInfo)
| Backup (data : BackupData)
| Rewrapped (summary : RewrapRunResponse)
| RewrapStatus (status : RewrapStatusResponse)
| NoContent
| Ready (text : string)
| BodyRefused.

Section routes.
Context `{CC : !CryptoCrates, PL : !Platform, NET : !Ipnet, HO : !HashOrder, UP : !Serde UserPass}.
Context `{SB : !Serde BackupData}.
Context {St : Type} `{VS : !VaultStore St}.
Implicit Types (state : AppState St).

(** A JSON body, extracted after the guard. *)
Definition with_body {A} (body : option A) (k : A → prog St ApiError response) : prog St ApiError response :=
  match body with Some req => k req | None => mret BodyRefused end.

Definition admin_only state (parts : Parts) (k : AdminActor → prog St ApiError response)
    : prog St ApiError response :=
  actor ← admin_from_request_parts state parts;
  require_admin state actor ;;
  k actor.

Definition route_create_secret state (parts : Parts) (body : option CreateSecretRequest) :=
  actor ← admin_from_request_parts state parts;
  with_body body (λ req,
    authz_authorize state actor "create" (cr_name req) ;;
    authorize_rotation_target state actor req ;;
    value ← create_secret state (aa_name actor) req;
    mret (Created value)).

Definition route_list_secrets state (parts : Parts) : prog St ApiError response :=
  actor ← admin_from_request_parts state parts;
  all ← list_secrets;
  mret (Listing (List.filter (λ m, visible (aa_is_admin actor) (aa_rules actor) (sm_name m)) all)).

Definition route_get_secret state (parts : Parts) (name : string) : prog St ApiError response :=
  guard ← reader_from_request_parts state parts;
  value ← get_secret state name (rg_client_ip guard);
  mret (Value value).

Definition route_batch_get_secrets state (parts : Parts) (body : option BatchGetRequest) :=
  guard ← reader_from_request_parts state parts;
  with_body body (λ req,
    values ← get_secrets state (bg_names req) (rg_client_ip guard);
    mret (Values values)).

Definition route_update_secret state (parts : Parts) (name : string) (body : option UpdateSecretRequest) :=
  actor ← admin_from_request_parts state parts;
  with_body body (λ req,
    authz_authorize state actor "update" name ;;
    metadata ← update_secret state (aa_name actor) name req;
    mret (Metadata metadata)).

Definition route_delete_secret state (parts : Parts) (name : string) : prog St ApiError response :=
  actor ← admin_from_request_parts state parts;
  authz_authorize state actor "delete" name ;;
  delete_secret (aa_name actor) name ;;
  mret NoContent.

Definition secret_action state (parts : Parts) (path : string) (body : result string VerifyRequest)
    : prog St ApiError response :=
  '(name, action) ← of_result (ok_or Api.NotFound (rsplit_once "/" path));
  if bool_decide (action = "rotate") then
    actor ← admin_from_request_parts state parts;
    authz_authorize state actor "rotate" name ;;
    value ← rotate state (aa_name actor) None name;
    mret (Value value)
  else if bool_decide (action = "verify") then
    guard ← reader_from_request_parts state parts;
    req ← of_result (map_err Api.BadRequest body);
    answer ← verify_secret state name (rg_client_ip guard) (rg_peer_ip guard) (vq_value req);
    mret (Verified answer)
  else Throw Api.NotFound.

Definition readyz : prog St ApiError response :=
  _ ← store_read vs_list_roles; mret (Ready "ready").

Definition handle state (req : request) : prog St ApiError response :=
  match req with
  | GetHealthz => mret (Ready "ok")
  | GetReadyz => readyz
  | PostSecret parts body => route_create_secret state parts body
  | GetSecrets parts => route_list_secrets state parts
  | GetSecret parts name => route_get_secret state parts name
  | PutSecret parts name body => route_update_secret state parts name body
  | DelSecret parts name => route_delete_secret state parts name
  | PostAction parts path body => secret_action state parts path body
  | PostBatch parts body => route_batch_get_secrets state parts body
  | PostRole parts body =>
      actor ← admin_from_request_parts state parts;
      with_body body (λ req, require_admin state actor ;; role ← create_role req; mret (RoleCreated role))
  | GetRoles parts => admin_only state parts (λ _, roles ← list_roles; mret (Roles roles))
  | GetRole parts name => admin_only state parts (λ _, role ← get_role name; mret (Role role))
  | DelRole parts name => admin_only state parts (λ _, delete_role name ;; mret NoContent)
  | PutPermissions parts name body =>
      actor ← admin_from_request_parts state parts;
      with_body body (λ req,
        require_admin state actor ;; role ← set_permissions name (sp_permissions req); mret (Role role))
  | PostToken parts body =>
      actor ← admin_from_request_parts state parts;
      with_body body (λ req, require_admin state actor ;; token ← create_token req; mret (TokenIssued token))
  | GetTokens parts => admin_only state parts (λ _, tokens ← list_tokens; mret (Tokens tokens))
  | DelToken parts name => admin_only state parts (λ _, revoke_token name ;; mret NoContent)
  | GetBackup parts => admin_only state parts (λ actor, data ← backup (aa_name actor); mret (Backup data))
  | PostRestore parts body =>
      actor ← admin_from_request_parts state parts;
      with_body body (λ data, require_admin state actor ;; restore state (aa_name actor) data ;; mret NoContent)
  | PostRewrap parts =>
      admin_only state parts (λ _, r ← prog_map_err Api.Internal (force state); mret (Rewrapped r))
  | GetRewrapStatus parts =>
      admin_only state parts (λ _, s ← prog_map_err Api.Internal (status state); mret (RewrapStatus s))
  end.
End routes.
