(* ===== verification/Router.v ===== *)
(** * From paths to handlers

    Models [router] of [routes.rs].  axum is a third-party crate: what is
    modelled of it is its documented matching of paths ([{name}] is one
    non-empty segment, [{*name}] the non-empty rest), the order in which a
    handler's arguments are extracted, and that [Path] decodes percent escapes
    and refuses what is not UTF-8.  The extractor [Json] is a parameter.  The
    methods are those the table names: axum also answers a HEAD request with the
    handler of GET, less the body, and any other method with 405. *)

From S2P Require Import Prelude RustStr CoreTypes Redb Keys Model Apply Engine Platform Crypto Kms Cache.
From S2P Require Import ApiTypes PgApply IpAddr Guards Service Manage Routes.

Inductive method := GET | POST | PUT | DELETE.
#[global] Instance method_eq_dec : EqDecision method.
Proof. solve_decision. Defined.

(** [Json<T>] under a limit on the length of the body; [json_verify] keeps the
    text of its refusal. *)
Class JsonBodies := {
  json_create_secret : Z → bytes → option CreateSecretRequest;
  json_update_secret : Z → bytes → option UpdateSecretRequest;
  json_verify : Z → bytes → result string VerifyRequest;
  json_batch : Z → bytes → option BatchGetRequest;
  json_create_role : Z → bytes → option CreateRoleRequest;
  json_set_permissions : Z → bytes → option SetPermissionsRequest;
  json_create_token : Z → bytes → option CreateTokenRequest;
  json_backup : Z → bytes → option BackupData;
}.

Definition RESTORE_BODY_LIMIT : Z := Z.shiftl 256 20.
Definition BODY_LIMIT : Z := Z.shiftl 1 20.

(** ** Paths *)

Fixpoint match_segments (pattern path : list string) : option (list string) :=
  match pattern, path with
  | [], [] => Some []
  | "{*name}" :: _, _ :: _ => let rest := join "/" path in if is_empty rest then None else Some [rest]
  | "{name}" :: pattern, segment :: path =>
      if is_empty segment then None else rest ← match_segments pattern path; Some (segment :: rest)
  | literal :: pattern, segment :: path =>
      if decide (literal = segment) then match_segments pattern path else None
  | _, _ => None
  end.

Definition match_path (pattern path : string) : option (list string) :=
  match_segments (split_char "/" pattern) (split_char "/" path).

Definition hex_pair (a b : ascii) : option ascii :=
  hi ← digit_of 16 a; lo ← digit_of 16 b; Some (ascii_of_N (Z.to_N (16 * hi + lo))).

(** A [%] that does not start an escape stands for itself. *)
Fixpoint unescape (s : string) : string :=
  match s with
  | String "%" (String a (String b rest) as tail) =>
      match hex_pair a b with
      | Some c => String c (unescape rest)
      | None => String "%" (unescape tail)
      end
  | String c rest => String c (unescape rest)
  | "" => ""
  end.

Definition percent_decode (s : string) : option string := from_utf8 (as_bytes (unescape s)).

(** ** The table *)

(** The guard that is extracted before the path. *)
Inductive guard_kind := AdminGuard | ReaderGuard | NoGuard.

Inductive handler :=
| Fixed (req : request)
| Named (before : guard_kind) (req : string → request).

Inductive outcome :=
| Routed (req : request)
| PathRefused (before : guard_kind)
| NoRoute
| NoMethod.

Section router.
Context `{JB : !JsonBodies}.

Definition route_table (parts : Parts) (body : bytes) : list (string * list (method * handler)) :=
  [ ("/healthz", [(GET, Fixed GetHealthz)]);
    ("/readyz", [(GET, Fixed GetReadyz)]);
    ("/v1/secrets",
      [(POST, Fixed (PostSecret parts (json_create_secret BODY_LIMIT body)));
       (GET, Fixed (GetSecrets parts))]);
    ("/v1/secrets/{*name}",
      [(GET, Named ReaderGuard (GetSecret parts));
       (PUT, Named AdminGuard (λ name, PutSecret parts name (json_update_secret BODY_LIMIT body)));
       (DELETE, Named AdminGuard (DelSecret parts));
       (POST, Named NoGuard (λ path, PostAction parts path (json_verify BODY_LIMIT body)))]);
    ("/v1/batch/secrets", [(POST, Fixed (PostBatch parts (json_batch BODY_LIMIT body)))]);
    ("/v1/roles",
      [(POST, Fixed (PostRole parts (json_create_role BODY_LIMIT body))); (GET, Fixed (GetRoles parts))]);
    ("/v1/roles/{name}",
      [(GET, Named AdminGuard (GetRole parts)); (DELETE, Named AdminGuard (DelRole parts))]);
    ("/v1/roles/{name}/permissions",
      [(PUT, Named AdminGuard (λ name, PutPermissions parts name (json_set_permissions BODY_LIMIT body)))]);
    ("/v1/tokens",
      [(POST, Fixed (PostToken parts (json_create_token BODY_LIMIT body))); (GET, Fixed (GetTokens parts))]);
    ("/v1/tokens/{name}", [(DELETE, Named AdminGuard (DelToken parts))]);
    ("/v1/backup", [(GET, Fixed (GetBackup parts))]);
    ("/v1/restore", [(POST, Fixed (PostRestore parts (json_backup RESTORE_BODY_LIMIT body)))]);
    ("/v1/admin/kms/rewrap", [(POST, Fixed (PostRewrap parts))]);
    ("/v1/admin/kms/rewrap/status", [(GET, Fixed (GetRewrapStatus parts))]) ].

Definition dispatch (h : handler) (params : list string) : outcome :=
  match h, params with
  | Fixed req, _ => Routed req
  | Named before req, raw :: _ =>
      match percent_decode raw with Some name => Routed (req name) | None => PathRefused before end
  | Named before _, [] => PathRefused before
  end.

Fixpoint find_route (routes : list (string * list (method * handler))) (m : method) (path : string) : outcome :=
  match routes with
  | [] => NoRoute
  | (pattern, handlers) :: routes =>
      match match_path pattern path with
      | Some params =>
          match list_find (λ h, h.1 = m) handlers with
          | Some (_, (_, h)) => dispatch h params
          | None => NoMethod
          end
      | None => find_route routes m path
      end
  end.

Definition router (m : method) (path : string) (parts : Parts) (body : bytes) : outcome :=
  find_route (route_table parts body) m path.
End router.

(** ** Answers *)

Inductive reply :=
| Answered (r : response)
| Failed (err : ApiError)
| Refused (status : Z).

Definition response_status (r : response) : option Z :=
  match r with
  | Created _ | RoleCreated _ | TokenIssued _ => Some 201%Z
  | NoContent => Some 204%Z
  | BodyRefused => None
  | _ => Some 200%Z
  end.

(** The status of a body that [Json] refused is axum's to choose. *)
Definition reply_status (r : reply) : option Z :=
  match r with
  | Answered r => response_status r
  | Failed err => Some (parts err).1
  | Refused code => Some code
  end.

Section respond.
Context `{CC : !CryptoCrates, PL : !Platform, NET : !Ipnet, HO : !HashOrder, UP : !Serde UserPass}.
Context `{SB : !Serde BackupData, JB : !JsonBodies}.
Context {St : Type} `{VS : !VaultStore St}.
Implicit Types (state : AppState St).

Definition run_guard state (g : guard_kind) (parts : Parts) : prog St ApiError unit :=
  match g with
  | AdminGuard => _ ← admin_from_request_parts state parts; mret tt
  | ReaderGuard => _ ← reader_from_request_parts state parts; mret tt
  | NoGuard => mret tt
  end.

(** What a client gets for a request. *)
Definition answer state (m : method) (path : string) (parts : Parts) (body : bytes) : prog St ApiError reply :=
  match router m path parts body with
  | Routed req => r ← handle state req; mret (Answered r)
  | PathRefused before => run_guard state before parts ;; mret (Refused 400)
  | NoRoute => mret (Refused 404)
  | NoMethod => mret (Refused 405)
  end.

Definition respond {E} state (m : method) (path : string) (parts : Parts) (body : bytes) : prog St E reply :=
  r ← attempt (answer state m path parts body);
  mret (match r with Ok reply => reply | Err err => Failed err end).
End respond.
