(* ===== verification/RouterThms.v ===== *)
(** * Paths and names

    Every secret is served at the path made of its name and at no other path:
    names with slashes need no escaping, and the action of a request is told
    apart from the name it applies to. *)

From S2P Require Import Prelude RustStr CoreTypes Redb Keys Model Apply Engine Platform Crypto Kms Cache.
From S2P Require Import ApiTypes PgApply IpAddr Guards Service Manage Routes Router.

(** ** Splitting and joining *)

Lemma split_char_cons c s : ∃ x l, split_char c s = x :: l.
Proof. induction s as [|a s (x & l & IH)]; simpl; [eauto|]. rewrite IH. case_match; eauto. Qed.

Lemma join_split c s : join (String c "") (split_char c s) = s.
Proof.
  induction s as [|a s IH]; [done|]. cbn [split_char]. destruct (split_char_cons c s) as (x & l & E).
  rewrite E in *. destruct (Ascii.eqb_spec a c) as [->|]; simpl; [by f_equal|].
  destruct l; simpl in *; by f_equal.
Qed.

(** ** Escapes *)

Lemma unescape_plain s : no_char "%" s = true → unescape s = s.
Proof.
  induction s as [|a s IH]; intros Hs; [done|]. unfold no_char in *. simpl in Hs.
  apply andb_true_iff in Hs as [Ha Hs]. specialize (IH Hs).
  destruct (Ascii.ascii_dec a "%") as [->|Hne]; [done|].
  transitivity (String a (unescape s)); [|by rewrite IH].
  destruct a as [[] [] [] [] [] [] [] []]; try reflexivity. by destruct Hne.
Qed.

(** Every slash written as an escape. *)
Fixpoint escape_slashes (s : string) : string :=
  match s with
  | "" => ""
  | String "/" s => "%2F" +:+ escape_slashes s
  | String a s => String a (escape_slashes s)
  end.

Lemma unescape_cons a s : a ≠ "%"%char → unescape (String a s) = String a (unescape s).
Proof. intros Hne. destruct a as [[] [] [] [] [] [] [] []]; try reflexivity. by destruct Hne. Qed.

Lemma unescape_escape s t : no_char "%" s = true → unescape (escape_slashes s +:+ t) = s +:+ unescape t.
Proof.
  induction s as [|a s IH]; intros Hs; [done|]. unfold no_char in *. simpl in Hs.
  apply andb_true_iff in Hs as [Ha Hs]. specialize (IH Hs).
  destruct (Ascii.ascii_dec a "/") as [->|Hslash]; [simpl; by rewrite IH|].
  transitivity (unescape (String a (escape_slashes s +:+ t))).
  - f_equal. destruct a as [[] [] [] [] [] [] [] []]; try reflexivity. by destruct Hslash.
  - rewrite unescape_cons, IH; [done|]. intros ->. done.
Qed.

(** ** Names *)

Lemma name_char_plain a : name_char a = true → RustStr.in_range 0 127 (byte_of_ascii a) = true ∧ a ≠ "%"%char.
Proof. destruct a as [[] [] [] [] [] [] [] []]; vm_compute; by intros. Qed.

Lemma name_text s : all_bytes name_char s = true → is_utf8 s ∧ no_char "%" s = true.
Proof.
  unfold is_utf8, as_bytes, no_char. induction s as [|a s IH]; [done|].
  cbn [all_bytes]. intros [Ha Hs]%andb_true_iff. destruct (IH Hs) as [H1 H2].
  destruct (name_char_plain a Ha) as [Hr Hne]. split.
  - change (utf8_valid (byte_of_ascii a :: String.list_byte_of_string s) = true). cbn [utf8_valid]. by rewrite Hr.
  - rewrite H2, andb_true_r. apply negb_true_iff, Ascii.eqb_neq. congruence.
Qed.

Lemma valid_name_bytes name : is_valid_secret_name name = true → name ≠ "" ∧ all_bytes name_char name = true.
Proof. unfold is_valid_secret_name. intros [[H _]%andb_true_iff ?]%andb_true_iff. by destruct name. Qed.

(** Text of these characters is its own path, and the same with slashes escaped. *)
Lemma text_decodes s t :
  all_bytes name_char s = true → all_bytes name_char t = true →
  percent_decode (s +:+ t) = Some (s +:+ t) ∧ percent_decode (escape_slashes s +:+ t) = Some (s +:+ t).
Proof.
  intros Hs Ht. assert (all_bytes name_char (s +:+ t) = true) as [Hu Hp]%name_text by (by rewrite all_bytes_append, Hs).
  unfold percent_decode. rewrite unescape_plain, unescape_escape by (done || by apply name_text).
  rewrite (unescape_plain t) by (by apply name_text). by rewrite from_utf8_as_bytes.
Qed.

Lemma escape_nonempty s : s ≠ "" → escape_slashes s ≠ "".
Proof. destruct s as [|a s]; [done|]. intros _. by destruct a as [[] [] [] [] [] [] [] []]. Qed.

(** ** The path of a secret *)

Section router.
Context `{JB : !JsonBodies}.
Implicit Types (parts : Parts) (body : bytes).

(** What a handler of [/v1/secrets/{*name}] gets to see of the rest of a path. *)
Lemma match_secret raw : raw ≠ "" → match_path "/v1/secrets/{*name}" ("/v1/secrets/" +:+ raw) = Some [raw].
Proof.
  intros Hne. unfold match_path. cbn [split_char Ascii.eqb Bool.eqb String.append].
  destruct (split_char_cons "/" raw) as (x & l & E).
  change (match_segments ["{*name}"] (split_char "/" raw) = Some [raw]).
  rewrite E. cbn [match_segments]. rewrite <- E, join_split. by destruct raw.
Qed.

Lemma find_secret m raw parts body : raw ≠ "" →
  router m ("/v1/secrets/" +:+ raw) parts body
  = match m with
    | GET => dispatch (Named ReaderGuard (GetSecret parts)) [raw]
    | PUT => dispatch (Named AdminGuard (λ name, PutSecret parts name (json_update_secret BODY_LIMIT body))) [raw]
    | DELETE => dispatch (Named AdminGuard (DelSecret parts)) [raw]
    | POST => dispatch (Named NoGuard (λ path, PostAction parts path (json_verify BODY_LIMIT body))) [raw]
    end.
Proof.
  intros Hne. unfold router, route_table. cbn [find_route].
  assert (match_path "/v1/secrets" ("/v1/secrets/" +:+ raw) = None) as ->.
  { unfold match_path. destruct (split_char_cons "/" raw) as (x & l & E).
    change (match_segments [] (split_char "/" raw) = None). by rewrite E. }
  change (match_path "/healthz" ("/v1/secrets/" +:+ raw)) with (None (A := list string)).
  change (match_path "/readyz" ("/v1/secrets/" +:+ raw)) with (None (A := list string)).
  rewrite match_secret by done. by destruct m.
Qed.

Lemma match_secret_inv path params :
  match_path "/v1/secrets/{*name}" path = Some params →
  ∃ raw, path = "/v1/secrets/" +:+ raw ∧ params = [raw].
Proof.
  unfold match_path. intros Hm. rewrite <- (join_split "/" path). revert Hm.
  change (split_char "/" "/v1/secrets/{*name}") with [""; "v1"; "secrets"; "{*name}"].
  destruct (split_char "/" path) as [|s0 [|s1 [|s2 [|s3 l]]]]; cbn [match_segments]; repeat case_decide; subst; try done.
  destruct (is_empty _) eqn:He; [done|]. intros [= <-]. by eexists.
Qed.

(** A routed request comes from a line of the table. *)
Lemma find_route_inv routes m path req :
  find_route routes m path = Routed req →
  ∃ pattern handlers params h, (pattern, handlers) ∈ routes ∧ match_path pattern path = Some params
    ∧ (m, h) ∈ handlers ∧ dispatch h params = Routed req.
Proof.
  induction routes as [|[pattern handlers] routes IH]; cbn [find_route]; [done|].
  destruct (match_path pattern path) as [params|] eqn:Hm.
  - destruct (list_find _ handlers) as [[i [m' h]]|] eqn:Hf; [|done]. intros Hd.
    apply list_find_Some in Hf as (Hi & Hm' & _). simpl in Hm'. subst m'.
    exists pattern, handlers, params, h. split; [by left|]. split; [done|]. split; [|done]. by eapply list_elem_of_lookup_2.
  - intros H. destruct (IH H) as (p & hs & ps & h & Hin & Hrest). exists p, hs, ps, h. split; [by right|done].
Qed.

(** The name a request finds in its path. *)
Definition path_name (req : request) : option string :=
  match req with
  | GetSecret _ name | PutSecret _ name _ | DelSecret _ name | PostAction _ name _ => Some name
  | _ => None
  end.

Lemma path_name_inv m path parts body req name :
  router m path parts body = Routed req → path_name req = Some name →
  ∃ raw, path = "/v1/secrets/" +:+ raw ∧ percent_decode raw = Some name.
Proof.
  intros (pattern & handlers & params & h & Hin & Hm & Hh & Hd)%find_route_inv Hname.
  unfold route_table in Hin. rewrite !elem_of_cons, elem_of_nil in Hin.
  destruct_or! Hin; simplify_eq; rewrite ?elem_of_cons, ?elem_of_nil in Hh; destruct_or! Hh; simplify_eq;
    cbn [dispatch] in Hd; try (by simplify_eq/=);
    try (destruct params as [|raw params]; [done|]; destruct (percent_decode raw) eqn:Hdec; simplify_eq/=; fail).
  all: apply match_secret_inv in Hm as (raw & -> & ->); destruct (percent_decode raw) as [decoded|] eqn:Hdec; [|done];
    simplify_eq/=; eauto.
Qed.

(** The path of a secret, followed by [t], decodes to its name and [t]. *)
Lemma path_decodes name raw t :
  is_valid_secret_name name = true → raw = name ∨ raw = escape_slashes name → all_bytes name_char t = true →
  raw ≠ "" ∧ percent_decode (raw +:+ t) = Some (name +:+ t).
Proof.
  intros [Hne Hb]%valid_name_bytes Hraw Ht. destruct (text_decodes name t Hb Ht).
  destruct Hraw as [->| ->]; [done|]. split; [by apply escape_nonempty|done].
Qed.

Lemma route_get name raw parts body :
  is_valid_secret_name name = true → raw = name ∨ raw = escape_slashes name →
  router GET ("/v1/secrets/" +:+ raw) parts body = Routed (GetSecret parts name).
Proof.
  intros Hn Hraw. destruct (path_decodes name raw "" Hn Hraw eq_refl) as [Hne Hd]. rewrite !append_nil_r in Hd.
  rewrite find_secret by done. cbn [dispatch]. by rewrite Hd.
Qed.

Lemma route_action name raw action parts body :
  is_valid_secret_name name = true → raw = name ∨ raw = escape_slashes name → action ∈ ["rotate"; "verify"] →
  router POST ("/v1/secrets/" +:+ raw +:+ "/" +:+ action) parts body
    = Routed (PostAction parts (name +:+ "/" +:+ action) (json_verify BODY_LIMIT body))
  ∧ rsplit_once "/" (name +:+ "/" +:+ action) = Some (name, action).
Proof.
  intros Hn Hraw Ha.
  assert (all_bytes name_char ("/" +:+ action) = true ∧ no_char "/" action = true) as [Hac Hns].
  { rewrite !elem_of_cons, elem_of_nil in Ha. by destruct_or! Ha; subst. }
  destruct (path_decodes name raw _ Hn Hraw Hac) as [Hne Hd].
  rewrite find_secret by (by destruct raw). cbn [dispatch]. rewrite Hd. split; [done|]. by apply rsplit_once_Some.
Qed.

(** What the handlers of [/v1/secrets/{*name}] are called with. *)
Definition secret_request (m : method) parts body (name : string) : request :=
  match m with
  | GET => GetSecret parts name
  | PUT => PutSecret parts name (json_update_secret BODY_LIMIT body)
  | DELETE => DelSecret parts name
  | POST => PostAction parts name (json_verify BODY_LIMIT body)
  end.

Lemma decoded_nonempty raw name : percent_decode raw = Some name → name ≠ "" → raw ≠ "".
Proof. intros Hd Hne ->. by injection Hd as <-. Qed.

Lemma route_secret m raw name parts body :
  name ≠ "" → percent_decode raw = Some name →
  router m ("/v1/secrets/" +:+ raw) parts body = Routed (secret_request m parts body name).
Proof.
  intros Hne Hd. rewrite find_secret by (by eapply decoded_nonempty). destruct m; cbn [dispatch]; by rewrite Hd.
Qed.

(** C26. The paths of a secret are exactly those under [/v1/secrets/] whose rest
    percent-decodes to its name: each of them leads, for every method, to the
    handler of that method with that name, and no other path leads to a handler
    with that name.  The name of a secret as it is and with its slashes escaped
    are two of them, and either one followed by an action leads to the handler
    of actions, which gets back the name and the action. *)
Theorem secret_paths parts body :
  (∀ m path name, name ≠ "" →
     (∃ req, router m path parts body = Routed req ∧ path_name req = Some name)
     ↔ ∃ raw, path = "/v1/secrets/" +:+ raw ∧ percent_decode raw = Some name)
  ∧ (∀ m raw name, name ≠ "" → percent_decode raw = Some name →
       router m ("/v1/secrets/" +:+ raw) parts body = Routed (secret_request m parts body name))
  ∧ ∀ name raw, is_valid_secret_name name = true → raw = name ∨ raw = escape_slashes name →
      percent_decode raw = Some name
      ∧ ∀ action, action ∈ ["rotate"; "verify"] →
          router POST ("/v1/secrets/" +:+ raw +:+ "/" +:+ action) parts body
          = Routed (PostAction parts (name +:+ "/" +:+ action) (json_verify BODY_LIMIT body))
          ∧ rsplit_once "/" (name +:+ "/" +:+ action) = Some (name, action).
Proof.
  split; [|split].
  - intros m path name Hne. split; [intros (req & Hr & Hp); by eapply path_name_inv|].
    intros (raw & -> & Hd). exists (secret_request m parts body name). split; [by apply route_secret|by destruct m].
  - intros m raw name. apply route_secret.
  - intros name raw Hn Hraw. split; [|intros action Ha; by apply route_action].
    destruct (path_decodes name raw "" Hn Hraw eq_refl) as [_ Hd]. by rewrite !append_nil_r in Hd.
Qed.
End router.
