(* ===== verification/ServiceSafe.v ===== *)
(** * What the handlers keep, in any interleaving

    [sealed] says that a version row opens to a plaintext under the name and
    number it is stored under.  Every request the API serves keeps the store's
    invariant, keeps every row sealed and keeps the data-key cache correct, at
    each of its atomic actions: so the property holds however the actions of
    concurrent requests interleave.  Re-wraps are treated elsewhere. *)

From S2P Require Import Prelude RustStr CoreTypes Redb Keys Model Serial Apply Spec Samples ApplyFacts.
From S2P Require Import Refine Engine Invariant StoreLaws Platform Crypto Kms Cache ApiTypes PgApply.
From S2P Require Import IpAddr Guards Service Manage Routes.

Section service_safe.
Context `{CC : !CryptoCrates, CL : !CryptoLaws, PL : !Platform, PLL : !PlatformLaws}.
Context `{NET : !Ipnet, HO : !HashOrder, UP : !Serde UserPass, SB : !Serde BackupData}.
Context {St : Type} `{VS : !VaultStore St, SE : !StoreSerde, SLW : !VaultStoreLaws St}.
Context (state : AppState St) `{KL : !KmsLaws (st_kms state)}.

(** ** The world invariant *)

(** The row opens to [p] as version [v] of [name]. *)
Definition sealed (name : string) (v : Z) (r : VersionRecord) (p : bytes) : Prop :=
  v_aad r = aad_for name v ∧ length (v_nonce r) = NONCE_LEN
  ∧ ∃ dek, wraps (v_wrapped_dek r) (v_kms_key_id r) (key_context name v) dek
      ∧ seal dek (v_nonce r) (aad_for name v) p = Ok (v_ciphertext r).

Definition vault_sealed (a : Vault) : Prop :=
  ∀ name v r, vault_versions a !! (name, v) = Some r → ∃ p, sealed name v r p.

Definition cache_ok (m : DekMap) : Prop :=
  ∀ blob t d, m !! blob = Some (t, d) → ∃ k c, wraps blob k c d.

Definition world_ok (w : World St) : Prop :=
  cache_ok (w_cache w) ∧ ∃ a, view (w_store w) a ∧ vault_sealed a.

(** The commands that keep every row sealed. *)
Definition command_ok (c : Command) : Prop :=
  well_typed c ∧ issued c
  ∧ match c with
    | CreateSecret secret version => ∃ p, sealed (s_name secret) (v_version version) version p
    | PutVersion name _ version _ _ _ _ _ _ => ∃ p, sealed name (v_version version) version p
    | RewrapVersion _ _ _ _ _ => False
    | _ => True
    end.

Lemma sealed_expiry name v r p expiry : sealed name v (give_expiry expiry r) p ↔ sealed name v r p.
Proof. unfold sealed, give_expiry. by case_match. Qed.

Lemma vault_sealed_step node_id c a a' :
  vault_sealed a → command_ok c → spec_apply node_id c a = Ok a' → vault_sealed a'.
Proof.
  intros Ha (_ & Hiss & Hc). destruct c; simpl in *; unfold_monad; try done;
    try (repeat (case_match || case_decide); intros; simplify_eq; exact Ha).
  - destruct (row_allowed _ _); [|done]. case_match; [done|]. intros [= <-] name v r. simpl.
    intros [[[= <- <-] <-]|[_ Hr]]%lookup_insert_Some; [done|by eapply Ha].
  - destruct (row_allowed _ _); [|done]. case_match; [|done].
    case_decide; [done|]. intros [= <-] name' v r. simpl.
    assert (∀ r, <[(name, v_version version) := version]> (vault_versions a) !! (name', v) = Some r →
      ∃ p, sealed name' v r p) as Hins.
    { intros r' [[[= <- <-] <-]|[_ Hr]]%lookup_insert_Some; [done|by eapply Ha]. }
    destruct Hiss as (_ & _ & [expiry ->] & _).
    rewrite lookup_alter_Some. intros [[_ (r0 & Hr0 & ->)]|[_ Hr]]; [|by apply Hins].
    destruct (Hins r0 Hr0) as [p Hp]. exists p. by apply sealed_expiry.
  - case_match; [|done]. intros [= <-] name' v r. simpl. intros [Hr _]%map_lookup_filter_Some. by eapply Ha.
  - intros [= <-] name v r. simpl. intros [Hr _]%map_lookup_filter_Some. by eapply Ha.
Qed.

Lemma inside_world_ok : inside world_ok.
Proof. intros w w' (Hs & Hc & _) [H1 H2]. unfold world_ok. by rewrite Hs, Hc. Qed.

(** ** Building blocks *)

Lemma safe_quiet {E A} (Q : A → Prop) (m : prog St E A) : quiet m → yields Q m → safe world_ok Q m.
Proof. apply quiet_safe, inside_world_ok. Qed.

Lemma safe_store_read {X} (f : St → StoreResult X) :
  safe world_ok (λ x, ∃ s a, view s a ∧ vault_sealed a ∧ f s = Ok x) (store_read f).
Proof.
  eapply (safe_bind _ (λ r, ∃ s a, view s a ∧ vault_sealed a ∧ f s = r)).
  { apply safe_act. intros w (Hc & a & Hv & Ha). split; [by split; [|exists a]|]. simpl. eauto. }
  intros r (s & a & Hv & Ha & Hf). apply safe_of_result. intros x Hx.
  destruct r; simplify_eq/=. eauto.
Qed.

Lemma safe_act_apply {E} c : command_ok c → safe (E := E) world_ok (λ _, True) (act (StoreApply c)).
Proof.
  intros Hc. apply safe_act. intros w (Hcache & a & Hv & Ha). split; [|done]. simpl.
  pose proof (apply_law (w_store w) a c Hv (proj1 Hc) (proj1 (proj2 Hc))) as Hl.
  destruct (spec_apply store_node c a) as [a'|e] eqn:Hs.
  - destruct Hl as (s' & -> & Hv'). split; [done|]. exists a'. split; [done|]. by eapply vault_sealed_step.
  - rewrite Hl. split; [done|]. by exists a.
Qed.

Lemma safe_store_apply c : command_ok c → safe world_ok (λ _, True) (store_apply c).
Proof.
  intros Hc. eapply safe_bind; [by apply safe_act_apply|]. intros r _. by apply safe_of_result.
Qed.

Lemma safe_now {E} : safe (E := E) world_ok in_i64 now_unix.
Proof.
  apply safe_quiet; [by split|]. eapply (safe_bind _ (λ _, True)); [by apply safe_act|].
  intros t _. apply safe_ret. destruct t as [t|]; [|by unfold_ints].
  unfold wrap_i64. pose proof (Z.mod_pos_bound (t - i64_min) (2 ^ 64) ltac:(lia)). unfold_ints. lia.
Qed.

Lemma safe_random {E} n : safe (E := E) world_ok (λ bs, length bs = n) (fill_random n).
Proof. apply safe_quiet; [by split|apply yields_random]. Qed.

Lemma safe_token {E} : safe (E := E) world_ok (λ _, True) generate_token.
Proof. eapply safe_bind; [apply safe_random|]. done. Qed.

Lemma safe_audit {E} actor ip action name outcome :
  safe (E := E) world_ok (λ _, True) (audit actor ip action name outcome).
Proof.
  eapply safe_bind; [apply safe_now|]. intros now _. eapply safe_bind; [by apply safe_act_apply|]. done.
Qed.

Lemma safe_cache_get {E} blob :
  safe (E := E) world_ok (λ d, ∀ dek, d = Some dek → ∃ k c, wraps blob k c dek)
    (DekCache.get (st_dek_cache state) blob).
Proof.
  unfold DekCache.get. case_match; [by apply safe_ret|]. apply safe_act.
  intros w (Hc & Ha). simpl. unfold DekCache.get_locked.
  destruct (w_cache w !! blob) as [[t d]|] eqn:E1; [|by simpl].
  destruct (os_instant (w_os w)) as [os now]. destruct (_ <? _)%Z; simpl.
  - split; [by split|]. intros ? [= <-]. by eapply Hc.
  - split; [|done]. split; [|done]. simpl. intros b t' d' [_ Hb]%lookup_delete_Some. by eapply Hc.
Qed.

Lemma safe_cache_put {E} blob k c dek :
  wraps blob k c dek → safe (E := E) world_ok (λ _, True) (DekCache.put (st_dek_cache state) blob dek).
Proof.
  intros Hw. unfold DekCache.put. case_match; [by apply safe_ret|].
  eapply safe_bind; [apply (safe_quiet (λ _, True)); [by split|by apply safe_act]|]. intros now _.
  apply safe_act. intros w (Hc & Ha). split; [|done]. split; [|done]. simpl.
  intros b t d [[-> [= -> ->]]|[_ Hb]]%put_locked_entry; [by eauto|by eapply Hc].
Qed.

(** ** Sealing and opening *)

Lemma safe_seal_version name v p now :
  safe world_ok (λ r, v_version r = v ∧ v_expires_at r = None ∧ v_created_at r = now ∧ sealed name v r p)
    (seal_version state name v p now).
Proof.
  eapply safe_bind; [apply safe_map_err, safe_quiet; [apply generate_quiet|apply generate_law]|].
  intros dk Hdk. eapply safe_bind; [apply safe_random|]. intros nonce Hn.
  eapply safe_bind; [apply safe_of_result_eq|]. intros ct Hct.
  eapply safe_bind; [apply safe_store_read|]. intros rewrap _. apply safe_ret.
  do 3 (split; [done|]). split; [done|]. split; [done|]. exists (dk_plaintext dk). split; [done|].
  by destruct (seal _ _ _ _) eqn:E in Hct |- *; simplify_eq/=.
Qed.

Lemma safe_open_version name v r :
  safe world_ok (λ p, ∃ k c dek, wraps (v_wrapped_dek r) k c dek
      ∧ open dek (v_nonce r) (aad_for name v) (v_ciphertext r) = Ok p) (open_version state name v r).
Proof.
  unfold open_version. case_match; [apply safe_throw|]. case_match; [apply safe_throw|].
  eapply safe_bind; [apply safe_cache_get|]. intros cached Hcached.
  eapply (safe_bind _ (λ dek, ∃ k c, wraps (v_wrapped_dek r) k c dek)).
  - destruct cached as [dek|]; [apply safe_ret; by apply Hcached|].
    eapply safe_bind; [apply safe_map_err, safe_quiet; [apply decrypt_quiet|apply decrypt_law]|].
    intros dek Hdek. eapply safe_bind; [by eapply safe_cache_put|]. intros _ _. apply safe_ret. eauto.
  - intros dek (k & c & Hdek). apply safe_of_result. intros p Hp. exists k, c, dek. split; [done|].
    by destruct (open _ _ _ _) eqn:E in Hp |- *; simplify_eq/=.
Qed.

(** One step of a handler: the known lemmas, then the rest for every answer. *)
Ltac safe_block :=
  first [ apply safe_store_read | apply safe_now | apply safe_token | apply safe_random
        | apply safe_audit | apply safe_seal_version | apply safe_open_version
        | apply safe_of_result_eq ].
Ltac safe_step := eapply safe_bind; [safe_block|intros].

Lemma safe_weaken {E A} (Q : A → Prop) (m : prog St E A) : safe world_ok Q m → safe world_ok (λ _, True) m.
Proof. by apply safe_mono. Qed.

Lemma safe_check_key key : safe world_ok (λ _, True) (check_key state key).
Proof.
  unfold check_key. case_match; [by apply safe_ret|]. safe_step. case_match; [|by apply safe_ret].
  case_match; [|by apply safe_ret]. safe_step. case_match; [apply safe_throw|by apply safe_ret].
Qed.

Lemma safe_record_key {E} key : safe (E := E) world_ok (λ _, True) (record_key state key).
Proof.
  unfold record_key. case_match; [by apply safe_ret|]. safe_step.
  eapply safe_bind; [by apply safe_act_apply|]. done.
Qed.

Lemma safe_lockout_record {E} ip : safe (E := E) world_ok (λ _, True) (lockout_record state ip).
Proof. destruct ip; [apply safe_record_key|by apply safe_ret]. Qed.

Lemma safe_lockout_check ip : safe world_ok (λ _, True) (lockout_check state ip).
Proof. unfold lockout_check. case_match; [by apply safe_ret|]. destruct ip; [apply safe_check_key|by apply safe_ret]. Qed.

(** A refusal after a failure was recorded. *)
Lemma safe_refused {A} ip (err : ApiError) : safe world_ok (λ _ : A, True) (lockout_record state ip ;; Throw err).
Proof. eapply safe_bind; [apply safe_lockout_record|]. intros. apply safe_throw. Qed.

Lemma safe_role_of record : safe world_ok (λ _, True) (role_of record).
Proof. unfold role_of. case_match; [|by apply safe_ret]. safe_step. by apply safe_ret. Qed.

Lemma safe_admin parts : safe world_ok (λ _, True) (admin_from_request_parts state parts).
Proof.
  unfold admin_from_request_parts. eapply safe_bind; [apply safe_lockout_check|]. intros _ _.
  case_match; [|apply safe_refused]. safe_step. case_match; [|apply safe_refused].
  case_match; [apply safe_refused|]. eapply safe_bind; [apply safe_role_of|]. intros [is_admin rules] _.
  safe_step. eapply (safe_bind _ (λ _, True)); [|intros; by apply safe_ret].
  case_match; [|by apply safe_ret]. eapply safe_bind; [by apply safe_act_apply|]. done.
Qed.

Lemma safe_reader parts : safe world_ok (λ _, True) (reader_from_request_parts state parts).
Proof.
  unfold reader_from_request_parts. safe_step. safe_step. eapply safe_bind; [apply safe_check_key|]. intros _ _.
  case_match; [|apply safe_refused]. case_match; [by apply safe_ret|apply safe_refused].
Qed.

Lemma safe_authorize actor action name : safe world_ok (λ _, True) (authz_authorize state actor action name).
Proof. unfold authz_authorize. case_match; [by apply safe_ret|apply safe_refused]. Qed.

Lemma safe_require_admin actor : safe world_ok (λ _, True) (require_admin state actor).
Proof. unfold require_admin. case_match; [by apply safe_ret|apply safe_refused]. Qed.

Lemma safe_authorize_target actor req : safe world_ok (λ _, True) (authorize_rotation_target state actor req).
Proof.
  unfold authorize_rotation_target. case_match; [|by apply safe_ret]. case_match.
  eapply (safe_bind _ (λ _, True)).
  - case_match; [|by apply safe_ret]. case_match; [by apply safe_ret|apply safe_refused].
  - intros _ _. case_match; [|by apply safe_ret]. case_match; [apply safe_refused|by apply safe_ret].
Qed.

(** ** The secret service *)

Notation safe_any := (safe world_ok (λ _, True)).

Lemma safe_quiet_any {E A} (m : prog St E A) : quiet m → safe_any m.
Proof.
  intros Hm. apply safe_quiet; [done|]. clear Hm. induction m as [a|e|X e k IH]; [done|done|].
  intros w _. split; [done|]. apply IH.
Qed.

Lemma safe_of_result_any {E A} (r : result E A) : safe_any (of_result r).
Proof. by apply safe_of_result. Qed.

Lemma safe_attempt_any {E F A} (m : prog St E A) : safe_any m → safe_any (attempt (F := F) m).
Proof. intros Hm. eapply safe_weaken, safe_attempt, Hm. Qed.

Lemma safe_guard {E} (b : bool) (r : result E unit) : safe_any (if b then of_result r else mret tt).
Proof. destruct b; [apply safe_of_result_any|by apply safe_ret]. Qed.

Lemma safe_ok_or {E A} (e : E) (o : option A) : safe world_ok (λ a, o = Some a) (of_result (ok_or e o)).
Proof. apply safe_of_result. intros a Ha. by destruct o; simplify_eq/=. Qed.

Lemma safe_then {E A B} (m : prog St E A) (f : A → prog St E B) :
  safe_any m → (∀ a, safe_any (f a)) → safe_any (m ≫= f).
Proof. intros Hm Hf. eapply safe_bind; [done|]. auto. Qed.

Lemma safe_load_userpass name v : safe_any (load_userpass state name v).
Proof. do 3 safe_step. by apply safe_of_result. Qed.

Lemma safe_load_current_userpass name : safe_any (load_current_userpass state name).
Proof. do 2 safe_step. case_match. safe_step. by apply safe_of_result. Qed.

Lemma safe_load_metadata name : safe_any (load_metadata name).
Proof. do 2 safe_step. by apply safe_ret. Qed.

Lemma safe_build_create_payload req : safe_any (build_create_payload req).
Proof.
  unfold build_create_payload. case_match; [case_match; [by apply safe_of_result|]|].
  - do 2 safe_step. apply safe_then; [|by intros; apply safe_ret].
    repeat case_match; try apply safe_of_result_any; try apply safe_token; safe_step; by apply safe_ret.
  - apply safe_then; [|by intros; apply safe_ret].
    repeat case_match; try apply safe_of_result_any; try apply safe_token; safe_step; by apply safe_ret.
Qed.

Lemma safe_create_secret actor req : safe_any (create_secret state actor req).
Proof.
  unfold create_secret. do 4 safe_step. apply safe_then; [apply safe_guard|]. intros _. apply safe_then; [apply safe_build_create_payload|]. intros payload. safe_step.
  eapply safe_bind; [apply safe_seal_version|]. intros version (Hv & Hx & _ & Hs).
  eapply safe_bind.
  { apply safe_store_apply. assert (in_i32 1) by by unfold_ints.
    split; simpl; rewrite Hv; [done|]. split; [by rewrite Hx|]. eauto. }
  intros. safe_step. by apply safe_ret.
Qed.

Lemma safe_get_secret name ip : safe_any (get_secret state name ip).
Proof.
  unfold get_secret. do 2 safe_step. repeat case_match; safe_step; [|apply safe_throw].
  do 2 safe_step. by apply safe_ret.
Qed.

Lemma safe_get_secrets names ip : safe_any (get_secrets state names ip).
Proof.
  unfold get_secrets. case_match; [apply safe_of_result_any|].
  apply safe_then; [|by intros; apply safe_ret]. eapply safe_weaken, (safe_mapM _ (λ _, True)).
  intros name _. unfold get_one. case_match; [safe_step; by apply safe_ret|]. safe_step.
  repeat case_match; safe_step; [do 2 safe_step|]; by apply safe_ret.
Qed.

(** The successor of the current version of a stored secret. *)
Lemma stored_current s a name secret :
  view s a → vs_secret name s = Ok (Some secret) →
  s_name secret = name ∧ in_i32 (s_current_version secret).
Proof.
  intros Hv. rewrite (secret_law _ _ _ Hv). intros [= Hs].
  destruct (ok_current _ (view_ok _ _ Hv) _ _ Hs) as (r & Hr & _).
  destruct (ok_version _ (view_ok _ _ Hv) _ _ _ Hr) as (_ & Hb & _).
  split; [by apply (ok_secret _ (view_ok _ _ Hv))|]. unfold_ints. lia.
Qed.

(** A version sealed for the successor may be stored. *)
Lemma command_ok_put name current next version expiry d i g n u p :
  in_i32 current → next_version current = Some next →
  v_version version = next → v_expires_at version = None → sealed name next version p →
  command_ok (PutVersion name current version (Some expiry) d i g n u).
Proof.
  intros Hc Hn Hv Hx Hs. destruct (next_version_Some _ _ Hn) as [_ Hi].
  split; simpl; rewrite Hv; [done|]. split; [by rewrite Hx|]. eauto.
Qed.

Lemma safe_update_bytes name secret req : safe_any (update_bytes state name secret req).
Proof.
  unfold update_bytes. case_match; [safe_step; by apply safe_ret|].
  apply safe_then; [apply safe_load_userpass|]. intros. do 2 safe_step. by apply safe_ret.
Qed.

Lemma safe_update_command name secret req now :
  in_i32 (s_current_version secret) → safe world_ok command_ok (update_command state name secret req now).
Proof.
  intros Hc. unfold update_command. case_match; [|by apply safe_ret].
  eapply safe_bind; [apply safe_update_bytes|]. intros bs _.
  eapply safe_bind; [apply safe_ok_or|]. intros next Hn.
  eapply safe_bind; [apply safe_seal_version|]. intros version (Hv & Hx & _ & Hs).
  apply safe_ret. eapply command_ok_put; [done|exact Hn|done..].
Qed.

Lemma safe_update_secret actor name req : safe_any (update_secret state actor name req).
Proof.
  unfold update_secret. do 2 safe_step. eapply safe_bind; [apply safe_store_read|].
  intros secret (s & vault & Hv & _ & Hs). eapply safe_bind; [apply safe_ok_or|]. intros secret' ->.
  destruct (stored_current _ _ _ _ Hv Hs) as [_ Hc]. safe_step. safe_step.
  eapply safe_bind; [by apply safe_update_command|]. intros c Hcmd.
  eapply safe_bind; [by apply safe_store_apply|]. intros. safe_step. apply safe_load_metadata.
Qed.

Lemma safe_delete_secret actor name : safe_any (delete_secret actor name).
Proof. eapply safe_bind; [by apply safe_store_apply|]. intros. apply safe_audit. Qed.

(** ** Rotation *)

Lemma quiet_apply_hosts policy target hosts user password role new_password : ∀ last_err,
  quiet (apply_hosts (St := St) policy target hosts user password role new_password last_err).
Proof.
  induction hosts as [|h hosts IH]; intros last_err; [done|]. cbn [apply_hosts].
  destruct (split_hostport h) as [host port]. apply quiet_bind.
  - apply quiet_attempt, quiet_bind; [by split|]. intros [client|err|]; [|done..].
    apply quiet_bind; [by split|]. intros r. apply quiet_of_result.
  - intros [[]|err]; [done|apply IH..].
Qed.

Lemma safe_apply_password policy target user password role new_password :
  safe_any (apply_password policy target user password role new_password).
Proof.
  apply safe_quiet_any, quiet_bind; [apply quiet_of_result|]. intros _. apply quiet_apply_hosts.
Qed.

Lemma safe_try_logins pg role new_password logins : ∀ last_err,
  safe_any (try_logins state pg role new_password logins last_err).
Proof.
  induction logins as [|login logins IH]; intros last_err; cbn [try_logins]; [apply safe_throw|].
  apply safe_then; [apply safe_attempt_any, safe_apply_password|]. intros [|]; [by apply safe_ret|apply IH].
Qed.

Lemma safe_self_login_candidates name previous now : safe_any (self_login_candidates state name previous now).
Proof.
  safe_step. apply safe_then; [|by intros; apply safe_ret]. eapply safe_weaken, (safe_mapM _ (λ _, True)).
  intros v _. safe_step. case_match; [|by apply safe_ret]. safe_step. by apply safe_ret.
Qed.

Lemma safe_apply_target name previous now target username new_password :
  safe_any (apply_target state name previous now target username new_password).
Proof.
  destruct target as [pg]. apply safe_then.
  - destruct (pg_login_secret pg) as [login|]; [|apply safe_self_login_candidates].
    case_decide; [|apply safe_self_login_candidates].
    apply safe_then; [apply safe_load_current_userpass|]. intros. by apply safe_ret.
  - intros [|login logins]; [apply safe_throw|apply safe_try_logins].
Qed.

Lemma safe_rotate_payload name secret : safe_any (rotate_payload state name secret).
Proof.
  unfold rotate_payload. destruct (s_format secret); [safe_step; by apply safe_ret|].
  apply safe_then; [apply safe_load_userpass|]. intros. safe_step. by apply safe_ret.
Qed.

(** What follows a stored rotation. *)
Lemma safe_rotate_apply {A} actor ip name secret payload next now (k : prog St ApiError A) :
  safe_any k →
  safe_any (match s_target secret, s_format secret with
    | Some target, Userpass =>
        r ← attempt (apply_target state name (s_current_version secret) now target
                       (default "" (pl_username payload)) (default "" (pl_password payload)));
        match r with
        | Ok _ => mret tt
        | Err err =>
            schedule_apply_retry name next now ;;
            audit (Some actor) ip "rotate" (Some name) "apply_failed" ;;
            Throw err
        end
    | _, _ => mret tt
    end ;; k).
Proof.
  intros Hk. apply safe_then; [|done].
  destruct (s_target secret), (s_format secret); try by apply safe_ret.
  apply safe_then; [apply safe_attempt_any, safe_apply_target|]. intros [|err]; [by apply safe_ret|].
  apply safe_then; [eapply safe_bind; [by apply safe_act_apply|done]|]. intros _. safe_step. apply safe_throw.
Qed.

Lemma safe_rotate actor ip name : safe_any (rotate state actor ip name).
Proof.
  unfold rotate. eapply safe_bind; [apply safe_store_read|]. intros secret (s & vault & Hv & _ & Hs).
  eapply safe_bind; [apply safe_ok_or|]. intros secret' ->.
  destruct (stored_current _ _ _ _ Hv Hs) as [_ Hc]. apply safe_then; [apply safe_guard|]. intros _.
  eapply safe_bind; [apply safe_ok_or|]. intros next Hn. safe_step.
  apply safe_then; [apply safe_rotate_payload|]. intros payload.
  eapply safe_bind; [apply safe_seal_version|]. intros version (Hver & Hx & _ & Hsealed).
  eapply safe_bind; [apply safe_store_apply; eapply command_ok_put; [done|exact Hn|done..]|]. intros.
  apply safe_rotate_apply. safe_step. by apply safe_ret.
Qed.

(** ** Verification *)

Lemma safe_find_match name format presented versions : safe_any (find_match state name format presented versions).
Proof.
  induction versions as [|version versions IH]; cbn [find_match]; [by apply safe_ret|].
  safe_step. case_match; [by apply safe_ret|done].
Qed.

Lemma safe_verify_secret name ip peer presented : safe_any (verify_secret state name ip peer presented).
Proof.
  assert (safe_any (verify_failed state name ip peer)) as Hfail.
  { safe_step. apply safe_then; [apply safe_record_key|]. intros. by apply safe_ret. }
  unfold verify_secret. safe_step. apply safe_then; [apply safe_check_key|]. intros _.
  destruct (is_empty presented); [done|]. do 2 safe_step. apply safe_then.
  - case_match; [|by apply safe_ret]. safe_step. apply safe_find_match.
  - intros [v|]; [|done]. safe_step. by apply safe_ret.
Qed.

(** ** Roles, tokens, backup, re-wrap status *)

Lemma safe_get_role name : safe_any (get_role name).
Proof. do 2 safe_step. by apply safe_ret. Qed.

Lemma safe_create_token req : safe_any (create_token req).
Proof.
  unfold create_token. apply safe_then; [apply safe_guard|]. intros _. safe_step.
  case_match; [|apply safe_of_result_any]. do 2 safe_step.
  apply safe_then; [by apply safe_store_apply|]. intros. by apply safe_ret.
Qed.

Lemma safe_store_read_any {X} (f : St → StoreResult X) : safe_any (store_read_any f).
Proof.
  eapply (safe_bind _ (λ _, True)); [|by intros; apply safe_of_result].
  apply safe_act. intros w Hw. by split.
Qed.

Lemma safe_count_versions now target secrets : ∀ total pending,
  safe_any (count_versions now target secrets total pending).
Proof.
  induction secrets as [|secret secrets IH]; intros total pending; cbn [count_versions]; [by apply safe_ret|].
  apply safe_then; [apply safe_store_read_any|]. intros. apply IH.
Qed.

Lemma safe_status : safe_any (status state).
Proof.
  apply safe_then; [apply safe_store_read_any|]. intros persisted.
  apply safe_then; [apply safe_attempt_any, safe_quiet_any, latest_quiet|]. intros latest. safe_step.
  apply safe_then; [apply safe_store_read_any|]. intros secrets.
  apply safe_then; [apply safe_count_versions|]. intros [total pending].
  apply safe_then; [by apply safe_act|]. intros. by apply safe_ret.
Qed.

(** ** Requests and ticks *)

Lemma safe_with_body {A} (body : option A) k : (∀ req, safe_any (k req)) → safe_any (with_body (St := St) body k).
Proof. intros Hk. destruct body; [apply Hk|by apply safe_ret]. Qed.

Lemma safe_admin_then {A} parts (k : AdminActor → prog St ApiError A) :
  (∀ actor, safe_any (k actor)) → safe_any (actor ← admin_from_request_parts state parts; k actor).
Proof. intros Hk. apply safe_then; [apply safe_admin|done]. Qed.

Lemma safe_reader_then {A} parts (k : ReaderGuard → prog St ApiError A) :
  (∀ guard, safe_any (k guard)) → safe_any (guard ← reader_from_request_parts state parts; k guard).
Proof. intros Hk. apply safe_then; [apply safe_reader|done]. Qed.

Lemma safe_admin_only parts k : (∀ actor, safe_any (k actor)) → safe_any (admin_only state parts k).
Proof. intros Hk. apply safe_admin_then. intros actor. apply safe_then; [apply safe_require_admin|done]. Qed.

Lemma safe_map {E A B} (m : prog St E A) (f : A → B) : safe_any m → safe_any (x ← m; mret (f x)).
Proof. intros Hm. apply safe_then; [done|]. intros. by apply safe_ret. Qed.

(** A backup of a store whose versions open. *)
Definition backup_ok (data : BackupData) : Prop :=
  ∃ s a, view s a ∧ vs_dump s = Ok data ∧ vault_sealed a.

(** The requests that only read rows, write rows they have sealed, or bring back
    rows that were sealed. *)
Definition ordinary (req : request) : Prop :=
  match req with
  | PostRestore _ (Some data) => backup_ok data
  | PostRewrap _ => False
  | _ => True
  end.

Lemma safe_restore actor data : backup_ok data → safe_any (restore state actor data).
Proof.
  intros (s0 & a0 & Hv0 & Hd & Hs0). unfold restore.
  do 2 (apply safe_then; [case_match; [apply safe_of_result_any|by apply safe_ret]|intros _]).
  apply safe_then; [|intros _; apply safe_audit]. apply safe_then; [|intros; apply safe_of_result_any].
  apply safe_act. intros w (Hc & a & Hv & Hs). split; [|done]. simpl.
  destruct (restore_law _ _ _ _ _ Hv Hv0 Hd) as (s' & r & -> & [[_ Hv']|[-> _]]); split; try done; by eexists.
Qed.

Lemma safe_secret_action parts path body : safe_any (secret_action state parts path body).
Proof.
  unfold secret_action. eapply safe_bind; [apply safe_of_result_eq|]. intros [name action] _.
  repeat case_bool_decide; [| |apply safe_throw].
  - apply safe_admin_then. intros actor. apply safe_then; [apply safe_authorize|]. intros _.
    apply safe_map, safe_rotate.
  - apply safe_reader_then. intros guard. apply safe_then; [apply safe_of_result_any|]. intros req.
    apply safe_map, safe_verify_secret.
Qed.

Lemma safe_list_any {X Y} (f : St → StoreResult (list X)) (g : X → Y) : safe_any (xs ← store_read f; mret (map g xs)).
Proof. apply safe_map. eapply safe_weaken, safe_store_read. Qed.

Lemma safe_handle req : ordinary req → safe_any (handle state req).
Proof.
  destruct req; intros Hreq; try done; cbn [handle].
  - apply safe_map. eapply safe_weaken, safe_store_read.
  - apply safe_admin_then. intros actor. apply safe_with_body. intros req.
    apply safe_then; [apply safe_authorize|]. intros _.
    apply safe_then; [apply safe_authorize_target|]. intros _. apply safe_map, safe_create_secret.
  - apply safe_admin_then. intros actor. apply safe_map, safe_list_any.
  - apply safe_reader_then. intros guard. apply safe_map, safe_get_secret.
  - apply safe_admin_then. intros actor. apply safe_with_body. intros req.
    apply safe_then; [apply safe_authorize|]. intros _. apply safe_map, safe_update_secret.
  - apply safe_admin_then. intros actor.
    apply safe_then; [apply safe_authorize|]. intros _. apply safe_map, safe_delete_secret.
  - apply safe_secret_action.
  - apply safe_reader_then. intros guard. apply safe_with_body. intros req. apply safe_map, safe_get_secrets.
  - apply safe_admin_then. intros actor. apply safe_with_body. intros req.
    apply safe_then; [apply safe_require_admin|]. intros _. apply safe_map. do 3 safe_step.
    apply safe_map. by apply safe_store_apply.
  - apply safe_admin_only. intros actor. apply safe_map, safe_list_any.
  - apply safe_admin_only. intros actor. apply safe_map, safe_get_role.
  - apply safe_admin_only. intros actor. apply safe_map. apply safe_then; [apply safe_guard|]. intros _.
    by apply safe_store_apply.
  - apply safe_admin_then. intros actor. apply safe_with_body. intros req.
    apply safe_then; [apply safe_require_admin|]. intros _. apply safe_map. safe_step.
    apply safe_then; [by apply safe_store_apply|]. intros _. apply safe_get_role.
  - apply safe_admin_then. intros actor. apply safe_with_body. intros req.
    apply safe_then; [apply safe_require_admin|]. intros _. apply safe_map, safe_create_token.
  - apply safe_admin_only. intros actor. apply safe_map, safe_list_any.
  - apply safe_admin_only. intros actor. apply safe_map. safe_step. by apply safe_store_apply.
  - apply safe_admin_only. intros actor. apply safe_map. do 2 safe_step. by apply safe_ret.
  - apply safe_admin_then. intros actor. destruct body as [data|]; [|by apply safe_ret].
    apply safe_then; [apply safe_require_admin|]. intros _. by apply safe_map, safe_restore.
  - apply safe_admin_only. intros actor. apply safe_map, safe_map_err, safe_status.
Qed.

Lemma safe_store_apply_any c : command_ok c → safe_any (store_apply_any c).
Proof. intros Hc. apply safe_then; [by apply safe_act_apply|]. intros. apply safe_of_result_any. Qed.

Lemma safe_is_leader {E} : safe_any (is_leader (E := E) state).
Proof.
  unfold is_leader. case_match; [|by apply safe_ret]. apply safe_map, safe_quiet_any. by split.
Qed.

Lemma safe_rotation_tick : safe_any (rotation_tick state).
Proof.
  apply safe_then; [apply safe_is_leader|]. intros leader. case_match; [by apply safe_ret|]. safe_step.
  apply safe_then; [by apply safe_store_apply_any|]. intros _. safe_step.
  apply safe_then; [apply safe_store_read_any|]. intros due. apply safe_iter. intros secret _.
  apply safe_map, safe_attempt_any, safe_rotate.
Qed.

Lemma safe_rotation_run poll_secs n : safe_any (rotation_run state poll_secs n).
Proof.
  induction n as [|n IH]; [by apply safe_ret|]. cbn [rotation_run].
  apply safe_then; [by apply safe_quiet_any; split|]. intros _.
  apply safe_then; [apply safe_attempt_any, safe_rotation_tick|]. done.
Qed.

(** What the server runs concurrently: requests and the rotation worker, here
    for some number of rounds. *)
Inductive task :=
| Serve (req : request)
| RotationRounds (poll_secs : Z) (rounds : nat).

Definition task_prog (t : task) : prog St ApiError unit :=
  match t with
  | Serve req => _ ← handle state req; mret tt
  | RotationRounds poll_secs rounds => prog_map_err Api.Internal (rotation_run state poll_secs rounds)
  end.

(** C2. Whatever requests arrive (all but a forced re-wrap; a restore brings
    back a backup of a store whose versions open) and however many rounds the
    rotation worker runs at the same time, and however their atomic actions
    interleave, after every action the store holds a well-formed vault, every version row in it opens to a plaintext under the
    name and number it is stored under, and every cached data key is the one its
    wrapped blob stands for. *)
Theorem requests_keep_world (tasks : list task) (w w' : World St) ps :
  Forall (λ t, match t with Serve req => ordinary req | RotationRounds _ _ => True end) tasks →
  world_ok w → rtc interleave (w, map task_prog tasks) (w', ps) →
  cache_ok (w_cache w') ∧ ∃ a, view (w_store w') a ∧ vault_ok a ∧ vault_sealed a.
Proof.
  intros Htasks Hw Hsteps.
  destruct (safe_interleave world_ok (λ _, True) _ _ _ Hsteps Hw) as [(Hc & a & Hv & Ha) _].
  - apply Forall_map. eapply Forall_impl; [exact Htasks|]. intros [req|poll_secs rounds] Ht; simpl.
    + apply safe_map. by apply safe_handle.
    + apply safe_map_err, safe_rotation_run.
  - split; [done|]. exists a. split; [done|]. split; [by eapply view_ok|done].
Qed.
End service_safe.
