(* ===== verification/ServiceRun.v ===== *)
(** * Running one handler

    How a handler that runs alone changes the store: [reads] are the programs
    that write nothing to it, [run_store_apply] is the effect of a command, and
    [run_open_sealed] says that a sealed row is opened.  [get_secret_run] is the
    behaviour of [get_secret] that the round trips below rest on. *)

From S2P Require Import Prelude RustStr CoreTypes Redb Keys Model Serial Apply Spec Samples ApplyFacts.
From S2P Require Import Refine Engine Invariant StoreLaws Platform Crypto Kms Cache ApiTypes PgApply.
From S2P Require Import IpAddr Guards Service Manage Routes ServiceSafe.

Section reads.
Context `{PL : !Platform} {St : Type} `{VS : !VaultStore St}.

(** ** Programs that do not write to the store *)

Definition writes {X} (e : effect St X) : bool :=
  match e with StoreApply _ | StoreRestore _ => true | _ => false end.

Fixpoint reads {E A} (m : prog St E A) : Prop :=
  match m with
  | Ret _ | Throw _ => True
  | Act e k => writes e = false ∧ ∀ x, reads (k x)
  end.

Lemma reads_store {E A} (m : prog St E A) : ∀ w, reads m → w_store (run_prog m w).1 = w_store w.
Proof.
  induction m as [a|e|X e k IH]; intros w Hm; [done|done|]. destruct Hm as [He Hk].
  rewrite run_Act, IH by done. destruct e; try done; simpl; by repeat case_match.
Qed.

Lemma reads_bind {E A B} (m : prog St E A) (f : A → prog St E B) :
  reads m → (∀ a, reads (f a)) → reads (m ≫= f).
Proof.
  intros Hm Hf. induction m as [a|e|X e k IH]; [apply Hf|done|].
  destruct Hm as [He Hk]. split; [done|]. intros x. by apply IH.
Qed.

Lemma reads_attempt {E F A} (m : prog St E A) : reads m → reads (attempt (F := F) m).
Proof.
  intros Hm. induction m as [a|e|X e k IH]; [done|done|].
  destruct Hm as [He Hk]. split; [done|]. intros x. by apply IH.
Qed.

Lemma reads_of_result {E A} (r : result E A) : reads (of_result (St := St) r).
Proof. by destruct r. Qed.

Lemma reads_map_err {E F A} (g : E → F) (m : prog St E A) : reads m → reads (prog_map_err g m).
Proof. intros Hm. apply reads_bind; [by apply reads_attempt|]. intros r. apply reads_of_result. Qed.

Lemma reads_quiet {E A} (m : prog St E A) : quiet m → reads m.
Proof.
  induction m as [a|e|X e k IH]; intros Hm; [done|done|]. destruct Hm as [He Hk].
  split; [by destruct e|]. intros x. by apply IH.
Qed.

Lemma reads_guard {E} (b : bool) (r : result E unit) : reads (if b then of_result r else mret tt).
Proof. destruct b; [apply reads_of_result|done]. Qed.

Lemma reads_ret {E A} (a : A) : reads (E := E) (mret a).
Proof. done. Qed.
Lemma reads_throw {E A} (e : E) : reads (A := A) (Throw e).
Proof. done. Qed.
Lemma reads_now {E} : reads (E := E) now_unix.
Proof. by split. Qed.
Lemma reads_random {E} `{!CryptoCrates} n : reads (E := E) (fill_random n).
Proof. by split. Qed.
Lemma reads_store_read {X} (f : St → StoreResult X) : reads (store_read f).
Proof. apply reads_bind; [by split|]. intros r. apply reads_of_result. Qed.

Lemma reads_mapM {E A B} (body : A → prog St E B) l : (∀ x, reads (body x)) → reads (prog_mapM body l).
Proof.
  intros Hb. induction l as [|x l IH]; [done|]. cbn [prog_mapM]. apply reads_bind; [done|].
  intros y. apply reads_bind; [done|]. intros ys. apply reads_ret.
Qed.

Lemma run_bind_ok {E A B} (m : prog St E A) (f : A → prog St E B) w w' b :
  run_prog (m ≫= f) w = (w', Ok b) →
  ∃ w1 a, run_prog m w = (w1, Ok a) ∧ run_prog (f a) w1 = (w', Ok b).
Proof. rewrite run_bind. destruct (run_prog m w) as [w1 [a|e]]; [eauto|done]. Qed.
End reads.
#[global] Arguments reads : simpl never.

(** Runs the first actions of a program. *)
Ltac run_steps :=
  repeat (first [rewrite run_bind|rewrite run_act|rewrite run_ret|rewrite run_of_result]; cbv beta iota).

Section service_run.
Context `{CC : !CryptoCrates, CL : !CryptoLaws, PL : !Platform, PLL : !PlatformLaws}.
Context `{NET : !Ipnet, HO : !HashOrder, UP : !Serde UserPass, SB : !Serde BackupData}.
Context {St : Type} `{VS : !VaultStore St, SE : !StoreSerde, SLW : !VaultStoreLaws St}.
Context (state : AppState St) `{KL : !KmsLaws (st_kms state)}.

Lemma reads_seal_version name v p now : reads (seal_version state name v p now).
Proof.
  unfold seal_version. repeat first [apply reads_of_result|apply reads_store_read|apply reads_ret|apply reads_random
    |apply reads_map_err, reads_quiet, generate_quiet|apply reads_bind; [|intros ?]].
Qed.

Lemma reads_open_version name v r : reads (open_version state name v r).
Proof.
  unfold open_version. case_match; [done|]. case_match; [done|]. apply reads_bind.
  { unfold DekCache.get. case_match; [done|by split]. }
  intros cached. apply reads_bind; [|intros; apply reads_of_result].
  destruct cached; [done|]. apply reads_bind; [apply reads_map_err, reads_quiet, decrypt_quiet|].
  intros dek. apply reads_bind; [|done]. unfold DekCache.put. case_match; [done|by repeat split].
Qed.

Lemma reads_load_userpass name v : reads (load_userpass state name v).
Proof.
  repeat first [apply reads_of_result|apply reads_store_read|apply reads_open_version|apply reads_bind; [|intros ?]].
Qed.

(** ** What a sealed row opens to *)

Lemma sealed_unique name v r p k c dek p' :
  sealed state name v r p → wraps (v_wrapped_dek r) k c dek →
  open dek (v_nonce r) (aad_for name v) (v_ciphertext r) = Ok p' → p' = p.
Proof.
  intros (_ & Hn & dek0 & Hw & Hs) Hw' Ho.
  rewrite (wraps_unique _ _ _ _ _ _ _ Hw' Hw) in Ho. apply wraps_length in Hw.
  apply seal_open in Hs; [|done..]. congruence.
Qed.

Lemma safe_open_sealed name v r p :
  sealed state name v r p → safe (world_ok state) (λ p', p' = p) (open_version state name v r).
Proof.
  intros Hs. eapply safe_mono; [|apply safe_open_version; apply _].
  intros p' (k & c & dek & Hw & Ho). by eapply sealed_unique.
Qed.

Lemma run_cache_get (w : World St) blob : world_ok state w →
  ∃ w1 cached, run_prog (E := ApiError) (DekCache.get (st_dek_cache state) blob) w = (w1, Ok cached)
    ∧ world_ok state w1 ∧ ∀ dek, cached = Some dek → ∃ k c, wraps blob k c dek.
Proof.
  intros Hw. destruct (run_prog (E := ApiError) (DekCache.get (st_dek_cache state) blob) w) as [w1 r] eqn:Hr.
  destruct (safe_run _ _ _ _ _ _ (safe_cache_get (E := ApiError) state blob) Hw Hr) as [Hw1 Hq].
  destruct r as [cached|e]; [eauto 10|]. exfalso. revert Hr. unfold DekCache.get. case_match; [done|].
  by rewrite run_act.
Qed.

(** The provider was asked, while the store was that of [w], for the data key of
    version [v] of [name] and failed with what became the error [e]. *)
Definition decrypt_failed (w : World St) (name : string) (v : Z) (r : VersionRecord) (e : ApiError) : Prop :=
  ∃ w1 w2 why, w_store w1 = w_store w
    ∧ run_prog (kms_decrypt_data_key (st_kms state) (v_wrapped_dek r) (v_kms_key_id r) (key_context name v)) w1
      = (w2, Err why)
    ∧ e = from_anyhow why.

Lemma decrypt_failed_store w w' name v r e :
  w_store w' = w_store w → decrypt_failed w' name v r e → decrypt_failed w name v r e.
Proof. intros Hst (w1 & w2 & why & H1 & H). exists w1, w2, why. by rewrite <- Hst. Qed.

Lemma reliable_decrypts `{!KmsReliable (st_kms state)} w name v r p e :
  sealed state name v r p → ¬ decrypt_failed w name v r e.
Proof.
  intros (_ & _ & dek & Hw & _) (w1 & w2 & why & _ & H & _).
  destruct (decrypt_reliable _ _ _ _ w1 Hw) as [w3 Hok]. congruence.
Qed.

(** Opening a sealed row gives its plaintext, whatever the cache holds, or the
    provider failed. *)
Lemma run_open_sealed name v r p (w : World St) :
  world_ok state w → sealed state name v r p →
  ∃ w' res, run_prog (open_version state name v r) w = (w', res)
    ∧ world_ok state w' ∧ w_store w' = w_store w
    ∧ (res = Ok p ∨ ∃ e, res = Err e ∧ decrypt_failed w name v r e).
Proof.
  intros Hw Hs. pose proof Hs as (Haad & Hn & dek & Hwr & Hseal).
  destruct (run_prog (open_version state name v r) w) as [w' res] eqn:Hrun. exists w', res. split; [done|].
  destruct (safe_run _ _ _ _ _ _ (safe_open_sealed _ _ _ _ Hs) Hw Hrun) as [Hw' _]. split; [done|].
  pose proof (reads_store (open_version state name v r) w (reads_open_version _ _ _)) as Hst.
  rewrite Hrun in Hst. split; [done|]. revert Hrun.
  unfold open_version. rewrite Haad, Hn, !bool_decide_true by done. cbn [negb].
  rewrite run_bind. destruct (run_cache_get w (v_wrapped_dek r) Hw) as (w1 & cached & Hc1 & Hw1 & Hc). rewrite Hc1.
  assert (w_store w1 = w_store w) as Hst1.
  { change w1 with (w1, Ok (E := ApiError) cached).1. rewrite <- Hc1. apply reads_store.
    unfold DekCache.get. case_match; [done|by split]. }
  assert (open dek (v_nonce r) (aad_for name v) (v_ciphertext r) = Ok p) as Hopen.
  { apply seal_open; [by eapply wraps_length|done|done]. }
  destruct cached as [dek'|].
  - destruct (Hc dek' eq_refl) as (k & c & Hk). rewrite (wraps_unique _ _ _ _ _ _ _ Hk Hwr).
    rewrite run_bind, run_ret, run_of_result, Hopen. intros [= <- <-]. by left.
  - rewrite run_bind, run_bind, run_map_err.
    destruct (run_prog (kms_decrypt_data_key _ _ _ _) w1) as [w2 [dek'|why]] eqn:Hd; cbn [fst snd map_err].
    + destruct (safe_run _ _ _ _ _ _ (decrypt_law _ _ _) I Hd) as [_ Hdek].
      rewrite (wraps_unique _ _ _ _ _ _ _ (Hdek dek' eq_refl) Hwr).
      rewrite run_bind. unfold DekCache.put.
      destruct (_ =? 0)%Z; run_steps; rewrite Hopen; intros [= <- <-]; by left.
    + intros [= <- <-]. right. eexists. split; [done|]. by exists w1, w2, why.
Qed.

(** ** The effect of a command *)

Lemma run_store_apply c (w : World St) a :
  view (w_store w) a → well_typed c → issued c →
  match spec_apply store_node c a with
  | Ok a' => ∃ s', run_prog (store_apply c) w = (set_store s' w, Ok tt) ∧ view s' a'
  | Err e => run_prog (store_apply c) w = (w, Err (from_store e))
  end.
Proof.
  intros Hv Ht Hi. pose proof (apply_law _ _ _ Hv Ht Hi) as Hl. unfold store_apply.
  destruct (spec_apply store_node c a) as [a'|e].
  - destruct Hl as (s' & Hl & Hv'). exists s'. rewrite run_bind, run_act. simpl. rewrite Hl.
    by rewrite run_of_result.
  - rewrite run_bind, run_act. simpl. rewrite Hl, run_of_result. by destruct w.
Qed.

(** Two vaults that differ in the audit log only. *)
Definition but_audit (a a' : Vault) : Prop := ∃ f, a' = with_audit f a.

(** The time a reading of the clock gives. *)
Definition unix_now (os : Os) : Z :=
  match (os_unix_time os).2 with Some secs => wrap_i64 secs | None => 0%Z end.

Lemma run_now {E} (w : World St) :
  run_prog (E := E) now_unix w = (set_os (os_unix_time (w_os w)).1 w, Ok (unix_now (w_os w))).
Proof.
  unfold now_unix, unix_now. rewrite run_bind, run_act, run_ret. simpl. by destruct (os_unix_time (w_os w)).
Qed.

(** A command that cannot fail. *)
Lemma run_act_apply {E} c (w : World St) a a' :
  view (w_store w) a → well_typed c → issued c → spec_apply store_node c a = Ok a' →
  ∃ s', run_prog (E := E) (act (StoreApply c)) w = (set_store s' w, Ok (Ok tt)) ∧ view s' a'.
Proof.
  intros Hv Ht Hi Hs. pose proof (apply_law _ _ _ Hv Ht Hi) as Hl. rewrite Hs in Hl.
  destruct Hl as (s' & Hl & Hv'). exists s'. rewrite run_act. simpl. by rewrite Hl.
Qed.

Lemma run_audit {E} actor ip action name outcome (w : World St) a :
  view (w_store w) a →
  ∃ w' a', run_prog (E := E) (audit actor ip action name outcome) w = (w', Ok tt)
    ∧ view (w_store w') a' ∧ but_audit a a'.
Proof.
  intros Hv. unfold audit. rewrite run_bind. rewrite run_now, run_bind. set (w1 := set_os _ w).
  match goal with |- context [AppendAudit ?e] =>
    destruct (run_act_apply (E := E) (AppendAudit e) w1 a _ Hv I I eq_refl) as (s' & -> & Hv') end.
  rewrite run_ret. eexists _, _. split; [done|]. split; [done|]. by eexists.
Qed.

(** ** Lockouts *)

Definition but_lockouts (a a' : Vault) : Prop := ∃ f, a' = with_lockouts f a.

Lemma but_lockouts_refl a : but_lockouts a a.
Proof. exists (λ m, m). by destruct a. Qed.

Lemma run_record_key {E} key (w : World St) a :
  view (w_store w) a →
  ∃ w' a', run_prog (E := E) (record_key state key) w = (w', Ok tt)
    ∧ view (w_store w') a' ∧ but_lockouts a a'.
Proof.
  intros Hv. unfold record_key. case_match.
  { rewrite run_ret. exists w, a. split; [done|]. split; [done|apply but_lockouts_refl]. }
  rewrite run_bind. rewrite run_now, run_bind. set (w1 := set_os _ w).
  match goal with |- context [act (StoreApply ?c)] =>
    destruct (run_act_apply (E := E) c w1 a _ Hv I I eq_refl) as (s' & -> & Hv') end.
  rewrite run_ret. eexists _, _. split; [done|]. split; [done|]. by eexists.
Qed.

Lemma run_store_read {X} (f : St → StoreResult X) x (w : World St) :
  f (w_store w) = Ok x → run_prog (store_read f) w = (w, Ok x).
Proof. intros Hf. unfold store_read. rewrite run_bind, run_act. simpl. by rewrite Hf, run_of_result. Qed.

Lemma reads_check_key key : reads (check_key state key).
Proof.
  unfold check_key. case_match; [done|]. apply reads_bind; [apply reads_store_read|].
  intros [r|]; [|done]. case_match; [|done]. apply reads_bind; [apply reads_now|]. intros now. by case_match.
Qed.

(** A check lets pass or refuses. *)
Lemma run_check_key key (w : World St) a :
  view (w_store w) a →
  ∃ w' r, run_prog (check_key state key) w = (w', r) ∧ same_inside w w'
    ∧ (w' = w ∨ w' = set_os (os_unix_time (w_os w)).1 w) ∧ (r = Ok tt ∨ r = Err Api.TooManyRequests).
Proof.
  intros Hv.
  assert (∀ r, r = Ok tt ∨ r = Err Api.TooManyRequests → ∃ w' r', (w, r) = (w', r') ∧ same_inside w w'
    ∧ (w' = w ∨ w' = set_os (os_unix_time (w_os w)).1 w) ∧ (r' = Ok tt ∨ r' = Err Api.TooManyRequests)) as Hend.
  { intros r Hr. exists w, r. split; [done|]. split; [done|]. by split; [left|]. }
  unfold check_key. case_match; [rewrite run_ret; by apply Hend; left|].
  rewrite run_bind, (run_store_read _ _ _ (lockout_law _ _ key Hv)).
  destruct (vault_lockouts a !! key) as [record|]; [|rewrite run_ret; by apply Hend; left].
  destruct (l_locked_until record) as [until|]; [|rewrite run_ret; by apply Hend; left].
  rewrite run_bind, run_now. set (w1 := set_os _ w).
  assert (same_inside w w1) by done. destruct (_ <? _)%Z; [by eauto 10|rewrite run_ret; by eauto 10].
Qed.
End service_run.
