(* ===== verification/ServiceThms.v ===== *)
(** * What the secret service gives back

    Theorems on handlers that run alone: a stored version opens to exactly what
    was sealed and only under its own identity; what [create_secret] and
    [rotate] answer is what [get_secret] then returns; [verify_secret] accepts
    exactly the values of live versions.  They hold for every key-management
    provider that keeps [KmsLaws]; what a provider that fails to decrypt a data
    key does to the answers is said in them. *)

From S2P Require Import Prelude RustStr CoreTypes Redb Keys Model Serial Apply Spec Samples ApplyFacts.
From S2P Require Import Refine Engine Invariant StoreLaws Platform Crypto Kms Cache ApiTypes PgApply.
From S2P Require Import IpAddr Guards Service Manage Routes ServiceSafe ServiceRun.

Section service_thms.
Context `{CC : !CryptoCrates, CL : !CryptoLaws, PL : !Platform, PLL : !PlatformLaws}.
Context `{NET : !Ipnet, HO : !HashOrder, UP : !Serde UserPass, UPL : !SerdeLaws UserPass}.
Context {St : Type} `{VS : !VaultStore St, SE : !StoreSerde, SLW : !VaultStoreLaws St}.
Context (state : AppState St) `{KL : !KmsLaws (st_kms state)}.

(** C11. A stored version opens to exactly the plaintext it was sealed with:
    whatever keys are cached (each that of its wrapped blob), opening it gives
    that plaintext, unless the provider was asked for its data key and failed;
    in any interleaving with other requests it never gives anything else; and
    under any other valid name or any other version number it is refused before
    a key is fetched. *)
Theorem open_version_exact name v r p :
  sealed state name v r p →
  (∀ w, world_ok state w → ∃ w' res, run_prog (open_version state name v r) w = (w', res)
     ∧ (res = Ok p ∨ ∃ e, res = Err e ∧ decrypt_failed state w name v r e))
  ∧ safe (world_ok state) (λ p', p' = p) (open_version state name v r)
  ∧ ∀ name' v', is_valid_secret_name name = true → is_valid_secret_name name' = true → in_i32 v → in_i32 v' →
      (name', v') ≠ (name, v) → ∃ why, open_version state name' v' r = Throw (Api.Internal why).
Proof.
  intros Hs. split; [|split; [by apply safe_open_sealed|]].
  - intros w Hw. destruct (run_open_sealed state name v r p w Hw Hs) as (w' & res & Hrun & _ & _ & Hres). eauto.
  - intros name' v' Hn Hn' Hv Hv' Hne. destruct Hs as [Haad _].
    unfold open_version. rewrite Haad, bool_decide_false; [by eexists|].
    intros [-> ->]%aad_for_injective; done.
Qed.

(** ** Reading back *)

(** A world whose store holds [a]. *)
Definition holds (w : World St) (a : Vault) : Prop :=
  cache_ok state (w_cache w) ∧ view (w_store w) a ∧ vault_sealed state a.

Lemma holds_ok w a : holds w a → world_ok state w.
Proof. intros (? & ? & ?). split; [done|]. by exists a. Qed.

Lemma holds_audit w w' a a' :
  holds w a → world_ok state w' → view (w_store w') a' → but_audit a a' → holds w' a'.
Proof. intros (_ & _ & Hs) [Hc _] Hv [f ->]. split; [done|]. by split. Qed.

(** What [get_secret] answers in a world that holds [a]. *)
Lemma get_secret_run name ip w a :
  holds w a →
  match vault_secrets a !! name with
  | None => ∃ w', run_prog (get_secret state name ip) w = (w', Err Api.NotFound)
  | Some secret => ∃ r p w' res, vault_versions a !! (name, s_current_version secret) = Some r
      ∧ sealed state name (s_current_version secret) r p
      ∧ run_prog (get_secret state name ip) w = (w', res)
      ∧ (res = (payload ← decode_payload (s_format secret) p; Ok (value_of name secret r payload))
         ∨ ∃ e, res = Err e ∧ decrypt_failed state w name (s_current_version secret) r e)
  end.
Proof.
  intros Hh. pose proof Hh as (_ & Hv & Hseal). pose proof (view_ok _ _ Hv) as Hok.
  unfold get_secret, known_name. rewrite run_bind, run_of_result.
  destruct (vault_secrets a !! name) as [secret|] eqn:Hs.
  - destruct (ok_secret _ Hok _ _ Hs) as [_ ->]. destruct (ok_current _ Hok _ _ Hs) as (r & Hr & _).
    destruct (Hseal _ _ _ Hr) as [p Hp]. destruct (ok_version _ Hok _ _ _ Hr) as [Hver _].
    rewrite run_bind, (run_store_read _ (Some (secret, r))).
    2: { rewrite (current_version_law _ _ _ Hv), Hs. simpl. by rewrite Hr. }
    rewrite Hver, run_bind. exists r, p.
    destruct (run_open_sealed state name _ r p w (holds_ok _ _ Hh) Hp) as (w1 & res & -> & _ & Hst & [->|(e & -> & He)]);
      [|by eauto 10]. rewrite run_bind, run_of_result.
    destruct (decode_payload (s_format secret) p) as [payload|e]; [|by eauto 10].
    rewrite run_bind. rewrite <- Hst in Hv.
    destruct (run_audit (E := ApiError) None (Some ip) "get" (Some name) "ok" w1 a Hv) as (w2 & a2 & -> & _).
    rewrite run_ret. by eauto 10.
  - destruct (is_valid_secret_name name); [|by eauto]. rewrite run_bind, (run_store_read _ None).
    2: { by rewrite (current_version_law _ _ _ Hv), Hs. }
    rewrite run_bind.
    destruct (run_audit (E := ApiError) None (Some ip) "get" (Some name) "not_found" w a Hv) as (w2 & a2 & -> & _).
    by eauto.
Qed.

(** A payload whose bytes decode to its fields. *)
Definition payload_ok (pl : Payload) : Prop :=
  decode_payload (pl_format pl) (pl_bytes pl) = Ok (pl_value pl, pl_username pl, pl_password pl).

Lemma opaque_payload_ok value : is_utf8 value → payload_ok (opaque_payload value).
Proof. intros Hv. unfold payload_ok. simpl. by rewrite from_utf8_as_bytes. Qed.

Lemma userpass_payload_ok username password : payload_ok (userpass_payload username password).
Proof.
  destruct (serde_roundtrip {| up_username := username; up_password := password |}) as (bs & Hto & Hfrom).
  unfold payload_ok, userpass_payload, encode_userpass. rewrite Hto. simpl. unfold decode_userpass. by rewrite Hfrom.
Qed.

(** The current version of [name] is [v], made at [now] with [payload]. *)
Definition current_is (a : Vault) (name : string) (secret : SecretRecord) (v now : Z) (payload : Payload) : Prop :=
  vault_secrets a !! name = Some secret ∧ s_current_version secret = v ∧ s_format secret = pl_format payload
  ∧ ∃ r, vault_versions a !! (name, v) = Some r ∧ v_created_at r = now
      ∧ sealed state name v r (pl_bytes payload).

Lemma read_back name ip w a secret v now payload :
  holds w a → current_is a name secret v now payload → payload_ok payload →
  ∃ w' res, run_prog (get_secret state name ip) w = (w', res)
    ∧ (res = Ok {|
         sv_name := name; sv_kind := s_kind secret; sv_format := s_format secret; sv_version := v;
         sv_value := pl_value payload; sv_username := pl_username payload;
         sv_password := pl_password payload; sv_created_at := rfc3339 now |}
       ∨ ∃ r e, res = Err e ∧ vault_versions a !! (name, v) = Some r ∧ decrypt_failed state w name v r e).
Proof.
  intros Hh (Hs & Hv & Hf & r & Hr & Hc & Hsealed) Hp. pose proof (get_secret_run name ip w a Hh) as Hg.
  rewrite Hs in Hg. destruct Hg as (r' & p & w' & res & Hr' & Hsealed' & Hrun & Hres). rewrite Hv in Hr', Hsealed', Hres.
  simplify_eq. exists w', res. split; [done|]. destruct Hres as [->|(e & -> & He)]; [left|right; by exists r, e].
  assert (p = pl_bytes payload) as ->.
  { destruct Hsealed as (_ & Hn & dek & Hw & Hse). eapply eq_sym, (sealed_unique state); [exact Hsealed'|exact Hw|].
    by apply seal_open; [eapply wraps_length| |]. }
  rewrite Hf, Hp. unfold_monad. unfold value_of. simpl. destruct Hh as (_ & Hview & _).
  destruct (ok_version _ (view_ok _ _ Hview) _ _ _ Hr) as [-> _]. by rewrite Hf.
Qed.

(** [sv] is what the vault has under [name]. *)
Definition readable (a : Vault) (name : string) (sv : SecretValue) : Prop :=
  ∃ secret v now payload, current_is a name secret v now payload ∧ payload_ok payload
    ∧ sv = {| sv_name := name; sv_kind := s_kind secret; sv_format := s_format secret; sv_version := v;
              sv_value := pl_value payload; sv_username := pl_username payload;
              sv_password := pl_password payload; sv_created_at := rfc3339 now |}.

(** Reading version [v] of [name] failed because the provider did not give its
    data key. *)
Definition key_withheld (w : World St) (name : string) (v : Z) (e : ApiError) : Prop :=
  ∃ r, in_i32 v ∧ vs_version name v (w_store w) = Ok (Some r) ∧ decrypt_failed state w name v r e.

Lemma key_withheld_store w w' name v e : w_store w' = w_store w → key_withheld w' name v e → key_withheld w name v e.
Proof.
  intros Hst (r & Hi & Hr & He). exists r. split; [done|]. rewrite <- Hst. split; [done|]. by eapply decrypt_failed_store.
Qed.

Lemma stored_version w a name v r :
  holds w a → vault_versions a !! (name, v) = Some r → in_i32 v ∧ vs_version name v (w_store w) = Ok (Some r).
Proof.
  intros (_ & Hv & _) Hr. destruct (ok_version _ (view_ok _ _ Hv) _ _ _ Hr) as (_ & Hrange & _).
  assert (in_i32 v) by (unfold_ints; lia). by rewrite (version_law _ _ name v Hv), Hr.
Qed.

(** A provider that never fails withholds no key. *)
Lemma reliable_gives `{!KmsReliable (st_kms state)} w a name v e : holds w a → ¬ key_withheld w name v e.
Proof.
  intros (_ & Hv & Hse) (r & Hi & Hr & He). rewrite (version_law _ _ name v Hv Hi) in Hr. injection Hr as Hr. destruct (Hse _ _ _ Hr) as [p Hp].
  by apply (reliable_decrypts state w name v r p e Hp).
Qed.

Lemma readable_read name ip w a sv :
  holds w a → readable a name sv →
  ∃ w' res, run_prog (get_secret state name ip) w = (w', res)
    ∧ (res = Ok sv ∨ ∃ e, res = Err e ∧ key_withheld w name (sv_version sv) e).
Proof.
  intros Hh (secret & v & now & payload & Hc & Hp & ->).
  destruct (read_back name ip w a _ _ _ _ Hh Hc Hp) as (w' & res & Hrun & [->|(r & e & -> & Hr & He)]); [by eauto|].
  exists w', (Err e). split; [done|]. right. exists e. split; [done|]. exists r.
  destruct (stored_version _ _ _ _ _ Hh Hr). by split_and!.
Qed.

(** What [get_secret] answers, the vault has. *)
Lemma read_readable name ip w w' a sv :
  holds w a → run_prog (get_secret state name ip) w = (w', Ok sv) → readable a name sv.
Proof.
  intros Hh Hrun. pose proof (get_secret_run name ip w a Hh) as Hg.
  destruct (vault_secrets a !! name) as [secret|] eqn:Hs; [|destruct Hg as [? ?]; congruence].
  destruct Hg as (r & p & w1 & res & Hr & Hp & Hrun1 & Hres). rewrite Hrun1 in Hrun. injection Hrun as _ ->.
  destruct Hres as [Hsv|(e & ? & _)]; [|done]. symmetry in Hsv.
  destruct (decode_payload (s_format secret) p) as [[[value username] password]|] eqn:Hd; [|done].
  injection Hsv as <-. destruct Hh as (_ & Hv & _).
  exists secret, (s_current_version secret), (v_created_at r), {| pl_format := s_format secret; pl_bytes := p;
    pl_value := value; pl_username := username; pl_password := password |}.
  split; [do 3 (split; [done|]); by exists r|]. split; [done|]. unfold value_of. by destruct (ok_version _ (view_ok _ _ Hv) _ _ _ Hr) as [-> _].
Qed.

(** ** Creation *)

(** One step of a run that succeeds. *)
Tactic Notation "run_inv" hyp(H) simple_intropattern(w1) simple_intropattern(x) simple_intropattern(Hx) :=
  apply run_bind_ok in H as (w1 & x & Hx & H).

(** The same for a step that only computes. *)
Ltac run_pure H :=
  let w1 := fresh "w" in let x := fresh "x" in let Hx := fresh "Hx" in
  apply run_bind_ok in H as (w1 & x & Hx & H); rewrite run_of_result in Hx; injection Hx as <- Hx.

(** A reading step keeps the vault; [Q] is what it answers. *)
Lemma run_reads {E A} (Q : A → Prop) (m : prog St E A) w w' a x :
  reads m → safe (world_ok state) Q m → holds w a → run_prog m w = (w', Ok x) → holds w' a ∧ Q x.
Proof.
  intros Hr Hs Hh Hrun. destruct (safe_run _ _ _ _ _ _ Hs (holds_ok _ _ Hh) Hrun) as [[Hc _] Hq].
  pose proof (reads_store m w Hr) as Hst. rewrite Hrun in Hst. simpl in Hst.
  split; [|by apply Hq]. destruct Hh as (_ & Hv & Hse). split; [done|]. by rewrite Hst.
Qed.

(** The text fields of a request are strings. *)
Definition text_request (req : CreateSecretRequest) : Prop := ∀ value, cr_value req = Some value → is_utf8 value.

Lemma safe_generate_token {E} : safe (E := E) (world_ok state) is_utf8 generate_token.
Proof. eapply safe_bind; [apply safe_random|]. intros bs _. apply safe_ret, base64_text. Qed.

Lemma reads_generate_token {E} : reads (St := St) (E := E) generate_token.
Proof. apply reads_bind; [apply reads_random|done]. Qed.

Lemma create_payload_ok req :
  text_request req → safe (world_ok state) payload_ok (build_create_payload req).
Proof.
  intros Ht. unfold build_create_payload. case_match; [case_match; [by apply safe_of_result|]|].
  - do 2 (eapply safe_bind; [apply safe_of_result_eq|intros]).
    eapply (safe_bind _ (λ _, True)); [|intros; apply safe_ret, userpass_payload_ok].
    repeat case_match; try (by apply safe_of_result); try apply safe_token; try apply safe_random; try apply _.
    all: eapply safe_bind; [apply safe_of_result_eq|done].
  - eapply (safe_bind _ is_utf8); [|intros; by apply safe_ret, opaque_payload_ok].
    destruct (cr_value req) as [value|] eqn:Hv.
    + assert (is_utf8 value) by by apply Ht.
      destruct (cr_kind req); eapply safe_bind; try apply safe_of_result_eq; done.
    + destruct (cr_kind req); [by apply safe_of_result|apply safe_generate_token].
Qed.

Lemma reads_create_payload req : reads (St := St) (build_create_payload req).
Proof.
  unfold build_create_payload. case_match; [case_match; [apply reads_of_result|]|].
  all: repeat first [apply reads_of_result|apply reads_ret|apply reads_generate_token
    |apply reads_bind; [|intros ?]|case_match].
Qed.

(** The vault after an [audit] that follows a write. *)
Lemma audited {E} actor ip action name outcome w w' a x :
  holds w a → run_prog (E := E) (audit actor ip action name outcome) w = (w', Ok x) →
  ∃ a', holds w' a' ∧ but_audit a a'.
Proof.
  intros Hh Hrun. pose proof Hh as (_ & Hv & _).
  destruct (run_audit (E := E) actor ip action name outcome w a Hv) as (w1 & a1 & Hr1 & Hv1 & Hb).
  rewrite Hr1 in Hrun. simplify_eq. exists a1. split; [|done]. eapply holds_audit; [done| |done|done].
  by eapply (safe_run _ (λ _, True) _ _ _ _ (safe_audit state actor ip action name outcome) (holds_ok _ _ Hh)).
Qed.

(** Reading a secret writes an audit row and nothing else. *)
Lemma get_secret_keeps name ip w w' a sv :
  holds w a → run_prog (get_secret state name ip) w = (w', Ok sv) → ∃ a', holds w' a' ∧ but_audit a a'.
Proof.
  intros Hh H. unfold get_secret in H. run_pure H. run_inv H w1 row H1.
  destruct (run_reads (λ _, True) _ _ _ _ _ (reads_store_read _) (safe_weaken _ _ _ (safe_store_read state _)) Hh H1) as [Hh1 _].
  destruct row as [[secret version]|]; [|by run_inv H w2 u H2].
  run_inv H w2 p H2.
  destruct (run_reads (λ _, True) _ _ _ _ _ (reads_open_version state _ _ _)
              (safe_weaken _ _ _ (safe_open_version state _ _ _)) Hh1 H2) as [Hh2 _].
  run_pure H. run_inv H w3 u H3. eapply audited in H3 as (a' & Hh3 & Hb); [|done].
  rewrite run_ret in H. injection H as <- _. by exists a'.
Qed.

Lemma current_is_audit a a' name secret v now payload :
  but_audit a a' → current_is a name secret v now payload → current_is a' name secret v now payload.
Proof. by intros [f ->]. Qed.

(** A command of the service, when it succeeds. *)
Lemma applied c w w' a x :
  holds w a → command_ok state c → run_prog (store_apply c) w = (w', Ok x) →
  ∃ a', spec_apply store_node c a = Ok a' ∧ holds w' a'.
Proof.
  intros Hh Hc Hrun. pose proof Hh as (_ & Hv & Hse). pose proof Hc as (Ht & Hi & _).
  pose proof (run_store_apply c w a Hv Ht Hi) as Hr.
  destruct (spec_apply store_node c a) as [a'|e] eqn:Hs; [|congruence].
  destruct Hr as (s' & Hr & Hv'). rewrite Hr in Hrun. simplify_eq. exists a'. split; [done|].
  split; [apply Hh|]. split; [done|]. by eapply vault_sealed_step.
Qed.

(** The vault after a creation has what the answer says. *)
Lemma create_readable actor req w w1 sv :
  world_ok state w → text_request req →
  run_prog (create_secret state actor req) w = (w1, Ok sv) →
  ∃ a, holds w1 a ∧ readable a (cr_name req) sv.
Proof.
  intros (Hc & a & Hv & Hse) Ht H. assert (holds w a) as Hh by done. clear Hc Hv Hse. unfold create_secret in H.
  do 4 run_pure H. run_inv H w6 u'' H5.
  destruct (run_reads _ _ _ _ _ _ (reads_guard _ _) (safe_guard state _ _) Hh H5) as [Hh5 _].
  run_inv H w7 payload H6.
  destruct (run_reads _ _ _ _ _ _ (reads_create_payload req) (create_payload_ok req Ht) Hh5 H6) as [Hh6 Hpl].
  run_inv H w8 now H7. destruct (run_reads _ _ _ _ _ _ reads_now (safe_now state) Hh6 H7) as [Hh7 _].
  run_inv H w9 version H8.
  destruct (run_reads _ _ _ _ _ _ (reads_seal_version _ _ _ _ _) (safe_seal_version _ _ _ _ _) Hh7 H8)
    as [Hh8 (Hver & Hexp & Hnow & Hs)].
  run_inv H w10 u3 H9. eapply applied in H9 as (a' & Ha' & Hh9); [|done|].
  2: { split; simpl; rewrite Hver; [done|]. split; [by rewrite Hexp|]. eauto. }
  run_inv H w11 u4 H10. eapply audited in H10 as (a'' & Hh10 & Hb); [|done].
  rewrite run_ret in H. injection H as <- <-.
  exists a''. split; [done|].
  match type of Ha' with spec_apply _ (CreateSecret ?secret _) _ = _ => exists secret, 1%Z, now, payload end.
  split; [|done]. eapply current_is_audit; [done|].
  simpl in Ha'. destruct (row_allowed _ _) as [[]|]; [|done]. unfold_monad. case_match; [done|]. simplify_eq.
  split; [by apply lookup_insert_eq|]. split; [done|]. split; [done|].
  exists version. split; [|done]. simpl. rewrite Hver. apply lookup_insert_eq.
Qed.

(** ** Rotation *)

Lemma rotate_payload_ok name secret :
  safe (world_ok state) (λ pl, payload_ok pl ∧ pl_format pl = s_format secret) (rotate_payload state name secret).
Proof.
  unfold rotate_payload. destruct (s_format secret).
  - eapply safe_bind; [apply safe_generate_token|]. intros value Hv. apply safe_ret.
    split; [by apply opaque_payload_ok|done].
  - eapply safe_bind; [apply safe_load_userpass|]. intros current _.
    eapply safe_bind; [apply safe_generate_token|]. intros password _. apply safe_ret.
    split; [apply userpass_payload_ok|done].
Qed.

Lemma reads_rotate_payload name secret : reads (rotate_payload state name secret).
Proof.
  unfold rotate_payload. case_match; repeat first [apply reads_generate_token|apply (reads_load_userpass state)
    |apply reads_ret|apply reads_bind; [|intros ?]].
Qed.

Lemma reads_apply_password policy target user password role new_password :
  reads (St := St) (apply_password policy target user password role new_password).
Proof.
  apply reads_quiet, quiet_bind; [apply quiet_of_result|]. intros _. apply quiet_apply_hosts.
Qed.

Lemma reads_try_logins pg role new_password logins : ∀ last_err,
  reads (try_logins state pg role new_password logins last_err).
Proof.
  induction logins as [|login logins IH]; intros last_err; [done|]. cbn [try_logins].
  apply reads_bind; [apply reads_attempt, reads_apply_password|]. intros []; [done|apply IH].
Qed.

Lemma reads_apply_target name previous now target username new_password :
  reads (apply_target state name previous now target username new_password).
Proof.
  assert (reads (self_login_candidates state name previous now)) as Hself.
  { apply reads_bind; [apply reads_store_read|]. intros live. apply reads_bind; [|done].
    apply reads_mapM. intros v. apply reads_bind; [apply reads_store_read|].
    intros []; [|done]. apply reads_bind; [apply (reads_open_version state)|done]. }
  destruct target as [pg]. apply reads_bind.
  - destruct (pg_login_secret pg) as [login|]; [|done]. case_decide; [|done].
    apply reads_bind; [|done]. unfold load_current_userpass. apply reads_bind; [apply reads_store_read|].
    intros row. apply reads_bind; [apply reads_of_result|]. intros [s v].
    apply reads_bind; [apply (reads_open_version state)|]. intros. apply reads_of_result.
  - intros [|login logins]; [done|apply reads_try_logins].
Qed.

(** A rotation whose external part succeeds leaves the vault as stored. *)
Lemma rotate_applied actor ip name secret payload next now w w' a u :
  holds w a →
  run_prog (match s_target secret, s_format secret with
    | Some target, Userpass =>
        r ← attempt (apply_target state name (s_current_version secret) now target
                       (default "" (pl_username payload)) (default "" (pl_password payload)));
        match r with
        | Ok _ => mret tt
        | Err err =>
            schedule_apply_retry name next now ;;
            audit (Some actor) ip "rotate" (Some name) "apply_failed" ;;
            Throw err
        end
    | _, _ => mret tt
    end) w = (w', Ok u) → holds w' a.
Proof.
  intros Hh. destruct (s_target secret) as [target|]; [|by rewrite run_ret; intros [= <- <-]].
  destruct (s_format secret); [by rewrite run_ret; intros [= <- <-]|]. intros H.
  run_inv H w1 r Hr.
  eapply (run_reads (λ _, True)) in Hr as [Hh1 _];
    [|apply reads_attempt, reads_apply_target|apply safe_attempt_any, safe_apply_target|done].
  destruct r as [[]|err]; [by rewrite run_ret in H; simplify_eq|].
  run_inv H w2 u1 _. by run_inv H w3 u2 _.
Qed.

Lemma current_after_put a a' name secret version expiry d i g n u now payload :
  vault_secrets a !! name = Some secret → v_created_at version = now → pl_format payload = s_format secret →
  v_version version ≠ s_current_version secret → sealed state name (v_version version) version (pl_bytes payload) →
  spec_apply store_node (PutVersion name (s_current_version secret) version (Some expiry) d i g n u) a = Ok a' →
  ∃ secret', current_is a' name secret' (v_version version) now payload
    ∧ s_kind secret' = s_kind secret ∧ s_format secret' = s_format secret.
Proof.
  intros Hs Hnow Hf Hne Hsealed. simpl. destruct (row_allowed _ _) as [[]|]; [|done]. unfold_monad.
  rewrite Hs. simpl. case_decide; [done|]. intros [= <-]. eexists. split.
  - split; [by apply lookup_insert_eq|]. split; [done|]. split; [done|]. exists version. simpl.
    rewrite lookup_alter_ne by congruence. by rewrite lookup_insert_eq.
  - done.
Qed.

(** The vault after a rotation has what the answer says. *)
Lemma rotate_readable actor ip name w w1 sv :
  world_ok state w → run_prog (rotate state actor ip name) w = (w1, Ok sv) →
  ∃ a, holds w1 a ∧ readable a name sv.
Proof.
  intros (Hc & a & Hv & Hse) H. assert (holds w a) as Hh by done. unfold rotate in H.
  run_inv H w2 row H1. rewrite (run_store_read (vs_secret name) _ _ (secret_law _ _ name Hv)) in H1. injection H1 as <- <-.
  run_pure H. destruct (vault_secrets a !! name) as [secret|] eqn:Hs; [|done]. injection Hx as <-.
  destruct (stored_current _ _ _ _ Hv (eq_trans (secret_law _ _ name Hv) (f_equal Ok Hs))) as [_ Hcur].
  run_inv H w3 u H2. destruct (run_reads _ _ _ _ _ _ (reads_guard _ _) (safe_guard state _ _) Hh H2) as [Hh2 _].
  run_pure H. destruct (next_version (s_current_version secret)) as [next|] eqn:Hn; [|done]. injection Hx as <-.
  run_inv H w4 now H3. destruct (run_reads _ _ _ _ _ _ reads_now (safe_now state) Hh2 H3) as [Hh3 _].
  run_inv H w5 payload H4.
  destruct (run_reads _ _ _ _ _ _ (reads_rotate_payload _ _) (rotate_payload_ok _ _) Hh3 H4) as [Hh4 [Hpl Hfmt]].
  run_inv H w6 version H5.
  destruct (run_reads _ _ _ _ _ _ (reads_seal_version _ _ _ _ _) (safe_seal_version _ _ _ _ _) Hh4 H5)
    as [Hh5 (Hver & Hexp & Hnow & Hsealed)].
  run_inv H w7 u1 H6. eapply applied in H6 as (a1 & Ha1 & Hh6); [|done|].
  2: { eapply command_ok_put; [done|exact Hn|done..]. }
  run_inv H w8 u2 H7. apply (rotate_applied _ _ _ _ _ _ _ _ _ a1) in H7; [|done].
  run_inv H w9 u3 H8. eapply audited in H8 as (a2 & Hh8 & Hb); [|done]. rewrite run_ret in H. injection H as <- <-.
  rewrite <- Hver in Hsealed. eapply current_after_put in Ha1 as (secret' & Hcur' & Hk & Hf); [|exact Hs|exact Hnow|exact Hfmt| |exact Hsealed].
  2: { rewrite Hver. apply next_version_Some in Hn as [-> _]. lia. }
  exists a2. split; [done|]. eexists _, _, _, _. split; [by eapply current_is_audit|]. split; [done|].
  by rewrite <- Hk, <- Hf, <- Hver.
Qed.

(** ** Verification *)

Lemma holds_reads {E A} (m : prog St E A) w a :
  reads m → safe (world_ok state) (λ _, True) m → holds w a → holds (run_prog m w).1 a.
Proof.
  intros Hr Hs Hh. destruct (run_prog m w) as [w' r] eqn:Hrun.
  destruct (safe_run _ _ _ _ _ _ Hs (holds_ok _ _ Hh) Hrun) as [[Hc _] _].
  pose proof (reads_store m w Hr) as Hst. rewrite Hrun in Hst. simpl in *.
  split; [done|]. rewrite Hst. apply Hh.
Qed.

(** The stored plaintext is the presented value, or has it as its password. *)
Definition has_value (format : SecretFormat) (presented : string) (p : bytes) : Prop :=
  match format with
  | Opaque => p = as_bytes presented
  | Userpass => ∃ up, from_slice p = Some up ∧ up_password up = presented
  end.

Lemma matches_value_spec format presented p : matches_value format presented p = true ↔ has_value format presented p.
Proof.
  unfold matches_value, has_value, fingerprints_match, ct_eq, decode_userpass. destruct format.
  - rewrite bool_decide_eq_true. naive_solver.
  - destruct (from_slice p) as [up|]; simpl; [|naive_solver]. rewrite bool_decide_eq_true. split.
    + intros Heq%(inj as_bytes). eauto.
    + by intros (? & [= <-] & ->).
Qed.

(** Version [v] is live and its value is the presented one. *)
Definition accepted (a : Vault) (now : Z) (name presented : string) (v : Z) : Prop :=
  presented ≠ "" ∧ ∃ secret r p, vault_secrets a !! name = Some secret
    ∧ vault_versions a !! (name, v) = Some r ∧ RedbStore.live now r = true
    ∧ sealed state name v r p ∧ has_value (s_format secret) presented p.

Lemma sealed_same name v r p p' : sealed state name v r p → sealed state name v r p' → p' = p.
Proof.
  intros Hp (_ & Hn & dek & Hw & Hs). eapply sealed_unique; [done|exact Hw|].
  apply seal_open in Hs; [done|by eapply wraps_length|done].
Qed.

(** The first version of the list that matches. *)
Definition first_match (name presented : string) (format : SecretFormat) (versions : list VersionRecord)
    (found : option Z) : Prop :=
  let matching r := ∃ p, sealed state name (v_version r) r p ∧ has_value format presented p in
  match found with
  | Some v => ∃ pre r post, versions = pre ++ r :: post ∧ v_version r = v ∧ matching r
      ∧ ∀ r', r' ∈ pre → ¬ matching r'
  | None => ∀ r, r ∈ versions → ¬ matching r
  end.

Lemma find_match_run name format presented versions : ∀ w a,
  holds w a → (∀ r, r ∈ versions → ∃ p, sealed state name (v_version r) r p) →
  ∃ w' res, run_prog (find_match state name format presented versions) w = (w', res) ∧ holds w' a
    ∧ match res with
      | Ok found => first_match name presented format versions found
      | Err e => ∃ r, r ∈ versions ∧ decrypt_failed state w name (v_version r) r e
      end.
Proof.
  induction versions as [|r versions IH]; intros w a Hh Hall; cbn [find_match].
  { rewrite run_ret. exists w, (Ok None). split; [done|]. split; [done|]. intros r Hr. by apply elem_of_nil in Hr. }
  destruct (Hall r) as [p Hp]; [by left|].
  rewrite run_bind. destruct (run_open_sealed state name _ r p w (holds_ok _ _ Hh) Hp) as (w1 & res & Hrun & Hw1 & Hst & Hres).
  rewrite Hrun. assert (holds w1 a) as Hh1 by (split; [apply Hw1|rewrite Hst; apply Hh]).
  destruct Hres as [->|(e & -> & He)]; [|exists w1, (Err e); split; [done|]; split; [done|]; exists r; split; [by left|done]].
  destruct (matches_value format presented p) eqn:Hm.
  - rewrite run_ret. exists w1, (Ok (Some (v_version r))). split; [done|]. split; [done|].
    apply matches_value_spec in Hm.
    exists [], r, versions. split; [done|]. split; [done|]. split; [by eauto|]. intros r' Hr'. by apply elem_of_nil in Hr'.
  - destruct (IH w1 a Hh1) as (w2 & res & -> & Hh2 & Hf); [intros; apply Hall; by right|].
    exists w2, res. split; [done|]. split; [done|].
    destruct res as [found|e]; [|destruct Hf as (r' & Hr' & He); exists r'; split;
      [by right|by eapply decrypt_failed_store]].
    assert (¬ ∃ p0, sealed state name (v_version r) r p0 ∧ has_value format presented p0) as Hno.
    { intros (p0 & Hp0 & Hm0). rewrite (sealed_same _ _ _ _ _ Hp Hp0) in Hm0.
      apply matches_value_spec in Hm0. congruence. }
    destruct found as [v|].
    + destruct Hf as (pre & r1 & post & -> & Hv & Hmatch & Hpre). exists (r :: pre), r1, post.
      split; [done|]. split; [done|]. split; [done|]. intros r' [->|Hr']%elem_of_cons; [done|by apply Hpre].
    + intros r' [->|Hr']%elem_of_cons; [done|by apply Hf].
Qed.

(** The first match of the live versions, newest first, is the newest accepted
    one. *)
Lemma first_match_accepted w a now name secret presented versions found :
  holds w a → presented ≠ "" → vault_secrets a !! name = Some secret →
  enumerates (vault_versions a) (λ b, b.1 = name) (RedbStore.live now) (λ r, (name, v_version r)) versions →
  Sorted RedbStore.newer versions → first_match name presented (s_format secret) versions found →
  match found with
  | Some v => accepted a now name presented v ∧ ∀ v', accepted a now name presented v' → (v' ≤ v)%Z
  | None => ∀ v, ¬ accepted a now name presented v
  end.
Proof.
  intros (_ & Hview & _) Hne Hs [Hall _] Hsort Hf. pose proof (view_ok _ _ Hview) as Hok.
  assert (∀ r, r ∈ versions ↔ vault_versions a !! (name, v_version r) = Some r ∧ RedbStore.live now r = true) as Hin.
  { intros r. rewrite Hall. split.
    - intros ([n v] & Hr & Hn & Hl). simpl in Hn. subst n. by destruct (ok_version _ Hok _ _ _ Hr) as [-> _].
    - intros [Hr Hl]. by exists (name, v_version r). }
  assert (∀ v, accepted a now name presented v ↔ ∃ r, r ∈ versions ∧ v_version r = v
    ∧ ∃ p, sealed state name v r p ∧ has_value (s_format secret) presented p) as Hacc.
  { intros v. split.
    - intros (_ & secret' & r & p & Hs' & Hr & Hl & Hp & Hm). simplify_eq. exists r.
      destruct (ok_version _ Hok _ _ _ Hr) as [Hv _]. split; [apply Hin; by rewrite Hv|]. eauto.
    - intros (r & [Hr Hl]%Hin & <- & p & Hp & Hm). split; [done|]. by exists secret, r, p. }
  destruct found as [v|].
  - destruct Hf as (pre & r & post & -> & <- & (p & Hp & Hm) & Hpre).
    split; [apply Hacc; exists r; split; [apply elem_of_app; right; by left|by eauto]|].
    intros v' (r' & Hr' & <- & p' & Hp' & Hm')%Hacc. apply elem_of_app in Hr' as [Hr'|[->|Hr']%elem_of_cons]; [|done|].
    + destruct (Hpre r' Hr'). by eauto.
    + apply Sorted_StronglySorted in Hsort; [|intros x y z; unfold RedbStore.newer; lia].
      apply StronglySorted_app_1_r in Hsort. apply StronglySorted_inv in Hsort as [_ Hgt].
      rewrite Forall_forall in Hgt. by apply Hgt.
  - intros v (r & Hr & <- & Hm)%Hacc. by apply (Hf r).
Qed.

Lemma verify_failed_run name ip peer w a :
  view (w_store w) a →
  ∃ w', run_prog (verify_failed state name ip peer) w = (w', Ok {| vr_valid := false; vr_version := None |}).
Proof.
  intros Hv. unfold verify_failed. rewrite run_bind.
  destruct (run_audit (E := ApiError) None (Some ip) "verify" (Some name) "invalid" w a Hv) as (w1 & a1 & -> & Hv1 & _).
  rewrite run_bind. unfold record_verify.
  destruct (run_record_key (E := ApiError) state (verify_key peer name) w1 a1 Hv1) as (w2 & a2 & -> & _).
  rewrite run_ret. eauto.
Qed.

(** What is found among the versions live at [now]. *)
Lemma verify_found_run name presented now w a :
  holds w a → presented ≠ "" →
  ∃ w' res, run_prog (secret ← store_read (vs_secret name);
      match secret with
      | Some secret =>
          versions ← store_read (vs_live_versions name now);
          find_match state name (s_format secret) presented versions
      | None => mret None
      end) w = (w', res) ∧ holds w' a
    ∧ match res with
      | Ok (Some v) => accepted a now name presented v ∧ ∀ v', accepted a now name presented v' → (v' ≤ v)%Z
      | Ok None => ∀ v, ¬ accepted a now name presented v
      | Err e => ∃ v, key_withheld w name v e
      end.
Proof.
  intros Hh Hne. pose proof Hh as (_ & Hv & Hse).
  rewrite run_bind, (run_store_read (vs_secret name) _ _ (secret_law _ _ name Hv)).
  destruct (vault_secrets a !! name) as [secret|] eqn:Hs.
  - destruct (live_versions_law _ _ name now Hv) as (versions & Hl & Hen & Hsort).
    rewrite run_bind, (run_store_read (vs_live_versions name now) _ _ Hl).
    destruct (find_match_run name (s_format secret) presented versions w a Hh) as (w1 & res & -> & Hh1 & Hf).
    { intros r ([n v] & Hr & Hn & _)%Hen. simpl in Hn. subst n.
      destruct (ok_version _ (view_ok _ _ Hv) _ _ _ Hr) as [-> _]. by apply Hse. }
    exists w1, res. split; [done|]. split; [done|]. destruct res as [found|e]; [by eapply first_match_accepted|].
    destruct Hf as (r & ([n v] & Hr & Hn & _)%Hen & He). simpl in Hn. subst n.
    destruct (ok_version _ (view_ok _ _ Hv) _ _ _ Hr) as [Hver _]. rewrite Hver in He.
    exists v, r. by destruct (stored_version _ _ _ _ _ Hh Hr).
  - rewrite run_ret. exists w, (Ok None). split; [done|]. split; [done|].
    intros v (_ & secret & r & p & Hs' & _). congruence.
Qed.


(** ** Updates *)

Context `{KR : !KmsReliable (st_kms state)}.

Lemma run_load_userpass name v r p w a :
  holds w a → vault_versions a !! (name, v) = Some r → sealed state name v r p →
  ∃ w', run_prog (load_userpass state name v) w = (w', decode_userpass p) ∧ holds w' a.
Proof.
  intros Hh Hr Hp. pose proof Hh as (_ & Hv & _).
  destruct (ok_version _ (view_ok _ _ Hv) _ _ _ Hr) as (_ & Hrange & _).
  unfold load_userpass. rewrite run_bind, (run_store_read (vs_version name v) (Some r)).
  2: { rewrite (version_law _ _ name v Hv), Hr; [done|]. unfold_ints. lia. }
  rewrite run_bind, run_of_result. cbn [ok_or]. rewrite run_bind.
  destruct (run_open_sealed state name v r p w (holds_ok _ _ Hh) Hp) as (w1 & res & -> & Hw1 & Hst & [->|(e & -> & He)]);
    [|by destruct (reliable_decrypts state _ _ _ _ _ _ Hp He)].
  rewrite run_of_result. exists w1. split; [done|]. split; [apply Hw1|]. rewrite Hst. apply Hh.
Qed.

(** A string field after an update. *)
Definition updated (new old : option string) : option string := match new with Some x => Some x | None => old end.

Definition changes (format : SecretFormat) (req : UpdateSecretRequest) : bool :=
  match format with
  | Opaque => bool_decide (is_Some (ur_value req))
  | Userpass => bool_decide (is_Some (ur_username req)) || bool_decide (is_Some (ur_password req))
  end.

(** The payload of a secret with [req] applied to it. *)
Definition updated_payload (req : UpdateSecretRequest) (old new : Payload) : Prop :=
  payload_ok new ∧ pl_format new = pl_format old ∧ pl_value new = updated (ur_value req) (pl_value old)
  ∧ pl_username new = updated (ur_username req) (pl_username old)
  ∧ pl_password new = updated (ur_password req) (pl_password old).

Lemma update_bytes_run name secret req r old w w' a bs :
  holds w a → check_update_format (s_format secret) req = Ok tt → changes (s_format secret) req = true →
  (∀ value, ur_value req = Some value → is_utf8 value) →
  vault_versions a !! (name, s_current_version secret) = Some r →
  sealed state name (s_current_version secret) r (pl_bytes old) →
  payload_ok old → pl_format old = s_format secret →
  run_prog (update_bytes state name secret req) w = (w', Ok bs) →
  holds w' a ∧ ∃ new, pl_bytes new = bs ∧ updated_payload req old new.
Proof.
  intros Hh Hfmt Hch Ht Hr Hp Hold Hf H. unfold update_bytes in H. unfold payload_ok in Hold. rewrite Hf in Hold.
  unfold check_update_format in Hfmt. unfold changes in Hch. destruct (s_format secret) eqn:Eformat.
  - run_pure H. rewrite run_ret in H. injection H as <- <-. split; [done|]. simpl in Hold.
    destruct (ur_value req) as [value|] eqn:Ev; [|done]. exists (opaque_payload value). split; [done|].
    unfold mbind, result_bind in Hold. destruct (ok_or _ _); [|done]. injection Hold as _ Hu Hpw.
    unfold updated_payload. rewrite Ev, <- Hu, <- Hpw, Hf. split; [by apply opaque_payload_ok, Ht|].
    by destruct (ur_username req), (ur_password req).
  - run_inv H w1 current H1. destruct (run_load_userpass name _ r _ w a Hh Hr Hp) as (w1' & Hl & Hh1).
    rewrite Hl in H1. injection H1 as <- Hdec. do 2 run_pure H. rewrite run_ret in H. injection H as <- <-.
    split; [done|]. exists (userpass_payload (default (up_username current) (ur_username req))
      (default (up_password current) (ur_password req))). split; [done|].
    simpl in Hold. rewrite Hdec in Hold. injection Hold as Hval Hu Hpw. unfold updated_payload.
    rewrite <- Hval, <- Hu, <- Hpw, Hf. split; [apply userpass_payload_ok|].
    destruct (ur_value req); [done|]. by destruct (ur_username req), (ur_password req).
Qed.

(** What [get_secret] read, as a payload. *)
Lemma read_payload name ip w w' a sv :
  holds w a → run_prog (get_secret state name ip) w = (w', Ok sv) →
  ∃ secret r old, vault_secrets a !! name = Some secret
    ∧ vault_versions a !! (name, s_current_version secret) = Some r
    ∧ sealed state name (s_current_version secret) r (pl_bytes old)
    ∧ payload_ok old ∧ pl_format old = s_format secret
    ∧ sv = {| sv_name := name; sv_kind := s_kind secret; sv_format := s_format secret;
              sv_version := s_current_version secret; sv_value := pl_value old; sv_username := pl_username old;
              sv_password := pl_password old; sv_created_at := rfc3339 (v_created_at r) |}.
Proof.
  intros Hh Hrun. pose proof (get_secret_run name ip w a Hh) as Hg.
  destruct (vault_secrets a !! name) as [secret|]; [|destruct Hg as [? Hg]; congruence].
  destruct Hg as (r & p & w1 & res & Hr & Hp & Hg & Hres). rewrite Hg in Hrun. injection Hrun as _ ->.
  destruct Hres as [Hres|(e & ? & _)]; [|done]. symmetry in Hres.
  unfold mbind, result_bind in Hres. destruct (decode_payload (s_format secret) p) as [[[v u] pw]|e] eqn:Hd; [|done].
  injection Hres as <-. destruct Hh as (_ & Hv & _). destruct (ok_version _ (view_ok _ _ Hv) _ _ _ Hr) as [Hver _].
  exists secret, r, {| pl_format := s_format secret; pl_bytes := p; pl_value := v; pl_username := u; pl_password := pw |}.
  unfold payload_ok, value_of. simpl. by rewrite Hver.
Qed.

Lemma run_load_metadata name w w' a secret md :
  holds w a → vault_secrets a !! name = Some secret → run_prog (load_metadata name) w = (w', Ok md) →
  w' = w ∧ md = to_metadata secret.
Proof.
  intros (_ & Hv & _) Hs. unfold load_metadata.
  rewrite run_bind, (run_store_read (vs_secret name) (Some secret)) by by rewrite (secret_law _ _ name Hv), Hs.
  rewrite run_bind, run_of_result. cbn [ok_or]. rewrite run_ret. by intros [= <- <-].
Qed.

(** An update that changes no value keeps the payload. *)
Lemma unchanged_payload format req old :
  check_update_format format req = Ok tt → changes format req = false → pl_format old = format →
  payload_ok old → updated_payload req old old.
Proof.
  unfold check_update_format, changes, updated_payload. intros Hc Hch Hf Hok. split; [done|]. split; [done|].
  by destruct format, (ur_value req), (ur_username req), (ur_password req).
Qed.

(** The command of an update and what it leaves in the vault. *)
Lemma update_command_run name secret req r old now w w' a c :
  holds w a → vault_secrets a !! name = Some secret →
  check_update_format (s_format secret) req = Ok tt →
  (∀ value, ur_value req = Some value → is_utf8 value) →
  vault_versions a !! (name, s_current_version secret) = Some r →
  sealed state name (s_current_version secret) r (pl_bytes old) →
  payload_ok old → pl_format old = s_format secret →
  run_prog (update_command state name secret req now) w = (w', Ok c) →
  holds w' a ∧ command_ok state c ∧ ∀ a', spec_apply store_node c a = Ok a' →
    ∃ secret' created new,
      current_is a' name secret' (s_current_version secret + if changes (s_format secret) req then 1 else 0) created new
      ∧ s_kind secret' = s_kind secret ∧ s_format secret' = s_format secret ∧ updated_payload req old new.
Proof.
  intros Hh Hs Hfmt Ht Hr Hp Hold Hf H. pose proof Hh as (_ & Hv & _).
  destruct (stored_current _ _ _ _ Hv (eq_trans (secret_law _ _ name Hv) (f_equal Ok Hs))) as [_ Hcur].
  unfold update_command in H. fold (changes (s_format secret) req) in H.
  destruct (changes (s_format secret) req) eqn:Hch.
  - run_inv H w1 bs H1. eapply update_bytes_run in H1 as (Hh1 & new & <- & Hnew); [|done..].
    run_pure H. destruct (next_version (s_current_version secret)) as [next|] eqn:Hn; [|done]. injection Hx as <-.
    run_inv H w2 version H2.
    destruct (run_reads _ _ _ _ _ _ (reads_seal_version _ _ _ _ _) (safe_seal_version _ _ _ _ _) Hh1 H2)
      as [Hh2 (Hver & Hexp & Hnow & Hsealed)].
    rewrite run_ret in H. injection H as <- <-. split; [done|].
    split; [eapply command_ok_put; [done|exact Hn|done..]|]. intros a' Ha'.
    rewrite <- Hver in Hsealed. apply next_version_Some in Hn as [-> _].
    eapply (current_after_put _ _ _ _ _ _ _ _ _ _ _ now new) in Ha' as (secret' & Hc' & Hk & Hf');
      [|done|done|destruct Hnew as (_ & -> & _); done|rewrite Hver; lia|exact Hsealed].
    rewrite Hver in Hc'. by exists secret', now, new.
  - rewrite run_ret in H. injection H as <- <-. split; [done|]. split; [done|]. intros a'. simpl. unfold_monad.
    rewrite Hs. simpl. rewrite decide_False by auto. intros [= <-].
    eexists _, (v_created_at r), old. split.
    + split; [apply lookup_insert_eq|]. split; [simpl; lia|]. split; [done|]. exists r. simpl. by rewrite Z.add_0_r.
    + split; [done|]. split; [done|]. by eapply unchanged_payload.
Qed.

(** Updating and reading agree: after a successful [update_secret] the
    secret reads as before except for the fields the request names (a value, a
    user name, a password); its version number is the one in the answer, one
    higher when the request named such a field and the same when it did not. *)
Theorem update_get_roundtrip actor name req ip w w0 w1 sv0 md :
  world_ok state w → (∀ value, ur_value req = Some value → is_utf8 value) →
  run_prog (get_secret state name ip) w = (w0, Ok sv0) →
  run_prog (update_secret state actor name req) w = (w1, Ok md) →
  ∃ w2 sv, run_prog (get_secret state name ip) w1 = (w2, Ok sv)
    ∧ sv_kind sv = sv_kind sv0 ∧ sv_format sv = sv_format sv0
    ∧ sv_value sv = updated (ur_value req) (sv_value sv0)
    ∧ sv_username sv = updated (ur_username req) (sv_username sv0)
    ∧ sv_password sv = updated (ur_password req) (sv_password sv0)
    ∧ sv_version sv = sm_version md
    ∧ sv_version sv = (sv_version sv0 + if changes (sv_format sv0) req then 1 else 0)%Z.
Proof.
  intros (Hc & a & Hv & Hse) Ht Hget H. assert (holds w a) as Hh by done.
  destruct (read_payload _ _ _ _ _ _ Hh Hget) as (secret & r & old & Hs & Hr & Hp & Hold & Hf & ->).
  unfold update_secret in H. do 2 run_pure H.
  run_inv H w2 row H1. rewrite (run_store_read (vs_secret name) _ _ (secret_law _ _ name Hv)) in H1.
  injection H1 as <- <-. run_pure H. rewrite Hs in Hx1. injection Hx1 as <-. run_pure H. destruct x1.
  run_inv H w3 now H3. destruct (run_reads _ _ _ _ _ _ reads_now (safe_now state) Hh H3) as [Hh3 _].
  run_inv H w4 c H4. eapply (update_command_run name secret req r old) in H4 as (Hh4 & Hcmd & Hspec); [|done..].
  run_inv H w5 u H5. eapply applied in H5 as (a' & Ha' & Hh5); [|done|done].
  destruct (Hspec a' Ha') as (secret' & created & new & Hcur & Hk & Hf' & Hok & Hfn & Hval & Hu & Hpw).
  run_inv H w6 u' H6. eapply audited in H6 as (a'' & Hh6 & Hb); [|done].
  eapply current_is_audit in Hcur; [|done].
  destruct (run_load_metadata _ _ _ _ _ _ Hh6 (proj1 Hcur) H) as [-> ->].
  destruct (read_back name ip _ _ _ _ _ _ Hh6 Hcur Hok) as (w7 & res & Hrun & [->|(r' & e & -> & Hr' & He)]).
  2: { destruct Hh6 as (_ & _ & Hse6), (Hse6 _ _ _ Hr') as [p' Hp']. by destruct (reliable_decrypts state _ _ _ _ _ _ Hp' He). }
  eexists _, _. split; [exact Hrun|].
  simpl. rewrite Hk, Hf', Hval, Hu, Hpw. repeat (split; [done|]). split; [|done]. by destruct Hcur as (_ & -> & _).
Qed.
End service_thms.
