(* ===== verification/AccessThms.v ===== *)
(** * Who gets in

    Every request passes one of two doors: a bearer token that is known, not
    revoked and permits the action, or a client address on the allowlist.
    [admitted] says when a request may pass; one that may not is turned away
    and leaves no trace but the failure counter and the token's time of use.  A
    peer that is locked out is turned away whatever it presents. *)

From S2P Require Import Prelude RustStr CoreTypes Redb Keys Model Serial Apply Spec Samples ApplyFacts.
From S2P Require Import Refine Engine Invariant StoreLaws Platform Crypto Kms Cache ApiTypes PgApply.
From S2P Require Import IpAddr Guards Service Manage Routes ServiceSafe ServiceRun.

Section access.
Context `{CC : !CryptoCrates, PL : !Platform}.
Context `{NET : !Ipnet, HO : !HashOrder, UP : !Serde UserPass, SB : !Serde BackupData}.
Context {St : Type} `{VS : !VaultStore St, SE : !StoreSerde, SLW : !VaultStoreLaws St}.
Context (state : AppState St).

(** ** Who may pass *)

(** What the token of a request permits: whether it is an administrator's, and
    its rules. *)
Definition grants (a : Vault) (parts : Parts) : option (bool * list (string * string)) :=
  token ← bearer_token parts;
  record ← vault_tokens a !! fingerprint token;
  match t_revoked_at record with
  | Some _ => None
  | None =>
      Some (default (false, []) (
        name ← t_role record;
        role ← vault_roles a !! name;
        Some (r_is_admin role, r_permissions role)))
  end.

Definition reader_allowed (parts : Parts) : bool :=
  match peer_ip parts, client_ip parts (st_trust_proxy state) with
  | Some _, Some (V4 v4) => allowlist_contains (st_allowlist state) v4
  | _, _ => false
  end.

Definition target_allowed (is_admin : bool) (rules : list (string * string)) (req : CreateSecretRequest) : bool :=
  match cr_target req with
  | None => true
  | Some (PgReplica pg) =>
      match pg_login_secret pg with Some login => visible is_admin rules login | None => true end
      && match pg_role pg with
         | Some role => is_admin || bool_decide (role = default "" (cr_username req))
         | None => true
         end
  end.

Definition with_grant (a : Vault) (parts : Parts) (allowed : bool → list (string * string) → bool) : bool :=
  match grants a parts with Some (is_admin, rules) => allowed is_admin rules | None => false end.

(** A body that does not decode is refused behind the door. *)
Definition if_body {A} (body : option A) (b : A → bool) : bool :=
  match body with Some req => b req | None => true end.

Definition admitted (a : Vault) (req : request) : bool :=
  match req with
  | GetHealthz | GetReadyz => true
  | PostSecret parts body =>
      with_grant a parts (λ is_admin rules, if_body body (λ req,
        authorize is_admin rules "create" (cr_name req) && target_allowed is_admin rules req))
  | GetSecrets parts => with_grant a parts (λ _ _, true)
  | GetSecret parts _ | PostBatch parts _ => reader_allowed parts
  | PutSecret parts name body =>
      with_grant a parts (λ is_admin rules, if_body body (λ _, authorize is_admin rules "update" name))
  | DelSecret parts name => with_grant a parts (λ is_admin rules, authorize is_admin rules "delete" name)
  | PostAction parts path _ =>
      match rsplit_once "/" path with
      | Some (name, action) =>
          if bool_decide (action = "rotate")
          then with_grant a parts (λ is_admin rules, authorize is_admin rules "rotate" name)
          else if bool_decide (action = "verify") then reader_allowed parts else true
      | None => true
      end
  | PostRole parts body => with_grant a parts (λ is_admin _, if_body body (λ _, is_admin))
  | PutPermissions parts _ body => with_grant a parts (λ is_admin _, if_body body (λ _, is_admin))
  | PostToken parts body => with_grant a parts (λ is_admin _, if_body body (λ _, is_admin))
  | PostRestore parts body => with_grant a parts (λ is_admin _, if_body body (λ _, is_admin))
  | GetRoles parts | GetRole parts _ | DelRole parts _ | GetTokens parts | DelToken parts _
  | GetBackup parts | PostRewrap parts | GetRewrapStatus parts => with_grant a parts (λ is_admin _, is_admin)
  end.

(** ** Being turned away *)

(** All that may change: the failure counters and a token's time of use. *)
Definition noted (a a' : Vault) : Prop :=
  ∃ f, a' = with_lockouts f a
    ∨ ∃ fp at_, a' = with_lockouts f (with_tokens (alter (used at_) fp) a).

Definition turned_away {A} (a : Vault) (out : World St * result ApiError A) : Prop :=
  ∃ e a', out.2 = Err e ∧ (e = Api.Unauthorized ∨ e = Api.Forbidden ∨ e = Api.TooManyRequests)
    ∧ view (w_store out.1) a' ∧ noted a a'.

Lemma turned_away_bind {A B} a (m : prog St ApiError A) (f : A → prog St ApiError B) w :
  turned_away a (run_prog m w) → turned_away a (run_prog (m ≫= f) w).
Proof.
  intros (e & a' & He & Hrest). rewrite run_bind. destruct (run_prog m w) as [w' r]. simpl in *. subst r.
  by exists e, a'.
Qed.

Lemma noted_refl a : noted a a.
Proof. exists (λ m, m). left. by destruct a. Qed.

Lemma noted_lockouts a a1 a2 : noted a a1 → but_lockouts a1 a2 → noted a a2.
Proof.
  intros [f Hf] [g ->]. exists (λ m, g (f m)). destruct Hf as [->|(fp & at_ & ->)]; [by left|right; by eauto].
Qed.

(** A refusal that records the failure. *)
Lemma refuse_turns_away {A} a a1 ip e w :
  view (w_store w) a1 → noted a a1 → (e = Api.Unauthorized ∨ e = Api.Forbidden) →
  turned_away (A := A) a (run_prog (lockout_record state ip ;; Throw e) w).
Proof.
  intros Hv Hn He. rewrite run_bind.
  assert (∃ w' a', run_prog (E := ApiError) (lockout_record state ip) w = (w', Ok tt)
    ∧ view (w_store w') a' ∧ but_lockouts a1 a') as (w' & a' & -> & Hv' & Hb).
  { destruct ip as [ip|]; [by apply run_record_key|]. exists w, a1. split; [done|]. split; [done|apply but_lockouts_refl]. }
  exists e, a'. split; [done|]. split; [by naive_solver|]. split; [done|]. by eapply noted_lockouts.
Qed.

(** ** The doors *)

Lemma turned_too_many {A} a (w : World St) :
  view (w_store w) a → turned_away (A := A) a (w, Err Api.TooManyRequests).
Proof. intros Hv. exists Api.TooManyRequests, a. split; [done|]. split; [by auto|]. split; [done|apply noted_refl]. Qed.

Lemma run_lockout_check ip (w : World St) a :
  view (w_store w) a →
  ∃ w' r, run_prog (lockout_check state ip) w = (w', r) ∧ same_inside w w'
    ∧ (r = Ok tt ∨ r = Err Api.TooManyRequests).
Proof.
  intros Hv. unfold lockout_check.
  assert (∃ w' r, run_prog (E := ApiError) (mret tt) w = (w', r) ∧ same_inside w w'
    ∧ (r = Ok tt ∨ r = Err Api.TooManyRequests)) as Hret.
  { exists w, (Ok tt). split; [done|]. split; [done|by left]. }
  case_match; [done|]. destruct ip as [ip|]; [|done].
  destruct (run_check_key state (ip_to_string ip) w a Hv) as (w1 & r & Hr & Hin & _ & Hres). by exists w1, r.
Qed.

Lemma run_role_of record (w : World St) a :
  view (w_store w) a →
  run_prog (role_of record) w = (w, Ok (default (false, []) (
    name ← t_role record; role ← vault_roles a !! name; Some (r_is_admin role, r_permissions role)))).
Proof.
  intros Hv. unfold role_of. destruct (t_role record) as [name|]; [|done].
  rewrite run_bind, (run_store_read (vs_role name) _ _ (role_law _ _ name Hv)), run_ret. simpl.
  by destruct (vault_roles a !! name).
Qed.

(** The door for tokens: whoever has no valid token is turned away, and an actor
    that passes has what its token grants. *)
Lemma run_admin a parts w :
  view (w_store w) a →
  turned_away a (run_prog (admin_from_request_parts state parts) w)
  ∨ ∃ w1 a1 actor, run_prog (admin_from_request_parts state parts) w = (w1, Ok actor)
      ∧ grants a parts = Some (aa_is_admin actor, aa_rules actor) ∧ view (w_store w1) a1 ∧ noted a a1.
Proof.
  intros Hv. unfold admin_from_request_parts. rewrite run_bind.
  destruct (run_lockout_check (peer_ip parts) w a Hv) as (w1 & r1 & -> & (Hs1 & _) & [->| ->]).
  2: { left. apply turned_too_many. by rewrite Hs1. }
  rewrite <- Hs1 in Hv.
  destruct (bearer_token parts) as [token|] eqn:Htok; [|left; by apply (refuse_turns_away _ a); [|apply noted_refl|left]].
  rewrite run_bind, (run_store_read (vs_token_by_fingerprint _) _ _ (token_by_fingerprint_law _ _ _ Hv)).
  destruct (vault_tokens a !! fingerprint token) as [record|] eqn:Hrec;
    [|left; by apply (refuse_turns_away _ a); [|apply noted_refl|left]].
  destruct (t_revoked_at record) eqn:Hrev; [left; by apply (refuse_turns_away _ a); [|apply noted_refl|left]|].
  assert (grants a parts = Some (default (false, []) (name ← t_role record; role ← vault_roles a !! name;
    Some (r_is_admin role, r_permissions role)))) as ->.
  { unfold grants. rewrite Htok. simpl. rewrite Hrec. simpl. by rewrite Hrev. }
  rewrite run_bind, (run_role_of _ _ _ Hv). destruct (default _ _) as [is_admin rules]. right.
  rewrite run_bind, run_now, run_bind. set (w2 := set_os _ w1). set (now := unix_now _).
  assert (view (w_store w2) a) as Hv2 by exact Hv. destruct (touch_due state record now).
  - rewrite run_bind.
    destruct (run_act_apply (E := ApiError) (TouchToken (fingerprint token) now) w2 a _ Hv2 I I eq_refl) as (s' & -> & Hv').
    rewrite !run_ret. eexists _, _, _. split; [done|]. split; [done|]. split; [done|].
    exists (λ m, m). right. by exists (fingerprint token), now.
  - rewrite !run_ret. eexists _, _, _. split; [done|]. split; [done|]. split; [done|apply noted_refl].
Qed.

(** Whom [k] turns away for lack of permission is turned away, too. *)
Lemma admin_door {A} a parts (k : AdminActor → prog St ApiError A) allowed w :
  view (w_store w) a → with_grant a parts allowed = false →
  (∀ actor w1 a1, allowed (aa_is_admin actor) (aa_rules actor) = false → view (w_store w1) a1 → noted a a1 →
     turned_away a (run_prog (k actor) w1)) →
  turned_away a (run_prog (actor ← admin_from_request_parts state parts; k actor) w).
Proof.
  intros Hv Hg Hk. destruct (run_admin a parts w Hv) as [Haway|(w1 & a1 & actor & Hrun & Hgr & Hv1 & Hn)].
  - by apply turned_away_bind.
  - unfold with_grant in Hg. rewrite Hgr in Hg. rewrite run_bind, Hrun. by eapply Hk.
Qed.

Lemma authorize_turns_away a a1 actor action name w :
  authorize (aa_is_admin actor) (aa_rules actor) action name = false → view (w_store w) a1 → noted a a1 →
  turned_away a (run_prog (authz_authorize state actor action name) w).
Proof. intros Hf Hv Hn. unfold authz_authorize. rewrite Hf. by apply (refuse_turns_away _ a1); [| |right]. Qed.

Lemma require_admin_turns_away a a1 actor w :
  aa_is_admin actor = false → view (w_store w) a1 → noted a a1 →
  turned_away a (run_prog (require_admin state actor) w).
Proof. intros Hf Hv Hn. unfold require_admin. rewrite Hf. by apply (refuse_turns_away _ a1); [| |right]. Qed.

Lemma target_turns_away a a1 actor req w :
  target_allowed (aa_is_admin actor) (aa_rules actor) req = false → view (w_store w) a1 → noted a a1 →
  turned_away a (run_prog (authorize_rotation_target state actor req) w).
Proof.
  intros Hf Hv Hn. unfold authorize_rotation_target, target_allowed in *.
  destruct (cr_target req) as [[pg]|]; [|done]. apply andb_false_iff in Hf as [Hf|Hf].
  - apply turned_away_bind. destruct (pg_login_secret pg) as [login|]; [|done]. rewrite Hf.
    by apply (refuse_turns_away _ a1); [| |right].
  - destruct (match pg_login_secret pg with Some login => visible (aa_is_admin actor) (aa_rules actor) login | None => true end) eqn:Hl.
    + rewrite run_bind. destruct (pg_login_secret pg) as [login|]; [rewrite Hl|]; rewrite run_ret;
        (destruct (pg_role pg) as [role|]; [|done]); apply orb_false_iff in Hf as [-> ->];
        by apply (refuse_turns_away _ a1); [| |right].
    + apply turned_away_bind. destruct (pg_login_secret pg) as [login|]; [|done]. rewrite Hl.
      by apply (refuse_turns_away _ a1); [| |right].
Qed.

(** The door for readers. *)
Lemma run_reader a parts w :
  view (w_store w) a →
  turned_away a (run_prog (reader_from_request_parts state parts) w)
  ∨ reader_allowed parts = true ∧ ∃ w1 guard,
      run_prog (reader_from_request_parts state parts) w = (w1, Ok guard) ∧ same_inside w w1.
Proof.
  intros Hv. unfold reader_allowed, reader_from_request_parts.
  assert (turned_away (A := ReaderGuard) a (w, Err Api.Forbidden)) as Hforb.
  { exists Api.Forbidden, a. split; [done|]. split; [by auto|]. split; [done|apply noted_refl]. }
  rewrite run_bind, run_of_result. destruct (peer_ip parts) as [peer|]; [|by left]. cbn [ok_or].
  rewrite run_bind, run_of_result. destruct (client_ip parts _) as [ip|]; [|by left]. cbn [ok_or].
  rewrite run_bind. unfold check_ip.
  destruct (run_check_key state (ip_to_string peer) w a Hv) as (w1 & r1 & -> & Hin & _ & [->| ->]).
  2: { left. apply turned_too_many. by rewrite (proj1 Hin). }
  rewrite <- (proj1 Hin) in Hv.
  destruct ip as [v4|v6]; [destruct (allowlist_contains _ v4)|];
    [right; split; [done|]; eexists _, _; by rewrite run_ret|left..];
    by apply (refuse_turns_away _ a); [|apply noted_refl|right].
Qed.

Lemma reader_door {A} a parts (k : ReaderGuard → prog St ApiError A) w :
  view (w_store w) a → reader_allowed parts = false →
  turned_away a (run_prog (guard ← reader_from_request_parts state parts; k guard) w).
Proof. intros Hv Hr. apply turned_away_bind. destruct (run_reader a parts w Hv) as [|[]]; [done|congruence]. Qed.

Lemma body_door {A} (body : option A) b k a w :
  if_body body b = false → (∀ req, b req = false → turned_away a (run_prog (k req) w)) →
  turned_away a (run_prog (with_body (St := St) body k) w).
Proof. destruct body as [req|]; simpl; [auto|done]. Qed.

Lemma admin_only_door a parts k w :
  view (w_store w) a → with_grant a parts (λ is_admin _, is_admin) = false →
  turned_away a (run_prog (admin_only state parts k) w).
Proof.
  intros Hv Hg. eapply admin_door; [done|exact Hg|]. intros actor w1 a1 Hf Hv1 Hn.
  by eapply turned_away_bind, require_admin_turns_away.
Qed.

Lemma admin_body_door {A} a parts (body : option A) k w :
  view (w_store w) a → with_grant a parts (λ is_admin _, if_body body (λ _, is_admin)) = false →
  turned_away a (run_prog (actor ← admin_from_request_parts state parts;
    with_body body (λ req, require_admin state actor ;; k actor req)) w).
Proof.
  intros Hv Hg. eapply admin_door; [done|exact Hg|]. intros actor w1 a1 Hf Hv1 Hn.
  eapply body_door; [exact Hf|]. intros req Hreq. by eapply turned_away_bind, require_admin_turns_away.
Qed.

Lemma action_door a parts path body w :
  view (w_store w) a → admitted a (PostAction parts path body) = false →
  turned_away a (run_prog (secret_action state parts path body) w).
Proof.
  intros Hv. unfold admitted, secret_action.
  destruct (rsplit_once "/" path) as [[name action]|]; [|done]. intros Hadm.
  rewrite run_bind, run_of_result. cbn [ok_or]. repeat case_bool_decide; [|by apply reader_door|done].
  eapply admin_door; [done|exact Hadm|]. intros actor w1 a1 Hf Hv1 Hn.
  by eapply turned_away_bind, authorize_turns_away.
Qed.

(** Complete mediation.  A request that is not admitted (no token, an
    unknown or revoked one, one whose role lacks the permission, an address off
    the allowlist) is answered with 401, 403 or 429 and nothing else; it changes
    no secret, version, role or token, no name, audit row or re-wrap state: only
    the failure counters and the time a token was last used. *)
Theorem complete_mediation (w : World St) a req :
  view (w_store w) a → admitted a req = false →
  ∃ w' e a', run_prog (handle state req) w = (w', Err e)
    ∧ (e = Api.Unauthorized ∨ e = Api.Forbidden ∨ e = Api.TooManyRequests)
    ∧ view (w_store w') a' ∧ noted a a'.
Proof.
  intros Hv Hadm.
  assert (turned_away a (run_prog (handle state req) w)) as (e & a' & He & Hrest).
  2: { destruct (run_prog (handle state req) w) as [w' r]. simpl in *. subst r. by exists w', e, a'. }
  destruct req; try done; cbn [handle]; try (by apply reader_door); try (by apply admin_only_door);
    try (by apply admin_body_door); try (by apply action_door).
  - eapply admin_door; [done|exact Hadm|]. intros actor w1 a1 Hf Hv1 Hn.
    eapply body_door; [exact Hf|]. intros req Hreq. simpl in Hreq.
    destruct (authorize (aa_is_admin actor) (aa_rules actor) "create" (cr_name req)) eqn:Hauth.
    + unfold authz_authorize. rewrite Hauth, run_bind, run_ret. by eapply turned_away_bind, target_turns_away.
    + by eapply turned_away_bind, authorize_turns_away.
  - eapply admin_door; [done|exact Hadm|done].
  - eapply admin_door; [done|exact Hadm|]. intros actor w1 a1 Hf Hv1 Hn.
    eapply body_door; [exact Hf|]. intros req Hreq. by eapply turned_away_bind, authorize_turns_away.
  - eapply admin_door; [done|exact Hadm|]. intros actor w1 a1 Hf Hv1 Hn.
    by eapply turned_away_bind, authorize_turns_away.
Qed.

(** ** Lockout *)

(** The peer of a request that passes a door. *)
Definition door_peer (req : request) : option IpAddr :=
  match req with
  | GetHealthz | GetReadyz => None
  | PostAction parts path _ =>
      match rsplit_once "/" path with
      | Some (_, action) =>
          if bool_decide (action = "rotate") || bool_decide (action = "verify") then peer_ip parts else None
      | None => None
      end
  | PostSecret parts _ | GetSecrets parts | GetSecret parts _ | PutSecret parts _ _ | DelSecret parts _
  | PostBatch parts _ | PostRole parts _ | GetRoles parts | GetRole parts _ | DelRole parts _
  | PutPermissions parts _ _ | PostToken parts _ | GetTokens parts | DelToken parts _ | GetBackup parts
  | PostRestore parts _ | PostRewrap parts | GetRewrapStatus parts => peer_ip parts
  end.

Definition shut_out {A} (w : World St) (out : World St * result ApiError A) : Prop :=
  out.2 = Err Api.TooManyRequests ∧ same_inside w out.1.

Lemma shut_out_bind {A B} (m : prog St ApiError A) (f : A → prog St ApiError B) w :
  shut_out w (run_prog m w) → shut_out w (run_prog (m ≫= f) w).
Proof. intros [Hr Hs]. rewrite run_bind. destruct (run_prog m w) as [w' r]. simpl in *. by subst r. Qed.

Lemma locked_shut_out key (w : World St) a record until :
  view (w_store w) a → (st_auth_max_failures state ≠ 0)%Z → vault_lockouts a !! key = Some record →
  l_locked_until record = Some until → (unix_now (w_os w) < until)%Z → shut_out w (run_prog (check_key state key) w).
Proof.
  intros Hv Hmax Hr Hl Hc. unfold check_key. rewrite (proj2 (Z.eqb_neq _ _) Hmax).
  rewrite run_bind, (run_store_read _ _ _ (lockout_law _ _ key Hv)), Hr, Hl. rewrite run_bind, run_now.
  by rewrite (proj2 (Z.ltb_lt _ _) Hc).
Qed.

(** C25. While a peer address is locked out, every request from it that needs a
    token or the allowlist is answered with 429 before its credentials are
    looked at, and leaves the store, the cached keys and the re-wrap flag as
    they are. *)
Theorem lockout_blocks (w : World St) a req ip record until :
  view (w_store w) a → (st_auth_max_failures state ≠ 0)%Z → door_peer req = Some ip →
  vault_lockouts a !! ip_to_string ip = Some record → l_locked_until record = Some until →
  (unix_now (w_os w) < until)%Z →
  ∃ w', run_prog (handle state req) w = (w', Err Api.TooManyRequests) ∧ same_inside w w'.
Proof.
  intros Hv Hmax Hpeer Hr Hl Hc.
  pose proof (locked_shut_out (ip_to_string ip) w a record until Hv Hmax Hr Hl Hc) as Hlocked.
  assert (shut_out w (run_prog (handle state req) w)) as [Hres Hin].
  2: { destruct (run_prog (handle state req) w) as [w' r]. simpl in *. subst r. eauto. }
  assert (∀ A parts (k : AdminActor → prog St ApiError A), peer_ip parts = Some ip →
    shut_out w (run_prog (actor ← admin_from_request_parts state parts; k actor) w)) as Hadmin.
  { intros A parts k Hp. apply shut_out_bind. unfold admin_from_request_parts. rewrite Hp. apply shut_out_bind.
    unfold lockout_check. by rewrite (proj2 (Z.eqb_neq _ _) Hmax). }
  assert (∀ A parts (k : ReaderGuard → prog St ApiError A), peer_ip parts = Some ip →
    shut_out w (run_prog (guard ← reader_from_request_parts state parts; k guard) w)) as Hreader.
  { intros A parts k Hp. apply shut_out_bind. unfold reader_from_request_parts, client_ip.
    rewrite Hp, run_bind, run_of_result. cbn [ok_or]. rewrite run_bind, run_of_result.
    destruct (if st_trust_proxy state then _ else _) as [fwd|]; cbn [ok_or]; by apply shut_out_bind. }
  destruct req; try done; cbn [handle door_peer] in *; try (by apply Hadmin); try (by apply Hreader).
  unfold secret_action. destruct (rsplit_once "/" path) as [[name action]|]; [|done].
  rewrite run_bind, run_of_result. cbn [ok_or]. destruct (bool_decide (action = "rotate")); [by apply Hadmin|].
  destruct (bool_decide (action = "verify")); [by apply Hreader|done].
Qed.
End access.
