(* ===== verification/HttpThms.v ===== *)
(** * What a client of the API sees

    The theorems on handlers carried over to requests as they come in: a
    method, a path, the headers the code reads, the address of the peer and the
    bytes of a body.  Whatever a client sends is either admitted or turned away
    without a trace; and what it created or rotated is what it can read at the
    path of the secret. *)

From S2P Require Import Prelude RustStr CoreTypes Redb Keys Model Serial Apply Spec Samples ApplyFacts.
From S2P Require Import Refine Engine Invariant StoreLaws Platform Crypto Kms Cache ApiTypes PgApply.
From S2P Require Import IpAddr Guards Service Manage Routes Router RouterThms ServiceSafe ServiceRun.
From S2P Require Import ServiceThms AccessThms.

Section http.
Context `{CC : !CryptoCrates, PL : !Platform}.
Context `{NET : !Ipnet, HO : !HashOrder, UP : !Serde UserPass, SB : !Serde BackupData, JB : !JsonBodies}.
Context {St : Type} `{VS : !VaultStore St, SE : !StoreSerde, SLW : !VaultStoreLaws St}.
Context (state : AppState St).

Lemma run_respond {E} m path parts body (w : World St) :
  run_prog (E := E) (respond state m path parts body) w
  = let '(w', r) := run_prog (answer state m path parts body) w in
    (w', Ok (match r with Ok reply => reply | Err err => Failed err end)).
Proof.
  unfold respond. rewrite run_bind, run_attempt. by destruct (run_prog (answer state m path parts body) w).
Qed.

Lemma run_routed {E} m path parts body req (w : World St) :
  router m path parts body = Routed req →
  run_prog (E := E) (respond state m path parts body) w
  = let '(w', r) := run_prog (handle state req) w in
    (w', Ok (match r with Ok response => Answered response | Err err => Failed err end)).
Proof.
  intros Hr. rewrite run_respond. unfold answer. rewrite Hr, run_bind. by destruct (run_prog (handle state req) w) as [? []].
Qed.

(** ** Admission *)

Definition guard_admits (a : Vault) (g : guard_kind) (parts : Parts) : bool :=
  match g with
  | AdminGuard => with_grant a parts (λ _ _, true)
  | ReaderGuard => reader_allowed state parts
  | NoGuard => true
  end.

Definition http_admitted (a : Vault) (m : method) (path : string) (parts : Parts) (body : bytes) : bool :=
  match router m path parts body with
  | Routed req => admitted state a req
  | PathRefused before => guard_admits a before parts
  | NoRoute | NoMethod => true
  end.

Definition turned_away_codes : list (option Z) := [Some 401; Some 403; Some 429]%Z.
Definition unrouted_codes : list (option Z) := [Some 400; Some 404; Some 405]%Z.

(** The request left the vault as it was, but for [noted]. *)
Definition traceless (a : Vault) (w' : World St) : Prop := ∃ a', view (w_store w') a' ∧ noted a a'.

Lemma turned_away_reply {A} a (out : World St * result ApiError A) :
  turned_away a out → ∃ e, out.2 = Err e ∧ reply_status (Failed e) ∈ turned_away_codes ∧ traceless a out.1.
Proof.
  intros (e & a' & He & Hcode & Hv & Hn). exists e. split; [done|]. split; [|by exists a'].
  destruct Hcode as [->|[->| ->]]; unfold turned_away_codes; rewrite !elem_of_cons; simpl; auto.
Qed.

(** A guard turns away or lets pass, and then the request was admitted. *)
Lemma run_guard_door a g parts (w : World St) :
  view (w_store w) a →
  turned_away a (run_prog (run_guard state g parts) w)
  ∨ guard_admits a g parts = true ∧ ∃ w', run_prog (run_guard state g parts) w = (w', Ok tt) ∧ traceless a w'.
Proof.
  intros Hv. destruct g; simpl.
  - destruct (run_admin state a parts w Hv) as [H|(w1 & a1 & actor & Hrun & Hg & Hv1 & Hn)];
      [left; by apply turned_away_bind|right]. unfold with_grant. rewrite Hg. split; [done|].
    rewrite run_bind, Hrun. exists w1. split; [done|]. by exists a1.
  - destruct (run_reader state a parts w Hv) as [H|(Hr & w1 & guard & Hrun & Hin)];
      [left; by apply turned_away_bind|right]. split; [done|]. rewrite run_bind, Hrun. exists w1. split; [done|].
    exists a. rewrite (proj1 Hin). split; [done|apply noted_refl].
  - right. split; [done|]. exists w. split; [done|]. exists a. split; [done|apply noted_refl].
Qed.

(** C3. Complete mediation.  Every GET, POST, PUT or DELETE request is
    answered.  One that is not admitted (no token, an unknown or revoked one, one whose role lacks the
    permission, an address off the allowlist) gets 401, 403 or 429, and one
    whose path or method leads nowhere gets one of these or 400, 404 or 405;
    neither changes a secret, a version, a role or a token, a name, an audit row
    or the re-wrap state: only the failure counters and the time a token was
    last used. *)
Theorem http_mediation {E} (w : World St) a m path parts body :
  view (w_store w) a →
  ∃ w' r, run_prog (E := E) (respond state m path parts body) w = (w', Ok r)
    ∧ (http_admitted a m path parts body = false → reply_status r ∈ turned_away_codes ∧ traceless a w')
    ∧ ((∀ req, router m path parts body ≠ Routed req) →
       reply_status r ∈ turned_away_codes ++ unrouted_codes ∧ traceless a w').
Proof.
  intros Hv. rewrite run_respond. unfold answer, http_admitted.
  assert (∀ code, Some code ∈ unrouted_codes → ∃ w' r, (w, Ok (E := E) (Refused code)) = (w', Ok r)
    ∧ (true = false → reply_status r ∈ turned_away_codes ∧ traceless a w')
    ∧ reply_status r ∈ turned_away_codes ++ unrouted_codes ∧ traceless a w') as Hnone.
  { intros code Hc. eexists _, _. split; [done|]. split; [done|]. split; [apply elem_of_app; by right|].
    exists a. split; [done|apply noted_refl]. }
  destruct (router m path parts body) as [req|before| |].
  - rewrite run_bind. destruct (run_prog (handle state req) w) as [w' r] eqn:Hrun.
    exists w', (match r with Ok response => Answered response | Err err => Failed err end). split; [by destruct r|]. split; [|intros Hno; by destruct (Hno req)]. intros Hadm.
    destruct (complete_mediation state w a req Hv Hadm) as (w1 & e & a' & Hrun' & Hcode & Hv' & Hn).
    assert (turned_away (A := response) a (w', r)) as (e' & Her & Hst & Htr)%turned_away_reply.
    { rewrite <- Hrun, Hrun'. by exists e, a'. }
    cbn [fst snd] in *. by subst r.
  - rewrite run_bind. destruct (run_guard_door a before parts w Hv) as [Haway|(Hadm & w1 & -> & Htr)].
    + apply turned_away_reply in Haway as (e & He & Hst & Htr). destruct (run_prog _ w) as [w1 r]. cbn [fst snd] in *. subst r.
      eexists _, _. split; [done|]. split; [done|]. intros _. split; [apply elem_of_app; by left|done].
    + rewrite run_ret, Hadm. eexists _, _. split; [done|]. split; [done|]. intros _.
      split; [apply elem_of_app; right; by left|done].
  - rewrite run_ret. destruct (Hnone 404%Z) as (w' & r & H1 & H2 & H3); [right; by left|]. by exists w', r.
  - rewrite run_ret. destruct (Hnone 405%Z) as (w' & r & H1 & H2 & H3); [right; right; by left|]. by exists w', r.
Qed.
End http.

(** ** Writing and reading *)

Section http_roundtrip.
Context `{CC : !CryptoCrates, CL : !CryptoLaws, PL : !Platform, PLL : !PlatformLaws}.
Context `{NET : !Ipnet, HO : !HashOrder, UP : !Serde UserPass, UPL : !SerdeLaws UserPass}.
Context `{SB : !Serde BackupData, JB : !JsonBodies}.
Context {St : Type} `{VS : !VaultStore St, SE : !StoreSerde, SLW : !VaultStoreLaws St}.
Context (state : AppState St) `{KL : !KmsLaws (st_kms state)}.

(** The client is on the allowlist and its peer address is not locked out. *)
Definition may_read (w : World St) (parts : Parts) : Prop :=
  reader_allowed state parts = true
  ∧ ∀ a ip record until, view (w_store w) a → peer_ip parts = Some ip →
      vault_lockouts a !! ip_to_string ip = Some record → l_locked_until record = Some until →
      (until ≤ unix_now (w_os w))%Z.

Lemma reader_passes parts (w : World St) a :
  view (w_store w) a → may_read w parts →
  ∃ w' guard, run_prog (reader_from_request_parts state parts) w = (w', Ok guard) ∧ same_inside w w'.
Proof.
  intros Hv [Hr Hopen]. unfold reader_allowed in Hr. unfold reader_from_request_parts.
  destruct (peer_ip parts) as [peer|] eqn:Hp; [|done]. rewrite run_bind, run_of_result. cbn [ok_or].
  destruct (client_ip parts _) as [[v4|]|]; [|done..]. rewrite run_bind, run_of_result. cbn [ok_or].
  assert (∃ w', run_prog (check_key state (ip_to_string peer)) w = (w', Ok tt) ∧ same_inside w w') as (w1 & Hk & Hin).
  { unfold check_key. case_match; [by exists w|].
    rewrite run_bind, (run_store_read _ _ _ (lockout_law _ _ (ip_to_string peer) Hv)).
    destruct (vault_lockouts a !! ip_to_string peer) as [record|] eqn:Hrec; [|by exists w].
    destruct (l_locked_until record) as [until|] eqn:Hl; [|by exists w]. rewrite run_bind, run_now.
    rewrite (proj2 (Z.ltb_ge _ _) (Hopen a peer record until Hv eq_refl Hrec Hl)). by eexists. }
  unfold check_ip. rewrite run_bind, Hk, Hr. by eexists _, _.
Qed.

(** The reply to a reader of [sv]: it, or a 500 because the provider of the keys
    failed, which one that never fails does not. *)
Definition shown (w : World St) (name : string) (sv : SecretValue) (r : reply) : Prop :=
  r = Answered (Value sv)
  ∨ (∃ e, r = Failed e ∧ reply_status r = Some 500%Z ∧ key_withheld state w name (sv_version sv) e)
    ∧ ¬ KmsReliable (st_kms state).

Lemma withheld_500 w name v e : key_withheld state w name v e → reply_status (Failed e) = Some 500%Z.
Proof. by intros (r & _ & _ & w1 & w2 & why & _ & _ & ->). Qed.

Lemma shown_reliable w name sv r : KmsReliable (st_kms state) → shown w name sv r → r = Answered (Value sv).
Proof. intros KR [->|[_ []]]; done. Qed.

(** What the vault has is served at the path of its name. *)
Lemma served_at_path {E} (w : World St) a name sv raw parts body :
  holds state w a → readable state a name sv → may_read w parts → raw = name ∨ raw = escape_slashes name →
  ∃ w' r, run_prog (E := E) (respond state GET ("/v1/secrets/" +:+ raw) parts body) w = (w', Ok r)
    ∧ shown w name sv r.
Proof.
  intros Hh Hsv Hread Hraw. pose proof Hh as (Hc & Hv & Hse).
  assert (is_valid_secret_name name = true) as Hname.
  { destruct Hsv as (secret & ? & ? & ? & [Hs _] & _). by destruct (ok_secret _ (view_ok _ _ Hv) _ _ Hs). }
  rewrite (run_routed state _ _ _ _ _ w (route_get name raw parts body Hname Hraw)). cbn [handle]. unfold route_get_secret.
  destruct (reader_passes parts w a Hv Hread) as (w1 & guard & Hg & Hs1 & Hc1 & _). rewrite run_bind, Hg, run_bind.
  assert (holds state w1 a) as Hh1 by (split; [by rewrite Hc1|split; [by rewrite Hs1|done]]).
  destruct (readable_read state name (rg_client_ip guard) w1 a sv Hh1 Hsv) as (w2 & res & -> & [->|(e & -> & He)]).
  - eexists _, _. split; [done|]. by left.
  - eexists _, _. split; [done|]. right. apply (key_withheld_store state w) in He; [|done].
    split; [exists e; split; [done|]; split; [by eapply withheld_500|done]|]. intros KR. by apply (reliable_gives state w a name _ _ Hh He).
Qed.

(** A reply other than an error comes from the handler's response. *)
Lemma answered_ok {E} m path parts body req (w w' : World St) r :
  router m path parts body = Routed req →
  run_prog (E := E) (respond state m path parts body) w = (w', Ok r) → reply_status r ∈ [Some 200; Some 201]%Z →
  ∃ resp, run_prog (handle state req) w = (w', Ok resp) ∧ r = Answered resp.
Proof.
  intros Hr. rewrite (run_routed state _ _ _ _ req w Hr). destruct (run_prog (handle state req) w) as [w1 [resp|e]].
  - intros [= <- <-] _. by exists resp.
  - intros [= <- <-] Hs. rewrite !elem_of_cons, elem_of_nil in Hs. destruct e; naive_solver.
Qed.

(** What is answered at the path of a name, the vault has and keeps. *)
Lemma answered_from_vault {E} (w w' : World St) a name sv raw parts body :
  holds state w a → is_valid_secret_name name = true → raw = name ∨ raw = escape_slashes name →
  run_prog (E := E) (respond state GET ("/v1/secrets/" +:+ raw) parts body) w = (w', Ok (Answered (Value sv))) →
  ∃ a', holds state w' a' ∧ readable state a' name sv.
Proof.
  intros Hh Hname Hraw Hrun. pose proof Hh as (Hc & Hv & Hse).
  destruct (answered_ok _ _ _ _ _ _ _ _ (route_get name raw parts body Hname Hraw) Hrun) as (resp & H & Hresp); [by left|].
  injection Hresp as <-. cbn [handle] in H. unfold route_get_secret in H.
  apply run_bind_ok in H as (w1 & guard & H1 & H).
  destruct (run_reader state a parts w Hv) as [(e & ? & He & _)|(_ & w1' & guard' & Hg & Hs1 & Hc1 & _)];
    [by rewrite H1 in He|]. rewrite Hg in H1. injection H1 as -> _.
  assert (holds state w1 a) as Hh1 by (split; [by rewrite Hc1|split; [by rewrite Hs1|done]]).
  apply run_bind_ok in H as (w2 & sv' & H2 & H). rewrite run_ret in H. injection H as <- <-.
  destruct (get_secret_keeps state _ _ _ _ _ _ Hh1 H2) as (a' & Hh2 & f & ->).
  pose proof (read_readable state _ _ _ _ _ _ Hh1 H2). by exists (with_audit f a).
Qed.

(** The guards in front of a handler keep the world well-formed. *)
Lemma step_ok {E A} (m : prog St E A) (w w' : World St) x :
  safe (world_ok state) (λ _, True) m → world_ok state w → run_prog m w = (w', Ok x) → world_ok state w'.
Proof. intros Hs Hw Hrun. by destruct (safe_run _ _ _ _ _ _ Hs Hw Hrun). Qed.

(** C6. Creation and reading agree, over HTTP: when [POST /v1/secrets] is
    answered with 201, then a [GET] of the path made of the secret's name (as
    it is or with its slashes escaped), from any client that may read, answers
    with exactly what the creation answered: value, user name and password
    included.  The one exception is a 500 when the key provider is asked for the
    data key of that version and fails; with a provider that never fails
    ([KmsReliable], such as the local one) there is none. *)
Theorem http_create_get_roundtrip {E} parts body req parts' body' raw (w w1 : World St) r :
  world_ok state w → json_create_secret BODY_LIMIT body = Some req → text_request req →
  run_prog (E := E) (respond state POST "/v1/secrets" parts body) w = (w1, Ok r) → reply_status r = Some 201%Z →
  may_read w1 parts' → raw = cr_name req ∨ raw = escape_slashes (cr_name req) →
  ∃ sv w2 r', r = Answered (Created sv)
    ∧ run_prog (E := E) (respond state GET ("/v1/secrets/" +:+ raw) parts' body') w1 = (w2, Ok r')
    ∧ shown w1 (cr_name req) sv r'.
Proof.
  intros Hw Hjson Ht Hrun Hst Hread Hraw.
  assert (router POST "/v1/secrets" parts body = Routed (PostSecret parts (Some req))) as Hroute.
  { rewrite <- Hjson. reflexivity. }
  destruct (answered_ok _ _ _ _ _ _ _ _ Hroute Hrun) as (resp & H & ->); [rewrite Hst; right; by left|].
  cbn [handle] in H. unfold route_create_secret in H.
  apply run_bind_ok in H as (w2 & actor & H1 & H). eapply step_ok in H1; [|apply safe_admin|done]. cbn [with_body] in H.
  apply run_bind_ok in H as (w3 & u & H2 & H). eapply step_ok in H2; [|apply safe_authorize|done].
  apply run_bind_ok in H as (w4 & u' & H3 & H). eapply step_ok in H3; [|apply safe_authorize_target|done].
  apply run_bind_ok in H as (w5 & sv & H4 & H). rewrite run_ret in H. injection H as <- <-.
  destruct (create_readable state _ _ _ _ _ H3 Ht H4) as (a & Hh & Hsv).
  destruct (served_at_path (E := E) _ _ _ _ raw parts' body' Hh Hsv Hread Hraw) as (w6 & r' & Hget & Hs). by exists sv, w6, r'.
Qed.

(** C8. Rotation and reading agree, over HTTP: when [POST /v1/secrets/NAME/rotate]
    is answered with 200 (any external system accepted the new password too),
    then a [GET] of [/v1/secrets/NAME] from any client that may read answers
    with exactly what the rotation answered, the new credential included.  The
    one exception is a 500 when the key provider is asked for the data key of
    that version and fails; with a provider that never fails there is none. *)
Theorem http_rotate_get_roundtrip {E} name parts body parts' body' raw raw' (w w1 : World St) r :
  world_ok state w → is_valid_secret_name name = true →
  raw = name ∨ raw = escape_slashes name → raw' = name ∨ raw' = escape_slashes name →
  run_prog (E := E) (respond state POST ("/v1/secrets/" +:+ raw +:+ "/" +:+ "rotate") parts body) w = (w1, Ok r) →
  reply_status r = Some 200%Z → may_read w1 parts' →
  ∃ sv w2 r', r = Answered (Value sv)
    ∧ run_prog (E := E) (respond state GET ("/v1/secrets/" +:+ raw') parts' body') w1 = (w2, Ok r')
    ∧ shown w1 name sv r'.
Proof.
  intros Hw Hname Hraw Hraw' Hrun Hst Hread.
  destruct (route_action name raw "rotate" parts body Hname Hraw) as [Hroute Hsplit]; [by left|].
  destruct (answered_ok _ _ _ _ _ _ _ _ Hroute Hrun) as (resp & H & ->); [rewrite Hst; by left|].
  cbn [handle] in H. unfold secret_action in H. rewrite Hsplit, run_bind, run_of_result in H. cbn [ok_or] in H.
  rewrite bool_decide_true in H by done.
  apply run_bind_ok in H as (w2 & actor & H1 & H). eapply step_ok in H1; [|apply safe_admin|done].
  apply run_bind_ok in H as (w3 & u & H2 & H). eapply step_ok in H2; [|apply safe_authorize|done].
  apply run_bind_ok in H as (w4 & sv & H3 & H). rewrite run_ret in H. injection H as <- <-.
  destruct (rotate_readable state _ _ _ _ _ _ H2 H3) as (a & Hh & Hsv).
  destruct (served_at_path (E := E) _ _ _ _ raw' parts' body' Hh Hsv Hread Hraw') as (w5 & r' & Hget & Hs). by exists sv, w5, r'.
Qed.
End http_roundtrip.
