(* ===== verification/RewrapThms.v ===== *)
(** * Key re-wrapping

    A re-wrap pass that no other task disturbs renews the wrapping of every
    live version, or counts it as failed; every version opens to the same
    plaintext as before. *)

From S2P Require Import Prelude RustStr CoreTypes Redb Keys Model Serial Apply Spec Samples ApplyFacts.
From S2P Require Import Refine Engine Invariant StoreLaws Platform Crypto Kms Cache ApiTypes PgApply.
From S2P Require Import IpAddr Guards Service Manage Routes ServiceSafe ServiceRun ServiceThms.

Section rewrap.
Context `{CC : !CryptoCrates, CL : !CryptoLaws, PL : !Platform, PLL : !PlatformLaws}.
Context `{NET : !Ipnet, HO : !HashOrder, UP : !Serde UserPass}.
Context {St : Type} `{VS : !VaultStore St, SE : !StoreSerde, SLW : !VaultStoreLaws St}.
Context (state : AppState St) `{KL : !KmsLaws (st_kms state)} (target : Z).

(** ** What a pass does to a row and to the vault *)

Record row_evolves (name : string) (v : Z) (r r' : VersionRecord) : Prop := {
  ev_expiry : v_expires_at r' = v_expires_at r;
  ev_sealed p : sealed state name v r p → sealed state name v r' p;
  ev_fresh : needs_rewrap r target = false → needs_rewrap r' target = false;
}.

Record evolves (a a' : Vault) : Prop := {
  ev_secrets : vault_secrets a' = vault_secrets a;
  ev_rewrap : vault_rewrap a' = vault_rewrap a;
  ev_forth name v r : vault_versions a !! (name, v) = Some r →
    ∃ r', vault_versions a' !! (name, v) = Some r' ∧ row_evolves name v r r';
  ev_back name v : vault_versions a !! (name, v) = None → vault_versions a' !! (name, v) = None;
}.

#[local] Instance evolves_preorder : PreOrder evolves.
Proof.
  split.
  - intros a. split; [done|done| |done]. intros name v r Hr. exists r. by split.
  - intros a b c H1 H2. split.
    + by rewrite (ev_secrets _ _ H2), (ev_secrets _ _ H1).
    + by rewrite (ev_rewrap _ _ H2), (ev_rewrap _ _ H1).
    + intros name v r Hr. destruct (ev_forth _ _ H1 _ _ _ Hr) as (r1 & Hr1 & E1).
      destruct (ev_forth _ _ H2 _ _ _ Hr1) as (r2 & Hr2 & E2). exists r2. split; [done|]. split.
      * by rewrite (ev_expiry _ _ _ _ E2), (ev_expiry _ _ _ _ E1).
      * intros p Hp. by apply (ev_sealed _ _ _ _ E2), (ev_sealed _ _ _ _ E1).
      * intros Hf. by apply (ev_fresh _ _ _ _ E2), (ev_fresh _ _ _ _ E1).
    + intros name v Hn. by apply (ev_back _ _ H2), (ev_back _ _ H1).
Qed.

Lemma sealed_rewrapped name v r p k blob dek :
  sealed state name v r p → wraps (v_wrapped_dek r) (v_kms_key_id r) (key_context name v) dek →
  wraps blob k (key_context name v) dek → sealed state name v (rewrapped k blob target r) p.
Proof.
  intros (Haad & Hn & dek' & Hw & Hs) Hd Hb. rewrite (wraps_unique _ _ _ _ _ _ _ Hw Hd) in Hs.
  unfold rewrapped. repeat case_match; (split; [done|]; split; [done|]); by exists dek.
Qed.

Lemma fresh_rewrapped k blob r : needs_rewrap (rewrapped k blob target r) target = false.
Proof.
  unfold rewrapped, needs_rewrap. destruct (v_wrapped_rotation_at r) as [t|] eqn:E; simpl; [|lia].
  destruct (target <=? t)%Z eqn:Ht; [rewrite E; lia|simpl; lia].
Qed.

(** Re-wrapping one row of a sealed vault. *)
Lemma rewrap_evolves a name v r k blob dek :
  vault_versions a !! (name, v) = Some r →
  wraps (v_wrapped_dek r) (v_kms_key_id r) (key_context name v) dek → wraps blob k (key_context name v) dek →
  evolves a (with_versions (alter (rewrapped k blob target) (name, v)) a).
Proof.
  intros Hr Hd Hb. split; simpl; [done|done| |].
  - intros name' v' r' Hr'. destruct (decide ((name, v) = (name', v'))) as [[= <- <-]|].
    + rewrite lookup_alter_eq, Hr. simpl. eexists. split; [done|]. simplify_eq. split.
      * unfold rewrapped. by repeat case_match.
      * intros p Hp. by eapply sealed_rewrapped.
      * intros _. apply fresh_rewrapped.
    + rewrite lookup_alter_ne by done. exists r'. by split.
  - intros name' v' Hn. by rewrite lookup_alter_None.
Qed.

Lemma evolves_sealed a a' : evolves a a' → vault_sealed state a → vault_sealed state a'.
Proof.
  intros He Ha name v r' Hr'. destruct (vault_versions a !! (name, v)) as [r|] eqn:Hr.
  - destruct (ev_forth _ _ He _ _ _ Hr) as (r1 & Hr1 & E). simplify_eq.
    destruct (Ha _ _ _ Hr) as [p Hp]. exists p. by apply (ev_sealed _ _ _ _ E).
  - by rewrite (ev_back _ _ He _ _ Hr) in Hr'.
Qed.

(** ** One version *)

Lemma run_rewrap_one name v r (w : World St) a :
  holds state w a → vault_versions a !! (name, v) = Some r → v_version r = v →
  ∃ w' res a', run_prog (rewrap_one state name r target) w = (w', res) ∧ holds state w' a' ∧ evolves a a'
    ∧ w_busy w' = w_busy w ∧ (∀ b, b ≠ (name, v) → vault_versions a' !! b = vault_versions a !! b)
    ∧ (res = Ok tt → ∀ r', vault_versions a' !! (name, v) = Some r' → needs_rewrap r' target = false).
Proof.
  intros Hh Hr Hv. pose proof Hh as (Hc & Hview & Hse). unfold rewrap_one. rewrite Hv, run_bind.
  destruct (Hse _ _ _ Hr) as (p & _ & _ & dek & Hw & _).
  destruct (run_prog (kms_reencrypt_data_key (st_kms state) _ _ _) w) as [w1 res] eqn:Hrun.
  destruct (quiet_run _ _ _ _ (reencrypt_quiet _ _ _) Hrun) as (Hs1 & Hc1 & Hb1).
  destruct res as [[blob k]|e].
  - destruct (safe_run (λ _, True) _ _ _ _ _ (reencrypt_law _ _ _ _ Hw) I Hrun) as [_ Hlaw].
    specialize (Hlaw _ eq_refl). simpl in Hlaw.
    set (c := RewrapVersion name v k blob target).
    assert (well_typed c) as Ht.
    { destruct (ok_version _ (view_ok _ _ Hview) _ _ _ Hr) as (_ & Hrange & _). simpl. unfold_ints. lia. }
    rewrite <- Hs1 in Hview. unfold store_apply_any. rewrite run_bind.
    destruct (run_act_apply (E := cause) c w1 a _ Hview Ht I eq_refl) as (s' & -> & Hv').
    rewrite run_of_result. assert (evolves a (with_versions (alter (rewrapped k blob target) (name, v)) a)) as He.
    { by eapply rewrap_evolves. }
    eexists _, _, _. split; [done|]. split; [|split; [exact He|]].
    + split; [simpl; by rewrite Hc1|]. split; [done|]. by eapply evolves_sealed.
    + split; [done|]. split; [intros b Hb; simpl; by rewrite lookup_alter_ne|].
      intros _ r'. simpl. rewrite lookup_alter_eq, Hr. intros [= <-]. apply fresh_rewrapped.
  - exists w1, (Err e), a. split; [done|]. split; [split; [by rewrite Hc1|by rewrite Hs1]|].
    split; [done|]. split; [done|]. by split.
Qed.

Lemma run_pace {E} (w : World St) :
  ∃ w', run_prog (E := E) (pace state) w = (w', Ok tt) ∧ same_inside w w'.
Proof.
  unfold pace. case_match; [|rewrite run_ret; by exists w].
  unfold sleep. rewrite run_act. eexists. split; [done|]. by apply step_os_inside.
Qed.

Lemma holds_inside w w' a : holds state w a → same_inside w w' → holds state w' a.
Proof. intros (Hc & Hv) (Hs & Hcache & _). split; [by rewrite Hcache|by rewrite Hs]. Qed.

(** ** The versions of one secret *)

(** The versions of [vs] that the pass has renewed in [a']. *)
Definition renewed (name : string) (vs : list VersionRecord) (a' : Vault) : Prop :=
  ∀ r r', r ∈ vs → vault_versions a' !! (name, v_version r) = Some r' → needs_rewrap r' target = false.

Lemma renewed_evolves name vs a a' :
  (∀ r, r ∈ vs → is_Some (vault_versions a !! (name, v_version r))) →
  renewed name vs a → evolves a a' → renewed name vs a'.
Proof.
  intros Hdom Hr He r r' Hin Hr'. destruct (Hdom r Hin) as [r0 Hr0].
  destruct (ev_forth _ _ He _ _ _ Hr0) as (r1 & Hr1 & E). simplify_eq.
  by apply (ev_fresh _ _ _ _ E), (Hr r).
Qed.

Lemma run_rewrap_versions name vs : ∀ (w : World St) a summary,
  holds state w a → NoDup (v_version <$> vs) →
  (∀ r, r ∈ vs → vault_versions a !! (name, v_version r) = Some r) →
  ∃ w' summary' a', run_prog (rewrap_versions state name target vs summary) w = (w', Ok summary')
    ∧ holds state w' a' ∧ evolves a a' ∧ w_busy w' = w_busy w
    ∧ sum_scanned summary' = (sum_scanned summary + Z.of_nat (length vs))%Z
    ∧ (sum_failed summary ≤ sum_failed summary')%Z
    ∧ (sum_failed summary' = sum_failed summary → renewed name vs a').
Proof.
  induction vs as [|r vs IH]; intros w a summary Hh Hnd Hrows; cbn [rewrap_versions].
  { rewrite run_ret. exists w, summary, a. simpl. split; [done|]. split; [done|]. split; [done|]. split; [done|].
    split; [lia|]. split; [done|]. intros _ r r' Hr. by apply elem_of_nil in Hr. }
  apply NoDup_cons in Hnd as [Hnin Hnd]. assert (vault_versions a !! (name, v_version r) = Some r) as Hr.
  { apply Hrows. by left. }
  assert (∀ a', (∀ b, b ≠ (name, v_version r) → vault_versions a' !! b = vault_versions a !! b) →
    ∀ r', r' ∈ vs → vault_versions a' !! (name, v_version r') = Some r') as Hrest.
  { intros a' Ha' r' Hr'. rewrite Ha'; [apply Hrows; by right|]. intros [= Heq]. apply Hnin.
    rewrite <- Heq. by apply list_elem_of_fmap_2. }
  destruct (needs_rewrap r target) eqn:Hneed; cbn [negb].
  - rewrite run_bind, run_attempt.
    destruct (run_rewrap_one name _ r w a Hh Hr eq_refl) as (w1 & res & a1 & -> & Hh1 & He1 & Hb1 & Hothers & Hok).
    cbn [fst snd]. rewrite run_bind. destruct (run_pace (E := cause) w1) as (w2 & -> & Hin).
    pose proof (holds_inside _ _ _ Hh1 Hin) as Hh2.
    match goal with |- context [rewrap_versions state name target vs ?s] =>
      destruct (IH w2 a1 s Hh2 Hnd (Hrest _ Hothers)) as (w3 & s3 & a3 & -> & Hh3 & He3 & Hb3 & Hsc & Hle & Hren) end.
    exists w3, s3, a3. split; [done|]. split; [done|]. split; [by etrans|].
    split; [destruct Hin as (_ & _ & Hin); congruence|].
    split; [destruct res; simpl in *; lia|]. split; [destruct res; simpl in *; lia|]. intros Hf.
    destruct res as [[]|e]; simpl in *; [|lia].
    intros r0 r' [->|Hin0]%elem_of_cons Hr'; [|by apply (Hren Hf r0)].
    destruct (ev_forth _ _ He1 _ _ _ Hr) as (r1 & Hr1 & _).
    destruct (ev_forth _ _ He3 _ _ _ Hr1) as (r3 & Hr3 & E). simplify_eq. by apply (ev_fresh _ _ _ _ E), Hok.
  - match goal with |- context [rewrap_versions state name target vs ?s] =>
      destruct (IH w a s Hh Hnd (Hrest a (λ _ _, eq_refl))) as (w3 & s3 & a3 & -> & Hh3 & He3 & Hb3 & Hsc & Hle & Hren) end.
    exists w3, s3, a3. split; [done|]. split; [done|]. split; [done|]. split; [done|]. simpl in *. split; [lia|].
    split; [lia|]. intros Hf r0 r' [->|Hin0]%elem_of_cons Hr'; [|by apply (Hren Hf r0)].
    destruct (ev_forth _ _ He3 _ _ _ Hr) as (r3 & Hr3 & E). simplify_eq. by apply (ev_fresh _ _ _ _ E).
Qed.

(** ** All secrets *)

Lemma run_store_read_any {X} (f : St → StoreResult X) x (w : World St) :
  f (w_store w) = Ok x → run_prog (store_read_any f) w = (w, Ok x).
Proof. intros Hf. unfold store_read_any. rewrite run_bind, run_act. simpl. by rewrite Hf, run_of_result. Qed.

(** Every version of [name] that is live at [now] is renewed. *)
Definition secret_renewed (now : Z) (a : Vault) (name : string) : Prop :=
  ∀ v r, vault_versions a !! (name, v) = Some r → RedbStore.live now r = true → needs_rewrap r target = false.

Lemma secret_renewed_evolves now a a' name :
  secret_renewed now a name → evolves a a' → secret_renewed now a' name.
Proof.
  intros Hr He v r' Hr' Hl. destruct (vault_versions a !! (name, v)) as [r|] eqn:Hv.
  - destruct (ev_forth _ _ He _ _ _ Hv) as (r1 & Hr1 & E). simplify_eq. apply (ev_fresh _ _ _ _ E), (Hr v); [done|].
    unfold RedbStore.live in *. by rewrite (ev_expiry _ _ _ _ E) in Hl.
  - by rewrite (ev_back _ _ He _ _ Hv) in Hr'.
Qed.

Lemma live_rows w a name now vs :
  holds state w a →
  enumerates (vault_versions a) (λ b, b.1 = name) (RedbStore.live now) (λ r, (name, v_version r)) vs →
  NoDup (v_version <$> vs) ∧ (∀ r, r ∈ vs → vault_versions a !! (name, v_version r) = Some r)
  ∧ ∀ v r, vault_versions a !! (name, v) = Some r → RedbStore.live now r = true → r ∈ vs ∧ v_version r = v.
Proof.
  intros (_ & Hv & _) [Hin Hnd]. pose proof (view_ok _ _ Hv) as Hok. split; [|split].
  - apply (NoDup_fmap_1 (pair name)). by rewrite <- list_fmap_compose.
  - intros r ([n v] & Hr & Hn & _)%Hin. simpl in Hn. subst n. by destruct (ok_version _ Hok _ _ _ Hr) as [-> _].
  - intros v r Hr Hl. split; [|by destruct (ok_version _ Hok _ _ _ Hr)]. apply Hin. by exists (name, v).
Qed.

Lemma run_rewrap_secrets now secrets : ∀ (w : World St) a summary,
  holds state w a →
  ∃ w' summary' a', run_prog (rewrap_secrets state now target secrets summary) w = (w', Ok summary')
    ∧ holds state w' a' ∧ evolves a a' ∧ w_busy w' = w_busy w
    ∧ (sum_failed summary ≤ sum_failed summary')%Z
    ∧ (sum_failed summary' = sum_failed summary →
       ∀ secret, secret ∈ secrets → secret_renewed now a' (s_name secret)).
Proof.
  induction secrets as [|secret secrets IH]; intros w a summary Hh; cbn [rewrap_secrets].
  { rewrite run_ret. exists w, summary, a. split; [done|]. split; [done|]. split; [done|]. split; [done|].
    split; [done|]. intros _ s Hs. by apply elem_of_nil in Hs. }
  pose proof Hh as (_ & Hv & _).
  destruct (live_versions_law _ _ (s_name secret) now Hv) as (vs & Hvs & Hen & _).
  rewrite run_bind, (run_store_read_any _ _ _ Hvs).
  destruct (live_rows _ _ _ _ _ Hh Hen) as (Hnd & Hrows & Hall).
  rewrite run_bind. destruct (run_rewrap_versions (s_name secret) vs w a summary Hh Hnd Hrows)
    as (w1 & s1 & a1 & -> & Hh1 & He1 & Hb1 & _ & Hle1 & Hren1).
  destruct (IH w1 a1 s1 Hh1) as (w2 & s2 & a2 & -> & Hh2 & He2 & Hb2 & Hle2 & Hren2).
  exists w2, s2, a2. split; [done|]. split; [done|]. split; [by etrans|]. split; [congruence|]. split; [lia|].
  intros Hf secret' [->|Hin]%elem_of_cons; [|apply Hren2; [lia|done]].
  eapply secret_renewed_evolves; [|exact He2]. intros v r' Hr' Hl.
  destruct (vault_versions a !! (s_name secret, v)) as [r|] eqn:Hr; [|by rewrite (ev_back _ _ He1 _ _ Hr) in Hr'].
  destruct (ev_forth _ _ He1 _ _ _ Hr) as (r1 & Hr1 & E). simplify_eq.
  destruct (Hall v r Hr) as [Hin <-]; [unfold RedbStore.live in *; by rewrite (ev_expiry _ _ _ _ E) in Hl|].
  apply (Hren1 ltac:(lia) r); done.
Qed.

(** A re-wrap pass that runs undisturbed terminates with a summary and clears
    its flag.  It touches nothing but the wrappings: every version is still
    there, with the same expiry and the same plaintext.  When the summary reports
    no failure, every version of every secret that was live when the pass began
    is wrapped under the target rotation or a later one. *)
Lemma run_pass_spec (w : World St) a :
  holds state w a → w_busy w = false →
  ∃ w' summary a', run_prog (run_pass state target) w = (w', Ok summary)
    ∧ w_busy w' = false ∧ holds state w' a' ∧ evolves a a'
    ∧ (sum_failed summary = 0%Z → ∀ name, secret_renewed (unix_now (w_os w)) a' name).
Proof.
  intros Hh Hbusy. pose proof Hh as (_ & Hv & _). set (now := unix_now (w_os w)).
  destruct (list_secrets_law _ _ Hv) as (secrets & Hs & [Hin _] & _).
  set (w1 := set_os (os_unix_time (w_os w)).1 (set_busy true w)).
  assert (holds state w1 a) as Hh1 by exact Hh.
  destruct (run_rewrap_secrets now secrets w1 a {| sum_scanned := 0; sum_rewrapped := 0; sum_failed := 0 |} Hh1)
    as (w2 & s2 & a2 & Hrun & Hh2 & He & Hb & Hle & Hren).
  assert (run_prog (rewrap_pass state target) (set_busy true w) = (w2, Ok s2)) as Hpass.
  { unfold rewrap_pass. rewrite run_bind, run_now, run_bind. change (set_os _ (set_busy true w)) with w1.
    by rewrite (run_store_read_any vs_list_secrets secrets w1 Hs). }
  unfold run_pass. rewrite run_bind, run_act. cbn [step fst snd]. rewrite Hbusy, run_bind, run_attempt, Hpass.
  cbn [fst snd]. rewrite run_bind, run_act. cbn [step fst snd]. rewrite run_of_result.
  eexists _, _, a2. split; [done|]. split; [done|]. split; [exact Hh2|]. split; [done|].
  intros Hf name v r Hr Hl. pose proof Hh2 as (_ & Hv2 & _).
  destruct (ok_version _ (view_ok _ _ Hv2) _ _ _ Hr) as (_ & _ & s & Hsec & _).
  destruct (ok_secret _ (view_ok _ _ Hv2) _ _ Hsec) as [<- _].
  apply (Hren Hf s) with v; [|done|done]. apply Hin. exists (s_name s). by rewrite <- (ev_secrets _ _ He).
Qed.
End rewrap.
