(* ===== verification/WorkerThms.v ===== *)
(** * The workers

    What one tick of the rotation worker and one of the re-wrap worker do to the
    vault when no other task disturbs them, whatever the key management and the
    Postgres nodes answer. *)

From S2P Require Import Prelude RustStr CoreTypes Redb Keys Model Serial Apply Spec Samples ApplyFacts.
From S2P Require Import Refine Engine Invariant StoreLaws Platform Crypto Kms Cache ApiTypes PgApply.
From S2P Require Import IpAddr Guards Service Manage Routes ServiceSafe ServiceRun ServiceThms RewrapThms.

Section workers.
Context `{CC : !CryptoCrates, CL : !CryptoLaws, PL : !Platform, PLL : !PlatformLaws}.
Context `{NET : !Ipnet, HO : !HashOrder, UP : !Serde UserPass, UPL : !SerdeLaws UserPass}.
Context {St : Type} `{VS : !VaultStore St, SE : !StoreSerde, SLW : !VaultStoreLaws St}.
Context (state : AppState St) `{KL : !KmsLaws (st_kms state)}.

(** ** A program logic for programs that run alone *)

Definition ends {E A} (m : prog St E A) (w : World St) (Φ : World St → result E A → Prop) : Prop :=
  Φ (run_prog m w).1 (run_prog m w).2.

Lemma ends_run {E A} (m : prog St E A) w Φ w' r : ends m w Φ → run_prog m w = (w', r) → Φ w' r.
Proof. unfold ends. by intros H Hr; rewrite Hr in H. Qed.

Lemma ends_bind {E A B} (m : prog St E A) (f : A → prog St E B) w Φ :
  ends m w (λ w1 r, match r with Ok x => ends (f x) w1 Φ | Err e => Φ w1 (Err e) end) →
  ends (m ≫= f) w Φ.
Proof. unfold ends. rewrite run_bind. by destruct (run_prog m w) as [w1 [x|e]]. Qed.

Lemma ends_attempt {E F A} (m : prog St E A) w Φ :
  ends m w (λ w1 r, Φ w1 (Ok r)) → ends (attempt (F := F) m) w Φ.
Proof. unfold ends. by rewrite run_attempt. Qed.

Lemma ends_of_result {E A} (r : result E A) w Φ : Φ w r → ends (of_result r) w Φ.
Proof. unfold ends. by rewrite run_of_result. Qed.

Lemma ends_ret {E A} (x : A) w (Φ : World St → result E A → Prop) : Φ w (Ok x) → ends (mret x) w Φ.
Proof. unfold ends. by rewrite run_ret. Qed.

(** A step that writes nothing keeps the vault also when it fails. *)
Lemma ends_reads {E A} (Q : A → Prop) (m : prog St E A) w a Φ :
  reads m → safe (world_ok state) Q m → holds state w a →
  (∀ w1 x, holds state w1 a → Q x → Φ w1 (Ok x)) →
  (∀ w1 e, holds state w1 a → run_prog m w = (w1, Err e) → Φ w1 (Err e)) → ends m w Φ.
Proof.
  intros Hr Hs Hh Hok Herr. unfold ends. destruct (run_prog m w) as [w1 [x|e]] eqn:Hrun; cbn [fst snd].
  - destruct (run_reads state Q m w w1 a x Hr Hs Hh Hrun). auto.
  - apply Herr; [|done]. change w1 with (w1, Err (A := A) e).1. rewrite <- Hrun.
    apply holds_reads; [done| |done]. eapply safe_mono; [|exact Hs]. done.
Qed.

Lemma ends_act_apply {E} c w a Φ :
  command_ok state c → holds state w a →
  (∀ w1 a1, spec_apply store_node c a = Ok a1 → holds state w1 a1 → Φ w1 (Ok (Ok tt))) →
  (∀ e, spec_apply store_node c a = Err e → Φ w (Ok (Err e))) →
  ends (E := E) (act (StoreApply c)) w Φ.
Proof.
  intros Hc (Hcache & Hv & Hse) Hok Herr. pose proof Hc as (Ht & Hi & _).
  pose proof (apply_law _ _ _ Hv Ht Hi) as Hl. unfold ends. rewrite run_act. cbn [step].
  destruct (spec_apply store_node c a) as [a1|e] eqn:Hs.
  - destruct Hl as (s' & -> & Hv'). apply (Hok _ a1 eq_refl). split; [done|]. split; [done|].
    by eapply vault_sealed_step.
  - rewrite Hl. destruct w. by apply Herr.
Qed.

Lemma ends_store_apply c w a Φ :
  command_ok state c → holds state w a →
  (∀ w1 a1, spec_apply store_node c a = Ok a1 → holds state w1 a1 → Φ w1 (Ok tt)) →
  (∀ e, spec_apply store_node c a = Err e → Φ w (Err (from_store e))) →
  ends (store_apply c) w Φ.
Proof.
  intros Hc Hh Hok Herr. apply ends_bind. eapply ends_act_apply; [done..| |]; intros; apply ends_of_result; eauto.
Qed.

Lemma run_apply_any c w a a1 :
  command_ok state c → holds state w a → spec_apply store_node c a = Ok a1 →
  ∃ w1, run_prog (store_apply_any c) w = (w1, Ok tt) ∧ holds state w1 a1 ∧ w_os w1 = w_os w ∧ w_busy w1 = w_busy w.
Proof.
  intros Hc Hh Hs. pose proof Hc as (Ht & Hi & _). pose proof Hh as (Hcache & Hv & Hse).
  destruct (run_act_apply (E := cause) c w a a1 Hv Ht Hi Hs) as (s' & Hr & Hv').
  exists (set_store s' w). unfold store_apply_any. rewrite run_bind, Hr, run_of_result. split; [done|].
  split; [|done]. split; [done|]. split; [done|]. by eapply vault_sealed_step.
Qed.

Lemma ends_audit {E} actor ip action name outcome w a Φ :
  holds state w a → (∀ w1 a1, holds state w1 a1 → but_audit a a1 → Φ w1 (Ok tt)) →
  ends (E := E) (audit actor ip action name outcome) w Φ.
Proof.
  intros Hh HΦ. pose proof Hh as (_ & Hv & _).
  destruct (run_audit (E := E) actor ip action name outcome w a Hv) as (w1 & a1 & Hr & _).
  destruct (audited state _ _ _ _ _ _ _ _ _ Hh Hr) as (a2 & Hh2 & Hb). unfold ends. rewrite Hr. by eapply HΦ.
Qed.

(** ** One rotation *)

(** The tables a rotation does not touch. *)
Record same_rest (a a' : Vault) : Prop := {
  sr_roles : vault_roles a' = vault_roles a;
  sr_tokens : vault_tokens a' = vault_tokens a;
  sr_names : vault_names a' = vault_names a;
  sr_rewrap : vault_rewrap a' = vault_rewrap a;
  sr_lockouts : vault_lockouts a' = vault_lockouts a;
}.

Definition same_secret (name : string) (a a' : Vault) : Prop :=
  vault_secrets a' !! name = vault_secrets a !! name
  ∧ ∀ v, vault_versions a' !! (name, v) = vault_versions a !! (name, v).

(** The secret with another current version and next rotation, changed at [now]. *)
Definition moved (s : SecretRecord) (version next now : Z) : SecretRecord := {|
  s_name := s_name s; s_kind := s_kind s; s_format := s_format s; s_description := s_description s;
  s_rotation_interval_secs := s_rotation_interval_secs s; s_grace_secs := s_grace_secs s;
  s_current_version := version; s_next_rotation_at := Some next; s_created_at := s_created_at s;
  s_updated_at := now; s_target := s_target s |}.

(** The secret [s] of that name has moved on by one version at [now]: the new row
    was made then and has no expiry, the superseded one, which had none, expires
    when its grace period ends, all others are as they were, and nothing of the
    secret but its current version, its next rotation and its time of change is
    different. *)
Record advanced (name : string) (s : SecretRecord) (now next : Z) (a a' : Vault) : Prop := {
  adv_before : vault_secrets a !! name = Some s;
  adv_kind : s_kind s = Automatic;
  adv_after : vault_secrets a' !! name = Some (moved s (s_current_version s + 1) next now);
  adv_new : ∃ r, vault_versions a' !! (name, s_current_version s + 1)%Z = Some r
    ∧ v_expires_at r = None ∧ v_created_at r = now;
  adv_old : ∃ r, vault_versions a !! (name, s_current_version s) = Some r ∧ v_expires_at r = None
    ∧ vault_versions a' !! (name, s_current_version s) = Some (expiring (sat_i64 (now + s_grace_secs s)) r);
  adv_other v : v ≠ s_current_version s → v ≠ (s_current_version s + 1)%Z →
    vault_versions a' !! (name, v) = vault_versions a !! (name, v);
}.

#[local] Instance same_rest_preorder : PreOrder same_rest.
Proof.
  split; [by split|]. intros a b c [] []. split; by etrans.
Qed.

#[local] Instance same_secret_preorder name : PreOrder (same_secret name).
Proof.
  split; [by split|]. intros a b c [H1 H2] [H3 H4]. split; [by rewrite H3|]. intros v. by rewrite H4.
Qed.

(** What a rotation of [name] may change. *)
Definition only (name : string) (a a' : Vault) : Prop :=
  same_rest a a' ∧ ∀ other, other ≠ name → same_secret other a a'.

#[local] Instance only_preorder name : PreOrder (only name).
Proof.
  split; [by split|]. intros a b c [H1 H2] [H3 H4]. split; [by etrans|]. intros other Ho.
  etrans; [by apply H2|by apply H4].
Qed.

Lemma audit_only name a a' : but_audit a a' → only name a a' ∧ same_secret name a a'.
Proof. intros [f ->]. by repeat split. Qed.

Lemma advanced_before name s now next a b c :
  same_secret name a b → advanced name s now next b c → advanced name s now next a c.
Proof.
  intros [Hs Hv] []. split; [by rewrite <- Hs|done|done|done| |].
  - by rewrite <- Hv.
  - intros v H1 H2. rewrite <- Hv. auto.
Qed.

Lemma advanced_after name s now next a b c :
  advanced name s now next a b → same_secret name b c → advanced name s now next a c.
Proof.
  intros [] [Hs Hv]. split; [done|done|by rewrite Hs|by rewrite Hv| |].
  - by rewrite Hv.
  - intros v H1 H2. rewrite Hv. auto.
Qed.

(** The write of a rotation succeeds and advances the secret. *)
Lemma put_advances name s version next now a :
  vault_ok a → vault_secrets a !! name = Some s → s_kind s = Automatic →
  v_version version = (s_current_version s + 1)%Z → v_expires_at version = None → v_created_at version = now →
  ∃ a', spec_apply store_node (PutVersion name (s_current_version s) version
      (Some (grace_expiry_unix now (s_grace_secs s))) None None None (Set_ (Some next)) now) a = Ok a'
    ∧ only name a a' ∧ advanced name s now next a a'.
Proof.
  intros Hok Hs Hk Hver Hx Hnow. destruct (ok_current _ Hok _ _ Hs) as (r & Hr & Hrx).
  destruct (ok_secret _ Hok _ _ Hs) as [_ Hname]. destruct (ok_version _ Hok _ _ _ Hr) as (_ & Hrange & _). simpl.
  assert (row_allowed name (v_version version) = Ok tt) as -> by (apply row_allowed_ok; split; [done|lia]).
  unfold_monad. rewrite Hs. simpl. rewrite decide_False by auto. eexists. split; [done|]. rewrite Hver.
  split; [split; [done|]|split].
  - intros other Ho. split; simpl; [by rewrite lookup_insert_ne|]. intros v.
    by rewrite lookup_alter_ne, lookup_insert_ne by congruence.
  - done.
  - done.
  - simpl. by rewrite lookup_insert_eq.
  - simpl. rewrite lookup_alter_ne by (intros [= ?]; lia). rewrite lookup_insert_eq. eauto.
  - simpl. rewrite lookup_alter_eq, lookup_insert_ne by (intros [= ?]; lia). rewrite Hr. simpl.
    exists r. split; [done|]. split; [done|]. unfold give_expiry. by rewrite Hrx.
  - intros v H1 H2. simpl. by rewrite lookup_alter_ne, lookup_insert_ne by congruence.
Qed.

Lemma retry_advances name s now next t a b :
  advanced name s now next a b →
  ∃ c, spec_apply store_node (UpdateMeta name (s_current_version s + 1) None None None (Set_ (Some t)) now) b = Ok c
    ∧ only name b c ∧ advanced name s now t a c.
Proof.
  intros [Hs Hk Hb Hnew Hold Hother]. simpl. unfold_monad. rewrite Hb. simpl. rewrite decide_False by auto.
  eexists. split; [done|]. split; [split; [done|]|split; try done].
  - intros other Ho. split; [|done]. simpl. by rewrite lookup_insert_ne.
  - simpl. by rewrite lookup_insert_eq.
Qed.

(** Why a rotation stops before it writes: the secret is not rotated or has no
    next version number, or its new payload could not be made or sealed. *)
Definition not_prepared (name : string) (s : SecretRecord) (now : Z) (e : ApiError) : Prop :=
  s_kind s ≠ Automatic ∨ next_version (s_current_version s) = None
  ∨ (∃ w1 w2, run_prog (rotate_payload state name s) w1 = (w2, Err e))
  ∨ ∃ w1 w2 bs, run_prog (seal_version state name (s_current_version s + 1) bs now) w1 = (w2, Err e).

(** The external system of the secret refused the new password. *)
Definition refused (name : string) (s : SecretRecord) (now : Z) (e : ApiError) : Prop :=
  ∃ target username password w1 w2, s_target s = Some target ∧ s_format s = Userpass
    ∧ run_prog (apply_target state name (s_current_version s) now target username password) w1 = (w2, Err e).

(** What the answer of a rotation begun at [now] says of its secret. *)
Definition answered (a a' : Vault) (name : string) (now : Z) (r : result ApiError SecretValue) : Prop :=
  match r with
  | Ok sv => ∃ s, advanced name s now (sat_i64 (now + default 0%Z (s_rotation_interval_secs s))) a a'
      ∧ sv_name sv = name ∧ sv_version sv = (s_current_version s + 1)%Z
  | Err e =>
      same_secret name a a' ∧ (∀ s, vault_secrets a !! name = Some s → not_prepared name s now e)
      ∨ ∃ s, advanced name s now (sat_i64 (now + 60)) a a' ∧ refused name s now e
  end.

Definition rotate_outcome (name : string) (now : Z) (a : Vault) (w' : World St) (r : result ApiError SecretValue) : Prop :=
  ∃ a', holds state w' a' ∧ only name a a' ∧ answered a a' name now r.

Lemma outcome_unchanged name now a s w' e :
  holds state w' a → vault_secrets a !! name = Some s → not_prepared name s now e →
  rotate_outcome name now a w' (Err e).
Proof. intros Hh Hs Hn. exists a. split; [done|]. split; [done|]. left. split; [done|]. intros s'. by rewrite Hs; intros [= <-]. Qed.

(** The part of a rotation that changes the password in Postgres: the vault is
    as it was, or has another time to try again. *)
Lemma rotate_applied_ends actor ip name s payload next now w b a Φ :
  holds state w b → only name a b → advanced name s now next a b →
  (∀ w1, holds state w1 b → Φ w1 (Ok tt)) →
  (∀ w1 e, rotate_outcome name now a w1 (Err e) → Φ w1 (Err e)) →
  ends (match s_target s, s_format s with
    | Some target, Userpass =>
        r ← attempt (apply_target state name (s_current_version s) now target
                       (default "" (pl_username payload)) (default "" (pl_password payload)));
        match r with
        | Ok _ => mret tt
        | Err err =>
            schedule_apply_retry name (s_current_version s + 1) now ;;
            audit (Some actor) ip "rotate" (Some name) "apply_failed" ;;
            Throw err
        end
    | _, _ => mret tt
    end) w Φ.
Proof.
  intros Hh Honly Hadv Hok Herr.
  destruct (s_target s) as [target|] eqn:Ht; [|by apply ends_ret, Hok].
  destruct (s_format s) eqn:Hf; [by apply ends_ret, Hok|].
  apply ends_bind, ends_attempt. eapply ends_reads; [by apply (reads_apply_target state)|apply (safe_apply_target state)|done| |].
  { intros w1 x Hh1 _. by apply ends_ret, Hok. }
  intros w1 e Hh1 Hrefused. destruct (retry_advances name s now next (next_rotation_unix now APPLY_RETRY_SECS) a b Hadv)
    as (c & Hc & Honly' & Hadv').
  apply ends_bind, ends_bind. eapply ends_act_apply; [done|done| |intros e' He'; congruence].
  intros w2 c' Hc' Hh2. rewrite Hc in Hc'. injection Hc' as <-. apply ends_ret.
  apply ends_bind. eapply ends_audit; [done|]. intros w3 d Hh3 Hd. apply Herr.
  destruct (audit_only name _ _ Hd) as [Hd1 Hd2]. exists d. split; [done|].
  split; [etrans; [exact Honly|by etrans]|]. right. exists s. split; [by eapply advanced_after|].
  by repeat eexists.
Qed.

Lemma rotate_ends actor ip name w a :
  holds state w a → ends (rotate state actor ip name) w (rotate_outcome name (unix_now (w_os w)) a).
Proof.
  intros Hh. unfold rotate. pose proof Hh as (_ & Hv & _). pose proof (view_ok _ _ Hv) as Hok.
  apply ends_bind. unfold ends at 1. rewrite (run_store_read (vs_secret name) _ _ (secret_law _ _ name Hv)). cbn [fst snd].
  apply ends_bind, ends_of_result. destruct (vault_secrets a !! name) as [s|] eqn:Hs.
  2: { exists a. split; [done|]. split; [done|]. left. split; [done|]. intros s. by rewrite Hs. }
  destruct (stored_current _ _ _ _ Hv (eq_trans (secret_law _ _ name Hv) (f_equal Ok Hs))) as [_ Hcur]. cbn [ok_or].
  apply ends_bind. case_bool_decide as Hk; cbn [negb]; [|apply ends_of_result; eapply outcome_unchanged; [done..|by left]].
  apply ends_ret. apply ends_bind, ends_of_result.
  destruct (next_version (s_current_version s)) as [next|] eqn:Hn; [|eapply outcome_unchanged; [done..|right; by left]].
  destruct (next_version_Some _ _ Hn) as [-> _]. cbn [ok_or]. apply ends_bind. unfold ends at 1. rewrite run_now. cbn [fst snd].
  set (now := unix_now (w_os w)). assert (holds state (set_os (os_unix_time (w_os w)).1 w) a) as Hh1 by done. apply ends_bind.
  eapply ends_reads; [by apply (reads_rotate_payload state)|apply (rotate_payload_ok state)|done| |].
  2: { intros w1 e He Hrun. eapply outcome_unchanged; [done..|]. do 2 right. left. by repeat eexists. }
  intros w2 payload Hh2 _. apply ends_bind.
  eapply ends_reads; [by apply (reads_seal_version state)|apply (safe_seal_version state)|done| |].
  2: { intros w1 e He Hrun. eapply outcome_unchanged; [done..|]. do 3 right. by repeat eexists. }
  intros w3 version Hh3 (Hver & Hx & Hnow & Hsealed). cbv zeta.
  destruct (put_advances name s version (next_rotation_unix now (default 0%Z (s_rotation_interval_secs s))) now a)
    as (a1 & Ha1 & Honly & Hadv); [done..|].
  apply ends_bind. eapply ends_store_apply; [eapply command_ok_put; [done|exact Hn|done..]|done| |intros e He; congruence].
  intros w4 a1' Ha1' Hh4. rewrite Ha1 in Ha1'. injection Ha1' as <-. clear Hh3 Hh2 Hh1.
  apply ends_bind. eapply (rotate_applied_ends actor ip name s payload _ now w4 a1 a); [done|done|done| |done].
  intros w5 Hh5. apply ends_bind. eapply ends_audit; [done|]. intros w6 a2 Hh6 Hb. apply ends_ret.
  destruct (audit_only name _ _ Hb) as [Hb1 Hb2]. exists a2. split; [done|]. split; [by etrans|].
  exists s. split; [by eapply advanced_after|done].
Qed.

(** ** A tick of the rotation worker *)

Definition leads (w : World St) : bool :=
  if st_raft state then bool_decide ((os_leader (w_os w)).2 = Some (st_node_id state)) else true.

(** The platform after the question who leads. *)
Definition polled (w : World St) : Os := if st_raft state then (os_leader (w_os w)).1 else w_os w.

Lemma run_is_leader {E} w : run_prog (E := E) (is_leader state) w = (set_os (polled w) w, Ok (leads w)).
Proof.
  unfold is_leader, leads, polled. destruct (st_raft state); [|by destruct w].
  rewrite run_bind, run_act, run_ret. simpl. by destruct (os_leader (w_os w)).
Qed.

Lemma holds_os w a os : holds state w a → holds state (set_os os w) a.
Proof. done. Qed.

(** Rotating the secrets [names] one after the other, with the time at which each
    rotation began and its answer. *)
Inductive rotations : list string → World St → World St → list (Z * result ApiError SecretValue) → Prop :=
| rotations_none w : rotations [] w w []
| rotations_one name names w w1 w2 r rs :
    run_prog (rotate state "rotation-worker" None name) w = (w1, r) →
    rotations names w1 w2 rs → rotations (name :: names) w w2 ((unix_now (w_os w), r) :: rs).

Lemma answered_after name now r a b c : answered a b name now r → same_secret name b c → answered a c name now r.
Proof.
  intros H Hs. destruct r as [sv|e]; simpl in *.
  - destruct H as (s & Hadv & H). exists s. split; [by eapply advanced_after|done].
  - destruct H as [[H He]|(s & Hadv & He)]; [left; split; [by etrans|done]|right]. exists s.
    split; [by eapply advanced_after|done].
Qed.

Lemma answered_before name now r a b c : same_secret name a b → answered b c name now r → answered a c name now r.
Proof.
  intros Hs H. destruct r as [sv|e]; simpl in *.
  - destruct H as (s & Hadv & H). exists s. split; [by eapply advanced_before|done].
  - destruct H as [[H He]|(s & Hadv & He)]; [left; split; [by etrans|]|right].
    + intros s. rewrite <- (proj1 Hs). apply He.
    + exists s. split; [by eapply advanced_before|done].
Qed.

Lemma run_rotations secrets : ∀ w a,
  holds state w a → NoDup (s_name <$> secrets) →
  ∃ w' a' rs,
    run_prog (E := cause)
      (prog_iter (λ secret, _ ← attempt (rotate state "rotation-worker" None (s_name secret)); mret tt) secrets) w
    = (w', Ok tt)
    ∧ rotations (s_name <$> secrets) w w' rs ∧ holds state w' a' ∧ same_rest a a'
    ∧ Forall2 (λ name '(now, r), answered a a' name now r) (s_name <$> secrets) rs
    ∧ ∀ name, name ∉ s_name <$> secrets → same_secret name a a'.
Proof.
  induction secrets as [|secret secrets IH]; intros w a Hh Hnd; cbn [prog_iter].
  { rewrite run_ret. exists w, a, []. repeat split; [constructor|apply Hh..|constructor]. }
  rewrite fmap_cons in *. apply NoDup_cons in Hnd as [Hni Hnd]. set (name := s_name secret) in *.
  pose proof (rotate_ends "rotation-worker" None name w a Hh) as Hend. unfold ends in Hend.
  rewrite run_bind, run_bind, run_attempt.
  destruct (run_prog (rotate state "rotation-worker" None name) w) as [w1 r] eqn:Hr. cbn [fst snd] in *.
  destruct Hend as (a1 & Hh1 & [Hrest Honly] & Hans). rewrite run_ret.
  destruct (IH w1 a1 Hh1 Hnd) as (w2 & a2 & rs & Hrun & Hrot & Hh2 & Hrest2 & Hall & Hsame).
  exists w2, a2, ((unix_now (w_os w), r) :: rs). split; [done|]. split; [by econstructor|]. split; [done|]. split; [by etrans|].
  split; [|intros other Ho; apply not_elem_of_cons in Ho as [Ho1 Ho2]; etrans; [by apply Honly|by apply Hsame]].
  constructor; [eapply answered_after; [exact Hans|by apply Hsame]|].
  eapply Forall2_impl_elem; [exact Hall|]. intros other [now' r'] Ho. apply answered_before, Honly. by intros ->.
Qed.

(** C22. One tick of the rotation worker, alone.  On a node that does not lead it
    changes nothing.  On the leader it removes the expired versions and then
    rotates every secret that is due, each once, and goes on when one fails.  A
    rotation that succeeds has advanced its secret by exactly one version at the
    time it began: the old version expires when the grace period of the secret
    has passed from then, and the next rotation is one interval away.  One that
    fails has either not touched its secret, because the secret cannot be
    rotated or its new payload could not be made or sealed, or the external
    system refused the new password; then the secret has advanced all the same,
    and the next rotation is a minute away.  Secrets that are not due are as
    before.  The tick itself always succeeds. *)
Theorem rotation_tick_spec w a :
  holds state w a →
  let t1 := unix_now (polled w) in
  let os1 := (os_unix_time (polled w)).1 in
  let t2 := unix_now os1 in
  let a0 := with_versions (filter (λ kv, expired_by t1 kv.2 = false)) a in
  ∃ w' a', run_prog (rotation_tick state) w = (w', Ok tt) ∧ holds state w' a'
    ∧ if leads w then
        ∃ secrets w1 rs, enumerates (vault_secrets a) (λ _, True) (RedbStore.due t2) s_name secrets
          ∧ holds state w1 a0 ∧ rotations (s_name <$> secrets) w1 w' rs
          ∧ same_rest a a' ∧ Forall2 (λ name '(now, r), answered a0 a' name now r) (s_name <$> secrets) rs
          ∧ ∀ name, name ∉ s_name <$> secrets → same_secret name a0 a'
      else w' = set_os (polled w) w ∧ a' = a.
Proof.
  intros Hh t1 os1 t2 a0. unfold rotation_tick. rewrite run_bind, run_is_leader.
  destruct (leads w); cbn [negb]; [|rewrite run_ret; exists (set_os (polled w) w), a; done].
  rewrite run_bind, run_now, run_bind. cbn [w_os set_os]. fold t1 os1.
  destruct (run_apply_any (ExpireGraceVersions t1) (set_os os1 (set_os (polled w) w)) a a0)
    as (w1 & -> & Hh1 & Hos & _); [done|done|done|].
  rewrite run_bind, run_now, Hos, run_bind. cbn [w_os set_os]. fold t2. set (w2 := set_os _ w1).
  assert (holds state w2 a0) as Hh2 by done. pose proof Hh2 as (_ & Hv2 & _).
  destruct (due_rotations_law _ _ t2 Hv2) as (secrets & Hdue & Henum).
  rewrite (run_store_read_any (vs_due_rotations t2) secrets w2 Hdue).
  destruct (run_rotations secrets w2 a0 Hh2) as (w' & a' & rs & Hrun & Hrot & Hh' & Hrest & Hall & Hsame);
    [apply Henum|]. rewrite Hrun. exists w', a'. split; [done|]. split; [done|]. exists secrets, w2, rs.
  split; [done|]. split; [done|]. split; [done|]. split; [by destruct Hrest|done].
Qed.

(** ** A tick of the re-wrap worker *)

Definition watermark (a : Vault) : option Z :=
  k_last_completed_rotation_at <$> vault_rewrap a !! KMS_REWRAP_STATE_KEY.

(** The vault with the watermark [target], written at [now]. *)
Definition completed (target now : Z) (a : Vault) : Vault :=
  with_rewrap <[KMS_REWRAP_STATE_KEY :=
    {| k_last_completed_rotation_at := target; k_last_swept_at := now; k_updated_at := now |}]> a.

Lemma run_persist_completed target w a :
  holds state w a →
  ∃ w' now, run_prog (persist_completed target) w = (w', Ok tt)
    ∧ holds state w' (completed target now a) ∧ w_busy w' = w_busy w.
Proof.
  intros Hh. unfold persist_completed. rewrite run_bind, run_now. set (now := unix_now _).
  destruct (run_apply_any (SetKmsRewrapState {| k_last_completed_rotation_at := target; k_last_swept_at := now;
    k_updated_at := now |}) (set_os (os_unix_time (w_os w)).1 w) a (completed target now a))
    as (w' & Hrun & Hh' & _ & Hb); [done|done|done|]. eauto.
Qed.

(** C23. One tick of the re-wrap worker, alone.  On a node that does not lead, or
    when the provider cannot name the latest rotation, nothing changes.  The
    first tick only records the latest rotation.  Later ones do nothing until the
    provider reports a newer rotation; then a pass runs, after which every
    version still opens to what it opened to, and the watermark moves to that
    rotation exactly when the pass had no failure, and then every version that
    was live is wrapped under that rotation or a later one. *)
Theorem rewrap_tick_spec w a :
  holds state w a → w_busy w = false →
  ∃ w1 latest w' r a', run_prog (target_rotation state) (set_os (polled w) w) = (w1, latest)
    ∧ run_prog (rewrap_tick state) w = (w', r) ∧ w_busy w' = false ∧ holds state w' a'
    ∧ if negb (leads w) then r = Ok tt ∧ a' = a else
      match latest with
      | Err e => r = Err e ∧ a' = a
      | Ok latest =>
          r = Ok tt
          ∧ match watermark a, latest with
            | None, _ => ∃ now, a' = completed (default 0%Z latest) now a
            | Some _, None => a' = a
            | Some last, Some target =>
                if (target <=? last)%Z then a' = a else
                ∃ w2 summary a2, run_prog (run_pass state target) w1 = (w2, Ok summary) ∧ evolves state target a a2
                  ∧ if decide (sum_failed summary = 0%Z) then
                      (∃ now, a' = completed target now a2)
                      ∧ ∀ name, secret_renewed target (unix_now (w_os w1)) a2 name
                    else a' = a2
            end
      end.
Proof.
  intros Hh Hbusy. unfold rewrap_tick.
  destruct (run_prog (target_rotation state) (set_os (polled w) w)) as [w1 latest] eqn:Hlat.
  assert (holds state w1 a ∧ w_busy w1 = false) as [Hh1 Hb1].
  { destruct (quiet_run _ _ _ _ latest_quiet Hlat) as (Hs & Hc & Hb). split; [|by rewrite Hb].
    eapply (holds_inside state (set_os (polled w) w)); [done|]. by split. }
  rewrite run_bind, run_is_leader. exists w1, latest.
  destruct (leads w); cbn [negb]; [|rewrite run_ret; by exists (set_os (polled w) w), (Ok tt), a].
  rewrite run_bind, Hlat. destruct latest as [latest|e]; [|by exists w1, (Err e), a].
  pose proof Hh1 as (_ & Hv1 & _). rewrite run_bind, (run_store_read_any _ _ _ (kms_rewrap_state_law _ _ Hv1)).
  unfold watermark. destruct (vault_rewrap a !! KMS_REWRAP_STATE_KEY) as [persisted|]; cbn [fmap option_fmap option_map].
  2: { destruct (run_persist_completed (default 0%Z latest) w1 a Hh1) as (w2 & now & -> & Hh2 & Hb2).
       exists w2, (Ok tt), (completed (default 0%Z latest) now a). rewrite Hb2. do 5 (split; [done|]). by exists now. }
  destruct latest as [target|]; [|rewrite run_ret; by exists w1, (Ok tt), a].
  destruct (target <=? _)%Z; [rewrite run_ret; by exists w1, (Ok tt), a|].
  destruct (run_pass_spec state target w1 a Hh1 Hb1) as (w2 & summary & a2 & Hrun & Hb2 & Hh2 & He & Hren).
  rewrite run_bind, Hrun. destruct (Z.eqb_spec (sum_failed summary) 0) as [Hf|Hf].
  - destruct (run_persist_completed target w2 a2 Hh2) as (w3 & now & -> & Hh3 & Hb3).
    exists w3, (Ok tt), (completed target now a2). rewrite Hb3. do 5 (split; [done|]).
    exists w2, summary, a2. rewrite decide_True by done. split; [done|]. split; [done|]. split; [by exists now|]. by apply Hren.
  - rewrite run_ret. exists w2, (Ok tt), a2. do 5 (split; [done|]). exists w2, summary, a2. by rewrite decide_False by done.
Qed.
End workers.
