(* ===== verification/ServiceSamples.v ===== *)
(** * A concrete node

    Small implementations of everything the service is given, for the
    witnesses: a keyed encoding in place of the cipher, a counter in place of
    the random source and a fixed clock; and a node over the finite-map store
    with a local key. *)

From S2P Require Import Prelude RustStr CoreTypes Redb Keys Model Serial Apply Spec Samples ApplyFacts.
From S2P Require Import Refine Engine Invariant StoreLaws RaftSamples Platform Crypto Kms KmsThms Cache.
From S2P Require Import ApiTypes PgApply IpAddr Guards Service Manage Routes ServiceSafe ServiceRun.
From S2P Require Import ServiceThms.

(** ** Schedules *)

Section schedule.
Context `{PL : !Platform} {St : Type} `{VS : !VaultStore St} {E A : Type}.

(** One action of the [i]-th program. *)
Definition turn (c : World St * list (prog St E A)) (i : nat) : World St * list (prog St E A) :=
  match c.2 !! i with
  | Some (Act e k) => let '(w', x) := step e c.1 in (w', <[i := k x]> c.2)
  | _ => c
  end.

(** The programs take turns in the given order. *)
Definition schedule (turns : list nat) (c : World St * list (prog St E A)) : World St * list (prog St E A) :=
  foldl turn c turns.

Lemma schedule_interleave turns : ∀ c, rtc interleave c (schedule turns c).
Proof.
  induction turns as [|i turns IH]; intros [w ps]; [done|]. cbn [schedule foldl].
  unfold turn at 2. cbn [fst snd]. destruct (ps !! i) as [[a|e|X e k]|] eqn:Hi; [apply IH|apply IH| |apply IH].
  eapply rtc_l; [by apply interleave_act|]. destruct (step e w) as [w' x]. apply IH.
Qed.

Definition finished (m : prog St E A) : bool := match m with Ret _ => true | _ => false end.
End schedule.

(** ** The crates *)

(** The message followed by everything it is bound to. *)
Definition tag (k n a : bytes) : bytes := k ++ n ++ a.

Definition untag (t c : bytes) : option bytes :=
  let l := length c - length t in
  if decide (take l c ++ t = c) then Some (take l c) else None.

Lemma untag_Some t m c : untag t c = Some m ↔ c = m ++ t.
Proof.
  unfold untag. split.
  - case_decide as H; [|done]. intros [= <-]. by rewrite H.
  - intros ->. rewrite length_app. replace (length m + length t - length t) with (length m) by lia.
    rewrite take_app_length. by rewrite decide_True.
Qed.

(** Two letters for a byte. *)
Definition nibble (n : N) : byte := default "A"%byte (Byte.of_N (65 + n)).
Definition letters (b : byte) : bytes := [nibble (Byte.to_N b / 16); nibble (Byte.to_N b mod 16)]%N.

#[export] Instance sample_crypto : CryptoCrates := {|
  xchacha_encrypt k n a m := Some (m ++ tag k n a);
  xchacha_decrypt k n a c := untag (tag k n a) c;
  sha256 m := take 32 (m ++ replicate 32 x00);
  base64_url_no_pad bs := String.string_of_list_byte (flat_map letters bs);
  base64_decode s := Some (as_bytes s) |}.

Lemma nibble_ascii n : (n < 16)%N → RustStr.in_range 0 127 (nibble n) = true.
Proof.
  intros Hn. unfold nibble, RustStr.in_range. destruct (Byte.of_N (65 + n)) as [b|] eqn:E; simpl; [|done].
  apply Byte.to_of_N in E. rewrite E. apply andb_true_iff. split; apply N.leb_le; lia.
Qed.

Lemma letters_text bs : utf8_valid (flat_map letters bs) = true.
Proof.
  induction bs as [|b bs IH]; [done|]. cbn [flat_map letters app utf8_valid].
  assert (Byte.to_N b < 256)%N by (pose proof (Byte.to_N_bounded b); lia).
  rewrite !nibble_ascii; [done| |].
  - apply N.mod_lt. done.
  - apply N.Div0.div_lt_upper_bound. lia.
Qed.

#[export] Instance sample_crypto_laws : CryptoLaws.
Proof.
  split.
  - intros k n a m c _ _ [= <-]. by apply untag_Some.
  - intros k n a m c _ _ ->%untag_Some. done.
  - intros k n a m _ _ _ _. by eexists.
  - intros m. change (length (take 32 (m ++ replicate 32 x00)) = 32). rewrite length_take, length_app, length_replicate. lia.
  - intros bs. unfold is_utf8, as_bytes. cbn [base64_url_no_pad sample_crypto]. rewrite String.list_byte_of_string_of_list_byte. apply letters_text.
Qed.

#[export] Instance sample_hash_order : HashOrder := {| hash_iter := map_to_list; hash_iter_perm _ := reflexivity _ |}.

(** ** The platform *)

#[export] Instance sample_platform : Platform := {|
  Os := N;
  os_unix_time s := (s, Some 1000%Z);
  os_instant s := (s, 0%Z);
  os_random n s := (N.succ s, replicate n (default x00 (Byte.of_N s)));
  os_sleep _ s := s;
  os_tick _ s := s;
  os_leader s := (s, None);
  PgClient := unit; TlsConnector := unit;
  CertificateDer := unit; RootCertStore := nat;
  roots_empty := 0; roots_len roots := roots;
  roots_add _ roots := Ok (S roots);
  roots_add_parsable certs roots := (roots + length certs, length certs);
  os_pem_file _ s := (s, Ok [Ok tt]);
  os_native_certs s := (s, ([tt], ""));
  tls_client _ := Ok tt;
  os_pg_connect _ _ s := (s, Connected tt);
  os_pg_rotate_credential _ _ _ s := (s, Ok true);
  format_rfc3339 t := Some (int_to_string t) |}.

#[export] Instance sample_platform_laws : PlatformLaws.
Proof.
  split; simpl; [intros; apply length_replicate| |done| |done].
  - intros _ t [= <-]. by unfold_ints.
  - by intros _ roots roots' [= <-].
Qed.

#[export] Instance serial_userpass : Serial UserPass.
Proof. serial (λ u, (up_username u, up_password u)) (λ '(a, b), Build_UserPass a b). Defined.
#[export] Instance userpass_serde : Serde UserPass := serial_serde.
#[export] Instance userpass_serde_laws : SerdeLaws UserPass := serial_serde_laws.
#[export] Instance backup_serde : Serde BackupData := serial_serde.

(** ** The node *)

Module Node.
#[export] Instance store : VaultStore Database := RedbStore.redb_store 1.

Definition wrapper : LocalKeyWrapper := {| lw_master := replicate 32 "k"%byte; lw_key_id := "local" |}.

#[export] Instance kms_laws : KmsLaws (LocalKms wrapper) := local_kms_laws wrapper eq_refl.
#[export] Instance kms_reliable : KmsReliable (LocalKms wrapper) := local_kms_reliable wrapper eq_refl.

Definition with_kms (kms : KmsProvider Database) : AppState Database := {|
  st_kms := kms; st_dek_cache := DekCache.new 300;
  st_allowlist := {| nets := [(sample_ip, 8%Z)] |}; st_trust_proxy := false;
  st_pg_targets := {| pp_hosts := []; pp_mode := Disable; pp_tls := None |};
  st_node_id := 1; st_raft := false; st_auth_max_failures := 5; st_auth_lockout_secs := 900;
  st_auth_window_secs := 300; st_token_touch_secs := 60; st_kms_rewrap_enabled := true;
  st_kms_rewrap_max_per_sec := 0 |}.

Definition state : AppState Database := with_kms (LocalKms wrapper).

#[export] Instance state_laws : KmsLaws (st_kms state) := kms_laws.
#[export] Instance state_reliable : KmsReliable (st_kms state) := kms_reliable.

(** The local provider with a key that was rotated at time 500. *)
Definition rotated_kms : KmsProvider Database := {|
  kms_generate_data_key := kms_generate_data_key (LocalKms wrapper);
  kms_decrypt_data_key := kms_decrypt_data_key (LocalKms wrapper);
  kms_reencrypt_data_key := kms_reencrypt_data_key (LocalKms wrapper);
  kms_latest_rotation_at := mret (Some 500%Z) |}.

Definition rotated_state : AppState Database := with_kms rotated_kms.

#[export] Instance rotated_laws : KmsLaws (st_kms rotated_state).
Proof.
  refine {| wraps := wraps (kms := LocalKms wrapper) |}.
  - apply wraps_unique.
  - apply wraps_length.
  - apply (generate_law (kms := LocalKms wrapper)).
  - apply (decrypt_law (kms := LocalKms wrapper)).
  - apply (reencrypt_law (kms := LocalKms wrapper)).
  - apply (generate_quiet (kms := LocalKms wrapper)).
  - apply (decrypt_quiet (kms := LocalKms wrapper)).
  - apply (reencrypt_quiet (kms := LocalKms wrapper)).
  - done.
Defined.

Definition world : World Database :=
  {| w_os := 1%N; w_store := empty_database; w_cache := ∅; w_busy := false |}.

Lemma world_holds : holds state world empty_vault.
Proof.
  split; [|split].
  - intros blob t d. simpl. by rewrite lookup_empty.
  - split; [apply abstracts_empty|apply vault_ok_empty].
  - intros name v r. simpl. by rewrite lookup_empty.
Qed.

Definition create (name : string) (kind : SecretKind) : CreateSecretRequest := {|
  cr_name := name; cr_kind := kind; cr_value := Some "s3cret"; cr_username := None; cr_password := None;
  cr_description := None; cr_rotation_interval_secs := Some 3600%Z; cr_grace_period_secs := Some 60%Z;
  cr_target := None |}.

(** The world after a secret was created. *)
Definition created : World Database * result ApiError SecretValue :=
  run_prog (create_secret state "ops" (create "db" Automatic)) world.

Lemma created_ok : is_ok created.2 = true.
Proof. vm_compute. reflexivity. Qed.
End Node.
