(* ===== verification/ServiceWitness.v ===== *)
(** * Witnesses of the service's theorems

    Each theorem applied to the node of [ServiceSamples]. *)

From S2P Require Import Prelude RustStr CoreTypes Redb Keys Model Serial Apply Spec Samples ApplyFacts.
From S2P Require Import Refine Engine Invariant StoreLaws RaftSamples Platform Crypto Kms KmsThms Cache.
From S2P Require Import ApiTypes PgApply IpAddr Guards Service Manage Routes ServiceSafe ServiceRun.
From S2P Require Import ServiceThms AccessThms RewrapThms WorkerThms ServiceSamples.
Import Node.

Lemma envelope_roundtrip_witness :
  ∃ w env, run_prog (seal_envelope (local_key_wrapper wrapper) (as_bytes "db") (as_bytes "s3cret")) world = (w, Ok env)
    ∧ open_envelope (local_key_wrapper (St := Database) wrapper) env (as_bytes "db") = Ok (as_bytes "s3cret").
Proof.
  destruct (run_prog (seal_envelope (local_key_wrapper wrapper) (as_bytes "db") (as_bytes "s3cret")) world)
    as [w r] eqn:Hrun.
  assert (is_ok r = true) as Hok.
  { change (is_ok (w, r).2 = true). rewrite <- Hrun. vm_compute. reflexivity. }
  destruct r as [env|e]; [|done]. exists w, env. split; [done|].
  exact (proj1 (envelope_roundtrip wrapper world w _ _ env eq_refl Hrun)).
Defined.

Lemma retrying_spec_witness :
  ∃ n w1, (Z.of_nat n ≤ 2)%Z ∧ attempts_fail (Throw (A := unit) (Text "down")) 0 n world w1
    ∧ Z.of_nat n = 2%Z.
Proof.
  destruct (retrying_spec (Throw (A := unit) (Text "down")) 2 world) as (n & w1 & H1 & H2 & H3 & H4 & _); [done|].
  exists n, w1. split; [done|]. split; [done|]. apply H4. reflexivity.
Defined.

Lemma world_is_ok : world_ok state world.
Proof. eapply holds_ok, world_holds. Qed.

Lemma created_holds w sv : created = (w, Ok sv) → ∃ a, holds state w a.
Proof.
  intros Hc. destruct (safe_run _ _ _ _ _ _ (safe_create_secret state "ops" (create "db" Automatic)) world_is_ok Hc)
    as [(H1 & a & H2 & H3) _]. by exists a.
Qed.

Lemma created_eq : ∃ w sv, created = (w, Ok sv).
Proof. pose proof created_ok as H. destruct created as [w [sv|e]]; [eauto|done]. Qed.

Lemma requests_keep_world_witness :
  let tasks := [Serve (GetSecret {| p_authorization := None; p_forwarded_for := None;
                                    p_connect_ip := Some (V4 sample_ip) |} "db"); RotationRounds 30 2] in
  let c := schedule [0; 1; 1; 0; 1; 1; 0] (world, map (task_prog state) tasks) in
  cache_ok state (w_cache c.1) ∧ ∃ a, view (w_store c.1) a ∧ vault_ok a ∧ vault_sealed state a.
Proof.
  intros tasks c. eapply (requests_keep_world state tasks world c.1 c.2); [by repeat constructor|exact world_is_ok|].
  rewrite <- surjective_pairing. apply schedule_interleave.
Defined.

Lemma open_version_exact_witness :
  ∃ r w', sealed state "db" 1 r (as_bytes "s3cret")
    ∧ run_prog (open_version state "db" 1 r) world = (w', Ok (as_bytes "s3cret"))
    ∧ ∃ why, open_version state "db" 2 r = Throw (Api.Internal why).
Proof.
  destruct (run_prog (seal_version state "db" 1 (as_bytes "s3cret") 0) world) as [w r] eqn:Hrun.
  assert (is_ok r = true) as Hok.
  { change (is_ok (w, r).2 = true). rewrite <- Hrun. vm_compute. reflexivity. }
  destruct r as [r|e]; [|done].
  destruct (safe_run _ _ _ _ _ _ (safe_seal_version state _ _ _ _) world_is_ok Hrun) as [_ Hq].
  destruct (Hq r eq_refl) as (_ & _ & _ & Hs).
  destruct (open_version_exact state "db" 1 r (as_bytes "s3cret") Hs) as (Hopen & _ & Hother).
  destruct (Hopen world world_is_ok) as (w' & res & Hres & [->|(e & -> & He)]);
    [|destruct (reliable_decrypts state world "db" 1 r _ e Hs He)].
  exists r, w'. split; [exact Hs|]. split; [exact Hres|]. apply Hother; [reflexivity|reflexivity| | |discriminate];
    unfold_ints; lia.
Defined.


Definition no_token : Parts :=
  {| p_authorization := None; p_forwarded_for := None; p_connect_ip := Some (V4 sample_ip) |}.

Lemma complete_mediation_witness :
  ∃ w' e a', run_prog (handle state (GetBackup no_token)) world = (w', Err e)
    ∧ (e = Api.Unauthorized ∨ e = Api.Forbidden ∨ e = Api.TooManyRequests)
    ∧ view (w_store w') a' ∧ noted empty_vault a'.
Proof. apply (complete_mediation state world empty_vault (GetBackup no_token)); [apply world_holds|reflexivity]. Defined.

Lemma lockout_blocks_witness :
  ∃ s w', run_prog (handle state (GetBackup no_token)) (set_store s world) = (w', Err Api.TooManyRequests)
    ∧ same_inside (set_store s world) w'.
Proof.
  destruct (run_act_apply (E := ApiError) (RecordAuthFailure (ip_to_string (V4 sample_ip)) 1000 1 300 900)
    world empty_vault _ (proj1 (proj2 world_holds)) I I eq_refl) as (s & _ & Hv).
  exists s. eapply (lockout_blocks state (set_store s world) _ (GetBackup no_token) (V4 sample_ip));
    [exact Hv|done|reflexivity|apply lookup_insert_eq|reflexivity|reflexivity].
Defined.

(** The number of the current version, from the store and from the vault. *)
Definition current (w : World Database) : option Z :=
  match vs_secret "db" (w_store w) with Ok secret => s_current_version <$> secret | Err _ => None end.

Lemma current_holds w a : holds state w a → current w = s_current_version <$> vault_secrets a !! "db".
Proof. intros (_ & Hv & _). unfold current. by rewrite (secret_law _ _ "db" Hv). Qed.

Definition make_due : Command := UpdateMeta "db" 1 None None None (Set_ (Some 500%Z)) 600.
Definition due_world : World Database := (run_prog (store_apply_any make_due) created.1).1.

Lemma due_holds : ∃ a, holds state due_world a.
Proof.
  destruct created_eq as (w1 & sv & Hc). destruct (created_holds _ _ Hc) as [a Hh].
  assert ((s_current_version <$> vault_secrets a !! "db") = Some 1%Z) as Hcur.
  { rewrite <- (current_holds _ _ Hh). change w1 with (w1, Ok (E := ApiError) sv).1. rewrite <- Hc.
    vm_compute. reflexivity. }
  assert (∃ a0, spec_apply store_node make_due a = Ok a0) as [a0 Ha0].
  { simpl. unfold_monad. destruct (vault_secrets a !! "db") as [s|]; [|done]. simpl in *.
    injection Hcur as ->. rewrite decide_False by tauto. eauto. }
  destruct (run_apply_any state make_due w1 a a0) as (w2 & Hr2 & Hh2 & _); [done|done|done|].
  exists a0. unfold due_world. rewrite Hc. cbn [fst]. by rewrite Hr2.
Qed.

(** The secret is due, and the worker rotates it. *)
Lemma rotation_tick_spec_witness :
  ∃ a w' a', holds state due_world a ∧ run_prog (rotation_tick state) due_world = (w', Ok tt) ∧ holds state w' a'
    ∧ (s_current_version <$> vault_secrets a !! "db") = Some 1%Z
    ∧ (s_current_version <$> vault_secrets a' !! "db") = Some 2%Z.
Proof.
  destruct due_holds as [a Hh]. destruct (rotation_tick_spec state due_world a Hh) as (w' & a' & Hrun & Hh' & _).
  exists a, w', a'. split; [done|]. split; [done|]. split; [done|].
  rewrite <- (current_holds _ _ Hh), <- (current_holds _ _ Hh'). split; [by vm_compute|].
  change w' with (w', Ok (E := cause) tt).1. rewrite <- Hrun. by vm_compute.
Defined.

Lemma rotated_holds w a : holds state w a → holds rotated_state w a.
Proof.
  intros (Hc & Hv & Hs). split; [unfold cache_ok in *; exact Hc|]. split; [exact Hv|].
  unfold vault_sealed, sealed in *. exact Hs.
Qed.

(** The key was rotated after the last pass, and the worker re-wraps. *)
Lemma rewrap_tick_spec_witness :
  ∃ w a w' r a', holds rotated_state w a ∧ watermark a = Some 100%Z
    ∧ run_prog (rewrap_tick rotated_state) w = (w', r) ∧ w_busy w' = false ∧ holds rotated_state w' a'.
Proof.
  destruct created_eq as (w1 & sv & Hc). destruct (created_holds _ _ Hc) as [a Hh%rotated_holds].
  destruct (run_persist_completed rotated_state 100 w1 a Hh) as (w2 & now & _ & Hh2 & Hb).
  destruct (rewrap_tick_spec rotated_state w2 _ Hh2) as (w3 & latest & w' & r & a' & _ & Hrun & Hb' & Hh' & _).
  - rewrite Hb. change w1 with (w1, Ok (E := ApiError) sv).1. rewrite <- Hc. by vm_compute.
  - exists w2, (completed 100 now a), w', r, a'. by split; [|split; [unfold watermark; simpl; rewrite lookup_insert_eq|]].
Defined.

Definition new_value : UpdateSecretRequest := {|
  ur_value := Some "n3w"; ur_username := None; ur_password := None; ur_description := None;
  ur_rotation_interval_secs := None; ur_grace_period_secs := None |}.

Lemma update_get_roundtrip_witness :
  ∃ w1 sv w2 md w3 sv', created = (w1, Ok sv)
    ∧ run_prog (update_secret state "ops" "db" new_value) w1 = (w2, Ok md)
    ∧ run_prog (get_secret state "db" sample_ip) w2 = (w3, Ok sv') ∧ sv_value sv' = Some "n3w".
Proof.
  destruct created_eq as (w1 & sv & Hc). destruct (created_holds _ _ Hc) as [a Hh].
  destruct (run_prog (update_secret state "ops" "db" new_value) w1) as [w2 r] eqn:Hrun.
  destruct (run_prog (get_secret state "db" sample_ip) w1) as [w0 r0] eqn:Hget.
  assert (is_ok r = true ∧ is_ok r0 = true) as [Hok Hok0].
  { split; [change (is_ok (w2, r).2 = true); rewrite <- Hrun|change (is_ok (w0, r0).2 = true); rewrite <- Hget];
      change w1 with (w1, Ok (E := ApiError) sv).1; rewrite <- Hc; vm_compute; reflexivity. }
  destruct r as [md|e]; [|done]. destruct r0 as [sv0|e]; [|done].
  destruct (update_get_roundtrip state "ops" "db" new_value sample_ip w1 w0 w2 sv0 md (holds_ok _ _ _ Hh))
    as (w3 & sv' & Hg & _ & _ & Hval & _); [|exact Hget|exact Hrun|].
  - intros value [= <-]. reflexivity.
  - by exists w1, sv, w2, md, w3, sv'.
Defined.
