(* ===== verification/RewrapRace.v ===== *)
(** * A re-wrap pass against a secret that is replaced meanwhile

    The command that stores a new wrapping names its row by secret and version
    number only.  Version numbers start again when a secret is deleted and
    created anew, so a pass that is waiting for the key service can put the
    wrapping of the old row's key on the new row. *)

From S2P Require Import Prelude RustStr CoreTypes Redb Keys Model Serial Apply Spec Samples ApplyFacts.
From S2P Require Import Refine Engine Invariant StoreLaws RaftSamples Platform Crypto Kms KmsThms Cache.
From S2P Require Import ApiTypes PgApply IpAddr Guards Service Manage Routes ServiceSafe ServiceRun.
From S2P Require Import ServiceThms ServiceSamples.
Import Node.

(** A forced pass, the deletion of the secret and its creation, as three
    concurrent requests. *)
Definition race : list (prog Database ApiError unit) :=
  [(_ ← prog_map_err Api.Internal (force rotated_state); mret tt);
   delete_secret "ops" "db";
   (_ ← create_secret rotated_state "ops" (create "db" Manual); mret tt)].

(** All actions of the pass up to the answer of the key service, then the other
    two, then the rest of the pass. *)
Definition turns : list nat := replicate 5 0 ++ replicate 10 1 ++ replicate 20 2 ++ replicate 10 0.

(** C24. Starting from a vault with one secret, a re-wrap pass, a deletion and a
    new creation of that secret can interleave so that all three succeed and the
    new secret cannot be read any more; one after the other they leave it
    readable. *)
Theorem rewrap_race_loses_secret :
  (∃ w ps, rtc interleave (created.1, race) (w, ps) ∧ forallb finished ps = true
     ∧ is_ok (run_prog (get_secret rotated_state "db" sample_ip) w).2 = false)
  ∧ let w := foldl (λ w p, (run_prog p w).1) created.1 race in
    is_ok (run_prog (get_secret rotated_state "db" sample_ip) w).2 = true.
Proof.
  split; [|vm_compute; reflexivity].
  exists (schedule turns (created.1, race)).1, (schedule turns (created.1, race)).2.
  split; [rewrite <- surjective_pairing; apply schedule_interleave|].
  split; vm_compute; reflexivity.
Qed.
