(* ===== verification/Calls.v ===== *)
(** * Programs that call their environment

    The code around the Raft engine (start-up, cluster discovery, the peer
    server, the peer client) is a sequence of calls whose answers it does not
    control.  [calls C A] is such a program over the calls [C]; [answers] says
    which runs it has against an environment that may answer anything, and
    [exec] runs it against a given one.  The file also has the ordered map the
    standard library calls [BTreeMap], with integer keys. *)

From S2P Require Import Prelude RustStr.

(** ** Programs *)

Section calls.
Context {C : Type → Type}.

Inductive calls (A : Type) : Type :=
| Done (a : A)
| Call {X : Type} (c : C X) (k : X → calls A).
Arguments Done {A} a.
Arguments Call {A X} c k.

#[export] Instance calls_ret : MRet calls := λ A a, Done a.

Fixpoint calls_bind_ {A B} (f : A → calls B) (m : calls A) : calls B :=
  match m with
  | Done a => f a
  | Call c k => Call c (λ x, calls_bind_ f (k x))
  end.
#[export] Instance calls_bind : MBind calls := λ A B f m, calls_bind_ f m.

Definition call {X} (c : C X) : calls X := Call c Done.

(** [m?] in a function that returns a [Result] *)
Definition try_bind {E A B} (f : A → calls (result E B)) (m : calls (result E A)) : calls (result E B) :=
  r ← m; match r with Ok a => f a | Err e => mret (Err e) end.

(** ** Runs *)

Record event := Event { ev_type : Type; ev_call : C ev_type; ev_answer : ev_type }.

Fixpoint answers {A} (m : calls A) (tr : list event) (a : A) : Prop :=
  match m with
  | Done b => tr = [] ∧ a = b
  | @Call _ X c k => ∃ x tr', tr = Event X c x :: tr' ∧ answers (k x) tr' a
  end.

Lemma answers_bind {A B} (m : calls A) (f : A → calls B) : ∀ tr b,
  answers (m ≫= f) tr b ↔ ∃ t1 t2 a, tr = t1 ++ t2 ∧ answers m t1 a ∧ answers (f a) t2 b.
Proof.
  induction m as [a|X c k IH]; intros tr b.
  - split; [intros H; by exists [], tr, a|]. by intros (t1 & t2 & a' & -> & [-> ->] & H).
  - split.
    + intros (x & tr' & -> & (t1 & t2 & a & -> & H1 & H2)%IH). exists (Event X c x :: t1), t2, a.
      split; [done|]. split; [|done]. by exists x, t1.
    + intros (t1 & t2 & a & -> & (x & t1' & -> & H1) & H2). exists x, (t1' ++ t2). split; [done|].
      apply IH. by exists t1', t2, a.
Qed.

Lemma answers_call {X} (c : C X) tr x : answers (call c) tr x ↔ tr = [Event X c x].
Proof. split; [by intros (y & t & -> & -> & ->)|]. intros ->. by exists x, []. Qed.

Lemma answers_ret {A} (a : A) tr b : answers (mret a) tr b ↔ tr = [] ∧ b = a.
Proof. done. Qed.

(** An answer of every type a call has: the environment can always go on. *)
Lemma answers_total {A} (m : calls A) : (∀ X (c : C X), X) → ∃ tr a, answers m tr a.
Proof.
  intros env. induction m as [a|X c k IH]; [by exists [], a|].
  destruct (IH (env X c)) as (tr & a & H). exists (Event X c (env X c) :: tr), a. by exists (env X c), tr.
Qed.

(** ** Reasoning on histories

    [wp I pre m Q]: run after the history [pre], every call of [m] satisfies [I]
    with the history at that point, and [m] ends with a history and a result
    that satisfy [Q]. *)

Fixpoint wp {A} (I : list event → event → Prop) (pre : list event) (m : calls A)
    (Q : list event → A → Prop) : Prop :=
  match m with
  | Done a => Q pre a
  | @Call _ X c k => ∀ x, I pre (Event X c x) ∧ wp I (pre ++ [Event X c x]) (k x) Q
  end.

Lemma wp_bind {A B} I (m : calls A) (f : A → calls B) Q : ∀ pre,
  wp I pre m (λ pre a, wp I pre (f a) Q) → wp I pre (m ≫= f) Q.
Proof. induction m as [a|X c k IH]; intros pre H; [done|]. intros x. destruct (H x). split; [done|]. by apply IH. Qed.

Lemma wp_mono {A} I (m : calls A) (Q R : list event → A → Prop) : ∀ pre,
  wp I pre m Q → (∀ pre' a, pre `prefix_of` pre' → Q pre' a → R pre' a) → wp I pre m R.
Proof.
  induction m as [a|X c k IH]; intros pre H HQ; [by apply HQ|]. intros x. destruct (H x) as [? Hk].
  split; [done|]. apply (IH x _ Hk). intros pre' a Hp. apply HQ. etrans; [by apply prefix_app_r|done].
Qed.

Lemma wp_call {X} I pre (c : C X) (Q : list event → X → Prop) :
  (∀ x, I pre (Event X c x) ∧ Q (pre ++ [Event X c x]) x) → wp I pre (call c) Q.
Proof. done. Qed.

Lemma wp_ret {A} I pre (a : A) (Q : list event → A → Prop) : Q pre a → wp I pre (mret a) Q.
Proof. done. Qed.

Lemma wp_sound {A} I (m : calls A) Q : ∀ pre tr a,
  wp I pre m Q → answers m tr a →
  Q (pre ++ tr) a ∧ ∀ t1 ev t2, tr = t1 ++ ev :: t2 → I (pre ++ t1) ev.
Proof.
  induction m as [b|X c k IH]; intros pre tr a H Hr.
  - destruct Hr as [-> ->]. rewrite app_nil_r. split; [done|]. by intros [] ? ?.
  - destruct Hr as (x & tr' & -> & Hr). destruct (H x) as [Hc Hk].
    destruct (IH x _ _ _ Hk Hr) as [HQ HI]. rewrite <- app_assoc in HQ. split; [done|].
    intros [|ev1 t1] ev t2 Heq; simplify_eq/=; [by rewrite app_nil_r|].
    specialize (HI t1 ev t2 eq_refl). by rewrite <- app_assoc in HI.
Qed.

(** ** Execution *)

Section exec.
Context {S : Type} (h : ∀ X, C X → S → S * X).

Fixpoint exec {A} (m : calls A) (s : S) : S * A :=
  match m with
  | Done a => (s, a)
  | @Call _ X c k => let '(s', x) := h X c s in exec (k x) s'
  end.

Lemma exec_bind {A B} (m : calls A) (f : A → calls B) : ∀ s,
  exec (m ≫= f) s = let '(s', a) := exec m s in exec (f a) s'.
Proof. induction m as [a|X c k IH]; intros s; simpl; [done|]. destruct (h X c s). apply IH. Qed.

Lemma exec_call {X} (c : C X) s : exec (call c) s = h X c s.
Proof. simpl. by destruct (h X c s). Qed.

Lemma exec_ret {A} (a : A) s : exec (mret a) s = (s, a).
Proof. done. Qed.

(** What is executed is one of the runs. *)
Lemma exec_answers {A} (m : calls A) : ∀ s, ∃ tr, answers m tr (exec m s).2.
Proof.
  induction m as [a|X c k IH]; intros s; simpl; [by exists []|].
  destruct (h X c s) as [s' x]. destruct (IH x s') as [tr H]. exists (Event X c x :: tr), x, tr. done.
Qed.

(** A program all of whose calls satisfy [P]. *)
Fixpoint only {A} (P : ∀ X, C X → Prop) (m : calls A) : Prop :=
  match m with
  | Done _ => True
  | @Call _ X c k => P X c ∧ ∀ x, only P (k x)
  end.

Lemma only_bind {A B} P (m : calls A) (f : A → calls B) :
  only P m → (∀ a, only P (f a)) → only P (m ≫= f).
Proof. induction m as [a|X c k IH]; intros Hm Hf; [apply Hf|]. destruct Hm as [Hc Hk]. split; [done|]. auto. Qed.

Lemma only_call {X} P (c : C X) : P X c → only P (call c).
Proof. by split. Qed.

Lemma exec_only {A} (P : ∀ X, C X → Prop) (R : S → S → Prop) `{!PreOrder R} (m : calls A) : ∀ s,
  (∀ X (c : C X) s, P X c → R s (h X c s).1) → only P m → R s (exec m s).1.
Proof.
  induction m as [a|X c k IH]; intros s HP Hm; simpl; [done|]. destruct Hm as [Hc Hk].
  pose proof (HP _ c s Hc) as Hs. destruct (h X c s) as [s' x]. etrans; [exact Hs|]. by apply IH.
Qed.
End exec.
End calls.
Arguments calls C A : clear implicits.
Arguments Done {C A} a.
Arguments Call {C A X} c k.
Arguments Event {C} ev_type ev_call ev_answer.
Arguments event C : clear implicits.

#[global] Arguments answers : simpl never.
#[global] Arguments exec : simpl never.
#[global] Arguments wp : simpl never.
#[global] Arguments only : simpl never.
#[global] Arguments call : simpl never.

Notation "x ←? m ; f" := (try_bind (λ x, f) m) (at level 20, m at level 100, f at level 200, right associativity).

(** Take apart the runs of a sequence of binds, calls and returns. *)
Ltac answers_inv :=
  repeat match goal with
  | H : answers (mbind _ _) _ _ |- _ => apply answers_bind in H as (? & ? & ? & -> & H & ?)
  | H : answers (try_bind _ _) _ _ |- _ => unfold try_bind in H
  | H : answers (call _) _ _ |- _ => apply answers_call in H as ->
  | H : answers (mret _) _ _ |- _ => apply answers_ret in H as [-> ->]
  | H : answers (Done _) _ _ |- _ => destruct H as [-> ->]
  end.

(** Step through a sequence of binds, calls and returns. *)
Ltac wp_step :=
  match goal with
  | |- wp _ _ (mbind _ _) _ => apply wp_bind
  | |- wp _ _ (try_bind _ _) _ => unfold try_bind
  | |- wp _ _ (call _) _ => apply wp_call; intros ?; split; [try done|]
  | |- wp _ _ (mret _) _ => apply wp_ret
  end.

(** ** std::collections::BTreeMap with integer keys

    The entries in ascending order of their keys. *)

Notation BTreeMap A := (list (Z * A)).

Section btree.
Context {A : Type}.
Implicit Types (m : BTreeMap A).

Fixpoint btree_insert (k : Z) (v : A) m : BTreeMap A :=
  match m with
  | [] => [(k, v)]
  | (k', v') :: m' =>
      if (k <? k')%Z then (k, v) :: m
      else if (k =? k')%Z then (k, v) :: m'
      else (k', v') :: btree_insert k v m'
  end.

Fixpoint btree_get (k : Z) m : option A :=
  match m with
  | [] => None
  | (k', v) :: m => if (k =? k')%Z then Some v else btree_get k m
  end.

Definition btree_ok m : Prop := StronglySorted Z.lt m.*1.

Lemma btree_get_insert k v m k' :
  btree_get k' (btree_insert k v m) = if (k' =? k)%Z then Some v else btree_get k' m.
Proof.
  induction m as [|[k1 v1] m IH]; simpl; [done|].
  destruct (Z.ltb_spec k k1), (Z.eqb_spec k k1); simpl; subst; try lia; try done.
  - by destruct (Z.eqb_spec k' k1).
  - rewrite IH. destruct (Z.eqb_spec k' k1), (Z.eqb_spec k' k); subst; lia || done.
Qed.

Lemma btree_insert_keys k v m j : j ∈ (btree_insert k v m).*1 ↔ j = k ∨ j ∈ m.*1.
Proof.
  induction m as [|[k1 v1] m IH]; simpl; [set_solver|].
  destruct (Z.ltb_spec k k1); [set_solver|]. destruct (Z.eqb_spec k k1); [set_solver|].
  simpl. rewrite elem_of_cons, IH. set_solver.
Qed.

Lemma btree_insert_ok k v m : btree_ok m → btree_ok (btree_insert k v m).
Proof.
  unfold btree_ok. induction m as [|[k1 v1] m IH]; simpl; intros Hm; [repeat constructor|].
  apply StronglySorted_inv in Hm as [Hm Hall].
  destruct (Z.ltb_spec k k1); [|destruct (Z.eqb_spec k k1) as [->|]]; simpl.
  - constructor; [by constructor|]. constructor; [done|]. eapply Forall_impl; [done|]. simpl. lia.
  - by constructor.
  - constructor; [by apply IH|]. apply Forall_forall. intros j [->|Hj]%btree_insert_keys; [lia|].
    by apply (proj1 (Forall_forall _ _) Hall).
Qed.

Lemma btree_get_elem k v m : btree_ok m → btree_get k m = Some v ↔ (k, v) ∈ m.
Proof.
  unfold btree_ok. induction m as [|[k1 v1] m IH]; simpl; intros Hm; [set_solver|].
  apply StronglySorted_inv in Hm as [Hm Hall]. destruct (Z.eqb_spec k k1) as [->|].
  - split; [intros [= ->]; set_solver|]. intros [[= ->]|Hin]%elem_of_cons; [done|].
    apply (list_elem_of_fmap_2 fst) in Hin. pose proof (proj1 (Forall_forall _ _) Hall _ Hin). simpl in *. lia.
  - rewrite IH by done. set_solver.
Qed.

Lemma btree_insert_absent k v m :
  k ∉ m.*1 → ∃ m1 m2, m = m1 ++ m2 ∧ btree_insert k v m = m1 ++ (k, v) :: m2.
Proof.
  induction m as [|[k1 v1] m IH]; simpl; intros Hk; [by exists [], []|].
  destruct (Z.ltb_spec k k1); [by exists [], ((k1, v1) :: m)|].
  destruct (Z.eqb_spec k k1) as [->|]; [set_solver|].
  destruct IH as (m1 & m2 & -> & ->); [set_solver|]. by exists ((k1, v1) :: m1), m2.
Qed.
End btree.
