(* ===== verification/Peer.v ===== *)
(** * The peer protocol

    Models [raft/peer.rs] (the cluster credential and the check of a peer's
    address), [raft/server.rs] (the HTTP server the other nodes call) and
    [raft/network.rs] (the client the Raft engine calls them with).

    openraft's requests and responses are opaque but for the vote a request
    carries; its engine, the HTTP client, the resolver and the shared set of
    resolved addresses are calls of the node to its environment. *)

From S2P Require Import Prelude RustStr CoreTypes Redb Keys Model Apply Engine RaftStore Platform Crypto IpAddr.
From S2P Require Import ApiTypes Calls.

#[global] Instance Ipv4Addr_countable : Countable Ipv4Addr.
Proof.
  refine (inj_countable' (λ a, (oct1 a, oct2 a, oct3 a, oct4 a))
    (λ '(a, b, c, d), {| oct1 := a; oct2 := b; oct3 := c; oct4 := d |}) _).
  by intros [].
Defined.
#[global] Instance IpAddr_countable : Countable IpAddr.
Proof.
  refine (inj_countable' (λ a, match a with V4 a => inl a | V6 s => inr s end)
    (λ s, match s with inl a => V4 a | inr s => V6 s end) _).
  by intros [].
Defined.

(** ** openraft's messages *)

(** Why [client_write] fails: this node is not the leader, or anything else,
    with its text. *)
Inductive WriteError := ForwardToLeader (leader_node : option string) | WriteFailed (text : string).

Class RaftRpc `{RT : !RaftTypes} := {
  vote_committed : Vote → bool;
  voted_for : Vote → option Z;
  AppendEntriesRequest : Type;
  append_vote : AppendEntriesRequest → Vote;
  InstallSnapshotRequest : Type;
  install_vote : InstallSnapshotRequest → Vote;
  VoteRequest : Type;
  vote_vote : VoteRequest → Vote;
  AppendEntriesResponse : Type;
  InstallSnapshotResponse : Type;
  VoteResponse : Type;
  RaftError : Type;
  RaftInstallError : Type;
  display_write_error : WriteError → string;
}.

(** What the peers exchange as JSON. *)
Class PeerSerde `{RT : !RaftTypes, RR : !RaftRpc} := {
  serde_bool :: Serde bool;
  serde_command :: Serde Command;
  serde_apply_result :: Serde ApplyResult;
  serde_append_request :: Serde AppendEntriesRequest;
  serde_install_request :: Serde InstallSnapshotRequest;
  serde_vote_request :: Serde VoteRequest;
  serde_append_result :: Serde (result RaftError AppendEntriesResponse);
  serde_install_result :: Serde (result RaftInstallError InstallSnapshotResponse);
  serde_vote_result :: Serde (result RaftError VoteResponse);
}.

Class PeerSerdeLaws `{!RaftTypes, !RaftRpc, !PeerSerde} : Prop := {
  serde_bool_ok :: SerdeLaws bool;
  serde_command_ok :: SerdeLaws Command;
  serde_apply_result_ok :: SerdeLaws ApplyResult;
  serde_append_request_ok :: SerdeLaws AppendEntriesRequest;
  serde_install_request_ok :: SerdeLaws InstallSnapshotRequest;
  serde_vote_request_ok :: SerdeLaws VoteRequest;
  serde_append_result_ok :: SerdeLaws (result RaftError AppendEntriesResponse);
  serde_install_result_ok :: SerdeLaws (result RaftInstallError InstallSnapshotResponse);
  serde_vote_result_ok :: SerdeLaws (result RaftError VoteResponse);
}.

(** The status axum's [Json] extractor answers a body it cannot decode with. *)
Class Axum := rejection_status : bytes → Z.
Class AxumLaws `{!Axum} : Prop := rejection_client_error b : (400 ≤ rejection_status b < 500)%Z.

(** ** HTTP *)

Inductive HttpMethod := GET | POST.

Record HttpRequest := {
  rq_method : HttpMethod;
  rq_url : string;
  rq_authorization : option string;
  rq_timeout_secs : option Z;
  rq_body : bytes;
}.

(** A status and the body, which may fail to arrive. *)
Record HttpResponse := { rs_status : Z; rs_body : result string bytes }.

Definition is_success (status : Z) : bool := (200 <=? status)%Z && (status <? 300)%Z.

(** How a lookup of a host under a timeout ends. *)
Inductive Lookup := Resolved (addrs : list (IpAddr * Z)) | LookupFailed (err : string) | LookupTimedOut.

(** The engine's settings, as far as the vault sets them. *)
Record RaftConfig := {
  heartbeat_interval : Z;
  election_timeout_min : Z;
  election_timeout_max : Z;
  max_payload_entries : Z;
  snapshot_max_chunk_size : Z;
}.

(** ** The calls of a node *)

Section peer.
Context `{RE : !Redb, RT : !RaftTypes, RR : !RaftRpc}.

Inductive node_call : Type → Type :=
| LookupHost (host : string) (timeout_secs : Z) : node_call Lookup
| ReadResolved : node_call (gset IpAddr)
| WriteResolved (addrs : gset IpAddr) : node_call unit
| Send (request : HttpRequest) : node_call (result string HttpResponse)
| Sleep (secs : Z) : node_call unit
| ValidateConfig (config : RaftConfig) : node_call (result string unit)
| RaftNew (node_id : Z) (config : RaftConfig) : node_call (result string unit)
| IsInitialized : node_call (result string bool)
| Initialize (members : BTreeMap string) : node_call (result string unit)
| ClientWrite (command : Command) : node_call (result WriteError ApplyResult)
| AppendEntries (rpc : AppendEntriesRequest) : node_call (result RaftError AppendEntriesResponse)
| InstallSnapshot (rpc : InstallSnapshotRequest) : node_call (result RaftInstallError InstallSnapshotResponse)
| CastVote (rpc : VoteRequest) : node_call (result RaftError VoteResponse)
| InitRaftTables : node_call (result cause unit)
| NormalizeRaftLog : node_call (result cause unit)
| ResetRaftState : node_call (result cause unit)
| LocalRead {X} (f : Database → X) : node_call X
| LocalApply (command : Command) : node_call (StoreResult unit).

Notation node := (calls node_call).

(** ** peer.rs *)

Section auth.
Context `{CC : !CryptoCrates}.

Record PeerAuth := {
  pa_header : option string;
  pa_fingerprint : option bytes;
  pa_required : bool;
}.

Definition peer_auth_new (token : option string) (required : bool) : result cause PeerAuth :=
  if required && negb (bool_decide (is_Some token))
  then Err (Text "VAULT_CLUSTER_AUTH_REQUIRED=true needs VAULT_CLUSTER_TOKEN to be set")
  else Ok {| pa_header := (λ token, "Bearer " +:+ token) <$> token;
             pa_fingerprint := fingerprint <$> token;
             pa_required := required |}.

Definition peer_auth_disabled : PeerAuth :=
  {| pa_header := None; pa_fingerprint := None; pa_required := false |}.

Definition configured (auth : PeerAuth) : bool := bool_decide (is_Some (pa_fingerprint auth)).

Definition accepts (auth : PeerAuth) (presented : option string) : bool :=
  match pa_fingerprint auth with
  | None => true
  | Some expected =>
      let presented :=
        value ← presented;
        match strip_prefix "Bearer " value with
        | Some token => Some token
        | None => strip_prefix "bearer " value
        end in
      match presented with
      | Some token => verify (trim token) expected
      | None => negb (pa_required auth)
      end
  end.
End auth.

Definition RESOLVE_TIMEOUT_SECS : Z := 2.

(** The set of resolved addresses is behind a lock: [ReadResolved] and
    [WriteResolved]. *)
Record PeerAddrs := {
  pd_enabled : bool;
  pd_ids : list Z;
  pd_hosts : list string;
}.

(** A host that does not resolve is logged and skipped. *)
Fixpoint resolve_into (out : gset IpAddr) (hosts : list string) : node (gset IpAddr) :=
  match hosts with
  | [] => mret out
  | host :: hosts =>
      found ← call (LookupHost host RESOLVE_TIMEOUT_SECS);
      match found with
      | Resolved addrs => resolve_into (out ∪ list_to_set addrs.*1) hosts
      | LookupFailed _ | LookupTimedOut => resolve_into out hosts
      end
  end.
Definition resolve (hosts : list string) : node (gset IpAddr) := resolve_into ∅ hosts.

Definition peer_addrs_new (enabled : bool) (peers : BTreeMap string) : node PeerAddrs :=
  let hosts := peers.*2 in
  resolved ← resolve hosts;
  call (WriteResolved resolved) ;;
  mret {| pd_enabled := enabled; pd_ids := peers.*1; pd_hosts := hosts |}.

Definition resolved_len : node nat := resolved ← call ReadResolved; mret (size resolved).

Definition peers_allow (peers : PeerAddrs) (ip : IpAddr) : node bool :=
  if negb (pd_enabled peers) then mret true else
  resolved ← call ReadResolved;
  if bool_decide (ip ∈ resolved) then mret true else
  fresh ← resolve (pd_hosts peers);
  let allowed := bool_decide (ip ∈ fresh) in
  call (WriteResolved fresh) ;;
  mret allowed.

Definition allows_leader (peers : PeerAddrs) (vote : Vote) : bool :=
  match voted_for vote with
  | Some id => bool_decide (id ∈ pd_ids peers)
  | None => true
  end.

(** ** server.rs *)

Section server.
Context `{CC : !CryptoCrates, PS : !PeerSerde, AX : !Axum}.

Record ServerState := { ss_auth : PeerAuth; ss_peers : PeerAddrs }.

(** What the HTTP crates make of a request to one of the five routes. *)
Inductive RaftRoute := RouteAppend | RouteSnapshot | RouteVote | RouteApply | RouteInitialized.
Record RaftRequest := {
  rr_route : RaftRoute;
  rr_source : option IpAddr;
  rr_authorization : option string;
  rr_body : bytes;
}.

Record Response := { resp_status : Z; resp_body : bytes }.

Definition status_response (status : Z) : Response := {| resp_status := status; resp_body := [] |}.

(** axum's [Json] as a response *)
Definition json_response {A} `{!Serde A} (a : A) : Response :=
  match to_vec a with
  | Some bs => {| resp_status := 200; resp_body := bs |}
  | None => status_response 500
  end.

(** ... and as an extractor, under [DefaultBodyLimit].  axum also refuses a body
    that is not announced as JSON: here every body counts as announced, so the
    model lets through whatever the code does, and more. *)
Definition with_json {A} `{!Serde A} (body : bytes) (f : A → node Response) : node Response :=
  if (RPC_BODY_LIMIT <? Z.of_nat (length body))%Z then mret (status_response 413) else
  match from_slice body with
  | Some a => f a
  | None => mret (status_response (rejection_status body))
  end.

Definition uncommitted_vote : Response := status_response 400.
Definition unknown_leader : Response := status_response 403.

Definition serve_append (state : ServerState) (rpc : AppendEntriesRequest) : node Response :=
  if negb (allows_leader (ss_peers state) (append_vote rpc)) then mret unknown_leader else
  if negb (vote_committed (append_vote rpc)) then mret uncommitted_vote else
  r ← call (AppendEntries rpc); mret (json_response r).

Definition serve_snapshot (state : ServerState) (rpc : InstallSnapshotRequest) : node Response :=
  if negb (allows_leader (ss_peers state) (install_vote rpc)) then mret unknown_leader else
  if negb (vote_committed (install_vote rpc)) then mret uncommitted_vote else
  r ← call (InstallSnapshot rpc); mret (json_response r).

Definition serve_vote (state : ServerState) (rpc : VoteRequest) : node Response :=
  if negb (allows_leader (ss_peers state) (vote_vote rpc)) then mret unknown_leader else
  r ← call (CastVote rpc); mret (json_response r).

Definition serve_apply (command : Command) : node Response :=
  r ← call (ClientWrite command);
  mret match r with
       | Ok response => json_response response
       | Err err => {| resp_status := 503; resp_body := as_bytes (display_write_error err) |}
       end.

Definition serve_initialized : node Response :=
  r ← call IsInitialized;
  mret (json_response (match r with Ok value => value | Err _ => false end)).

Definition route (state : ServerState) (request : RaftRequest) : node Response :=
  let body := rr_body request in
  match rr_route request with
  | RouteAppend => with_json body (serve_append state)
  | RouteSnapshot => with_json body (serve_snapshot state)
  | RouteVote => with_json body (serve_vote state)
  | RouteApply => with_json body serve_apply
  | RouteInitialized => serve_initialized
  end.

Definition source_allowed (state : ServerState) (request : RaftRequest) : node bool :=
  if pd_enabled (ss_peers state)
  then match rr_source request with
       | Some ip => peers_allow (ss_peers state) ip
       | None => mret false
       end
  else mret true.

Definition guard (state : ServerState) (request : RaftRequest) (next : node Response) : node Response :=
  allowed ← source_allowed state request;
  if negb allowed then mret (status_response 403) else
  if negb (accepts (ss_auth state) (rr_authorization request)) then mret (status_response 401) else
  next.

Definition raft_router (state : ServerState) (request : RaftRequest) : node Response :=
  guard state request (route state request).
End server.

(** ** network.rs *)

Section network.
Context `{PS : !PeerSerde}.

Inductive RpcFailure (E : Type) :=
| NetworkFailure (err : string)
| StatusFailure (url : string) (status : Z) (body : bytes)
| RemoteFailure (target : Z) (err : E).
Arguments NetworkFailure {E} err.
Arguments StatusFailure {E} url status body.
Arguments RemoteFailure {E} target err.

Record NetworkConnection := { nc_auth : PeerAuth; nc_target : Z; nc_addr : string }.

Definition new_client (auth : PeerAuth) (target : Z) (addr : string) : NetworkConnection :=
  {| nc_auth := auth; nc_target := target; nc_addr := addr |}.

(** The JSON body of a request; [Err] when it cannot be written. *)
Definition post_json {A} `{!Serde A} (url : string) (auth : PeerAuth) (body : A) : node (result string HttpResponse) :=
  match to_vec body with
  | Some bs => call (Send {| rq_method := POST; rq_url := url; rq_authorization := pa_header auth;
                             rq_timeout_secs := None; rq_body := bs |})
  | None => mret (Err "serialize request body")
  end.

Definition rpc {Req Resp E} `{!Serde Req, !Serde (result E Resp)} (conn : NetworkConnection)
    (path : string) (req : Req) : node (result (RpcFailure E) Resp) :=
  let url := "http://" +:+ nc_addr conn +:+ "/" +:+ path in
  sent ← post_json url (nc_auth conn) req;
  mret (response ← map_err NetworkFailure sent;
        bs ← map_err NetworkFailure (rs_body response);
        if negb (is_success (rs_status response)) then Err (StatusFailure url (rs_status response) bs) else
        r ← ok_or (NetworkFailure "decode response") (from_slice (A := result E Resp) bs);
        map_err (RemoteFailure (nc_target conn)) r).

Definition client_append_entries (conn : NetworkConnection) (req : AppendEntriesRequest)
    : node (result (RpcFailure RaftError) AppendEntriesResponse) := rpc conn "raft/append" req.
Definition client_install_snapshot (conn : NetworkConnection) (req : InstallSnapshotRequest)
    : node (result (RpcFailure RaftInstallError) InstallSnapshotResponse) := rpc conn "raft/snapshot" req.
Definition client_vote (conn : NetworkConnection) (req : VoteRequest)
    : node (result (RpcFailure RaftError) VoteResponse) := rpc conn "raft/vote" req.
End network.
End peer.
Notation node := (calls node_call).
Arguments NetworkFailure {E} err.
Arguments StatusFailure {E} url status body.
Arguments RemoteFailure {E} target err.
