(* ===== verification/RaftNode.v ===== *)
(** * Starting and using a Raft node

    Models [raft/node.rs]: opening the local Raft state, bootstrapping a
    cluster, and the store of a clustered node, which reads locally and sends
    writes through the Raft log, to the leader if need be. *)

From S2P Require Import Prelude RustStr CoreTypes Redb Keys Model Apply Engine RaftStore Platform Crypto IpAddr.
From S2P Require Import ApiTypes Calls Peer.

Section node.
Context `{RE : !Redb, SE : !StoreSerde, RT : !RaftTypes, RR : !RaftRpc, PS : !PeerSerde}.

(** The engine and the local store are behind the calls. *)
Record RaftNode := {
  rn_peers : BTreeMap string;
  rn_node_id : Z;
  rn_auth : PeerAuth;
}.

(** ** Discovery *)

Definition probe_request (auth : PeerAuth) (addr : string) : HttpRequest := {|
  rq_method := GET; rq_url := "http://" +:+ addr +:+ "/raft/initialized";
  rq_authorization := pa_header auth; rq_timeout_secs := Some 2%Z; rq_body := [] |}.

Definition probe_answer (sent : result string HttpResponse) : option bool :=
  match sent with
  | Ok resp =>
      if is_success (rs_status resp)
      then bs ← to_option (rs_body resp); from_slice (A := bool) bs
      else None
  | Err _ => None
  end.

Definition probe_peer_initialized (auth : PeerAuth) (addr : string) : node (option bool) :=
  sent ← call (Send (probe_request auth addr)); mret (probe_answer sent).

Definition other_peers (peers : BTreeMap string) (self_id : Z) : BTreeMap string :=
  filter (λ peer, peer.1 ≠ self_id) peers.

Fixpoint any_initialized (auth : PeerAuth) (peers : BTreeMap string) : node bool :=
  match peers with
  | [] => mret false
  | (_, addr) :: peers =>
      answer ← probe_peer_initialized auth addr;
      if bool_decide (answer = Some true) then mret true else any_initialized auth peers
  end.

Definition any_peer_initialized (auth : PeerAuth) (peers : BTreeMap string) (self_id : Z) : node bool :=
  any_initialized auth (other_peers peers self_id).

(** One attempt: [None] when a peer reports a cluster, else whether any peer
    answered. *)
Fixpoint probe_round (auth : PeerAuth) (others : BTreeMap string) (reached_any : bool) : node (option bool) :=
  match others with
  | [] => mret (Some reached_any)
  | (_, addr) :: others =>
      answer ← probe_peer_initialized auth addr;
      match answer with
      | Some true => mret None
      | Some false => probe_round auth others true
      | None => probe_round auth others reached_any
      end
  end.

Fixpoint discover (auth : PeerAuth) (others : BTreeMap string) (attempts : nat) : node bool :=
  match attempts with
  | O => mret true
  | S attempts =>
      round ← probe_round auth others false;
      match round with
      | None => mret true
      | Some true => mret false
      | Some false => call (Sleep 2) ;; discover auth others attempts
      end
  end.

Definition DISCOVERY_ATTEMPTS : nat := 10.

Definition cluster_already_running (n : RaftNode) : node bool :=
  let others := other_peers (rn_peers n) (rn_node_id n) in
  if bool_decide (others = []) then mret false else discover (rn_auth n) others DISCOVERY_ATTEMPTS.

(** ** Start-up *)

Definition MAX_PAYLOAD_ENTRIES : Z := 16.
Definition SNAPSHOT_MAX_CHUNK_SIZE : Z := 256 * 1024.

Definition node_config : RaftConfig := {|
  heartbeat_interval := 500; election_timeout_min := 1500; election_timeout_max := 3000;
  max_payload_entries := MAX_PAYLOAD_ENTRIES; snapshot_max_chunk_size := SNAPSHOT_MAX_CHUNK_SIZE |}.

Definition build_raft (node_id : Z) (config : RaftConfig) : node (result cause unit) :=
  r ← call (RaftNew node_id config);
  mret (map_err (λ e, Context "construct raft node" (Text e)) r).

(** [.context(what)] on the result of a call *)
Definition with_context {A} (what : string) (r : result cause A) : result cause A := map_err (Context what) r.

Definition rejoin_possible (node_id : Z) (peers : BTreeMap string) (auth : PeerAuth) : node bool :=
  if decide (1 < length peers) then any_peer_initialized auth peers node_id else mret false.

Definition reset_state : node (result cause unit) :=
  r ← call ResetRaftState; mret (with_context "reset raft state" r).

(** Metadata that cannot be read is discarded when a peer can provide it. *)
Definition repair_log (node_id : Z) (peers : BTreeMap string) (auth : PeerAuth) : node (result cause unit) :=
  normalized ← call NormalizeRaftLog;
  match normalized with
  | Ok _ => mret (Ok tt)
  | Err err =>
      rejoin ← rejoin_possible node_id peers auth;
      if (rejoin : bool) then reset_state else mret (Err (Context "normalize raft log" err))
  end.

Definition construct (node_id : Z) (peers : BTreeMap string) (auth : PeerAuth) : node (result cause unit) :=
  built ← build_raft node_id node_config;
  match built with
  | Ok _ => mret (Ok tt)
  | Err err =>
      rejoin ← rejoin_possible node_id peers auth;
      if (rejoin : bool)
      then _ ←? reset_state;
           r ← build_raft node_id node_config;
           mret (with_context "failed to construct raft node after reset" r)
      else mret (Err (Context "failed to construct raft node" err))
  end.

Definition start (node_id : Z) (peers : BTreeMap string) (auth : PeerAuth) : node (result cause RaftNode) :=
  _ ←? (r ← call (ValidateConfig node_config); mret (with_context "invalid raft config" (map_err Text r)));
  _ ←? (r ← call InitRaftTables; mret (with_context "init raft tables" r));
  _ ←? repair_log node_id peers auth;
  _ ←? construct node_id peers auth;
  mret (Ok {| rn_peers := peers; rn_node_id := node_id; rn_auth := auth |}).

(** A failed [initialize] is logged and skipped. *)
Definition bootstrap (n : RaftNode) : node (result cause unit) :=
  initialized ←? (r ← call IsInitialized;
                  mret (map_err (λ e, Context "raft is_initialized check failed" (Text e)) r));
  if (initialized : bool) then mret (Ok tt) else
  let lowest := default (rn_node_id n) (head (rn_peers n).*1) in
  if negb (rn_node_id n =? lowest)%Z then mret (Ok tt) else
  running ← cluster_already_running n;
  if (running : bool) then mret (Ok tt) else
  _ ← call (Initialize (rn_peers n));
  mret (Ok tt).

(** ** Writing through the log *)

Definition outcome_to_result (outcome : ApplyResult) : StoreResult unit :=
  match outcome with
  | ApplyOk => Ok tt
  | ApplyNotFound => Err NotFound
  | ApplyConflict msg => Err (Conflict msg)
  | ApplyVersionConflict => Err VersionConflict
  end.

Definition leader_rejected (status : Z) (body : bytes) : StoreError :=
  Internal (Context ("leader rejected write (" +:+ int_to_string status +:+ ")")
    (Text (String.string_of_list_byte body))).

Definition forward (n : RaftNode) (addr : string) (command : Command) : node (StoreResult unit) :=
  let url := "http://" +:+ addr +:+ "/raft/apply" in
  sent ← post_json url (rn_auth n) command;
  mret match sent with
       | Err e => Err (Internal (Text e))
       | Ok response =>
           if is_success (rs_status response)
           then bs ← map_err (λ e, Internal (Text e)) (rs_body response);
                outcome ← ok_or (Internal (Text "decode response")) (from_slice (A := ApplyResult) bs);
                outcome_to_result outcome
           else Err (leader_rejected (rs_status response)
                       (match rs_body response with Ok bs => bs | Err _ => [] end))
       end.

Definition write (n : RaftNode) (command : Command) : node (StoreResult unit) :=
  r ← call (ClientWrite command);
  match r with
  | Ok outcome => mret (outcome_to_result outcome)
  | Err (ForwardToLeader (Some addr)) => forward n addr command
  | Err (ForwardToLeader None) => mret (Err (Internal (Text "no raft leader currently available")))
  | Err (WriteFailed err) => mret (Err (Internal (Context "raft write failed" (Text err))))
  end.

(** ** The store of a clustered node *)

(** Every read is the local store's. *)
Definition cluster_read {X} (f : Database → StoreResult X) : node (StoreResult X) := call (LocalRead f).

Definition cluster_secret (name : string) := cluster_read (RedbStore.secret name).
Definition cluster_current_version (name : string) := cluster_read (RedbStore.current_version name).
Definition cluster_version (name : string) (version : Z) := cluster_read (RedbStore.version name version).
Definition cluster_live_versions (name : string) (now : Z) := cluster_read (RedbStore.live_versions name now).
Definition cluster_list_secrets := cluster_read RedbStore.list_secrets.
Definition cluster_due_rotations (now : Z) := cluster_read (RedbStore.due_rotations now).
Definition cluster_role (name : string) := cluster_read (RedbStore.role name).
Definition cluster_list_roles := cluster_read RedbStore.list_roles.
Definition cluster_token_by_fingerprint (fp : bytes) := cluster_read (RedbStore.token_by_fingerprint fp).
Definition cluster_list_tokens := cluster_read RedbStore.list_tokens.
Definition cluster_lockout (ip : string) := cluster_read (RedbStore.lockout ip).
Definition cluster_kms_rewrap_state := cluster_read RedbStore.kms_rewrap_state.
Definition cluster_dump := cluster_read RedbStore.dump.

Definition cluster_apply (n : RaftNode) (command : Command) : node (StoreResult unit) :=
  if is_local command then call (LocalApply command) else write n command.

Definition cluster_restore (n : RaftNode) (data : BackupData) : node (StoreResult unit) :=
  write n (RestoreDatabase data).
End node.
