(* ===== verification/NodeThms.v ===== *)
(** * Theorems on starting a node

    For every run against an environment that may answer anything: when a node
    creates a cluster, when it discards its Raft state, and how long discovery
    lasts. *)

From S2P Require Import Prelude RustStr CoreTypes Redb Keys Model Apply Engine RaftStore Platform Crypto IpAddr.
From S2P Require Import ApiTypes Calls Peer RaftNode.

Section events.
Context `{RE : !Redb, RT : !RaftTypes, RR : !RaftRpc, PS : !PeerSerde}.

(** What a peer asked whether it is initialized answered. *)
Definition reports (ev : event node_call) : option bool :=
  match ev with
  | Event X c x =>
      match c in node_call X return X → option bool with
      | Send _ => probe_answer
      | _ => λ _, None
      end x
  end.

Definition initializes (ev : event node_call) : option (BTreeMap string) :=
  match ev_call ev with Initialize members => Some members | _ => None end.

Definition init_answer (ev : event node_call) : option (result string bool) :=
  match ev with
  | Event X c x =>
      match c in node_call X return X → option (result string bool) with
      | IsInitialized => Some
      | _ => λ _, None
      end x
  end.

Definition resets (ev : event node_call) : bool :=
  match ev_call ev with ResetRaftState => true | _ => false end.

(** The local Raft state turned out to be unreadable. *)
Definition unreadable (ev : event node_call) : bool :=
  match ev with
  | Event X c x =>
      match c in node_call X return X → bool with
      | NormalizeRaftLog => λ r, negb (is_ok r)
      | RaftNew _ _ => λ r, negb (is_ok r)
      | _ => λ _, false
      end x
  end.

Definition asked (auth : PeerAuth) (peer : Z * string) (ev : event node_call) : Prop :=
  ∃ sent, ev = Event _ (Send (probe_request auth peer.2)) sent.

(** A round of discovery in which every other peer was asked, none reported a
    cluster and some answered that it has none. *)
Definition clear_round (auth : PeerAuth) (others : BTreeMap string) (round : list (event node_call)) : Prop :=
  Forall2 (asked auth) others round
  ∧ Forall (λ ev, reports ev ≠ Some true) round
  ∧ Exists (λ ev, reports ev = Some false) round.

(** ** Discovery *)

Lemma probe_run auth addr tr a :
  answers (probe_peer_initialized auth addr) tr a →
  ∃ sent, tr = [Event _ (Send (probe_request auth addr)) sent] ∧ a = probe_answer sent.
Proof. intros H. unfold probe_peer_initialized in H. answers_inv. eauto. Qed.

Lemma round_run auth others : ∀ reached tr out,
  answers (probe_round auth others reached) tr out →
  length tr ≤ length others ∧ Forall (λ ev, initializes ev = None) tr
  ∧ match out with
    | None => Exists (λ ev, reports ev = Some true) tr
    | Some b => Forall2 (asked auth) others tr ∧ Forall (λ ev, reports ev ≠ Some true) tr
                ∧ (if b then reached = true ∨ Exists (λ ev, reports ev = Some false) tr
                   else reached = false ∧ Forall (λ ev, reports ev = None) tr)
    end.
Proof.
  induction others as [|[id addr] others IH]; intros reached tr out H; cbn [probe_round] in H.
  { answers_inv. repeat split; try constructor; destruct reached; auto. }
  apply answers_bind in H as (t1 & t2 & a & -> & (sent & -> & ->)%probe_run & H).
  destruct (probe_answer sent) as [[]|] eqn:Ha.
  - answers_inv. simpl. split; [lia|]. split; [by repeat constructor|]. by constructor.
  - destruct (IH _ _ _ H) as (Hlen & Hin & Hout). simpl. split; [lia|]. split; [by constructor|].
    destruct out as [[]|]; [|naive_solver|by constructor 2]. destruct Hout as (H2 & H3 & H4).
    split; [constructor; [by exists sent|done]|]. split; [constructor; [simpl; by rewrite Ha|done]|].
    right. by constructor.
  - destruct (IH _ _ _ H) as (Hlen & Hin & Hout). simpl. split; [lia|]. split; [by constructor|].
    destruct out as [b|]; [|by constructor 2]. destruct Hout as (H2 & H3 & H4).
    split; [constructor; [by exists sent|done]|]. split; [constructor; [simpl; by rewrite Ha|done]|].
    destruct b; [destruct H4; [by left|right; by constructor 2]|].
    destruct H4. split; [done|by constructor].
Qed.

Lemma discover_run auth others k : ∀ tr b,
  answers (discover auth others k) tr b →
  length tr ≤ k * S (length others) ∧ Forall (λ ev, initializes ev = None) tr
  ∧ if b then Exists (λ ev, reports ev = Some true) tr ∨ Forall (λ ev, reports ev = None) tr
    else ∃ pre round, tr = pre ++ round ∧ clear_round auth others round
           ∧ Forall (λ ev, reports ev ≠ Some true) pre.
Proof.
  induction k as [|k IH]; intros tr b H; cbn [discover] in H.
  { answers_inv. repeat split; [simpl; lia|constructor|by right]. }
  apply answers_bind in H as (t1 & t2 & out & -> & (Hl & Hi & Hout)%round_run & H).
  rewrite length_app. destruct out as [[]|].
  - answers_inv. rewrite app_nil_r. simpl. split; [lia|]. split; [done|].
    destruct Hout as (H1 & H2 & [?|H3]); [done|]. by exists [], t1.
  - apply answers_bind in H as (t3 & t4 & [] & -> & ->%answers_call & H).
    destruct (IH _ _ H) as (Hl' & Hi' & Hb). simpl. split; [lia|].
    split; [apply Forall_app; split; [done|by constructor]|]. destruct Hout as (H1 & H2 & _ & H3).
    destruct b.
    + destruct Hb as [Hb|Hb]; [left|right].
      * apply Exists_app. right. by constructor 2.
      * apply Forall_app. split; [done|]. by constructor.
    + destruct Hb as (pre & round & -> & Hr & Hp). exists (t1 ++ Event _ (Sleep 2) () :: pre), round.
      rewrite <- app_assoc. split; [done|]. split; [done|]. apply Forall_app. split; [done|]. by constructor.
  - answers_inv. rewrite app_nil_r. simpl. split; [lia|]. split; [done|]. by left.
Qed.

Lemma running_run n tr b :
  answers (cluster_already_running n) tr b →
  let others := other_peers (rn_peers n) (rn_node_id n) in
  length tr ≤ 10 * S (length others) ∧ Forall (λ ev, initializes ev = None) tr
  ∧ if b
    then others ≠ [] ∧ (Exists (λ ev, reports ev = Some true) tr ∨ Forall (λ ev, reports ev = None) tr)
    else others = [] ∧ tr = []
         ∨ ∃ pre round, tr = pre ++ round ∧ clear_round (rn_auth n) others round
             ∧ Forall (λ ev, reports ev ≠ Some true) pre.
Proof.
  intros H others. subst others. unfold cluster_already_running in H. case_bool_decide as Ho; answers_inv.
  { rewrite Ho. split; [simpl; lia|]. split; [constructor|by left]. }
  apply discover_run in H as (Hl & Hi & Hb). split; [done|]. split; [done|]. destruct b; [done|]. by right.
Qed.

(** C27. Discovery ends: it makes at most ten rounds, one request to each other
    peer and one pause per round, whatever the peers do.  It answers that no
    cluster is running only when there is no other peer, or after a round in
    which every other peer was asked, at least one answered and none ever
    reported a cluster; when no peer answers at all it says one is running. *)
Theorem discovery_decides n tr b :
  answers (cluster_already_running n) tr b →
  let others := other_peers (rn_peers n) (rn_node_id n) in
  length tr ≤ 10 * S (length others)
  ∧ if b
    then others ≠ [] ∧ (Exists (λ ev, reports ev = Some true) tr ∨ Forall (λ ev, reports ev = None) tr)
    else others = [] ∧ tr = []
         ∨ ∃ pre round, tr = pre ++ round ∧ clear_round (rn_auth n) others round
             ∧ Forall (λ ev, reports ev ≠ Some true) pre.
Proof. intros H others. by destruct (running_run n tr b H) as (? & _ & ?). Qed.

(** C9. No split brain: a node creates a cluster at most once and as the last
    thing bootstrap does, only if the engine said it has no state, only on the
    node with the lowest id, only with the configured members, and only if it
    has no other peer or the discovery that precedes ended with a round in
    which every other peer was asked, at least one answered and none reported
    a cluster. *)
Theorem bootstrap_no_split_brain n tr r ev members :
  answers (bootstrap n) tr r → ev ∈ tr → initializes ev = Some members →
  members = rn_peers n
  ∧ head (rn_peers n).*1 ∈ [Some (rn_node_id n); None]
  ∧ ∃ disc, tr = Event _ IsInitialized (Ok false) :: disc ++ [ev]
      ∧ Forall (λ ev, initializes ev = None) disc
      ∧ Forall (λ ev, reports ev ≠ Some true) disc
      ∧ (other_peers (rn_peers n) (rn_node_id n) = [] ∧ disc = []
         ∨ ∃ pre round, disc = pre ++ round
             ∧ clear_round (rn_auth n) (other_peers (rn_peers n) (rn_node_id n)) round).
Proof.
  intros H Hev Hini. unfold bootstrap in H. answers_inv.
  match goal with H : answers (match map_err _ ?a with _ => _ end) _ _ |- _ => rename H into Hk; destruct a as [[]|] end;
    simpl in Hk; answers_inv; try (set_unfold; naive_solver).
  destruct (Z.eqb_spec (rn_node_id n) (default (rn_node_id n) (head (rn_peers n).*1))) as [Hlow|];
    simpl in Hk; answers_inv; try (set_unfold; naive_solver).
  match goal with H : answers (cluster_already_running _) _ _ |- _ => apply running_run in H as (_ & Hi & Hb) end.
  destruct x2; [answers_inv; apply elem_of_app in Hev as [Hev|Hev];
    [set_unfold; naive_solver|rewrite app_nil_r in Hev; by rewrite (proj1 (Forall_forall _ _) Hi _ Hev) in Hini]|].
  match goal with H : answers (Call _ _) _ _ |- _ => destruct H as (y & t & -> & [-> ->]) end. simpl in Hev.
  assert (ev = Event _ (Initialize (rn_peers n)) y) as ->.
  { set_unfold in Hev. destruct Hev as [->|[Hev|[->|[]]]]; [done| |done].
    by rewrite (proj1 (Forall_forall _ _) Hi _ Hev) in Hini. }
  injection Hini as <-. split; [done|]. split; [destruct (head (rn_peers n).*1); simpl in Hlow; subst; set_solver|].
  exists x. split; [done|]. split; [done|].
  destruct Hb as [[Ho ->]|(pre & round & -> & Hc & Hp)]; [split; [constructor|by left]|].
  split; [|right; by exists pre, round]. destruct Hc as (_ & Hc & _). by apply Forall_app.
Qed.

(** C28. Bootstrap gets a cluster going: on the node with the lowest id, if the
    engine has no state, some other peer answered (or there is none) and none
    ever reported a cluster, the cluster is created and bootstrap succeeds. *)
Theorem bootstrap_creates n disc r :
  answers (bootstrap n) (Event _ IsInitialized (Ok false) :: disc) r →
  head (rn_peers n).*1 ∈ [Some (rn_node_id n); None] →
  Forall (λ ev, reports ev ≠ Some true) disc →
  other_peers (rn_peers n) (rn_node_id n) = [] ∨ Exists (λ ev, reports ev = Some false) disc →
  r = Ok tt ∧ Exists (λ ev, initializes ev = Some (rn_peers n)) disc.
Proof.
  intros H Hlow Hno Hsome. unfold bootstrap, try_bind in H.
  apply answers_bind in H as (t1 & t2 & init & Heq & H1 & H).
  apply answers_bind in H1 as (t3 & t4 & ans & -> & ->%answers_call & [-> ->]%answers_ret).
  pose proof (f_equal (λ l, head l ≫= init_answer) Heq) as Ha. apply (f_equal tail) in Heq.
  cbn in Ha, Heq. injection Ha as <-. subst disc. cbn [map_err] in H. cbv iota in H.
  assert (rn_node_id n = default (rn_node_id n) (head (rn_peers n).*1)) as Hid.
  { set_unfold in Hlow. destruct Hlow as [->|[->|[]]]; done. }
  rewrite <- Hid, Z.eqb_refl in H. simpl negb in H. cbv iota in H.
  apply answers_bind in H as (u1 & u2 & running & -> & (_ & _ & Hb)%running_run & H).
  apply Forall_app in Hno as [Hno1 _]. destruct running.
  - exfalso. answers_inv. destruct Hb as [Ho Hb]. destruct Hsome as [?|Hsome]; [done|]. rewrite app_nil_r in Hsome.
    rewrite Exists_exists in Hsome. destruct Hsome as (ev & Hin & Hev).
    rewrite Forall_forall in Hno1. destruct Hb as [(ev' & Hin' & Hev')%Exists_exists|Hb].
    + by apply (Hno1 ev').
    + rewrite Forall_forall in Hb. rewrite (Hb ev Hin) in Hev. done.
  - apply answers_bind in H as (u3 & u4 & x & -> & ->%answers_call & [-> ->]%answers_ret).
    split; [done|]. apply Exists_app. right. by constructor.
Qed.

(** ** Discarding the Raft state *)

(** The event is a probe of a configured peer other than the node itself, which
    answered that it is in a cluster. *)
Definition peer_reports (node_id : Z) (peers : BTreeMap string) (auth : PeerAuth) (ev : event node_call) : Prop :=
  ∃ id addr sent, (id, addr) ∈ peers ∧ id ≠ node_id
    ∧ ev = Event _ (Send (probe_request auth addr)) sent ∧ probe_answer sent = Some true.

(** The Raft state turned out to be unreadable and afterwards, as the last thing
    that happened, another peer reported a cluster. *)
Definition may_reset (node_id : Z) (peers : BTreeMap string) (auth : PeerAuth) (pre : list (event node_call)) : Prop :=
  1 < length peers ∧ ∃ pre1 bad mid ev, pre = pre1 ++ bad :: mid ++ [ev]
    ∧ unreadable bad = true ∧ peer_reports node_id peers auth ev.

(** The last answer of the engine to [RaftNew] was a success. *)
Definition engine_built (node_id : Z) (tr : list (event node_call)) : Prop :=
  last tr = Some (Event _ (RaftNew node_id node_config) (Ok tt)).

Section reset.
Context (node_id : Z) (peers : BTreeMap string) (auth : PeerAuth).

(** A reset must be justified by what happened before it. *)
Definition reset_rule (pre : list (event node_call)) (ev : event node_call) : Prop :=
  resets ev = true → may_reset node_id peers auth pre.

Lemma any_initialized_wp others : ∀ pre,
  (∀ id addr, (id, addr) ∈ others → (id, addr) ∈ peers ∧ id ≠ node_id) →
  wp reset_rule pre (any_initialized auth others)
    (λ pre' b, b = true → ∃ mid ev, pre' = pre ++ mid ++ [ev] ∧ peer_reports node_id peers auth ev).
Proof.
  induction others as [|[id addr] others IH]; intros pre Hin; cbn [any_initialized]; [by wp_step|].
  unfold probe_peer_initialized. repeat wp_step. case_bool_decide as Hb.
  - wp_step. intros _. eexists [], _. split; [done|]. exists id, addr, x.
    destruct (Hin id addr) as [Hp Hne]; [by left|]. done.
  - eapply wp_mono; [apply IH; intros; apply Hin; by right|]. intros pre' b _ Hx Hb'.
    destruct (Hx Hb') as (mid & ev & -> & Hev). exists (Event _ (Send (probe_request auth addr)) x :: mid), ev.
    by rewrite <- app_assoc.
Qed.

Lemma rejoin_wp pre :
  wp reset_rule pre (rejoin_possible node_id peers auth)
    (λ pre' b, b = true → 1 < length peers
       ∧ ∃ mid ev, pre' = pre ++ mid ++ [ev] ∧ peer_reports node_id peers auth ev).
Proof.
  unfold rejoin_possible. case_decide; [|by wp_step].
  eapply wp_mono; [apply any_initialized_wp|by eauto].
  intros id addr [Hne Hin]%list_elem_of_filter. done.
Qed.

(** What justifies the reset after a failure [bad]. *)
Lemma rejoin_resets pre1 bad pre' :
  unreadable bad = true →
  (1 < length peers ∧ ∃ mid ev, pre' = (pre1 ++ [bad]) ++ mid ++ [ev] ∧ peer_reports node_id peers auth ev) →
  may_reset node_id peers auth pre'.
Proof.
  intros Hbad [Hl (mid & ev & -> & Hev)]. split; [done|]. exists pre1, bad, mid, ev. by rewrite <- app_assoc.
Qed.

Lemma repair_log_wp pre :
  wp reset_rule pre (repair_log node_id peers auth) (λ _ _, True).
Proof.
  unfold repair_log. repeat wp_step. destruct x as [|err]; [by wp_step|]. wp_step.
  eapply wp_mono; [apply rejoin_wp|]. intros pre' [] _ Hb; [|by wp_step].
  unfold reset_state. repeat wp_step; [|done]. intros _. eapply rejoin_resets; [|by apply Hb]. done.
Qed.

Lemma construct_wp pre :
  wp reset_rule pre (construct node_id peers auth) (λ pre' r, is_ok r = true → engine_built node_id pre').
Proof.
  unfold construct, build_raft. repeat wp_step. destruct x as [[]|err]; cbn [with_context map_err].
  { wp_step. intros _. unfold engine_built. by rewrite last_snoc. }
  wp_step. eapply wp_mono; [apply rejoin_wp|]. intros pre' [] _ Hb; [|by wp_step].
  unfold reset_state. repeat wp_step.
  - intros _. eapply rejoin_resets; [|by apply Hb]. done.
  - destruct x as [[]|]; cbn [with_context map_err]; repeat wp_step; [|done].
    destruct x as [[]|]; cbn [with_context map_err]; [|done]. intros _. unfold engine_built. by rewrite last_snoc.
Qed.
End reset.

(** C21. A starting node discards its Raft log and metadata only after they
    turned out to be unreadable and after that, as the last thing it learned, a
    configured peer other than itself reported a running cluster to rebuild
    them from; it starts only with an engine that was built on what is left,
    and otherwise reports an error. *)
Theorem start_resets_only_to_rejoin node_id peers auth tr r :
  answers (start node_id peers auth) tr r →
  (∀ pre ev post, tr = pre ++ ev :: post → resets ev = true → may_reset node_id peers auth pre)
  ∧ (∀ n, r = Ok n →
      n = {| rn_peers := peers; rn_node_id := node_id; rn_auth := auth |} ∧ engine_built node_id tr).
Proof.
  intros H. cut (wp (reset_rule node_id peers auth) [] (start node_id peers auth) (λ tr r, ∀ n, r = Ok n →
    n = {| rn_peers := peers; rn_node_id := node_id; rn_auth := auth |} ∧ engine_built node_id tr)).
  { intros Hwp. by destruct (wp_sound _ _ _ _ _ _ Hwp H). }
  unfold start. repeat wp_step. destruct x; cbn [with_context map_err]; repeat wp_step; [|done].
  destruct x as [[]|]; cbn [with_context map_err]; repeat wp_step; [|done].
  eapply wp_mono; [apply repair_log_wp|]. intros pre1 [[]|] _ _; [|by wp_step]. repeat wp_step.
  eapply wp_mono; [apply construct_wp|]. intros pre2 [[]|] _ Hb; wp_step; [|done].
  intros n [= <-]. by split; [|apply Hb].
Qed.
End events.
