(* ===== verification/PeerThms.v ===== *)
(** * Theorems on the peer protocol

    Which peer requests reach the Raft engine, and which credentials a node
    accepts. *)

From S2P Require Import Prelude RustStr CoreTypes Redb Keys Model Apply Engine RaftStore Platform Crypto IpAddr.
From S2P Require Import ApiTypes Calls Peer.

Section guarded.
Context `{RE : !Redb, RT : !RaftTypes, RR : !RaftRpc, PS : !PeerSerde, CC : !CryptoCrates, AX : !Axum}.
Implicit Types (ev : event node_call) (pre tr : list (event node_call)).

(** ** The Raft engine behind its guard *)

(** A call into the engine. *)
Definition engine ev : bool :=
  match ev_call ev with
  | AppendEntries _ | InstallSnapshot _ | CastVote _ | ClientWrite _ | IsInitialized => true
  | _ => false
  end.

(** The route was asked for with a body that says exactly what the engine is
    given, and its vote is one the engine may see: from a configured node, and
    committed where the engine insists. *)
Definition faithful (state : ServerState) (request : RaftRequest) ev : Prop :=
  let known vote := ∀ id, voted_for vote = Some id → id ∈ pd_ids (ss_peers state) in
  let body_is {A} `{!Serde A} (a : A) :=
    from_slice (rr_body request) = Some a ∧ (Z.of_nat (length (rr_body request)) ≤ RPC_BODY_LIMIT)%Z in
  match ev_call ev with
  | AppendEntries rpc =>
      rr_route request = RouteAppend ∧ body_is rpc ∧ known (append_vote rpc) ∧ vote_committed (append_vote rpc) = true
  | InstallSnapshot rpc =>
      rr_route request = RouteSnapshot ∧ body_is rpc ∧ known (install_vote rpc) ∧ vote_committed (install_vote rpc) = true
  | CastVote rpc => rr_route request = RouteVote ∧ body_is rpc ∧ known (vote_vote rpc)
  | ClientWrite command => rr_route request = RouteApply ∧ body_is command
  | IsInitialized => rr_route request = RouteInitialized
  | _ => False
  end.

(** The event shows that [ip] is an address of a configured host. *)
Definition shows (peers : PeerAddrs) (ip : IpAddr) ev : Prop :=
  match ev with
  | Event X c x =>
      match c in node_call X return X → Prop with
      | ReadResolved => λ resolved, ip ∈ resolved
      | LookupHost host _ => λ found,
          host ∈ pd_hosts peers ∧ ∃ addrs, found = Resolved addrs ∧ ip ∈ addrs.*1
      | _ => λ _, False
      end x
  end.

Definition source_known (state : ServerState) (request : RaftRequest) pre : Prop :=
  pd_enabled (ss_peers state) = true →
  ∃ ip, rr_source request = Some ip ∧ Exists (shows (ss_peers state) ip) pre.

Definition engine_rule (state : ServerState) (request : RaftRequest) pre ev : Prop :=
  engine ev = true →
  source_known state request pre ∧ accepts (ss_auth state) (rr_authorization request) = true
  ∧ faithful state request ev.

Definition no_engine pre : Prop := Forall (λ ev, engine ev = false) pre.

Lemma no_engine_snoc pre ev : no_engine pre → engine ev = false → no_engine (pre ++ [ev]).
Proof. intros. apply Forall_app. split; [done|]. by constructor. Qed.

Lemma resolve_wp I (peers : PeerAddrs) hosts : ∀ pre out,
  (∀ pre ev, engine ev = false → I pre ev) → no_engine pre → hosts ⊆ pd_hosts peers →
  (∀ ip, ip ∈ out → Exists (shows peers ip) pre) →
  wp I pre (resolve_into out hosts)
    (λ pre' fresh, no_engine pre' ∧ ∀ ip, ip ∈ fresh → Exists (shows peers ip) pre').
Proof.
  induction hosts as [|host hosts IH]; intros pre out HI Hpre Hsub Hout; cbn [resolve_into]; [by repeat wp_step|].
  repeat wp_step; [by apply HI|].
  assert (∀ x ip, ip ∈ out → Exists (shows peers ip) (pre ++ [Event _ (LookupHost host RESOLVE_TIMEOUT_SECS) x])) as Hold.
  { intros x' ip Hip. apply Exists_app. left. auto. }
  destruct x as [addrs| |]; (apply IH; [done|by apply no_engine_snoc|set_solver|]); [|by apply Hold..].
  intros ip [Hip|Hip]%elem_of_union; [by apply Hold|]. apply Exists_app. right. constructor. simpl.
  split; [set_solver|]. exists addrs. split; [done|]. by apply elem_of_list_to_set in Hip.
Qed.

Lemma source_allowed_wp state request I :
  (∀ pre ev, engine ev = false → I pre ev) →
  wp I [] (source_allowed state request)
    (λ pre' b, no_engine pre' ∧ (b = true → source_known state request pre')).
Proof.
  intros HI. unfold source_allowed, source_known. destruct (pd_enabled _) eqn:He; [|wp_step; by split; [constructor|]].
  destruct (rr_source request) as [ip|]; [|wp_step; by split; [constructor|]].
  unfold peers_allow. rewrite He. simpl negb. cbv iota. repeat wp_step; [by apply HI|].
  case_bool_decide as Hin; repeat wp_step.
  { split; [by repeat constructor|]. intros _ _. exists ip. split; [done|]. by repeat constructor. }
  unfold resolve. eapply wp_mono; [apply (resolve_wp I (ss_peers state)); [done|by repeat constructor|done|set_solver]|].
  intros pre fresh _ [Hno Hfresh]. repeat wp_step; [by apply HI|]. split; [by apply no_engine_snoc|].
  intros Hb%bool_decide_eq_true _. exists ip. split; [done|]. apply Exists_app. left. auto.
Qed.

Definition engine_calls tr : list (event node_call) := filter (λ ev, engine ev = true) tr.

(** At most one call reached the engine; if none did, the answer says so. *)
Definition answered tr (resp : Response) : Prop :=
  length (engine_calls tr) ≤ 1 ∧ (no_engine tr → (400 ≤ resp_status resp < 500)%Z).

Lemma engine_calls_none pre : no_engine pre → engine_calls pre = [].
Proof.
  intros H. unfold engine_calls. induction H as [|ev pre Hev _ IH]; [done|].
  rewrite filter_cons_False by congruence. done.
Qed.

Lemma refused_answered pre resp : no_engine pre → (400 ≤ resp_status resp < 500)%Z → answered pre resp.
Proof. intros H ?. unfold answered. rewrite engine_calls_none by done. simpl. split; [lia|done]. Qed.

Lemma called_answered pre ev resp : no_engine pre → engine ev = true → answered (pre ++ [ev]) resp.
Proof.
  intros H He. split.
  - unfold engine_calls. rewrite filter_app. fold (engine_calls pre). rewrite engine_calls_none by done.
    rewrite filter_cons_True by done. simpl. lia.
  - intros [_ H']%Forall_app. inversion H'. congruence.
Qed.

Lemma with_json_wp I {A} `{!Serde A} `{AXL : !AxumLaws} pre body (f : A → node Response) :
  no_engine pre →
  (∀ a, from_slice body = Some a → (Z.of_nat (length body) ≤ RPC_BODY_LIMIT)%Z → wp I pre (f a) answered) →
  wp I pre (with_json body f) answered.
Proof.
  intros Hpre Hf. unfold with_json. destruct (Z.ltb_spec RPC_BODY_LIMIT (Z.of_nat (length body))).
  { wp_step. by apply refused_answered. }
  destruct (from_slice body) as [a|] eqn:Ha; [by apply Hf|]. wp_step.
  apply refused_answered; [done|]. apply rejection_client_error.
Qed.

Lemma allows_leader_known peers vote :
  allows_leader peers vote = true → ∀ id, voted_for vote = Some id → id ∈ pd_ids peers.
Proof. unfold allows_leader. intros H id Hid. rewrite Hid in H. by apply bool_decide_eq_true in H. Qed.

Lemma route_wp `{AXL : !AxumLaws} state request pre :
  no_engine pre → source_known state request pre → accepts (ss_auth state) (rr_authorization request) = true →
  wp (engine_rule state request) pre (route state request) answered.
Proof.
  intros Hpre Hs Ha. unfold route.
  destruct (rr_route request) eqn:Hr; [(apply with_json_wp; [apply _|done|]; intros rpc Hb Hl)..|].
  - unfold serve_append. destruct (allows_leader _ _) eqn:Hk; simpl negb; cbv iota; [|wp_step; by apply refused_answered].
    destruct (vote_committed _) eqn:Hc; simpl negb; cbv iota; [|wp_step; by apply refused_answered].
    repeat wp_step; [intros _|by apply called_answered]. repeat split; try done. by apply allows_leader_known.
  - unfold serve_snapshot. destruct (allows_leader _ _) eqn:Hk; simpl negb; cbv iota; [|wp_step; by apply refused_answered].
    destruct (vote_committed _) eqn:Hc; simpl negb; cbv iota; [|wp_step; by apply refused_answered].
    repeat wp_step; [intros _|by apply called_answered]. repeat split; try done. by apply allows_leader_known.
  - unfold serve_vote. destruct (allows_leader _ _) eqn:Hk; simpl negb; cbv iota; [|wp_step; by apply refused_answered].
    repeat wp_step; [intros _|by apply called_answered]. repeat split; try done. by apply allows_leader_known.
  - unfold serve_apply. repeat wp_step. by apply called_answered.
  - unfold serve_initialized. repeat wp_step. by apply called_answered.
Qed.

(** C10. A peer request reaches the Raft engine only with an accepted
    credential and, when the source check is on (it is off unless
    [VAULT_RAFT_PEER_CHECK] turns it on), only from an address of a configured
    peer.  The engine is then called at most once, with exactly the message of
    the body; never with a vote for a node that is not configured, nor with an
    append or a snapshot whose vote is not committed.  A request
    that does not reach it is answered with a client error. *)
Theorem raft_router_guarded `{AXL : !AxumLaws} state request tr resp :
  answers (raft_router state request) tr resp →
  answered tr resp
  ∧ ∀ pre ev post, tr = pre ++ ev :: post → engine ev = true →
      source_known state request pre
      ∧ accepts (ss_auth state) (rr_authorization request) = true
      ∧ faithful state request ev.
Proof.
  intros H. cut (wp (engine_rule state request) [] (raft_router state request) answered).
  { intros Hwp. by destruct (wp_sound _ _ _ _ _ _ Hwp H). }
  unfold raft_router, guard. wp_step.
  eapply wp_mono; [apply source_allowed_wp; intros ? ? Hev ?; congruence|].
  intros pre [] _ [Hno Hk]; simpl negb; cbv iota; [|wp_step; by apply refused_answered].
  destruct (accepts _ _) eqn:Ha; simpl negb; cbv iota; [|wp_step; by apply refused_answered].
  apply route_wp; auto.
Qed.
End guarded.

(** ** The cluster credential *)

Section credential.
Context `{CC : !CryptoCrates}.

Definition bearer (value : string) : option string :=
  match strip_prefix "Bearer " value with
  | Some token => Some token
  | None => strip_prefix "bearer " value
  end.

(** C39. What a node accepts: without a cluster token everything, and that only
    if no credential is required; with one, a bearer credential whose text
    without surrounding blanks has the token's fingerprint, and requests without
    a bearer credential exactly when none is required.  The header a node sends
    to its peers is therefore accepted by a peer with the same token exactly
    when trimming does not change the token's fingerprint. *)
Theorem peer_credential token required auth :
  peer_auth_new token required = Ok auth →
  match token with
  | None => required = false ∧ ∀ presented, accepts auth presented = true
  | Some t =>
      accepts auth None = negb required
      ∧ (∀ value, accepts auth (Some value) = true ↔
           match bearer value with
           | Some tok => fingerprint (trim tok) = fingerprint t
           | None => required = false
           end)
      ∧ (accepts auth (pa_header auth) = true ↔ fingerprint (trim t) = fingerprint t)
  end.
Proof.
  unfold peer_auth_new. intros H. destruct token as [t|]; simpl in H.
  - rewrite andb_false_r in H. injection H as <-. unfold accepts. simpl.
    assert (∀ value, match match strip_prefix "Bearer " value with
                           | Some token => Some token | None => strip_prefix "bearer " value end with
                     | Some tok => verify (trim tok) (fingerprint t) | None => negb required end = true
              ↔ match bearer value with
                | Some tok => fingerprint (trim tok) = fingerprint t | None => required = false end) as Hv.
    { intros value. unfold bearer, verify, ct_eq.
      destruct (match strip_prefix _ _ with Some _ => _ | None => _ end);
        [by rewrite bool_decide_eq_true|by destruct required]. }
    split; [done|]. split; [exact Hv|]. unfold verify, ct_eq. by rewrite bool_decide_eq_true.
  - rewrite andb_true_r in H. destruct required; [done|]. injection H as <-. done.
Qed.
End credential.
