(* ===== verification/ClusterThms.v ===== *)
(** * Writes and messages of a cluster

    A write of a clustered node, forwarded or not, answers what the abstract
    vault of the leader answers at the point of its history where the command
    was applied, and a message between two engines arrives as it was sent.  What
    openraft and the network between the nodes do is assumed as they document
    it: the engine drives the node's store only through its storage interface,
    [client_write] returns what the state machine answered to the command's
    entry, and a request that is answered was served by the node at that
    address. *)

From S2P Require Import Prelude RustStr CoreTypes Redb Keys Model Apply Spec Refine Engine Replicas RaftStore RaftThms.
From S2P Require Import Platform Crypto IpAddr ApiTypes Calls Peer RaftNode.

(** ** What happens to a node's store *)

Section history.
Context `{RE : !Redb, RL : !RedbLaws, SE : !StoreSerde, SL : !StoreSerdeLaws}.
Context `{RT : !RaftTypes, RS : !RaftSerde, RSL : !RaftSerdeLaws}.
Implicit Types (d : Database) (a : Vault).

(** The engine has a batch of entries applied, with these answers, or a snapshot
    installed, taken when the vault was [a]; it writes its log and its metadata
    (votes, purged entries, snapshots); and the node applies a command to its
    own store only. *)
Inductive store_event :=
| Applied (es : list Entry) (rs : list ApplyResult)
| Installed (a : Vault)
| Logged
| LocalCommand (c : Command).

Definition event_step (n : Z) (ev : store_event) (d d' : Database) : Prop :=
  match ev with
  | Applied es rs => Forall entry_ok es ∧ RaftStore.apply n es d = (d', Ok rs)
  | Installed a0 => ∃ d0 at_ meta bs, abstracts d0 a0 ∧ to_vec (snapshot_data d0 at_) = Some bs
      ∧ install_snapshot meta bs d = (d', Ok tt)
  | Logged => ∃ tl tm, progress tm = progress (db_meta d) ∧ d' = put_table META tm (put_table LOG tl d)
  | LocalCommand c => is_local c = true ∧ ∃ r, RedbStore.apply n c d = (d', r)
  end.

Fixpoint history (n : Z) (evs : list store_event) (d d' : Database) : Prop :=
  match evs with
  | [] => d' = d
  | ev :: evs => ∃ d1, event_step n ev d d1 ∧ history n evs d1 d'
  end.

Lemma history_app n evs1 evs2 : ∀ d d1 d2,
  history n evs1 d d1 → history n evs2 d1 d2 → history n (evs1 ++ evs2) d d2.
Proof.
  induction evs1 as [|ev evs1 IH]; intros d d1 d2; simpl; [by intros ->|].
  intros (d3 & Hev & H1) H2. exists d3. split; [done|]. by eapply IH.
Qed.

(** The abstract vault through the same events; what is local to a node stays
    when it installs a snapshot. *)
Definition adopt (a0 a : Vault) : Vault := {|
  vault_secrets := vault_secrets a0; vault_versions := vault_versions a0; vault_roles := vault_roles a0;
  vault_tokens := vault_tokens a0; vault_names := vault_names a0; vault_rewrap := vault_rewrap a0;
  vault_lockouts := vault_lockouts a; vault_audit := vault_audit a |}.

Definition replay (n : Z) (a : Vault) (ev : store_event) : Vault :=
  match ev with
  | Applied es _ => (spec_entries n a es).1
  | Installed a0 => adopt a0 a
  | Logged => a
  | LocalCommand c => default a (to_option (spec_apply n c a))
  end.
Notation replays n := (foldl (replay n)).

Lemma spec_entries_app n es1 es2 : ∀ a,
  spec_entries n a (es1 ++ es2)
  = ((spec_entries n (spec_entries n a es1).1 es2).1,
     (spec_entries n a es1).2 ++ (spec_entries n (spec_entries n a es1).1 es2).2).
Proof.
  induction es1 as [|e es1 IH]; intros a; cbn [app spec_entries].
  - simpl. by destruct (spec_entries n a es2).
  - destruct (match payload e with Normal _ => _ | _ => _ end) as [a1 r]. rewrite IH.
    destruct (spec_entries n a1 es1) as [a2 rs]. done.
Qed.

Lemma spec_entries_length n es : ∀ a, length (spec_entries n a es).2 = length es.
Proof.
  induction es as [|e es IH]; intros a; cbn [spec_entries]; [done|].
  destruct (match payload e with Normal _ => _ | _ => _ end) as [a1 r]. specialize (IH a1).
  destruct (spec_entries n a1 es). simpl in *. by f_equal.
Qed.

Lemma abstracts_adopt d d0 d' a a0 :
  abstracts d a → abstracts d0 a0 → agree d' d0 → db_audit d' = db_audit d → db_lockouts d' = db_lockouts d →
  abstracts d' (adopt a0 a).
Proof.
  intros [] [] [] Ha Hl. split; simpl; rewrite ?Ha, ?Hl; try done; by eapply stores_ext.
Qed.

(** A store with an abstract vault, whose progress can be read. *)
Definition sound (d : Database) (a : Vault) : Prop := abstracts d a ∧ is_ok (progress (db_meta d)) = true.

Lemma sound_progress d a : sound d a → ∃ at_, progress (db_meta d) = Ok at_.
Proof. intros [_ H]. destruct (progress (db_meta d)); [eauto|done]. Qed.

Lemma local_well_typed c : is_local c = true → well_typed c.
Proof. by destruct c. Qed.

Lemma event_sound n ev d d' a :
  sound d a → event_step n ev d d' →
  sound d' (replay n a ev) ∧ ∀ es rs, ev = Applied es rs → rs = (spec_entries n a es).2.
Proof.
  intros Hs Hev. pose proof Hs as [Ha Hok]. destruct (sound_progress _ _ Hs) as [at_ Hp].
  destruct ev as [es rs|a0| |c]; simpl in Hev |- *.
  - destruct Hev as [Hes Happ]. destruct (apply_batch_run n d a es at_ Ha Hes Hp) as (d2 & Hrun & Ha2 & Hp2 & _).
    rewrite Happ in Hrun. injection Hrun as <- ->. split; [split; [done|by rewrite Hp2]|]. by intros ?? [= <- <-].
  - destruct Hev as (d0 & at0 & meta & bs & Ha0 & Hbs & Hins).
    destruct (install_snapshot_data _ _ _ _ _ _ Hbs Hins) as (_ & Hag & Hst & _ & Hau & Hlo).
    rewrite applied_state_progress in Hst. injection Hst as Hst.
    split; [|done]. split; [by eapply abstracts_adopt|by rewrite Hst].
  - destruct Hev as (tl & tm & Hm & ->). split; [|done]. split; [exact (abstracts_meta _ _ tm (abstracts_log _ _ tl Ha))|].
    simpl. by rewrite Hm.
  - destruct Hev as (Hl & r & Happ). unfold RedbStore.apply in Happ.
    destruct (apply_simulates n c d a Ha (local_well_typed c Hl)) as (Hsim & _ & Hm).
    destruct (apply_command n c d) as [d1 r1]. simpl in *. split; [|done].
    destruct (spec_apply n c a) as [a'|e]; destruct Hsim as [-> Ha']; injection Happ as <- <-; [|done].
    split; [done|]. by rewrite Hm.
Qed.

Lemma history_sound n evs : ∀ d d' a, sound d a → history n evs d d' → sound d' (replays n a evs).
Proof.
  induction evs as [|ev evs IH]; intros d d' a Hs H; simpl in *; [by subst|].
  destruct H as (d1 & Hev & H). eapply IH; [|exact H]. by eapply event_sound.
Qed.

(** The answers to a batch somewhere in the history. *)
Lemma history_answers n pre es rs post d d' a :
  sound d a → history n (pre ++ Applied es rs :: post) d d' → rs = (spec_entries n (replays n a pre) es).2.
Proof.
  revert d a. induction pre as [|ev pre IH]; intros d a Hs (d1 & Hev & H).
  - by apply (event_sound n _ d d1 a Hs Hev).
  - eapply IH; [|exact H]. by eapply event_sound.
Qed.
End history.
Notation replays n := (foldl (replay n)).

(** ** The nodes of a cluster *)

Section cluster.
Context `{RE : !Redb, RL : !RedbLaws, SE : !StoreSerde, SL : !StoreSerdeLaws}.
Context `{RT : !RaftTypes, RS : !RaftSerde, RSL : !RaftSerdeLaws, RR : !RaftRpc}.
Context `{PS : !PeerSerde, PSL : !PeerSerdeLaws, CC : !CryptoCrates, AX : !Axum, AXL : !AxumLaws}.

(** The state of all nodes and of what connects them, with the journal of what
    happened to each node's store; how the calls of node [n] are answered; the
    server each node runs; which node an address reaches. *)
Record Cluster := {
  Env : Type;
  node_db : Z → Env → Database;
  node_journal : Z → Env → list store_event;
  node_handle : Z → ∀ X, node_call X → Env → Env * X;
  node_server : Z → ServerState;
  reaches : string → Z → Prop;
}.

(** The journal of a node's store grew, and the store followed it. *)
Definition extended (cl : Cluster) (n : Z) (s s' : Env cl) : Prop :=
  ∃ evs, node_journal cl n s' = node_journal cl n s ++ evs ∧ history n evs (node_db cl n s) (node_db cl n s').

(** The journal grew by a batch with [command], to which the state machine
    answered [r]. *)
Definition applied_as (cl : Cluster) (n : Z) (command : Command) (r : ApplyResult) (s s' : Env cl) : Prop :=
  ∃ pre es entry es' rs rs' post,
    node_journal cl n s' = node_journal cl n s ++ pre ++ Applied (es ++ entry :: es') (rs ++ r :: rs') :: post
    ∧ payload entry = Normal command ∧ length rs = length es.

(** The calls that do not change a store but through the engine. *)
Definition passive X (c : node_call X) : Prop :=
  match c with
  | LookupHost _ _ | ReadResolved | WriteResolved _ | ClientWrite _ => True
  | _ => False
  end.

Definition route_path (route : RaftRoute) : string :=
  match route with
  | RouteAppend => "raft/append"
  | RouteSnapshot => "raft/snapshot"
  | RouteVote => "raft/vote"
  | RouteApply => "raft/apply"
  | RouteInitialized => "raft/initialized"
  end.
Definition route_method (route : RaftRoute) : HttpMethod :=
  match route with RouteInitialized => GET | _ => POST end.
Definition route_url (addr : string) (route : RaftRoute) : string :=
  "http://" +:+ addr +:+ "/" +:+ route_path route.

Record ClusterLaws (cl : Cluster) : Prop := {
  passive_law n X (c : node_call X) s m :
    passive X c → extended cl m s (node_handle cl n X c s).1;
  client_write_law n c s s' r :
    node_handle cl n _ (ClientWrite c) s = (s', Ok r) →
    applied_as cl n c r s s';
  http_law n request s s' response bs addr route :
    node_handle cl n _ (Send request) s = (s', Ok response) →
    rq_method request = route_method route → rq_url request = route_url addr route → rs_body response = Ok bs →
    ∃ m source presented, reaches cl addr m
      ∧ exec (node_handle cl m) (raft_router (node_server cl m)
          {| rr_route := route; rr_source := source; rr_authorization := presented;
             rr_body := rq_body request |}) s
        = (s', {| resp_status := rs_status response; resp_body := bs |});
}.

(** The result the abstract vault gives. *)
Definition spec_result (s : StoreResult Vault) : StoreResult unit :=
  match s with Ok _ => Ok tt | Err e => Err e end.

(** Between [s] and [s'] the journal of [n] gained an entry with the command, and
    [result] is what the abstract vault answers there: the vault the store had in
    [s], taken through everything that the journal has before that entry. *)
Definition committed (cl : Cluster) (n : Z) (command : Command) (result : StoreResult unit) (s s' : Env cl) : Prop :=
  ∀ a, sound (node_db cl n s) a →
  ∃ pre es entry es' rs post,
    node_journal cl n s' = node_journal cl n s ++ pre ++ Applied (es ++ entry :: es') rs :: post
    ∧ payload entry = Normal command
    ∧ result = spec_result (spec_apply n command (spec_entries n (replays n a pre) es).1)
    ∧ sound (node_db cl n s') (replays n a (pre ++ Applied (es ++ entry :: es') rs :: post)).

#[export] Instance extended_preorder cl n : PreOrder (extended cl n).
Proof.
  split.
  - intros s. exists []. by rewrite app_nil_r.
  - intros s1 s2 s3 (evs & Hj1 & H1) (evs' & Hj2 & H2). exists (evs ++ evs').
    split; [by rewrite Hj2, Hj1, app_assoc|]. by eapply history_app.
Qed.

Lemma applied_committed cl n c r s s' :
  extended cl n s s' → applied_as cl n c r s s' → committed cl n c (outcome_to_result r) s s'.
Proof.
  intros (evs & Hj & Hh) (pre & es & entry & es' & rs & rs' & post & Hj' & Hp & Hlen) a Hs.
  rewrite Hj in Hj'. apply app_inv_head in Hj'. subst evs.
  exists pre, es, entry, es', (rs ++ r :: rs'), post. do 2 (split; [done|]). split; [|by eapply history_sound].
  pose proof (history_answers _ _ _ _ _ _ _ _ Hs Hh) as Hrs. rewrite spec_entries_app in Hrs. simpl in Hrs.
  apply app_inj_1 in Hrs as [_ Hr]; [|by rewrite spec_entries_length].
  cbn [spec_entries] in Hr. rewrite Hp in Hr. destruct (spec_entries n _ es'). simpl in Hr.
  injection Hr as -> _. unfold outcome_to_result, outcome, spec_result.
  destruct (spec_apply n c _) as [|[]] eqn:Hsp; try done. by apply spec_apply_not_internal in Hsp.
Qed.

Lemma extended_committed cl n c result s s1 s' :
  extended cl n s s1 → committed cl n c result s1 s' → committed cl n c result s s'.
Proof.
  intros (evs & Hj & Hh) Hc a Hs. destruct (Hc _ (history_sound _ _ _ _ _ Hs Hh)) as
    (pre & es & entry & es' & rs & post & Hj' & Hp & Hr & Hs').
  exists (evs ++ pre), es, entry, es', rs, post. rewrite Hj', Hj, <- !app_assoc, !foldl_app.
  rewrite foldl_app in Hs'. done.
Qed.

Section laws.
Context (cl : Cluster) (laws : ClusterLaws cl).

Lemma write_committed n c s s' r :
  node_handle cl n _ (ClientWrite c) s = (s', Ok r) → committed cl n c (outcome_to_result r) s s'.
Proof using laws RL SL RSL.
  intros Hw. apply applied_committed; [|by eapply client_write_law].
  pose proof (passive_law cl laws n _ (ClientWrite c) s n I) as He. by rewrite Hw in He.
Qed.

Lemma resolve_passive hosts : ∀ out, only passive (resolve_into out hosts).
Proof.
  induction hosts as [|host hosts IH]; intros out; cbn [resolve_into]; [done|].
  apply only_bind; [by apply only_call|]. intros []; apply IH.
Qed.

Lemma source_allowed_passive state request : only passive (source_allowed state request).
Proof.
  unfold source_allowed, peers_allow. destruct (pd_enabled _); [|done]. destruct (rr_source request); [|done].
  simpl negb. cbv iota. apply only_bind; [by apply only_call|]. intros resolved. case_bool_decide; [done|].
  apply only_bind; [apply resolve_passive|]. intros fresh. by apply only_bind; [apply only_call|].
Qed.

(** A success answer of a node is that of a route, after checks that leave the
    store to the engine. *)
Lemma served m state request s s' resp :
  exec (node_handle cl m) (raft_router state request) s = (s', resp) → is_success (resp_status resp) = true →
  ∃ s1, extended cl m s s1 ∧ exec (node_handle cl m) (route state request) s1 = (s', resp).
Proof using laws.
  intros Hexec Hok. unfold raft_router, guard in Hexec. rewrite exec_bind in Hexec.
  pose proof (exec_only (node_handle cl m) passive (extended cl m)
    (source_allowed state request) s (λ X c s Hc, passive_law cl laws m X c s m Hc)
    (source_allowed_passive state request)) as Hev.
  destruct (exec _ (source_allowed state request) s) as [s1 allowed]. simpl in Hev.
  destruct allowed; simpl negb in Hexec; cbv iota in Hexec; [|rewrite exec_ret in Hexec; by simplify_eq].
  destruct (accepts _ _); simpl negb in Hexec; cbv iota in Hexec; [|rewrite exec_ret in Hexec; by simplify_eq].
  by exists s1.
Qed.

Lemma served_json {A} `{!Serde A} m body (f : A → node Response) a s s' resp :
  exec (node_handle cl m) (with_json body f) s = (s', resp) → is_success (resp_status resp) = true →
  from_slice body = Some a → exec (node_handle cl m) (f a) s = (s', resp).
Proof.
  intros Hexec Hok Ha. unfold with_json in Hexec. case_match; [rewrite exec_ret in Hexec; by simplify_eq|].
  by rewrite Ha in Hexec.
Qed.

(** A route that answers with what one call of the engine returned. *)
Lemma engine_answer {X} `{!Serde X, !SerdeLaws X} m (c : node_call X) s s' resp :
  exec (node_handle cl m) (r ← call c; mret (json_response r)) s = (s', resp) →
  ∃ r, node_handle cl m _ c s = (s', r) ∧ from_slice (resp_body resp) = Some r.
Proof.
  rewrite exec_bind, exec_call. destruct (node_handle cl m X c s) as [s1 r]. rewrite exec_ret. intros [= -> <-].
  exists r. split; [done|]. destruct (serde_roundtrip r) as (bs & Hbs & Hr). unfold json_response. by rewrite Hbs.
Qed.

Lemma served_apply m c s s' resp :
  exec (node_handle cl m) (serve_apply c) s = (s', resp) → is_success (resp_status resp) = true →
  ∃ r, node_handle cl m _ (ClientWrite c) s = (s', Ok r) ∧ from_slice (resp_body resp) = Some r.
Proof using PSL.
  unfold serve_apply. rewrite exec_bind, exec_call. destruct (node_handle cl m _ (ClientWrite c) s) as [s1 [r|e]];
    rewrite exec_ret; intros [= -> <-] Hok; [|done].
  exists r. split; [done|]. destruct (serde_roundtrip r) as (bs & Hbs & Hr). unfold json_response. by rewrite Hbs.
Qed.

Lemma forward_run n nd addr c s s' r :
  exec (node_handle cl n) (forward nd addr c) s = (s', r) →
  (∃ what, r = Err (Internal what))
  ∨ ∃ m, reaches cl addr m ∧ committed cl m c r s s'.
Proof using laws AXL PSL RSL SL RL.
  unfold forward, post_json. destruct (serde_roundtrip c) as (body & Hbody & Hc). rewrite Hbody.
  rewrite exec_bind, exec_call. set (request := Build_HttpRequest _ _ _ _ _).
  destruct (node_handle cl n _ (Send request) s) as [s1 sent] eqn:Hsend. rewrite exec_ret. intros [= <- <-].
  destruct sent as [response|err]; [|left; eauto].
  destruct (is_success (rs_status response)) eqn:Hok; [|left; unfold leader_rejected; eauto].
  destruct (rs_body response) as [bs|] eqn:Hbs; simpl; [|left; eauto].
  destruct (http_law cl laws n request s s1 response bs addr RouteApply Hsend eq_refl eq_refl Hbs)
    as (m & source & presented & Hm & Hexec).
  destruct (served _ _ _ _ _ _ Hexec Hok) as (s2 & Hev & Hroute).
  apply (served_json _ _ _ c) in Hroute; [|done..].
  destruct (served_apply _ _ _ _ _ Hroute Hok) as (o & Hw & Hdec).
  simpl in Hdec. rewrite Hdec. simpl. right. exists m. split; [done|].
  eapply extended_committed; [exact Hev|]. by eapply write_committed.
Qed.

Definition internal (r : StoreResult unit) : Prop := ∃ what, r = Err (Internal what).

(** C4. A write of a clustered node is put in its own log when its engine takes
    it, and else goes to the leader the engine names, if it names one.  Unless
    it fails with an internal error (no leader, the leader not reached or not
    leading any more, its answer lost), the journal of the node that took it
    gained an entry with the command, and the caller gets exactly what the
    abstract vault of that node, taken through everything its journal has before
    the entry, answers: the same outcome as on a single node, whether or not the
    command travelled to the leader and back as JSON. *)
Theorem cluster_write_refines n nd c s s' r :
  is_local c = false → exec (node_handle cl n) (cluster_apply nd c) s = (s', r) →
  match (node_handle cl n _ (ClientWrite c) s).2 with
  | Ok _ => committed cl n c r s s'
  | Err (ForwardToLeader (Some addr)) =>
      internal r ∨ ∃ m, reaches cl addr m ∧ committed cl m c r s s'
  | Err (ForwardToLeader None) | Err (WriteFailed _) => internal r
  end.
Proof using laws AXL PSL RSL SL RL.
  intros Hloc Hexec. unfold cluster_apply in Hexec. rewrite Hloc in Hexec. unfold write in Hexec.
  rewrite exec_bind, exec_call in Hexec.
  pose proof (λ m, passive_law cl laws n _ (ClientWrite c) s m I) as Hev.
  destruct (node_handle cl n _ (ClientWrite c) s) as [s1 w] eqn:Hw. simpl in Hev |- *.
  destruct w as [outcome|[[addr|]|err]].
  - rewrite exec_ret in Hexec. injection Hexec as <- <-.
    by eapply write_committed.
  - destruct (forward_run _ _ _ _ _ _ _ Hexec) as [Hint|(m & Hm & Hc)]; [by left|]. right. exists m.
    split; [done|]. by eapply extended_committed; [apply Hev|].
  - rewrite exec_ret in Hexec. injection Hexec as <- <-. eexists. done.
  - rewrite exec_ret in Hexec. injection Hexec as <- <-. eexists. done.
Qed.

(** ** The engine's messages *)

Lemma rpc_run {Req Resp E} `{!Serde Req, !SerdeLaws Req, !Serde (result E Resp)} n conn path (req : Req) s s' r :
  exec (node_handle cl n) (rpc (Resp := Resp) (E := E) conn path req) s = (s', r) →
  match r with
  | Err (NetworkFailure _) | Err (StatusFailure _ _ _) => True
  | _ => ∃ request response bs res,
      node_handle cl n _ (Send request) s = (s', Ok response)
      ∧ rq_method request = POST ∧ rq_url request = "http://" +:+ nc_addr conn +:+ "/" +:+ path ∧ from_slice (rq_body request) = Some req
      ∧ rs_body response = Ok bs ∧ is_success (rs_status response) = true
      ∧ from_slice bs = Some res ∧ r = map_err (RemoteFailure (nc_target conn)) res
  end.
Proof.
  unfold rpc, post_json. destruct (serde_roundtrip req) as (body & Hbody & Hreq). rewrite Hbody.
  rewrite exec_bind, exec_call. set (request := Build_HttpRequest _ _ _ _ _).
  destruct (node_handle cl n _ (Send request) s) as [s1 sent] eqn:Hsend. rewrite exec_ret. intros [= <- <-].
  destruct sent as [response|err]; [|done]. simpl. destruct (rs_body response) as [bs|] eqn:Hbs; [|done]. simpl.
  destruct (is_success (rs_status response)) eqn:Hok; [|done]. simpl.
  destruct (from_slice bs) as [[resp|e]|] eqn:Hdec; [| |done]; simpl; by exists request, response, bs; eexists.
Qed.

(** A message to the peer at [addr] was handled by its engine: between the
    checks and the answer, one call, whose result is [res]. *)
Definition handled {X} (addr : string) (c : node_call X) (s s' : Env cl) (res : X) : Prop :=
  ∃ m s1, reaches cl addr m ∧ extended cl m s s1 ∧ node_handle cl m X c s1 = (s', res).

(** What the caller of a message is told. *)
Definition relayed {E Resp} (conn : NetworkConnection) (c : node_call (result E Resp)) (s s' : Env cl)
    (r : result (RpcFailure E) Resp) : Prop :=
  match r with
  | Ok resp => handled (nc_addr conn) c s s' (Ok resp)
  | Err (RemoteFailure target e) => target = nc_target conn ∧ handled (nc_addr conn) c s s' (Err e)
  | Err (NetworkFailure _) | Err (StatusFailure _ _ _) => True
  end.

Lemma rpc_relayed {Req Resp E} `{!Serde Req, !SerdeLaws Req, !Serde (result E Resp)} (route_ : RaftRoute)
    (serve : ServerState → Req → node Response) (c : Req → node_call (result E Resp)) n conn req s s' r :
  route_method route_ = POST →
  (∀ state request, rr_route request = route_ → route state request = with_json (rr_body request) (serve state)) →
  (∀ m state s s' resp, exec (node_handle cl m) (serve state req) s = (s', resp) → is_success (resp_status resp) = true →
     ∃ res, node_handle cl m _ (c req) s = (s', res) ∧ from_slice (resp_body resp) = Some res) →
  exec (node_handle cl n) (rpc (Resp := Resp) (E := E) conn (route_path route_) req) s = (s', r) →
  relayed conn (c req) s s' r.
Proof using laws.
  intros Hpost Hroute Hserve Hrun. apply rpc_run in Hrun.
  assert (∀ request response bs res,
    node_handle cl n _ (Send request) s = (s', Ok response) → rq_method request = POST →
    rq_url request = "http://" +:+ nc_addr conn +:+ "/" +:+ route_path route_ →
    from_slice (rq_body request) = Some req → rs_body response = Ok bs →
    is_success (rs_status response) = true → from_slice bs = Some res → handled (nc_addr conn) (c req) s s' res) as Hall.
  { intros request response bs res Hsend Hm Hurl Hreq Hbs Hok Hres.
    destruct (http_law cl laws n request s s' response bs (nc_addr conn) route_ Hsend) as (m & source & presented & Hat & Hexec);
      [congruence|done..|].
    destruct (served _ _ _ _ _ _ Hexec Hok) as (s1 & Hev & Hr). rewrite Hroute in Hr by done.
    apply (served_json _ _ _ req) in Hr; [|done..].
    destruct (Hserve _ _ _ _ _ Hr Hok) as (res' & Hh & Hres'). simpl in Hres'. rewrite Hres in Hres'.
    injection Hres' as <-. by exists m, s1. }
  unfold relayed. destruct r as [resp|[err|url status body|target e]]; try done;
    destruct Hrun as (request & response & bs & [resp'|e'] & H1 & H2 & H3 & H4 & H5 & H6 & H7 & H8); simplify_eq/=; eauto.
Qed.

(** C29. What the Raft engine of one node is told about a message to another is
    what the other's engine answered to that very message, success or error
    (an error names the peer); everything else that can happen to the message
    is a network failure. *)
Theorem peer_rpc_faithful n conn s s' :
  (∀ req r, exec (node_handle cl n) (client_append_entries conn req) s = (s', r) →
     relayed conn (AppendEntries req) s s' r)
  ∧ (∀ req r, exec (node_handle cl n) (client_install_snapshot conn req) s = (s', r) →
     relayed conn (InstallSnapshot req) s s' r)
  ∧ (∀ req r, exec (node_handle cl n) (client_vote conn req) s = (s', r) →
     relayed conn (CastVote req) s s' r).
Proof using laws PSL.
  split_and!; intros req r.
  - apply (rpc_relayed RouteAppend serve_append AppendEntries); [done|by intros ? ? Hr; unfold route; rewrite Hr|].
    intros m state s0 s1 resp Hexec Hok. unfold serve_append in Hexec.
    destruct (allows_leader _ _), (vote_committed _); simpl negb in Hexec; cbv iota in Hexec;
      first [by apply engine_answer in Hexec | rewrite exec_ret in Hexec; by simplify_eq].
  - apply (rpc_relayed RouteSnapshot serve_snapshot InstallSnapshot); [done|by intros ? ? Hr; unfold route; rewrite Hr|].
    intros m state s0 s1 resp Hexec Hok. unfold serve_snapshot in Hexec.
    destruct (allows_leader _ _), (vote_committed _); simpl negb in Hexec; cbv iota in Hexec;
      first [by apply engine_answer in Hexec | rewrite exec_ret in Hexec; by simplify_eq].
  - apply (rpc_relayed RouteVote serve_vote CastVote); [done|by intros ? ? Hr; unfold route; rewrite Hr|].
    intros m state s0 s1 resp Hexec Hok. unfold serve_vote in Hexec.
    destruct (allows_leader _ _); simpl negb in Hexec; cbv iota in Hexec;
      first [by apply engine_answer in Hexec | rewrite exec_ret in Hexec; by simplify_eq].
Qed.
End laws.
End cluster.
