(* ===== verification/ClusterSamples.v ===== *)
(** * A concrete cluster

    Small openraft messages, and two nodes, of which the first leads and the
    second forwards to it: on these the theorems on nodes, peers and clusters
    are applied. *)

From S2P Require Import Prelude RustStr CoreTypes Redb Keys Model Serial Apply Spec Samples Refine Engine.
From S2P Require Import RaftStore RaftSamples RaftThms Platform Crypto IpAddr ApiTypes Calls Peer RaftNode.
From S2P Require Import NodeThms PeerThms ClusterThms ServiceSamples.

(** ** Messages *)

(** A vote is its node's id, negative while it is not committed; a message is
    its vote. *)
#[export] Instance sample_rpc : RaftRpc := {|
  vote_committed (v : @Vote sample_raft) := (0 <? v)%Z; voted_for (v : @Vote sample_raft) := Some (Z.abs v);
  AppendEntriesRequest := Z; append_vote (r : Z) := r;
  InstallSnapshotRequest := Z; install_vote (r : Z) := r;
  VoteRequest := Z; vote_vote (r : Z) := r;
  AppendEntriesResponse := Z; InstallSnapshotResponse := Z; VoteResponse := Z;
  RaftError := string; RaftInstallError := string;
  display_write_error e := "not the leader" |}.

Definition restore_code (w : RestoreError) : Z * (string * Z) :=
  match w with
  | UnsupportedBackupVersion v => (0, ("", v))
  | InvalidSecretName n => (1, (n, 0))
  | InvalidVersionKey k => (2, (k, 0))
  | AuditKeyAboveMaximum k => (3, ("", k))
  end%Z.
Definition message_code (m : message) : Z * (string * Z) :=
  match m with
  | SecretVersionBelowMinimum v => (4, ("", v))
  | SecretNameOutsideAlphabet n => (5, (n, 0))
  | SecretAlreadyExists n => (6, (n, 0))
  | RoleAlreadyExists n => (7, (n, 0))
  | RoleStillHasTokens n => (8, (n, 0))
  | FingerprintAlreadyExists => (9, ("", 0))
  | TokenAlreadyExists n => (10, (n, 0))
  | AuditKeySpaceExhausted => (11, ("", 0))
  | RestoreRefused why => restore_code why
  end%Z.
Definition message_decode (c : Z * (string * Z)) : message :=
  let '(tag, (n, v)) := c in
  match tag with
  | 0 => RestoreRefused (UnsupportedBackupVersion v)
  | 1 => RestoreRefused (InvalidSecretName n)
  | 2 => RestoreRefused (InvalidVersionKey n)
  | 3 => RestoreRefused (AuditKeyAboveMaximum v)
  | 4 => SecretVersionBelowMinimum v
  | 5 => SecretNameOutsideAlphabet n
  | 6 => SecretAlreadyExists n
  | 7 => RoleAlreadyExists n
  | 8 => RoleStillHasTokens n
  | 9 => FingerprintAlreadyExists
  | 10 => TokenAlreadyExists n
  | _ => AuditKeySpaceExhausted
  end%Z.
#[export] Instance serial_message : Serial message.
Proof. refine (serial_iso message_code message_decode _). by intros [| | | | | | | |[]]. Defined.

#[export] Instance serial_apply_result : Serial ApplyResult.
Proof.
  serial (λ r, match r with
            | ApplyOk => inl (Some true) | ApplyNotFound => inl (Some false)
            | ApplyVersionConflict => inl None | ApplyConflict m => inr m end)
         (λ s : option bool + message, match s with
            | inl (Some true) => ApplyOk | inl (Some false) => ApplyNotFound
            | inl None => ApplyVersionConflict | inr m => ApplyConflict m end).
Defined.

#[export] Instance serial_result `{!Serial A, !Serial E} : Serial (result E A).
Proof.
  serial (λ r : result E A, match r with Ok a => inl a | Err e => inr e end)
         (λ s : A + E, match s with inl a => Ok a | inr e => Err e end).
Defined.

#[export] Instance sample_peer_serde : PeerSerde := {|
  serde_bool := serial_serde; serde_command := serial_serde; serde_apply_result := serial_serde;
  serde_append_request := serial_serde (A := Z); serde_install_request := serial_serde (A := Z);
  serde_vote_request := serial_serde (A := Z);
  serde_append_result := serial_serde (A := result string Z);
  serde_install_result := serial_serde (A := result string Z);
  serde_vote_result := serial_serde (A := result string Z) |}.

#[export] Instance sample_peer_serde_laws : PeerSerdeLaws.
Proof. split; apply serial_serde_laws. Qed.

#[export] Instance sample_axum : Axum := λ _, 422%Z.
#[export] Instance sample_axum_laws : AxumLaws.
Proof. intros b. unfold rejection_status, sample_axum. lia. Qed.

(** ** Two nodes *)

Module Pair.
Definition leader_addr : string := "n1:7000".
Definition server : ServerState := {|
  ss_auth := peer_auth_disabled;
  ss_peers := {| pd_enabled := false; pd_ids := [1; 2]%Z; pd_hosts := [] |} |}.

Definition accepted (c : Command) : bool :=
  match c with
  | CreateSecret _ v => bool_decide (in_i32 (v_version v))
  | PutVersion _ n v _ _ _ _ _ _ => bool_decide (in_i32 n) && bool_decide (in_i32 (v_version v))
  | RewrapVersion _ v _ _ _ => bool_decide (in_i32 v)
  | RestoreDatabase _ => false
  | _ => true
  end.

Lemma accepted_well_typed c : accepted c = true → well_typed c.
Proof.
  destruct c; simpl; rewrite ?andb_true_iff, ?bool_decide_eq_true; try done.
Qed.

(** The leader's engine applies each command at once. *)
Definition leader_db X (c : node_call X) : Database → Database * X :=
  match c in node_call X return Database → Database * X with
  | LookupHost _ _ => λ d, (d, LookupTimedOut)
  | ReadResolved => λ d, (d, ∅)
  | WriteResolved _ => λ d, (d, tt)
  | Send _ => λ d, (d, Err "unreachable")
  | Sleep _ => λ d, (d, tt)
  | ValidateConfig _ => λ d, (d, Ok tt)
  | RaftNew _ _ => λ d, (d, Ok tt)
  | IsInitialized => λ d, (d, Ok true)
  | Initialize _ => λ d, (d, Err "initialized")
  | ClientWrite c => λ d,
      if accepted c
      then match RaftStore.apply 1 [RaftSamples.entry 1 c] d with
           | (d', Ok [r]) => (d', Ok r)
           | _ => (d, Err (WriteFailed "storage"))
           end
      else (d, Err (WriteFailed "unsupported"))
  | AppendEntries rpc => λ d, (d, Ok rpc)
  | InstallSnapshot rpc => λ d, (d, Ok rpc)
  | CastVote rpc => λ d, (d, Err "refused")
  | InitRaftTables => λ d, (d, Ok tt)
  | NormalizeRaftLog => λ d, (d, Ok tt)
  | ResetRaftState => λ d, (d, Ok tt)
  | LocalRead f => λ d, (d, f d)
  | LocalApply c => λ d, (d, Ok tt)
  end.

Definition routes : list RaftRoute := [RouteAppend; RouteSnapshot; RouteVote; RouteApply; RouteInitialized].

#[export] Instance HttpMethod_eq_dec : EqDecision HttpMethod.
Proof. solve_decision. Defined.

(** The route of the leader a request is for. *)
Definition route_of (request : HttpRequest) : option RaftRoute :=
  head (filter (λ r, rq_method request = route_method r ∧ rq_url request = route_url leader_addr r) routes).

(** The leader's store and its journal are the state; the follower's store stays empty. *)
Notation state := (Database * list store_event)%type.

Definition journal_of X (c : node_call X) : X → list store_event :=
  match c in node_call X return X → list store_event with
  | ClientWrite c => λ r, match r with Ok r => [Applied [RaftSamples.entry 1 c] [r]] | Err _ => [] end
  | _ => λ _, []
  end.

Definition leader X (c : node_call X) (s : state) : state * X :=
  let '(d', x) := leader_db X c s.1 in ((d', s.2 ++ journal_of X c x), x).

Definition follower X (c : node_call X) : state → state * X :=
  match c in node_call X return state → state * X with
  | Send request => λ d,
      match route_of request with
      | Some r =>
          let '(d', resp) := exec leader (raft_router server
            {| rr_route := r; rr_source := None; rr_authorization := None; rr_body := rq_body request |}) d in
          (d', Ok {| rs_status := resp_status resp; rs_body := Ok (resp_body resp) |})
      | None => (d, Err "unreachable")
      end
  | ClientWrite _ => λ d, (d, Err (ForwardToLeader (Some leader_addr)))
  | c => leader _ c
  end.

Definition cluster : Cluster := {|
  Env := state; node_db n s := if (n =? 1)%Z then s.1 else empty_database;
  node_journal n s := if (n =? 1)%Z then s.2 else [];
  node_handle n := if (n =? 1)%Z then leader else follower;
  node_server _ := server; reaches _ m := m = 1%Z |}.

Lemma route_url_inj addr1 addr2 r1 r2 : route_url addr1 r1 = route_url addr2 r2 → r1 = r2.
Proof.
  unfold route_url. intros H%(f_equal (λ s, reverse (as_bytes s))). rewrite !as_bytes_append, !reverse_app in H.
  by destruct r1, r2.
Qed.

Lemma leader_writes c s s' r :
  leader _ (ClientWrite c) s = (s', Ok r) → applied_as cluster 1 c r s s'.
Proof.
  unfold leader. destruct (leader_db _ (ClientWrite c) s.1) as [d1 x]. intros [= <- ->].
  by exists [], [], (RaftSamples.entry 1 c), [], [], [], [].
Qed.

Lemma leader_extends X (c : node_call X) s : passive X c → extended cluster 1 s (leader X c s).1.
Proof.
  destruct s as [d j]. destruct c; try done; intros _; try by (exists []).
  unfold leader. destruct (leader_db _ (ClientWrite command) d) as [d1 x] eqn:Hw.
  exists (journal_of _ (ClientWrite command) x). simpl in *. rewrite Hw. split; [done|]. revert Hw.
  destruct (accepted command) eqn:Hc; [|by intros [= <- <-]].
  destruct (RaftStore.apply 1 _ d) as [d2 [[|r [|]]|]] eqn:Happ; intros [= <- <-]; try done.
  exists d2. split; [|done]. split; [|done]. repeat constructor. by apply accepted_well_typed.
Qed.

Lemma cluster_laws : ClusterLaws cluster.
Proof.
  split.
  - intros n X c d m Hc. destruct (Z.eqb_spec m 1) as [->|Hm].
    + simpl. destruct (n =? 1)%Z; [by apply leader_extends|]. destruct c; try done; by apply leader_extends.
    + exists []. simpl. by rewrite (proj2 (Z.eqb_neq m 1) Hm).
  - intros n c d d' r. simpl. destruct (Z.eqb_spec n 1) as [->|]; [apply leader_writes|done].
  - intros n request d d' response bs addr route Hsend Hm Hurl Hbs. simpl in Hsend.
    destruct (n =? 1)%Z; [done|]. simpl in Hsend. destruct (route_of request) as [r|] eqn:Hr; [|done].
    assert (r = route) as ->.
    { apply head_Some_elem_of, list_elem_of_filter in Hr as [[_ Hr] _]. eapply route_url_inj. by rewrite <- Hr. }
    exists 1%Z, None, None. split; [done|]. simpl. destruct (exec leader _ d) as [d1 resp].
    injection Hsend as <- <-. simpl in *. injection Hbs as <-. by destruct resp.
Qed.

(** The follower, as the node that handles a client's request. *)
Definition second : RaftNode := {|
  rn_peers := [(1%Z, leader_addr); (2%Z, "n2:7000")]; rn_node_id := 2; rn_auth := peer_auth_disabled |}.
End Pair.

(** The second creation of a secret, through the follower: the leader's journal
    has both attempts, and the second is the conflict. *)
Lemma cluster_write_refines_witness :
  let c := CreateSecret (Samples.secret "a/x") (Samples.version "a/x" 1) in
  let s := (node_handle Pair.cluster 1 _ (ClientWrite c) (empty_database, [])).1 in
  ∃ s', exec (node_handle Pair.cluster 2) (cluster_apply Pair.second c) s
          = (s', Err (Conflict (SecretAlreadyExists "a/x")))
    ∧ committed Pair.cluster 1 c (Err (Conflict (SecretAlreadyExists "a/x"))) s s'
    ∧ length s'.2 = 2 ∧ ∃ a, sound (node_db Pair.cluster 1 s) a.
Proof.
  intros c s. destruct (exec (node_handle Pair.cluster 2) (cluster_apply Pair.second c) s) as [s' r] eqn:Hexec.
  pose proof (cluster_write_refines Pair.cluster Pair.cluster_laws 2 Pair.second c s s' r eq_refl Hexec) as Hc.
  assert (r = Err (Conflict (SecretAlreadyExists "a/x"))) as ->.
  { change r with (s', r).2. rewrite <- Hexec. vm_compute. reflexivity. }
  exists s'. split; [done|]. split.
  - destruct Hc as [[? ?]|(m & -> & Hc)]; [done|]. exact Hc.
  - change s' with (s', Err (A := unit) (Conflict (SecretAlreadyExists "a/x"))).1. rewrite <- Hexec.
    split; [vm_compute; reflexivity|].
    destruct (Pair.leader_extends _ (ClientWrite c) (empty_database, []) I) as (evs & _ & Hh).
    eexists. eapply history_sound; [|exact Hh]. split; [apply abstracts_empty|vm_compute; reflexivity].
Defined.

(** A message the leader's engine takes. *)
Lemma peer_rpc_faithful_witness :
  relayed Pair.cluster (new_client peer_auth_disabled 1 Pair.leader_addr) (AppendEntries 1%Z)
    (empty_database, []) (empty_database, []) (Ok 1%Z).
Proof.
  destruct (peer_rpc_faithful Pair.cluster Pair.cluster_laws 2 (new_client peer_auth_disabled 1 Pair.leader_addr)
    (empty_database, []) (empty_database, [])) as [H _].
  apply (H 1%Z (Ok 1%Z)). vm_compute. reflexivity.
Defined.

(** ** Runs *)

(** Step through a program along a given trace. *)
Ltac replay := repeat (refine (ex_intro _ _ (ex_intro _ _ (conj eq_refl _)))); exact (conj eq_refl eq_refl).

Module Runs.
Definition first : RaftNode := {|
  rn_peers := rn_peers Pair.second; rn_node_id := 1; rn_auth := peer_auth_disabled |}.

Definition says (b : bool) : result string HttpResponse :=
  Ok {| rs_status := 200; rs_body := Ok (ser b) |}.

Definition probe (addr : string) (answer : result string HttpResponse) : event node_call :=
  Event _ (Send (probe_request peer_auth_disabled addr)) answer.

(** The other node is not up at first, and then has no cluster. *)
Definition discovery : list (event node_call) :=
  [probe "n2:7000" (Err "refused"); Event _ (Sleep 2) tt; probe "n2:7000" (says false)].

Definition create : event node_call := Event _ (Initialize (rn_peers first)) (Ok tt).
End Runs.

Lemma discovery_decides_witness :
  answers (cluster_already_running Runs.first) Runs.discovery false
  ∧ (∃ pre round, Runs.discovery = pre ++ round
      ∧ clear_round peer_auth_disabled [(2%Z, "n2:7000")] round).
Proof.
  assert (answers (cluster_already_running Runs.first) Runs.discovery false) as H by replay.
  split; [exact H|]. destruct (discovery_decides _ _ _ H) as [_ [[? _]|(pre & round & Ht & Hc & _)]]; [done|].
  exists pre, round. split; [exact Ht|exact Hc].
Defined.

Lemma bootstrap_no_split_brain_witness :
  let tr := Event _ IsInitialized (Ok false) :: Runs.discovery ++ [Runs.create] in
  answers (bootstrap Runs.first) tr (Ok tt)
  ∧ head (rn_peers Runs.first).*1 ∈ [Some 1%Z; None].
Proof.
  intros tr. assert (answers (bootstrap Runs.first) tr (Ok tt)) as H by replay.
  split; [exact H|]. apply (bootstrap_no_split_brain Runs.first tr (Ok tt) Runs.create (rn_peers Runs.first) H);
    [subst tr; set_solver|done].
Defined.

Lemma bootstrap_creates_witness :
  Exists (λ ev, initializes ev = Some (rn_peers Runs.first)) (Runs.discovery ++ [Runs.create]).
Proof.
  apply (bootstrap_creates Runs.first (Runs.discovery ++ [Runs.create]) (Ok tt)).
  - replay.
  - vm_compute. left.
  - repeat constructor; vm_compute; discriminate.
  - right. do 2 apply Exists_cons_tl. apply Exists_cons_hd. vm_compute. reflexivity.
Defined.

Lemma start_resets_only_to_rejoin_witness :
  let pre := [Event _ (ValidateConfig node_config) (Ok tt); Event _ InitRaftTables (Ok tt);
              Event _ NormalizeRaftLog (Err (Text "read last_applied")); Runs.probe "n2:7000" (Runs.says true)] in
  may_reset 1 (rn_peers Runs.first) peer_auth_disabled pre.
Proof.
  intros pre. set (tr := pre ++ [Event _ ResetRaftState (Ok tt); Event _ (RaftNew 1 node_config) (Ok tt)]).
  assert (answers (start 1 (rn_peers Runs.first) peer_auth_disabled) tr (Ok Runs.first)) as H by replay.
  destruct (start_resets_only_to_rejoin 1 (rn_peers Runs.first) peer_auth_disabled tr (Ok Runs.first) H) as [Hr _].
  by apply (Hr pre (Event _ ResetRaftState (Ok tt)) [Event _ (RaftNew 1 node_config) (Ok tt)]).
Defined.

(** An append of node 1, to a server that asks for the token [s3cret]. *)
Lemma raft_router_guarded_witness :
  let state := {| ss_auth := {| pa_header := Some "Bearer s3cret"; pa_fingerprint := Some (fingerprint "s3cret");
                                pa_required := true |};
                  ss_peers := ss_peers Pair.server |} in
  let request := {| rr_route := RouteAppend; rr_source := None; rr_authorization := Some "Bearer s3cret";
                    rr_body := ser 1%Z |} in
  let ev := Event _ (AppendEntries 1%Z) (Ok 7%Z) in
  answers (raft_router state request) [ev] (json_response (Serde0 := serde_append_result) (Ok 7%Z))
  ∧ faithful state request ev.
Proof.
  intros state request ev.
  assert (answers (raft_router state request) [ev] (json_response (Serde0 := serde_append_result) (Ok 7%Z))) as H by replay.
  split; [exact H|]. destruct (raft_router_guarded state request _ _ H) as [_ Hev].
  by destruct (Hev [] ev [] eq_refl eq_refl) as (_ & _ & ?).
Defined.

Lemma peer_credential_witness :
  ∃ auth, peer_auth_new (Some "s3cret") true = Ok auth ∧ accepts auth (pa_header auth) = true
    ∧ accepts auth None = false.
Proof.
  eexists. split; [reflexivity|]. destruct (peer_credential (Some "s3cret") true _ eq_refl) as (Hn & _ & Hh).
  split; [by apply Hh|exact Hn].
Defined.
