(* ===== verification/Config.v ===== *)
(** * Configuration

    Models [config.rs], and what it uses of the standard library's parsers of
    integers and socket addresses.  The process environment is a function from
    names to values, [None] when a variable is not set or is not text. *)

From S2P Require Import Prelude RustStr CoreTypes Redb Keys Model Engine Platform IpAddr PgApply Calls.

(** ** std *)

(** [str::parse] of a signed type *)
Definition parse_signed (min max : Z) (s : string) : option Z :=
  match s with
  | String "-" s' =>
      if is_empty s' then None
      else match parse_acc 0 s' with
           | Some n => if decide (n ≤ - min)%Z then Some (- n)%Z else None
           | None => None
           end
  | _ => parse_unsigned max s
  end.
Definition parse_i64 (s : string) : option Z := parse_signed i64_min i64_max s.
Definition parse_u32 (s : string) : option Z := parse_unsigned u32_max s.
Definition parse_u64 (s : string) : option Z := parse_unsigned u64_max s.

Record SocketAddr := { sa_ip : IpAddr; sa_scope : Z; sa_port : Z }.

Definition read_u (max : Z) (s : string) : option (Z * string) := read_number 10 (String.length s) max true s.
Definition read_port (s : string) : option (Z * string) := s ← read_given_char ":" s; read_u u16_max s.

(** [str::parse::<SocketAddr>]: [a.b.c.d:port] or [[v6%scope]:port]. *)
Definition parse_socket_addr (s : string) : option SocketAddr :=
  let v4 := '(a, s) ← read_ipv4_addr s;
            '(port, s) ← read_port s;
            Some ({| sa_ip := V4 a; sa_scope := 0; sa_port := port |}, s) in
  let v6 := s ← read_given_char "[" s;
            '(segments, s) ← read_ipv6_addr s;
            let '(scope, s) :=
              default (0%Z, s) (s ← read_given_char "%" s; read_u u32_max s) in
            s ← read_given_char "]" s;
            '(port, s) ← read_port s;
            Some ({| sa_ip := V6 segments; sa_scope := scope; sa_port := port |}, s) in
  match (match v4 with Some r => Some r | None => v6 end) with
  | Some (addr, "") => Some addr
  | _ => None
  end.

(** [str::to_lowercase], as far as a comparison with ASCII text can tell: the
    only letter outside ASCII whose lower case is ASCII is the Kelvin sign. *)
Fixpoint to_lowercase (s : string) : string :=
  match s with
  | "" => ""
  | String a s1 =>
      match s1 with
      | String b (String c s3) =>
          if byte_in 226 226 a && byte_in 132 132 b && byte_in 170 170 c
          then String "k" (to_lowercase s3)
          else String (to_lower_byte a) (to_lowercase s1)
      | _ => String (to_lower_byte a) (to_lowercase s1)
      end
  end.

(** ** config.rs *)

Inductive KmsMode := Aws | Local.
#[global] Instance KmsMode_eq_dec : EqDecision KmsMode.
Proof. solve_decision. Defined.

Record Config := {
  cfg_node_id : Z;
  cfg_peers : BTreeMap string;
  cfg_api_listen : SocketAddr;
  cfg_db_path : string;
  cfg_bootstrap_token : option string;
  cfg_allowed_ips : string;
  cfg_trust_proxy : bool;
  cfg_read_consistency_linearizable : bool;
  cfg_kms_mode : KmsMode;
  cfg_kms_key_id : string;
  cfg_local_master_key_b64 : option string;
  cfg_raft_bind : string;
  cfg_cluster_token : option string;
  cfg_cluster_auth_required : bool;
  cfg_raft_peer_check : bool;
  cfg_rotation_poll_secs : Z;
  cfg_pg_target_hosts : string;
  cfg_pg_target_tls : PgTlsMode;
  cfg_pg_target_ca_file : option string;
  cfg_dek_cache_ttl_secs : Z;
  cfg_kms_max_retries : Z;
  cfg_kms_rewrap_enabled : bool;
  cfg_kms_rewrap_poll_secs : Z;
  cfg_kms_rewrap_max_per_sec : Z;
  cfg_auth_max_failures : Z;
  cfg_auth_lockout_secs : Z;
  cfg_auth_window_secs : Z;
  cfg_token_touch_secs : Z;
}.

Definition parse_bool (value : string) : bool :=
  bool_decide (to_lowercase value ∈ ["1"; "true"; "yes"; "on"]).

Fixpoint parse_peers_from (entries : list string) (map : BTreeMap string) : result cause (BTreeMap string) :=
  match entries with
  | [] => Ok map
  | entry :: entries =>
      let entry := trim entry in
      if is_empty entry then parse_peers_from entries map else
      '(id, addr) ← ok_or (Text ("VAULT_PEERS entry '" +:+ entry +:+ "' must be 'id=host:port'"))
                      (split_once "=" entry);
      id ← ok_or (Text ("VAULT_PEERS id '" +:+ id +:+ "' must be an integer")) (parse_u64 (trim id));
      let addr := trim addr in
      if is_empty addr then Err (Text ("VAULT_PEERS entry '" +:+ entry +:+ "' has an empty address"))
      else parse_peers_from entries (btree_insert id addr map)
  end.

Definition parse_peers (raw : string) : result cause (BTreeMap string) :=
  parse_peers_from (split_char "," raw) [].

Section env.
Variable var : string → option string.

Definition env_or (key default_ : string) : string := default default_ (var key).

Definition env_opt (key : string) : option string :=
  value ← var key; if is_empty value then None else Some value.

(** [env_or(key, default).parse().context(what)?] *)
Definition env_parse (parse : string → option Z) (key default_ what : string) : result cause Z :=
  ok_or (Text what) (parse (env_or key default_)).

Definition env_kms_mode : result cause KmsMode :=
  let mode := to_lowercase (env_or "VAULT_KMS_MODE" "aws") in
  if decide (mode = "aws") then Ok Aws
  else if decide (mode = "local") then Ok Local
  else Err (Text ("VAULT_KMS_MODE must be 'aws' or 'local', got '" +:+ mode +:+ "'")).

Definition env_pg_target_tls : result cause PgTlsMode :=
  let mode := to_lowercase (env_or "VAULT_PG_TARGET_TLS" "prefer") in
  if decide (mode = "verify-full") then Ok VerifyFull
  else if decide (mode = "prefer") then Ok Prefer
  else if decide (mode = "disable") then Ok Disable
  else Err (Text ("VAULT_PG_TARGET_TLS must be 'verify-full', 'prefer' or 'disable', got '" +:+ mode +:+ "'")).

Definition from_env : result cause Config :=
  node_id ← env_parse parse_u64 "NODE_ID" "1" "NODE_ID must be a positive integer";
  if (node_id =? 0)%Z then Err (Text "NODE_ID must be >= 1") else
  peers ← parse_peers (env_or "VAULT_PEERS" "");
  api_port ← env_parse parse_u16 "VAULT_API_PORT" "8200" "VAULT_API_PORT must be a port number";
  let api_listen := {| sa_ip := V4 {| oct1 := 0; oct2 := 0; oct3 := 0; oct4 := 0 |};
                       sa_scope := 0; sa_port := api_port |} in
  let db_path := env_or "VAULT_DB_PATH" "vault.redb" in
  kms_mode ← env_kms_mode;
  let kms_key_id := env_or "VAULT_KMS_KEY_ID" "" in
  if bool_decide (kms_mode = Aws) && is_empty kms_key_id
  then Err (Text "VAULT_KMS_KEY_ID is required when VAULT_KMS_MODE=aws") else
  let cluster_token := env_opt "VAULT_CLUSTER_TOKEN" in
  let cluster_auth_required := parse_bool (env_or "VAULT_CLUSTER_AUTH_REQUIRED" "false") in
  if cluster_auth_required && negb (bool_decide (is_Some cluster_token))
  then Err (Text "VAULT_CLUSTER_AUTH_REQUIRED=true requires VAULT_CLUSTER_TOKEN") else
  pg_target_tls ← env_pg_target_tls;
  rotation_poll ← env_parse parse_u64 "VAULT_ROTATION_POLL_SECS" "15"
    "VAULT_ROTATION_POLL_SECS must be an integer";
  dek_cache_ttl ← env_parse parse_u64 "VAULT_DEK_CACHE_TTL_SECS" "300"
    "VAULT_DEK_CACHE_TTL_SECS must be an integer (seconds; 0 disables)";
  kms_max_retries ← env_parse parse_u32 "VAULT_KMS_MAX_RETRIES" "5"
    "VAULT_KMS_MAX_RETRIES must be an integer (0 disables retries)";
  rewrap_poll ← env_parse parse_u64 "VAULT_KMS_REWRAP_POLL_SECS" "86400"
    "VAULT_KMS_REWRAP_POLL_SECS must be an integer (seconds)";
  rewrap_max ← env_parse parse_u32 "VAULT_KMS_REWRAP_MAX_PER_SEC" "10"
    "VAULT_KMS_REWRAP_MAX_PER_SEC must be an integer (0 disables pacing)";
  max_failures ← env_parse parse_u32 "VAULT_AUTH_MAX_FAILURES" "5"
    "VAULT_AUTH_MAX_FAILURES must be an integer (0 disables lockout)";
  lockout_secs ← env_parse parse_i64 "VAULT_AUTH_LOCKOUT_SECS" "900"
    "VAULT_AUTH_LOCKOUT_SECS must be an integer (seconds a lockout lasts)";
  window_secs ← env_parse parse_i64 "VAULT_AUTH_WINDOW_SECS" "300"
    "VAULT_AUTH_WINDOW_SECS must be an integer (failure accumulation window)";
  touch_secs ← env_parse parse_i64 "VAULT_TOKEN_TOUCH_SECS" "300"
    "VAULT_TOKEN_TOUCH_SECS must be an integer (seconds between last_used_at writes; 0 writes on every request)";
  Ok {|
    cfg_node_id := node_id; cfg_peers := peers; cfg_api_listen := api_listen; cfg_db_path := db_path;
    cfg_bootstrap_token := env_opt "VAULT_BOOTSTRAP_TOKEN";
    cfg_allowed_ips := env_or "VAULT_ALLOWED_IPS" "";
    cfg_trust_proxy := parse_bool (env_or "VAULT_TRUST_PROXY" "false");
    cfg_read_consistency_linearizable :=
      bool_decide (to_lowercase (env_or "VAULT_READ_CONSISTENCY" "local") = "linearizable");
    cfg_kms_mode := kms_mode; cfg_kms_key_id := kms_key_id;
    cfg_local_master_key_b64 := env_opt "VAULT_LOCAL_MASTER_KEY";
    cfg_raft_bind := env_or "VAULT_RAFT_BIND" "0.0.0.0";
    cfg_cluster_token := cluster_token; cfg_cluster_auth_required := cluster_auth_required;
    cfg_raft_peer_check := parse_bool (env_or "VAULT_RAFT_PEER_CHECK" "false");
    cfg_rotation_poll_secs := rotation_poll;
    cfg_pg_target_hosts := env_or "VAULT_PG_TARGET_HOSTS" "";
    cfg_pg_target_tls := pg_target_tls;
    cfg_pg_target_ca_file := env_opt "VAULT_PG_TARGET_CA_FILE";
    cfg_dek_cache_ttl_secs := dek_cache_ttl; cfg_kms_max_retries := kms_max_retries;
    cfg_kms_rewrap_enabled := parse_bool (env_or "VAULT_KMS_REWRAP_ENABLED" "false");
    cfg_kms_rewrap_poll_secs := rewrap_poll; cfg_kms_rewrap_max_per_sec := rewrap_max;
    cfg_auth_max_failures := max_failures; cfg_auth_lockout_secs := lockout_secs;
    cfg_auth_window_secs := window_secs; cfg_token_touch_secs := touch_secs |}.
End env.

Definition peer_addr (self : Config) (id : Z) : option string := btree_get id (cfg_peers self).
Definition self_addr (self : Config) : option string := peer_addr self (cfg_node_id self).
