(* ===== verification/Startup.v ===== *)
(** * Starting the vault

    Models [lib.rs] (building the state of a node and starting its tasks) and
    [kms::build].  Start-up runs alone: it is a computation on the world of the
    node, whose store is the local database.  [node_env] answers the calls of
    the Raft start-up of [RaftNode], and may change the database as the engine
    does; the AWS client is given.  Log lines are not modelled. *)

From S2P Require Import Prelude RustStr CoreTypes Redb Keys Model Apply Engine RaftStore Platform Crypto Kms Cache.
From S2P Require Import ApiTypes PgApply IpAddr Guards Calls Peer RaftNode Config.

Section startup.
Context `{RE : !Redb, SE : !StoreSerde, CC : !CryptoCrates, PL : !Platform, NET : !Ipnet}.
Context `{RT : !RaftTypes, RR : !RaftRpc, PS : !PeerSerde}.
Context (node_env : ∀ X, node_call X → World Database → World Database * X).
Context (aws_pages : nat) (aws_client : AwsClient).

Notation boot := (ste (World Database) cause).

(** ** The pieces as computations on the world *)

Definition on_store {A} (m : M A) : boot A := λ w,
  let '(d, r) := m (w_store w) in (set_store d w, map_err StoreFailed r).

Definition on_node {A} (m : node A) : boot A := λ w, let '(w', a) := exec node_env m w in (w', Ok a).

Definition boot_context {A} (what : string) (m : boot A) : boot A := λ w,
  let '(w', r) := m w in (w', map_err (Context what) r).

(** [node.await.context(what)?] *)
Definition on_node_result {A} (what : string) (m : node (result cause A)) : boot A :=
  r ← on_node m; lift_result (map_err (Context what) r).

(** ** kms::build *)

Section kms_build.
Context {St : Type}.

Definition kms_build (cfg : Config) : boot (KmsProvider St) :=
  inner ← match cfg_kms_mode cfg with
          | Aws => mret (AwsKms aws_pages aws_client (cfg_kms_key_id cfg))
          | Local =>
              wrapper ← match cfg_local_master_key_b64 cfg with
                        | Some encoded => lift_result (map_err CoreFailed (from_base64 encoded "local"))
                        | None => let VS := RedbStore.redb_store (cfg_node_id cfg) in run_prog random
                        end;
              mret (LocalKms wrapper)
          end;
  mret (if (cfg_kms_max_retries cfg =? 0)%Z then inner else RetryingKms inner (cfg_kms_max_retries cfg)).
End kms_build.

(** ** lib.rs *)

(** The token of [VAULT_BOOTSTRAP_TOKEN] is written to the local store. *)
Definition bootstrap_record (token : string) (now : Z) : TokenRecord := {|
  t_name := "bootstrap-admin"; t_role := Some "admin"; t_fingerprint := fingerprint token;
  t_created_at := now; t_last_used_at := None; t_revoked_at := None |}.

(** A conflict is ignored. *)
Definition add_bootstrap_token (node_id : Z) (record : TokenRecord) : boot unit := λ w,
  let '(d, r) := RedbStore.apply node_id (AddToken record) (w_store w) in
  (set_store d w, match r with
                  | Ok _ | Err (Conflict _) => Ok tt
                  | Err err => Err (StoreFailed err)
                  end).

Definition seed_bootstrap_token (cfg : Config) : boot unit :=
  match cfg_bootstrap_token cfg with
  | None => mret tt
  | Some token =>
      existing ← on_store (λ d, (d, RedbStore.token_by_fingerprint (fingerprint token) d));
      match existing with
      | Some _ => mret tt
      | None =>
          let VS := RedbStore.redb_store (cfg_node_id cfg) in
          now ← run_prog now_unix;
          add_bootstrap_token (cfg_node_id cfg) (bootstrap_record token now)
      end
  end.

Definition target_hosts (secrets : list SecretRecord) : list string :=
  mjoin ((λ target, match target with PgReplica pg => pg_hosts pg end) <$> omap s_target secrets).

Definition build_pg_target_policy (cfg : Config) : boot PgTargetPolicy :=
  let VS := RedbStore.redb_store (cfg_node_id cfg) in
  let ca_file := cfg_pg_target_ca_file cfg in
  if negb (is_empty (trim (cfg_pg_target_hosts cfg)))
  then boot_context "VAULT_PG_TARGET_HOSTS / VAULT_PG_TARGET_TLS / VAULT_PG_TARGET_CA_FILE are invalid"
         (run_prog (build (cfg_pg_target_hosts cfg) (cfg_pg_target_tls cfg) ca_file))
  else
    secrets ← on_store (λ d, (d, RedbStore.list_secrets d));
    boot_context "VAULT_PG_TARGET_TLS / VAULT_PG_TARGET_CA_FILE are invalid"
      (run_prog (seeded (target_hosts secrets) (cfg_pg_target_tls cfg) ca_file)).

Definition raft_listen_addr (cfg : Config) : result cause SocketAddr :=
  addr ← ok_or (Text ("NODE_ID " +:+ int_to_string (cfg_node_id cfg) +:+ " is not present in VAULT_PEERS"))
           (self_addr cfg);
  port ← ok_or (Text ("VAULT_PEERS address '" +:+ addr +:+ "' must be host:port"))
           (parse_u16 (match rsplit_once ":" addr with Some (_, port) => port | None => addr end));
  let bind := trim (cfg_raft_bind cfg) in
  ok_or (Text ("VAULT_RAFT_BIND '" +:+ bind +:+ "' with port " +:+ int_to_string port +:+ " is not an address"))
    (parse_socket_addr (bind +:+ ":" +:+ int_to_string port)).

(** Its log line states the number of addresses. *)
Definition log_peer_guard (peers : PeerAddrs) : node unit :=
  if pd_enabled peers then _ ← resolved_len; mret tt else mret tt.

(** The part of a clustered node: its credential, the addresses of its peers, the
    engine, and the server the peers call, which listens at [fst]. *)
Definition start_cluster (cfg : Config) : boot (SocketAddr * ServerState) :=
  auth ← lift_result (map_err (Context "VAULT_CLUSTER_TOKEN / VAULT_CLUSTER_AUTH_REQUIRED are invalid")
           (peer_auth_new (cfg_cluster_token cfg) (cfg_cluster_auth_required cfg)));
  peers ← on_node (peer_addrs_new (cfg_raft_peer_check cfg) (cfg_peers cfg));
  on_node (log_peer_guard peers) ;;
  node ← on_node_result "failed to start raft node" (start (cfg_node_id cfg) (cfg_peers cfg) auth);
  raft_listen ← lift_result (raft_listen_addr cfg);
  _ ← on_node_result "raft bootstrap failed" (bootstrap node);
  mret (raft_listen, {| ss_auth := auth; ss_peers := peers |}).

Definition clustered (cfg : Config) : bool := bool_decide (1 < length (cfg_peers cfg)).

(** What a started node consists of. *)
Record Started (St : Type) := {
  vt_state : AppState St;
  vt_raft_server : option (SocketAddr * ServerState);
}.
#[global] Arguments vt_state {St} _.
#[global] Arguments vt_raft_server {St} _.

Section build_state.
Context {St : Type}.

Definition build_state (cfg : Config) : boot (Started St) :=
  allowlist ← lift_result (map_err (λ e, Context "VAULT_ALLOWED_IPS is invalid" (CoreFailed e))
                (parse_allowlist (cfg_allowed_ips cfg)));
  boot_context "open redb store" (on_store RedbStore.from_database) ;;
  seed_bootstrap_token cfg ;;
  pg_targets ← build_pg_target_policy cfg;
  server ← (if clustered cfg then server ← start_cluster cfg; mret (Some server) else mret None);
  kms ← kms_build cfg;
  mret {|
    vt_state := {|
      st_kms := kms;
      st_dek_cache := DekCache.new (cfg_dek_cache_ttl_secs cfg);
      st_allowlist := allowlist;
      st_trust_proxy := cfg_trust_proxy cfg;
      st_pg_targets := pg_targets;
      st_node_id := cfg_node_id cfg;
      st_raft := clustered cfg;
      st_auth_max_failures := cfg_auth_max_failures cfg;
      st_auth_lockout_secs := cfg_auth_lockout_secs cfg;
      st_auth_window_secs := cfg_auth_window_secs cfg;
      st_token_touch_secs := cfg_token_touch_secs cfg;
      st_kms_rewrap_enabled := cfg_kms_rewrap_enabled cfg;
      st_kms_rewrap_max_per_sec := cfg_kms_rewrap_max_per_sec cfg |};
    vt_raft_server := server |}.

(** The tasks beside the API, with their polling intervals. *)
Inductive Worker := RotationWorker (poll_secs : Z) | RewrapWorker (poll_secs : Z).

Record Served := {
  sv_vault : Started St;
  sv_workers : list Worker;
  sv_listen : SocketAddr;
}.

(** Up to the point where the API listens. *)
Definition serve (var : string → option string) : boot Served :=
  cfg ← lift_result (from_env var);
  if clustered cfg && negb (bool_decide (is_Some (self_addr cfg)))
  then raise (Text ("NODE_ID " +:+ int_to_string (cfg_node_id cfg) +:+ " is not present in VAULT_PEERS")) else
  vault ← build_state cfg;
  mret {| sv_vault := vault;
          sv_workers := RotationWorker (cfg_rotation_poll_secs cfg) ::
            (if cfg_kms_rewrap_enabled cfg then [RewrapWorker (cfg_kms_rewrap_poll_secs cfg)] else []);
          sv_listen := cfg_api_listen cfg |}.
End build_state.
End startup.
