(* ===== verification/ConfigThms.v ===== *)
(** * Theorems on the configuration

    A configuration that is accepted is well-formed, whatever the environment
    holds, and the list of peers is read back as it is written. *)

From S2P Require Import Prelude RustStr CoreTypes Redb Keys Model Engine Platform IpAddr PgApply Calls Config.

(** ** Numbers *)

Lemma parse_unsigned_range max s n : parse_unsigned max s = Some n → (0 ≤ n ≤ max)%Z.
Proof.
  unfold parse_unsigned. intros H. destruct (is_empty _); [done|].
  destruct (parse_acc 0 _) as [k|] eqn:Hk; [|done]. case_decide; [|done]. injection H as <-.
  apply parse_acc_nonneg in Hk; lia.
Qed.

Lemma parse_signed_range min max s n : (min ≤ 0 ≤ max)%Z → parse_signed min max s = Some n → (min ≤ n ≤ max)%Z.
Proof.
  intros Hm. unfold parse_signed. intros H.
  assert (parse_unsigned max s = Some n → (min ≤ n ≤ max)%Z) as Hu.
  { intros H'%parse_unsigned_range. lia. }
  destruct s as [|a s']; [by apply Hu|].
  destruct (Ascii.eqb_spec a "-") as [->|Hne].
  - destruct (is_empty s'); [done|]. destruct (parse_acc 0 s') as [k|] eqn:Hk; [|done].
    case_decide; [|done]. injection H as <-. apply parse_acc_nonneg in Hk; lia.
  - apply Hu. by destruct a as [[] [] [] [] [] [] [] []].
Qed.

Lemma env_parse_ok var parse key default_ what n :
  env_parse var parse key default_ what = Ok n → parse (env_or var key default_) = Some n.
Proof. unfold env_parse, ok_or. by destruct (parse _); intros [= <-]. Qed.

Lemma bind_Ok {E A B} (r : result E A) (f : A → result E B) b :
  (r ≫= f) = Ok b → ∃ a, r = Ok a ∧ f a = Ok b.
Proof. destruct r; [by eauto|done]. Qed.

(** ** Peers *)

Definition peers_ok (m : BTreeMap string) : Prop :=
  btree_ok m ∧ ∀ id addr, (id, addr) ∈ m → in_u64 id ∧ addr ≠ "".

Lemma btree_insert_elem {A} k (v : A) m k' v' :
  (k', v') ∈ btree_insert k v m → (k', v') = (k, v) ∨ (k', v') ∈ m.
Proof.
  induction m as [|[k1 v1] m IH]; simpl; [set_solver|].
  destruct (k <? k1)%Z; [set_solver|]. destruct (k =? k1)%Z; [set_solver|].
  rewrite !elem_of_cons. naive_solver.
Qed.

Lemma parse_peers_from_ok entries : ∀ m m',
  peers_ok m → parse_peers_from entries m = Ok m' → peers_ok m'.
Proof.
  induction entries as [|entry entries IH]; intros m m' Hm H; cbn [parse_peers_from] in H; [by simplify_eq|].
  destruct (is_empty (trim entry)); [by eapply IH|].
  destruct (split_once "=" (trim entry)) as [[id addr]|]; simpl in H; [|done].
  destruct (parse_u64 (trim id)) as [n|] eqn:Hn; simpl in H; [|done].
  destruct (is_empty (trim addr)) eqn:Ha; [done|]. eapply IH, H. destruct Hm as [Hb Hall].
  split; [by apply btree_insert_ok|]. intros k v [[= -> ->]|Hin]%btree_insert_elem; [|by apply Hall].
  split; [by apply parse_unsigned_range in Hn|]. intros Heq. by rewrite Heq in Ha.
Qed.

(** ** The whole configuration *)

Record config_ok (cfg : Config) : Prop := {
  ok_node_id : (1 ≤ cfg_node_id cfg ≤ u64_max)%Z;
  ok_peers : peers_ok (cfg_peers cfg);
  ok_port : (0 ≤ sa_port (cfg_api_listen cfg) ≤ u16_max)%Z;
  ok_kms : cfg_kms_mode cfg = Aws → cfg_kms_key_id cfg ≠ "";
  ok_auth : cfg_cluster_auth_required cfg = true → is_Some (cfg_cluster_token cfg);
  ok_token t : cfg_cluster_token cfg = Some t ∨ cfg_bootstrap_token cfg = Some t → t ≠ "";
  ok_u64 : in_u64 (cfg_rotation_poll_secs cfg) ∧ in_u64 (cfg_dek_cache_ttl_secs cfg)
    ∧ in_u64 (cfg_kms_rewrap_poll_secs cfg);
  ok_u32 : in_u32 (cfg_kms_max_retries cfg) ∧ in_u32 (cfg_kms_rewrap_max_per_sec cfg)
    ∧ in_u32 (cfg_auth_max_failures cfg);
  ok_i64 : in_i64 (cfg_auth_lockout_secs cfg) ∧ in_i64 (cfg_auth_window_secs cfg)
    ∧ in_i64 (cfg_token_touch_secs cfg);
}.

Lemma env_opt_nonempty var key t : env_opt var key = Some t → t ≠ "".
Proof. unfold env_opt. destruct (var key) as [v|]; simpl; [|done]. destruct v; simpl; [done|]. congruence. Qed.

(** C32. Whatever the environment holds, a configuration that is accepted is
    well-formed: the node id is positive, numbers fit their types, every peer
    has a number and an address, AWS mode names a key, and a required cluster
    credential is there and not empty. *)
Theorem from_env_well_formed var cfg : from_env var = Ok cfg → config_ok cfg.
Proof.
  intros H. unfold from_env in H.
  repeat match type of H with
  | mbind _ _ = Ok _ => apply bind_Ok in H as (? & ? & H)
  | (if ?b then Err _ else _) = Ok _ => destruct b eqn:?; [done|]
  | (let _ := _ in _) = Ok _ => cbv zeta in H
  end.
  repeat match goal with H : env_parse _ _ _ _ _ = Ok _ |- _ => apply env_parse_ok in H end.
  injection H as <-.
  repeat match goal with
  | H : parse_u64 _ = Some _ |- _ => apply parse_unsigned_range in H
  | H : parse_u32 _ = Some _ |- _ => apply parse_unsigned_range in H
  | H : parse_u16 _ = Some _ |- _ => apply parse_unsigned_range in H
  | H : parse_i64 _ = Some _ |- _ => apply parse_signed_range in H; [|unfold_ints; lia]
  end.
  split; cbn; try done.
  - lia.
  - eapply parse_peers_from_ok; [|done]. split; [constructor|set_solver].
  - intros -> Hk. by rewrite bool_decide_eq_true_2, Hk in * by done.
  - intros Hreq. rewrite Hreq in *. simpl in *. by destruct (bool_decide_reflect (is_Some (env_opt var "VAULT_CLUSTER_TOKEN"))).
  - intros t [Ht|Ht]; by eapply env_opt_nonempty.
Qed.

(** ** Writing the peers down *)

Definition graphic (s : string) : bool := all_bytes (byte_in 33 126) s.

Lemma all_bytes_rev_app f s t : all_bytes f (String.rev_app s t) = all_bytes f s && all_bytes f t.
Proof.
  revert t. induction s as [|a s IH]; intros t; simpl; [done|]. rewrite IH. simpl.
  by destruct (f a), (all_bytes f s).
Qed.
Lemma rev_app_rev_app s t u : String.rev_app (String.rev_app s t) u = String.rev_app t (s +:+ u).
Proof. revert t u. induction s as [|a s IH]; intros t u; simpl; [done|]. by rewrite IH. Qed.

Lemma graphic_not_in lo hi a : byte_in 33 126 a = true → (126 < lo ∨ hi < 33)%N → byte_in lo hi a = false.
Proof. unfold byte_in. intros [H1 H2]%andb_true_iff Hr. apply N.leb_le in H1, H2.
  apply andb_false_iff. rewrite !N.leb_gt. lia.
Qed.

Lemma graphic_trim_left rtl s : graphic s = true → trim_left rtl s = s.
Proof.
  intros Hg. assert (∀ a, byte_in 33 126 a = true → is_ws1 a = false) as H1.
  { intros a Ha. unfold is_ws1. by rewrite !(graphic_not_in _ _ _ Ha) by lia. }
  assert (∀ a b, byte_in 33 126 a = true → is_ws2 a b = false) as H2.
  { intros a b Ha. unfold is_ws2. by rewrite !(graphic_not_in _ _ _ Ha) by lia. }
  assert (∀ a b c, byte_in 33 126 a = true → is_ws3 a b c = false) as H3.
  { intros a b c Ha. unfold is_ws3. by rewrite !(graphic_not_in _ _ _ Ha) by lia. }
  unfold graphic in Hg. destruct s as [|a s]; [done|]. simpl in Hg |- *. apply andb_true_iff in Hg as [Ha Hg].
  rewrite H1 by done. destruct s as [|b s]; [done|]. simpl in Hg. apply andb_true_iff in Hg as [Hb Hg].
  rewrite !H2 by done. destruct s as [|c s]; [by destruct rtl|]. simpl in Hg. apply andb_true_iff in Hg as [Hc Hg].
  rewrite !H3 by done. by destruct rtl.
Qed.

Lemma graphic_trim s : graphic s = true → trim s = s.
Proof.
  intros Hg. unfold trim. rewrite (graphic_trim_left false s) by done. rewrite graphic_trim_left.
  - unfold String.rev. rewrite rev_app_rev_app. simpl. apply append_nil_r.
  - unfold graphic, String.rev in *. rewrite all_bytes_rev_app. by rewrite Hg.
Qed.

Lemma split_char_no c s : no_char c s = true → split_char c s = [s].
Proof.
  induction s as [|a s IH]; simpl; [done|]. unfold no_char in *. simpl. intros [Ha Hs]%andb_true_iff.
  apply negb_true_iff in Ha. rewrite Ha, IH by done. done.
Qed.

Lemma split_char_app c s t : no_char c s = true → split_char c (s +:+ String c t) = s :: split_char c t.
Proof.
  induction s as [|a s IH]; simpl; [by rewrite Ascii.eqb_refl|]. unfold no_char in *. simpl.
  intros [Ha Hs]%andb_true_iff. apply negb_true_iff in Ha. by rewrite Ha, IH.
Qed.

Definition print_peer (peer : Z * string) : string := dec peer.1 +:+ "=" +:+ peer.2.
Definition print_peers (m : BTreeMap string) : string := join "," (print_peer <$> m).

Lemma split_join l : l ≠ [] → Forall (λ s, no_char "," s = true) l → split_char "," (join "," l) = l.
Proof.
  induction l as [|s l IH]; [done|]. intros _ [Hs Hl]%Forall_cons. destruct l as [|s' l]; [by apply split_char_no|].
  change (join "," (s :: s' :: l)) with (s +:+ String "," (join "," (s' :: l))).
  rewrite split_char_app by done. by rewrite IH.
Qed.

(** Peers that can be written down: numbers of the type, addresses of visible
    ASCII characters other than the comma. *)
Definition printable (m : BTreeMap string) : Prop :=
  btree_ok m ∧ ∀ id addr, (id, addr) ∈ m →
    in_u64 id ∧ addr ≠ "" ∧ graphic addr = true ∧ no_char "," addr = true.

Lemma dec_graphic n : (0 ≤ n)%Z → graphic (dec n) = true.
Proof.
  intros Hn. eapply all_bytes_impl, all_digits_dec, Hn. intros a [H1 H2]%andb_true_iff.
  apply N.leb_le in H1, H2. unfold byte_in. apply andb_true_iff. rewrite !N.leb_le. lia.
Qed.

Lemma btree_insert_last {A} k (v : A) m : (∀ j, j ∈ m.*1 → (j < k)%Z) → btree_insert k v m = m ++ [(k, v)].
Proof.
  induction m as [|[k1 v1] m IH]; simpl; intros H; [done|].
  pose proof (H k1 ltac:(set_solver)). destruct (Z.ltb_spec k k1), (Z.eqb_spec k k1); try lia.
  rewrite IH; [done|]. intros j Hj. apply H. set_solver.
Qed.

Lemma parse_printed rest : ∀ m,
  printable (m ++ rest) → parse_peers_from (print_peer <$> rest) m = Ok (m ++ rest).
Proof.
  induction rest as [|[id addr] rest IH]; intros m [Hb Hall]; cbn [fmap list_fmap parse_peers_from]; [by rewrite app_nil_r|].
  destruct (Hall id addr) as ([Hid0 Hid] & Hne & Hg & Hc); [set_solver|].
  assert (trim (print_peer (id, addr)) = print_peer (id, addr)) as ->.
  { apply graphic_trim. unfold print_peer, graphic. simpl. rewrite !all_bytes_append. simpl.
    fold (graphic (dec id)). fold (graphic addr). by rewrite dec_graphic, Hg. }
  assert (is_empty (print_peer (id, addr)) = false) as ->.
  { unfold print_peer. simpl. by destruct (dec id). }
  assert (split_once "=" (print_peer (id, addr)) = Some (dec id, addr)) as ->.
  { apply split_once_Some. split; [done|]. by apply dec_no_char. }
  simpl. rewrite (graphic_trim (dec id)) by (by apply dec_graphic). unfold parse_u64.
  rewrite parse_unsigned_dec by (unfold_ints; lia). simpl. rewrite (graphic_trim addr) by done.
  destruct (is_empty addr) eqn:He; [by destruct addr|].
  rewrite btree_insert_last.
  - rewrite IH by (by rewrite <- app_assoc). by rewrite <- app_assoc.
  - intros j Hj. unfold btree_ok in Hb. rewrite fmap_app in Hb. apply StronglySorted_app in Hb as (Hlt & _ & _).
    apply Hlt; [done|]. simpl. set_solver.
Qed.

(** A list of peers written as [id=address] pairs with commas between them
    is read back as the same peers. *)
Theorem peers_roundtrip m : printable m → parse_peers (print_peers m) = Ok m.
Proof.
  intros Hm. unfold parse_peers, print_peers. destruct m as [|p m]; [done|].
  rewrite split_join; [by apply (parse_printed (p :: m) [])|done|].
  destruct Hm as [_ Hall]. apply Forall_forall. intros s (q & -> & Hq)%list_elem_of_fmap.
  destruct q as [id addr], (Hall id addr Hq) as ([? ?] & _ & _ & Hc). unfold print_peer.
  cbn [fst snd]. rewrite !no_char_append, Hc. by rewrite dec_no_char.
Qed.

Definition sample_peers : BTreeMap string := [(1%Z, "n1:7000"); (2%Z, "n2:7000")].

Lemma peers_roundtrip_witness :
  print_peers sample_peers = "1=n1:7000,2=n2:7000" ∧ parse_peers "1=n1:7000,2=n2:7000" = Ok sample_peers.
Proof.
  split; [vm_compute; reflexivity|]. apply (peers_roundtrip sample_peers). split.
  - repeat constructor.
  - intros id addr Hin. unfold sample_peers in Hin. set_unfold in Hin.
    destruct Hin as [[= -> ->]|[[= -> ->]|[]]]; repeat split; unfold_ints; try done; lia.
Defined.

(** A cluster of two in local mode. *)
Definition sample_env (key : string) : option string :=
  if decide (key = "VAULT_PEERS") then Some "2=n2:7000, 1=n1:7000"
  else if decide (key = "VAULT_KMS_MODE") then Some "Local" else None.

Lemma from_env_well_formed_witness :
  ∃ cfg, from_env sample_env = Ok cfg ∧ cfg_peers cfg = sample_peers ∧ config_ok cfg.
Proof.
  destruct (from_env sample_env) as [cfg|] eqn:H; [|vm_compute in H; discriminate].
  exists cfg. split; [reflexivity|]. split; [|exact (from_env_well_formed sample_env cfg H)].
  vm_compute in H. injection H as <-. reflexivity.
Defined.
