(* ===== verification/StartupThms.v ===== *)
(** * Theorems on start-up

    What a started single node is given to work with: a store that still holds
    its vault, the built-in role, the bootstrap token, and a key provider with
    the properties the service relies on. *)

From S2P Require Import Prelude RustStr CoreTypes Redb Keys Model Serial Apply Spec Samples ApplyFacts.
From S2P Require Import Refine Engine Invariant StoreLaws StoreThms RaftStore Platform Crypto Kms KmsThms Cache.
From S2P Require Import ApiTypes PgApply IpAddr Guards Service Manage Routes ServiceSafe ServiceRun.
From S2P Require Import ServiceThms Calls Peer RaftNode Config Startup.

Lemma ste_bind_Ok {S E A B} (m : ste S E A) (f : A → ste S E B) s s' b :
  (m ≫= f) s = (s', Ok b) → ∃ s1 a, m s = (s1, Ok a) ∧ f a s1 = (s', Ok b).
Proof. unfold mbind, ste_bind. destruct (m s) as [s1 [a|e]]; [by eauto|done]. Qed.

Lemma ste_bind_cases {S E A B} (m : ste S E A) (f : A → ste S E B) s s' r :
  (m ≫= f) s = (s', r) → (∃ e, m s = (s', Err e) ∧ r = Err e) ∨ ∃ s1 a, m s = (s1, Ok a) ∧ f a s1 = (s', r).
Proof. unfold mbind, ste_bind. destruct (m s) as [s1 [a|e]]; [by eauto|]. intros [= <- <-]. by eauto. Qed.

Section startup_thms.
Context `{RE : !Redb, RL : !RedbLaws, SE : !StoreSerde, SL : !StoreSerdeLaws}.
Context `{CC : !CryptoCrates, CL : !CryptoLaws, PL : !Platform, PLL : !PlatformLaws, NET : !Ipnet}.
Context `{RT : !RaftTypes, RR : !RaftRpc, PS : !PeerSerde}.
Context (node_env : ∀ X, node_call X → World Database → World Database * X).
Context (aws_pages : nat) (aws_client : AwsClient) (AL : AwsLaws aws_client).
Implicit Types (w : World Database) (a : Vault).

(** ** The bootstrap token *)

(** The vault after seeding [token] at time [now]: as before if the token or its
    name is known. *)
Definition seeded_vault (token : string) (now : Z) a : Vault :=
  match vault_tokens a !! fingerprint token, vault_names a !! "bootstrap-admin" with
  | None, None => with_tokens <[fingerprint token := bootstrap_record token now]>
                    (with_names <["bootstrap-admin" := fingerprint token]> a)
  | _, _ => a
  end.

Definition after_seed (cfg : Config) w a : Vault :=
  match cfg_bootstrap_token cfg with Some t => seeded_vault t (unix_now (w_os w)) a | None => a end.

Lemma seed_run cfg w a :
  redb_view (w_store w) a →
  ∃ w', seed_bootstrap_token cfg w = (w', Ok tt) ∧ w_cache w' = w_cache w
    ∧ redb_view (w_store w') (after_seed cfg w a).
Proof using RL SL.
  intros Hv. unfold seed_bootstrap_token, after_seed. destruct (cfg_bootstrap_token cfg) as [t|]; [|by exists w].
  set (laws := redb_store_laws (cfg_node_id cfg)).
  pose proof (token_by_fingerprint_law (VaultStoreLaws := laws) (w_store w) a (fingerprint t) Hv) as Ht.
  simpl in Ht. unfold mbind, ste_bind, on_store. rewrite Ht. cbn [map_err].
  unfold seeded_vault. destruct (vault_tokens a !! fingerprint t) as [rec|] eqn:Hrec; [by exists (set_store (w_store w) w)|].
  rewrite run_now. unfold add_bootstrap_token. cbn [w_store set_store set_os w_os].
  pose proof (apply_law (VaultStoreLaws := laws) (w_store w) a
    (AddToken (bootstrap_record t (unix_now (w_os w)))) Hv I I) as Hl. cbn in Hl. rewrite Hrec in Hl.
  destruct (vault_names a !! "bootstrap-admin").
  - rewrite Hl. eexists. split; [done|]. by split.
  - destruct Hl as (s' & -> & Hv'). eexists. split; [done|]. by split.
Qed.

(** Seeding the bootstrap token always succeeds on a well-formed store.  It
    adds one live token of the role [admin] under the token's fingerprint if
    neither that fingerprint nor the name is taken, and otherwise changes
    nothing: in particular it does not revive a token that was revoked, and
    seeding again at the next start leaves the vault as it is. *)
Theorem bootstrap_seed_spec cfg w a :
  redb_view (w_store w) a →
  ∃ w', seed_bootstrap_token cfg w = (w', Ok tt) ∧ redb_view (w_store w') (after_seed cfg w a)
    ∧ (∀ t rec, cfg_bootstrap_token cfg = Some t → vault_tokens a !! fingerprint t = Some rec →
         after_seed cfg w a = a)
    ∧ ∃ w'', seed_bootstrap_token cfg w' = (w'', Ok tt) ∧ redb_view (w_store w'') (after_seed cfg w a).
Proof using RL SL.
  intros Hv. destruct (seed_run cfg w a Hv) as (w' & Hrun & _ & Hv'). exists w'. split; [done|]. split; [done|].
  split.
  { intros t rec Ht Hrec. unfold after_seed, seeded_vault. by rewrite Ht, Hrec. }
  destruct (seed_run cfg w' _ Hv') as (w'' & Hrun' & _ & Hv''). exists w''. split; [done|].
  assert (after_seed cfg w' (after_seed cfg w a) = after_seed cfg w a) as <-; [|done].
  unfold after_seed. destruct (cfg_bootstrap_token cfg) as [t|]; [|done].
  generalize (unix_now (w_os w)) as now1, (unix_now (w_os w')) as now2. intros now1 now2.
  assert (∀ b, vault_tokens b !! fingerprint t ≠ None ∨ vault_names b !! "bootstrap-admin" ≠ None →
    seeded_vault t now2 b = b) as Hid.
  { intros b. unfold seeded_vault. destruct (vault_tokens b !! _), (vault_names b !! _); naive_solver. }
  apply Hid. unfold seeded_vault. destruct (vault_tokens a !! _) eqn:H1; [left; congruence|].
  destruct (vault_names a !! _) eqn:H2; [right; congruence|]. left. simpl. by rewrite lookup_insert_eq.
Qed.

(** ** The key provider *)

Lemma random_run cfg w w' (wrapper : LocalKeyWrapper) :
  let VS := RedbStore.redb_store (cfg_node_id cfg) in
  run_prog (E := cause) random w = (w', Ok wrapper) → length (lw_master wrapper) = DEK_LEN ∧ same_inside w w'.
Proof using PLL.
  intros VS H. split; [|eapply quiet_run, H; by split].
  unfold random, fill_random in H. rewrite run_bind, run_act in H. simpl in H.
  pose proof (os_random_length DEK_LEN (w_os w)) as Hl. destruct (os_random DEK_LEN (w_os w)) as [os bs].
  rewrite run_ret in H. by injection H as _ <-.
Qed.

Lemma kms_build_inside {St} cfg w w' (r : result cause (KmsProvider St)) :
  kms_build aws_pages aws_client cfg w = (w', r) → same_inside w w'.
Proof using PLL.
  unfold kms_build. intros [(e & Hin & _)|(w1 & inner & Hin & Hret)]%ste_bind_cases; [|injection Hret as <- _].
  all: revert Hin; (destruct (cfg_kms_mode cfg); [by intros [= <- _]|]).
  all: intros [(e' & Hw & _)|(w2 & wrapper & Hw & Hret)]%ste_bind_cases; [|injection Hret as <- _].
  all: revert Hw; (destruct (cfg_local_master_key_b64 cfg); [by intros [= <- _]|]).
  all: intros H; eapply quiet_run, H; by split.
Qed.

(** Every provider [kms::build] makes has the properties of one. *)
Lemma retrying_inhabited {St} `{VS : !VaultStore St} cfg (inner : KmsProvider St) :
  inhabited (KmsLaws inner) →
  inhabited (KmsLaws (if (cfg_kms_max_retries cfg =? 0)%Z then inner else RetryingKms inner (cfg_kms_max_retries cfg))).
Proof. intros [KL]. destruct (_ =? 0)%Z; [done|]. constructor. by apply retrying_kms_laws. Qed.

Lemma decoded_key_length encoded wrapper :
  from_base64 encoded "local" = Ok wrapper → length (lw_master wrapper) = DEK_LEN.
Proof using CL PLL. unfold from_base64. unfold_monad. repeat case_match; intros; simplify_eq/=; lia. Qed.

Lemma decoded_key_laws {St} `{VS : !VaultStore St} encoded wrapper :
  from_base64 encoded "local" = Ok wrapper → inhabited (KmsLaws (LocalKms (St := St) wrapper)).
Proof using CL PLL. intros H%decoded_key_length. constructor. by apply local_kms_laws. Qed.

Lemma kms_build_run {St} `{VS : !VaultStore St} cfg w w' (kms : KmsProvider St) :
  kms_build aws_pages aws_client cfg w = (w', Ok kms) → inhabited (KmsLaws kms).
Proof using AL CL PLL.
  unfold kms_build. intros (w1 & inner & Hin & Hret)%ste_bind_Ok. injection Hret as _ <-.
  apply retrying_inhabited. destruct (cfg_kms_mode cfg); [injection Hin as _ <-; constructor; by apply aws_kms_laws|].
  apply ste_bind_Ok in Hin as (w2 & wrapper & Hw & Hret). injection Hret as _ <-.
  destruct (cfg_local_master_key_b64 cfg) as [encoded|].
  - injection Hw as _ Hw. apply (decoded_key_laws encoded). by destruct (from_base64 encoded "local"); simplify_eq/=.
  - destruct (random_run _ _ _ _ Hw) as [Hl _]. constructor. by apply local_kms_laws.
Qed.

(** ** The Postgres policy *)

Lemma boot_context_Ok {A} what (m : ste (World Database) cause A) w w' x :
  boot_context what m w = (w', Ok x) → m w = (w', Ok x).
Proof. unfold boot_context. destruct (m w) as [w1 [y|e]]; intros H; by simplify_eq/=. Qed.

Lemma client_config_quiet {St} `{VS : !VaultStore St} ca : quiet (St := St) (client_config ca).
Proof.
  unfold client_config. apply quiet_bind; [|intros roots; apply quiet_of_result]. destruct ca as [path|].
  - apply quiet_bind; [by split|]. intros certs. apply quiet_bind; [apply quiet_of_result|]. intros certs'.
    apply quiet_bind; [apply quiet_of_result|]. intros [roots added]. by case_decide.
  - apply quiet_bind; [by split|]. intros [certs errors]. case_match. by case_decide.
Qed.

Lemma from_hosts_quiet {St} `{VS : !VaultStore St} hosts mode ca : quiet (St := St) (from_hosts hosts mode ca).
Proof.
  unfold from_hosts. apply quiet_bind; [|done]. destruct hosts; [done|]. destruct mode.
  - by apply quiet_bind; [apply client_config_quiet|].
  - by apply quiet_bind; [apply quiet_attempt, client_config_quiet|].
  - done.
Qed.

Lemma policy_run cfg w w' r : build_pg_target_policy cfg w = (w', r) → same_inside w w'.
Proof.
  pose (VS := RedbStore.redb_store (cfg_node_id cfg)). unfold build_pg_target_policy.
  assert (∀ w hosts what r, boot_context what (run_prog (from_hosts hosts (cfg_pg_target_tls cfg)
    (cfg_pg_target_ca_file cfg))) w = (w', r) → same_inside w w') as Hseeded.
  { intros w1 hosts what r1. unfold boot_context. destruct (run_prog _ w1) as [w2 r2] eqn:H. intros [= <- _].
    eapply quiet_run, H. apply from_hosts_quiet. }
  destruct (negb _).
  - unfold boot_context. destruct (run_prog _ w) as [w2 r2] eqn:H. intros [= <- _]. eapply quiet_run, H.
    apply quiet_bind; [apply quiet_of_result|]. intros hosts. apply from_hosts_quiet.
  - intros [(e & H & _)|(w1 & secrets & Hs & H%Hseeded)]%ste_bind_cases.
    + unfold on_store in H. injection H as <- _. by destruct w.
    + unfold on_store in Hs. injection Hs as <- _. etrans; [|exact H]. by destruct w.
Qed.

(** ** A single node *)

(** Starting alone, whether it succeeds or not, keeps the secrets and versions of
    the store and the cached keys; what a started node consists of. *)
Lemma build_state_run cfg w w' (r : result cause (Started Database)) a :
  redb_view (w_store w) a → clustered cfg = false →
  build_state node_env aws_pages aws_client cfg w = (w', r) →
  w_cache w' = w_cache w ∧ ∃ a', redb_view (w_store w') a' ∧ vault_versions a' = vault_versions a
    ∧ vault_secrets a' = vault_secrets a
    ∧ match r with
      | Ok v =>
          vt_raft_server v = None ∧ st_raft (vt_state v) = false ∧ st_node_id (vt_state v) = cfg_node_id cfg
          ∧ (∃ w1 w2, kms_build aws_pages aws_client cfg w1 = (w2, Ok (st_kms (vt_state v))))
          ∧ is_Some (vault_roles a' !! "admin")
          ∧ ∀ t, cfg_bootstrap_token cfg = Some t →
              is_Some (vault_tokens a' !! fingerprint t) ∨ is_Some (vault_names a' !! "bootstrap-admin")
      | Err _ => True
      end.
Proof using PLL RL SL.
  intros Hv Hcl. unfold build_state. rewrite Hcl.
  intros [(e & H1 & ->)|(w1 & allow & H1 & H)]%ste_bind_cases; injection H1 as <- _; [split; [done|by exists a]|].
  destruct (RedbStore.from_database (w_store w)) as [d rd] eqn:Hdb.
  destruct (from_database_view _ _ _ _ Hv Hdb) as (-> & a1 & Hv1 & Hadmin & Hver & _ & _ & Hsec).
  destruct (seed_run cfg (set_store d w) a1 Hv1) as (w3 & Hseed & Hc3 & Hv3). rewrite <- Hver, <- Hsec.
  apply ste_bind_cases in H as [(e & H2 & _)|(w2 & u & H2 & H)];
    unfold boot_context, on_store in H2; rewrite Hdb in H2; [done|]. injection H2 as <- <-.
  apply ste_bind_cases in H as [(e & H3 & _)|(w3' & u & H3 & H)]; rewrite Hseed in H3; [done|]. injection H3 as <- <-.
  set (a3 := after_seed cfg (set_store d w) a1) in *. change (w_cache (set_store d w)) with (w_cache w) in Hc3.
  assert (vault_versions a3 = vault_versions a1) as Hver3.
  { unfold a3, after_seed, seeded_vault. by repeat case_match. }
  assert (vault_secrets a3 = vault_secrets a1) as Hsec3.
  { unfold a3, after_seed, seeded_vault. by repeat case_match. }
  apply ste_bind_cases in H as [(e & (Hs & Hc & _)%policy_run & ->)|(w4 & policy & (Hs & Hc & _)%policy_run & H)].
  { split; [congruence|]. exists a3. by rewrite Hs. }
  apply ste_bind_cases in H as [(e & H5 & _)|(w5 & server & H5 & H)]; [done|]. injection H5 as <- <-.
  apply ste_bind_cases in H as [(e & (Hs' & Hc' & _)%kms_build_inside & ->)|(w6 & kms & Hk & H)].
  { split; [congruence|]. exists a3. by rewrite Hs', Hs. }
  pose proof (kms_build_inside _ _ _ _ Hk) as (Hs' & Hc' & _). injection H as <- <-.
  split; [congruence|]. exists a3. rewrite Hs', Hs. do 6 (split; [done|]).
  split; [by exists w4, w6|]. split; [unfold a3, after_seed, seeded_vault; by repeat case_match|].
  intros t Ht. unfold a3, after_seed, seeded_vault. rewrite Ht.
  destruct (vault_tokens a1 !! _) eqn:E1; [left; rewrite E1; eauto|].
  destruct (vault_names a1 !! _) eqn:E2; [right; rewrite E2; eauto|]. left. simpl. rewrite lookup_insert_eq. eauto.
Qed.

(** A node that starts alone finds the vault its store held, with the
    built-in role [admin] and, when one is configured, the bootstrap token; the
    versions are untouched; and its key provider has the properties the service
    needs.  If the stored versions open under that provider, as they trivially
    do at the first start, the node satisfies the invariant under which all its
    requests are served. *)
Theorem start_holds cfg w w' (v : Started Database) a :
  let VS := RedbStore.redb_store (cfg_node_id cfg) in
  redb_view (w_store w) a → clustered cfg = false →
  build_state node_env aws_pages aws_client cfg w = (w', Ok v) →
  vt_raft_server v = None ∧ st_raft (vt_state v) = false ∧
  ∃ (KL : KmsLaws (st_kms (vt_state v))) a',
    redb_view (w_store w') a' ∧ is_Some (vault_roles a' !! "admin")
    ∧ vault_versions a' = vault_versions a
    ∧ (∀ t, cfg_bootstrap_token cfg = Some t →
         is_Some (vault_tokens a' !! fingerprint t) ∨ is_Some (vault_names a' !! "bootstrap-admin"))
    ∧ (cache_ok (vt_state v) (w_cache w) → vault_sealed (vt_state v) a →
       holds (vt_state v) w' a').
Proof using AL CL PLL RL SL.
  intros VS Hv Hcl H. destruct (build_state_run _ _ _ _ _ Hv Hcl H)
    as (Hc & a' & Hv' & Hver & _ & Hsrv & Hraft & _ & (w1 & w2 & Hk) & Hadmin & Htok).
  apply kms_build_run in Hk as [KL]. split; [done|]. split; [done|]. exists KL, a'. do 4 (split; [done|]).
  intros Hcache Hseal. split; [by rewrite Hc|]. split; [done|]. intros name n r. rewrite Hver. apply Hseal.
Qed.

Lemma from_hosts_ok {St} `{VS : !VaultStore St} hosts mode ca (w : World St) :
  mode ≠ VerifyFull → ∃ (w' : World St) policy, run_prog (from_hosts hosts mode ca) w = (w', Ok policy).
Proof.
  intros Hm. unfold from_hosts. rewrite run_bind. destruct hosts; [eauto|]. destruct mode; [done| |eauto].
  rewrite run_bind, run_attempt, run_ret, run_ret. eauto.
Qed.

(** Starting a single node succeeds from every well-formed store: if the
    allowlist and the host list parse, the local master key (if one is set)
    decodes, and a verified TLS connection is not insisted on. *)
Theorem single_node_starts {St} cfg w a :
  redb_view (w_store w) a → clustered cfg = false → cfg_pg_target_tls cfg ≠ VerifyFull →
  is_ok (parse_allowlist (cfg_allowed_ips cfg)) = true →
  is_ok (parse_hosts (cfg_pg_target_hosts cfg)) = true →
  (∀ encoded, cfg_local_master_key_b64 cfg = Some encoded → is_ok (from_base64 encoded "local") = true) →
  ∃ w' (v : Started St), build_state node_env aws_pages aws_client cfg w = (w', Ok v).
Proof using RL SL.
  intros Hv Hcl Htls Hal Hho Hkey. unfold build_state. rewrite Hcl. unfold mbind, ste_bind, lift_result.
  destruct (parse_allowlist _) as [allow|]; [|done]. simpl.
  unfold boot_context at 1, on_store at 1. destruct (RedbStore.from_database (w_store w)) as [d r] eqn:Hdb.
  destruct (from_database_view _ _ _ _ Hv Hdb) as (-> & a1 & Hv1 & _). simpl.
  destruct (seed_run cfg (set_store d w) a1 Hv1) as (w3 & -> & _ & Hv3).
  assert (∃ w4 policy, build_pg_target_policy cfg w3 = (w4, Ok policy)) as (w4 & policy & ->).
  { unfold build_pg_target_policy, boot_context.
    destruct (negb _).
    - unfold build. rewrite run_bind, run_of_result. destruct (parse_hosts _) as [hosts|]; [|done].
      destruct (from_hosts_ok (VS := RedbStore.redb_store (cfg_node_id cfg)) hosts (cfg_pg_target_tls cfg)
        (cfg_pg_target_ca_file cfg) w3 Htls) as (? & ? & ->). eauto.
    - unfold mbind, ste_bind, on_store.
      destruct (list_secrets_law (VaultStoreLaws := redb_store_laws (cfg_node_id cfg)) _ _ Hv3) as (out & Hout & _).
      simpl in Hout. rewrite Hout. cbn [map_err]. unfold seeded.
      match goal with |- context [run_prog (from_hosts ?h ?m ?c) ?w] =>
        destruct (from_hosts_ok (VS := RedbStore.redb_store (cfg_node_id cfg)) h m c w Htls) as (? & ? & ->) end. eauto. }
  simpl. unfold kms_build, mbind, ste_bind, lift_result.
  destruct (cfg_kms_mode cfg); [eexists _, _; done|]. destruct (cfg_local_master_key_b64 cfg) as [encoded|].
  - specialize (Hkey _ eq_refl). destruct (from_base64 encoded "local"); [|done]. simpl. by eexists _, _.
  - unfold random, fill_random. rewrite run_bind, run_act, run_ret. by eexists _, _.
Qed.

(** C40. The bootstrap token is written to each node's own store and not to the
    log, so a revocation does not reach a node that has not seeded it yet: on
    the node that has it the revocation in the log takes effect, on the other
    the same command is refused, and when that node is next started with the
    token it accepts as an administrator what the cluster has revoked. *)
Theorem bootstrap_token_outlives_revocation cfg t n1 d1 a1 rec w a2 now :
  cfg_bootstrap_token cfg = Some t →
  redb_view d1 a1 → vault_names a1 !! "bootstrap-admin" = Some (fingerprint t) →
  vault_tokens a1 !! fingerprint t = Some rec → t_revoked_at rec = None →
  redb_view (w_store w) a2 → vault_names a2 !! "bootstrap-admin" = None → vault_tokens a2 !! fingerprint t = None →
  let revoke := RevokeToken "bootstrap-admin" now in
  (∃ d1' rec', RedbStore.apply n1 revoke d1 = (d1', Ok tt)
     ∧ RedbStore.token_by_fingerprint (fingerprint t) d1' = Ok (Some rec') ∧ t_revoked_at rec' = Some now)
  ∧ RedbStore.apply (cfg_node_id cfg) revoke (w_store w) = (w_store w, Err NotFound)
  ∧ ∃ w' rec', seed_bootstrap_token cfg w = (w', Ok tt)
      ∧ RedbStore.token_by_fingerprint (fingerprint t) (w_store w') = Ok (Some rec')
      ∧ t_revoked_at rec' = None ∧ t_role rec' = Some "admin".
Proof using RL SL.
  intros Ht Hv1 Hn1 Ht1 Hrev Hv2 Hn2 Ht2 revoke. split_and!.
  - pose proof (apply_law (VaultStoreLaws := redb_store_laws n1) d1 a1 revoke Hv1 I I) as Hl. cbn in Hl.
    rewrite Hn1 in Hl. cbn in Hl. rewrite Ht1 in Hl. cbn in Hl. rewrite Hrev in Hl. destruct Hl as (d1' & Ha & Hv1').
    exists d1', (revoked now rec). split; [done|]. split; [|done].
    pose proof (token_by_fingerprint_law (VaultStoreLaws := redb_store_laws n1) d1' _ (fingerprint t) Hv1') as Hf.
    simpl in Hf. by rewrite lookup_insert_eq in Hf.
  - pose proof (apply_law (VaultStoreLaws := redb_store_laws (cfg_node_id cfg)) _ a2 revoke Hv2 I I) as Hl. cbn in Hl.
    by rewrite Hn2 in Hl.
  - destruct (seed_run cfg w a2 Hv2) as (w' & Hrun & _ & Hv'). unfold after_seed, seeded_vault in Hv'.
    rewrite Ht, Hn2, Ht2 in Hv'. exists w', (bootstrap_record t (unix_now (w_os w))). split; [done|]. split; [|done].
    pose proof (token_by_fingerprint_law (VaultStoreLaws := redb_store_laws n1) _ _ (fingerprint t) Hv') as Hf.
    simpl in Hf. by rewrite lookup_insert_eq in Hf.
Qed.
End startup_thms.
