(* ===== verification/LifeThms.v ===== *)
(** * The life of a vault

    The whole of a single node, from its environment variables on: it is
    started, serves requests and rotates secrets, is stopped at any moment, and
    started again on the store it left.  As long as its key provider is the
    configured one, every version in the store keeps opening. *)

From S2P Require Import Prelude RustStr CoreTypes Redb Keys Model Serial Apply Spec Samples ApplyFacts.
From S2P Require Import Refine Engine Invariant StoreLaws StoreThms RaftStore Platform Crypto Kms KmsThms Cache.
From S2P Require Import ApiTypes PgApply IpAddr Guards Service Manage Routes ServiceSafe ServiceRun.
From S2P Require Import ServiceThms AccessThms Calls Peer RaftNode Config Startup StartupThms Router RouterThms HttpThms.

Section life.
Context `{RE : !Redb, RL : !RedbLaws, SE : !StoreSerde, SL : !StoreSerdeLaws}.
Context `{CC : !CryptoCrates, CL : !CryptoLaws, PL : !Platform, PLL : !PlatformLaws, NET : !Ipnet, HO : !HashOrder}.
Context `{UP : !Serde UserPass, UPL : !SerdeLaws UserPass, SB : !Serde BackupData, JB : !JsonBodies}.
Context `{RT : !RaftTypes, RR : !RaftRpc, PS : !PeerSerde}.
Context (node_env : ∀ X, node_call X → World Database → World Database * X).
Context (aws_pages : nat) (aws_client : AwsClient) (AL : AwsLaws aws_client).
Context (var : string → option string) (cfg : Config).

(** ** What a node does *)

(** Its store. *)
#[local] Instance node_store : VaultStore Database := RedbStore.redb_store (cfg_node_id cfg).

(** A request as it comes in, or some rounds of the rotation worker. *)
Inductive job :=
| Http (m : method) (path : string) (parts : Parts) (body : bytes)
| Rotations (poll_secs : Z) (rounds : nat).

Definition job_prog (s : Served (St := Database)) (j : job) : prog Database ApiError unit :=
  match j with
  | Http m path parts body => _ ← respond (vt_state (sv_vault s)) m path parts body; mret tt
  | Rotations poll_secs rounds =>
      prog_map_err Api.Internal (rotation_run (vt_state (sv_vault s)) poll_secs rounds)
  end.

(** All requests but a forced re-wrap, where a restore is of one of the backups
    of the stores in [own]; the worker as started. *)
Definition usual (own : nat → Database) (s : Served (St := Database)) (j : job) : Prop :=
  match j with
  | Http m path parts body =>
      match router m path parts body with
      | Routed (PostRestore _ (Some data)) => ∃ n, data = dump_database (own n)
      | Routed (PostRewrap _) => False
      | _ => True
      end
  | Rotations poll_secs _ => RotationWorker poll_secs ∈ sv_workers s
  end.

Notation serve := (serve (St := Database) node_env aws_pages aws_client var).

(** The stores a node may leave behind: it begins with one without versions; it
    is started, by a process without cached keys, and when the start succeeds
    its jobs run interleaved until the process ends.  What is restored are
    backups of stores it had before. *)
Inductive left_behind : Database → Prop :=
| left_new d a : redb_view d a → vault_versions a = ∅ → left_behind d
| left_unstarted w w' e :
    left_behind (w_store w) → serve w = (w', Err e) → left_behind (w_store w')
| left_stopped own w w1 s jobs w' ps :
    (∀ n, left_behind (own n)) →
    left_behind (w_store w) → w_cache w = ∅ → serve w = (w1, Ok s) → Forall (usual own s) jobs →
    rtc interleave (w1, job_prog s <$> jobs) (w', ps) → left_behind (w_store w').

(** ** Serving keeps the invariant *)

Lemma safe_run_guard {St} `{VS : !VaultStore St, SLW : !VaultStoreLaws St} (state : AppState St)
    `{KL : !KmsLaws (st_kms state)} g parts :
  safe (world_ok state) (λ _, True) (run_guard state g parts).
Proof.
  destruct g; simpl; [| |by apply safe_ret]; (eapply safe_bind; [|intros; by apply safe_ret]).
  - apply safe_admin.
  - apply safe_reader.
Qed.

Lemma safe_respond {E St} `{VS : !VaultStore St, SLW : !VaultStoreLaws St} (state : AppState St)
    `{KL : !KmsLaws (st_kms state)} m path parts body :
  match router m path parts body with Routed req => ordinary state req | _ => True end →
  safe (E := E) (world_ok state) (λ _, True) (respond state m path parts body).
Proof.
  intros Hord. unfold respond. eapply safe_bind; [|intros; by apply safe_ret]. apply safe_attempt_any.
  unfold answer. destruct (router m path parts body) as [req|before| |]; [| |by apply safe_ret..].
  - apply safe_map. by apply safe_handle.
  - eapply safe_bind; [apply safe_run_guard|]. intros. by apply safe_ret.
Qed.

(** ** The key provider of every start *)

(** The key is in AWS or in the environment, not made up at each start. *)
Definition lasting : Prop := cfg_kms_mode cfg = Aws ∨ is_Some (cfg_local_master_key_b64 cfg).

Lemma kms_lasting :
  lasting →
  (∀ w w' (kms : KmsProvider Database), kms_build aws_pages aws_client cfg w ≠ (w', Ok kms))
  ∨ ∃ (kms : KmsProvider Database) (KL : KmsLaws kms), (cfg_kms_mode cfg = Local → KmsReliable kms)
      ∧ ∀ w w' kms', kms_build aws_pages aws_client cfg w = (w', Ok kms') → kms' = kms.
Proof using AL CL PLL.
  unfold lasting, kms_build. intros Hl. destruct (cfg_kms_mode cfg).
  - right. destruct (retrying_inhabited cfg (AwsKms aws_pages aws_client (cfg_kms_key_id cfg))) as [KL].
    { constructor. by apply aws_kms_laws. }
    eexists _, KL. split; [done|]. by intros w w' kms' [= <- <-].
  - destruct Hl as [|[encoded ->]]; [done|]. destruct (from_base64 encoded "local") as [wrapper|e] eqn:Hd; [right|by left].
    apply decoded_key_length in Hd.
    assert (∃ KL : KmsLaws (if (cfg_kms_max_retries cfg =? 0)%Z then LocalKms (St := Database) wrapper
      else RetryingKms (LocalKms wrapper) (cfg_kms_max_retries cfg)), KmsReliable _) as [KL KR].
    { destruct (_ =? 0)%Z; eexists; [by apply (local_kms_reliable wrapper Hd)|].
      apply (retrying_reliable _ _ _ (local_kms_reliable wrapper Hd)). }
    eexists _, KL. split; [done|]. by intros w w' kms' [= <- <-].
Qed.

(** The versions of the vault open under a provider. *)
Definition opens (kms : KmsProvider Database) `{KL : !KmsLaws kms} (a : Vault) : Prop :=
  ∀ name v r, vault_versions a !! (name, v) = Some r → ∃ p,
    v_aad r = aad_for name v ∧ length (v_nonce r) = NONCE_LEN
    ∧ ∃ dek, wraps (v_wrapped_dek r) (v_kms_key_id r) (key_context name v) dek
        ∧ seal dek (v_nonce r) (aad_for name v) p = Ok (v_ciphertext r).

(** [Q] holds of the vaults that open under the provider of every start. *)
Definition opening (Q : Vault → Prop) : Prop :=
  (∀ a, vault_versions a = ∅ → Q a)
  ∧ (∀ a a', vault_versions a' = vault_versions a → Q a → Q a')
  ∧ ∀ w w' (state : AppState Database), kms_build aws_pages aws_client cfg w = (w', Ok (st_kms state)) →
      ∃ KL : KmsLaws (st_kms state), ∀ a, vault_sealed state a ↔ Q a.

Lemma opens_opening (kms : KmsProvider Database) (KL : KmsLaws kms) :
  (∀ w w' kms', kms_build aws_pages aws_client cfg w = (w', Ok kms') → kms' = kms) → opening (opens kms).
Proof.
  intros Hkms. split; [intros a Ha name v r; by rewrite Ha, lookup_empty|].
  split; [by intros a a' Ha; unfold opens; rewrite Ha|]. intros w w' state <-%Hkms. by exists KL.
Qed.

Lemma opening_vaults : lasting → ∃ Q, opening Q.
Proof using AL CL PLL.
  intros [Hnone|(kms & KL & _ & Hkms)]%kms_lasting; [|eexists; by eapply opens_opening].
  exists (λ _, True). split; [done|]. split; [done|]. intros w w' state H. by destruct (Hnone _ _ _ H).
Qed.

(** ** Restarts *)

Lemma serve_run w w' r :
  from_env var = Ok cfg → clustered cfg = false → serve w = (w', r) →
  ∃ r', build_state node_env aws_pages aws_client cfg w = (w', r')
    ∧ match r, r' with Ok s, Ok v => sv_vault s = v | Err _, Err _ => True | _, _ => False end.
Proof.
  intros Henv Hcl H. unfold Startup.serve in H.
  apply ste_bind_cases in H as [(e & H & _)|(w1 & c & H1 & H)]; [by rewrite Henv in H|].
  rewrite Henv in H1. injection H1 as <- <-. rewrite Hcl in H. cbn [andb] in H.
  apply ste_bind_cases in H as [(e & H & ->)|(w2 & v & H & H2)]; [by exists (Err e)|].
  injection H2 as <- <-. by exists (Ok v).
Qed.

(** A start that succeeds finds the secrets and versions as they were left. *)
Lemma start_run w w1 s a :
  from_env var = Ok cfg → clustered cfg = false → redb_view (w_store w) a → serve w = (w1, Ok s) →
  w_cache w1 = w_cache w
  ∧ (∃ w2 w3, kms_build aws_pages aws_client cfg w2 = (w3, Ok (st_kms (vt_state (sv_vault s)))))
  ∧ ∃ a1, redb_view (w_store w1) a1 ∧ vault_versions a1 = vault_versions a ∧ vault_secrets a1 = vault_secrets a.
Proof using PLL RL SL.
  intros Henv Hcl Hv H. apply serve_run in H as ([v|] & H & Hs); [|done..]. subst v.
  destruct (build_state_run node_env aws_pages aws_client _ _ _ _ _ Hv Hcl H)
    as (Hc1 & a1 & Hv1 & Hver & Hsec & _ & _ & _ & Hk & _). eauto 10.
Qed.

(** The jobs of a started node keep its world well-formed. *)
Lemma jobs_keep Q own s (KL : KmsLaws (st_kms (vt_state (sv_vault s)))) jobs w w' ps :
  (∀ a, vault_sealed (vt_state (sv_vault s)) a ↔ Q a) →
  (∀ n, ∃ a, redb_view (own n) a ∧ Q a) → Forall (usual own s) jobs →
  world_ok (vt_state (sv_vault s)) w → rtc interleave (w, job_prog s <$> jobs) (w', ps) →
  world_ok (vt_state (sv_vault s)) w'.
Proof using CL PLL RL SL.
  intros HKL Hown Hjobs Hw Hsteps.
  apply (safe_interleave (world_ok (vt_state (sv_vault s))) (λ _, True) _ _ _ Hsteps); [done|].
  apply Forall_fmap. eapply Forall_impl; [exact Hjobs|]. intros [m path parts body|poll_secs rounds] Hu; simpl.
  - apply safe_map, safe_respond. simpl in Hu. destruct (router m path parts body) as [[]| | |]; try done.
    destruct body0 as [data|]; [|done]. destruct Hu as [n ->], (Hown n) as (a3 & Hv3 & Hq3).
    exists (own n), a3. split; [done|]. split; [done|by apply HKL].
  - apply safe_map_err, safe_rotation_run.
Qed.

(** Started without cached keys on a vault that opens. *)
Lemma start_opens Q w w1 s a :
  from_env var = Ok cfg → clustered cfg = false → opening Q →
  redb_view (w_store w) a → Q a → w_cache w = ∅ → serve w = (w1, Ok s) →
  ∃ (KL : KmsLaws (st_kms (vt_state (sv_vault s)))) a1, (∀ a, vault_sealed (vt_state (sv_vault s)) a ↔ Q a)
    ∧ holds (vt_state (sv_vault s)) w1 a1
    ∧ vault_versions a1 = vault_versions a ∧ vault_secrets a1 = vault_secrets a.
Proof using PLL RL SL.
  intros Henv Hcl (_ & Hsame & HQ) Hv Hq Hc H.
  destruct (start_run _ _ _ _ Henv Hcl Hv H) as (Hc1 & (w2 & w3 & Hk) & a1 & Hv1 & Hver & Hsec).
  destruct (HQ _ _ _ Hk) as [KL HKL]. exists KL, a1. split; [done|]. split; [|done].
  split; [|split; [done|apply HKL; by eapply Hsame]]. intros blob t dek. by rewrite Hc1, Hc, lookup_empty.
Qed.

Lemma left_opens Q d :
  from_env var = Ok cfg → clustered cfg = false → opening Q → left_behind d → ∃ a, redb_view d a ∧ Q a.
Proof using CL PLL RL SL.
  intros Henv Hcl HQ Hd. pose proof HQ as (Hempty & Hsame & _).
  induction Hd as [d a Hv Ha|w w' e _ (a & Hv & Hq) H|own w w1 s jobs w' ps _ Hown _ (a & Hv & Hq) Hc H Hjobs Hsteps].
  - exists a. split; [done|by apply Hempty].
  - apply serve_run in H as ([v|e'] & H & Hs); [done| |done..].
    destruct (build_state_run node_env aws_pages aws_client _ _ _ _ _ Hv Hcl H) as (_ & a1 & Hv1 & Hver & _).
    exists a1. split; [done|by eapply Hsame].
  - destruct (start_opens _ _ _ _ _ Henv Hcl HQ Hv Hq Hc H) as (KL & a1 & HKL & Hh & _).
    destruct (jobs_keep Q own s KL jobs w1 w' ps HKL Hown Hjobs (holds_ok _ _ _ Hh) Hsteps) as (_ & a2 & Hv2 & Hs2).
    exists a2. split; [exact Hv2|by apply HKL].
Qed.

(** C19. What a single node stores stays readable for it, from its first start
    on, if its key is in AWS or its master key is in the environment (else a new
    one is made at each start): whatever requests (all but a forced re-wrap; a
    restore brings back one of its own backups) and rounds of the rotation
    worker run, interleaved in any way, wherever the process stops, and however
    often it is started again, the store holds a well-formed vault, in which a
    node started with the same environment finds every secret and version as it
    was left; and to each version belongs one plaintext, to which every such
    node opens it right after its start, except that with AWS the service may
    fail to decrypt the data key. *)
Theorem vault_outlives_restarts d :
  from_env var = Ok cfg → clustered cfg = false → lasting → left_behind d →
  ∃ a, redb_view d a
    ∧ (∀ w w1 s, w_store w = d → serve w = (w1, Ok s) →
         ∃ a1, redb_view (w_store w1) a1
           ∧ vault_versions a1 = vault_versions a ∧ vault_secrets a1 = vault_secrets a)
    ∧ ∀ name v r, vault_versions a !! (name, v) = Some r →
        ∃ p, ∀ w w1 s, w_store w = d → w_cache w = ∅ → serve w = (w1, Ok s) →
          ∃ w' res, run_prog (open_version (vt_state (sv_vault s)) name v r) w1 = (w', res)
            ∧ (res = Ok p
               ∨ cfg_kms_mode cfg = Aws ∧ ∃ e, res = Err e ∧ decrypt_failed (vt_state (sv_vault s)) w1 name v r e).
Proof using AL CL PLL RL SL.
  intros Henv Hcl Hl Hd.
  assert (∀ a w w1 s, redb_view d a → w_store w = d → serve w = (w1, Ok s) → ∃ a1, redb_view (w_store w1) a1
    ∧ vault_versions a1 = vault_versions a ∧ vault_secrets a1 = vault_secrets a) as Hstart.
  { intros a w w1 s Hv <- H. destruct (start_run _ _ _ _ Henv Hcl Hv H) as (_ & _ & ?). done. }
  pose proof Hl as [Hnone|(kms & KL & KR & Hkms)]%kms_lasting.
  - destruct (opening_vaults Hl) as [Q HQ], (left_opens Q d Henv Hcl HQ Hd) as (a & Hv & _).
    exists a. split; [done|]. split; [eauto|]. intros name v r _. exists []. intros w w1 s <- _ H.
    destruct (start_run _ _ _ _ Henv Hcl Hv H) as (_ & (u & u' & Hk) & _). by destruct (Hnone _ _ _ Hk).
  - pose proof (opens_opening kms KL Hkms) as HQ. destruct (left_opens _ d Henv Hcl HQ Hd) as (a & Hv & Hq).
    exists a. split; [done|]. split; [eauto|]. intros name v r Hr. destruct (Hq name v r Hr) as [p Hp].
    exists p. intros w w1 s <- Hc H.
    destruct (start_run _ _ _ _ Henv Hcl Hv H) as (Hc1 & (u & u' & Hk) & a1 & Hv1 & Hver & _).
    apply Hkms in Hk. subst kms.
    destruct (run_open_sealed (vt_state (sv_vault s)) name v r p w1) as (w' & res & Hrun & _ & _ & Hres); [|exact Hp|].
    { split; [intros blob t dek; by rewrite Hc1, Hc, lookup_empty|]. exists a1. split; [done|].
      by apply (proj1 (proj2 HQ) a a1 Hver). }
    exists w', res. split; [done|]. destruct Hres as [->|(e & -> & He)]; [by left|right].
    destruct (cfg_kms_mode cfg); [by eauto|]. specialize (KR eq_refl).
    by destruct (reliable_decrypts (vt_state (sv_vault s)) w1 name v r p e Hp).
Qed.

(** ** What was read is read again *)

(** Two states with the same provider read the same. *)
Lemma same_provider {St} `{VS : !VaultStore St} (state state' : AppState St) (KL : KmsLaws (st_kms state)) :
  KmsReliable (st_kms state) → st_kms state' = st_kms state →
  ∃ KL' : KmsLaws (st_kms state'), KmsReliable (st_kms state')
    ∧ (∀ a, vault_sealed state a → vault_sealed state' a)
    ∧ ∀ a name sv, readable state a name sv → readable state' a name sv.
Proof.
  unfold vault_sealed, readable, current_is, sealed. intros KR Heq. revert KL KR. destruct Heq. intros KL KR.
  by exists KL.
Qed.

(** [readable] looks at secrets and versions only. *)
Lemma readable_same {St} `{VS : !VaultStore St} (state : AppState St) (KL : KmsLaws (st_kms state)) a a' name sv :
  vault_versions a' = vault_versions a → vault_secrets a' = vault_secrets a →
  readable state a name sv → readable state a' name sv.
Proof. unfold readable, current_is. by intros -> ->. Qed.

(** C20. What a client has been shown it is shown again after a restart.  A
    single node with its master key in the environment, started on any store it
    left behind, runs jobs interleaved in any way and then answers a [GET] of a
    secret with a value.  The process ends; when it starts again on that store,
    every [GET] of the secret from a client that may read answers with the same
    value, version and time of creation. *)
Theorem reads_survive_restart {E} own name raw raw' parts parts' body body' w w1 s jobs w2 ps w3 sv w4 w5 s' :
  from_env var = Ok cfg → clustered cfg = false →
  cfg_kms_mode cfg = Local → is_Some (cfg_local_master_key_b64 cfg) →
  is_valid_secret_name name = true → raw = name ∨ raw = escape_slashes name → raw' = name ∨ raw' = escape_slashes name →
  (∀ n, left_behind (own n)) → left_behind (w_store w) → w_cache w = ∅ → serve w = (w1, Ok s) →
  Forall (usual own s) jobs → rtc interleave (w1, job_prog s <$> jobs) (w2, ps) →
  run_prog (E := E) (respond (vt_state (sv_vault s)) GET ("/v1/secrets/" +:+ raw) parts body) w2
    = (w3, Ok (Answered (Value sv))) →
  w_store w4 = w_store w3 → w_cache w4 = ∅ → serve w4 = (w5, Ok s') → may_read (vt_state (sv_vault s')) w5 parts' →
  ∃ w6, run_prog (E := E) (respond (vt_state (sv_vault s')) GET ("/v1/secrets/" +:+ raw') parts' body') w5
    = (w6, Ok (Answered (Value sv))).
Proof using AL CL PLL RL SL UPL.
  intros Henv Hcl Hmode Hkey Hname Hraw Hraw' Hown Hleft Hc Hs Hjobs Hsteps Hget Hst Hc4 Hs' Hread.
  assert (∃ a, redb_view (w_store w) a) as [a0 Hv0].
  { destruct opening_vaults as [Q HQ]; [by right|]. destruct (left_opens Q _ Henv Hcl HQ Hleft) as (a & ? & _). by exists a. }
  destruct (start_run _ _ _ _ Henv Hcl Hv0 Hs) as (Hc1 & (u1 & u2 & Hk) & _).
  destruct kms_lasting as [Hnone|(kms & KL & KR & Hkms)]; [by right|by destruct (Hnone _ _ _ Hk)|].
  specialize (KR Hmode). pose proof (Hkms _ _ _ Hk) as Heq. subst kms. pose proof (opens_opening _ _ Hkms) as HQ.
  destruct (left_opens _ _ Henv Hcl HQ Hleft) as (a & Hv & Hq).
  assert (world_ok (vt_state (sv_vault s)) w1) as Hw1.
  { destruct (start_run _ _ _ _ Henv Hcl Hv Hs) as (_ & _ & a1 & Hv1 & Hver & _).
    split; [intros blob t dek; by rewrite Hc1, Hc, lookup_empty|]. exists a1. split; [done|].
    by apply (proj1 (proj2 HQ) a a1 Hver). }
  assert (world_ok (vt_state (sv_vault s)) w2) as (Hc2 & a2 & Hv2 & Hs2).
  { eapply (jobs_keep (opens _) own s KL); [done| |done|done|done]. intros n. by eapply left_opens. }
  destruct (answered_from_vault (E := E) (vt_state (sv_vault s)) w2 w3 a2 name sv raw parts body)
    as (a3 & (_ & Hv3 & Hs3) & Hr3); [done..|].
  assert (redb_view (w_store w4) a3) as Hv4 by (rewrite Hst; exact Hv3).
  destruct (start_run _ _ _ _ Henv Hcl Hv4 Hs') as (Hc5 & (u3 & u4 & Hk') & a5 & Hv5 & Hver & Hsec).
  destruct (same_provider _ (vt_state (sv_vault s')) KL KR (Hkms _ _ _ Hk')) as (KL' & KR' & Hseal' & Hread').
  destruct (served_at_path (E := E) (vt_state (sv_vault s')) w5 a5 name sv raw' parts' body') as (w6 & r & Hrun & Hr);
    [|by eapply readable_same, Hread'|done|done|exists w6; by rewrite (shown_reliable _ _ _ _ _ KR' Hr) in Hrun].
  split; [intros blob t dek; by rewrite Hc5, Hc4, lookup_empty|]. split; [exact Hv5|].
  intros n v r. rewrite Hver. by apply Hseal'.
Qed.
End life.
