(* ===== verification/StartupSamples.v ===== *)
(** * Starting a concrete node

    The theorems on start-up, applied to a node in local mode with a bootstrap
    token. *)

From S2P Require Import Prelude RustStr CoreTypes Redb Keys Model Serial Apply Spec Samples ApplyFacts.
From S2P Require Import Refine Engine Invariant StoreLaws StoreThms RaftStore RaftSamples Platform Crypto Kms KmsThms Cache.
From S2P Require Import ApiTypes PgApply IpAddr Guards Service Manage Routes ServiceSafe ServiceRun.
From S2P Require Import ServiceThms ServiceSamples Calls Peer RaftNode ClusterSamples Config Startup StartupThms.

Module Boot.
(** An AWS client that is never reached. *)
Definition aws : AwsClient := {|
  aws_generate_data_key _ _ s := (s, Err "unreachable");
  aws_decrypt _ _ _ s := (s, Err "unreachable");
  aws_re_encrypt _ _ _ _ s := (s, Err "unreachable");
  aws_list_key_rotations _ _ s := (s, Err "unreachable") |}.

Definition aws_laws : AwsLaws aws.
Proof. refine {| aws_wraps _ _ _ _ := False |}; by intros. Defined.

(** The calls of the Raft start-up, which a single node does not make. *)
Definition env X (c : node_call X) (w : World Database) : World Database * X :=
  let '(d, x) := Pair.leader_db X c (w_store w) in (set_store d w, x).

Definition cfg : Config := {|
  cfg_node_id := 1; cfg_peers := [];
  cfg_api_listen := {| sa_ip := V4 {| oct1 := 0; oct2 := 0; oct3 := 0; oct4 := 0 |}; sa_scope := 0; sa_port := 8200 |};
  cfg_db_path := "vault.redb"; cfg_bootstrap_token := Some "boot"; cfg_allowed_ips := "";
  cfg_trust_proxy := false; cfg_read_consistency_linearizable := false; cfg_kms_mode := Local;
  cfg_kms_key_id := ""; cfg_local_master_key_b64 := None; cfg_raft_bind := "0.0.0.0";
  cfg_cluster_token := None; cfg_cluster_auth_required := false; cfg_raft_peer_check := false;
  cfg_rotation_poll_secs := 15; cfg_pg_target_hosts := ""; cfg_pg_target_tls := Prefer;
  cfg_pg_target_ca_file := None; cfg_dek_cache_ttl_secs := 300; cfg_kms_max_retries := 5;
  cfg_kms_rewrap_enabled := false; cfg_kms_rewrap_poll_secs := 86400; cfg_kms_rewrap_max_per_sec := 10;
  cfg_auth_max_failures := 5; cfg_auth_lockout_secs := 900; cfg_auth_window_secs := 300;
  cfg_token_touch_secs := 300 |}.

Lemma empty_view : redb_view (w_store Node.world) empty_vault.
Proof. split; [apply abstracts_empty|apply vault_ok_empty]. Qed.

(** The store of a node that has seeded the token. *)
Definition seeded_world : World Database := (seed_bootstrap_token cfg Node.world).1.
End Boot.

Lemma bootstrap_seed_spec_witness :
  ∃ w', seed_bootstrap_token Boot.cfg Node.world = (w', Ok tt)
    ∧ redb_view (w_store w') (after_seed Boot.cfg Node.world empty_vault).
Proof.
  destruct (bootstrap_seed_spec Boot.cfg Node.world empty_vault Boot.empty_view) as (w' & Hrun & Hv & _).
  exists w'. split; [exact Hrun|exact Hv].
Defined.

Lemma single_node_starts_witness :
  ∃ w' (v : Started Database), build_state Boot.env 10 Boot.aws Boot.cfg Node.world = (w', Ok v).
Proof.
  apply (single_node_starts Boot.env 10 Boot.aws Boot.cfg Node.world empty_vault Boot.empty_view);
    [reflexivity|done|vm_compute; reflexivity|vm_compute; reflexivity|done].
Defined.

Lemma start_holds_witness :
  ∃ w' (v : Started Database), build_state Boot.env 10 Boot.aws Boot.cfg Node.world = (w', Ok v)
    ∧ ∃ a', redb_view (w_store w') a' ∧ is_Some (vault_roles a' !! "admin").
Proof.
  destruct (build_state Boot.env 10 Boot.aws Boot.cfg Node.world) as [w' [v|e]] eqn:H.
  - exists w', v. split; [reflexivity|].
    destruct (start_holds Boot.env 10 Boot.aws Boot.aws_laws Boot.cfg Node.world w' v empty_vault Boot.empty_view eq_refl H)
      as (_ & _ & KL & a' & Hv & Hr & _).
    exists a'. split; [exact Hv|exact Hr].
  - exfalso. apply (f_equal (λ r, is_ok r.2)) in H. vm_compute in H. discriminate.
Defined.

(** Node 1 has seeded the token, node 2 starts with it after the revocation. *)
Lemma bootstrap_token_outlives_revocation_witness :
  (∃ rec, RedbStore.token_by_fingerprint (fingerprint "boot")
       (RedbStore.apply 1 (RevokeToken "bootstrap-admin" 7) (w_store Boot.seeded_world)).1 = Ok (Some rec)
     ∧ t_revoked_at rec = Some 7%Z)
  ∧ ∃ w' rec, seed_bootstrap_token Boot.cfg Node.world = (w', Ok tt)
      ∧ RedbStore.token_by_fingerprint (fingerprint "boot") (w_store w') = Ok (Some rec) ∧ t_revoked_at rec = None.
Proof.
  assert (redb_view (w_store Boot.seeded_world) (after_seed Boot.cfg Node.world empty_vault)) as Hv.
  { destruct (seed_run Boot.cfg Node.world empty_vault Boot.empty_view) as (w1 & Hrun & _ & Hv1).
    unfold Boot.seeded_world. rewrite Hrun. exact Hv1. }
  destruct (bootstrap_token_outlives_revocation Boot.cfg "boot" 1 (w_store Boot.seeded_world)
    (after_seed Boot.cfg Node.world empty_vault) (bootstrap_record "boot" (unix_now (w_os Node.world)))
    Node.world empty_vault 7 eq_refl Hv) as ((d1 & rec1 & Ha & Ht & Hr) & _ & w' & rec & Hs & Hf & Hn & _);
    [reflexivity|reflexivity|reflexivity|exact Boot.empty_view|reflexivity|reflexivity|].
  split.
  - exists rec1. rewrite Ha. split; [exact Ht|exact Hr].
  - exists w', rec. split; [exact Hs|]. split; [exact Hf|exact Hn].
Defined.
