(* ===== verification/HttpSamples.v ===== *)
(** * A client of a concrete node

    Bodies for the requests of the examples, a started node with an
    administrator's token, and on it the theorems on requests and restarts. *)

From S2P Require Import Prelude RustStr CoreTypes Redb Keys Model Serial Apply Spec Samples ApplyFacts.
From S2P Require Import Refine Engine Invariant StoreLaws StoreThms RaftStore RaftSamples Platform Crypto Kms KmsThms Cache.
From S2P Require Import ApiTypes PgApply IpAddr Guards Service Manage Routes ServiceSafe ServiceRun.
From S2P Require Import ServiceThms AccessThms ServiceSamples Calls Peer RaftNode ClusterSamples Config Startup.
From S2P Require Import StartupThms LifeThms StartupSamples Router RouterThms HttpThms.

(** ** Bodies *)

#[export] Instance serial_create : Serial CreateSecretRequest.
Proof.
  serial (λ x, (cr_name x, (cr_kind x, (cr_value x, (cr_username x, (cr_password x, (cr_description x,
            (cr_rotation_interval_secs x, (cr_grace_period_secs x, cr_target x)))))))))
         (λ '(a, (b, (c, (d, (e, (f, (g, (h, i)))))))), Build_CreateSecretRequest a b c d e f g h i).
Defined.
#[export] Instance serial_update : Serial UpdateSecretRequest.
Proof.
  serial (λ x, (ur_value x, (ur_username x, (ur_password x, (ur_description x, (ur_rotation_interval_secs x,
            ur_grace_period_secs x))))))
         (λ '(a, (b, (c, (d, (e, f))))), Build_UpdateSecretRequest a b c d e f).
Defined.
#[export] Instance serial_verify : Serial VerifyRequest.
Proof. serial vq_value Build_VerifyRequest. Defined.

(** Bodies no example sends do not decode. *)
#[export] Instance json_bodies : JsonBodies := {|
  json_create_secret _ b := fst <$> deser b;
  json_update_secret _ b := fst <$> deser b;
  json_verify _ b := ok_or "body" (fst <$> deser b);
  json_batch _ _ := None; json_create_role _ _ := None; json_set_permissions _ _ := None;
  json_create_token _ _ := None; json_backup _ _ := None |}.

(** ** A client *)

Module Client.
Import Node.

(** The node of [ServiceSamples] on the store of a node that was started. *)
Definition ready : World Database := (build_state (St := Database) Boot.env 10 Boot.aws Boot.cfg world).1.

Lemma ready_ok : world_ok state ready.
Proof.
  unfold ready. destruct (build_state (St := Database) Boot.env 10 Boot.aws Boot.cfg world) as [w r] eqn:H.
  destruct (build_state_run Boot.env 10 Boot.aws Boot.cfg world w r empty_vault Boot.empty_view eq_refl H) as (Hc & a & Hv & Hver & _).
  cbn [fst]. split; [intros blob t d; rewrite Hc; simpl; by rewrite lookup_empty|]. exists a. split; [done|].
  intros name v row. rewrite Hver. simpl. by rewrite lookup_empty.
Qed.

Definition admin : Parts :=
  {| p_authorization := Some "Bearer boot"; p_forwarded_for := None; p_connect_ip := Some (V4 sample_ip) |}.
Definition reader : Parts :=
  {| p_authorization := None; p_forwarded_for := None; p_connect_ip := Some (V4 sample_ip) |}.

Definition body : bytes := ser (create "team/db" Automatic).
Definition posted : World Database * result ApiError reply := run_prog (respond state POST "/v1/secrets" admin body) ready.
Definition rotated : World Database * result ApiError reply :=
  run_prog (respond state POST "/v1/secrets/team%2Fdb/rotate" admin []) posted.1.

Lemma may_read_open (w : World Database) :
  vs_lockout (ip_to_string (V4 sample_ip)) (w_store w) = Ok None → may_read state w reader.
Proof.
  intros Hl. split; [vm_compute; reflexivity|]. intros a ip record until Hv [= <-] Hr _.
  pose proof (lockout_law _ _ (ip_to_string (V4 sample_ip)) Hv) as Hlaw. congruence.
Qed.

Definition status_of {E} (r : result E reply) : option Z :=
  match r with Ok r => reply_status r | Err _ => None end.

Lemma posted_status : status_of posted.2 = Some 201%Z.
Proof. vm_compute. reflexivity. Qed.
Lemma posted_open : may_read state posted.1 reader.
Proof. apply may_read_open. vm_compute. reflexivity. Qed.
Lemma rotated_status : status_of rotated.2 = Some 200%Z.
Proof. vm_compute. reflexivity. Qed.
Lemma rotated_open : may_read state rotated.1 reader.
Proof. apply may_read_open. vm_compute. reflexivity. Qed.

Lemma posted_world : world_ok state posted.1.
Proof.
  destruct posted as [w1 r] eqn:H.
  eapply (safe_run _ (λ _, True)) in H as [Hw _]; [exact Hw| |exact ready_ok].
  by apply safe_respond.
Qed.
End Client.
Import Node Client.

(** A deletion without a token. *)
Lemma http_mediation_witness :
  ∃ w' r, run_prog (E := ApiError) (respond Node.state DELETE "/v1/secrets/team/db" reader []) Node.world = (w', Ok r)
    ∧ reply_status r ∈ turned_away_codes ∧ traceless empty_vault w'.
Proof.
  destruct (http_mediation (E := ApiError) Node.state Node.world empty_vault DELETE "/v1/secrets/team/db" reader [])
    as (w' & r & Hrun & Haway & _); [exact Boot.empty_view|].
  exists w', r. split; [exact Hrun|]. apply Haway. vm_compute. reflexivity.
Defined.

Lemma http_create_get_roundtrip_witness :
  ∃ sv w2, posted.2 = Ok (Answered (Created sv))
    ∧ run_prog (E := ApiError) (respond Node.state GET "/v1/secrets/team%2Fdb" reader []) posted.1
      = (w2, Ok (Answered (Value sv))).
Proof.
  pose proof posted_status as Hst. pose proof posted_open as Hread.
  destruct posted as [w1 [r|e]] eqn:Hrun; [|discriminate Hst].
  destruct (http_create_get_roundtrip (E := ApiError) Node.state admin body (Node.create "team/db" Automatic) reader [] "team%2Fdb"
    ready w1 r ready_ok) as (sv & w2 & r' & -> & Hget & Hs); [vm_compute; reflexivity| |exact Hrun|exact Hst|exact Hread|right; reflexivity|].
  - intros value [= <-]. reflexivity.
  - apply (shown_reliable Node.state) in Hs; [|exact _]. subst r'. exists sv, w2. split; [reflexivity|exact Hget].
Defined.

Lemma http_rotate_get_roundtrip_witness :
  ∃ sv w2, rotated.2 = Ok (Answered (Value sv))
    ∧ run_prog (E := ApiError) (respond Node.state GET "/v1/secrets/team/db" reader []) rotated.1
      = (w2, Ok (Answered (Value sv))).
Proof.
  pose proof rotated_status as Hst. pose proof rotated_open as Hread.
  destruct rotated as [w1 [r|e]] eqn:Hrun; [|discriminate Hst].
  destruct (http_rotate_get_roundtrip (E := ApiError) Node.state "team/db" admin [] reader [] "team%2Fdb" "team/db"
    posted.1 w1 r posted_world) as (sv & w2 & r' & -> & Hget & Hs);
    [vm_compute; reflexivity|right; reflexivity|left; reflexivity|exact Hrun|exact Hst|exact Hread|].
  apply (shown_reliable Node.state) in Hs; [|exact _]. subst r'. exists sv, w2. split; [reflexivity|exact Hget].
Defined.

(** ** A node that is stopped *)

Module Life.
Definition var (key : string) : option string :=
  if decide (key = "VAULT_KMS_MODE") then Some "local"
  else if decide (key = "VAULT_LOCAL_MASTER_KEY") then Some "a master key for this one sample"
  else if decide (key = "VAULT_ALLOWED_IPS") then Some "10.1.2.3"
  else if decide (key = "VAULT_BOOTSTRAP_TOKEN") then Some "boot" else None.
Definition cfg : Config := default Boot.cfg (to_option (from_env var)).

Definition first_start : World Database * result cause (Served (St := Database)) :=
  serve Boot.env 10 Boot.aws var Node.world.

Definition jobs : list job := [Http POST "/v1/secrets" admin body; Rotations 15 2].

(** The two jobs in turns; the creation is through its write when the node stops. *)
Definition turns : list nat := mjoin (replicate 12 [0; 1]).

Definition reached : World Database * list (prog Database ApiError unit) :=
  match first_start with
  | (w1, Ok s) => schedule (VS := node_store cfg) turns (w1, job_prog cfg s <$> jobs)
  | (w1, Err _) => (w1, [])
  end.
Definition stopped : Database := w_store reached.1.

Lemma first_start_ok : is_ok first_start.2 = true.
Proof. vm_compute. reflexivity. Qed.

Lemma stopped_has_secret : is_ok (RedbStore.version "team/db" 1 stopped) = true ∧ RedbStore.version "team/db" 1 stopped ≠ Ok None.
Proof. vm_compute. split; [reflexivity|discriminate]. Qed.

Lemma first_usual own s : first_start.2 = Ok s → Forall (usual own s) jobs.
Proof.
  intros Hs. repeat constructor. apply (f_equal (λ r, match r with Ok s => sv_workers s | Err _ => [] end)) in Hs.
  simpl in Hs. change (RotationWorker 15 ∈ sv_workers s). rewrite <- Hs. vm_compute. left.
Qed.

Lemma stopped_left : left_behind Boot.env 10 Boot.aws var cfg stopped.
Proof.
  pose proof first_start_ok as Hok. pose proof first_usual as Hu. unfold stopped, reached.
  destruct first_start as [w1 [s|e]] eqn:Hrun; [|done].
  assert (left_behind Boot.env 10 Boot.aws var cfg (w_store Node.world)) as Hnew.
  { by apply (left_new _ _ _ _ _ _ empty_vault); [exact Boot.empty_view|]. }
  eapply (left_stopped _ _ _ _ _ (λ _, w_store Node.world) Node.world w1 s jobs _ _);
    [done|done|reflexivity|exact Hrun|by apply Hu|].
  rewrite <- surjective_pairing. apply schedule_interleave.
Qed.

(** The secret is read, the process ends, and the node is started again. *)
Definition shown : World Database * result ApiError reply :=
  match first_start with
  | (_, Ok s) => run_prog (VS := node_store cfg)
      (respond (VS := node_store cfg) (vt_state (sv_vault s)) GET "/v1/secrets/team/db" reader []) reached.1
  | (w1, Err _) => (w1, Ok (Refused 0))
  end.
Definition again : World Database := set_store (w_store shown.1) Node.world.
Definition second_start : World Database * result cause (Served (St := Database)) :=
  serve Boot.env 10 Boot.aws var again.

Lemma shown_value : ∃ sv, shown.2 = Ok (Answered (Value sv)).
Proof. vm_compute. eexists. reflexivity. Qed.

Lemma second_open w5 s : second_start = (w5, Ok s) →
  may_read (VS := node_store cfg) (vt_state (sv_vault s)) w5 reader.
Proof.
  intros H. assert (match second_start with
    | (w5, Ok s) => reader_allowed (vt_state (sv_vault s)) reader = true
        ∧ RedbStore.lockout (ip_to_string (V4 sample_ip)) (w_store w5) = Ok None
    | _ => False end) as Ho; [vm_compute; split; reflexivity|].
  rewrite H in Ho. destruct Ho as [Hr Hl]. split; [done|]. intros a ip record until Hv [= <-] Hrec _.
  pose proof (lockout_law (VaultStoreLaws := redb_store_laws (cfg_node_id cfg)) _ _ (ip_to_string (V4 sample_ip)) Hv) as Hlaw.
  pose proof (eq_trans (eq_sym Hlaw) Hl). congruence.
Qed.

Lemma second_start_ok : is_ok second_start.2 = true.
Proof. vm_compute. reflexivity. Qed.
End Life.

Lemma vault_outlives_restarts_witness :
  ∃ a r p, redb_view Life.stopped a ∧ vault_versions a !! ("team/db", 1%Z) = Some r
    ∧ ∀ w w1 s, w_store w = Life.stopped → w_cache w = ∅ →
        serve (St := Database) Boot.env 10 Boot.aws Life.var w = (w1, Ok s) →
        ∃ w', run_prog (VS := node_store Life.cfg) (open_version
                (vt_state (sv_vault s)) "team/db" 1 r) w1 = (w', Ok p).
Proof.
  destruct (vault_outlives_restarts Boot.env 10 Boot.aws Boot.aws_laws Life.var Life.cfg Life.stopped)
    as (a & Hv & _ & Hopen); [vm_compute; reflexivity|reflexivity| |exact Life.stopped_left|].
  { right. vm_compute. by eexists. }
  assert (is_Some (vault_versions a !! ("team/db", 1%Z))) as [r Hr].
  { pose proof Life.stopped_has_secret as [_ Hne]. rewrite (version_view _ a "team/db" 1 Hv) in Hne by (unfold_ints; lia).
    destruct (vault_versions a !! _); [by eexists|done]. }
  destruct (Hopen "team/db" 1%Z r Hr) as [p Hp]. exists a, r, p. split; [exact Hv|]. split; [exact Hr|].
  intros w w1 s Hd Hc Hs. destruct (Hp w w1 s Hd Hc Hs) as (w' & res & Hrun & [->|[Haws _]]); [by exists w'|].
  exfalso. assert (cfg_kms_mode Life.cfg = Config.Local) as Hlocal by (vm_compute; reflexivity). congruence.
Defined.

Lemma reads_survive_restart_witness :
  ∃ sv w5 s' w6, Life.shown.2 = Ok (Answered (Value sv)) ∧ Life.second_start = (w5, Ok s')
    ∧ run_prog (VS := node_store Life.cfg) (E := ApiError)
        (respond (VS := node_store Life.cfg) (vt_state (sv_vault s')) GET "/v1/secrets/team%2Fdb" reader []) w5
      = (w6, Ok (Answered (Value sv))).
Proof.
  pose proof Life.first_start_ok as Hok1. pose proof Life.first_usual as Hu. destruct Life.shown_value as [v Hval].
  pose proof Life.second_start_ok as Hok2. pose proof Life.second_open as Hopen.
  destruct Life.first_start as [w1 [s|e]] eqn:Hrun; [|discriminate Hok1].
  destruct Life.second_start as [w5 [s'|e']] eqn:Hrun'; [|discriminate Hok2].
  destruct Life.shown as [w3 r] eqn:Hshown. cbn [snd] in Hval. subst r.
  assert (left_behind Boot.env 10 Boot.aws Life.var Life.cfg (w_store Node.world)) as Hnew.
  { apply (left_new _ _ _ _ _ _ empty_vault); [exact Boot.empty_view|reflexivity]. }
  destruct (reads_survive_restart Boot.env 10 Boot.aws Boot.aws_laws Life.var Life.cfg (E := ApiError)
    (λ _, w_store Node.world) "team/db" "team/db" "team%2Fdb" reader reader [] [] Node.world w1 s Life.jobs
    Life.reached.1 Life.reached.2 w3 v Life.again w5 s') as [w6 H6].
  - vm_compute. reflexivity.
  - reflexivity.
  - vm_compute. reflexivity.
  - vm_compute. eexists. reflexivity.
  - vm_compute. reflexivity.
  - left. reflexivity.
  - right. reflexivity.
  - intros n. exact Hnew.
  - exact Hnew.
  - reflexivity.
  - exact Hrun.
  - apply Hu. reflexivity.
  - unfold Life.reached. rewrite Hrun, <- surjective_pairing. apply schedule_interleave.
  - unfold Life.shown in Hshown. rewrite Hrun in Hshown. exact Hshown.
  - unfold Life.again. rewrite Hshown. reflexivity.
  - reflexivity.
  - exact Hrun'.
  - apply Hopen. reflexivity.
  - exists v, w5, s', w6. split; [reflexivity|]. split; [reflexivity|exact H6].
Defined.
