(* ===== verification/FuzzCore.v ===== *)
(** * The fuzz targets: pure and cryptographic surfaces

    Models [fuzz/fuzz_targets]: the targets whose input is a value and whose
    oracle calls pure functions, the guards, the envelope code or the key
    encoding.  A target is the function the fuzzer calls; [Err what] is the
    panic of a failed assertion or [expect] with its message.  The targets that
    run a database are in [FuzzStore]; what is shown of all of them is in
    [FuzzCoreThms], [FuzzStoreThms] and [FuzzRaftThms]. *)

From S2P Require Import Prelude RustStr CoreTypes Redb Keys Model Engine Platform Crypto IpAddr.
From S2P Require Import PgApply ApiTypes Guards Service Manage Calls Config.

(** ** Assertions *)

(** What a target does on an input: nothing, or a panic with its message. *)
Notation verdict := (result string).

(** [assert!] *)
Definition assert (b : bool) (what : string) : verdict unit :=
  if b then Ok tt else Err what.

(** [if c { .. }] *)
Definition when (c : bool) (body : verdict unit) : verdict unit := if c then body else Ok tt.

(** [expect] on a [Result] or an [Option] *)
Definition expect {E A} (r : result E A) (what : string) : verdict A := map_err (λ _, what) r.
Definition expect_some {A} (o : option A) (what : string) : verdict A := ok_or what o.

(** [for x in l { body }] *)
Fixpoint each {A} (body : A → verdict unit) (l : list A) : verdict unit :=
  match l with
  | [] => Ok tt
  | x :: l => body x ;; each body l
  end.

(** [str::contains(&str)] *)
Fixpoint contains_str (needle s : string) : bool :=
  starts_with needle s || match s with "" => false | String _ s => contains_str needle s end.

(** [haystack.starts_with(needle)] on byte slices *)
Definition bytes_start_with (needle haystack : bytes) : bool :=
  bool_decide (take (length needle) haystack = needle).

(** [s.matches(c).count()] *)
Fixpoint count_char (c : ascii) (s : string) : nat :=
  match s with
  | "" => 0
  | String a s => (if Ascii.eqb a c then 1 else 0) + count_char c s
  end.

(** ** rbac.rs *)

Module rbac.
Record Input := {
  is_admin : bool;
  rules : list (string * string);
  action : string;
  name : string;
}.

(** The calls made only to see that they return are left out. *)
Definition run (input : Input) : verdict unit :=
  let allowed := authorize (is_admin input) (rules input) (action input) (name input) in
  let vis := visible (is_admin input) (rules input) (name input) in
  when (is_admin input) (assert (allowed && vis) "admin must be authorized and see everything") ;;
  assert (negb allowed || vis) "authorize() must imply visible()" ;;
  assert (path_matches "*" (name input)) "a lone * must match any name".
End rbac.

(** ** types_aad.rs *)

Module types_aad.
Record Input := {
  name : string;
  version : Z;
  kind : string;
  format : string;
}.

Definition run (input : Input) : verdict unit :=
  let aad := aad_for (name input) (version input) in
  assert (bytes_start_with (as_bytes (name input)) aad) "aad must start with the secret name" ;;
  match SecretKind.parse (kind input) with
  | Some kind => assert (bool_decide (SecretKind.parse (SecretKind.as_str kind) = Some kind)) "kind"
  | None => Ok tt
  end ;;
  match SecretFormat.parse (format input) with
  | Some format => assert (bool_decide (SecretFormat.parse (SecretFormat.as_str format) = Some format)) "format"
  | None => Ok tt
  end.
End types_aad.

(** ** name_validation.rs *)

Module name_validation.
Record Input := {
  name : string;
  role_name : string;
  value : string;
  grace : option Z;
}.

Definition grace_in_range (secs : Z) : bool := (0 <=? secs)%Z && (secs <=? MAX_GRACE_SECS)%Z.

Definition run (input : Input) : verdict unit :=
  when (is_ok (validate_name (name input))) (
    assert ((1 <=? String.length (name input))%nat && (String.length (name input) <=? 255)%nat)
      "an accepted secret name must be 1..=255 bytes" ;;
    assert (all_bytes (λ c, is_ascii_alphanumeric c
              || Ascii.eqb c "-" || Ascii.eqb c "_" || Ascii.eqb c "/" || Ascii.eqb c ".") (name input))
      "an accepted secret name must stay inside [A-Za-z0-9-_/.]" ;;
    assert (negb (contains_char nul (name input)) && negb (contains_char soh (name input)))
      "an accepted secret name must not contain a version-key separator byte") ;;
  when (is_ok (validate_role_name (role_name input))) (
    assert (negb (is_empty (trim (role_name input))) && (String.length (role_name input) <=? 255)%nat)
      "an accepted role name must be non-blank and at most 255 bytes") ;;
  match normalize_grace (grace input) with
  | Ok secs => assert (grace_in_range secs) "a normalized grace period must be between zero and the maximum"
  | Err _ => assert (match grace input with Some value => negb (grace_in_range value) | None => false end)
               "normalize_grace must only reject a grace period outside that range"
  end ;;
  assert (bool_decide (to_option (normalize_grace None) = Some 0%Z))
    "an absent grace period must normalize to zero" ;;
  when (is_ok (validate_value (value input))) (
    assert (Z.of_nat (String.length (value input)) <=? 2 ^ 16)%Z "an accepted value must fit the cap") ;;
  when (is_ok (validate_field "password" (value input))) (
    assert (negb (is_empty (value input)) && (Z.of_nat (String.length (value input)) <=? 2 ^ 16)%Z)
      "an accepted field must be non-empty and fit the cap").
End name_validation.

(** ** pg_hostport.rs *)

Module pg_hostport.
Definition run (raw : string) : verdict unit :=
  let '(host, port) := split_hostport raw in
  assert (contains_str host raw) "the host must be a substring of the input" ;;
  assert (String.length host <=? String.length raw)%nat "the host must not grow the input" ;;
  when (negb (contains_char ":" raw)) (
    assert (port =? 5432)%Z "a colon-free input takes the default port" ;;
    when (negb (starts_with "[" raw))
      (assert (bool_decide (host = raw)) "an unbracketed colon-free input is all host")) ;;
  when (negb (starts_with "[" raw)) (
    match rsplit_once ":" raw with
    | Some (expected_host, expected_port) =>
        when (negb (contains_char ":" expected_host)) (
          match parse_u16 expected_port with
          | Some parsed =>
              assert (bool_decide (host = expected_host)) "host must round-trip" ;;
              assert (port =? parsed)%Z "port must round-trip"
          | None => Ok tt
          end)
    | None => Ok tt
    end) ;;
  match strip_prefix "[" raw with
  | Some rest =>
      match split_once "]" rest with
      | Some (inner, tail) =>
          let well_formed := is_empty tail
            || match strip_prefix ":" tail with
               | Some p => bool_decide (is_Some (parse_u16 p))
               | None => false
               end in
          when well_formed (assert (bool_decide (host = inner)) "a bracketed literal keeps its address")
      | None => Ok tt
      end
  | None => Ok tt
  end.
End pg_hostport.

(** ** config_parse_peers.rs *)

Module config_parse_peers.
Definition check_peer (raw : string) (peer : Z * string) : verdict unit :=
  let '(id, addr) := peer in
  assert (negb (is_empty addr)) "an accepted peer address must be non-empty" ;;
  assert (bool_decide (trim addr = addr)) "an accepted peer address must be trimmed" ;;
  assert (contains_str (dec id) raw) "an accepted peer id must appear in the input" ;;
  assert (contains_str addr raw) "an accepted peer address must appear in the input".

Definition run (raw : string) : verdict unit :=
  match parse_peers raw with
  | Err _ => Ok tt
  | Ok peers =>
      assert (length peers <=? count_char "," raw + 1)%nat
        "the map cannot hold more peers than there are comma-separated entries" ;;
      each (check_peer raw) peers
  end.
End config_parse_peers.

(** ** ip_allowlist_parse.rs *)

Module ip_allowlist_parse.
(** The addresses are looked up only to see that it returns. *)
Definition run `{NET : !Ipnet} (data : bytes) : verdict unit :=
  match from_utf8 data with
  | None => Ok tt
  | Some spec =>
      match parse_allowlist spec with
      | Ok list => assert (Bool.eqb (allowlist_is_empty list) (allowlist_len list =? 0)%nat) "is_empty"
      | Err _ => Ok tt
      end
  end.
End ip_allowlist_parse.

(** ** bearer_token_parse.rs and forwarded_for_parse.rs *)

(** [http::HeaderValue]: which bytes it accepts and which of them it shows as
    text is the crate's business. *)
Class HeaderValues := {
  HeaderValue : Type;
  header_from_bytes : bytes → option HeaderValue;
  header_to_str : HeaderValue → option string;
}.

Module bearer_token_parse.
Section target.
Context `{HV : !HeaderValues}.

Definition parts_with_authorization (raw : bytes) : option Parts :=
  value ← header_from_bytes raw;
  Some {| p_authorization := header_to_str value; p_forwarded_for := None; p_connect_ip := None |}.

Definition run (data : bytes) : verdict unit :=
  match parts_with_authorization data with
  | None => Ok tt
  | Some parts =>
      let header := p_authorization parts in
      match bearer_token parts with
      | None => Ok tt
      | Some token =>
          header ← expect_some header "a token can only come from a UTF-8 header";
          assert (negb (is_empty token)) "an empty token must be rejected" ;;
          assert (contains_str token header) "the returned token must appear verbatim in the header" ;;
          assert (bool_decide (trim token = token))
            "the returned token must be trimmed of surrounding whitespace" ;;
          assert (starts_with "Bearer " header || starts_with "bearer " header)
            "a token must only be accepted from a 'Bearer '/'bearer ' scheme"
      end
  end.
End target.
End bearer_token_parse.

Module forwarded_for_parse.
(** The peer's address comes as its octets; the port plays no part. *)
Record Input := {
  header : bytes;
  send_header : bool;
  peer_is_v6 : bool;
  peer_v4 : Ipv4Addr;
  peer_v6 : list Z;
  with_connect_info : bool;
}.

(** [Ipv6Addr::from([u8; 16])] *)
Fixpoint segments (octets : list Z) : list Z :=
  match octets with
  | hi :: lo :: octets => (hi * 256 + lo)%Z :: segments octets
  | _ => []
  end.

Section target.
Context `{HV : !HeaderValues}.

Definition build (input : Input) : Parts * option IpAddr * option string :=
  let peer := if peer_is_v6 input then V6 (segments (peer_v6 input)) else V4 (peer_v4 input) in
  let value := if send_header input then header_from_bytes (header input) else None in
  let header_text := value ← value; header_to_str value in
  let socket_ip := if with_connect_info input then Some peer else None in
  ({| p_authorization := None; p_forwarded_for := header_text; p_connect_ip := socket_ip |},
   socket_ip, header_text).

Definition run (input : Input) : verdict unit :=
  let '(parts, socket_ip, header_text) := build input in
  assert (bool_decide (client_ip parts false = socket_ip))
    "X-Forwarded-For must be ignored when VAULT_TRUST_PROXY is off" ;;
  match client_ip parts true with
  | None => assert (bool_decide (socket_ip = None))
              "a request with a transport peer must resolve to some address"
  | Some resolved =>
      if bool_decide (Some resolved = socket_ip) then Ok tt else
      header ← expect_some header_text "a non-peer address must come from the header";
      let first := trim (default "" (head (split_char "," header))) in
      assert (bool_decide (parse_ip first = Some resolved))
        "a trusted-proxy address must be the first X-Forwarded-For field"
  end.
End target.
End forwarded_for_parse.

(** ** store_key_encoding.rs *)

Module store_key_encoding.
Record Input := {
  name_a : string;
  name_b : string;
  version_a : Z;
  version_b : Z;
}.

Definition inside_scan_range (key name : string) : bool :=
  bool_decide (String.le (version_lower name) key) && bool_decide (strict String.le key (version_upper name)).

Definition run (input : Input) : verdict unit :=
  let '{| name_a := name_a; name_b := name_b; version_a := version_a; version_b := version_b |} := input in
  when (bool_decide (name_a ≠ name_b)) (
    assert (bool_decide (version_from_key name_a (version_key name_b version_b) = None))
      "another secret's version row was accepted by this secret's scan") ;;
  let valid_a := is_valid_secret_name name_a && is_valid_secret_version version_a in
  let valid_b := is_valid_secret_name name_b && is_valid_secret_version version_b in
  when valid_a (
    let key_a := version_key name_a version_a in
    assert (inside_scan_range key_a name_a)
      "a secret's own version row must fall inside its own scan range" ;;
    assert (bool_decide (version_from_key name_a key_a = Some version_a))
      "a secret's own version row must parse back to its version") ;;
  when (valid_a && valid_b && bool_decide (name_a = name_b)) (
    assert ((version_a =? version_b)%Z
            || bool_decide (version_key name_a version_a ≠ version_key name_a version_b))
      "two versions of one secret must not share a key" ;;
    when (version_a <? version_b)%Z (
      assert (bool_decide (strict String.le (version_key name_a version_a) (version_key name_a version_b)))
        "key byte order must match version numeric order")).
End store_key_encoding.

(** ** Targets of the cryptographic core *)

(** *** auth_fingerprint.rs *)
Module auth_fingerprint.
Section target.
Context `{CC : !CryptoCrates}.

Definition run (data : bytes) : verdict unit :=
  match from_utf8 data with
  | None => Ok tt
  | Some token =>
      let fp := fingerprint token in
      assert (bool_decide (fp = fingerprint token)) "fingerprint must be deterministic" ;;
      assert (verify token fp) "a token must verify against its own fingerprint" ;;
      assert (fingerprints_match fp fp) "fingerprints_match" ;;
      assert (negb (verify token (take (length fp - 1) fp)))
        "a truncated expected fingerprint must not match"
  end.
End target.
End auth_fingerprint.

(** *** crypto_roundtrip.rs *)
Module crypto_roundtrip.
Record Input := {
  master : bytes;
  aad : bytes;
  plaintext : bytes;
  tamper_index : nat;
  tamper_xor : byte;
}.

Definition byte_xor (a b : byte) : byte :=
  default a (Byte.of_N (N.lxor (Byte.to_N a) (Byte.to_N b))).

Definition tamper (env : Envelope) (idx : nat) (x : byte) : Envelope := {|
  env_key_id := env_key_id env; env_wrapped_dek := env_wrapped_dek env; env_nonce := env_nonce env;
  env_ciphertext := alter (λ b, byte_xor b x) idx (env_ciphertext env) |}.

Section target.
Context `{CC : !CryptoCrates, PL : !Platform} {St : Type} `{VS : !VaultStore St}.

Definition run (input : Input) (w : World St) : verdict unit :=
  let wrapper := local_key_wrapper {| lw_master := master input; lw_key_id := "fuzz-key" |} in
  match (run_prog (seal_envelope wrapper (aad input) (plaintext input)) w).2 with
  | Err _ => Ok tt
  | Ok env =>
      opened ← expect (open_envelope wrapper env (aad input)) "authentic envelope must open";
      assert (bool_decide (opened = plaintext input)) "opened" ;;
      let wrong_aad := (λ b, byte_xor b Byte.xff) <$> aad input in
      when (bool_decide (wrong_aad ≠ aad input)) (
        assert (negb (is_ok (open_envelope wrapper env wrong_aad)))
          "an AAD mismatch must never authenticate") ;;
      when (negb (bool_decide (env_ciphertext env = [])) && negb (bool_decide (tamper_xor input = Byte.x00))) (
        let idx := tamper_index input `mod` length (env_ciphertext env) in
        assert (negb (is_ok (open_envelope wrapper (tamper env idx (tamper_xor input)) (aad input))))
          "a tampered ciphertext must never authenticate")
  end.
End target.
End crypto_roundtrip.

(** *** local_key_from_base64.rs *)
Module local_key_from_base64.
Section target.
Context `{CC : !CryptoCrates, PL : !Platform} {St : Type} `{VS : !VaultStore St}.

Definition run (data : bytes) (w : World St) : verdict unit :=
  match from_utf8 data with
  | None => Ok tt
  | Some text =>
      match from_base64 text "fuzz-key" with
      | Err _ => Ok tt
      | Ok wrapper =>
          let wrapper : KeyWrapper St := local_key_wrapper wrapper in
          env ← expect (run_prog (seal_envelope wrapper (as_bytes "fuzz-aad") (as_bytes "fuzz-plaintext")) w).2
            "a valid 32-byte key must seal";
          opened ← expect (open_envelope wrapper env (as_bytes "fuzz-aad"))
            "authentic envelope must open";
          assert (bool_decide (opened = as_bytes "fuzz-plaintext")) "opened"
      end
  end.
End target.
End local_key_from_base64.
