(* ===== verification/FuzzCoreThms.v ===== *)
(** * The fuzz targets hold on every input: pure and cryptographic surfaces

    Each oracle of [FuzzCore] is proved for all inputs, where a fuzzer samples
    them: no assertion of these targets can fail.  The one exception is
    [crypto_roundtrip], whose tampering checks no deterministic statement can
    promise; it is shown to fail only on a forged ciphertext. *)

From S2P Require Import Prelude RustStr CoreTypes Redb Keys Model Engine Platform Crypto IpAddr.
From S2P Require Import PgApply ApiTypes Guards Service Manage Calls Config ConfigThms KmsThms FuzzCore.

(** ** Assertions *)

Lemma assert_ok b what : b = true → assert b what = Ok tt.
Proof. by intros ->. Qed.

Lemma when_ok c body : (c = true → body = Ok tt) → when c body = Ok tt.
Proof. destruct c; [|done]. intros H. by apply H. Qed.

Lemma then_ok (m k : verdict unit) : m = Ok tt → k = Ok tt → (m ;; k) = Ok tt.
Proof. by intros -> ->. Qed.

Lemma each_ok {A} (body : A → verdict unit) l : Forall (λ x, body x = Ok tt) l → each body l = Ok tt.
Proof. induction 1 as [|x l H _ IH]; simpl; [done|]. by rewrite H. Qed.

(** Walk an oracle: one goal for each assertion. *)
Ltac oracle :=
  repeat first [ apply then_ok | apply assert_ok | apply when_ok; intros ].

(** ** Substrings *)

Definition substring (n s : string) : Prop := ∃ l r, s = l +:+ n +:+ r.

Lemma contains_str_spec n s : contains_str n s = true ↔ substring n s.
Proof.
  induction s as [|a s IH].
  - simpl. rewrite orb_false_r, starts_with_spec. split.
    + intros [r Hr]. by exists "", r.
    + intros (l & r & H). destruct l; [|done]. by exists r.
  - cbn [contains_str]. rewrite orb_true_iff, starts_with_spec, IH. split.
    + intros [[r ->]|(l & r & ->)]; [by exists "", r|by exists (String a l), r].
    + intros (l & r & H). destruct l as [|b l]; simplify_eq/=; [left; by exists r|right; by exists l, r].
Qed.

Lemma substring_refl s : substring s s.
Proof. exists "", "". by rewrite append_nil_r. Qed.

Lemma substring_trans n s t : substring n s → substring s t → substring n t.
Proof. intros (l & r & ->) (l' & r' & ->). exists (l' +:+ l), (r +:+ r'). by rewrite !append_assoc. Qed.

Lemma substring_l s t : substring s (s +:+ t).
Proof. by exists "", t. Qed.
Lemma substring_r s t : substring t (s +:+ t).
Proof. exists s, "". by rewrite append_nil_r. Qed.
Lemma substring_cons a s : substring s (String a s).
Proof. exists (String a ""), "". simpl. by rewrite append_nil_r. Qed.

Lemma substring_length n s : substring n s → String.length n ≤ String.length s.
Proof. intros (l & r & ->). rewrite !length_append. lia. Qed.

Lemma split_once_substring c s l r : split_once c s = Some (l, r) → substring l s ∧ substring r s.
Proof.
  intros [-> _]%split_once_Some. split; [apply substring_l|].
  eapply substring_trans; [apply substring_cons|apply substring_r].
Qed.

Lemma split_char_substring c s : Forall (λ p, substring p s) (split_char c s).
Proof.
  assert (∀ p a t, substring p t → substring p (String a t)) as Hstep.
  { intros p a t H. eapply substring_trans; [done|apply substring_cons]. }
  enough (Forall (λ p, substring p s) (split_char c s)
    ∧ ∀ p, head (split_char c s) = Some p → ∃ r, s = p +:+ r) as [? _] by done.
  induction s as [|a s [IH IHh]]; simpl.
  { split; [repeat constructor; apply substring_refl|]. intros p [= <-]. by exists "". }
  destruct (Ascii.eqb a c).
  - split; [constructor; [by exists "", (String a s)|]|intros p [= <-]; by eexists].
    eapply Forall_impl; [exact IH|]. auto.
  - destruct (split_char c s) as [|p ps].
    + split; [repeat constructor; by exists "", s|intros p [= <-]; by exists s].
    + destruct (IHh p eq_refl) as [r Hr]. apply Forall_cons in IH as [_ IH]. split.
      * constructor; [exists "", r; simpl; by rewrite Hr|]. eapply Forall_impl; [exact IH|]. auto.
      * intros q [= <-]. exists r. simpl. by rewrite Hr.
Qed.

Lemma length_split_char c s : length (split_char c s) = S (count_char c s).
Proof.
  induction s as [|a s IH]; simpl; [done|]. destruct (Ascii.eqb a c); simpl; [by rewrite IH|].
  destruct (split_char c s); simpl in *; lia.
Qed.

(** ** Trimming *)

Lemma rev_app_append s t u : String.rev_app (s +:+ t) u = String.rev_app t (String.rev_app s u).
Proof. revert u. induction s as [|a s IH]; intros u; simpl; [done|]. apply IH. Qed.

Lemma rev_app_nil s t : String.rev_app s t = String.rev_app s "" +:+ t.
Proof.
  revert t. induction s as [|a s IH]; intros t; [done|]. cbn [String.rev_app].
  rewrite IH, (IH (String a "")), <- append_assoc. done.
Qed.

Lemma rev_append s t : String.rev (s +:+ t) = String.rev t +:+ String.rev s.
Proof. unfold String.rev. by rewrite rev_app_append, rev_app_nil. Qed.

Lemma rev_rev s : String.rev (String.rev s) = s.
Proof. unfold String.rev. rewrite rev_app_rev_app. simpl. by rewrite append_nil_r. Qed.

Lemma string_len_ind (P : string → Prop) :
  (∀ s, (∀ t, String.length t < String.length s → P t) → P s) → ∀ s, P s.
Proof. intros H s. induction (Wf_nat.well_founded_ltof _ String.length s) as [t _ IH]. by apply H. Qed.

(** What one step of trimming drops. *)
Definition ws_head (rtl : bool) (s : string) : option string :=
  match s with
  | "" => None
  | String a s1 =>
      if is_ws1 a then Some s1 else
      match s1 with
      | "" => None
      | String b s2 =>
          if (if rtl then is_ws2 b a else is_ws2 a b) then Some s2 else
          match s2 with
          | "" => None
          | String c s3 => if (if rtl then is_ws3 c b a else is_ws3 a b c) then Some s3 else None
          end
      end
  end.

Lemma trim_left_step rtl s :
  trim_left rtl s = match ws_head rtl s with Some s' => trim_left rtl s' | None => s end.
Proof.
  destruct s as [|a [|b [|c s]]]; cbn [trim_left ws_head]; [done|..];
    (destruct (is_ws1 a); [done|]); [done|..];
    (destruct (if rtl then is_ws2 b a else is_ws2 a b); [done|]); [done|].
  by destruct (if rtl then is_ws3 c b a else is_ws3 a b c).
Qed.

Lemma ws_head_suffix rtl s s' :
  ws_head rtl s = Some s' → ∃ p, s = p +:+ s' ∧ p ≠ "".
Proof.
  destruct s as [|a [|b [|c s]]]; cbn [ws_head]; intros H; repeat (case_match; try done); simplify_eq;
    first [ by exists (String a "") | by exists (String a (String b ""))
          | by exists (String a (String b (String c ""))) ].
Qed.

Lemma ws_head_append rtl s s' t : ws_head rtl s = Some s' → ws_head rtl (s +:+ t) = Some (s' +:+ t).
Proof.
  intros H. destruct s as [|a [|b [|c s]]]; [done|..]; cbn [ws_head String.append] in *;
    (destruct (is_ws1 a); [by simplify_eq|]); [done|..];
    (destruct (if rtl then is_ws2 b a else is_ws2 a b); [by simplify_eq|]); [done|].
  destruct (if rtl then is_ws3 c b a else is_ws3 a b c); by simplify_eq.
Qed.

Lemma trim_left_suffix rtl s : ∃ p, s = p +:+ trim_left rtl s.
Proof.
  induction s as [s IH] using string_len_ind. rewrite trim_left_step.
  destruct (ws_head rtl s) as [s'|] eqn:H; [|by exists ""].
  destruct (ws_head_suffix _ _ _ H) as (p & -> & Hp).
  destruct (IH s') as [q Hq]; [rewrite length_append; destruct p; simpl; [done|lia]|].
  exists (p +:+ q). by rewrite <- append_assoc, <- Hq.
Qed.

Lemma trim_left_done rtl s : ws_head rtl (trim_left rtl s) = None.
Proof.
  induction s as [s IH] using string_len_ind. rewrite trim_left_step.
  destruct (ws_head rtl s) as [s'|] eqn:H; [|done].
  destruct (ws_head_suffix _ _ _ H) as (p & -> & Hp). apply IH.
  rewrite length_append. destruct p; simpl; [done|lia].
Qed.

Lemma trim_left_id rtl s : ws_head rtl s = None → trim_left rtl s = s.
Proof. intros H. by rewrite trim_left_step, H. Qed.

(** [trim] gives a part of the text, and leaves what is trimmed alone. *)
Lemma trim_substring s : substring (trim s) s.
Proof.
  unfold trim. destruct (trim_left_suffix false s) as [p Hp]. set (a := trim_left false s) in *.
  destruct (trim_left_suffix true (String.rev a)) as [q Hq]. set (b := trim_left true _) in *.
  exists p, (String.rev q). by rewrite <- rev_append, <- Hq, rev_rev.
Qed.

Lemma trim_idemp s : trim (trim s) = trim s.
Proof.
  unfold trim. set (a := trim_left false s). destruct (trim_left_suffix true (String.rev a)) as [q Hq].
  set (b := trim_left true (String.rev a)) in *.
  assert (a = String.rev b +:+ String.rev q) as Ha by by rewrite <- rev_append, <- Hq, rev_rev.
  rewrite (trim_left_id false (String.rev b)), rev_rev.
  - by rewrite (trim_left_id true b) by apply trim_left_done.
  - destruct (ws_head false (String.rev b)) as [r|] eqn:H; [|done].
    pose proof (trim_left_done false s) as Hd. fold a in Hd. rewrite Ha in Hd.
    by rewrite (ws_head_append _ _ _ _ H) in Hd.
Qed.

(** ** Decimal text *)

Lemma digit_val_range a : is_ascii_digit a = true → (0 ≤ digit_val a ≤ 9)%Z.
Proof.
  unfold is_ascii_digit, byte_in, digit_val. rewrite andb_true_iff, !N.leb_le. lia.
Qed.

Lemma parse_acc_bounds s : ∀ acc n, parse_acc acc s = Some n →
  (acc * 10 ^ Z.of_nat (String.length s) ≤ n < (acc + 1) * 10 ^ Z.of_nat (String.length s))%Z.
Proof.
  induction s as [|a s IH]; intros acc n H; cbn [parse_acc String.length] in *; [simplify_eq; lia|].
  destruct (is_ascii_digit a) eqn:Hd; [|done]. apply IH in H. apply digit_val_range in Hd.
  rewrite Nat2Z.inj_succ, Z.pow_succ_r by lia.
  pose proof (Z.pow_pos_nonneg 10 (Z.of_nat (String.length s)) ltac:(lia) ltac:(lia)). nia.
Qed.

Lemma parse_acc_digits s : ∀ acc n, parse_acc acc s = Some n → all_bytes is_ascii_digit s = true.
Proof.
  induction s as [|a s IH]; intros acc n H; cbn [parse_acc all_bytes] in *; [done|].
  destruct (is_ascii_digit a) eqn:Hd; [|done]. by eapply IH.
Qed.

(** A number's text is the number, behind zeros. *)
Lemma parse_acc_text s n :
  s ≠ "" → (n ≤ u64_max)%Z → parse_acc 0 s = Some n → s = zeros (String.length s - String.length (dec n)) +:+ dec n.
Proof.
  intros Hs Hmax H. pose proof (parse_acc_bounds _ _ _ H) as Hb. pose proof (parse_acc_digits _ _ _ H) as Hd.
  destruct (fmt_padded_ok (String.length s) n) as (Hl & Hd' & Hp); [by destruct s|lia|done|].
  destruct (parse_acc_inj s _ 0 0 n (eq_sym Hl) Hd Hd' H Hp) as [_ Heq]. rewrite Heq at 1.
  unfold fmt_padded. destruct (Z.ltb_spec n 0); [lia|]. unfold pad. done.
Qed.

Lemma parse_unsigned_substring max s n :
  (max ≤ u64_max)%Z → parse_unsigned max s = Some n → substring (dec n) s.
Proof.
  intros Hm. unfold parse_unsigned. set (digits := match s with String "+" s' => s' | _ => s end).
  assert (substring digits s) as Hsub.
  { unfold digits. destruct s as [|a s]; [apply substring_refl|].
    destruct (Ascii.eqb_spec a "+") as [->|Hne]; [apply substring_cons|].
    destruct a as [[] [] [] [] [] [] [] []]; try apply substring_refl. done. }
  destruct (is_empty digits) eqn:He; [done|]. destruct (parse_acc 0 digits) as [k|] eqn:Hk; [|done].
  case_decide; [|done]. intros [= <-]. eapply substring_trans; [|exact Hsub].
  rewrite (parse_acc_text digits k); [apply substring_r|by destruct digits|lia|done].
Qed.

(** ** Order of version keys *)

Lemma strict_le_cons_lt a b s t :
  (N_of_ascii a < N_of_ascii b)%N → strict String.le (String a s) (String b t).
Proof.
  intros H. split; [by apply le_cons_lt|]. unfold String.le, String.leb. simpl. unfold Ascii.compare.
  rewrite (proj2 (N.compare_gt_iff _ _) H). by intros [].
Qed.

Lemma parse_acc_order s : ∀ t acc n m,
  String.length s = String.length t → parse_acc acc s = Some n → parse_acc acc t = Some m →
  (n < m)%Z → strict String.le s t.
Proof.
  induction s as [|a s IH]; intros [|b t] acc n m Hl Hs Ht Hlt; cbn [String.length parse_acc] in *; try done;
    [simplify_eq; lia|]. injection Hl as Hl.
  destruct (is_ascii_digit a) eqn:Ha; [|done]. destruct (is_ascii_digit b) eqn:Hb; [|done].
  destruct (Z.lt_trichotomy (digit_val a) (digit_val b)) as [Hab|[Hab|Hab]].
  - apply strict_le_cons_lt. unfold digit_val in Hab. lia.
  - assert (a = b) as <-.
    { rewrite <- (ascii_N_embedding a), <- (ascii_N_embedding b). f_equal. unfold digit_val in Hab. lia. }
    apply (strict_le_app (String a "")). by eapply IH.
  - apply parse_acc_bounds in Hs, Ht. rewrite <- Hl in Ht.
    pose proof (Z.pow_pos_nonneg 10 (Z.of_nat (String.length s)) ltac:(lia) ltac:(lia)). nia.
Qed.

Lemma version_key_order name v w :
  (0 ≤ v)%Z → (v < w)%Z → (w ≤ i32_max)%Z → strict String.le (version_key name v) (version_key name w).
Proof.
  intros Hv Hlt Hw. unfold version_key. apply strict_le_app, (strict_le_app (String nul "")).
  destruct (fmt_padded_ok 10 v) as (Hl1 & _ & Hp1); [done|unfold_ints; lia..|].
  destruct (fmt_padded_ok 10 w) as (Hl2 & _ & Hp2); [done|unfold_ints; lia..|].
  eapply parse_acc_order; [congruence|done..].
Qed.

(** ** Bytes *)

Lemma lxor_byte a b : (N.lxor (Byte.to_N a) (Byte.to_N b) < 256)%N.
Proof.
  pose proof (Byte.to_N_bounded a). pose proof (Byte.to_N_bounded b).
  destruct (N.eq_dec (N.lxor (Byte.to_N a) (Byte.to_N b)) 0%N) as [->|Hne]; [lia|].
  change 256%N with (2 ^ 8)%N. apply N.log2_lt_pow2; [lia|].
  eapply N.le_lt_trans; [apply N.log2_lxor|].
  assert (∀ n, (n <= 255)%N → (N.log2 n < 8)%N) as Hlog.
  { intros n Hn. destruct (N.eq_dec n 0%N) as [->|]; [done|]. apply N.log2_lt_pow2; [lia|].
    change (2 ^ 8)%N with 256%N. lia. }
  apply N.max_lub_lt; by apply Hlog.
Qed.

(** A byte changes under a mask that is not zero. *)
Lemma byte_xor_changes a x : crypto_roundtrip.byte_xor a x = a → x = Byte.x00.
Proof.
  unfold crypto_roundtrip.byte_xor. destruct (Byte.of_N _) as [c|] eqn:Hc.
  - simpl. intros ->. apply Byte.to_of_N in Hc.
    assert (Byte.to_N x = 0%N) as Hx.
    { trans (N.lxor (N.lxor (Byte.to_N a) (Byte.to_N a)) (Byte.to_N x)).
      - by rewrite N.lxor_nilpotent, N.lxor_0_l.
      - rewrite N.lxor_assoc, <- Hc. apply N.lxor_nilpotent. }
    pose proof (Byte.of_to_N x) as Hof. rewrite Hx in Hof. by injection Hof.
  - apply Byte.of_N_None_iff in Hc. pose proof (lxor_byte a x). lia.
Qed.

(** ** The targets *)

Lemma rbac_holds input : rbac.run input = Ok tt.
Proof.
  destruct input as [is_admin rules action name]. unfold rbac.run. cbn [rbac.is_admin rbac.rules rbac.action rbac.name]. oracle.
  - unfold authorize, visible. by rewrite H.
  - destruct (authorize is_admin rules action name) eqn:Ha; simpl; [|done]. by eapply authorize_visible.
  - done.
Qed.

Lemma types_aad_holds input : types_aad.run input = Ok tt.
Proof.
  destruct input as [name version kind format]. unfold types_aad.run.
  cbn [types_aad.name types_aad.version types_aad.kind types_aad.format]. oracle.
  - unfold bytes_start_with, aad_for. by rewrite take_app_length, bool_decide_eq_true_2.
  - destruct (SecretKind.parse kind) as [[]|]; done.
  - destruct (SecretFormat.parse format) as [[]|]; done.
Qed.

Lemma ip_allowlist_parse_holds `{NET : !Ipnet} data : ip_allowlist_parse.run data = Ok tt.
Proof.
  unfold ip_allowlist_parse.run. destruct (from_utf8 data) as [spec|]; [|done].
  destruct (parse_allowlist spec) as [[l]|]; [|done]. apply assert_ok.
  unfold allowlist_is_empty, allowlist_len. simpl. by destruct l.
Qed.

Lemma validate_name_valid name : is_ok (validate_name name) = true → is_valid_secret_name name = true.
Proof.
  unfold validate_name. destruct (is_empty name || _); [done|].
  by destruct (is_valid_secret_name name).
Qed.

Lemma validate_length value :
  is_ok (validate_value value) = true → (Z.of_nat (String.length value) ≤ 65536)%Z.
Proof. unfold validate_value, MAX_VALUE_LEN. destruct (is_empty value); [done|]. case_decide; [done|lia]. Qed.

Lemma name_validation_holds input : name_validation.run input = Ok tt.
Proof.
  destruct input as [name role_name value grace]. unfold name_validation.run.
  cbn [name_validation.name name_validation.role_name name_validation.value name_validation.grace]. oracle.
  - apply validate_name_valid in H. unfold is_valid_secret_name in H.
    rewrite !andb_true_iff in H. destruct H as [[H1 H2] _]. rewrite andb_true_iff. split; [|done].
    destruct name; [done|]. apply Nat.leb_le. simpl. lia.
  - apply validate_name_valid in H. unfold is_valid_secret_name in H.
    rewrite !andb_true_iff in H. destruct H as [_ H]. exact H.
  - apply validate_name_valid in H. rewrite !no_char_contains, !negb_involutive.
    by rewrite !(valid_name_no_char _ name).
  - unfold validate_role_name in H. destruct (is_empty (trim role_name)); [done|]. simpl in *.
    case_bool_decide; [done|]. apply Nat.leb_le. lia.
  - unfold normalize_grace, name_validation.grace_in_range. destruct grace as [secs|]; [|done].
    destruct (Z.ltb_spec secs 0) as [|Hlo]; simpl.
    { apply assert_ok. by rewrite (proj2 (Z.leb_gt 0 secs)). }
    destruct (Z.ltb_spec MAX_GRACE_SECS secs) as [Hhi|Hhi]; simpl; apply assert_ok.
    + by rewrite (proj2 (Z.leb_gt secs MAX_GRACE_SECS)), andb_false_r.
    + by rewrite (proj2 (Z.leb_le 0 secs)), (proj2 (Z.leb_le secs MAX_GRACE_SECS)).
  - done.
  - apply Z.leb_le. by apply validate_length.
  - unfold validate_field in H. destruct (is_empty value) eqn:He; [done|]. simpl.
    apply Z.leb_le. apply validate_length. unfold validate_value. rewrite He. by case_decide.
Qed.

Lemma split_hostport_substring raw : substring (split_hostport raw).1 raw.
Proof.
  unfold split_hostport. destruct (strip_prefix "[" raw) as [rest|] eqn:Hb.
  - apply strip_prefix_Some in Hb. destruct (split_once "]" rest) as [[host tail]|] eqn:Hs; [|apply substring_refl].
    apply split_once_substring in Hs as [Hs _].
    assert (substring host raw) by (subst raw; eapply substring_trans; [done|apply substring_cons]).
    destruct tail; [done|]. destruct (strip_prefix ":" _) as [p|]; simpl; [|apply substring_refl].
    destruct (parse_u16 p); [done|apply substring_refl].
  - destruct (rsplit_once ":" raw) as [[host port]|] eqn:Hr; [|apply substring_refl].
    apply rsplit_once_Some in Hr as [-> _]. destruct (contains_char ":" host); simpl; [apply substring_refl|].
    destruct (parse_u16 port); [apply substring_l|apply substring_refl].
Qed.

Lemma split_hostport_no_colon raw :
  contains_char ":" raw = false →
  (split_hostport raw).2 = DEFAULT_PG_PORT ∧ (starts_with "[" raw = false → (split_hostport raw).1 = raw).
Proof.
  rewrite no_char_contains, negb_false_iff. intros Hc. unfold split_hostport, starts_with.
  destruct (strip_prefix "[" raw) as [rest|] eqn:Hb.
  - split; [|done]. apply strip_prefix_Some in Hb. subst raw.
    destruct (split_once "]" rest) as [[host tail]|] eqn:Hs; [|done].
    apply split_once_Some in Hs as [-> _]. rewrite !no_char_append in Hc. destruct tail as [|a tail]; [done|].
    assert (strip_prefix ":" (String a tail) = None) as ->; [|done].
    destruct (strip_prefix ":" (String a tail)) as [p|] eqn:Hp; [|done].
    apply strip_prefix_Some in Hp. rewrite Hp in Hc. unfold no_char in Hc. simpl in Hc.
    by rewrite !andb_false_r in Hc.
  - rewrite (proj2 (rsplit_once_None ":" raw) Hc). done.
Qed.

Lemma pg_hostport_holds raw : pg_hostport.run raw = Ok tt.
Proof.
  unfold pg_hostport.run. pose proof (split_hostport_substring raw) as Hsub.
  pose proof (split_hostport_no_colon raw) as Hnc.
  destruct (split_hostport raw) as [host port] eqn:Hsplit. cbn [fst snd] in *. oracle.
  - by apply contains_str_spec.
  - apply Nat.leb_le. by apply substring_length.
  - apply negb_true_iff in H. by destruct (Hnc H) as [-> _].
  - apply negb_true_iff in H, H0. apply bool_decide_eq_true. by apply Hnc.
  - apply negb_true_iff in H. unfold starts_with in H. unfold split_hostport in Hsplit.
    destruct (strip_prefix "[" raw); [done|]. destruct (rsplit_once ":" raw) as [[h p]|]; [|done].
    apply when_ok. intros Hh. rewrite Hh in Hsplit. destruct (parse_u16 p) as [n|]; [|done]. simplify_eq.
    oracle; [by apply bool_decide_eq_true|apply Z.eqb_refl].
  - unfold split_hostport in Hsplit. destruct (strip_prefix "[" raw) as [rest|]; [|done].
    destruct (split_once "]" rest) as [[inner tail]|]; [|done]. oracle. apply bool_decide_eq_true.
    destruct tail as [|a tail]; [by simplify_eq|]. cbn [is_empty orb] in H.
    destruct (strip_prefix ":" (String a tail)) as [p|]; [|done]. cbn [fmap option_fmap option_map] in Hsplit.
    apply bool_decide_eq_true in H as [n Hn]. rewrite Hn in Hsplit. by simplify_eq.
Qed.

Lemma length_btree_insert {A} k (v : A) m : length (btree_insert k v m) ≤ S (length m).
Proof.
  induction m as [|[k1 v1] m IH]; simpl; [done|].
  destruct (k <? k1)%Z; simpl; [lia|]. destruct (k =? k1)%Z; simpl; lia.
Qed.

(** The pieces of an accepted peer list stand in the text. *)
Lemma parse_peers_from_text raw entries : ∀ m m',
  Forall (λ e, substring e raw) entries →
  Forall (λ peer, config_parse_peers.check_peer raw peer = Ok tt) m →
  parse_peers_from entries m = Ok m' →
  Forall (λ peer, config_parse_peers.check_peer raw peer = Ok tt) m' ∧ length m' ≤ length m + length entries.
Proof.
  induction entries as [|e entries IH]; intros m m' He Hm H; cbn [parse_peers_from] in H.
  { simplify_eq. split; [done|simpl; lia]. }
  apply Forall_cons in He as [He Hes].
  destruct (is_empty (trim e)); [destruct (IH m m' Hes Hm H); split; [done|simpl; lia]|].
  destruct (split_once "=" (trim e)) as [[id addr]|] eqn:Hs; simpl in H; [|done].
  destruct (parse_u64 (trim id)) as [n|] eqn:Hn; simpl in H; [|done].
  destruct (is_empty (trim addr)) eqn:Ha; [done|].
  assert (∀ piece, substring piece (trim e) → substring (trim piece) raw) as Hpiece.
  { intros piece Hp. eapply substring_trans; [apply trim_substring|]. eapply substring_trans; [exact Hp|].
    eapply substring_trans; [apply trim_substring|done]. }
  apply split_once_substring in Hs as [Hid Haddr].
  destruct (IH (btree_insert n (trim addr) m) m' Hes) as [IH1 IH2]; [|done|].
  - apply Forall_forall. intros [k v] Hin. apply btree_insert_elem in Hin as [[= -> ->]|Hin];
      [|by rewrite Forall_forall in Hm; apply Hm].
    unfold config_parse_peers.check_peer. oracle.
    + by rewrite Ha.
    + apply bool_decide_eq_true, trim_idemp.
    + apply contains_str_spec. eapply substring_trans; [by eapply parse_unsigned_substring|by apply Hpiece].
    + by apply contains_str_spec, Hpiece.
  - split; [done|]. simpl. pose proof (length_btree_insert n (trim addr) m). lia.
Qed.

Lemma config_parse_peers_holds raw : config_parse_peers.run raw = Ok tt.
Proof.
  unfold config_parse_peers.run. destruct (parse_peers raw) as [peers|] eqn:H; [|done].
  destruct (parse_peers_from_text raw (split_char "," raw) [] peers) as [Hall Hlen];
    [apply split_char_substring|done|done|].
  oracle; [|by apply each_ok]. apply Nat.leb_le. rewrite length_split_char in Hlen. simpl in Hlen. lia.
Qed.

Section headers.
Context `{HV : !HeaderValues}.

Lemma bearer_token_parse_holds data : bearer_token_parse.run data = Ok tt.
Proof.
  unfold bearer_token_parse.run, bearer_token_parse.parts_with_authorization.
  destruct (header_from_bytes data) as [value|]; [|done].
  cbn [mbind option_bind p_authorization]. unfold bearer_token. cbn [p_authorization].
  destruct (header_to_str value) as [header|]; [|done].
  cbn [mbind option_bind expect_some ok_or result_bind].
  set (scheme := match strip_prefix "Bearer " header with Some token => Some token | None => _ end).
  destruct scheme as [rest|] eqn:Hr; [|done]. cbn [mbind option_bind].
  assert (substring rest header ∧ (starts_with "Bearer " header || starts_with "bearer " header = true)) as [Hrest Hst].
  { unfold scheme, starts_with in *. destruct (strip_prefix "Bearer " header) as [t|] eqn:H1.
    - apply strip_prefix_Some in H1 as ->. simplify_eq. split; [apply substring_r|done].
    - rewrite Hr. apply strip_prefix_Some in Hr as ->. split; [apply substring_r|done]. }
  destruct (is_empty (trim rest)) eqn:He; [done|]. oracle.
  - by rewrite He.
  - apply contains_str_spec. eapply substring_trans; [apply trim_substring|done].
  - apply bool_decide_eq_true, trim_idemp.
  - done.
Qed.

Lemma forwarded_for_parse_holds input : forwarded_for_parse.run input = Ok tt.
Proof.
  unfold forwarded_for_parse.run, forwarded_for_parse.build, client_ip, peer_ip.
  cbn [p_forwarded_for p_connect_ip]. set (socket := if forwarded_for_parse.with_connect_info input then _ else _).
  set (text := ((if forwarded_for_parse.send_header input then _ else _) ≫= _)). oracle; [by apply bool_decide_eq_true|].
  destruct text as [header|]; cbn [mbind option_bind].
  - destruct (head (split_char "," header)) as [first|] eqn:Hh; cbn [mbind option_bind].
    + destruct (parse_ip (trim first)) as [ip|] eqn:Hip.
      * case_bool_decide; [done|]. cbn [expect_some ok_or mbind result_bind default from_option]. oracle.
        apply bool_decide_eq_true. by rewrite Hh.
      * destruct socket; [by rewrite bool_decide_eq_true_2|done].
    + destruct socket; [by rewrite bool_decide_eq_true_2|done].
  - destruct socket; [by rewrite bool_decide_eq_true_2|done].
Qed.
End headers.

Lemma store_key_encoding_holds input :
  in_i32 (store_key_encoding.version_a input) → in_i32 (store_key_encoding.version_b input) →
  store_key_encoding.run input = Ok tt.
Proof.
  destruct input as [a b va vb]. cbn [store_key_encoding.version_a store_key_encoding.version_b].
  intros Ha Hb. unfold store_key_encoding.run. oracle.
  - apply bool_decide_eq_true in H. apply bool_decide_eq_true.
    destruct (version_from_key a (version_key b vb)) as [v|] eqn:Hk; [|done].
    apply version_from_key_Some, split_version_key_self in Hk as [? _]; [done|unfold_ints; lia].
  - change (version_range a (version_key a va) = true). apply version_range_key.
  - apply andb_true_iff in H as [Hn Hv%Z.leb_le]. unfold MIN_SECRET_VERSION in Hv.
    apply bool_decide_eq_true, version_from_key_Some, split_version_key_of; [by apply valid_name_no_nul|].
    unfold_ints. lia.
  - rewrite !andb_true_iff in H. destruct H as [[[Hn Hv%Z.leb_le] [_ Hw%Z.leb_le]] _]. unfold MIN_SECRET_VERSION in *.
    destruct (Z.eqb_spec va vb); [done|]. apply bool_decide_eq_true. intros Heq.
    apply version_key_inj in Heq as [_ ?]; [done|by apply valid_name_no_nul|by apply valid_name_no_nul|unfold_ints; lia|unfold_ints; lia].
  - rewrite !andb_true_iff in H. destruct H as [[[_ Hv%Z.leb_le] _] _]. unfold MIN_SECRET_VERSION in *.
    apply bool_decide_eq_true, version_key_order; [lia|by apply Z.ltb_lt|unfold_ints; lia].
Qed.

Section crypto.
Context `{CC : !CryptoCrates, CL : !CryptoLaws, PL : !Platform, PLL : !PlatformLaws}.
Context {St : Type} `{VS : !VaultStore St}.

Lemma auth_fingerprint_holds data : auth_fingerprint.run data = Ok tt.
Proof.
  unfold auth_fingerprint.run. destruct (from_utf8 data) as [token|]; [|done].
  unfold verify, fingerprints_match, ct_eq. oracle; try by apply bool_decide_eq_true.
  apply negb_true_iff, bool_decide_eq_false. intros H. apply (f_equal length) in H.
  rewrite length_take in H. unfold fingerprint in H. rewrite sha256_length in H. unfold FINGERPRINT_LEN in H. lia.
Qed.

Lemma local_key_from_base64_holds data (w : World St) : local_key_from_base64.run data w = Ok tt.
Proof.
  unfold local_key_from_base64.run. destruct (from_utf8 data) as [text|]; [|done].
  unfold from_base64. destruct (base64_decode (trim text)) as [raw|]; [|done]. cbn [ok_or mbind result_bind].
  case_decide as Hlen; [done|]. set (self := {| lw_master := raw; lw_key_id := "fuzz-key" |}).
  assert (length (lw_master self) = DEK_LEN) as Hm by (simpl; lia). cbv zeta.
  destruct (seal_envelope_total self w (as_bytes "fuzz-aad") (as_bytes "fuzz-plaintext")) as (w1 & env & Hrun);
    [done..|].
  rewrite Hrun. cbn [snd expect map_err mbind result_bind].
  destruct (seal_envelope_spec _ _ _ _ _ _ Hm Hrun) as (dek & Hw & Hn & Hs).
  destruct env as [k wrapped nonce ct]. simpl in Hw, Hn, Hs. pose proof Hw as (_ & Hd & _).
  rewrite (open_envelope_key _ _ _ _ _ _ _ Hw). apply seal_open in Hs as ->; [|done..].
  by apply assert_ok, bool_decide_eq_true.
Qed.

(** The envelope sealed from [aad] and [p] under [dek] and [nonce] is accepted
    with other associated data or another ciphertext. *)
Definition forged (dek nonce aad p : bytes) : Prop :=
  ∃ ct aad' ct', seal dek nonce aad p = Ok ct ∧ (aad', ct') ≠ (aad, ct)
    ∧ length ct' = length ct ∧ is_ok (open dek nonce aad' ct') = true.

(** The target fails only when it has found a forgery. *)
Lemma crypto_roundtrip_holds input (w : World St) what :
  length (crypto_roundtrip.master input) = DEK_LEN → crypto_roundtrip.run input w = Err what →
  ∃ dek nonce, forged dek nonce (crypto_roundtrip.aad input) (crypto_roundtrip.plaintext input).
Proof.
  destruct input as [master aad p idx x]. unfold crypto_roundtrip.run.
  cbn [crypto_roundtrip.master crypto_roundtrip.aad crypto_roundtrip.plaintext crypto_roundtrip.tamper_index
    crypto_roundtrip.tamper_xor]. intros Hm. set (self := {| lw_master := master; lw_key_id := "fuzz-key" |}).
  destruct (run_prog _ w) as [w1 [env|]] eqn:Hrun; [|done]. cbn [snd].
  destruct (seal_envelope_spec self _ _ _ _ _ Hm Hrun) as (dek & Hw & Hn & Hs).
  destruct env as [k wrapped nonce ct]. simpl in Hw, Hn, Hs. pose proof Hw as (_ & Hd & _).
  unfold crypto_roundtrip.tamper. cbn [env_key_id env_wrapped_dek env_nonce env_ciphertext].
  rewrite !(open_envelope_key _ _ _ _ _ _ _ Hw). rewrite (proj1 (seal_open _ _ _ _ _ Hd Hn) Hs).
  cbn [expect map_err mbind result_bind].
  set (wrong := _ <$> aad). set (tampered := alter _ _ ct).
  destruct (decide (wrong ≠ aad ∧ is_ok (open dek nonce wrong ct) = true)) as [[Hne Hok]|Hno].
  { intros _. exists dek, nonce, ct, wrong, ct. split; [done|]. split; [congruence|done]. }
  destruct (decide ((ct ≠ [] ∧ x ≠ Byte.x00) ∧ is_ok (open dek nonce aad tampered) = true)) as [[[Hct Hx] Hok]|Hno'].
  { intros _. exists dek, nonce, ct, aad, tampered. split; [done|].
    split; [|split; [apply length_alter|done]]. intros [= Heq].
    destruct (lookup_lt_is_Some_2 ct (idx `mod` length ct)) as [b Hb];
      [apply Nat.mod_upper_bound; by destruct ct|].
    apply (f_equal (.!! (idx `mod` length ct))) in Heq. unfold tampered in Heq.
    rewrite list_lookup_alter_eq, Hb in Heq. simpl in Heq. injection Heq as Heq.
    by apply Hx, (byte_xor_changes b). }
  intros Hrun'. match type of Hrun' with ?m = _ => enough (m = Ok tt) by congruence end.
  oracle; [by apply bool_decide_eq_true|..]; apply negb_true_iff, not_true_iff_false; intros Hok.
  - apply Hno. by apply bool_decide_eq_true in H.
  - apply Hno'. apply andb_true_iff in H as [Hct Hx].
    by rewrite !negb_true_iff, !bool_decide_eq_false in Hct, Hx.
Qed.
End crypto.

(** ** The targets that read a client's or an operator's text *)

(** C33. The fuzz targets of the surfaces that read untrusted text pass on every
    input: accepted names and values are within their limits and free of
    separator bytes; a host and port split back into what was written; an
    accepted peer list holds only what stands in the text; a bearer token is a
    trimmed, non-empty part of a header with the right scheme; a forwarded
    address is ignored unless the proxy is trusted; whoever may act on a secret
    sees it; and no version key of one secret is taken for another's. *)
Theorem fuzz_untrusted_text `{HV : !HeaderValues} :
  (∀ input, name_validation.run input = Ok tt)
  ∧ (∀ raw, pg_hostport.run raw = Ok tt)
  ∧ (∀ raw, config_parse_peers.run raw = Ok tt)
  ∧ (∀ data, bearer_token_parse.run data = Ok tt)
  ∧ (∀ input, forwarded_for_parse.run input = Ok tt)
  ∧ (∀ input, rbac.run input = Ok tt)
  ∧ (∀ input, in_i32 (store_key_encoding.version_a input) → in_i32 (store_key_encoding.version_b input) →
       store_key_encoding.run input = Ok tt).
Proof.
  split_and!; [apply name_validation_holds|apply pg_hostport_holds|apply config_parse_peers_holds
    |apply bearer_token_parse_holds|apply forwarded_for_parse_holds|apply rbac_holds
    |apply store_key_encoding_holds].
Qed.

Definition sample_headers : HeaderValues := {|
  HeaderValue := bytes; header_from_bytes := Some; header_to_str := from_utf8 |}.

Lemma fuzz_untrusted_text_witness :
  bearer_token_parse.run (HV := sample_headers) (as_bytes "Bearer  t0ken ") = Ok tt
  ∧ store_key_encoding.run {| store_key_encoding.name_a := "a"; store_key_encoding.name_b := "a/b";
      store_key_encoding.version_a := 9; store_key_encoding.version_b := 10 |} = Ok tt.
Proof.
  destruct (fuzz_untrusted_text (HV := sample_headers)) as (_ & _ & _ & Hb & _ & _ & Hk).
  split; [apply Hb|apply Hk; simpl; unfold_ints; lia].
Defined.
