(* ===== verification/FuzzStore.v ===== *)
(** * The fuzz targets: the store and the Raft log

    Models the targets of [fuzz/fuzz_targets] that run a database:
    [apply_command_sequence] and [backup_restore_roundtrip] on the store,
    [raft_log_normalize] and [snapshot_install] on the Raft tables; and
    [backup_decode] and [store_decode], which re-encode what they decode.  As in
    [FuzzCore], [Err what] is the panic of a failed assertion.  A fresh
    in-memory database is [empty_database]; redb's own errors do not occur. *)

From S2P Require Import Prelude RustStr CoreTypes Redb Keys Model Apply Engine RaftStore.
From S2P Require Import Platform Crypto IpAddr PgApply ApiTypes Guards Service Manage Calls Config FuzzCore.

(** [iter().cloned().collect::<BTreeMap<_, _>>()]: one row per key, in order. *)
Fixpoint ord_insert {K V} `{!OrdKey K} (k : K) (v : V) (m : list (K * V)) : list (K * V) :=
  match m with
  | [] => [(k, v)]
  | (k', v') :: m' =>
      if decide (k = k') then (k, v) :: m'
      else if decide (key_le k k') then (k, v) :: m
      else (k', v') :: ord_insert k v m'
  end.

Definition collapse {K V} `{!OrdKey K} (rows : list (K * V)) : list (K * V) :=
  foldl (λ m row, ord_insert row.1 row.2 m) [] rows.

(** ** apply_command_sequence.rs *)

Module apply_command_sequence.
Definition NODE_ID : Z := 7.

Inductive Name := Pool (index : Z) | Raw (raw : string).

(** [raw.replace(['\u{0}', '\u{1}'], "_")] *)
Fixpoint strip_separators (s : string) : string :=
  match s with
  | "" => ""
  | String a s =>
      String (if Ascii.eqb a nul || Ascii.eqb a soh then "_" else a)%char (strip_separators s)
  end.

Definition get (n : Name) : string :=
  match n with
  | Pool index => "s" +:+ dec (index `mod` 6)
  | Raw raw => strip_separators raw
  end.

Record SecretInput := {
  si_automatic : bool;
  si_userpass : bool;
  si_description : option string;
  si_rotation_interval_secs : option Z;
  si_grace_secs : Z;
  si_current_version : Z;
  si_next_rotation_at : option Z;
  si_created_at : Z;
}.

Record VersionInput := {
  vi_version : Z;
  vi_kms_key_id : string;
  vi_wrapped_dek : bytes;
  vi_nonce : bytes;
  vi_ciphertext : bytes;
  vi_aad : bytes;
  vi_created_at : Z;
  vi_expires_at : option Z;
  vi_wrapped_rotation_at : option Z;
}.

Inductive Op :=
| OpCreateSecret (name : Name) (secret : SecretInput) (version : VersionInput)
| OpPutVersion (name : Name) (expected_current : Z) (version : VersionInput)
    (supersede_expires_at : option Z) (set_description : option string)
    (set_rotation_interval_secs set_grace_secs : option Z)
    (set_next_rotation : option (option Z)) (updated_at : Z)
| OpUpdateMeta (name : Name) (expected_current : Z) (set_description : option string)
    (set_rotation_interval_secs set_grace_secs : option Z)
    (set_next_rotation : option (option Z)) (updated_at : Z)
| OpDeleteSecret (name : Name)
| OpCreateRole (name : Name) (description : option string) (is_admin : bool)
    (permissions : list (string * string)) (created_at : Z)
| OpSetPermissions (name : Name) (permissions : list (string * string))
| OpDeleteRole (name : Name)
| OpAddToken (name : Name) (role : option Name) (fingerprint : bytes) (created_at : Z)
| OpRevokeToken (name : Name) (revoked_at : Z)
| OpTouchToken (fingerprint : bytes) (at_ : Z)
| OpExpireGraceVersions (now : Z)
| OpRewrapVersion (name : Name) (version : Z) (kms_key_id : string) (wrapped_dek : bytes)
    (wrapped_rotation_at : Z)
| OpSetKmsRewrapState (last_completed_rotation_at last_swept_at updated_at : Z)
| OpAppendAudit (at_ : Z) (actor client_ip : option string) (action : string)
    (secret_name : option Name) (outcome : string)
| OpRecordAuthFailure (ip : string) (now max window_secs lockout_secs : Z).

Definition version_record (input : VersionInput) : VersionRecord := {|
  v_version := vi_version input;
  v_kms_key_id := vi_kms_key_id input;
  v_wrapped_dek := vi_wrapped_dek input;
  v_nonce := vi_nonce input;
  v_ciphertext := vi_ciphertext input;
  v_aad := vi_aad input;
  v_created_at := vi_created_at input;
  v_expires_at := vi_expires_at input;
  v_wrapped_rotation_at := vi_wrapped_rotation_at input |}.

Definition next_rotation (value : option (option Z)) : NextRotation :=
  match value with None => Keep | Some inner => Set_ inner end.

(** [i64::from] of a narrower integer keeps its value. *)
Definition to_command (op : Op) : Command :=
  match op with
  | OpCreateSecret name secret version =>
      CreateSecret {|
        s_name := get name;
        s_kind := if si_automatic secret then Automatic else Manual;
        s_format := if si_userpass secret then Userpass else Opaque;
        s_description := si_description secret;
        s_rotation_interval_secs := si_rotation_interval_secs secret;
        s_grace_secs := si_grace_secs secret;
        s_current_version := si_current_version secret;
        s_next_rotation_at := si_next_rotation_at secret;
        s_created_at := si_created_at secret;
        s_updated_at := si_created_at secret;
        s_target := None |} (version_record version)
  | OpPutVersion name expected version supersede descr interval grace next updated =>
      PutVersion (get name) expected (version_record version) supersede descr interval grace
        (next_rotation next) updated
  | OpUpdateMeta name expected descr interval grace next updated =>
      UpdateMeta (get name) expected descr interval grace (next_rotation next) updated
  | OpDeleteSecret name => DeleteSecret (get name)
  | OpCreateRole name description is_admin permissions created_at =>
      CreateRole {| r_name := get name; r_description := description; r_is_admin := is_admin;
                    r_permissions := permissions; r_created_at := created_at |}
  | OpSetPermissions name permissions => SetPermissions (get name) permissions
  | OpDeleteRole name => DeleteRole (get name)
  | OpAddToken name role fingerprint created_at =>
      AddToken {| t_name := get name; t_role := get <$> role; t_fingerprint := fingerprint;
                  t_created_at := created_at; t_last_used_at := None; t_revoked_at := None |}
  | OpRevokeToken name revoked_at => RevokeToken (get name) revoked_at
  | OpTouchToken fingerprint at_ => TouchToken fingerprint at_
  | OpExpireGraceVersions now => ExpireGraceVersions now
  | OpRewrapVersion name version kms_key_id wrapped_dek wrapped_rotation_at =>
      RewrapVersion (get name) version kms_key_id wrapped_dek wrapped_rotation_at
  | OpSetKmsRewrapState completed swept updated =>
      SetKmsRewrapState {| k_last_completed_rotation_at := completed; k_last_swept_at := swept;
                           k_updated_at := updated |}
  | OpAppendAudit at_ actor client_ip action secret_name outcome =>
      AppendAudit {| a_at := at_; a_actor := actor; a_client_ip := client_ip; a_action := action;
                     a_secret_name := get <$> secret_name; a_outcome := outcome; a_node_id := 0 |}
  | OpRecordAuthFailure ip now max window_secs lockout_secs =>
      RecordAuthFailure ip now max window_secs lockout_secs
  end.

(** The version numbers of an operation are [i32]s. *)
Definition op_typed (op : Op) : Prop :=
  match op with
  | OpCreateSecret _ _ version => in_i32 (vi_version version)
  | OpPutVersion _ expected version _ _ _ _ _ _ => in_i32 expected ∧ in_i32 (vi_version version)
  | OpRewrapVersion _ version _ _ _ => in_i32 version
  | _ => True
  end.

Section target.
Context `{RE : !Redb, SE : !StoreSerde}.

Definition apply_one (command : Command) (d : Database) : Database * StoreResult unit :=
  match apply_command NODE_ID command d with
  | (d', Ok _) => (d', Ok tt)
  | (_, Err err) => (d, Err err)
  end.

Definition result_code (result : StoreResult unit) : Z :=
  match result with
  | Ok _ => 0
  | Err NotFound => 1
  | Err (Conflict _) => 2
  | Err VersionConflict => 3
  | Err (Internal _) => 4
  end.

Definition dump_str (d : Database) (def : TableDefinition string) : list (string * bytes) :=
  t_iter (open_table def d).
Definition dump_bytes (d : Database) (def : TableDefinition bytes) : list (bytes * bytes) :=
  t_iter (open_table def d).
Definition dump_u64 (d : Database) (def : TableDefinition Z) : list (Z * bytes) :=
  t_iter (open_table def d).

Record Snapshot := {
  secrets : list (string * bytes);
  versions : list (string * bytes);
  roles : list (string * bytes);
  tokens_by_name : list (string * bytes);
  lockouts : list (string * bytes);
  kms_rewrap : list (string * bytes);
  tokens : list (bytes * bytes);
  audit : list (Z * bytes);
}.

Definition snapshot (d : Database) : Snapshot := {|
  secrets := dump_str d SECRETS;
  versions := dump_str d VERSIONS;
  roles := dump_str d ROLES;
  tokens_by_name := dump_str d TOKENS_BY_NAME;
  lockouts := dump_str d LOCKOUTS;
  kms_rewrap := dump_str d KMS_REWRAP;
  tokens := dump_bytes d TOKENS;
  audit := dump_u64 d AUDIT |}.

Definition snapshot_eqb (a b : Snapshot) : bool :=
  bool_decide (secrets a = secrets b) && bool_decide (versions a = versions b)
  && bool_decide (roles a = roles b) && bool_decide (tokens_by_name a = tokens_by_name b)
  && bool_decide (lockouts a = lockouts b) && bool_decide (kms_rewrap a = kms_rewrap b)
  && bool_decide (tokens a = tokens b) && bool_decide (audit a = audit b).

Definition version_keys (d : Database) (name : string) : list string :=
  (t_range (version_range name) (db_versions d)).*1.

Definition read_version_row (d : Database) (key : string) : option bytes := t_get (db_versions d) key.

Inductive Before :=
| BeforeSecret (name : string) (row : option bytes)
| BeforeVersions (rows : list (string * bytes))
| BeforeVersion (key : string) (row : option bytes)
| BeforeNothing.

Definition snapshot_before (d : Database) (command : Command) : Before :=
  match command with
  | CreateSecret secret _ => BeforeSecret (s_name secret) (t_get (db_secrets d) (s_name secret))
  | DeleteSecret _ => BeforeVersions (dump_str d VERSIONS)
  | RewrapVersion name version _ _ _ =>
      let key := version_key name version in BeforeVersion key (read_version_row d key)
  | _ => BeforeNothing
  end.

Definition is_conflict (result : StoreResult unit) : bool :=
  match result with Err (Conflict _) => true | _ => false end.

(** A row that a deletion took away. *)
Definition check_removed (name : string) (after : list string) (row : string * bytes) : verdict unit :=
  let key := row.1 in
  if bool_decide (key ∈ after) then Ok tt else
  field ← expect_some (strip_prefix (version_lower name) key)
    "DeleteSecret removed a row outside its own key prefix";
  version ← expect_some (parse_i32 field) "DeleteSecret removed a row with a foreign version field";
  assert (bool_decide (version_key name version = key))
    "DeleteSecret removed a row that is not one of its own versions".

Definition check_per_command (d : Database) (command : Command) (before : Before)
    (result : StoreResult unit) : verdict unit :=
  match command, before with
  | CreateSecret _ _, BeforeSecret name row =>
      when (bool_decide (is_Some row)) (
        assert (is_conflict result) "a second CreateSecret for the same name must be a conflict" ;;
        assert (bool_decide (t_get (db_secrets d) name = row))
          "a rejected CreateSecret must not overwrite the stored secret")
  | DeleteSecret name, BeforeVersions rows =>
      if negb (is_ok result) then Ok tt else
      assert (bool_decide (version_keys d name = []))
        "a successful DeleteSecret must clear its own version range" ;;
      let after := (dump_str d VERSIONS).*1 in
      each (check_removed name after) rows
  | RewrapVersion _ _ _ _ _, BeforeVersion key (Some bs) =>
      old ← expect (decode (A := VersionRecord) bs) "decode stored version";
      now ← expect_some (read_version_row d key) "RewrapVersion must not remove the row";
      new ← expect (decode (A := VersionRecord) now) "decode rewrapped version";
      assert (bool_decide (v_ciphertext old = v_ciphertext new)) "rewrap must not touch the ciphertext" ;;
      assert (bool_decide (v_nonce old = v_nonce new)) "rewrap must not touch the nonce" ;;
      assert (bool_decide (v_aad old = v_aad new)) "rewrap must not touch the aad" ;;
      assert (v_version old =? v_version new)%Z "rewrap must not renumber a version"
  | _, _ => Ok tt
  end.

Fixpoint check_audit (position : Z) (rows : list (Z * bytes)) : verdict unit :=
  match rows with
  | [] => Ok tt
  | (key, _) :: rows =>
      assert (key =? position)%Z "the audit log must stay a gap-free sequence from zero" ;;
      check_audit (position + 1) rows
  end.

Definition check_version_key (row : string * bytes) : verdict unit :=
  '(name, field) ← expect_some (split_once nul row.1)
    "a version key must carry the name/version separator";
  version ← expect_some (parse_i32 field) "a version key must end in a parseable version";
  assert (bool_decide (version_key name version = row.1)) "a version key must re-encode to itself".

Definition check_end_state (d : Database) : verdict unit :=
  let state := snapshot d in
  each (λ row, record ← expect (decode (A := SecretRecord) row.2) "stored secret must decode";
               assert (bool_decide (s_name record = row.1)) "a secret row must be keyed by its name")
    (secrets state) ;;
  each (λ row, record ← expect (decode (A := RoleRecord) row.2) "stored role must decode";
               assert (bool_decide (r_name record = row.1)) "a role row must be keyed by its name")
    (roles state) ;;
  each (λ row, record ← expect (decode (A := TokenRecord) row.2) "stored token must decode";
               assert (bool_decide (t_fingerprint record = row.1))
                 "a token row must be keyed by its own fingerprint")
    (tokens state) ;;
  each (λ row, assert (existsb (λ token, bool_decide (token.1 = row.2)) (tokens state))
                 "every name in the token index must resolve to a token row")
    (tokens_by_name state) ;;
  each (λ row, record ← expect (decode (A := LockoutRecord) row.2) "stored lockout must decode";
               assert (1 <=? l_failures record)%Z "a lockout row is only written on a failure")
    (lockouts state) ;;
  check_audit 0 (audit state) ;;
  each check_version_key (versions state).

(** The loop over the primary, with the checks of each command. *)
Fixpoint run_primary (commands : list Command) (d : Database) : verdict (Database * list Z) :=
  match commands with
  | [] => Ok (d, [])
  | command :: commands =>
      let before := snapshot_before d command in
      let '(d', result) := apply_one command d in
      check_per_command d' command before result ;;
      '(d'', codes) ← run_primary commands d';
      Ok (d'', result_code result :: codes)
  end.

Fixpoint run_replica (commands : list Command) (d : Database) : Database * list Z :=
  match commands with
  | [] => (d, [])
  | command :: commands =>
      let '(d', result) := apply_one command d in
      let '(d'', codes) := run_replica commands d' in
      (d'', result_code result :: codes)
  end.

Definition run (ops : list Op) : verdict unit :=
  let commands := to_command <$> ops in
  '(primary, primary_codes) ← run_primary commands empty_database;
  let '(replica, replica_codes) := run_replica commands empty_database in
  assert (bool_decide (primary_codes = replica_codes))
    "the same command sequence must produce the same outcomes on every replica" ;;
  assert (snapshot_eqb (snapshot primary) (snapshot replica))
    "the same command sequence must produce byte-identical state on every replica" ;;
  check_end_state primary.
End target.
End apply_command_sequence.

(** ** backup_restore_roundtrip.rs *)

Module backup_restore_roundtrip.
Record Input := {
  version : Z;
  secrets : list (string * bytes);
  versions : list (string * bytes);
  roles : list (string * bytes);
  tokens : list (bytes * bytes);
  tokens_by_name : list (string * bytes);
  audit : list (Z * bytes);
  kms_rewrap : list (string * bytes);
}.

Definition to_backup (input : Input) : BackupData := {|
  b_version := version input;
  b_secrets := secrets input;
  b_versions := versions input;
  b_roles := roles input;
  b_tokens := tokens input;
  b_tokens_by_name := tokens_by_name input;
  b_audit := audit input;
  b_kms_rewrap := kms_rewrap input |}.

Definition expected (input : Input) : BackupData := {|
  b_version := BACKUP_VERSION;
  b_secrets := collapse (secrets input);
  b_versions := collapse (versions input);
  b_roles := collapse (roles input);
  b_tokens := collapse (tokens input);
  b_tokens_by_name := collapse (tokens_by_name input);
  b_audit := collapse (audit input);
  b_kms_rewrap := collapse (kms_rewrap input) |}.

Definition same (a b : BackupData) : bool :=
  (b_version a =? b_version b)%Z
  && bool_decide (b_secrets a = b_secrets b)
  && bool_decide (b_versions a = b_versions b)
  && bool_decide (b_roles a = b_roles b)
  && bool_decide (b_tokens a = b_tokens b)
  && bool_decide (b_tokens_by_name a = b_tokens_by_name b)
  && bool_decide (b_audit a = b_audit b)
  && bool_decide (b_kms_rewrap a = b_kms_rewrap b).

Definition version_row_acceptable (row : string * bytes) : bool :=
  match split_version_key row.1 with
  | Some (name, version) => is_valid_secret_name name && is_valid_secret_version version
  | None => false
  end.

Definition rows_are_acceptable (data : BackupData) : bool :=
  forallb (λ row, is_valid_secret_name row.1) (b_secrets data)
  && forallb version_row_acceptable (b_versions data)
  && forallb (λ row, (row.1 <=? MAX_AUDIT_KEY)%Z) (b_audit data).

Section target.
Context `{RE : !Redb}.

Definition run (input : Input) : verdict unit :=
  let d := empty_database in
  let data := to_backup input in
  if negb (version input =? BACKUP_VERSION)%Z || negb (rows_are_acceptable data) then
    let before := dump_database d in
    let '(d, restored) := restore_database data d in
    assert (negb (is_ok restored)) "a foreign backup version or an unacceptable row must be rejected" ;;
    let after := dump_database d in
    assert (same before after) "a rejected restore must leave the store untouched"
  else
    let '(d, restored) := restore_database data d in
    expect restored "restore of a well-versioned backup" ;;
    let dumped := dump_database d in
    assert (same dumped (expected input))
      "dump after restore must reproduce the restored rows exactly" ;;
    let '(d, restored) := restore_database data d in
    expect restored "second restore" ;;
    let again := dump_database d in
    assert (same dumped again) "restore must be idempotent" ;;
    let '(d, restored) := restore_database dumped d in
    expect restored "restore of a dump" ;;
    let round := dump_database d in
    assert (same dumped round) "dump -> restore -> dump must be stable".
End target.
End backup_restore_roundtrip.

(** ** raft_log_normalize.rs *)

(** What the Raft targets use of openraft and serde_json:
    [CommittedLeaderId::new(term, 1)], a membership of two voters, equality of
    both, and [json!] on the fields of a snapshot. *)
Class RaftSeeds `{!RaftTypes} := {
  leader_of_term : Z → LeaderId;
  two_voters : Membership;
  leader_eq_dec :: EqDecision LeaderId;
  membership_eq_dec :: EqDecision Membership;
  snapshot_json : SnapshotData → bytes;
}.

(** A JSON object with the fields of the struct parses to the struct. *)
Class RaftSeedLaws `{RT : !RaftTypes, RS : !RaftSerde, RD : !RaftSeeds} : Prop :=
  snapshot_json_parses data : from_slice (snapshot_json data) = Some data.

#[global] Instance log_id_eq_dec `{RT : !RaftTypes, RD : !RaftSeeds} : EqDecision LogId.
Proof. solve_decision. Defined.
#[global] Instance stored_membership_eq_dec `{RT : !RaftTypes, RD : !RaftSeeds} : EqDecision StoredMembership.
Proof. solve_decision. Defined.

Definition seed_log_id `{RT : !RaftTypes, RD : !RaftSeeds} (index term : Z) : LogId :=
  {| leader_id := leader_of_term term; index := index |}.

Module raft_log_normalize.
Record Input := {
  entries : list (Z * Z);
  applied : option (Z * Z);
  purged : option (Z * Z);
}.

Definition extreme (pair : option (Z * Z)) : bool :=
  match pair with Some (index, _) => (index =? u64_max)%Z | None => false end.

(** A seed that openraft would not produce. *)
Definition purged_past_applied (input : Input) : bool :=
  match applied input, purged input with
  | Some (applied, _), Some (purged, _) => (applied <? purged)%Z
  | _, _ => false
  end.

(** Index [start + position] at each position. *)
Fixpoint check_contiguous (start : Z) (remaining : list Z) : verdict unit :=
  match remaining with
  | [] => Ok tt
  | index :: remaining =>
      assert (index =? start)%Z
        "the normalized log must be contiguous from the first index after last_applied" ;;
      check_contiguous (start + 1) remaining
  end.

Section target.
Context `{RE : !Redb, SE : !StoreSerde, RT : !RaftTypes, RS : !RaftSerde, RD : !RaftSeeds}.

Definition log_indexes (d : Database) : list Z := (t_iter (db_log d)).*1.

Definition write_meta (key : string) (pair : option (Z * Z)) (d : Database) : verdict Database :=
  match pair with
  | Some (index, term) =>
      bs ← expect_some (to_vec (seed_log_id index term)) "encode log id";
      Ok (put_table META (t_insert key bs (db_meta d)) d)
  | None => Ok d
  end.

Definition read_purged (d : Database) : verdict (option LogId) :=
  match t_get (db_meta d) META_PURGED with
  | Some value => purged ← expect_some (from_slice value) "decode purged"; Ok (Some purged)
  | None => Ok None
  end.

Fixpoint seed_log (entries : list (Z * Z)) (d : Database) : verdict Database :=
  match entries with
  | [] => Ok d
  | (index, term) :: entries =>
      bs ← expect_some (to_vec {| log_id := seed_log_id index term; payload := Blank |}) "encode entry";
      seed_log entries (put_table LOG (t_insert index bs (db_log d)) d)
  end.

(** What must hold of the log after it has been normalized. *)
Definition check_state (remaining : list Z) (state : LogState) : verdict unit :=
  match last_log_id state, last_purged_log_id state with
  | Some last, Some purged =>
      assert (index purged <=? index last)%Z
        "openraft requires last_log_id to be at or above last_purged_log_id"
  | _, _ => Ok tt
  end ;;
  when (negb (bool_decide (remaining = []))) (
    assert (bool_decide (index <$> last_log_id state = last remaining))
      "last_log_id must be the highest surviving entry").

Definition run (input : Input) : verdict unit :=
  if extreme (applied input) || extreme (purged input) then Ok tt else
  if purged_past_applied input then Ok tt else
  d ← seed_log (entries input) empty_database;
  d ← write_meta META_APPLIED (applied input) d;
  d ← write_meta META_PURGED (purged input) d;
  let '(d, normalized) := normalize_raft_log d in
  expect normalized "normalize must not fail on any seeded state" ;;
  let floor := match applied input with
               | Some (index, _) => Some index
               | None => fst <$> purged input
               end in
  let start := match floor with Some index => (index + 1)%Z | None => 0%Z end in
  let remaining := log_indexes d in
  check_contiguous start remaining ;;
  purged ← read_purged d;
  match purged with
  | Some purged =>
      each (λ i, assert (index purged <? i)%Z
                   "a normalized log must not keep an entry at or below last_purged") remaining
  | None => Ok tt
  end ;;
  let '(d, normalized) := normalize_raft_log d in
  expect normalized "normalize must stay callable" ;;
  assert (bool_decide (log_indexes d = remaining))
    "normalize must be idempotent: a second pass must remove nothing" ;;
  state ← expect (get_log_state d).2 "get_log_state must not fail on a normalized log";
  check_state remaining state.
End target.
End raft_log_normalize.

(** ** snapshot_install.rs *)

Module snapshot_install.
Record Input := {
  existing_secrets : list (string * bytes);
  existing_log : list Z;
  secrets : list (string * bytes);
  versions : list (string * bytes);
  roles : list (string * bytes);
  tokens : list (bytes * bytes);
  tokens_by_name : list (string * bytes);
  kms_rewrap : list (string * bytes);
  input_last_log_id : Z * Z;
  raw_instead : option bytes;
}.

Definition rows_are_acceptable (input : Input) : bool :=
  forallb (λ row, is_valid_secret_name row.1) (secrets input)
  && forallb backup_restore_roundtrip.version_row_acceptable (versions input).

Section target.
Context `{RE : !Redb, SE : !StoreSerde, RT : !RaftTypes, RS : !RaftSerde, RD : !RaftSeeds}.

Definition membership : StoredMembership := {| sm_log_id := None; sm_membership := two_voters |}.

Definition dump_str (d : Database) (def : TableDefinition string) : list (string * bytes) :=
  t_iter (open_table def d).
Definition dump_tokens (d : Database) : list (bytes * bytes) := t_iter (db_tokens d).
Definition log_indexes (d : Database) : list Z := (t_iter (db_log d)).*1.

(** The rows a node holds before the snapshot arrives. *)
Definition seed (input : Input) (d : Database) : Database :=
  let d := put_table SECRETS (t_insert_all (existing_secrets input) (db_secrets d)) d in
  put_table LOG (t_insert_all ((λ index, (index, as_bytes "entry")) <$> existing_log input) (db_log d)) d.

Definition last_log_id (input : Input) : option LogId :=
  let '(index, term) := input_last_log_id input in Some (seed_log_id index term).

Definition meta (input : Input) : SnapshotMeta := {|
  meta_last_log_id := last_log_id input;
  meta_last_membership := membership;
  meta_snapshot_id := "fuzz" |}.

Definition well_formed (input : Input) : SnapshotData := {|
  sd_secrets := secrets input;
  sd_versions := versions input;
  sd_roles := roles input;
  sd_tokens := tokens input;
  sd_tokens_by_name := tokens_by_name input;
  sd_kms_rewrap := kms_rewrap input;
  sd_last_applied := last_log_id input;
  sd_membership := membership |}.

(** The rows the target chose, once they are installed. *)
Definition check_rows (input : Input) (d : Database) : verdict unit :=
  assert (bool_decide (dump_str d SECRETS = collapse (secrets input)))
    "install_snapshot must replace the secrets table with exactly the snapshot's rows" ;;
  assert (bool_decide (dump_str d VERSIONS = collapse (versions input)))
    "install_snapshot must replace the versions table" ;;
  assert (bool_decide (dump_str d ROLES = collapse (roles input)))
    "install_snapshot must replace the roles table" ;;
  assert (bool_decide (dump_str d TOKENS_BY_NAME = collapse (tokens_by_name input)))
    "install_snapshot must replace the token index" ;;
  assert (bool_decide (dump_str d KMS_REWRAP = collapse (kms_rewrap input)))
    "install_snapshot must replace the kms rewrap table" ;;
  assert (bool_decide (dump_tokens d = collapse (tokens input)))
    "install_snapshot must replace the tokens table" ;;
  match last_log_id input with
  | Some last =>
      each (λ i, assert (index last <? i)%Z
                   "a log entry covered by the installed snapshot must be removed")
        (log_indexes d)
  | None => Ok tt
  end.

Definition run (input : Input) : verdict unit :=
  let '(d, opened) := RedbStore.from_database empty_database in
  expect opened "build store" ;;
  let d := seed input d in
  let raw := match raw_instead input with
             | Some bs => bs
             | None => snapshot_json (well_formed input)
             end in
  let '(d, installed) := install_snapshot (meta input) raw d in
  if negb (is_ok installed) then
    assert (bool_decide (is_Some (raw_instead input)) || negb (rows_are_acceptable input))
      "a snapshot carrying only acceptable rows must install"
  else
    '(applied, stored_membership) ← expect (applied_state d).2 "applied_state after install";
    assert (bool_decide (applied = meta_last_log_id (meta input)))
      "install_snapshot must record the snapshot's last_log_id as applied" ;;
    assert (bool_decide (stored_membership = meta_last_membership (meta input)))
      "install_snapshot must record the snapshot's membership" ;;
    if bool_decide (is_Some (raw_instead input)) then Ok tt else
    check_rows input d.
End target.
End snapshot_install.

(** ** backup_decode.rs *)

Module backup_decode.
Section target.
Context `{SB : !Serde BackupData}.

Definition run (data : bytes) : verdict unit :=
  match from_slice data with
  | Some backup =>
      bytes ← expect_some (to_vec (A := BackupData) backup) "a parsed backup must re-encode";
      _ ← expect_some (from_slice (A := BackupData) bytes) "re-decode round-trip";
      mret tt
  | None => mret tt
  end.
End target.
End backup_decode.

(** ** store_decode.rs *)

(** The calls after the first, whose results are ignored, are left out. *)
Module store_decode.
Section target.
Context `{SC : !Serde Command}.

Definition run (data : bytes) : verdict unit :=
  match decode data with
  | Ok command =>
      bytes ← expect (encode (A := Command) command) "a decoded command must re-encode";
      _ ← expect (decode (A := Command) bytes) "re-decode round-trip";
      mret tt
  | Err _ => mret tt
  end.
End target.
End store_decode.
