(* ===== verification/FuzzStoreThms.v ===== *)
(** * The fuzz targets hold on every input: the store

    No sequence of commands makes [apply_command_sequence] panic, no rows make
    [backup_restore_roundtrip] panic, and no bytes [backup_decode] or
    [store_decode]: what the fuzzer samples is proved for all inputs. *)

From S2P Require Import Prelude RustStr CoreTypes Redb Keys Model Serial Apply Spec Samples ApplyFacts.
From S2P Require Import Refine Engine Invariant StoreLaws RaftStore Platform Crypto IpAddr PgApply ApiTypes.
From S2P Require Import Guards Service Manage Calls Config FuzzCore FuzzCoreThms FuzzStore.

(** ** Collapsed rows *)

Section collapse.
Context {K : Type} `{OK : !OrdKey K}.

Lemma ord_insert_elem {V} k (v : V) m k' v' :
  (k', v') ∈ ord_insert k v m → (k' = k ∧ v' = v) ∨ (k', v') ∈ m.
Proof.
  induction m as [|[k1 v1] m IH]; simpl; [set_solver|].
  case_decide; [set_solver|]. case_decide; [set_solver|]. rewrite !elem_of_cons. naive_solver.
Qed.

Lemma ord_insert_sorted {V} k (v : V) m :
  StronglySorted (λ a b, strict key_le a.1 b.1) m →
  StronglySorted (λ a b, strict key_le a.1 b.1) (ord_insert k v m).
Proof.
  induction 1 as [|[k1 v1] m Hm IH Hall]; simpl; [repeat constructor|]. rewrite Forall_forall in Hall.
  case_decide as Hk; [subst; constructor; [done|]; by apply Forall_forall|].
  case_decide as Hle.
  - constructor; [by constructor; [|apply Forall_forall]|]. apply Forall_forall.
    assert (strict key_le k k1) as Hlt.
    { split; [done|]. intros Hge. apply Hk. by apply (anti_symm key_le). }
    intros [k2 v2] [[= -> ->]|Hin]%elem_of_cons; [done|]. trans k1; [done|]. apply (Hall _ Hin).
  - constructor; [done|]. apply Forall_forall. intros [k2 v2] [[-> ->]|Hin]%ord_insert_elem; [|by apply Hall].
    simpl. split; [|done]. by destruct (total key_le k k1).
Qed.

Lemma ord_insert_spec {V} k (v : V) m k' v' :
  StronglySorted (λ a b, strict key_le a.1 b.1) m →
  (k', v') ∈ ord_insert k v m ↔ if decide (k = k') then v' = v else (k', v') ∈ m.
Proof.
  induction 1 as [|[k1 v1] m Hm IH Hall]; simpl.
  { rewrite list_elem_of_singleton. case_decide; [naive_solver|]. split; [naive_solver|set_solver]. }
  rewrite Forall_forall in Hall. assert (∀ w, (k1, w) ∉ m) as Hfresh.
  { intros w Hin. by destruct (Hall _ Hin) as [_ []]. }
  destruct (decide (k = k1)) as [->|Hk]; [|destruct (decide (key_le k k1)) as [Hle|Hle]].
  - destruct (decide (k1 = k')) as [<-|]; rewrite !elem_of_cons; naive_solver.
  - assert (∀ w, (k, w) ∉ m) as Hk'.
    { intros w Hin. destruct (Hall _ Hin) as [? Hn]. simpl in *. apply Hn. etrans; [|done]. done. }
    destruct (decide (k = k')) as [<-|]; rewrite !elem_of_cons; naive_solver.
  - rewrite elem_of_cons, IH. destruct (decide (k = k')) as [<-|]; rewrite ?elem_of_cons; naive_solver.
Qed.

Context `{RE : !Redb, RL : !RedbLaws}.

(** Iterating a table after an insertion. *)
Lemma t_iter_insert k v (t : table K) : t_iter (t_insert k v t) = ord_insert k v (t_iter t).
Proof.
  apply (StronglySorted_unique_strong (λ a b, strict key_le a.1 b.1)).
  - intros a b _ _ [Hab Hn] [Hba _]. by destruct Hn.
  - apply t_iter_sorted.
  - apply ord_insert_sorted, t_iter_sorted.
  - apply NoDup_Permutation; [apply t_iter_nodup| |].
    + eapply (NoDup_fmap_1 fst), strict_keys_nodup, ord_insert_sorted, t_iter_sorted.
    + intros [k' v']. rewrite ord_insert_spec by apply t_iter_sorted. rewrite t_iter_get, t_get_insert.
      destruct (decide (k = k')); [naive_solver|]. by rewrite t_iter_get.
Qed.

Lemma t_iter_empty : t_iter (t_empty (K := K)) = [].
Proof.
  apply elem_of_nil_inv. intros [k v] H%t_iter_get. by rewrite t_get_empty in H.
Qed.

#[export] Instance t_insert_all_proper rows : Proper ((≡) ==> (≡)) (t_insert_all (K := K) rows).
Proof.
  unfold t_insert_all. induction rows as [|row rows IH]; intros t1 t2 H; simpl; [done|].
  apply IH. by rewrite H.
Qed.

(** A cleared table that is given rows holds one row per key, in order. *)
Lemma t_iter_replaced rows (t : table K) :
  t_iter (t_insert_all rows (t_remove_all (t_keys t) t)) = collapse rows.
Proof.
  rewrite (t_remove_keys t). unfold t_insert_all, collapse. rewrite <- t_iter_empty.
  generalize (t_empty (K := K)) as t0. induction rows as [|[k v] rows IH]; intros t0; simpl; [done|].
  rewrite IH. by rewrite t_iter_insert.
Qed.

Lemma collapse_idemp (rows : list (K * bytes)) : collapse (collapse rows) = collapse rows.
Proof.
  rewrite <- (t_iter_replaced rows t_empty) at 1. rewrite <- (t_iter_replaced _ t_empty).
  rewrite t_copy. apply t_iter_replaced.
Qed.

Lemma collapse_elem (rows : list (K * bytes)) row : row ∈ collapse rows → row ∈ rows.
Proof.
  unfold collapse. rewrite <- (app_nil_r rows) at 2. generalize (@nil (K * bytes)) as m.
  induction rows as [|[k v] rows IH]; intros m; simpl; [done|]. intros H%IH.
  rewrite elem_of_app in H. rewrite elem_of_cons, elem_of_app. destruct row as [k' v'].
  destruct H as [?|[[-> ->]|?]%ord_insert_elem]; auto.
Qed.

Lemma forallb_collapse (f : K * bytes → bool) rows : forallb f rows = true → forallb f (collapse rows) = true.
Proof.
  rewrite !forallb_Forall, !Forall_forall. intros H row Hin. by apply H, collapse_elem.
Qed.
End collapse.

(** ** Backups *)

Section backup.
Context `{RE : !Redb, RL : !RedbLaws}.
Import backup_restore_roundtrip.

Definition collapsed (data : BackupData) : BackupData := {|
  b_version := BACKUP_VERSION;
  b_secrets := collapse (b_secrets data);
  b_versions := collapse (b_versions data);
  b_roles := collapse (b_roles data);
  b_tokens := collapse (b_tokens data);
  b_tokens_by_name := collapse (b_tokens_by_name data);
  b_audit := collapse (b_audit data);
  b_kms_rewrap := collapse (b_kms_rewrap data) |}.

Lemma collapsed_idemp data : collapsed (collapsed data) = collapsed data.
Proof. unfold collapsed. simpl. by rewrite !collapse_idemp. Qed.

Lemma same_refl data : same data data = true.
Proof. unfold same. by rewrite Z.eqb_refl, !bool_decide_eq_true_2. Qed.

Lemma check_rows_forallb {A E} (bad : A → option E) (good : A → bool) rows :
  (∀ x, bad x = None ↔ good x = true) → check_rows bad rows = Ok tt ↔ forallb good rows = true.
Proof.
  intros H. rewrite check_rows_ok, forallb_Forall, Forall_forall. apply forall_proper. intros x. by rewrite H.
Qed.

(** What a restore accepts is what the target says it accepts. *)
Lemma acceptable_spec data : rows_are_acceptable data = true ↔ check_secret_rows data = Ok tt.
Proof.
  unfold rows_are_acceptable, check_secret_rows. unfold_monad. rewrite !andb_true_iff.
  rewrite <- (check_rows_forallb bad_secret_row), <- (check_rows_forallb bad_version_row),
    <- (check_rows_forallb bad_audit_row).
  - destruct (check_rows bad_secret_row _) as [[]|]; [|naive_solver].
    destruct (check_rows bad_version_row _) as [[]|]; naive_solver.
  - intros [k row]. unfold bad_audit_row. simpl. destruct (Z.ltb_spec MAX_AUDIT_KEY k), (Z.leb_spec k MAX_AUDIT_KEY);
      (done || lia).
  - intros [k row]. unfold bad_version_row, version_row_acceptable. simpl.
    destruct (split_version_key k) as [[name v]|]; [|done].
    by destruct (is_valid_secret_name name && is_valid_secret_version v).
  - intros [k row]. unfold bad_secret_row. simpl. by destruct (is_valid_secret_name k).
Qed.

Lemma acceptable_collapsed data : rows_are_acceptable data = true → rows_are_acceptable (collapsed data) = true.
Proof.
  unfold rows_are_acceptable. rewrite !andb_true_iff. intros [[??]?]. simpl. by rewrite !forallb_collapse.
Qed.

Lemma restore_collapses data d :
  b_version data = BACKUP_VERSION → rows_are_acceptable data = true →
  ∃ d', restore_database data d = (d', Ok tt) ∧ dump_database d' = collapsed data.
Proof.
  intros Hv Hc%acceptable_spec. unfold restore_database.
  destruct (restore_tables_run data d Hv Hc) as (d' & -> & Hs & Hve & Hr & Ht & Hn & Ha & Hk & _).
  exists d'. split; [done|]. unfold dump_database, dump_str, dump_bytes, dump_u64, collapsed. simpl.
  by rewrite Hs, Hve, Hr, Ht, Hn, Ha, Hk, !t_iter_replaced.
Qed.

(** C36. The fuzz target [backup_restore_roundtrip] passes on every input: a
    backup with a foreign version or an unacceptable row is refused and changes
    nothing; any other is restored exactly, with duplicate keys collapsed to
    their last row, restoring it again changes nothing, and neither does
    restoring a dump of the result. *)
Theorem fuzz_backup_restore_roundtrip input : run input = Ok tt.
Proof.
  unfold run. cbv zeta. set (data := to_backup input).
  destruct (negb (version input =? BACKUP_VERSION)%Z || negb (rows_are_acceptable data)) eqn:Hbad.
  - unfold restore_database. assert (∃ d' e, restore_tables data empty_database = (d', Err e)) as (d' & e & ->).
    { unfold restore_tables. case_decide as Hv; [do 2 eexists; reflexivity|]. unfold_monad.
      destruct (check_secret_rows data) as [[]|e] eqn:Hc; [|do 2 eexists; reflexivity]. exfalso.
      apply acceptable_spec in Hc. rewrite Hc, orb_false_r in Hbad. apply negb_true_iff, Z.eqb_neq in Hbad.
      by apply Hbad. }
    oracle; [done|apply same_refl].
  - apply orb_false_iff in Hbad as [Hv%negb_false_iff%Z.eqb_eq Hok%negb_false_iff].
    destruct (restore_collapses data empty_database Hv Hok) as (d1 & -> & Hd1).
    destruct (restore_collapses data d1 Hv Hok) as (d2 & H2 & Hd2).
    destruct (restore_collapses (collapsed data) d2) as (d3 & H3 & Hd3);
      [done|by apply acceptable_collapsed|].
    cbn [expect map_err mbind result_bind]. oracle.
    { change (expected input) with (collapsed data). rewrite Hd1. apply same_refl. }
    rewrite H2. cbn [expect map_err mbind result_bind]. oracle; [rewrite Hd1, Hd2; apply same_refl|].
    rewrite Hd1, H3. cbn [expect map_err mbind result_bind]. oracle.
    rewrite Hd3, collapsed_idemp. apply same_refl.
Qed.
End backup.

(** Rows out of order, with two rows for one key and an audit row at the
    greatest key. *)
Definition sample_backup : backup_restore_roundtrip.Input := {|
  backup_restore_roundtrip.version := BACKUP_VERSION;
  backup_restore_roundtrip.secrets := [("s2", as_bytes "b"); ("s1", as_bytes "a"); ("s2", as_bytes "c")];
  backup_restore_roundtrip.versions := [(version_key "s1" 1, as_bytes "v")];
  backup_restore_roundtrip.roles := [("admin", as_bytes "r")];
  backup_restore_roundtrip.tokens := [(as_bytes "fp", as_bytes "t")];
  backup_restore_roundtrip.tokens_by_name := [("t", as_bytes "fp")];
  backup_restore_roundtrip.audit := [(MAX_AUDIT_KEY, as_bytes "e"); (1%Z, as_bytes "d")];
  backup_restore_roundtrip.kms_rewrap := [] |}.

Lemma fuzz_backup_restore_roundtrip_witness :
  backup_restore_roundtrip.rows_are_acceptable (backup_restore_roundtrip.to_backup sample_backup) = true
  ∧ backup_restore_roundtrip.run (RE := gmap_redb) sample_backup = Ok tt.
Proof.
  split; [by vm_compute|]. apply (fuzz_backup_restore_roundtrip (RL := gmap_redb_laws) sample_backup).
Defined.

(** ** Command sequences *)

Lemma ascii_compare_antisym a b : Ascii.compare a b = CompOpp (Ascii.compare b a).
Proof. unfold Ascii.compare. apply N.compare_antisym. Qed.

Lemma ascii_compare_eq a b : Ascii.compare a b = Eq → a = b.
Proof.
  unfold Ascii.compare. intros H%N.compare_eq_iff.
  by rewrite <- (ascii_N_embedding a), <- (ascii_N_embedding b), H.
Qed.

(** A key inside the scan range of [name] starts with [name NUL]. *)
Lemma version_range_prefix name key :
  version_range name key = true → ∃ rest, key = name +:+ String nul rest.
Proof.
  unfold version_range, in_range, version_lower, version_upper.
  rewrite andb_true_iff, !bool_decide_eq_true. revert key.
  induction name as [|a name IH]; intros key [Hlo [Hhi Hne]]; cbn [String.append] in *.
  - destruct key as [|b key]; [by destruct Hlo|]. unfold String.le, String.leb in *. simpl in *.
    destruct (Ascii.compare nul b) eqn:H1; [|destruct (Ascii.compare b soh) eqn:H2|done].
    + apply ascii_compare_eq in H1. subst b. by exists key.
    + apply ascii_compare_eq in H2. subst b. by destruct key.
    + exfalso. unfold Ascii.compare in *. rewrite N.compare_lt_iff in H1, H2.
      assert (N_of_ascii nul = 0%N) by done. assert (N_of_ascii soh = 1%N) by done. lia.
    + done.
  - destruct key as [|b key]; [by destruct Hlo|].
    unfold String.le, String.leb in Hlo, Hhi, Hne. cbn [String.compare] in Hlo, Hhi, Hne.
    rewrite (ascii_compare_antisym a b) in Hlo. destruct (Ascii.compare b a) eqn:Hab; [|done..].
    apply ascii_compare_eq in Hab. subst b.
    rewrite ascii_compare_refl in Hne. destruct (IH key) as [rest ->]; [done|]. by exists rest.
Qed.

(** A sorted list with the elements of an interval is that interval. *)
Fixpoint contiguous (p : Z) (keys : list Z) : Prop :=
  match keys with
  | [] => True
  | k :: keys => k = p ∧ contiguous (p + 1) keys
  end.

Lemma sorted_contiguous keys : ∀ p m,
  StronglySorted Z.lt keys → (∀ k, k ∈ keys ↔ (p ≤ k < p + m)%Z) → contiguous p keys.
Proof.
  induction keys as [|x keys IH]; intros p m Hs Hk; simpl; [done|].
  apply StronglySorted_inv in Hs as [Hs Hall]. rewrite Forall_forall in Hall.
  assert (p ≤ x < p + m)%Z as Hx by (apply Hk; by left).
  assert (p ∈ x :: keys) as [->|Hp%Hall]%elem_of_cons by (apply Hk; lia); [|lia]. split; [done|].
  apply (IH (x + 1)%Z (m - 1)%Z); [done|]. intros k. split.
  - intros Hin. specialize (Hall k Hin). assert (k ∈ x :: keys) as Hk'%Hk by by right. lia.
  - intros Hr. assert (k ∈ x :: keys) as [->|?]%elem_of_cons by (apply Hk; lia); [lia|done].
Qed.

Section sequence.
Context `{RE : !Redb, RL : !RedbLaws, SE : !StoreSerde, SL : !StoreSerdeLaws}.
Implicit Types (d : Database) (a : Vault).
Import apply_command_sequence.

(** What holds of a vault after [n] commands, whatever they were. *)
Record seq_ok (n : Z) (a : Vault) : Prop := {
  so_secret name s : vault_secrets a !! name = Some s → s_name s = name;
  so_role name r : vault_roles a !! name = Some r → r_name r = name;
  so_token fp t : vault_tokens a !! fp = Some t → t_fingerprint t = fp;
  so_name name fp : vault_names a !! name = Some fp → is_Some (vault_tokens a !! fp);
  so_lockout key r : vault_lockouts a !! key = Some r → (1 ≤ l_failures r ≤ n)%Z;
  so_audit : ∃ m, (0 ≤ m ≤ n)%Z ∧ ∀ k, is_Some (vault_audit a !! k) ↔ (0 ≤ k < m)%Z;
}.

Lemma seq_ok_empty : seq_ok 0 empty_vault.
Proof.
  split; simpl; try by intros *; rewrite lookup_empty.
  exists 0%Z. split; [done|]. intros k. rewrite lookup_empty. split; [by intros []|lia].
Qed.

Lemma seq_ok_later n a : seq_ok n a → seq_ok (n + 1) a.
Proof.
  intros [??????]. split; try done.
  - intros key r Hr. specialize (so_lockout0 key r Hr). lia.
  - destruct so_audit0 as (m & ? & ?). exists m. split; [lia|done].
Qed.

(** A lookup in an updated map. *)
Ltac look := repeat match goal with
  | H : <[?k := _]> _ !! ?k' = Some _ |- _ =>
      apply lookup_insert_Some in H as [[? ?]|[? H]]; subst
  | H : delete _ _ !! _ = Some _ |- _ => apply lookup_delete_Some in H as [_ H]
  | H : alter _ _ _ !! _ = Some _ |- _ => apply lookup_alter_Some in H as [(? & ? & H & ?)|[? H]]; subst
  end.

Lemma next_audit_key_interval (m : gmap Z AuditEntry) n :
  (0 ≤ n ≤ MAX_AUDIT_KEY)%Z → (∀ k, is_Some (m !! k) ↔ (0 ≤ k < n)%Z) → next_audit_key m = n.
Proof.
  intros Hn Hk. destruct (next_audit_key_spec m) as [H1 H2]; [intros k Hin%Hk; lia|].
  destruct (decide (n = 0)%Z) as [->|].
  - destruct H2 as [?|[?%Hk ?]]; [done|lia].
  - assert (n - 1 < next_audit_key m)%Z by (apply H1; [apply Hk|]; lia).
    destruct H2 as [?|[?%Hk ?]]; lia.
Qed.

Lemma bump_failures r now max window lockout n :
  (0 ≤ l_failures r ≤ n)%Z → (n < u32_max)%Z →
  (1 ≤ l_failures (count_failure now max window lockout r) ≤ n + 1)%Z.
Proof.
  intros Hr Hn. unfold count_failure. cbn [l_failures]. rewrite wrap_u32_id; case_match; simpl; unfold_ints; lia.
Qed.

(** The commands a sequence is made of. *)
Definition sequenced (c : Command) : Prop :=
  well_typed c ∧ match c with RestoreDatabase _ => False | _ => True end.

Lemma seq_ok_step node_id c n a a' :
  seq_ok n a → sequenced c → (0 ≤ n < u32_max)%Z → spec_apply node_id c a = Ok a' → seq_ok (n + 1) a'.
Proof.
  intros Hok [Hty Hc] Hn. pose proof (seq_ok_later _ _ Hok) as [Hs Hr Ht Hnm Hl Ha].
  destruct c; cbn [spec_apply]; unfold_monad; try done.
  - destruct (row_allowed _ _); [|done]. case_match; [done|]. intros [= <-].
    split; simpl; try done. intros name s Hin. look; auto.
  - destruct (row_allowed _ _); [|done]. destruct (vault_secrets a !! name) as [s0|] eqn:E; [|done].
    case_decide; [done|]. intros [= <-]. split; simpl; try done. intros k s Hin. look; [|auto].
    unfold revised. simpl. auto.
  - destruct (vault_secrets a !! name) as [s0|] eqn:E; [|done]. case_decide; [done|]. intros [= <-].
    split; simpl; try done. intros k s Hin. look; [|auto]. unfold revised. simpl. auto.
  - destruct (vault_secrets a !! name) as [s0|] eqn:E; [|done]. intros [= <-].
    split; simpl; try done. intros k s Hin. look. auto.
  - case_match; [done|]. intros [= <-]. split; simpl; try done. intros k r Hin. look; auto.
  - destruct (vault_roles a !! name) as [r0|] eqn:E; [|done]. intros [= <-].
    split; simpl; try done. intros k r Hin. look; [|auto]. simpl. auto.
  - case_decide; [done|]. destruct (vault_roles a !! name) as [r0|]; [|done]. intros [= <-].
    split; simpl; try done. intros k r Hin. look. auto.
  - case_match; [done|]. case_match; [done|]. intros [= <-]. split; simpl; try done.
    + intros fp t Hin. look; auto.
    + intros k fp Hin. rewrite lookup_insert_is_Some'. look; eauto.
  - destruct (vault_names a !! name) as [fp|]; [|done]. destruct (vault_tokens a !! fp) as [t|] eqn:E; [|done].
    case_match; [done|]. intros [= <-]. split; simpl; try done.
    + intros k t' Hin. look; [|auto]. simpl. auto.
    + intros k fp' Hin. rewrite lookup_insert_is_Some'. eauto.
  - intros [= <-]. split; simpl; try done.
    + intros k t' Hin. look; [|auto]. simpl. auto.
    + intros k fp' Hin. rewrite lookup_alter_is_Some. eauto.
  - by intros [= <-].
  - by intros [= <-].
  - by intros [= <-].
  - intros [= <-]. split; simpl; try done. destruct (so_audit _ _ Hok) as (m & Hm & Hk).
    rewrite (next_audit_key_interval _ m); [|unfold MAX_AUDIT_KEY; unfold_ints; lia|done].
    exists (m + 1)%Z. split; [lia|]. intros k. rewrite lookup_insert_is_Some', Hk. lia.
  - intros [= <-]. split; simpl; try done. intros k r Hin. look; [|by eapply Hl].
    apply bump_failures; [|lia]. destruct (vault_lockouts a !! _) as [r0|] eqn:E; simpl; [|lia].
    pose proof (so_lockout _ _ Hok _ _ E). lia.
Qed.

(** ** The checks after each command *)

Lemma apply_one_view c d a :
  abstracts d a → well_typed c →
  match spec_apply NODE_ID c a with
  | Ok a' => ∃ d', apply_one c d = (d', Ok tt) ∧ abstracts d' a'
  | Err e => apply_one c d = (d, Err e)
  end.
Proof.
  intros Ha Hc. unfold apply_one. destruct (apply_simulates NODE_ID c d a Ha Hc) as [Hsim _].
  destruct (apply_command NODE_ID c d) as [d' r]. simpl in Hsim.
  destruct (spec_apply NODE_ID c a); destruct Hsim as [-> ?]; eauto.
Qed.

Lemma check_create d a secret version :
  abstracts d a → well_typed (CreateSecret secret version) →
  let '(d', result) := apply_one (CreateSecret secret version) d in
  check_per_command d' (CreateSecret secret version)
    (snapshot_before d (CreateSecret secret version)) result = Ok tt.
Proof.
  intros Ha Hc. pose proof (apply_one_view _ _ _ Ha Hc) as Hv. cbn [spec_apply] in Hv. unfold_monad.
  destruct (apply_one _ d) as [d' r]. cbn [check_per_command snapshot_before]. apply when_ok. intros [row Hrow]%bool_decide_eq_true.
  destruct (stores_cases _ _ _ (s_name secret) (abs_secrets _ _ Ha)) as [[? _]|(row' & s & _ & Hs & _)]; [congruence|].
  rewrite Hs in Hv. assert (∃ msg, (d', r) = (d, Err (Conflict msg))) as [msg [= -> ->]].
  { destruct (row_allowed _ _) as [[]|e] eqn:He; [by eexists|]. rewrite Hv. clear - He.
    unfold row_allowed in He. unfold_monad. repeat (case_match; simplify_eq); by eexists. }
  oracle; [done|by apply bool_decide_eq_true].
Qed.

(** A row of the version table, and what it stores. *)
Lemma version_row d a key row :
  abstracts d a → t_get (db_versions d) key = Some row →
  ∃ name v r, key = version_key name v ∧ (0 ≤ v ≤ i32_max)%Z ∧ split_version_key key = Some (name, v)
    ∧ vault_versions a !! (name, v) = Some r ∧ decode row = Ok r.
Proof.
  intros Ha Hrow. destruct (stores_row _ _ _ _ _ _ (abs_versions _ _ Ha) Hrow) as ([name v] & r & Hk & Hr & Hd).
  exists name, v, r. split; [by apply version_key_of_split|].
  by destruct (split_version_key_Some _ _ _ Hk) as (_ & ? & _).
Qed.

Lemma version_keys_gone d a name :
  abstracts d a → (∀ v, vault_versions a !! (name, v) = None) → version_keys d name = [].
Proof.
  intros Ha Hnone. apply elem_of_nil_inv. intros key ([k row] & -> & Hin)%list_elem_of_fmap.
  apply elem_of_t_range in Hin as [[rest Hpre]%version_range_prefix Hrow]. simpl in *.
  destruct (version_row _ _ _ _ Ha Hrow) as (n & v & r & _ & _ & Hk & Hr & _).
  destruct (split_version_key_Some _ _ _ Hk) as (Hn & _ & digits & Heq & _ & Hd & _). subst k.
  assert (n = name) as ->; [|by rewrite Hnone in Hr].
  destruct (split_once nul name) as [[l r']|] eqn:E.
  - apply split_once_Some in E as [-> Hl]. rewrite <- append_assoc in Heq. simpl in Heq.
    apply split_sep_inj in Heq as [_ <-]; [|done..].
    rewrite all_bytes_append in Hd. simpl in Hd. by rewrite andb_false_r in Hd.
  - apply split_once_None in E. by apply split_sep_inj in Heq as [-> _].
Qed.

Lemma check_delete d a name :
  abstracts d a →
  let '(d', result) := apply_one (DeleteSecret name) d in
  check_per_command d' (DeleteSecret name) (snapshot_before d (DeleteSecret name)) result = Ok tt.
Proof.
  intros Ha. pose proof (apply_one_view (DeleteSecret name) _ _ Ha I) as Hv. cbn [spec_apply] in Hv. unfold_monad.
  destruct (vault_secrets a !! name) as [s|]; [|by rewrite Hv].
  destruct Hv as (d' & -> & Ha'). cbn [check_per_command snapshot_before is_ok negb]. oracle.
  - apply bool_decide_eq_true. eapply version_keys_gone; [done|]. intros v. simpl.
    apply map_lookup_filter_None. right. intros r _ Hne. by apply Hne.
  - apply each_ok, Forall_forall. intros [key row] Hin%t_iter_get. unfold check_removed. cbn [fst].
    case_bool_decide as Hafter; [done|].
    destruct (version_row _ _ _ _ Ha Hin) as (n & v & r & -> & Hrange & Hk & Hr & _).
    assert (n = name) as ->.
    { destruct (decide (n = name)) as [|Hne]; [done|]. destruct Hafter. apply elem_of_t_keys.
      destruct (version_cases _ _ n v (abs_versions _ _ Ha')) as [[_ Hnone]|(row' & r' & Hrow' & _)]; [lia| |by exists row'].
      simpl in Hnone. apply map_lookup_filter_None in Hnone as [?|Hf]; [congruence|]. by destruct (Hf r Hr). }
    destruct (fmt_padded_i32 v Hrange) as (_ & _ & Hp).
    assert (strip_prefix (version_lower name) (version_key name v) = Some (fmt_padded 10 v)) as ->.
    { apply strip_prefix_Some. unfold version_key, version_lower. by rewrite <- append_assoc. }
    cbn [expect_some ok_or mbind result_bind]. rewrite Hp. cbn [expect_some ok_or mbind result_bind].
    by apply assert_ok, bool_decide_eq_true.
Qed.

Lemma check_rewrap d a name v key_id wrapped at_ :
  abstracts d a → in_i32 v → let c := RewrapVersion name v key_id wrapped at_ in
  let '(d', result) := apply_one c d in check_per_command d' c (snapshot_before d c) result = Ok tt.
Proof.
  intros Ha Hv c. pose proof (apply_one_view c _ _ Ha Hv) as (d' & -> & Ha'). unfold c.
  cbn [check_per_command snapshot_before]. unfold read_version_row.
  assert (v ≤ i32_max)%Z as Hmax by (unfold_ints; lia).
  destruct (version_cases _ _ name v (abs_versions _ _ Ha) Hmax) as [[-> _]|(row & r & -> & Hr & Hd)]; [done|].
  destruct (version_cases _ _ name v (abs_versions _ _ Ha') Hmax) as [[_ Hnone]|(row' & r' & -> & Hr' & Hd')].
  { simpl in Hnone. rewrite lookup_alter_eq, Hr in Hnone. done. }
  simpl in Hr'. rewrite lookup_alter_eq, Hr in Hr'. simplify_eq/=. rewrite Hd, Hd'.
  cbn [expect map_err expect_some ok_or mbind result_bind].
  assert (v_ciphertext (rewrapped key_id wrapped at_ r) = v_ciphertext r
    ∧ v_nonce (rewrapped key_id wrapped at_ r) = v_nonce r ∧ v_aad (rewrapped key_id wrapped at_ r) = v_aad r
    ∧ v_version (rewrapped key_id wrapped at_ r) = v_version r) as (-> & -> & -> & ->).
  { unfold rewrapped. repeat case_match; done. }
  oracle; try by apply bool_decide_eq_true. apply Z.eqb_refl.
Qed.

Lemma check_command d a c :
  abstracts d a → sequenced c →
  let '(d', result) := apply_one c d in check_per_command d' c (snapshot_before d c) result = Ok tt.
Proof.
  intros Ha [Hc _]. destruct c; try (by destruct (apply_one _ d)).
  - by eapply check_create.
  - by eapply check_delete.
  - by eapply check_rewrap.
Qed.

(** ** The end state *)

(** A check of every record of a table, from what holds of the records. *)
Lemma each_record {K A} `{!OrdKey K, EK : EqDecision K, !Countable K, !Serde A} (t : table K) (m : gmap K A)
    (ok : K → A → bool) missing wrong :
  stores Some decode t m → (∀ k r, m !! k = Some r → ok k r = true) →
  each (λ row, record ← expect (decode (A := A) row.2) missing; assert (ok row.1 record) wrong) (t_iter t) = Ok tt.
Proof.
  intros Hs Hok. apply each_ok, Forall_forall. intros [k row] Hin%t_iter_get.
  destruct (stores_row _ _ _ _ _ _ Hs Hin) as (k' & r & [= <-] & Hr & Hd). cbn [fst snd]. rewrite Hd.
  cbn [expect map_err mbind result_bind]. by apply assert_ok, Hok.
Qed.

Lemma check_audit_contiguous rows : ∀ p, contiguous p rows.*1 → check_audit p rows = Ok tt.
Proof.
  induction rows as [|[k row] rows IH]; intros p; cbn [check_audit fmap list_fmap contiguous fst]; [done|].
  intros [-> H]. oracle; [apply Z.eqb_refl|by apply IH].
Qed.

Lemma check_end_state_ok n d a : abstracts d a → seq_ok n a → check_end_state d = Ok tt.
Proof.
  intros Ha Hok. unfold check_end_state, snapshot, dump_str, dump_bytes, dump_u64.
  cbn [secrets versions roles tokens_by_name lockouts tokens audit]. oracle.
  - pose (ok := λ (k : string) (r : SecretRecord), bool_decide (s_name r = k)).
    eapply (each_record _ _ ok); [apply Ha|].
    intros k r Hr. apply bool_decide_eq_true. by apply (so_secret _ _ Hok).
  - pose (ok := λ (k : string) (r : RoleRecord), bool_decide (r_name r = k)).
    eapply (each_record _ _ ok); [apply Ha|].
    intros k r Hr. apply bool_decide_eq_true. by apply (so_role _ _ Hok).
  - pose (ok := λ (k : bytes) (r : TokenRecord), bool_decide (t_fingerprint r = k)).
    eapply (each_record _ _ ok); [apply Ha|].
    intros k r Hr. apply bool_decide_eq_true. by apply (so_token _ _ Hok).
  - apply each_ok, Forall_forall. intros [name fp] Hin%t_iter_get. apply assert_ok.
    destruct (stores_row _ _ _ _ _ _ (abs_names _ _ Ha) Hin) as (k' & r & [= <-] & Hr & [= <-]).
    destruct (so_name _ _ Hok _ _ Hr) as [t Ht].
    destruct (stores_cases _ _ _ fp (abs_tokens _ _ Ha)) as [[_ ?]|(row & ? & Hrow & _)]; [congruence|].
    apply existsb_Exists, Exists_exists. exists (fp, row). split; [by apply t_iter_get|].
    by apply bool_decide_eq_true.
  - eapply (each_record _ _ (λ _ r, (1 <=? l_failures r)%Z)); [apply Ha|].
    intros k r Hr. apply Z.leb_le. by apply (so_lockout _ _ Hok) in Hr as [? _].
  - destruct (so_audit _ _ Hok) as (m & _ & Hm). apply check_audit_contiguous, (sorted_contiguous _ 0 m).
    + apply (StronglySorted_fmap _ (λ x y : Z * bytes, strict key_le x.1 y.1)); [|apply t_iter_sorted].
      intros x y [Hle Hnot]. simpl in *. lia.
    + intros k. change (k ∈ t_keys (db_audit d) ↔ (0 ≤ k < 0 + m)%Z). rewrite elem_of_t_keys, Z.add_0_l, <- Hm.
      by destruct (stores_cases _ _ _ k (abs_audit _ _ Ha)) as [[-> ->]|(? & ? & -> & -> & _)].
  - apply each_ok, Forall_forall. intros [key row] Hin%t_iter_get. unfold check_version_key. cbn [fst].
    destruct (version_row _ _ _ _ Ha Hin) as (name & v & r & -> & Hv & Hk & _).
    destruct (split_version_key_Some _ _ _ Hk) as (Hn & _).
    destruct (fmt_padded_i32 v Hv) as (_ & _ & Hp).
    assert (split_once nul (version_key name v) = Some (name, fmt_padded 10 v)) as -> by by apply split_once_Some.
    cbn [expect_some ok_or mbind result_bind].
    rewrite Hp. cbn [expect_some ok_or mbind result_bind]. by apply assert_ok, bool_decide_eq_true.
Qed.

(** ** Whole runs *)

Lemma run_primary_ok commands : ∀ d a n,
  abstracts d a → seq_ok n a → Forall sequenced commands → (0 ≤ n)%Z →
  (n + Z.of_nat (length commands) ≤ u32_max)%Z →
  ∃ d' codes a', run_primary commands d = Ok (d', codes) ∧ run_replica commands d = (d', codes)
    ∧ abstracts d' a' ∧ seq_ok (n + Z.of_nat (length commands)) a'.
Proof.
  induction commands as [|c commands IH]; intros d a n Ha Hok Hall Hn Hmax.
  { exists d, [], a. by rewrite Z.add_0_r. }
  apply Forall_cons in Hall as [Hc Hall]. cbn [length] in Hmax. rewrite Nat2Z.inj_succ in Hmax.
  pose proof (check_command d a c Ha Hc) as Hchk. pose proof (apply_one_view c d a Ha (proj1 Hc)) as Hv.
  cbn [run_primary run_replica]. destruct (apply_one c d) as [d1 r] eqn:Hap. rewrite Hchk.
  assert (∃ a1, abstracts d1 a1 ∧ seq_ok (n + 1) a1) as (a1 & Ha1 & Hok1).
  { destruct (spec_apply NODE_ID c a) as [a1|e] eqn:Hs.
    - destruct Hv as (d2 & [= -> ->] & ?). exists a1. split; [done|]. eapply seq_ok_step; [done|done|lia|done].
    - injection Hv as -> ->. exists a. split; [done|]. by apply seq_ok_later. }
  destruct (IH d1 a1 (n + 1)%Z Ha1 Hok1 Hall) as (d' & codes & a' & Hp & Hr & Ha' & Hok'); [lia..|].
  exists d', (result_code r :: codes), a'. cbn [mbind result_bind]. rewrite Hp, Hr. split; [done|]. split; [done|].
  split; [done|]. cbn [length]. by replace (n + Z.of_nat (S (length commands)))%Z
    with (n + 1 + Z.of_nat (length commands))%Z by lia.
Qed.

Lemma op_sequenced op : op_typed op → sequenced (to_command op).
Proof. destruct op; simpl; by split. Qed.

Lemma snapshot_eqb_refl s : snapshot_eqb s s = true.
Proof. unfold snapshot_eqb. by rewrite !bool_decide_eq_true_2. Qed.

(** C17. The fuzz target [apply_command_sequence] passes on every sequence of
    operations (of fewer than [2^32]): a second creation is a conflict that
    writes nothing, a deletion clears exactly the secret's own version rows, a
    re-wrap changes neither content nor number of a version, two replicas end
    with the same outcomes and rows, and at the end every row decodes and is
    filed under its own key, every indexed token exists, the audit log has no
    gap and every version key re-encodes to itself. *)
Theorem fuzz_apply_command_sequence ops :
  Forall op_typed ops → (Z.of_nat (length ops) ≤ u32_max)%Z → run ops = Ok tt.
Proof.
  intros Hty Hlen. unfold run.
  destruct (run_primary_ok (to_command <$> ops) empty_database empty_vault 0)
    as (d & codes & a & Hp & Hr & Ha & Hok);
    [apply abstracts_empty|apply seq_ok_empty| |done|by rewrite length_fmap|].
  { apply Forall_fmap. eapply Forall_impl; [exact Hty|]. apply op_sequenced. }
  rewrite Hp, Hr. cbn [mbind result_bind].
  apply then_ok; [by apply assert_ok, bool_decide_eq_true|].
  apply then_ok; [apply assert_ok, snapshot_eqb_refl|]. by eapply check_end_state_ok.
Qed.
End sequence.

(** ** The theorems on sample inputs *)

Section samples.
Import apply_command_sequence.

Definition sample_version (v : Z) : VersionInput := {|
  vi_version := v; vi_kms_key_id := "k"; vi_wrapped_dek := as_bytes "dek"; vi_nonce := as_bytes "nonce";
  vi_ciphertext := as_bytes "ct"; vi_aad := as_bytes "aad"; vi_created_at := 5; vi_expires_at := None;
  vi_wrapped_rotation_at := None |}.

Definition sample_secret : SecretInput := {|
  si_automatic := true; si_userpass := false; si_description := None; si_rotation_interval_secs := Some 60%Z;
  si_grace_secs := 10; si_current_version := 1; si_next_rotation_at := Some 65%Z; si_created_at := 5 |}.

Definition sample_ops : list Op :=
  [ OpCreateSecret (Pool 7) sample_secret (sample_version 1);
    OpCreateSecret (Raw "s1") sample_secret (sample_version (-3));
    OpPutVersion (Pool 1) 1 (sample_version 2) (Some 20%Z) None None None None 6;
    OpRewrapVersion (Pool 1) 2 "k2" (as_bytes "dek2") 9;
    OpAddToken (Pool 0) None (as_bytes "fp") 7;
    OpRecordAuthFailure "10.0.0.1" 8 3 60 900;
    OpAppendAudit 8 None None "get" (Some (Pool 1)) "ok";
    OpAppendAudit 9 None None "delete" (Some (Pool 1)) "ok";
    OpDeleteSecret (Pool 1) ].

Lemma fuzz_apply_command_sequence_witness : run sample_ops = Ok tt.
Proof.
  apply (fuzz_apply_command_sequence sample_ops); [|by vm_compute].
  repeat constructor; simpl; unfold_ints; lia.
Defined.
End samples.

(** ** backup_decode and store_decode *)

Lemma backup_decode_holds `{SB : !Serde BackupData, SBL : !SerdeLaws BackupData} data :
  backup_decode.run data = Ok tt.
Proof.
  unfold backup_decode.run. destruct (from_slice data) as [backup|]; [|done].
  destruct (serde_roundtrip backup) as (bs & -> & Hd). simpl. by rewrite Hd.
Qed.

Lemma store_decode_holds `{SC : !Serde Command, SCL : !SerdeLaws Command} data : store_decode.run data = Ok tt.
Proof.
  unfold store_decode.run, encode, decode. destruct (from_slice data) as [command|]; [|done]. simpl.
  destruct (serde_roundtrip command) as (bs & -> & Hd). simpl. by rewrite Hd.
Qed.
