(* ===== verification/FuzzRaftThms.v ===== *)
(** * The fuzz targets hold on every input: the Raft log and snapshots

    [raft_log_normalize] passes on every log, applied and purged index, and
    [snapshot_install] on every snapshot and every file it is installed on. *)

From S2P Require Import Prelude RustStr CoreTypes Redb Keys Model Serial Apply Spec Samples ApplyFacts.
From S2P Require Import Refine Engine Invariant StoreLaws Replicas RaftStore RaftSamples RaftThms.
From S2P Require Import Platform Crypto IpAddr PgApply ApiTypes Guards Service Manage Calls Config.
From S2P Require Import FuzzCore FuzzCoreThms FuzzStore FuzzStoreThms.

Section normalize.
Context `{RE : !Redb, RL : !RedbLaws, SE : !StoreSerde, SL : !StoreSerdeLaws}.
Context `{RT : !RaftTypes, RS : !RaftSerde, RSL : !RaftSerdeLaws, RD : !RaftSeeds}.
Implicit Types (d : Database).
Import raft_log_normalize.

(** The numbers of an input are [u64]s. *)
Definition input_typed (input : Input) : Prop :=
  Forall (λ entry, in_u64 entry.1) (entries input)
  ∧ (∀ pair, applied input = Some pair → in_u64 pair.1)
  ∧ (∀ pair, purged input = Some pair → in_u64 pair.1).

(** ** Seeding *)

(** A log row holds the blank entry its key names. *)
Definition seeded (t : table Z) : Prop :=
  ∀ k bs, t_get t k = Some bs →
    in_u64 k ∧ ∃ term, from_slice bs = Some {| log_id := seed_log_id k term; payload := Blank |}.

Lemma seed_log_ok rows : ∀ d,
  Forall (λ entry, in_u64 entry.1) rows → seeded (db_log d) →
  ∃ d', seed_log rows d = Ok d' ∧ db_meta d' = db_meta d ∧ seeded (db_log d').
Proof.
  induction rows as [|[k term] rows IH]; intros d Hty Hd; cbn [seed_log]; [by exists d|].
  apply Forall_cons in Hty as [Hk Hty].
  destruct (serde_roundtrip {| log_id := seed_log_id k term; payload := Blank |}) as (bs & Hbs & Hf).
  rewrite Hbs. cbn [expect_some ok_or mbind result_bind].
  destruct (IH (put_table LOG (t_insert k bs (db_log d)) d)) as (d' & -> & Hm & Hs); [done| |by exists d'].
  intros k' row. simpl. rewrite t_get_insert. case_decide; [intros [= <-]; subst; eauto|apply Hd].
Qed.

Definition id_of (pair : option (Z * Z)) : option LogId := (λ '(i, term), seed_log_id i term) <$> pair.

(** A metadata row holds the id, or there is no row. *)
Definition meta_holds (key : string) (t : table string) (id : option LogId) : Prop :=
  match id with
  | Some i => ∃ bs, to_vec i = Some bs ∧ t_get t key = Some bs
  | None => t_get t key = None
  end.

Lemma meta_holds_value key t id : meta_holds key t id → meta_value key t = Ok id.
Proof.
  destruct id as [i|]; simpl; [|apply meta_value_absent]. intros (bs & ? & ?). by eapply meta_value_written.
Qed.

Lemma seed_meta_ok key pair d :
  t_get (db_meta d) key = None →
  ∃ d', write_meta key pair d = Ok d' ∧ db_log d' = db_log d ∧ meta_holds key (db_meta d') (id_of pair)
    ∧ ∀ key', key' ≠ key → t_get (db_meta d') key' = t_get (db_meta d) key'.
Proof.
  intros Hnone. destruct pair as [[i term]|]; cbn [write_meta]; [|by exists d].
  destruct (serde_roundtrip (seed_log_id i term)) as (bs & Hbs & _). rewrite Hbs.
  cbn [expect_some ok_or mbind result_bind]. eexists. split; [reflexivity|]. split; [done|]. split.
  - exists bs. split; [done|]. apply t_get_insert_eq.
  - intros key' Hne. by apply t_get_insert_ne.
Qed.

(** ** The repaired file *)

(** A metadata row of the purged id after the repair. *)
Lemma normalized_purged d applied purged bs :
  match applied with Some i => to_vec i = Some bs | None => True end →
  meta_holds META_PURGED (db_meta d) purged →
  meta_holds META_PURGED (db_meta (normalized applied purged bs d))
    (if advance_purged applied purged then applied else purged).
Proof.
  intros Hbs Hp. unfold normalized. simpl. destruct (advance_purged applied purged) eqn:Hadv; [|done].
  destruct applied as [i|]; [|done]. exists bs. split; [done|]. apply t_get_insert_eq.
Qed.

Lemma read_purged_ok d id : meta_holds META_PURGED (db_meta d) id → read_purged d = Ok id.
Proof.
  unfold read_purged. destruct id as [i|]; simpl; [|by intros ->]. intros (bs & Hbs & ->).
  destruct (serde_roundtrip i) as (bs' & Hbs' & Hf). rewrite Hbs in Hbs'. simplify_eq. by rewrite Hf.
Qed.

Lemma check_contiguous_ok keys : ∀ p, contiguous p keys → check_contiguous p keys = Ok tt.
Proof.
  induction keys as [|k keys IH]; intros p; cbn [check_contiguous contiguous]; [done|].
  intros [-> H]. apply then_ok; [apply assert_ok, Z.eqb_refl|by apply IH].
Qed.

Lemma log_indexes_spec d start n :
  (∀ k, is_Some (t_get (db_log d) k) ↔ (start ≤ k < start + n)%Z) →
  contiguous start (log_indexes d) ∧ ∀ k, k ∈ log_indexes d ↔ (start ≤ k < start + n)%Z.
Proof.
  intros Hk. assert (∀ k, k ∈ log_indexes d ↔ (start ≤ k < start + n)%Z) as Hin.
  { intros k. rewrite <- Hk. apply elem_of_t_keys. }
  split; [|done]. apply (sorted_contiguous _ start n); [apply log_keys_sorted|done].
Qed.

(** What [get_log_state] says of a log that starts just above the purged id. *)
Lemma get_log_state_ok d id start n :
  meta_holds META_PURGED (db_meta d) id → seeded (db_log d) →
  (∀ k, is_Some (t_get (db_log d) k) ↔ (start ≤ k < start + n)%Z) →
  match id with Some p => sat_u64 (index p + 1) | None => 0%Z end = start →
  ∃ last_id, get_log_state d = (d, Ok {| last_purged_log_id := id; last_log_id := last_id |})
    ∧ match last (log_indexes d) with
      | Some k => index <$> last_id = Some k
      | None => last_id = id
      end.
Proof.
  intros Hp Hs Hk Hstart. unfold get_log_state. unfold mbind, ste_bind. rewrite read_meta_value.
  rewrite (meta_holds_value _ _ _ Hp). cbn [iter]. unfold read_state.
  change (t_iter (open_table LOG d)) with (t_iter (db_log d)). rewrite Hstart.
  destruct (log_indexes_spec d start n Hk) as [Hcont _]. unfold log_indexes in *. rewrite fmap_last.
  destruct (t_iter (db_log d)) as [|[k0 v0] rows] eqn:Hrows; [by exists id|].
  cbn [fmap list_fmap contiguous fst] in Hcont. destruct Hcont as [-> _]. cbn [head fmap option_fmap option_map fst].
  rewrite Z.ltb_irrefl. unfold mret, ste_ret.
  destruct (last ((start, v0) :: rows)) as [[k v]|] eqn:Hl; [|by apply last_None in Hl].
  pose proof (last_elem_of _ _ Hl) as Hin. rewrite <- Hrows in Hin. apply t_iter_get in Hin.
  destruct (Hs _ _ Hin) as (_ & term & Hf). unfold lift_result, ok_or. rewrite Hf. simpl. by eexists.
Qed.

(** ** The target *)

(** The seeded file, its log and its metadata. *)
Lemma seeded_file input :
  input_typed input →
  ∃ d1 d2 d3, seed_log (entries input) empty_database = Ok d1
    ∧ write_meta META_APPLIED (applied input) d1 = Ok d2 ∧ write_meta META_PURGED (purged input) d2 = Ok d3
    ∧ seeded (db_log d3) ∧ meta_holds META_APPLIED (db_meta d3) (id_of (applied input))
    ∧ meta_holds META_PURGED (db_meta d3) (id_of (purged input)).
Proof.
  intros (Hty & _). destruct (seed_log_ok (entries input) empty_database Hty) as (d1 & H1 & Hm1 & Hs1).
  { intros k bs. simpl. by rewrite t_get_empty. }
  destruct (seed_meta_ok META_APPLIED (applied input) d1) as (d2 & H2 & Hl2 & Hm2 & Ho2);
    [rewrite Hm1; apply t_get_empty|].
  destruct (seed_meta_ok META_PURGED (purged input) d2) as (d3 & H3 & Hl3 & Hm3 & Ho3);
    [rewrite Ho2, Hm1 by done; apply t_get_empty|].
  exists d1, d2, d3. split_and!; try done; [by rewrite Hl3, Hl2|].
  unfold meta_holds in *. by rewrite Ho3.
Qed.

(** The floor of the repair is an index below the greatest, and the purged id
    stands at the floor afterwards. *)
Lemma seeded_floor input :
  let floor := normalize_floor (id_of (applied input)) (id_of (purged input)) in
  let id := if advance_purged (id_of (applied input)) (id_of (purged input))
            then id_of (applied input) else id_of (purged input) in
  input_typed input → extreme (applied input) || extreme (purged input) = false →
  purged_past_applied input = false →
  match floor with Some f => (0 ≤ f < u64_max)%Z | None => True end
  ∧ index <$> id = floor
  ∧ floor = match applied input with Some (i, _) => Some i | None => fst <$> purged input end.
Proof.
  intros floor id (_ & Ha & Hp) He Hpast. unfold floor, id, purged_past_applied, extreme in *.
  destruct (applied input) as [[i ti]|], (purged input) as [[j tj]|]; simpl in *;
    rewrite ?orb_false_iff, ?Z.eqb_neq, ?Z.ltb_ge in *;
    try specialize (Ha _ eq_refl); try specialize (Hp _ eq_refl); simpl in *.
  - destruct (Z.ltb_spec j i); simpl; split_and!; try done; unfold_ints; try lia. f_equal. lia.
  - split_and!; try done; unfold_ints; lia.
  - split_and!; try done; unfold_ints; lia.
  - done.
Qed.

(** The repaired file: what the target finds in it. *)
Lemma repaired_file input :
  let floor := match applied input with Some (i, _) => Some i | None => fst <$> purged input end in
  let start := match floor with Some i => (i + 1)%Z | None => 0%Z end in
  input_typed input → extreme (applied input) || extreme (purged input) = false →
  purged_past_applied input = false →
  ∃ d1 d2 d d' n id, seed_log (entries input) empty_database = Ok d1
    ∧ write_meta META_APPLIED (applied input) d1 = Ok d2 ∧ write_meta META_PURGED (purged input) d2 = Ok d
    ∧ normalize_raft_log d = (d', Ok tt) ∧ normalize_raft_log d' = (d', Ok tt)
    ∧ meta_holds META_PURGED (db_meta d') id ∧ seeded (db_log d')
    ∧ (∀ k, is_Some (t_get (db_log d') k) ↔ (start ≤ k < start + n)%Z)
    ∧ match id with Some p => (index p + 1)%Z | None => 0%Z end = start ∧ (start ≤ u64_max)%Z.
Proof.
  intros floor start Hty He Hpast. destruct (seeded_file input Hty) as (d1 & d2 & d & H1 & H2 & H3 & Hs & Hap & Hpu).
  destruct (seeded_floor input Hty He Hpast) as (Hf & Hid & Hfloor). fold floor in Hfloor.
  pose proof (meta_holds_value _ _ _ Hap) as Hav. pose proof (meta_holds_value _ _ _ Hpu) as Hpv.
  destruct (normalize_run d _ _ Hav Hpv) as (bs & Hbs & Hrun).
  destruct (normalized_log d (id_of (applied input)) (id_of (purged input)) bs) as (n & _ & Hlog & Hkept & _ & Hdone);
    [intros k [row Hrow]; by destruct (Hs _ _ Hrow) as [? _]|done|].
  pose proof (normalized_again d _ _ bs Hav Hpv Hbs (Hdone _ eq_refl)) as Hagain.
  rewrite Hfloor in Hlog, Hkept, Hid, Hf. unfold start.
  assert (log_start floor = start) as Hst.
  { unfold log_start, sat_u64, start. clearbody floor. destruct floor; [|done]. unfold_ints. lia. }
  rewrite Hst in Hlog, Hkept. exists d1, d2, d, (normalized (id_of (applied input)) (id_of (purged input)) bs d), n.
  eexists. split_and!; try done.
  - by apply normalized_purged.
  - intros k row. rewrite Hlog. case_decide; [apply Hs|done].
  - intros k. rewrite Hlog. case_decide as Hc; [split; [done|]; by intros; apply Hkept|by split; [intros []|]].
  - fold start. unfold start. rewrite <- Hid. by destruct (if advance_purged _ _ then _ else _).
  - fold start. rewrite <- Hst. unfold log_start, sat_u64. clearbody floor. destruct floor; unfold_ints; lia.
Qed.

Lemma check_state_ok d id start n last_id :
  (∀ k, is_Some (t_get (db_log d) k) ↔ (start ≤ k < start + n)%Z) →
  match id with Some p => (index p + 1)%Z | None => 0%Z end = start →
  match last (log_indexes d) with Some k => index <$> last_id = Some k | None => last_id = id end →
  check_state (log_indexes d) {| last_purged_log_id := id; last_log_id := last_id |} = Ok tt.
Proof.
  intros Hk Hid Hl. destruct (log_indexes_spec d start n Hk) as [_ Hin].
  unfold check_state. cbn [last_log_id last_purged_log_id]. destruct (last (log_indexes d)) as [k|] eqn:Hlast.
  - apply last_elem_of, Hin in Hlast. destruct last_id as [l|]; simplify_eq/=. oracle.
    + destruct id as [p|]; [|done]. apply assert_ok, Z.leb_le. lia.
    + by apply bool_decide_eq_true.
  - apply last_None in Hlast. subst last_id. oracle; [|by rewrite Hlast in *].
    destruct id as [p|]; [|done]. apply assert_ok, Z.leb_refl.
Qed.

(** The fuzz target [raft_log_normalize] passes on every log and every
    applied and purged index it accepts: the repair never fails, what remains is
    contiguous from just above the applied index, lies above the purged id, is
    left alone by a second repair, and [get_log_state] reports the last entry of
    it and a purged id that is not above it. *)
Theorem fuzz_raft_log_normalize input : input_typed input → run input = Ok tt.
Proof.
  intros Hty. unfold run. destruct (extreme (applied input) || extreme (purged input)) eqn:He; [done|].
  destruct (purged_past_applied input) eqn:Hpast; [done|].
  destruct (repaired_file input Hty He Hpast)
    as (d1 & d2 & d & d' & n & id & H1 & H2 & H3 & Hrun & Hagain & Hpu & Hs & Hk & Hid & Hmax).
  rewrite H1. cbn [mbind result_bind]. rewrite H2. cbn [mbind result_bind]. rewrite H3. cbn [mbind result_bind].
  rewrite Hrun. cbn [expect map_err mbind result_bind].
  set (start := match (match applied input with Some _ => _ | None => _ end) with Some _ => _ | None => _ end) in *.
  destruct (log_indexes_spec d' start n Hk) as [Hcont Hin]. rewrite (check_contiguous_ok _ _ Hcont).
  cbn [mbind result_bind]. rewrite (read_purged_ok _ _ Hpu). cbn [mbind result_bind]. rewrite Hagain.
  apply then_ok.
  { destruct id as [p|]; [|done]. apply each_ok, Forall_forall. intros k Hk'%Hin. apply assert_ok, Z.ltb_lt. lia. }
  cbn [expect map_err mbind result_bind]. apply then_ok; [by apply assert_ok, bool_decide_eq_true|].
  destruct (get_log_state_ok d' id start n Hpu Hs Hk) as (last_id & -> & Hlast).
  { destruct id as [p|]; [|done]. unfold sat_u64. lia. }
  cbn [snd expect map_err mbind result_bind]. by eapply check_state_ok.
Qed.
End normalize.

(** ** Snapshots *)

Section snapshots.
Context `{RE : !Redb, RL : !RedbLaws, SE : !StoreSerde, SL : !StoreSerdeLaws}.
Context `{RT : !RaftTypes, RS : !RaftSerde, RSL : !RaftSerdeLaws, RD : !RaftSeeds, RDL : !RaftSeedLaws}.
Implicit Types (d : Database).
Import snapshot_install.

(** Opening a file never fails. *)
Lemma from_database_ok d : ∃ d', RedbStore.from_database d = (d', Ok tt).
Proof.
  unfold RedbStore.from_database, RedbStore.seed_admin_role, encode_row. unfold_monad. simpl.
  destruct (t_get (db_roles d) "admin"); [by eexists|].
  destruct (encode_ok RedbStore.admin_role) as (bs & -> & _). by eexists.
Qed.

Lemma installed_data m bs d d' :
  install_snapshot m bs d = (d', Ok tt) →
  ∃ data, from_slice bs = Some data ∧ snapshot_ok data (meta_last_log_id m).
Proof.
  unfold install_snapshot. unfold_monad. destruct (from_slice bs) as [data|]; [|done]. intros H. exists data.
  split; [done|]. apply check_snapshot_spec. destruct (check_snapshot_meta m) as [[]|]; [|done].
  split; [done|]. by destruct (check_snapshot_rows data) as [[]|].
Qed.

Lemma acceptable_ok input :
  (0 ≤ (input_last_log_id input).1 ≤ u32_max)%Z → rows_are_acceptable input = true →
  snapshot_ok (well_formed input) (last_log_id input).
Proof.
  unfold rows_are_acceptable, snapshot_ok, last_log_id. rewrite andb_true_iff, !forallb_Forall, !Forall_forall.
  destruct (input_last_log_id input) as [i term]. simpl. intros Hi [Hs Hv]. split; [done|]. split.
  - intros row Hin. specialize (Hv row Hin). unfold backup_restore_roundtrip.version_row_acceptable in Hv.
    destruct (split_version_key row.1) as [[name v]|]; [|done]. apply andb_true_iff in Hv as [? ?%Z.leb_le]. eauto.
  - unfold MAX_PLAUSIBLE_LOG_INDEX. unfold_ints. lia.
Qed.

(** [d'] is [d] with the snapshot [data] in place of its replicated rows. *)
Definition holds_snapshot (m : SnapshotMeta) (data : SnapshotData) (d d' : Database) : Prop :=
  t_iter (db_secrets d') = collapse (sd_secrets data) ∧ t_iter (db_versions d') = collapse (sd_versions data)
  ∧ t_iter (db_roles d') = collapse (sd_roles data) ∧ t_iter (db_tokens d') = collapse (sd_tokens data)
  ∧ t_iter (db_tokens_by_name d') = collapse (sd_tokens_by_name data)
  ∧ t_iter (db_kms_rewrap d') = collapse (sd_kms_rewrap data)
  ∧ applied_state d' = (d', Ok (meta_last_log_id m, meta_last_membership m))
  ∧ (∀ k, t_get (db_log d') k = match meta_last_log_id m with
       | Some l => if (k <=? index l)%Z then None else t_get (db_log d) k
       | None => t_get (db_log d) k
       end)
  ∧ db_audit d' = db_audit d ∧ db_lockouts d' = db_lockouts d.

Lemma install_cases m bs d :
  match install_snapshot m bs d with
  | (d', Ok _) => ∃ data, from_slice bs = Some data ∧ snapshot_ok data (meta_last_log_id m) ∧ holds_snapshot m data d d'
  | (d', Err _) => d' = d ∧ ∀ data, from_slice bs = Some data → ¬ snapshot_ok data (meta_last_log_id m)
  end.
Proof.
  destruct (install_snapshot m bs d) as [d' [[]|e]] eqn:Hins.
  - destruct (installed_data _ _ _ _ Hins) as (data & Hdata & Hok).
    destruct (install_run data m bs d Hdata Hok) as (d2 & Hrun & Hs & Hv & Hr & Ht & Hn & Hk & Hp & Hl & Ha & Hlo).
    rewrite Hins in Hrun. simplify_eq. exists data. split; [done|]. split; [done|].
    unfold holds_snapshot. rewrite applied_state_progress, Hp, Hs, Hv, Hr, Ht, Hn, Hk, !t_iter_replaced. done.
  - split.
    + revert Hins. unfold install_snapshot, transaction. unfold_monad. repeat (case_match; simplify_eq/=); congruence.
    + intros data Hdata Hok. destruct (install_run data m bs d Hdata Hok) as (d2 & Hrun & _). congruence.
Qed.

(** C18. Installing a snapshot, whatever bytes a peer sends and whatever the
    store holds: bytes that do not parse, or a snapshot with a secret name, a
    version key or a log index that no node would write, are refused and change
    nothing; every other snapshot installs, and then the replicated tables hold
    exactly its rows (the last of those with the same key), the applied index
    and the membership are those of its metadata, exactly the log entries it
    covers are gone, and the audit log and the lockouts are as before.  And the
    fuzz target [snapshot_install] passes on every input. *)
Theorem fuzz_snapshot_install input :
  (∀ m bs d,
     match install_snapshot m bs d with
     | (d', Ok _) => ∃ data, from_slice bs = Some data ∧ snapshot_ok data (meta_last_log_id m)
         ∧ holds_snapshot m data d d'
     | (d', Err _) => d' = d ∧ ∀ data, from_slice bs = Some data → ¬ snapshot_ok data (meta_last_log_id m)
     end)
  ∧ ((0 ≤ (input_last_log_id input).1 ≤ u32_max)%Z → run input = Ok tt).
Proof.
  split; [apply install_cases|].
  intros Hi. unfold run. destruct (from_database_ok empty_database) as [d0 ->].
  cbn [expect map_err mbind result_bind]. cbv zeta. set (raw := match raw_instead input with Some _ => _ | None => _ end).
  pose proof (install_cases (meta input) raw (seed input d0)) as Hins.
  destruct (install_snapshot (meta input) raw (seed input d0)) as [d [[]|e]]; cbn [is_ok negb].
  - destruct Hins as (data & Hdata & Hok & Hs & Hv & Hr & Ht & Hn & Hk & Hp & Hl & _).
    rewrite Hp. cbn [snd expect map_err mbind result_bind].
    apply then_ok; [by apply assert_ok, bool_decide_eq_true|]. apply then_ok; [by apply assert_ok, bool_decide_eq_true|].
    case_bool_decide as Hraw; [done|]. apply eq_None_not_Some in Hraw. unfold raw in Hdata. rewrite Hraw in Hdata.
    rewrite snapshot_json_parses in Hdata. simplify_eq. unfold check_rows, dump_str, dump_tokens. simpl open_table.
    rewrite Hs, Hv, Hr, Ht, Hn, Hk. oracle; try by apply bool_decide_eq_true.
    change (meta_last_log_id (meta input)) with (last_log_id input) in Hl. destruct (last_log_id input) as [l|]; [|done].
    apply each_ok, Forall_forall. intros k Hin. apply assert_ok, Z.ltb_lt.
    apply elem_of_t_keys in Hin. rewrite Hl in Hin. destruct (Z.leb_spec k (index l)); [by destruct Hin|lia].
  - apply assert_ok, orb_true_iff. destruct (raw_instead input) as [bs|] eqn:Hraw; [by left|right].
    apply negb_true_iff, not_true_iff_false. intros Hacc. destruct Hins as [_ Hno].
    apply (Hno (well_formed input)); [apply snapshot_json_parses|by apply acceptable_ok].
Qed.
End snapshots.

(** ** The theorems on sample inputs *)

#[export] Instance sample_seeds : RaftSeeds := {|
  leader_of_term term := "T" +:+ int_to_string term +:+ "-N1" : LeaderId;
  two_voters := [1; 2]%Z : Membership;
  leader_eq_dec := (_ : EqDecision string) : EqDecision LeaderId;
  membership_eq_dec := (_ : EqDecision (list Z)) : EqDecision Membership;
  snapshot_json data := default [] (to_vec data) |}.

#[export] Instance sample_seed_laws : RaftSeedLaws.
Proof.
  intros data. destruct (serde_roundtrip data) as (bs & Hbs & Hf). unfold snapshot_json, sample_seeds.
  by rewrite Hbs.
Qed.

(** A gap, an entry at the applied index and one at the greatest index. *)
Definition sample_log : raft_log_normalize.Input := {|
  raft_log_normalize.entries := [(3, 1); (4, 1); (5, 2); (7, 2); (18446744073709551615, 9)]%Z;
  raft_log_normalize.applied := Some (3, 1)%Z;
  raft_log_normalize.purged := Some (1, 1)%Z |}.

Lemma fuzz_raft_log_normalize_witness : raft_log_normalize.run sample_log = Ok tt.
Proof.
  apply (fuzz_raft_log_normalize sample_log). split; [repeat constructor; simpl; unfold_ints; lia|].
  split; intros pair [= <-]; simpl; unfold_ints; lia.
Defined.

Definition sample_snapshot : snapshot_install.Input := {|
  snapshot_install.existing_secrets := [("old", as_bytes "row")];
  snapshot_install.existing_log := [1; 2; 9]%Z;
  snapshot_install.secrets := [("b", as_bytes "1"); ("a", as_bytes "2"); ("b", as_bytes "3")];
  snapshot_install.versions := [(version_key "b" 1, as_bytes "v")];
  snapshot_install.roles := [];
  snapshot_install.tokens := [(as_bytes "fp", as_bytes "t")];
  snapshot_install.tokens_by_name := [];
  snapshot_install.kms_rewrap := [];
  snapshot_install.input_last_log_id := (5, 2)%Z;
  snapshot_install.raw_instead := None |}.

(** The target on the sample, and a snapshot with a version 0. *)
Lemma fuzz_snapshot_install_witness :
  snapshot_install.run sample_snapshot = Ok tt
  ∧ ∀ d, (install_snapshot (snapshot_install.meta sample_snapshot) (snapshot_json
      {| sd_secrets := []; sd_versions := [(version_key "b" 0, as_bytes "v")]; sd_roles := []; sd_tokens := [];
         sd_tokens_by_name := []; sd_kms_rewrap := []; sd_last_applied := None;
         sd_membership := snapshot_install.membership |}) d).1 = d.
Proof.
  destruct (fuzz_snapshot_install sample_snapshot) as [Hcases Hrun].
  split; [apply Hrun; simpl; unfold_ints; lia|]. intros d.
  set (data := Build_SnapshotData _ _ _ _ _ _ _ _). specialize (Hcases (snapshot_install.meta sample_snapshot) (snapshot_json data) d).
  destruct (install_snapshot _ _ d) as [d' [[]|e]]; [|apply Hcases].
  destruct Hcases as (data' & Hdata & (_ & Hv & _) & _). rewrite snapshot_json_parses in Hdata. simplify_eq.
  destruct (Hv (version_key "b" 0, as_bytes "v")) as (name & v & Hkey & _ & Hle); [by left|].
  vm_compute in Hkey. simplify_eq. lia.
Defined.
