(* ===== verification/TestsCore.v ===== *)
(** * The unit tests of the core crate

    The tests of [hyperion-vault-core], those in its modules and those under
    [tests/], as suites of named verdicts, run on the model: what the authors
    expect of the code holds of the definitions the theorems are about.  Left
    out are the tests of the random source and of base64, which are parameters.
    [TestsStore] and [TestsApi] do the same for the other crate. *)

From S2P Require Import Prelude RustStr CoreTypes Redb Keys Model Engine Platform Crypto IpAddr.
From S2P Require Import PgApply ApiTypes Guards Service Manage Calls Config FuzzCore Kms Cache.
From S2P Require Import ServiceSamples.
Import Node.

(** ** Suites *)

(** A test is its name and what running it gives. *)
Notation suite := (list (string * verdict unit)).

(** The tests that fail. *)
Definition failures (tests : suite) : list string :=
  omap (λ '(name, v), match v with Ok _ => None | Err _ => Some name end) tests.

(** [assert!] without a message, [assert_eq!] and [assert_ne!] *)
Definition holds_true (b : bool) : verdict unit := assert b "assertion failed".
Definition assert_eq {A} `{EqDecision A} (left right : A) : verdict unit :=
  assert (bool_decide (left = right)) "left == right".
Definition assert_ne {A} `{EqDecision A} (left right : A) : verdict unit :=
  assert (bool_decide (left ≠ right)) "left != right".
Definition is_err {E A} (r : result E A) : bool := negb (is_ok r).

(** All of a list of assertions, in order. *)
Definition all (checks : list (verdict unit)) : verdict unit := each id checks.

(** ** rbac.rs *)

Definition rbac_unit_tests : suite :=
  [ ("glob_prefix_matches_under_path", all
      [ holds_true (path_matches "stripe/*" "stripe/secret-key");
        holds_true (negb (path_matches "stripe/*" "db/root")) ]);
    ("exact_pattern_requires_exact_name", all
      [ holds_true (path_matches "db/pw" "db/pw");
        holds_true (negb (path_matches "db/pw" "db/pw2")) ]);
    ("lone_star_matches_everything", holds_true (path_matches "*" "anything/at/all"));
    ("action_wildcard_matches_any_action", all
      [ holds_true (action_matches "*" "create");
        holds_true (action_matches "create" "create");
        holds_true (negb (action_matches "create" "delete")) ]);
    ("admin_bypasses_all_rules", holds_true (authorize true [] "delete" "anything"));
    ("payment_role_scoped_to_stripe",
      let r := [("create", "stripe/*"); ("rotate", "stripe/*")] in all
      [ holds_true (authorize false r "create" "stripe/secret-key");
        holds_true (authorize false r "rotate" "stripe/webhook");
        holds_true (negb (authorize false r "delete" "stripe/secret-key"));
        holds_true (negb (authorize false r "create" "db/root")) ]);
    ("visibility_follows_patterns",
      let r := [("create", "stripe/*")] in all
      [ holds_true (visible false r "stripe/a");
        holds_true (negb (visible false r "db/a"));
        holds_true (visible true [] "db/a") ]);
    ("action_validation", all
      [ holds_true (is_valid_action "create");
        holds_true (is_valid_action "*");
        holds_true (negb (is_valid_action "read"));
        holds_true (negb (is_valid_action "")) ]) ].

Definition rbac_security_tests : suite :=
  [ ("deny_by_default_for_non_admin_without_rules",
      each (λ action, holds_true (negb (authorize false [] action "anything"))) ACTIONS);
    ("admin_is_allowed_every_action_and_path",
      each (λ action, holds_true (authorize true [] action "db/root")) ACTIONS);
    ("exact_rule_matches_only_that_name_and_action",
      let r := [("update", "db/root")] in all
      [ holds_true (authorize false r "update" "db/root");
        holds_true (negb (authorize false r "update" "db/root2"));
        holds_true (negb (authorize false r "delete" "db/root")) ]);
    ("prefix_glob_matches_subpaths_not_bare_prefix",
      let r := [("*", "stripe/*")] in all
      [ holds_true (authorize false r "create" "stripe/key");
        holds_true (authorize false r "rotate" "stripe/sub/key");
        holds_true (negb (authorize false r "create" "stripe"));
        holds_true (negb (authorize false r "create" "db/stripe")) ]);
    ("action_must_match_the_rule",
      let r := [("create", "stripe/*")] in all
      [ holds_true (authorize false r "create" "stripe/key");
        holds_true (negb (authorize false r "delete" "stripe/key"));
        holds_true (negb (authorize false r "rotate" "stripe/key")) ]);
    ("wildcard_action_grants_all_actions_on_path",
      let r := [("*", "svc/*")] in
      each (λ action, holds_true (authorize false r action "svc/token")) ACTIONS);
    ("wildcard_path_grants_one_action_everywhere",
      let r := [("rotate", "*")] in all
      [ holds_true (authorize false r "rotate" "anything/here");
        holds_true (negb (authorize false r "create" "anything/here")) ]);
    ("multiple_rules_are_a_union",
      let r := [("create", "stripe/*"); ("delete", "db/legacy")] in all
      [ holds_true (authorize false r "create" "stripe/x");
        holds_true (authorize false r "delete" "db/legacy");
        holds_true (negb (authorize false r "delete" "stripe/x"));
        holds_true (negb (authorize false r "create" "db/legacy")) ]);
    ("payment_role_is_confined_to_stripe",
      let r := [("*", "stripe/*")] in all
      [ holds_true (authorize false r "create" "stripe/secret-key");
        holds_true (authorize false r "rotate" "stripe/webhook");
        holds_true (authorize false r "delete" "stripe/old");
        holds_true (negb (authorize false r "create" "db/root"));
        holds_true (negb (authorize false r "rotate" "payments/other")) ]);
    ("visibility_ignores_action_and_follows_paths",
      let r := [("create", "stripe/*")] in all
      [ holds_true (visible false r "stripe/a");
        holds_true (negb (visible false r "db/a"));
        holds_true (visible true [] "db/a");
        holds_true (negb (visible false [] "stripe/a")) ]);
    ("patterns_are_case_sensitive",
      let r := [("create", "Stripe/*")] in all
      [ holds_true (authorize false r "create" "Stripe/key");
        holds_true (negb (authorize false r "create" "stripe/key")) ]);
    ("only_known_actions_are_valid", all
      [ each (λ action, holds_true (is_valid_action action)) ["create"; "update"; "delete"; "rotate"; "*"];
        each (λ action, holds_true (negb (is_valid_action action))) ["read"; "list"; "admin"; ""; "Create"] ]) ].

(** ** types.rs *)

(** ["x\u{0}y"] and ["x\u{1}y"] *)
Definition with_separator (c : ascii) : string := String "x" (String c "y").

Definition types_tests : suite :=
  [ ("secret_format_roundtrips_through_str",
      each (λ f, assert_eq (SecretFormat.parse (SecretFormat.as_str f)) (Some f)) [Opaque; Userpass]);
    ("secret_name_rules_reject_separator_bytes", all
      [ holds_true (is_valid_secret_name "db/password");
        holds_true (negb (is_valid_secret_name (with_separator "000")));
        holds_true (negb (is_valid_secret_name (with_separator "001")));
        holds_true (negb (is_valid_secret_name ""));
        holds_true (negb (is_valid_secret_name (string_of_list_ascii (replicate (MAX_SECRET_NAME_LEN + 1) "a"%char)))) ]);
    ("a_normalized_name_has_no_dot_or_empty_segments", all
      [ holds_true (is_normalized_secret_name "db/password");
        holds_true (is_normalized_secret_name "a.b/c-d_e");
        holds_true (negb (is_normalized_secret_name "a/../b"));
        holds_true (negb (is_normalized_secret_name "a/./b"));
        holds_true (negb (is_normalized_secret_name "a//b"));
        holds_true (negb (is_normalized_secret_name "/a"));
        holds_true (negb (is_normalized_secret_name "a/"));
        holds_true (negb (is_normalized_secret_name ".."));
        holds_true (negb (is_normalized_secret_name ".")) ]);
    ("secret_version_must_be_positive", all
      [ holds_true (is_valid_secret_version 1);
        holds_true (negb (is_valid_secret_version 0));
        holds_true (negb (is_valid_secret_version (-1)));
        holds_true (negb (is_valid_secret_version i32_min)) ]);
    ("secret_format_rejects_unknown", all
      [ assert_eq (SecretFormat.parse "kv") None;
        assert_eq (SecretFormat.parse "") None ]) ].

(** ** rotation.rs *)

Definition rotation_policy_tests : suite :=
  let policy grace := {| interval := 3600; grace := grace |} in
  [ ("is_due_at_and_after_boundary", all
      [ holds_true (negb (is_due 100 101));
        holds_true (is_due 100 100);
        holds_true (is_due 100 99) ]);
    ("next_rotation_advances_by_interval",
      assert_eq (RotationPolicy.next_rotation_unix (policy 300%Z) 1000) 4600%Z);
    ("grace_expiry_is_supersede_plus_grace",
      assert_eq (RotationPolicy.grace_expiry_unix (policy 300%Z) 1000) 1300%Z);
    ("current_version_never_expires", all
      [ holds_true (version_active i64_max None);
        holds_true (version_active 0 None) ]);
    ("superseded_version_valid_until_grace_expiry",
      let expiry := RotationPolicy.grace_expiry_unix (policy 300%Z) 1000 in all
      [ assert (version_active 1000 (Some expiry)) "valid immediately after rotation";
        assert (version_active 1299 (Some expiry)) "valid within grace window";
        assert (negb (version_active 1300 (Some expiry))) "invalid at grace expiry";
        assert (negb (version_active 2000 (Some expiry))) "invalid after grace expiry" ]);
    ("zero_grace_supersedes_immediately",
      let expiry := RotationPolicy.grace_expiry_unix (policy 0%Z) 1000 in
      assert (negb (version_active 1000 (Some expiry)))
        "with zero grace the old version is invalid at once") ].

(** ** ip_allowlist.rs *)

Section allowlist_tests.
Context `{NET : !Ipnet}.

Definition ip (s : string) : Ipv4Addr := default {| oct1 := 0; oct2 := 0; oct3 := 0; oct4 := 0 |} (parse_ipv4 s).

Definition ip_allowlist_tests : suite :=
  [ ("empty_allowlist_denies_everything",
      allow ← expect (parse_allowlist "") "unwrap"; all
      [ holds_true (allowlist_is_empty allow);
        holds_true (negb (allowlist_contains allow (ip "10.0.0.1")));
        holds_true (negb (allowlist_contains allow (ip "127.0.0.1")));
        holds_true (negb (allowlist_contains allow (ip "0.0.0.0"))) ]);
    ("whitespace_only_allowlist_denies_everything",
      allow ← expect (parse_allowlist "  ,  , ") "unwrap"; all
      [ holds_true (allowlist_is_empty allow);
        holds_true (negb (allowlist_contains allow (ip "10.0.0.1"))) ]);
    ("single_address_matches_exactly",
      allow ← expect (parse_allowlist "203.0.113.7") "unwrap"; all
      [ holds_true (allowlist_contains allow (ip "203.0.113.7"));
        holds_true (negb (allowlist_contains allow (ip "203.0.113.8")));
        holds_true (negb (allowlist_contains allow (ip "203.0.113.6"))) ]);
    ("cidr_block_matches_range_only",
      allow ← expect (parse_allowlist "10.1.0.0/16") "unwrap"; all
      [ holds_true (allowlist_contains allow (ip "10.1.0.1"));
        holds_true (allowlist_contains allow (ip "10.1.255.254"));
        holds_true (negb (allowlist_contains allow (ip "10.2.0.1")));
        holds_true (negb (allowlist_contains allow (ip "11.1.0.1"))) ]);
    ("multiple_entries_with_whitespace_are_parsed",
      allow ← expect (parse_allowlist " 192.168.1.10 , 10.0.0.0/24 ,172.16.5.5") "unwrap"; all
      [ assert_eq (allowlist_len allow) 3;
        holds_true (allowlist_contains allow (ip "192.168.1.10"));
        holds_true (allowlist_contains allow (ip "10.0.0.200"));
        holds_true (allowlist_contains allow (ip "172.16.5.5"));
        holds_true (negb (allowlist_contains allow (ip "10.0.1.1")));
        holds_true (negb (allowlist_contains allow (ip "8.8.8.8"))) ]);
    ("invalid_entries_are_rejected", all
      [ holds_true (is_err (parse_allowlist "not-an-ip"));
        holds_true (is_err (parse_allowlist "999.1.1.1"));
        holds_true (is_err (parse_allowlist "10.0.0.0/33"));
        holds_true (is_err (parse_allowlist "::1"));
        holds_true (is_err (parse_allowlist "10.0.0.1,bad")) ]);
    ("slash_32_is_equivalent_to_single_host",
      allow ← expect (parse_allowlist "203.0.113.7/32") "unwrap"; all
      [ holds_true (allowlist_contains allow (ip "203.0.113.7"));
        holds_true (negb (allowlist_contains allow (ip "203.0.113.8"))) ]) ].
End allowlist_tests.

(** ** Tests that call the platform *)

(** A test that needs the platform is a program; each runs in a world of its own. *)
Notation tests St := (list (string * prog St string unit)).

Section run_tests.
Context `{PL : !Platform} {St : Type} `{VS : !VaultStore St}.

Definition run_tests (w : World St) (l : tests St) : suite := (λ '(name, t), (name, (run_prog t w).2)) <$> l.

Definition check (v : verdict unit) : prog St string unit := of_result v.
Definition unwrap {E A} (r : result E A) : prog St string A := of_result (expect r "unwrap").
Definition unwrap_run {E A} (m : prog St E A) : prog St string A := prog_map_err (λ _, "unwrap") m.
End run_tests.

(** [bytes[i] ^= 1] *)
Definition flip (b : byte) : byte := default b (Byte.of_N (N.lxor (Byte.to_N b) 1)).

Section crypto_tests.
Context `{CC : !CryptoCrates, PL : !Platform} {St : Type} `{VS : !VaultStore St}.

Definition auth_tests : tests St :=
  [ ("fingerprint_is_deterministic_and_fixed_length",
      token ← generate_token;
      let a := fingerprint token in
      let b := fingerprint token in
      check (assert_eq a b) ;; check (assert_eq (length a) FINGERPRINT_LEN));
    ("different_tokens_have_different_fingerprints",
      token ← generate_token; let a := fingerprint token in
      token ← generate_token; let b := fingerprint token in
      check (assert_ne a b));
    ("verify_accepts_matching_token",
      token ← generate_token;
      let fp := fingerprint token in
      check (holds_true (Crypto.verify token fp)));
    ("verify_rejects_wrong_token",
      token ← generate_token;
      let fp := fingerprint token in
      other ← generate_token;
      check (holds_true (negb (Crypto.verify other fp))));
    ("verify_rejects_wrong_length_fingerprint",
      token ← generate_token;
      check (holds_true (negb (Crypto.verify token (replicate (FINGERPRINT_LEN - 1) x00)))) ;;
      check (holds_true (negb (Crypto.verify token []))) ;;
      check (holds_true (negb (Crypto.verify token (replicate (FINGERPRINT_LEN + 5) x00)))));
    ("fingerprints_match_is_length_safe",
      check (holds_true (fingerprints_match [x01; x02; x03] [x01; x02; x03])) ;;
      check (holds_true (negb (fingerprints_match [x01; x02; x03] [x01; x02; x04]))) ;;
      check (holds_true (negb (fingerprints_match [x01; x02; x03] [x01; x02]))) ;;
      check (holds_true (negb (fingerprints_match [x01; x02; x03] [])))) ].

Definition seal_tests : tests St :=
  [ ("seal_open_round_trips",
      dek ← generate_dek; nonce ← generate_nonce;
      let aad := aad_for "db/password" 1 in
      let plaintext := as_bytes "super-secret-value" in
      ct ← unwrap (seal dek nonce aad plaintext);
      check (assert (bool_decide (ct ≠ plaintext)) "ciphertext must not equal plaintext") ;;
      pt ← unwrap (open dek nonce aad ct);
      check (assert_eq pt plaintext));
    ("ciphertext_tamper_is_rejected",
      dek ← generate_dek; nonce ← generate_nonce;
      let aad := aad_for "name" 1 in
      ct ← unwrap (seal dek nonce aad (as_bytes "value"));
      check (assert (is_err (open dek nonce aad (alter flip 0 ct))) "tampered ciphertext must fail AEAD"));
    ("tag_truncation_is_rejected",
      dek ← generate_dek; nonce ← generate_nonce;
      let aad := aad_for "name" 1 in
      ct ← unwrap (seal dek nonce aad (as_bytes "value"));
      check (holds_true (is_err (open dek nonce aad (removelast ct)))));
    ("nonce_tamper_is_rejected",
      dek ← generate_dek; nonce ← generate_nonce;
      let aad := aad_for "name" 1 in
      ct ← unwrap (seal dek nonce aad (as_bytes "value"));
      check (holds_true (is_err (open dek (alter flip 0 nonce) aad ct))));
    ("wrong_key_is_rejected",
      dek ← generate_dek; other ← generate_dek; nonce ← generate_nonce;
      let aad := aad_for "name" 1 in
      ct ← unwrap (seal dek nonce aad (as_bytes "value"));
      check (holds_true (is_err (open other nonce aad ct))));
    ("aad_binds_ciphertext_to_name_and_version",
      dek ← generate_dek; nonce ← generate_nonce;
      ct ← unwrap (seal dek nonce (aad_for "secretA" 1) (as_bytes "value"));
      check (assert (is_err (open dek nonce (aad_for "secretB" 1) ct))
        "ciphertext must not decrypt under a different secret name") ;;
      check (assert (is_err (open dek nonce (aad_for "secretA" 2) ct))
        "ciphertext must not decrypt under a different version") ;;
      check (holds_true (is_ok (open dek nonce (aad_for "secretA" 1) ct)))) ].

Definition envelope_tests : tests St :=
  [ ("envelope_round_trips_through_wrapper",
      wrapper ← random; let wrapper := local_key_wrapper wrapper in
      let aad := aad_for "api/key" 3 in
      env ← unwrap_run (seal_envelope wrapper aad (as_bytes "top-secret"));
      check (assert_ne (env_ciphertext env) (as_bytes "top-secret")) ;;
      check (holds_true (negb (bool_decide (env_wrapped_dek env = [])))) ;;
      opened ← unwrap (open_envelope wrapper env aad);
      check (assert_eq opened (as_bytes "top-secret")));
    ("envelope_wrapped_dek_is_randomized_per_call",
      wrapper ← random; let wrapper := local_key_wrapper wrapper in
      a ← unwrap_run (seal_envelope wrapper (as_bytes "aad") (as_bytes "value"));
      b ← unwrap_run (seal_envelope wrapper (as_bytes "aad") (as_bytes "value"));
      check (assert (bool_decide (env_wrapped_dek a ≠ env_wrapped_dek b))
        "DEK wrapping must be nondeterministic") ;;
      check (assert (bool_decide (env_ciphertext a ≠ env_ciphertext b))
        "ciphertext must be nondeterministic"));
    ("envelope_rejects_wrong_master_key",
      let aad := aad_for "x" 1 in
      wrapper ← random;
      env ← unwrap_run (seal_envelope (local_key_wrapper wrapper) aad (as_bytes "value"));
      other ← random;
      check (holds_true (is_err (open_envelope (local_key_wrapper (St := St) other) env aad))));
    ("envelope_rejects_tampered_wrapped_dek",
      wrapper ← random; let wrapper := local_key_wrapper wrapper in
      let aad := aad_for "x" 1 in
      env ← unwrap_run (seal_envelope wrapper aad (as_bytes "value"));
      let last := length (env_wrapped_dek env) - 1 in
      let env := {| env_key_id := env_key_id env; env_wrapped_dek := alter flip last (env_wrapped_dek env);
                    env_nonce := env_nonce env; env_ciphertext := env_ciphertext env |} in
      check (holds_true (is_err (open_envelope wrapper env aad))));
    ("dek_from_slice_enforces_length",
      check (holds_true (is_ok (dek_from_slice (replicate DEK_LEN x00)))) ;;
      check (holds_true (is_err (dek_from_slice (replicate (DEK_LEN - 1) x00)))) ;;
      check (holds_true (is_err (dek_from_slice (replicate (DEK_LEN + 1) x00))))) ].

Definition crypto_unit_tests : tests St :=
  [ ("rewrap_preserves_dek_and_payload",
      let wrapper := {| lw_master := replicate DEK_LEN x07; lw_key_id := "master-1" |} in
      let aad := as_bytes "db/password:1" in
      let plaintext := as_bytes "super-secret-value" in
      env ← prog_map_err (λ _, "seal") (seal_envelope (local_key_wrapper wrapper) aad plaintext);
      opened ← of_result (expect (open_envelope (local_key_wrapper (St := St) wrapper) env aad) "open");
      check (assert_eq opened plaintext) ;;
      '(rewrapped, key_id) ← prog_map_err (λ _, "rewrap") (local_rewrap wrapper (env_wrapped_dek env) (env_key_id env));
      check (assert_eq key_id "master-1") ;;
      check (assert (bool_decide (rewrapped ≠ env_wrapped_dek env))
        "a fresh wrap nonce makes the wrapped blob differ") ;;
      let rewrapped_env := {| env_key_id := env_key_id env; env_wrapped_dek := rewrapped;
                              env_nonce := env_nonce env; env_ciphertext := env_ciphertext env |} in
      opened ← of_result (expect (open_envelope (local_key_wrapper (St := St) wrapper) rewrapped_env aad)
                            "open rewrapped");
      check (assert_eq opened plaintext)) ].
End crypto_tests.

(** ** The tests pass *)

(** A cipher that keeps the message twice, so that no byte of a ciphertext can
    be changed alone. *)
Definition twice_decrypt (k n a c : bytes) : option bytes :=
  m ← untag (tag k n a) c;
  let half := take (length m / 2) m in
  if decide (half ++ half = m) then Some half else None.

#[local] Instance twice_crypto : CryptoCrates := {|
  xchacha_encrypt k n a m := Some (m ++ m ++ tag k n a);
  xchacha_decrypt := twice_decrypt;
  sha256 := sha256; base64_url_no_pad := base64_url_no_pad; base64_decode := base64_decode |}.

Example core_tests_pass :
  failures (rbac_unit_tests ++ rbac_security_tests ++ types_tests ++ rotation_policy_tests ++ ip_allowlist_tests
    ++ run_tests world (auth_tests ++ seal_tests ++ envelope_tests ++ crypto_unit_tests)) = [].
Proof. vm_compute. reflexivity. Qed.
