(* ===== verification/TestsStore.v ===== *)
(** * The unit tests of the store

    The tests in [store/apply.rs], [store/engine.rs] and [raft/store.rs] and
    those of [tests/backup.rs] that run without Raft, on the model of the
    store.  A test is a program on a fresh database; [.expect] and a failed
    assertion stop it with their text. *)

From S2P Require Import Prelude RustStr CoreTypes Redb Keys Model Serial Apply Engine RaftStore Platform.
From S2P Require Import Crypto IpAddr PgApply ApiTypes Guards Service Manage Calls Config FuzzCore TestsCore.
From S2P Require Import RaftSamples FuzzStore FuzzRaftThms.

Notation dbtest := (ste Database string).
Notation dbtests := (list (string * dbtest unit)).

Definition run_on_db `{RE : !Redb} (tests : dbtests) : suite := (λ '(name, t), (name, (t empty_database).2)) <$> tests.

(** ** apply.rs *)

Section apply_tests.
Context `{RE : !Redb, SE : !StoreSerde}.

(** A transaction that is committed whatever the command answers. *)
Definition tx_apply (command : Command) : dbtest (StoreResult unit) := λ d,
  let '(d', r) := apply_command 1 command d in (d', Ok r).

Definition expect_ok {E A} (what : string) (m : dbtest (result E A)) : dbtest A :=
  r ← m; lift_result (expect r what).

Definition apply_ok (what : string) (command : Command) : dbtest unit := expect_ok what (tx_apply command).

Definition dbcheck (v : verdict unit) : dbtest unit := lift_result v.

Definition read_version (name : string) (version : Z) : dbtest VersionRecord :=
  value ← get VERSIONS (version_key name version);
  value ← lift_result (expect_some value "version present");
  lift_result (expect (decode value) "decode version").

Definition sample : SecretRecord * VersionRecord :=
  ({| s_name := "db/password"; s_kind := Manual; s_format := Opaque; s_description := None;
      s_rotation_interval_secs := None; s_grace_secs := 0; s_current_version := 1; s_next_rotation_at := None;
      s_created_at := 0; s_updated_at := 0; s_target := None |},
   {| v_version := 1; v_kms_key_id := "old-key"; v_wrapped_dek := [x01; x02; x03]; v_nonce := replicate 24 x04;
      v_ciphertext := [x09; x09; x09]; v_aad := as_bytes "db/password:1"; v_created_at := 0;
      v_expires_at := None; v_wrapped_rotation_at := None |})%Z.

Definition insert_raw_version (key : string) (record : VersionRecord) : dbtest unit :=
  bs ← lift_result (expect (encode record) "encode");
  insert VERSIONS key bs.

Definition version_keys : dbtest (list string) := rows ← iter VERSIONS; mret rows.*1.
Definition audit_keys : dbtest (list Z) := rows ← iter AUDIT; mret rows.*1.

Definition audit_entry (action : string) : AuditEntry :=
  {| a_at := 0; a_actor := None; a_client_ip := None; a_action := action; a_secret_name := None;
     a_outcome := "ok"; a_node_id := 0 |}%Z.

Definition sample_token (name : string) (fingerprint : bytes) : TokenRecord :=
  {| t_name := name; t_role := Some "admin"; t_fingerprint := fingerprint; t_created_at := 0;
     t_last_used_at := None; t_revoked_at := None |}%Z.

Definition backup_of (secrets versions : list (string * bytes)) : BackupData :=
  {| b_version := BACKUP_VERSION; b_secrets := secrets; b_versions := versions; b_roles := []; b_tokens := [];
     b_tokens_by_name := []; b_audit := []; b_kms_rewrap := [] |}.

Definition is_conflict (r : StoreResult unit) : bool :=
  match r with Err (Conflict _) => true | _ => false end.

Definition apply_restore_tests : dbtests :=
  [ ("a_replicated_restore_replaces_every_table",
      apply_ok "create" (CreateSecret sample.1 sample.2) ;;
      apply_ok "restore" (RestoreDatabase (backup_of [("other/secret", [x01; x02; x03])]
                                             [(version_key "other/secret" 1, [x04; x05; x06])])) ;;
      keys ← version_keys;
      dbcheck (assert (bool_decide (keys = [version_key "other/secret" 1]))
        "a restore replaces the rows that were there"));
    ("a_replicated_restore_with_an_invalid_row_is_refused",
      apply_ok "create" (CreateSecret sample.1 sample.2) ;;
      before ← version_keys;
      result ← tx_apply (RestoreDatabase (backup_of [(with_separator "000", [x01; x02; x03])] []));
      dbcheck (holds_true (is_conflict result)) ;;
      keys ← version_keys;
      dbcheck (assert (bool_decide (keys = before)) "a refused restore changes nothing"));
    ("a_second_token_may_not_reuse_a_fingerprint",
      apply_ok "first token" (AddToken (sample_token "first" [x01; x02; x03])) ;;
      result ← tx_apply (AddToken (sample_token "second" [x01; x02; x03]));
      dbcheck (assert (is_conflict result) "a reused fingerprint must not overwrite the first token") ;;
      value ← get TOKENS [x01; x02; x03];
      value ← lift_result (expect_some value "token present");
      stored ← lift_result (expect (decode (A := TokenRecord) value) "decode");
      dbcheck (assert_eq (t_name stored) "first"));
    ("an_audit_row_above_the_plausible_range_does_not_stop_appends",
      planted ← lift_result (expect (encode (audit_entry "planted")) "unwrap");
      insert AUDIT u64_max planted ;;
      ste_iter (λ action, apply_ok "append" (AppendAudit (audit_entry action))) ["create"; "rotate"; "delete"] ;;
      keys ← audit_keys;
      dbcheck (assert (bool_decide (keys = [0; 1; 2; u64_max]%Z))
        "each append must take the next free key instead of overwriting")) ].

(** The sample with another name, or another version number. *)
Definition renamed (name : string) : SecretRecord :=
  let s := sample.1 in
  {| s_name := name; s_kind := s_kind s; s_format := s_format s; s_description := s_description s;
     s_rotation_interval_secs := s_rotation_interval_secs s; s_grace_secs := s_grace_secs s;
     s_current_version := s_current_version s; s_next_rotation_at := s_next_rotation_at s;
     s_created_at := s_created_at s; s_updated_at := s_updated_at s; s_target := s_target s |}.
Definition changed (version : Z) (aad : bytes) : VersionRecord :=
  let v := sample.2 in
  {| v_version := version; v_kms_key_id := v_kms_key_id v; v_wrapped_dek := v_wrapped_dek v; v_nonce := v_nonce v;
     v_ciphertext := v_ciphertext v; v_aad := aad; v_created_at := v_created_at v;
     v_expires_at := v_expires_at v; v_wrapped_rotation_at := v_wrapped_rotation_at v |}.

Definition apply_name_tests : dbtests :=
  [ ("create_rejects_a_name_outside_the_allowed_characters",
      result ← tx_apply (CreateSecret (renamed (with_separator "000")) sample.2);
      dbcheck (assert (is_conflict result) "a name with a version-key separator must be refused") ;;
      keys ← version_keys;
      dbcheck (assert (bool_decide (keys = [])) "nothing may be written"));
    ("create_rejects_a_version_below_one",
      result ← tx_apply (CreateSecret sample.1 (changed 0 (v_aad sample.2)));
      dbcheck (holds_true (is_conflict result)) ;;
      keys ← version_keys;
      dbcheck (assert (bool_decide (keys = [])) "nothing may be written"));
    ("delete_leaves_another_secrets_rows_alone",
      let version := changed 1 (as_bytes "x:1") in
      apply_ok "create" (CreateSecret (renamed "x") version) ;;
      let intruder := version_key (with_separator "000") 1 in
      insert_raw_version intruder version ;;
      apply_ok "delete" (DeleteSecret "x") ;;
      keys ← version_keys;
      dbcheck (assert (bool_decide (keys = [intruder])) "only the deleted secret's own rows may be removed")) ].

Definition apply_rewrap_tests : dbtests :=
  [ ("rewrap_version_swaps_wrapping_and_preserves_payload",
      apply_ok "create" (CreateSecret sample.1 sample.2) ;;
      apply_ok "rewrap" (RewrapVersion "db/password" 1 "new-key" [x07; x08; x09; x0a] 100) ;;
      got ← read_version "db/password" 1;
      dbcheck (assert_eq (v_kms_key_id got) "new-key") ;;
      dbcheck (assert_eq (v_wrapped_dek got) [x07; x08; x09; x0a]) ;;
      dbcheck (assert_eq (v_wrapped_rotation_at got) (Some 100%Z)) ;;
      dbcheck (assert (bool_decide (v_ciphertext got = [x09; x09; x09])) "ciphertext must be untouched") ;;
      dbcheck (assert (bool_decide (v_nonce got = replicate 24 x04)) "nonce must be untouched") ;;
      dbcheck (assert (bool_decide (v_aad got = as_bytes "db/password:1")) "aad must be untouched"));
    ("rewrap_version_is_idempotent_and_never_errors",
      apply_ok "create" (CreateSecret sample.1 sample.2) ;;
      apply_ok "first rewrap" (RewrapVersion "db/password" 1 "gen100" [x01] 100) ;;
      apply_ok "replay rewrap" (RewrapVersion "db/password" 1 "gen100-replay" [x02] 100) ;;
      got ← read_version "db/password" 1;
      dbcheck (assert (bool_decide (v_kms_key_id got = "gen100")) "replay must not overwrite") ;;
      dbcheck (assert_eq (v_wrapped_dek got) [x01]) ;;
      apply_ok "missing version must not error" (RewrapVersion "db/password" 99 "x" [x00] 200));
    ("set_kms_rewrap_state_roundtrips",
      apply_ok "set state" (SetKmsRewrapState {| k_last_completed_rotation_at := 1234; k_last_swept_at := 5;
                                                 k_updated_at := 6 |}%Z) ;;
      value ← get KMS_REWRAP KMS_REWRAP_STATE_KEY;
      value ← lift_result (expect_some value "state present");
      state ← lift_result (expect (decode (A := KmsRewrapState) value) "decode state");
      dbcheck (assert_eq (k_last_completed_rotation_at state) 1234%Z)) ].
End apply_tests.

(** ** engine.rs *)

Definition engine_tests : suite :=
  [ ("a_version_key_parses_back_to_its_secret_and_version",
      let key := version_key "db/password" 7 in all
      [ assert_eq (split_version_key key) (Some ("db/password", 7%Z));
        assert_eq (version_from_key "db/password" key) (Some 7%Z) ]);
    ("another_secrets_row_is_not_accepted_even_inside_the_byte_range",
      let intruder := version_key (with_separator "000") 1 in all
      [ assert (bool_decide (key_le (version_lower "x") intruder ∧ strict key_le intruder (version_upper "x")))
          "precondition: the row sorts inside the scan range of secret 'x'";
        assert_eq (version_from_key "x" intruder) None ]);
    ("a_negative_version_field_is_not_accepted",
      let key := version_key "n" (-1) in all
      [ assert_eq (version_from_key "n" key) None;
        assert_eq (split_version_key key) None ]) ].

Example apply_tests_pass :
  failures (run_on_db (apply_restore_tests ++ apply_name_tests ++ apply_rewrap_tests) ++ engine_tests) = [].
Proof. vm_compute. reflexivity. Qed.

(** ** raft/store.rs *)

(** [leader] is the leader id with a term and a node that [serde_json] reads. *)
Section raft_tests.
Context `{RE : !Redb, SE : !StoreSerde, RT : !RaftTypes, RS : !RaftSerde, RD : !RaftSeeds}.
Context (leader : Z → Z → LeaderId).

Definition log_id (term node index : Z) : LogId := {| leader_id := leader term node; index := index |}.

(** The errors of the store are unwrapped. *)
Definition io_unwrap {A} (what : string) (m : io A) : dbtest A := λ d,
  let '(d', r) := m d in (d', expect r what).

Definition attempt_io {A} (m : io A) : dbtest (result StorageError A) := λ d,
  let '(d', r) := m d in (d', Ok r).

Definition meta (key : string) : dbtest (option LogId) := io_unwrap "unwrap" (read_meta key).
Definition set_meta (key : string) (value : LogId) : dbtest unit := io_unwrap "unwrap" (write_meta key value).
Definition write_raw_meta (key : string) (bs : bytes) : dbtest unit := insert META key bs.
Definition log_keys : dbtest (list Z) := rows ← iter LOG; mret rows.*1.
Definition insert_log (indexes : list Z) : dbtest unit :=
  ste_iter (λ index, insert LOG index (as_bytes "entry")) indexes.

Definition normalize_tests : dbtests :=
  let applied := log_id 696 3 18010 in
  [ ("normalize_sets_purged_when_snapshot_covers_empty_log",
      set_meta META_APPLIED applied ;;
      before ← meta META_PURGED;
      dbcheck (assert (bool_decide (before = None)) "precondition: nothing purged yet") ;;
      io_unwrap "unwrap" normalize_raft_log ;;
      after ← meta META_PURGED;
      dbcheck (assert (bool_decide (after = Some applied))
        "purged must advance to the snapshot's last log id so openraft does not read absent entries"));
    ("normalize_is_noop_without_snapshot",
      io_unwrap "unwrap" normalize_raft_log ;;
      purged ← meta META_PURGED;
      dbcheck (assert (bool_decide (purged = None)) "no snapshot applied: nothing to normalize"));
    ("normalize_advances_past_stray_low_index_entry",
      insert_log [0%Z] ;;
      set_meta META_APPLIED applied ;;
      io_unwrap "unwrap" normalize_raft_log ;;
      purged ← meta META_PURGED;
      dbcheck (assert_eq purged (Some applied)) ;;
      keys ← log_keys;
      dbcheck (assert (bool_decide (keys = [])) "a leftover low-index entry must be dropped"));
    ("normalize_truncates_noncontiguous_tail",
      insert_log [18011; 18013]%Z ;;
      set_meta META_APPLIED applied ;;
      io_unwrap "unwrap" normalize_raft_log ;;
      keys ← log_keys;
      dbcheck (assert (bool_decide (keys = [18011%Z]))
        "entries after the first gap above last_applied must be truncated (the leader re-sends them)"));
    ("normalize_keeps_contiguous_tail",
      insert_log [0; 18011; 18012]%Z ;;
      set_meta META_APPLIED applied ;;
      io_unwrap "unwrap" normalize_raft_log ;;
      keys ← log_keys;
      dbcheck (assert (bool_decide (keys = [18011; 18012]%Z))
        "a contiguous tail above last_applied must be preserved"));
    ("stored_json_null_reads_as_absent",
      write_raw_meta META_APPLIED (as_bytes "null") ;;
      applied ← io_unwrap "a JSON null written by an older build must not fail the read"
                  (read_meta (T := LogId) META_APPLIED);
      dbcheck (holds_true (bool_decide (applied = None))));
    ("startup_normalization_survives_a_stored_json_null",
      write_raw_meta META_APPLIED (as_bytes "null") ;;
      io_unwrap "a node must still boot with a JSON null on disk" normalize_raft_log) ].

(** [SnapshotData::default()] with these secrets *)
Definition snapshot_with (secrets : list (string * bytes)) : SnapshotData :=
  {| sd_secrets := secrets; sd_versions := []; sd_roles := []; sd_tokens := []; sd_tokens_by_name := [];
     sd_kms_rewrap := []; sd_last_applied := None; sd_membership := stored_membership_default |}.

Definition open_store : dbtest unit := λ d,
  let '(d', r) := RedbStore.from_database d in (d', expect r "open store").

(** [install_snapshot] of this data under a meta with this log id. *)
Definition install (last : option LogId) (id : string) (data : SnapshotData) : dbtest (result StorageError unit) :=
  body ← lift_result (expect_some (to_vec data) "unwrap");
  attempt_io (install_snapshot {| meta_last_log_id := last; meta_last_membership := stored_membership_default;
                                  meta_snapshot_id := id |} body).

Definition snapshot_tests : dbtests :=
  [ ("install_snapshot_without_last_log_id_keeps_metadata_readable",
      open_store ;;
      expect_ok "install snapshot" (install None "empty" (snapshot_with [])) ;;
      applied ← io_unwrap "last_applied must remain readable" (read_meta (T := LogId) META_APPLIED);
      dbcheck (holds_true (bool_decide (applied = None))) ;;
      io_unwrap "the node must still boot after this snapshot" normalize_raft_log);
    ("install_snapshot_refuses_an_implausible_log_index",
      open_store ;;
      result ← install (Some (log_id 1 1 u64_max)) "huge" (snapshot_with []);
      dbcheck (assert (is_err result) "an out-of-range log index must be refused") ;;
      applied ← meta META_APPLIED;
      dbcheck (assert (bool_decide (applied = None)) "nothing may reach the metadata table"));
    ("install_snapshot_refuses_an_invalid_secret_name",
      open_store ;;
      result ← install (Some (log_id 1 1 5)) "1-5" (snapshot_with [(with_separator "000", [x01; x02; x03])]);
      dbcheck (assert (is_err result) "an invalid secret name must be refused"));
    ("install_snapshot_with_last_log_id_records_it",
      open_store ;;
      let last := log_id 7 1 42 in
      expect_ok "install snapshot" (install (Some last) "7-42" (snapshot_with [])) ;;
      applied ← meta META_APPLIED;
      purged ← meta META_PURGED;
      dbcheck (assert_eq applied (Some last)) ;;
      dbcheck (assert_eq purged (Some last)));
    ("reset_clears_raft_state",
      insert_log [1; 2; 3]%Z ;;
      set_meta META_APPLIED (log_id 5 1 3) ;;
      set_meta META_PURGED (log_id 5 1 1) ;;
      io_unwrap "unwrap" reset_raft_state ;;
      keys ← log_keys;
      dbcheck (assert (bool_decide (keys = [])) "log must be cleared") ;;
      applied ← meta META_APPLIED;
      purged ← meta META_PURGED;
      dbcheck (assert (bool_decide (applied = None) && bool_decide (purged = None))
        "raft metadata must be cleared")) ].
End raft_tests.

(** ** tests/backup.rs *)

Section backup_tests.
Context `{RE : !Redb, SE : !StoreSerde}.

Definition sample_secret (name : string) (ciphertext : bytes) : SecretRecord * VersionRecord :=
  ({| s_name := name; s_kind := Manual; s_format := Opaque; s_description := None;
      s_rotation_interval_secs := None; s_grace_secs := 0; s_current_version := 1; s_next_rotation_at := None;
      s_created_at := 0; s_updated_at := 0; s_target := None |},
   {| v_version := 1; v_kms_key_id := "local"; v_wrapped_dek := [x01; x02; x03]; v_nonce := replicate 24 x04;
      v_ciphertext := ciphertext; v_aad := as_bytes (name +:+ ":1"); v_created_at := 0;
      v_expires_at := None; v_wrapped_rotation_at := None |})%Z.

(** A store is a database and the methods of its node. *)
Definition store_apply (node_id : Z) (what : string) (command : Command) (d : Database) : verdict Database :=
  let '(d', r) := RedbStore.apply node_id command d in expect r what ;; Ok d'.
Definition store_open (what : string) : verdict Database :=
  let '(d, r) := RedbStore.from_database empty_database in expect r what ;; Ok d.

Definition backup_tests : suite :=
  [ ("dump_restore_round_trips_and_replaces",
      source ← store_open "open source";
      let '(secret, version) := sample_secret "db/password" [x09; x08; x07] in
      source ← store_apply 1 "create secret" (CreateSecret secret version) source;
      source ← store_apply 1 "create role" (CreateRole {| r_name := "payments"; r_description := None;
                 r_is_admin := false; r_permissions := [("create", "stripe/*")]; r_created_at := 0%Z |}) source;
      source ← store_apply 1 "add token" (AddToken {| t_name := "ci"; t_role := Some "payments";
                 t_fingerprint := [x07; x07; x07]; t_created_at := 0%Z; t_last_used_at := None;
                 t_revoked_at := None |}) source;
      backup ← expect (RedbStore.dump source) "dump";
      assert_eq (b_version backup) BACKUP_VERSION ;;
      assert_eq (length (b_secrets backup)) 1 ;;
      target ← store_open "open target";
      let '(stale, stale_version) := sample_secret "stale/secret" [x01; x01; x01] in
      target ← store_apply 2 "seed stale data into target" (CreateSecret stale stale_version) target;
      let '(target, r) := RedbStore.restore backup target in
      expect r "restore" ;;
      loaded ← expect (RedbStore.current_version "db/password" target) "read restored secret";
      '(loaded, current) ← expect_some loaded "restored secret present";
      assert_eq (s_current_version loaded) 1%Z ;;
      assert_eq (v_ciphertext current) [x09; x08; x07] ;;
      role ← expect (RedbStore.role "payments" target) "read restored role";
      role ← expect_some role "restored role present";
      assert_eq (r_permissions role) [("create", "stripe/*")] ;;
      token ← expect (RedbStore.token_by_fingerprint [x07; x07; x07] target) "read restored token";
      token ← expect_some token "restored token present";
      assert_eq (t_name token) "ci" ;;
      stale ← expect (RedbStore.secret "stale/secret" target) "read stale";
      assert (match stale with None => true | Some _ => false end)
        "restore must replace existing data, not merge it");
    ("restore_rejects_unknown_version",
      store ← store_open "open";
      let bad := {| b_version := BACKUP_VERSION + 1; b_secrets := []; b_versions := []; b_roles := [];
                    b_tokens := []; b_tokens_by_name := []; b_audit := []; b_kms_rewrap := [] |}%Z in
      assert (is_err (RedbStore.restore bad store).2) "restore must reject an unsupported backup version") ].
End backup_tests.

Example raft_store_tests_pass :
  let leader term node : LeaderId := "T" +:+ int_to_string term +:+ "-N" +:+ int_to_string node in
  failures (run_on_db (normalize_tests leader ++ snapshot_tests leader) ++ backup_tests) = [].
Proof. vm_compute. reflexivity. Qed.
