(* ===== verification/TestsApi.v ===== *)
(** * The tests of the API crate

    The unit tests of [service.rs], [pg_apply.rs], [raft/peer.rs],
    [raft/types.rs] and [lockout.rs], and the tests of [tests/] that start a
    node from a configuration and send it requests: [guard_security.rs],
    [routing.rs], [rotation.rs] and [raft_peer_auth.rs].  A body is the encoding of the request it
    stands for; where a test looks for a field in the text of an answer, the
    field of the answer is compared. *)

From S2P Require Import Prelude RustStr CoreTypes Redb Keys Model Serial Apply Engine RaftStore Platform.
From S2P Require Import Crypto Kms Cache IpAddr PgApply ApiTypes Guards Service Manage Routes Calls Peer.
From S2P Require Import RaftNode Config Startup FuzzCore TestsCore RaftSamples ServiceSamples ClusterSamples.
From S2P Require Import StartupSamples HttpSamples Router.

(** ** service.rs *)

Section service_tests.
Context `{UP : !Serde UserPass}.

Definition service_unit_tests (not_json : bytes) : suite :=
  [ ("userpass_payload_roundtrips",
      let bs := encode_userpass "alice" "s3cr3t" in
      up ← expect (decode_userpass bs) "decode"; all
      [ assert_eq (up_username up) "alice"; assert_eq (up_password up) "s3cr3t" ]);
    ("decode_payload_opaque_returns_value",
      '(value, username, password) ← expect (decode_payload Opaque (as_bytes "raw")) "opaque"; all
      [ assert_eq value (Some "raw");
        holds_true (bool_decide (username = None) && bool_decide (password = None)) ]);
    ("decode_payload_userpass_returns_pair",
      let bs := encode_userpass "bob" "pw" in
      '(value, username, password) ← expect (decode_payload Userpass bs) "userpass"; all
      [ holds_true (bool_decide (value = None)); assert_eq username (Some "bob"); assert_eq password (Some "pw") ]);
    ("an_empty_opaque_value_is_refused", all
      [ holds_true (is_err (validate_value "")); holds_true (is_ok (validate_value "x")) ]);
    ("a_name_with_dot_segments_is_refused", all
      [ holds_true (is_ok (validate_name "db/password"));
        holds_true (is_err (validate_name "a/../b"));
        holds_true (is_err (validate_name "a//b"));
        holds_true (is_err (validate_name "/a"));
        holds_true (is_err (validate_name "a/")) ]);
    ("rotation_interval_is_bounded", all
      [ holds_true (is_ok (validate_interval 60));
        holds_true (is_ok (validate_interval MAX_ROTATION_INTERVAL_SECS));
        holds_true (is_err (validate_interval 0));
        holds_true (is_err (validate_interval (-1)));
        holds_true (is_err (validate_interval (MAX_ROTATION_INTERVAL_SECS + 1)));
        holds_true (is_err (validate_interval i64_max)) ]);
    ("grace_period_is_bounded", all
      [ assert_eq (to_option (normalize_grace None)) (Some 0%Z);
        assert_eq (to_option (normalize_grace (Some 0%Z))) (Some 0%Z);
        assert_eq (to_option (normalize_grace (Some MAX_GRACE_SECS))) (Some MAX_GRACE_SECS);
        holds_true (is_err (normalize_grace (Some (-1)%Z)));
        holds_true (is_err (normalize_grace (Some (MAX_GRACE_SECS + 1)%Z)));
        holds_true (is_err (normalize_grace (Some i64_max))) ]);
    ("accepted_bounds_cannot_overflow_a_timestamp",
      let now := (i64_max / 2)%Z in all
      [ holds_true (now <? next_rotation_unix now MAX_ROTATION_INTERVAL_SECS)%Z;
        holds_true (now <? grace_expiry_unix now MAX_GRACE_SECS)%Z;
        assert_eq (next_version i32_max) None;
        assert_eq (next_version 1) (Some 2%Z) ]);
    ("decode_userpass_rejects_non_json", holds_true (is_err (decode_userpass not_json))) ].
End service_tests.

(** ** pg_apply.rs *)

Section pg_tests.
Context `{PL : !Platform} {St : Type} `{VS : !VaultStore St}.

Definition policy (raw : string) : prog St string PgTargetPolicy :=
  prog_map_err (λ _, "policy") (build raw Disable None).

Definition target (hosts : list string) : PgRoleTarget :=
  {| pg_hosts := hosts; pg_database := "postgres"; pg_role := None; pg_login_secret := None |}.

Definition pg_unit_tests : tests St :=
  let check := TestsCore.check in
  let refused p hosts := check (holds_true (is_err (PgApply.check p (target hosts)))) in
  let accepted p hosts := check (holds_true (is_ok (PgApply.check p (target hosts)))) in
  let splits text host port := check (assert_eq (split_hostport text) (host, port)) in
  [ ("seeded_hosts_are_deduplicated",
      p ← prog_map_err (λ _, "policy") (seeded ["10.0.0.2:5432"; "10.0.0.2"] Disable None);
      check (assert_eq (policy_len p) 1) ;;
      accepted p ["10.0.0.2:5432"] ;;
      refused p ["10.0.0.9:5432"]);
    ("splits_host_and_port",
      splits "10.0.0.2:5433" "10.0.0.2" 5433%Z ;;
      splits "db" "db" 5432%Z);
    ("splits_bracketed_ipv6",
      splits "[::1]:5433" "::1" 5433%Z ;;
      splits "[::1]" "::1" 5432%Z ;;
      splits "[fe80::1%eth0]:5432" "fe80::1%eth0" 5432%Z);
    ("keeps_an_unparseable_port_inside_the_host",
      splits "db:99999" "db:99999" 5432%Z ;;
      splits "::1" "::1" 5432%Z);
    ("empty_allowlist_refuses_every_target",
      p ← policy "";
      check (holds_true (policy_is_empty p)) ;;
      refused p ["10.0.0.2:5432"]);
    ("allowlisted_host_is_accepted",
      p ← policy "10.0.0.2:5432, 10.0.0.3:5432";
      accepted p ["10.0.0.2:5432"; "10.0.0.3:5432"]);
    ("host_outside_allowlist_is_refused",
      p ← policy "10.0.0.2:5432";
      match PgApply.check p (target ["10.0.0.2:5432"; "attacker.example:5432"]) with
      | Ok _ => Throw "must refuse"
      | Err err => check (holds_true (contains_str "attacker.example:5432" err))
      end);
    ("port_must_match_the_allowlist",
      p ← policy "10.0.0.2:5432";
      refused p ["10.0.0.2:6432"]);
    ("host_without_port_defaults_to_5432_on_both_sides",
      p ← policy "db.internal";
      accepted p ["DB.internal:5432"]);
    ("target_without_hosts_is_refused",
      p ← policy "10.0.0.2:5432";
      refused p []) ].
End pg_tests.

(** ** raft/peer.rs, raft/types.rs and lockout.rs *)

Section peer_tests.
Context `{CC : !CryptoCrates}.

Definition peer_unit_tests : suite :=
  [ ("an_unset_token_accepts_everything",
      let auth := peer_auth_disabled in all
      [ holds_true (accepts auth None);
        holds_true (accepts auth (Some "Bearer anything"));
        holds_true (bool_decide (pa_header auth = None)) ]);
    ("a_configured_token_accepts_only_itself",
      auth ← expect (peer_auth_new (Some "cluster-secret") true) "auth"; all
      [ holds_true (accepts auth (Some "Bearer cluster-secret"));
        holds_true (accepts auth (Some "bearer cluster-secret"));
        holds_true (negb (accepts auth (Some "Bearer other")));
        holds_true (negb (accepts auth None));
        assert_eq (pa_header auth) (Some "Bearer cluster-secret") ]);
    ("a_configured_token_still_accepts_a_peer_that_sends_none_until_it_is_required",
      auth ← expect (peer_auth_new (Some "cluster-secret") false) "auth"; all
      [ assert (accepts auth None) "the rollout pass must not split a cluster";
        holds_true (negb (accepts auth (Some "Bearer other"))) ]);
    ("requiring_a_token_without_setting_one_is_refused",
      holds_true (is_err (peer_auth_new None true))) ].
End peer_tests.

Definition raft_types_tests : suite :=
  let MAX_SECRET_FIELD_BYTES := 65536%Z in
  let MAX_ENTRY_PLAINTEXT_BYTES := (2 * MAX_SECRET_FIELD_BYTES + 1024)%Z in
  let JSON_BYTE_ARRAY_EXPANSION := 4%Z in
  let AXUM_DEFAULT_BODY_LIMIT := (2 * 1024 * 1024)%Z in
  let max_entry_json_bytes := (MAX_ENTRY_PLAINTEXT_BYTES * JSON_BYTE_ARRAY_EXPANSION)%Z in
  let snapshot_chunk_json_bytes := (SNAPSHOT_MAX_CHUNK_SIZE * JSON_BYTE_ARRAY_EXPANSION)%Z in
  [ ("append_batch_fits_the_rpc_body_limit",
      holds_true (MAX_PAYLOAD_ENTRIES * max_entry_json_bytes <=? RPC_BODY_LIMIT)%Z);
    ("snapshot_chunk_fits_the_rpc_body_limit",
      holds_true (snapshot_chunk_json_bytes <=? RPC_BODY_LIMIT)%Z);
    ("snapshot_chunk_fits_a_node_that_still_runs_the_axum_default",
      holds_true (snapshot_chunk_json_bytes <=? AXUM_DEFAULT_BODY_LIMIT)%Z) ].

Definition lockout_unit_tests : suite :=
  [ ("a_verify_key_cannot_collide_with_a_plain_ip_key",
      let ip := V4 {| oct1 := 10; oct2 := 0; oct3 := 0; oct4 := 5 |} in
      let key := verify_key ip "db/password" in all
      [ assert_eq key "verify:10.0.0.5:db/password";
        assert_ne key (ip_to_string ip) ]) ].

(** ** Tests that start a node *)

(** How the tests write their bodies. *)
Class TestBodies := {
  body_create : CreateSecretRequest → bytes;
  body_update : UpdateSecretRequest → bytes;
  body_verify : VerifyRequest → bytes;
}.

Section node_tests.
Context `{RE : !Redb, SE : !StoreSerde, CC : !CryptoCrates, PL : !Platform, NET : !Ipnet, HO : !HashOrder}.
Context `{UP : !Serde UserPass, SB : !Serde BackupData, RT : !RaftTypes, RR : !RaftRpc, PS : !PeerSerde}.
Context `{JB : !JsonBodies, TB : !TestBodies}.
Context (node_env : ∀ X, node_call X → World Database → World Database * X) (aws_client : AwsClient).
#[local] Instance test_store : VaultStore Database := RedbStore.redb_store 1.

Notation node_test := (ste (World Database) string).
Notation node_tests := (list (string * node_test unit)).

Definition test_config (bootstrap_token : option string) (allowed_ips : string) (trust_proxy : bool)
    (pg_target_hosts : string) (max_failures : Z) : Config := {|
  cfg_node_id := 1; cfg_peers := [];
  cfg_api_listen := {| sa_ip := V4 {| oct1 := 127; oct2 := 0; oct3 := 0; oct4 := 1 |}; sa_scope := 0; sa_port := 0 |};
  cfg_db_path := "test.redb"; cfg_bootstrap_token := bootstrap_token; cfg_allowed_ips := allowed_ips;
  cfg_trust_proxy := trust_proxy; cfg_read_consistency_linearizable := false; cfg_kms_mode := Local;
  cfg_kms_key_id := ""; cfg_local_master_key_b64 := None; cfg_raft_bind := "0.0.0.0";
  cfg_cluster_token := None; cfg_cluster_auth_required := false; cfg_raft_peer_check := false;
  cfg_rotation_poll_secs := 60; cfg_pg_target_hosts := pg_target_hosts; cfg_pg_target_tls := Disable;
  cfg_pg_target_ca_file := None; cfg_dek_cache_ttl_secs := 0; cfg_kms_max_retries := 0;
  cfg_kms_rewrap_enabled := false; cfg_kms_rewrap_poll_secs := 86400; cfg_kms_rewrap_max_per_sec := 0;
  cfg_auth_max_failures := max_failures; cfg_auth_lockout_secs := 900; cfg_auth_window_secs := 300;
  cfg_token_touch_secs := 300 |}.

Definition start_app (cfg : Config) : node_test (AppState Database) := λ w,
  let '(w', r) := build_state node_env 1 aws_client cfg w in (w', vt_state <$> expect r "build_state").

Definition call (app : AppState Database) (m : method) (path : string) (parts : Parts) (body : bytes) : node_test reply :=
  run_prog (respond app m path parts body).

Definition answers (what : string) (expected : Z) (m : node_test reply) : node_test reply :=
  r ← m; lift_result (assert (bool_decide (reply_status r = Some expected)) what) ;; mret r.
Definition expects (what : string) (expected : Z) (m : node_test reply) : node_test unit :=
  _ ← answers what expected m; mret tt.

Definition addr (a b c d : Z) : IpAddr := V4 {| oct1 := a; oct2 := b; oct3 := c; oct4 := d |}.
Definition from (authorization forwarded_for : option string) (ip : option IpAddr) : Parts :=
  {| p_authorization := authorization; p_forwarded_for := forwarded_for; p_connect_ip := ip |}.

Definition secret_request (name : string) (kind : SecretKind) (value : option string) (interval : option Z)
    : CreateSecretRequest :=
  {| cr_name := name; cr_kind := kind; cr_value := value; cr_username := None; cr_password := None;
     cr_description := None; cr_rotation_interval_secs := interval; cr_grace_period_secs := None; cr_target := None |}.
Definition verify_body (value : string) : bytes := body_verify {| vq_value := value |}.

(** *** guard_security.rs *)

Definition app (allowed_ips : string) : node_test (AppState Database) :=
  start_app (test_config None allowed_ips false "" 0).
Definition LOCKOUT_TOKEN : string := "lockout-test-token".
Definition app_with_lockout (allowed_ips : string) (max_failures : Z) : node_test (AppState Database) :=
  start_app (test_config (Some LOCKOUT_TOKEN) allowed_ips false "" max_failures).
Definition app_with_proxy (allowed_ips : string) (max_failures : Z) : node_test (AppState Database) :=
  start_app (test_config (Some LOCKOUT_TOKEN) allowed_ips true "" max_failures).

Definition forwarded (token : bool) (peer : IpAddr) (claimed : string) : Parts :=
  from (if token then Some ("Bearer " +:+ LOCKOUT_TOKEN) else None) (Some claimed) (Some peer).
Definition json_parts (token : bool) : Parts :=
  from (if token then Some ("Bearer " +:+ LOCKOUT_TOKEN) else None) None (Some (addr 10 0 0 5)).

Definition guard_tests : node_tests :=
  let body := body_create (secret_request "x" Manual (Some "y") None) in
  [ ("create_requires_admin_token",
      app ← app "10.0.0.0/24";
      expects "UNAUTHORIZED" 401 (call app POST "/v1/secrets" (from None None None) body));
    ("create_with_malformed_authorization_is_unauthorized",
      app ← app "10.0.0.0/24";
      expects "UNAUTHORIZED" 401 (call app POST "/v1/secrets" (from (Some "Basic abc") None None) body));
    ("read_from_disallowed_ip_is_forbidden",
      app ← app "10.0.0.0/24";
      expects "FORBIDDEN" 403 (call app GET "/v1/secrets/foo" (from None None (Some (addr 192 168 1 1))) []));
    ("read_without_connect_info_is_forbidden",
      app ← app "10.0.0.0/24";
      expects "FORBIDDEN" 403 (call app GET "/v1/secrets/foo" (from None None None) []));
    ("empty_allowlist_denies_all_reads",
      app ← app "";
      expects "FORBIDDEN" 403 (call app GET "/v1/secrets/foo" (from None None (Some (addr 10 0 0 9))) []));
    ("verify_from_disallowed_ip_is_forbidden",
      app ← app "10.0.0.0/24";
      expects "FORBIDDEN" 403
        (call app POST "/v1/secrets/foo/verify" (from None None (Some (addr 203 0 113 5))) (verify_body "x"))) ].

Definition lockout_tests : node_tests :=
  [ ("failed_verifies_do_not_disable_secret_reads",
      app ← app_with_lockout "10.0.0.0/24" 3;
      expects "CREATED" 201 (call app POST "/v1/secrets" (json_parts true)
        (body_create (secret_request "db/password" Manual (Some "right") None))) ;;
      ste_iter (λ _, expects "OK" 200
        (call app POST "/v1/secrets/db/password/verify" (json_parts false) (verify_body "wrong"))) [0; 1; 2] ;;
      expects "wrong values presented to verify must not cost the caller its secret reads" 200
        (call app GET "/v1/secrets/db/password" (from None None (Some (addr 10 0 0 5))) []) ;;
      expects "verify itself must lock out after the configured number of failures" 429
        (call app POST "/v1/secrets/db/password/verify" (json_parts false) (verify_body "wrong")));
    ("failed_token_auth_still_disables_secret_reads",
      app ← app_with_lockout "10.0.0.0/24" 3;
      ste_iter (λ _, expects "UNAUTHORIZED" 401
        (call app POST "/v1/secrets" (from (Some "Bearer wrong-token") None (Some (addr 10 0 0 5)))
           (body_create (secret_request "x" Manual (Some "y") None)))) [0; 1; 2] ;;
      expects "a bad admin token must still lock the client IP out of reads" 429
        (call app GET "/v1/secrets/anything" (from None None (Some (addr 10 0 0 5))) [])) ].

Definition proxy_tests : node_tests :=
  [ ("a_forged_forwarded_address_cannot_lock_out_another_client",
      app ← app_with_proxy "10.0.0.0/24" 3;
      let proxy := addr 172 30 0 2 in
      let attacker := addr 203 0 113 9 in
      let victim := "10.0.0.5" in
      expects "CREATED" 201 (call app POST "/v1/secrets" (forwarded true proxy victim)
        (body_create (secret_request "db/password" Manual (Some "right") None))) ;;
      ste_iter (λ _, expects "OK" 200
        (call app POST "/v1/secrets/db/password/verify" (forwarded false attacker victim) (verify_body "wrong")))
        [0; 1; 2] ;;
      expects "the claimed address must not decide whose counter is charged" 200
        (call app GET "/v1/secrets/db/password" (from None (Some victim) (Some proxy)) []) ;;
      expects "changing the claimed address must not reset the sender's own counter" 429
        (call app POST "/v1/secrets/db/password/verify" (forwarded false attacker "10.0.0.6") (verify_body "wrong")));
    ("healthz_is_public",
      app ← app "10.0.0.0/24";
      expects "OK" 200 (call app GET "/healthz" (from None None None) [])) ].

(** *** routing.rs *)

Definition routing_app (token : string) : node_test (AppState Database) :=
  start_app (test_config (Some token) "10.0.0.0/24" false "" 0).

(** The parts of a request, with or without the token. *)
Definition routing_parts (token : bool) : Parts :=
  from (if token then Some "Bearer routing-test-token" else None) None (Some (addr 10 0 0 9)).

Definition seed (app : AppState Database) (name value : string) : node_test unit :=
  expects ("seed " +:+ name) 201 (call app POST "/v1/secrets" (routing_parts true)
    (body_create (secret_request name Automatic (Some value) (Some 3600%Z)))).

(** The answer is a value with this text, or with this version. *)
Definition shows_value (text : string) (r : reply) : bool :=
  match r with Answered (Value v) => bool_decide (sv_value v = Some text) | _ => false end.
Definition shows_version (version : Z) (r : reply) : bool :=
  match r with Answered (Value v) => bool_decide (sv_version v = version) | _ => false end.
Definition shows_valid (valid : bool) (r : reply) : bool :=
  match r with Answered (Verified v) => bool_decide (vr_valid v = valid) | _ => false end.

Definition routing_tests : node_tests :=
  [ ("a_name_with_a_slash_is_readable_through_its_own_url",
      app ← routing_app "routing-test-token";
      seed app "db/password" "s3cr3t" ;;
      r ← answers "OK" 200 (call app GET "/v1/secrets/db/password" (routing_parts false) []);
      lift_result (holds_true (shows_value "s3cr3t" r)) ;;
      r ← answers "the encoded form must keep working" 200
            (call app GET "/v1/secrets/db%2Fpassword" (routing_parts false) []);
      lift_result (holds_true (shows_value "s3cr3t" r)));
    ("a_name_with_a_slash_can_be_rotated_and_verified_through_its_own_url",
      app ← routing_app "routing-test-token";
      seed app "pg/app" "first" ;;
      r ← answers "OK" 200 (call app POST "/v1/secrets/pg/app/verify" (routing_parts false) (verify_body "first"));
      lift_result (holds_true (shows_valid true r)) ;;
      r ← answers "OK" 200 (call app POST "/v1/secrets/pg/app/rotate" (routing_parts true) []);
      lift_result (holds_true (shows_version 2 r)));
    ("a_name_with_a_slash_can_be_updated_and_deleted_through_its_own_url",
      app ← routing_app "routing-test-token";
      seed app "svc/key" "one" ;;
      expects "OK" 200 (call app PUT "/v1/secrets/svc/key" (routing_parts true)
        (body_update {| ur_value := Some "two"; ur_username := None; ur_password := None; ur_description := None;
                        ur_rotation_interval_secs := None; ur_grace_period_secs := None |})) ;;
      expects "NO_CONTENT" 204 (call app DELETE "/v1/secrets/svc/key" (routing_parts true) []));
    ("an_unknown_action_suffix_is_not_found",
      app ← routing_app "routing-test-token";
      seed app "db/password" "s3cr3t" ;;
      expects "NOT_FOUND" 404 (call app POST "/v1/secrets/db/password/bogus" (routing_parts true) [])) ].

Definition routing_name_tests : node_tests :=
  [ ("create_rejects_a_name_with_dot_segments",
      app ← routing_app "routing-test-token";
      expects "BAD_REQUEST" 400 (call app POST "/v1/secrets" (routing_parts true)
        (body_create (secret_request "a/../b" Manual (Some "x") None))));
    ("create_rejects_an_empty_value_and_verify_rejects_an_empty_presentation",
      app ← routing_app "routing-test-token";
      expects "BAD_REQUEST" 400 (call app POST "/v1/secrets" (routing_parts true)
        (body_create (secret_request "empty/one" Manual (Some "") None))) ;;
      seed app "empty/two" "real" ;;
      r ← answers "OK" 200 (call app POST "/v1/secrets/empty/two/verify" (routing_parts false) (verify_body ""));
      lift_result (holds_true (shows_valid false r))) ].

(** *** rotation.rs *)

Definition UNREACHABLE_TARGET : string := "127.0.0.1:1".

Definition rotation_app : node_test (AppState Database) :=
  start_app (test_config (Some "rotation-test-token") "10.0.0.0/24" false UNREACHABLE_TARGET 0).
Definition rotation_parts (token : bool) : Parts :=
  from (if token then Some "Bearer rotation-test-token" else None) None (Some (addr 10 0 0 9)).

Definition create_target_body : bytes := body_create {|
  cr_name := "pg/app"; cr_kind := Automatic; cr_value := None; cr_username := Some "app";
  cr_password := Some "first"; cr_description := None; cr_rotation_interval_secs := Some 86400%Z;
  cr_grace_period_secs := Some 3600%Z;
  cr_target := Some (PgReplica {| pg_hosts := [UNREACHABLE_TARGET]; pg_database := "postgres"; pg_role := None;
                                  pg_login_secret := None |}) |}.

(** The times at which some secret of a listing is rotated next. *)
Definition listed_rotations (r : reply) : list string :=
  match r with Answered (Listing l) => omap sm_next_rotation_at l | _ => [] end.

Definition test_now : node_test Z := run_prog now_unix.

Definition rotation_tests : node_tests :=
  [ ("a_failed_target_apply_leaves_the_new_password_stored_and_retries_soon",
      app ← rotation_app;
      expects "CREATED" 201 (call app POST "/v1/secrets" (rotation_parts true) create_target_body) ;;
      before ← test_now;
      expects "an unreachable target must fail the call" 500
        (call app POST "/v1/secrets/pg/app/rotate" (rotation_parts true) []) ;;
      after ← test_now;
      r ← answers "OK" 200 (call app GET "/v1/secrets/pg/app" (rotation_parts false) []);
      lift_result (assert (shows_version 2 r)
        "the new version must be committed before the target apply is attempted") ;;
      lift_result (assert (match r with Answered (Value v) => bool_decide (sv_password v ≠ Some "first") | _ => false end)
        "the stored password must be the newly generated one") ;;
      r ← answers "OK" 200 (call app GET "/v1/secrets" (rotation_parts true) []);
      let retry_window := (λ at_, rfc3339 (at_ + 60)%Z) <$> seqZ before (after - before + 1) in
      lift_result (assert (existsb (λ at_, bool_decide (at_ ∈ listed_rotations r)) retry_window)
        "a failed apply must schedule a retry about 60s out, not a full interval") ;;
      lift_result (assert (negb (bool_decide (rfc3339 (before + 86400)%Z ∈ listed_rotations r)))
        "the next attempt must not wait for the full rotation interval"));
    ("a_secret_without_a_target_rotates_normally",
      app ← rotation_app;
      expects "CREATED" 201 (call app POST "/v1/secrets" (rotation_parts true)
        (body_create (secret_request "svc/token" Automatic None (Some 86400%Z)))) ;;
      r ← answers "OK" 200 (call app POST "/v1/secrets/svc/token/rotate" (rotation_parts true) []);
      lift_result (holds_true (shows_version 2 r))) ].

Definition run_nodes (w : World Database) (l : node_tests) : suite := (λ '(name, t), (name, (t w).2)) <$> l.
End node_tests.

(** ** raft_peer_auth.rs *)

Section peer_auth_tests.
Context `{RE : !Redb, RT : !RaftTypes, RR : !RaftRpc, CC : !CryptoCrates, PS : !PeerSerde, AX : !Axum, SE : !StoreSerde}.
Context {S : Type} (node_env : ∀ X, node_call X → S → S * X).
(** openraft's append request of term 9 from a leader, with no entries *)
Context (append_request : Z → bool → AppendEntriesRequest).
Notation peer_test := (ste S string).

Definition run_node {A} (m : calls node_call A) : peer_test A := λ s,
  let '(s', a) := exec node_env m s in (s', Ok a).

Definition TOKEN : string := "cluster-secret".
Definition DELETE_COMMAND : bytes := default [] (to_vec (DeleteSecret "db/password")).
Definition test_peers : BTreeMap string := [(1%Z, "127.0.0.1:17700"); (2%Z, "127.0.0.1:17701")].

Definition peer_router (token : option string) (required peer_check : bool) : peer_test ServerState :=
  auth ← lift_result (expect (peer_auth_new token required) "peer auth");
  started ← run_node (RaftNode.start 1 test_peers auth);
  _ ← lift_result (expect started "raft node");
  addrs ← run_node (peer_addrs_new peer_check test_peers);
  mret {| ss_auth := auth; ss_peers := addrs |}.

Definition peer_request (route : RaftRoute) (body : bytes) (token : option string) (source : IpAddr) : RaftRequest := {|
  rr_route := route; rr_source := Some source;
  rr_authorization := (λ token, "Bearer " +:+ token) <$> token; rr_body := body |}.

Definition peer_status (app : ServerState) (request : RaftRequest) : peer_test Z :=
  response ← run_node (raft_router app request); mret (resp_status response).

Definition append_body (leader : Z) (committed : bool) : bytes := default [] (to_vec (append_request leader committed)).

Definition peer_auth_tests : list (string * peer_test unit) :=
  let localhost := addr 127 0 0 1 in
  let UNAUTHORIZED := 401%Z in let FORBIDDEN := 403%Z in let BAD_REQUEST := 400%Z in
  [ ("without_a_credential_the_write_route_is_open_as_before",
      app ← peer_router None false false;
      sent ← peer_status app (peer_request RouteApply DELETE_COMMAND None localhost);
      lift_result (assert_ne sent UNAUTHORIZED));
    ("during_the_rollout_pass_a_wrong_credential_is_already_refused",
      app ← peer_router (Some TOKEN) false false;
      missing ← peer_status app (peer_request RouteApply DELETE_COMMAND None localhost);
      lift_result (assert_ne missing UNAUTHORIZED) ;;
      wrong ← peer_status app (peer_request RouteApply DELETE_COMMAND (Some "guess") localhost);
      lift_result (assert_eq wrong UNAUTHORIZED));
    ("when_required_every_route_needs_the_credential",
      app ← peer_router (Some TOKEN) true false;
      missing ← mapM (λ uri, peer_status app (peer_request uri DELETE_COMMAND None localhost))
        [RouteApply; RouteAppend; RouteVote; RouteSnapshot];
      lift_result (each (λ status, assert_eq status UNAUTHORIZED) missing) ;;
      right ← peer_status app (peer_request RouteApply DELETE_COMMAND (Some TOKEN) localhost);
      lift_result (assert_ne right UNAUTHORIZED));
    ("a_source_address_that_is_not_a_peer_is_refused",
      app ← peer_router (Some TOKEN) true true;
      stranger ← peer_status app (peer_request RouteApply DELETE_COMMAND (Some TOKEN) (addr 203 0 113 9));
      lift_result (assert_eq stranger FORBIDDEN) ;;
      peer ← peer_status app (peer_request RouteApply DELETE_COMMAND (Some TOKEN) localhost);
      lift_result (assert_ne peer FORBIDDEN));
    ("an_append_from_an_unknown_node_id_or_with_an_uncommitted_vote_is_refused",
      app ← peer_router (Some TOKEN) true false;
      stranger ← peer_status app (peer_request RouteAppend (append_body 99 true) (Some TOKEN) localhost);
      lift_result (assert_eq stranger FORBIDDEN) ;;
      uncommitted ← peer_status app (peer_request RouteAppend (append_body 2 false) (Some TOKEN) localhost);
      lift_result (assert_eq uncommitted BAD_REQUEST)) ].

Definition run_peers (s : S) (l : list (string * peer_test unit)) : suite := (λ '(name, t), (name, (t s).2)) <$> l.
End peer_auth_tests.

(** ** The tests pass *)

Module ApiTests.
#[export] Instance test_bodies : TestBodies := {| body_create := ser; body_update := ser; body_verify := ser |}.

(** The sample platform, with no Postgres server in reach. *)
#[export] Instance no_postgres : Platform := {|
  Os := Os; os_unix_time := os_unix_time; os_instant := os_instant; os_random := os_random; os_sleep := os_sleep;
  os_tick := os_tick; os_leader := os_leader; PgClient := PgClient; TlsConnector := TlsConnector;
  CertificateDer := CertificateDer; RootCertStore := RootCertStore; roots_empty := roots_empty;
  roots_len := roots_len; roots_add := roots_add; roots_add_parsable := roots_add_parsable;
  os_pem_file := os_pem_file; os_native_certs := os_native_certs; tls_client := tls_client;
  os_pg_connect _ _ s := (s, ConnectFailed "connection refused");
  os_pg_rotate_credential := os_pg_rotate_credential; format_rfc3339 := format_rfc3339 |}.

Definition fresh : World Database :=
  {| w_os := 1%N : Os; w_store := empty_database; w_cache := ∅; w_busy := false |}.

Definition no_aws : AwsClient := {|
  aws_generate_data_key _ _ s := (s, Err "unreachable");
  aws_decrypt _ _ _ s := (s, Err "unreachable");
  aws_re_encrypt _ _ _ _ s := (s, Err "unreachable");
  aws_list_key_rotations _ _ s := (s, Err "unreachable") |}.

(** The calls of the Raft start-up, which a single node does not make. *)
Definition no_raft X (c : node_call X) (w : World Database) : World Database * X :=
  let '(d, x) := Pair.leader_db X c (w_store w) in (set_store d w, x).

(** A node whose peers resolve to the local host; its store and the addresses
    it remembers are the state. *)
Definition resolving X (c : node_call X) : Database * gset IpAddr → (Database * gset IpAddr) * X :=
  match c in node_call X return Database * gset IpAddr → (Database * gset IpAddr) * X with
  | LookupHost _ _ => λ s, (s, Resolved [(addr 127 0 0 1, 17700%Z)])
  | ReadResolved => λ s, (s, s.2)
  | WriteResolved addrs => λ s, ((s.1, addrs), tt)
  | c => λ s, let '(d, x) := Pair.leader_db _ c s.1 in ((d, s.2), x)
  end.
Definition append_from (leader : Z) (committed : bool) : Z := if committed then leader else (- leader)%Z.
End ApiTests.
Import ApiTests.

Example api_unit_tests_pass :
  failures (service_unit_tests [] ++ peer_unit_tests ++ raft_types_tests ++ lockout_unit_tests
    ++ run_tests (VS := RedbStore.redb_store 1) fresh pg_unit_tests) = [].
Proof. vm_compute. reflexivity. Qed.

Example node_tests_pass :
  failures (run_nodes fresh (guard_tests no_raft no_aws ++ lockout_tests no_raft no_aws ++ proxy_tests no_raft no_aws
    ++ routing_tests no_raft no_aws ++ routing_name_tests no_raft no_aws ++ rotation_tests no_raft no_aws)) = [].
Proof. vm_compute. reflexivity. Qed.

Example peer_auth_tests_pass :
  failures (run_peers (empty_database, ∅) (peer_auth_tests resolving append_from)) = [].
Proof. vm_compute. reflexivity. Qed.
